(* ===== verification/_CoqProject ===== *)
-Q . S2P
Prelude.v
Heapless.v
Crypto.v
Types.v
AuditLog.v
Capability.v
Revocation.v
Policy.v
Ledger.v
Topology.v
Scheduler.v
Reservation.v
Hsm.v
Tpm.v
Manifest.v
Boot.v
Raft.v
RaftSafety.v
Cluster.v
LogMatching.v
Divergence.v
Completeness.v
Decisions.v
StateMachine.v
ReplicatedLog.v
Repair.v
Consensus.v
Liveness.v
Wasm.v
Executor.v
Python.v
Harness.v
Lifecycle.v
System.v
