(* ===== verification/Prelude.v ===== *)
(** * Lux kernel: a verification development

    Lux is a small capability kernel written in Rust ([src/src/]).  A signed boot manifest
    declares nodes, directed edges and per-node quotas; after boot every operation passes
    one of four gates, each of which records its decision in a hash-chained audit log:
    fail-closed decisions (I1), capability-gated operations (I2, [Policy::check]),
    accountable resources (I3, [QuotaEnforcer::deduct]) and topology-bounded execution (I4,
    [OperationalGraph::traverse]).  Around the gates stand a scheduler, a reservation
    ledger, HSM and TPM providers, a Raft round for topology changes and a WASM boundary.

    ** How the code is modelled

    Every definition is executable and bears the name of the Rust item it translates, in a
    file per Rust type, so [AuditLog.append] is [AuditLog::append] of [src/audit/log.rs].
    - A [&mut self] method is a function from the state to the final state and the result;
      what an early return leaves behind is therefore part of the model.
    - [Result<T, E>] is [result E T] and [?] its bind; errors carry their reason strings.
    - A [uN] is a [Z] with its range as a predicate.  Saturating and checked operations are
      written out; a plain [+] returns an [option], [None] being the abort that
      [overflow-checks = true] and [panic = abort] give.
    - Loops over a collection are structural; [while] loops take fuel, with a theorem that
      the fuel given is enough ([Scheduler.drain_ordered_sorted], [Liveness.rounds_terminate];
      the gather loop of [Raft.send_ae_to] breaks by its seventeenth iteration).
      [Liveness.consensus_live] shows that two messages per peer are enough for a round.
    - Third-party crates are parameters: a class with the operations the kernel calls and a
      class with their documented laws.  [Heapless.v] has the containers of [heapless] and
      the sets of [bitflags]; [Crypto.v] has [sha2], [ed25519-dalek] and [minicbor];
      [Executor.v] has [wasmtime].  They show that the laws can hold, and the witnesses run on those models.  No law
      claims collision resistance or unforgeability: such theorems are reductions to a
      collision between two inputs that the code hashed, named in the statement, or to a
      signature that a given key accepts for two messages.
    - Rust traits ([HsmProvider], [KeyManagement], [TpmProvider], [RaftTransport]) are
      classes; their contracts are law classes that the implementations of the repository
      are shown to satisfy.

    ** The files

    - [Prelude]: results, machine integers, bytes, shared lemmas and tactics.
    - [Heapless], [Crypto]: the interfaces of the external crates.
    - [Types]: [types.rs], [error.rs].
    - [AuditLog]: [audit/].  Invariant of the log, exact behaviour of [append], tamper
      evidence, JSON export.
    - [Capability], [Revocation], [Policy]: [auth/].  Delegation never escalates; the exact
      decision of the gate and its audit record; nonces are single-use; revocation and
      rotation are sound; the behaviour at the last generation.
    - [Ledger]: [metabolism/].  Atomic deductions, accounting over request sequences.
    - [Topology]: [topology/].  The bit matrix refines a graph of finite sets; a traversal
      is permitted exactly if the edge was declared before sealing.
    - [Scheduler]: [scheduler/].  Conservation of items, ordered drain, gated scheduling.
    - [Reservation]: [auth/reservation.rs].  Lifecycle state machine, one-shot use, cascade,
      unique identifiers.
    - [Hsm], [Tpm]: [hsm/], [tpm/].  Provider contracts, signed capabilities, key rotation;
      what a verified quote proves.
    - [Manifest]: [boot/manifest.rs], [boot/credentials.rs], [boot/decode.rs].  Signature
      before parsing, well-formed results, round trip with the documented format.
    - [Boot]: [boot/mod.rs].  When boot succeeds and that the booted state is what the
      manifest declares; attestation.
    - [Raft]: [consensus/].  One vote per term, majority-backed commits, log matching on a
      follower, and three defects of the handlers.
    - [RaftSafety]: one node.  Exactly when an operation aborts on an overflow, with the
      invariant every operation keeps; the commit rule against its reference; how a
      follower's commit index passes what it has matched.
    - [Cluster]: several nodes and a network that reorders, delays and loses packets, as a
      step relation.  Election safety by an invariant on ballots in flight.
    - [LogMatching]: the same clusters.  Log matching, with a ghost history of the logs of
      all leaders.
    - [Divergence]: an execution in which two nodes commit different entries at one index.
    - [Completeness], [Decisions]: the same clusters.  What a leader commits under its quorum
      rule is in the log of every later leader, so the commits that [step] reports never
      conflict; with ghost records of campaigns, votes and acknowledgements.
    - [StateMachine]: the exact reach of the divergence.  All commits agree as long as no
      message announces a commit index beyond its entries, which is so while logs fit into
      the sixteen entries of a message.
    - [ReplicatedLog]: the abstract specification of consensus, a single log that grows by
      proposals, and the trace refinement of it by clusters: by the commits leaders report in
      every execution, and by the commits of all nodes under the condition of [StateMachine].
    - [Repair]: a leader and a peer whose messages arrive.  How many proposals make the logs
      equal, and the length from which a leader can no longer repair an empty log.
    - [Consensus]: [BootState::run_topology_consensus].  The local graph is authoritative;
      what bounds the number of messages a round receives, and a transport on which it runs
      for ever.
    - [Liveness]: the same rounds against peers that run the node of this repository.  They
      terminate; the first one commits at every cluster size; no later one does.
    - [Wasm]: [wasm/mod.rs], [wasm/host.rs].  [guest_confined]: from the bytes of a signed
      manifest to any sequence of host calls, the four invariants hold together.
    - [Executor]: [wasm/executor.rs] over an interface of [wasmtime], whose law is that a
      guest changes the store only through its imports; guest code may run for ever and is
      watched for a time given as fuel.  The outcome of a call, and [executor_confined], the
      guarantee of [Wasm] at every moment of a session of guest modules.
    - [Python]: [python/].  The log driven from Python, the feature gate and the
      coordination gate with its [f64] thresholds: exact decisions, and reasons that reach
      the log unchanged.
    - [Harness]: the Kani harnesses, the fuzz targets and the unit tests of the modules, as
      programs with a panic as [None].  The harnesses and fuzz targets hold for all inputs.
    - [Lifecycle]: [examples/boot_and_delegate.rs], which runs to its end.
    - [System]: the booted kernel with its scheduler, reservation ledger and consensus
      rounds as one transition system over a shared audit log.  [kernel_sound]: whatever
      host and guests interleave, the invariants of all parts hold together.

    Files with theorems end with a module [Witness] of concrete instances.  Theorems without a claim
    number that record a departure from the documentation stand beside the code they are
    about: [Capability.delegate_not_strict], [Revocation.epoch_counts_repeats],
    [Policy.audit_full_spends_nonce], [Ledger.audit_full_masks_quota],
    [Reservation.capacity_not_reclaimed], [Tpm.attestation_hash_unbound],
    [Raft.vote_sender_ignored], [Raft.ack_beyond_capacity], [Raft.reply_overflow_aborts],
    [RaftSafety.commit_beyond_match], [Cluster.Witness.duplication_elects_two],
    [Policy.rotation_at_max_revives], [Consensus.commit_unlogged], [Wasm.undeclared_bits_permitted],
    [Python.nan_authority_approved], [Python.kind_names_agree].

    ** Not modelled

    Elections under a fair scheduler: the code has no timers, so when a node campaigns
    is its caller's choice, and what follows from a choice is [Liveness] and [Repair].
    Clusters assume that the network does not duplicate packets, since with
    duplication two nodes can lead one term ([Cluster.Witness.duplication_elects_two]).
    Out of scope are the inside of the wasmtime engine, persistence (the kernel has none: a node that
    crashes does not return), the clearing of key memory on drop, [Debug] formatting, the
    benchmark, the integration tests under [tests/] and module glue. *)
From stdpp Require Import base tactics list numbers option gmap strings.
From Stdlib Require Import ZArith Lia.

(** ** Rust results

    [core::result::Result<T, E>].  A function that takes [&mut self] and returns a
    [Result] is modelled as a function from the state to the pair of the final state
    and the result, so that what an early return leaves behind is explicit. *)

Inductive result (E T : Type) : Type :=
| Ok (t : T)
| Err (e : E).
Arguments Ok {E T} t.
Arguments Err {E T} e.

(** The [?] operator on a [Result] is the bind of this monad: [x ← c; k]. *)
#[global] Instance result_bind {E} : MBind (result E) :=
  fun A B f c => match c with Ok x => f x | Err e => Err e end.
#[global] Instance result_ret {E} : MRet (result E) := fun A x => Ok x.

Definition is_ok {E T} (r : result E T) : bool :=
  match r with Ok _ => true | Err _ => false end.

Definition is_err {E T} (r : result E T) : bool :=
  match r with Ok _ => false | Err _ => true end.

(** [Result::err]. *)
Definition err_of {E T} (r : result E T) : option E :=
  match r with Ok _ => None | Err e => Some e end.

(** [Option::ok_or]. *)
Definition ok_or {E T} (o : option T) (e : E) : result E T :=
  match o with Some t => Ok t | None => Err e end.

Lemma is_ok_true {E T} (r : result E T) : is_ok r = true <-> exists t, r = Ok t.
Proof. destruct r; cbn; naive_solver. Qed.

Lemma is_ok_pair {S E T} (x : S * result E T) : is_ok x.2 = true -> exists t, x = (x.1, Ok t).
Proof. destruct x as [s [t|e]]; cbn; [by exists t|done]. Qed.

Lemma ok_or_Ok {E T} (o : option T) (e : E) t : ok_or o e = Ok t <-> o = Some t.
Proof. destruct o; cbn; naive_solver. Qed.

(** Inversion of a [?] step. *)
Lemma bind_Ok {E A B} (c : result E A) (f : A -> result E B) b :
  (c ≫= f) = Ok b <-> exists a, c = Ok a /\ f a = Ok b.
Proof. destruct c; cbn; split; [eauto|intros (? & [= <-] & ?); done|done|by intros (? & ? & _)]. Qed.

Lemma bind_Err {E A B} (c : result E A) (f : A -> result E B) e :
  (c ≫= f) = Err e -> c = Err e \/ exists a, c = Ok a /\ f a = Err e.
Proof. destruct c; cbn; [right; eauto|]. intros [= <-]. by left. Qed.

#[global] Instance result_eq_dec {E T} `{EqDecision E, EqDecision T} : EqDecision (result E T).
Proof. solve_decision. Defined.

(** ** Machine integers

    A [uN] is a [Z] in [0, 2^N); the three overflow disciplines the source uses are
    saturation, [checked_*], and plain [+]/[-], which aborts on overflow because both
    profiles of Cargo.toml set [overflow-checks = true] and [panic = abort]. *)

Open Scope Z_scope.

Definition U8_MAX : Z := 255.
Definition U32_MAX : Z := 4294967295.
Definition U64_MAX : Z := 18446744073709551615.

Definition in_u8 (x : Z) : Prop := 0 <= x <= U8_MAX.
Definition in_u32 (x : Z) : Prop := 0 <= x <= U32_MAX.
Definition in_u64 (x : Z) : Prop := 0 <= x <= U64_MAX.

(** [u64::saturating_add], [u64::saturating_sub]. *)
Definition saturating_add_u64 (a b : Z) : Z := Z.min (a + b) U64_MAX.
Definition saturating_sub_u64 (a b : Z) : Z := Z.max (a - b) 0.

(** [u64::checked_sub]. *)
Definition checked_sub_u64 (a b : Z) : option Z :=
  if b <=? a then Some (a - b) else None.

(** [a + b] on [u64]: [None] is the abort. *)
Definition add_u64 (a b : Z) : option Z :=
  if a + b <=? U64_MAX then Some (a + b) else None.

Ltac unfold_width := unfold in_u8, in_u32, in_u64, U8_MAX, U32_MAX, U64_MAX in *.

Ltac width_lia := unfold saturating_add_u64, saturating_sub_u64 in *; unfold_width; lia.

(** Ground width obligations: everything is a numeral after evaluation. *)
Ltac ground := vm_compute; repeat split; discriminate.

Lemma saturating_add_u64_range a b : in_u64 a -> in_u64 b -> in_u64 (saturating_add_u64 a b).
Proof. width_lia. Qed.

Lemma checked_sub_u64_spec a b r :
  checked_sub_u64 a b = Some r <-> b <= a /\ r = a - b.
Proof. unfold checked_sub_u64. destruct (Z.leb_spec b a); naive_solver lia. Qed.

Lemma checked_sub_u64_None a b : checked_sub_u64 a b = None <-> a < b.
Proof. unfold checked_sub_u64. destruct (Z.leb_spec b a); naive_solver lia. Qed.

Lemma add_u64_Some a b r : add_u64 a b = Some r <-> a + b <= U64_MAX /\ r = a + b.
Proof. unfold add_u64. destruct (Z.leb_spec (a + b) U64_MAX); naive_solver lia. Qed.

Lemma add_u64_fits a b : a + b <= U64_MAX -> add_u64 a b = Some (a + b).
Proof. intros H. by apply add_u64_Some. Qed.

(** ** Bytes *)

Definition byte := Z.
Definition bytes := list byte.

(** [uN::to_le_bytes] with [N = 8 * n]. *)
Fixpoint to_le_bytes (n : nat) (x : Z) : bytes :=
  match n with
  | O => []
  | S n' => x mod 256 :: to_le_bytes n' (x / 256)
  end.

(** [str::as_bytes]. *)
Fixpoint as_bytes (s : string) : bytes :=
  match s with
  | EmptyString => []
  | String c s' => Z.of_N (Ascii.N_of_ascii c) :: as_bytes s'
  end.

Lemma to_le_bytes_length n x : length (to_le_bytes n x) = n.
Proof. revert x. induction n as [|n IH]; intros x; cbn; [done|]. by rewrite IH. Qed.

Lemma to_le_bytes_range n x : Forall in_u8 (to_le_bytes n x).
Proof.
  revert x. induction n as [|n IH]; intros x; cbn; constructor; [|apply IH].
  pose proof (Z.mod_pos_bound x 256 ltac:(lia)). width_lia.
Qed.

Lemma to_le_bytes_inj n x y :
  0 <= x < 256 ^ Z.of_nat n -> 0 <= y < 256 ^ Z.of_nat n ->
  to_le_bytes n x = to_le_bytes n y -> x = y.
Proof.
  revert x y. induction n as [|n IH]; intros x y Hx Hy Heq; [cbn in *; lia|].
  cbn [to_le_bytes] in Heq. injection Heq as Hm Hd.
  rewrite Nat2Z.inj_succ, Z.pow_succ_r in Hx, Hy by lia.
  assert (x / 256 = y / 256) as Hq.
  { apply IH; [| |exact Hd]; (split; [apply Z.div_pos; lia|apply Z.div_lt_upper_bound; lia]). }
  rewrite (Z.div_mod x 256), (Z.div_mod y 256) by lia. congruence.
Qed.

Lemma as_bytes_inj s t : as_bytes s = as_bytes t -> s = t.
Proof.
  revert t. induction s as [|c s IH]; intros [|d t]; cbn; intros H; try done.
  injection H as Hc Hs. apply N2Z.inj in Hc.
  f_equal; [|by apply IH].
  rewrite <- (Ascii.ascii_N_embedding c), <- (Ascii.ascii_N_embedding d). congruence.
Qed.

Lemma as_bytes_range s : Forall in_u8 (as_bytes s).
Proof.
  induction s as [|c s IH]; cbn; constructor; [|done].
  pose proof (Ascii.N_ascii_bounded c). width_lia.
Qed.

Lemma string_app_assoc (a b c : string) : a +:+ b +:+ c = (a +:+ b) +:+ c.
Proof. induction a as [|x a IH]; [done|]. exact (f_equal (String x) IH). Qed.

Lemma string_app_nil (a : string) : a +:+ EmptyString = a.
Proof. induction a as [|x a IH]; [done|]. exact (f_equal (String x) IH). Qed.

(** ** Lists *)

(** Splitting an equation between appended lists at a known length. *)
Lemma app_inj_length {A} (l1 l2 k1 k2 : list A) :
  length l1 = length l2 -> l1 ++ k1 = l2 ++ k2 -> l1 = l2 /\ k1 = k2.
Proof. intros Hl He. by apply app_inj_1. Qed.

(** [slice::contains] on a slice of integers. *)
Definition contains_Z (l : list Z) (x : Z) : bool := bool_decide (x ∈ l).

Lemma contains_Z_true l x : contains_Z l x = true <-> x ∈ l.
Proof. unfold contains_Z. apply bool_decide_eq_true. Qed.

Lemma contains_Z_false l x : contains_Z l x = false <-> x ∉ l.
Proof. unfold contains_Z. apply bool_decide_eq_false. Qed.

Lemma Forall_snoc {A} (P : A -> Prop) l x : Forall P (l ++ [x]) <-> Forall P l /\ P x.
Proof. by rewrite Forall_app, Forall_singleton. Qed.
