(* ===== verification/Heapless.v ===== *)
(** * Interfaces of the [heapless] and [bitflags] crates

    The kernel stores its state in fixed-capacity containers of the third-party crate
    [heapless] and its rights in a set generated by [bitflags].  Neither is part of the
    repository, so each is a parameter: an operational type class holding the operations
    the kernel calls, and a class of laws stating their documented behaviour.  Every
    definition of the kernel is generic in the operations and every theorem takes the
    laws as a hypothesis.

    The module [ListModel] shows that the laws can hold, and gives the executable
    containers that the concrete witnesses of the development run on. *)
From S2P Require Import Prelude.
From stdpp Require Import base tactics list numbers option gmap sorting.
Open Scope Z_scope.

(** ** [heapless::Vec<A, N>]

    [hv_slice] is the [Deref] to the slice of elements; every read-only slice method of
    the standard library is then a function of that list.  [hv_push] returns [None] when
    the item is handed back ([Err]), in which case the vector is as before.  [hv_update]
    is the assignment [v\[i\] = x] through [DerefMut]. *)

Class HVec := {
  hvec : nat -> Type -> Type;
  hv_new : forall {N A}, hvec N A;
  hv_slice : forall {N A}, hvec N A -> list A;
  hv_push : forall {N A}, hvec N A -> A -> option (hvec N A);
  hv_clear : forall {N A}, hvec N A -> hvec N A;
  hv_truncate : forall {N A}, hvec N A -> nat -> hvec N A;
  hv_update : forall {N A}, hvec N A -> nat -> A -> hvec N A;
}.

Definition hv_len `{HVec} {N A} (v : hvec N A) : nat := length (hv_slice v).

Class HVecLaws `{HV : HVec} : Prop := {
  hv_slice_new : forall N A, hv_slice (hv_new (N := N) (A := A)) = [];
  hv_push_room : forall N A (v : hvec N A) x,
    (hv_len v < N)%nat -> exists v', hv_push v x = Some v' /\ hv_slice v' = hv_slice v ++ [x];
  hv_push_full : forall N A (v : hvec N A) x, (N <= hv_len v)%nat -> hv_push v x = None;
  hv_slice_clear : forall N A (v : hvec N A), hv_slice (hv_clear v) = [];
  hv_slice_truncate : forall N A (v : hvec N A) n, hv_slice (hv_truncate v n) = take n (hv_slice v);
  hv_slice_update : forall N A (v : hvec N A) i x,
    (i < hv_len v)%nat -> hv_slice (hv_update v i x) = <[i := x]> (hv_slice v);
}.

(** Inversion of a successful [push]. *)
Lemma hv_push_Some `{HV : HVec} `{HL : !HVecLaws} {N A} (v w : hvec N A) x :
  hv_push v x = Some w -> hv_slice w = hv_slice v ++ [x] /\ (hv_len v < N)%nat.
Proof.
  intros Hp. destruct (decide (hv_len v < N)%nat) as [Hl|Hl].
  - destruct (hv_push_room N A v x Hl) as (w' & Hw & Hs). by simplify_eq.
  - by rewrite hv_push_full in Hp by lia.
Qed.

(** ** [heapless::LinearMap<u32, u64, N>]

    [lm_insert] returns the previous value, or [None] ([Err]) when a new key does not
    fit; [lm_write] is the assignment through the reference [get_mut] returns. *)

Class LinearMap := {
  lmap : nat -> Type;
  lm_new : forall {N}, lmap N;
  lm_len : forall {N}, lmap N -> nat;
  lm_get : forall {N}, lmap N -> Z -> option Z;
  lm_contains_key : forall {N}, lmap N -> Z -> bool;
  lm_insert : forall {N}, lmap N -> Z -> Z -> option (lmap N * option Z);
  lm_write : forall {N}, lmap N -> Z -> Z -> lmap N;
}.

Class LinearMapLaws `{LM : LinearMap} : Prop := {
  lm_get_new : forall N k, lm_get (lm_new (N := N)) k = None;
  lm_len_new : forall N, lm_len (lm_new (N := N)) = O;
  lm_contains_get : forall N (m : lmap N) k, lm_contains_key m k = true <-> is_Some (lm_get m k);
  lm_insert_old : forall N (m : lmap N) k v o, lm_get m k = Some o ->
    exists m', lm_insert m k v = Some (m', Some o) /\ lm_len m' = lm_len m /\
      (forall k', lm_get m' k' = if decide (k = k') then Some v else lm_get m k');
  lm_insert_fresh : forall N (m : lmap N) k v, lm_get m k = None -> (lm_len m < N)%nat ->
    exists m', lm_insert m k v = Some (m', None) /\ lm_len m' = S (lm_len m) /\
      (forall k', lm_get m' k' = if decide (k = k') then Some v else lm_get m k');
  lm_insert_full : forall N (m : lmap N) k v, lm_get m k = None -> (N <= lm_len m)%nat ->
    lm_insert m k v = None;
  lm_get_write : forall N (m : lmap N) k v k', is_Some (lm_get m k) ->
    lm_get (lm_write m k v) k' = if decide (k = k') then Some v else lm_get m k';
  lm_len_write : forall N (m : lmap N) k v, is_Some (lm_get m k) ->
    lm_len (lm_write m k v) = lm_len m;
}.

(** ** [heapless::FnvIndexSet<u64, N>]

    [insert] is [Ok(true)] for a new element, [Ok(false)] for one already present, and
    [Err] ([None] here) when a new element does not fit. *)

Class IndexSet := {
  iset : nat -> Type;
  is_new : forall {N}, iset N;
  is_len : forall {N}, iset N -> nat;
  is_contains : forall {N}, iset N -> Z -> bool;
  is_insert : forall {N}, iset N -> Z -> option (iset N * bool);
  is_clear : forall {N}, iset N -> iset N;
}.

Class IndexSetLaws `{IS : IndexSet} : Prop := {
  is_contains_new : forall N x, is_contains (is_new (N := N)) x = false;
  is_len_new : forall N, is_len (is_new (N := N)) = O;
  is_insert_old : forall N (s : iset N) x, is_contains s x = true ->
    is_insert s x = Some (s, false);
  is_insert_fresh : forall N (s : iset N) x, is_contains s x = false -> (is_len s < N)%nat ->
    exists s', is_insert s x = Some (s', true) /\ is_len s' = S (is_len s) /\
      (forall y, is_contains s' y = bool_decide (y = x) || is_contains s y);
  is_insert_full : forall N (s : iset N) x, is_contains s x = false -> (N <= is_len s)%nat ->
    is_insert s x = None;
  is_contains_clear : forall N (s : iset N) x, is_contains (is_clear s) x = false;
  is_len_clear : forall N (s : iset N), is_len (is_clear s) = O;
}.

(** ** [heapless::BinaryHeap<A, Min, N>]

    The heap is ordered by the [Ord] implementation of its elements, given as the total
    preorder [le].  [bh_elems] is [iter()], in the arbitrary order the crate documents. *)

Class BinaryHeap (A : Type) (le : A -> A -> bool) := {
  bheap : nat -> Type;
  bh_new : forall {N}, bheap N;
  bh_elems : forall {N}, bheap N -> list A;
  bh_push : forall {N}, bheap N -> A -> option (bheap N);
  bh_pop : forall {N}, bheap N -> option (A * bheap N);
}.

Definition bh_len {A : Type} {le : A -> A -> bool} `{BH : BinaryHeap A le} {N} (h : bheap N) : nat := length (bh_elems h).

Class BinaryHeapLaws {A : Type} {le : A -> A -> bool} `{BH : BinaryHeap A le} : Prop := {
  bh_elems_new : forall N, bh_elems (bh_new (N := N)) = [];
  bh_push_room : forall N (h : bheap N) x, (bh_len h < N)%nat ->
    exists h', bh_push h x = Some h' /\ bh_elems h' ≡ₚ x :: bh_elems h;
  bh_push_full : forall N (h : bheap N) x, (N <= bh_len h)%nat -> bh_push h x = None;
  bh_pop_empty : forall N (h : bheap N), bh_elems h = [] -> bh_pop h = None;
  bh_pop_least : forall N (h : bheap N), bh_elems h <> [] ->
    exists x h', bh_pop h = Some (x, h') /\ bh_elems h ≡ₚ x :: bh_elems h' /\
      Forall (fun y => le x y = true) (bh_elems h');
}.

(** ** The set type generated by [bitflags!] over [u32]

    A value is its bits.  [bf_truncate all n] is [from_bits_truncate], where [all] is the
    union of the declared flags; [bf_union] is [|] and [bf_difference] is [difference]. *)

Class Bitflags := {
  bf_contains : Z -> Z -> bool;
  bf_truncate : Z -> Z -> Z;
  bf_union : Z -> Z -> Z;
  bf_difference : Z -> Z -> Z;
}.

Class BitflagsLaws `{BF : Bitflags} : Prop := {
  bf_contains_spec : forall a b, 0 <= a -> 0 <= b ->
    bf_contains a b = true <-> (forall i, 0 <= i -> Z.testbit b i = true -> Z.testbit a i = true);
  bf_truncate_spec : forall all n, bf_truncate all n = Z.land n all;
  bf_union_spec : forall a b, 0 <= a -> 0 <= b -> bf_union a b = Z.lor a b;
  bf_difference_spec : forall a b, 0 <= a -> 0 <= b -> bf_difference a b = Z.ldiff a b;
}.

(** ** The laws can hold *)

Module ListModel.

Definition push {A} (N : nat) (v : list A) (x : A) : option (list A) :=
  if decide (length v < N)%nat then Some (v ++ [x]) else None.

Definition list_hvec : HVec := {|
  hvec := fun _ A => list A;
  hv_new := fun _ _ => [];
  hv_slice := fun _ _ v => v;
  hv_push := fun N _ v x => push N v x;
  hv_clear := fun _ _ _ => [];
  hv_truncate := fun _ _ v n => take n v;
  hv_update := fun _ _ v i x => <[i := x]> v;
|}.

Lemma list_hvec_laws : HVecLaws (HV := list_hvec).
Proof.
  constructor; unfold hv_len; cbn; intros; try done; unfold push; case_decide; naive_solver lia.
Qed.

Fixpoint assoc_get (m : list (Z * Z)) (k : Z) : option Z :=
  match m with
  | [] => None
  | (k', v) :: m' => if k =? k' then Some v else assoc_get m' k
  end.

Fixpoint assoc_set (m : list (Z * Z)) (k v : Z) : list (Z * Z) :=
  match m with
  | [] => []
  | (k', v') :: m' => if k =? k' then (k', v) :: m' else (k', v') :: assoc_set m' k v
  end.

Definition assoc_insert (N : nat) (m : list (Z * Z)) (k v : Z)
    : option (list (Z * Z) * option Z) :=
  match assoc_get m k with
  | Some o => Some (assoc_set m k v, Some o)
  | None => if decide (length m < N)%nat then Some (m ++ [(k, v)], None) else None
  end.

Definition list_lmap : LinearMap := {|
  lmap := fun _ => list (Z * Z);
  lm_new := fun _ => [];
  lm_len := fun _ m => length m;
  lm_get := fun _ m k => assoc_get m k;
  lm_contains_key := fun _ m k => bool_decide (is_Some (assoc_get m k));
  lm_insert := fun N m k v => assoc_insert N m k v;
  lm_write := fun _ m k v => assoc_set m k v;
|}.

Lemma assoc_get_set m k v k' :
  is_Some (assoc_get m k) ->
  assoc_get (assoc_set m k v) k' = if decide (k = k') then Some v else assoc_get m k'.
Proof.
  induction m as [|[a b] m IH]; cbn; [by intros [? ?]|].
  destruct (Z.eqb_spec k a) as [->|Hka]; cbn; intros H.
  - case_decide; destruct (Z.eqb_spec k' a); congruence.
  - rewrite IH by done. case_decide; destruct (Z.eqb_spec k' a); congruence.
Qed.

Lemma assoc_set_length m k v : length (assoc_set m k v) = length m.
Proof. induction m as [|[a b] m IH]; cbn; [done|]. destruct (k =? a); cbn; congruence. Qed.

Lemma assoc_get_app m k v k' :
  assoc_get m k = None ->
  assoc_get (m ++ [(k, v)]) k' = if decide (k = k') then Some v else assoc_get m k'.
Proof.
  induction m as [|[a b] m IH]; cbn.
  - intros _. destruct (Z.eqb_spec k' k); case_decide; congruence.
  - destruct (Z.eqb_spec k a) as [->|Hka]; [done|]. intros H. rewrite IH by done.
    case_decide; destruct (Z.eqb_spec k' a); congruence.
Qed.

Lemma list_lmap_laws : LinearMapLaws (LM := list_lmap).
Proof.
  constructor; cbn; intros; try done; unfold assoc_insert in *.
  - apply bool_decide_eq_true.
  - rewrite H. eexists; repeat split; [apply assoc_set_length|].
    intros k'. by apply assoc_get_set; eexists.
  - rewrite H. case_decide; [|lia]. eexists; repeat split.
    + rewrite length_app; cbn; lia.
    + intros k'. by apply assoc_get_app.
  - rewrite H. case_decide; [lia|done].
  - by apply assoc_get_set.
  - apply assoc_set_length.
Qed.

Definition list_iset : IndexSet := {|
  iset := fun _ => list Z;
  is_new := fun _ => [];
  is_len := fun _ s => length s;
  is_contains := fun _ s x => contains_Z s x;
  is_insert := fun N s x =>
    if contains_Z s x then Some (s, false)
    else match push N s x with Some s' => Some (s', true) | None => None end;
  is_clear := fun _ _ => [];
|}.

Lemma list_iset_laws : IndexSetLaws (IS := list_iset).
Proof.
  constructor; cbn; intros; try done; rewrite ?H; try done; unfold push; case_decide; try lia; try done.
  eexists; split; [done|]. split; [rewrite length_app; cbn; lia|].
  intros y. apply eq_true_iff_eq. rewrite orb_true_iff, !contains_Z_true, bool_decide_eq_true.
  set_solver.
Qed.

(** A heap kept as a list; [pop] takes out a least element. *)
Section heap.
Context {A : Type} (le : A -> A -> bool).

Fixpoint take_min (x : A) (l : list A) : A * list A :=
  match l with
  | [] => (x, [])
  | y :: l' =>
      if le x y then let (m, r) := take_min x l' in (m, y :: r)
      else let (m, r) := take_min y l' in (m, x :: r)
  end.

Definition list_heap : BinaryHeap A le := {|
  bheap := fun _ => list A;
  bh_new := fun _ => [];
  bh_elems := fun _ h => h;
  bh_push := fun N h x => push N h x;
  bh_pop := fun _ h => match h with [] => None | x :: l => Some (take_min x l) end;
|}.

Context (le_refl : forall x, le x x = true).
Context (le_trans : forall x y z, le x y = true -> le y z = true -> le x z = true).
Context (le_total : forall x y, le x y = false -> le y x = true).

Lemma take_min_spec x l m r : take_min x l = (m, r) ->
  x :: l ≡ₚ m :: r /\ le m x = true /\ Forall (fun y => le m y = true) r.
Proof using le_refl le_trans le_total.
  revert x m r. induction l as [|y l IH]; intros x m r; cbn.
  - intros [= <- <-]. eauto.
  - destruct (le x y) eqn:Hxy.
    + destruct (take_min x l) as [m' r'] eqn:E. intros [= <- <-].
      apply IH in E as (Hp & Hm & Hr). split; [|split; [done|]].
      * rewrite (Permutation_swap y x), Hp. constructor.
      * constructor; eauto.
    + destruct (take_min y l) as [m' r'] eqn:E. intros [= <- <-].
      apply IH in E as (Hp & Hm & Hr). split; [|split].
      * rewrite Hp. constructor.
      * eauto.
      * constructor; eauto.
Qed.

Lemma list_heap_laws : BinaryHeapLaws (BH := list_heap).
Proof using le_refl le_trans le_total.
  constructor; unfold bh_len; cbn; intros.
  - done.
  - unfold push; case_decide; [|lia]. eexists; split; [done|]. by rewrite Permutation_app_comm.
  - unfold push; case_decide; [lia|done].
  - by subst.
  - destruct h as [|x l]; [done|]. destruct (take_min x l) as [m r] eqn:E.
    apply take_min_spec in E as (Hp & _ & Hr). eauto.
Qed.

End heap.

Definition bits_model : Bitflags := {|
  bf_contains := fun a b => Z.land a b =? b;
  bf_truncate := fun all n => Z.land n all;
  bf_union := Z.lor;
  bf_difference := Z.ldiff;
|}.

Lemma bits_model_laws : BitflagsLaws (BF := bits_model).
Proof.
  constructor; cbn; intros; [|done..]. rewrite Z.eqb_eq. split.
  - intros Heq i Hi Hb. rewrite <- Heq, Z.land_spec in Hb. by apply andb_true_iff in Hb as [? ?].
  - intros Himp. apply Z.bits_inj'. intros i Hi. rewrite Z.land_spec.
    destruct (Z.testbit b i) eqn:Hb; [by rewrite (Himp i Hi Hb)|by rewrite andb_false_r].
Qed.

End ListModel.
