(* ===== verification/Crypto.v ===== *)
(** * Interfaces of the [sha2], [ed25519-dalek] and [minicbor] crates

    As in [Heapless.v]: the operations the kernel calls, the laws it relies on, and one
    executable model of each showing that the laws can hold.  No law states collision
    resistance or unforgeability; theorems that need them are stated as reductions to a
    collision between inputs that the code itself hashed. *)
From S2P Require Import Prelude.
From stdpp Require Import base tactics list numbers option sets.
Open Scope Z_scope.

(** ** [sha2::Sha256] *)

Class Sha256 := {
  hasher : Type;
  sha_new : hasher;
  sha_update : hasher -> bytes -> hasher;
  sha_finalize : hasher -> bytes;
}.

(** [Digest::digest]. *)
Definition digest `{Sha256} (data : bytes) : bytes := sha_finalize (sha_update sha_new data).

Class Sha256Laws `{SH : Sha256} : Prop := {
  sha_stream : forall chunks,
    sha_finalize (foldl sha_update sha_new chunks) = digest (concat chunks);
  sha_length : forall h, length (sha_finalize h) = 32%nat;
  sha_bytes : forall h, Forall in_u8 (sha_finalize h);
}.

(** Two different inputs with the same digest. *)
Definition sha_collision `{Sha256} (a b : bytes) : Prop := a <> b /\ digest a = digest b.

(** Two computations hash different inputs to one digest at the same step.  Some collision
    exists for every function to 32 bytes; this one is among the inputs given. *)
Definition collide `{Sha256} (xs ys : list bytes) : Prop :=
  exists i x y, xs !! i = Some x /\ ys !! i = Some y /\ sha_collision x y.

(** ** [ed25519_dalek]

    Keys are the crate's types; seeds, key encodings and signatures are byte strings. *)

Class Ed25519 := {
  signing_key : Type;
  verifying_key : Type;
  sk_from_bytes : bytes -> signing_key;
  sk_verifying_key : signing_key -> verifying_key;
  sk_sign : signing_key -> bytes -> bytes;
  vk_from_bytes : bytes -> option verifying_key;
  vk_to_bytes : verifying_key -> bytes;
  vk_verify_strict : verifying_key -> bytes -> bytes -> bool;
}.

Class Ed25519Laws `{ED : Ed25519} : Prop := {
  ed_sign_verify : forall sk m, vk_verify_strict (sk_verifying_key sk) m (sk_sign sk m) = true;
  ed_sign_length : forall sk m, length (sk_sign sk m) = 64%nat;
  ed_vk_roundtrip : forall vk, vk_from_bytes (vk_to_bytes vk) = Some vk;
}.

(** ** [minicbor::decode::Decoder]

    Each read either fails ([None]) or returns the value and the advanced decoder;
    [dec_rest] is the part of the input after the current position.  [dec_array] returns
    [Some None] on an indefinite-length array.  The laws say that the decoder reads the
    definite-length array heads and unsigned integers of RFC 8949 and that integers are
    in range. *)

Class Decoder := {
  decoder : Type;
  dec_new : bytes -> decoder;
  dec_rest : decoder -> bytes;
  dec_array : decoder -> option (option Z * decoder);
  dec_u32 : decoder -> option (Z * decoder);
  dec_u64 : decoder -> option (Z * decoder);
}.

(** Big-endian encoding on [n] bytes. *)
Definition to_be_bytes (n : nat) (x : Z) : bytes := rev (to_le_bytes n x).

(** RFC 8949 section 3: the head of a data item of the given major type and argument, in
    the shortest form. *)
Definition cbor_head (major n : Z) : bytes :=
  if n <? 24 then [major * 32 + n]
  else if n <? 256 then (major * 32 + 24) :: to_be_bytes 1 n
  else if n <? 65536 then (major * 32 + 25) :: to_be_bytes 2 n
  else if n <? 4294967296 then (major * 32 + 26) :: to_be_bytes 4 n
  else (major * 32 + 27) :: to_be_bytes 8 n.

Definition cbor_uint (n : Z) : bytes := cbor_head 0 n.
Definition cbor_array (n : Z) : bytes := cbor_head 4 n.

Class DecoderLaws `{DE : Decoder} : Prop := {
  dec_rest_new : forall b, dec_rest (dec_new b) = b;
  dec_array_head : forall d n r, in_u64 n -> dec_rest d = cbor_array n ++ r ->
    exists d', dec_array d = Some (Some n, d') /\ dec_rest d' = r;
  dec_u32_head : forall d n r, in_u32 n -> dec_rest d = cbor_uint n ++ r ->
    exists d', dec_u32 d = Some (n, d') /\ dec_rest d' = r;
  dec_u64_head : forall d n r, in_u64 n -> dec_rest d = cbor_uint n ++ r ->
    exists d', dec_u64 d = Some (n, d') /\ dec_rest d' = r;
  dec_u32_range : forall d n d', dec_u32 d = Some (n, d') -> in_u32 n;
  dec_u64_range : forall d n d', dec_u64 d = Some (n, d') -> in_u64 n;
  dec_array_range : forall d n d', dec_array d = Some (Some n, d') -> in_u64 n;
}.

(** ** The laws can hold *)

Module ByteModel.

(** A 32-byte polynomial checksum stands in for the digest. *)
Definition checksum (data : bytes) : Z := foldl (fun h b => (h * 257 + b + 1) mod 256 ^ 32) 7 data.

Definition toy_sha : Sha256 := {|
  hasher := bytes;
  sha_new := [];
  sha_update := fun h d => h ++ d;
  sha_finalize := fun h => to_le_bytes 32 (checksum h);
|}.

Lemma toy_sha_stream chunks h : foldl (fun h d : bytes => h ++ d) h chunks = h ++ concat chunks.
Proof.
  revert h. induction chunks as [|c cs IH]; intros h; cbn; [by rewrite app_nil_r|].
  by rewrite IH, <- app_assoc.
Qed.

Lemma toy_sha_laws : Sha256Laws (SH := toy_sha).
Proof.
  constructor; unfold digest; cbn -[to_le_bytes]; intros.
  - by rewrite toy_sha_stream.
  - apply to_le_bytes_length.
  - apply to_le_bytes_range.
Qed.

(** Symmetric stand-in for the signature scheme: both keys are the seed. *)
Definition toy_sign (k m : bytes) : bytes := to_le_bytes 64 (checksum (k ++ m)).

Definition toy_ed : Ed25519 := {|
  signing_key := bytes;
  verifying_key := bytes;
  sk_from_bytes := fun b => b;
  sk_verifying_key := fun k => k;
  sk_sign := toy_sign;
  vk_from_bytes := fun b => Some b;
  vk_to_bytes := fun k => k;
  vk_verify_strict := fun k m s => bool_decide (toy_sign k m = s);
|}.

Lemma toy_ed_laws : Ed25519Laws (ED := toy_ed).
Proof.
  constructor; cbn -[to_le_bytes]; intros; [|apply to_le_bytes_length|done].
  by apply bool_decide_eq_true.
Qed.

(** A decoder over the remaining bytes. *)
Definition of_be_bytes (b : bytes) : Z := foldl (fun a x => a * 256 + x) 0 b.

(** The argument of a head whose low five bits are [info]. *)
Definition read_arg (info : Z) (r : bytes) : option (Z * bytes) :=
  let need n := if decide (n <= length r)%nat
                then Some (of_be_bytes (take n r), drop n r) else None in
  if info <? 24 then Some (info, r)
  else if info =? 24 then need 1%nat
  else if info =? 25 then need 2%nat
  else if info =? 26 then need 4%nat
  else if info =? 27 then need 8%nat
  else None.

Definition read_head (major : Z) (d : bytes) : option (Z * bytes) :=
  match d with
  | [] => None
  | b :: r =>
      if (major * 32 <=? b) && (b <? major * 32 + 32) then read_arg (b - major * 32) r else None
  end.

Definition bounded (hi : Z) (o : option (Z * bytes)) : option (Z * bytes) :=
  match o with
  | Some (n, r) => if (0 <=? n) && (n <=? hi) then Some (n, r) else None
  | None => None
  end.

Definition list_decoder : Decoder := {|
  decoder := bytes;
  dec_new := fun b => b;
  dec_rest := fun d => d;
  dec_array := fun d =>
    if bool_decide (head d = Some 159) then Some (None, tail d)
    else match bounded U64_MAX (read_head 4 d) with
         | Some (n, r) => Some (Some n, r)
         | None => None
         end;
  dec_u32 := fun d => bounded U32_MAX (read_head 0 d);
  dec_u64 := fun d => bounded U64_MAX (read_head 0 d);
|}.

Lemma of_be_bytes_app l b : of_be_bytes (l ++ [b]) = of_be_bytes l * 256 + b.
Proof. unfold of_be_bytes. by rewrite foldl_app. Qed.

Lemma of_to_be_bytes n x : 0 <= x < 256 ^ Z.of_nat n -> of_be_bytes (to_be_bytes n x) = x.
Proof.
  revert x. induction n as [|n IH]; intros x Hx; [cbn in *; lia|].
  unfold to_be_bytes in *. cbn [to_le_bytes rev]. rewrite of_be_bytes_app.
  rewrite Nat2Z.inj_succ, Z.pow_succ_r in Hx by lia.
  rewrite IH by (split; [apply Z.div_pos; lia|apply Z.div_lt_upper_bound; lia]).
  pose proof (Z.div_mod x 256 ltac:(lia)). lia.
Qed.

Lemma to_be_bytes_length n x : length (to_be_bytes n x) = n.
Proof. unfold to_be_bytes. by rewrite length_rev, to_le_bytes_length. Qed.

Lemma read_arg_be (k : nat) info n r :
  0 <= n < 256 ^ Z.of_nat k ->
  (info, k) ∈ [(24, 1%nat); (25, 2%nat); (26, 4%nat); (27, 8%nat)] ->
  read_arg info (to_be_bytes k n ++ r) = Some (n, r).
Proof.
  intros Hn Hk. unfold read_arg.
  assert ((if decide (k <= length (to_be_bytes k n ++ r))%nat
           then Some (of_be_bytes (take k (to_be_bytes k n ++ r)), drop k (to_be_bytes k n ++ r))
           else None) = Some (n, r)) as Hneed.
  { rewrite decide_True by (rewrite length_app, to_be_bytes_length; lia).
    rewrite take_app_length', drop_app_length' by (symmetry; apply to_be_bytes_length).
    by rewrite of_to_be_bytes. }
  rewrite !elem_of_cons, elem_of_nil in Hk. destruct_or! Hk; simplify_eq; try done; exact Hneed.
Qed.

Lemma read_head_cbor major n r :
  0 <= n <= U64_MAX -> read_head major (cbor_head major n ++ r) = Some (n, r).
Proof.
  intros Hn. unfold cbor_head.
  repeat match goal with |- context [if ?a <? ?b then _ else _] => destruct (Z.ltb_spec a b) end;
    unfold read_head; rewrite <- ?app_comm_cons;
    rewrite (proj2 (Z.leb_le _ _)), (proj2 (Z.ltb_lt _ _)) by (unfold_width; lia); cbn [andb].
  - replace (major * 32 + n - major * 32) with n by lia. unfold read_arg.
    by rewrite (proj2 (Z.ltb_lt _ _)).
  - replace (major * 32 + 24 - major * 32) with 24 by lia. apply read_arg_be; [lia|set_solver].
  - replace (major * 32 + 25 - major * 32) with 25 by lia. apply read_arg_be; [lia|set_solver].
  - replace (major * 32 + 26 - major * 32) with 26 by lia. apply read_arg_be; [lia|set_solver].
  - replace (major * 32 + 27 - major * 32) with 27 by lia.
    apply read_arg_be; [unfold_width; lia|set_solver].
Qed.

Lemma bounded_spec hi o n r : bounded hi o = Some (n, r) -> 0 <= n <= hi.
Proof.
  destruct o as [[m s]|]; cbn; [|done].
  destruct (Z.leb_spec 0 m), (Z.leb_spec m hi); naive_solver lia.
Qed.

Lemma bounded_some hi n r : 0 <= n <= hi -> bounded hi (Some (n, r)) = Some (n, r).
Proof. intros [H1 H2]. cbn. by rewrite (proj2 (Z.leb_le _ _) H1), (proj2 (Z.leb_le _ _) H2). Qed.

(** 159 opens an indefinite-length array, which no definite head starts with. *)
Lemma cbor_array_definite n r : in_u64 n -> head (cbor_array n ++ r) <> Some 159.
Proof.
  intros Hn. unfold cbor_array, cbor_head.
  repeat match goal with |- context [if ?a <? ?b then _ else _] => destruct (Z.ltb_spec a b) end;
    cbn; intros [=]; width_lia.
Qed.

Lemma list_decoder_laws : DecoderLaws (DE := list_decoder).
Proof.
  constructor; cbn; intros.
  - done.
  - subst d. rewrite bool_decide_false by by apply cbor_array_definite.
    unfold cbor_array. rewrite read_head_cbor, bounded_some by done. eauto.
  - subst d. unfold cbor_uint. rewrite read_head_cbor, bounded_some by (unfold_width; lia). eauto.
  - subst d. unfold cbor_uint. rewrite read_head_cbor, bounded_some by done. eauto.
  - by eapply bounded_spec.
  - by eapply bounded_spec.
  - case_bool_decide; [naive_solver|]. destruct (bounded _ _) as [[m s]|] eqn:E; [|done].
    simplify_eq. by eapply bounded_spec.
Qed.

End ByteModel.
