(* ===== verification/Types.v ===== *)
(** * Primitive domain types and the error taxonomy

    Models [src/types.rs] and [src/error.rs]: the capacity constants, [NodeId],
    [Generation], [Quota], [Error] and [DenialClass] with the two functions that
    classify a denial for the audit log. *)
From S2P Require Import Prelude.
From stdpp Require Import base tactics list numbers option strings.
Open Scope Z_scope.

(** ** Capacity constants *)

Definition MAX_NODES : nat := 64.
Definition MAX_EDGES : nat := 256.
Definition MAX_QUEUE : nat := 256.
Definition NONCE_WINDOW : nat := 256.
Definition MAX_REVOCATIONS : nat := 256.
Definition MAX_RESERVATIONS : nat := 256.
Definition MAX_RESERVATION_TTL : Z := 4096.
Definition MAX_AUDIT_EVENTS : nat := 512.

(** The capacities are abstract to the proofs, which use only their laws. *)
#[global] Arguments MAX_NODES : simpl never.
#[global] Arguments MAX_EDGES : simpl never.
#[global] Arguments NONCE_WINDOW : simpl never.
#[global] Arguments MAX_REVOCATIONS : simpl never.
#[global] Arguments MAX_RESERVATIONS : simpl never.
#[global] Arguments MAX_AUDIT_EVENTS : simpl never.

(** ** Domain primitives *)

(** [NodeId = NonZeroU32]; [node_ok] is the invariant of that type. *)
Definition NodeId : Type := Z.
Definition node_ok (n : NodeId) : Prop := 1 <= n <= U32_MAX.

(** [NonZeroU32::new]. *)
Definition NonZeroU32_new (x : Z) : option NodeId := if x =? 0 then None else Some x.

(** [NodeId::MIN]. *)
Definition NodeId_MIN : NodeId := 1.

Lemma NonZeroU32_new_ok x n : in_u32 x -> NonZeroU32_new x = Some n -> n = x /\ node_ok n.
Proof. unfold NonZeroU32_new, node_ok. destruct (Z.eqb_spec x 0); [done|]. intros ? [= <-]. width_lia. Qed.

(** [struct Generation(u64)]. *)
Definition Generation : Type := Z.

(** [struct Quota(u64)]. *)
Record Quota := mkQuota { quota_raw : Z }.

Definition Quota_new (ceiling : Z) : Quota := mkQuota ceiling.
Definition Quota_get (q : Quota) : Z := quota_raw q.
Definition Quota_checked_sub (q : Quota) (amount : Z) : option Quota :=
  mkQuota <$> checked_sub_u64 (quota_raw q) amount.

(** ** Errors *)

Inductive DenialClass := Halt | Failure.

Inductive Error :=
| CapabilityDenied (reason : string)
| QuotaExceeded (resource : string)
| TopologyViolation (src dst : Z)
| ManifestInvalid (detail : string)
| SchedulerInvariant (detail : string)
| UndefinedState (context : string)
| WasmFault (detail : string)
| AuditFull
| ReservationDenied (reason : string).

#[global] Instance DenialClass_eq_dec : EqDecision DenialClass.
Proof. solve_decision. Defined.
#[global] Instance Error_eq_dec : EqDecision Error.
Proof. solve_decision. Defined.
#[global] Instance Quota_eq_dec : EqDecision Quota.
Proof. solve_decision. Defined.

(** [type Result<T> = core::result::Result<T, Error>]. *)
Abbreviation Result := (result Error).

(** [Error::denial_reason_str]. *)
Definition denial_reason_str (e : Error) : string :=
  match e with
  | CapabilityDenied reason | ReservationDenied reason => reason
  | QuotaExceeded resource => resource
  | TopologyViolation _ _ => "edge not in boot manifest"
  | ManifestInvalid detail | SchedulerInvariant detail | WasmFault detail => detail
  | UndefinedState context => context
  | AuditFull => "audit log full; rotate to reclaim"
  end.

(** [Error::denial_class]. *)
Definition denial_class (e : Error) : DenialClass :=
  match e with
  | CapabilityDenied _ | TopologyViolation _ _ | ManifestInvalid _ | UndefinedState _
  | WasmFault _ | AuditFull | ReservationDenied _ => Halt
  | QuotaExceeded _ | SchedulerInvariant _ => Failure
  end.

(** What each enforcement gate passes to [AuditLog::append]:
    [result.as_ref().err().map(|e| (e.denial_class(), e.denial_reason_str()))]. *)
Definition denial_of {T} (r : Result T) : option (DenialClass * string) :=
  (fun e => (denial_class e, denial_reason_str e)) <$> err_of r.

Lemma denial_of_None {T} (r : Result T) : denial_of r = None <-> is_ok r = true.
Proof. destruct r; cbn; naive_solver. Qed.
