(* ===== verification/AuditLog.v ===== *)
(** * Append-only, hash-chained audit log

    Models [src/audit/event.rs], [src/audit/log.rs] and [src/audit/mod.rs].  The log is a
    [heapless::Vec] of events with the running head hash and the next sequence number;
    every operation of [impl AuditLog] is a definition of the same name.

    The theorems: the log invariant [log_wf] (the chain verifies, sequence numbers are
    0, 1, 2, ..., the stored head is the hash of the last event, denial fields agree with
    the outcome) holds initially and is kept by [append]; what [append] does on each
    branch; and tamper evidence, as a reduction to an explicit SHA-256 collision. *)
From S2P Require Import Prelude Heapless Crypto Types.
From stdpp Require Import base tactics list numbers option strings pretty.
Open Scope Z_scope.

(** ** Events *)

Inductive EventKind :=
| CapabilityCheck
| CapabilityRevoked
| ResourceDeduction
| TopologyTraverse
| TopologyChange
| HiringDecision
| PolicyGateCheck.

Inductive Outcome := Permitted | Denied.

#[global] Instance EventKind_eq_dec : EqDecision EventKind.
Proof. solve_decision. Defined.
#[global] Instance Outcome_eq_dec : EqDecision Outcome.
Proof. solve_decision. Defined.

(** [kind as u8], [outcome as u8]: the discriminants of [#\[repr(u8)\]]. *)
Definition kind_u8 (k : EventKind) : byte :=
  match k with
  | CapabilityCheck => 0
  | CapabilityRevoked => 1
  | ResourceDeduction => 2
  | TopologyTraverse => 3
  | TopologyChange => 4
  | HiringDecision => 5
  | PolicyGateCheck => 6
  end.

Definition outcome_u8 (o : Outcome) : byte :=
  match o with Permitted => 0 | Denied => 1 end.

Record AuditEvent := mkEvent {
  ev_kind : EventKind;
  ev_actor : Z;
  ev_seq : Z;
  ev_timestamp : Z;
  ev_outcome : Outcome;
  ev_denial_class : option DenialClass;
  ev_denial_reason : option string;
  ev_hash : bytes;
}.

#[global] Instance AuditEvent_eq_dec : EqDecision AuditEvent.
Proof. solve_decision. Defined.

(** [AuditEvent::kind_str]. *)
Definition kind_str (e : AuditEvent) : string :=
  match ev_kind e with
  | CapabilityCheck => "cap_check"
  | CapabilityRevoked => "cap_revoked"
  | ResourceDeduction => "resource_deduct"
  | TopologyTraverse => "topo_traverse"
  | TopologyChange => "topo_change"
  | HiringDecision => "hiring_decision"
  | PolicyGateCheck => "policy_gate_check"
  end.

(** [AuditEvent::denial_class_str]. *)
Definition denial_class_str (e : AuditEvent) : option string :=
  match ev_denial_class e with
  | Some Halt => Some "halt"
  | Some Failure => Some "failure"
  | None => None
  end.

(** [audit::UNTIMED]. *)
Definition UNTIMED : Z := 0.

(** ** The log *)

Section log.
Context `{HV : HVec} `{SH : Sha256}.

Record AuditLog := mkLog {
  al_events : hvec MAX_AUDIT_EVENTS AuditEvent;
  al_last_hash : bytes;
  al_next_seq : Z;
}.

(** [\[0u8; 32\]]. *)
Definition zero_hash : bytes := replicate 32 0.

Definition new : AuditLog :=
  {| al_events := hv_new; al_last_hash := zero_hash; al_next_seq := 0 |}.

Definition default_audit : AuditLog := new.

Definition class_byte (denial_class : option DenialClass) : byte :=
  match denial_class with
  | None => 0
  | Some Halt => 1
  | Some Failure => 2
  end.

Definition compute_hash (prev : bytes) (kind : EventKind) (actor seq timestamp : Z)
    (outcome : Outcome) (denial_class : option DenialClass) (denial_reason : option string)
    : bytes :=
  let h := sha_new in
  let h := sha_update h prev in
  let h := sha_update h [kind_u8 kind] in
  let h := sha_update h (to_le_bytes 4 actor) in
  let h := sha_update h (to_le_bytes 8 seq) in
  let h := sha_update h (to_le_bytes 8 timestamp) in
  let h := sha_update h [outcome_u8 outcome] in
  let h := sha_update h [class_byte denial_class] in
  let h := match denial_reason with
           | Some reason => sha_update h (as_bytes reason)
           | None => h
           end in
  sha_finalize h.

Definition append (self : AuditLog) (kind : EventKind) (actor timestamp : Z)
    (denial : option (DenialClass * string)) : AuditLog * bool :=
  let seq := al_next_seq self in
  let outcome := match denial with Some _ => Denied | None => Permitted end in
  let '(denial_class, denial_reason) :=
    match denial with
    | Some (c, r) => (Some c, Some r)
    | None => (None, None)
    end in
  let hash := compute_hash (al_last_hash self) kind actor seq timestamp outcome
                denial_class denial_reason in
  let event := {|
    ev_kind := kind; ev_actor := actor; ev_seq := seq; ev_timestamp := timestamp;
    ev_outcome := outcome; ev_denial_class := denial_class;
    ev_denial_reason := denial_reason; ev_hash := hash |} in
  match hv_push (al_events self) event with
  | Some events =>
      ({| al_events := events; al_last_hash := hash;
          al_next_seq := saturating_add_u64 (al_next_seq self) 1 |}, true)
  | None => (self, false)
  end.

(** The hash recomputed for [event] after a predecessor hash [prev]. *)
Definition event_hash (prev : bytes) (event : AuditEvent) : bytes :=
  compute_hash prev (ev_kind event) (ev_actor event) (ev_seq event) (ev_timestamp event)
    (ev_outcome event) (ev_denial_class event) (ev_denial_reason event).

(** The loop of [verify_chain], from the predecessor hash [prev]. *)
Fixpoint verify_from (prev : bytes) (events : list AuditEvent) : bool :=
  match events with
  | [] => true
  | event :: rest =>
      if decide (event_hash prev event = ev_hash event)
      then verify_from (ev_hash event) rest
      else false
  end.

Definition verify_chain (self : AuditLog) : bool := verify_from zero_hash (hv_slice (al_events self)).

Definition len (self : AuditLog) : nat := hv_len (al_events self).
Definition is_empty (self : AuditLog) : bool := bool_decide (hv_len (al_events self) = 0%nat).
Definition is_full (self : AuditLog) : bool :=
  bool_decide (MAX_AUDIT_EVENTS <= hv_len (al_events self))%nat.
Definition head_hash (self : AuditLog) : bytes := al_last_hash self.
Definition events (self : AuditLog) : list AuditEvent := hv_slice (al_events self).

End log.

#[global] Arguments append : simpl never.
#[global] Arguments compute_hash : simpl never.

(** ** JSON export

    The writer is any [core::fmt::Write]; a failed write ends the export ([None]).  Each
    [write!] reaches the writer as the list of its literal and formatted pieces. *)

Class FmtWrite (W : Type) := write_str : W -> string -> option W.

Section json.
Context `{HV : HVec} `{FW : FmtWrite W}.

Fixpoint write_fmt (w : W) (pieces : list string) : option W :=
  match pieces with
  | [] => Some w
  | p :: ps => w' ← write_str w p; write_fmt w' ps
  end.

(** The double quote character. *)
Definition dq : string := String (Ascii.ascii_of_nat 34) EmptyString.

(** [{}] of an unsigned integer and of a [bool]. *)
Definition fmt_uint (n : Z) : string := pretty n.
Definition fmt_bool (b : bool) : string := if b then "true" else "false".

(** [{byte:02x}]. *)
Definition hex_digit (n : Z) : string :=
  match String.get (Z.to_nat n) "0123456789abcdef" with
  | Some c => String c EmptyString
  | None => ""
  end.
Definition fmt_02x (b : byte) : string := hex_digit (b / 16) +:+ hex_digit (b mod 16).

Fixpoint write_hex (w : W) (hash : bytes) : option W :=
  match hash with
  | [] => Some w
  | b :: bs => w' ← write_fmt w [fmt_02x b]; write_hex w' bs
  end.

(** The body of the loop of [export_json], for one event. *)
Definition export_event (w : W) (ev : AuditEvent) : option W :=
  let ok := bool_decide (ev_outcome ev = Permitted) in
  w ← write_fmt w
        ["{" +:+ dq +:+ "seq" +:+ dq +:+ ":"; fmt_uint (ev_seq ev);
         "," +:+ dq +:+ "kind" +:+ dq +:+ ":" +:+ dq; kind_str ev;
         dq +:+ "," +:+ dq +:+ "actor" +:+ dq +:+ ":"; fmt_uint (ev_actor ev);
         "," +:+ dq +:+ "ts" +:+ dq +:+ ":"; fmt_uint (ev_timestamp ev);
         "," +:+ dq +:+ "ok" +:+ dq +:+ ":"; fmt_bool ok; ","];
  w ← match denial_class_str ev with
      | None =>
          write_fmt w [dq +:+ "class" +:+ dq +:+ ":null," +:+ dq +:+ "reason" +:+ dq +:+ ":null,"]
      | Some c =>
          let reason := match ev_denial_reason ev with Some r => r | None => "" end in
          write_fmt w [dq +:+ "class" +:+ dq +:+ ":" +:+ dq; c;
                       dq +:+ "," +:+ dq +:+ "reason" +:+ dq +:+ ":" +:+ dq; reason; dq +:+ ","]
      end;
  w ← write_str w (dq +:+ "hash" +:+ dq +:+ ":" +:+ dq);
  w ← write_hex w (ev_hash ev);
  write_str w (dq +:+ "}").

Fixpoint export_events (i : nat) (w : W) (evs : list AuditEvent) : option W :=
  match evs with
  | [] => Some w
  | ev :: rest =>
      w ← (if decide (0 < i)%nat then write_str w "," else Some w);
      w ← export_event w ev;
      export_events (S i) w rest
  end.

Definition export_json (self : AuditLog) (writer : W) : option W :=
  w ← write_str writer "[";
  w ← export_events 0 w (hv_slice (al_events self));
  write_str w "]".

End json.

(** ** Chain inputs

    [chain_input] is the wire format that the module documentation of [log.rs] gives for
    the hashed bytes; [compute_hash] feeds exactly these bytes to SHA-256. *)

Definition reason_bytes (r : option string) : bytes :=
  match r with Some s => as_bytes s | None => [] end.

Definition chain_input (prev : bytes) (e : AuditEvent) : bytes :=
  prev ++ [kind_u8 (ev_kind e)] ++ to_le_bytes 4 (ev_actor e) ++ to_le_bytes 8 (ev_seq e)
    ++ to_le_bytes 8 (ev_timestamp e) ++ [outcome_u8 (ev_outcome e)]
    ++ [class_byte (ev_denial_class e)] ++ reason_bytes (ev_denial_reason e).

(** What [append] guarantees of the fields of one event: machine widths, and denial
    fields that are present exactly on a denied event. *)
Record event_wf (e : AuditEvent) : Prop := {
  ewf_actor : in_u32 (ev_actor e);
  ewf_seq : in_u64 (ev_seq e);
  ewf_timestamp : in_u64 (ev_timestamp e);
  ewf_class : ev_outcome e = Denied <-> is_Some (ev_denial_class e);
  ewf_reason : is_Some (ev_denial_class e) <-> is_Some (ev_denial_reason e);
}.

(** Everything of an event but its hash. *)
Definition event_fields (e : AuditEvent) :=
  (ev_kind e, ev_actor e, ev_seq e, ev_timestamp e, ev_outcome e,
   ev_denial_class e, ev_denial_reason e).

(** The kinds of the permitted events, in order. *)
Definition permitted_events (es : list AuditEvent) : list EventKind :=
  ev_kind <$> filter (fun e => ev_outcome e = Permitted) es.

Lemma permitted_events_app es es' : permitted_events (es ++ es') = permitted_events es ++ permitted_events es'.
Proof. unfold permitted_events. by rewrite filter_app, fmap_app. Qed.

Lemma permitted_events_one e (b : bool) k :
  ev_kind e = k -> (ev_outcome e = Permitted <-> b = true) -> permitted_events [e] = if b then [k] else [].
Proof.
  intros <- Hb. unfold permitted_events. rewrite filter_cons, filter_nil.
  destruct b; [by rewrite decide_True by by apply Hb|]. by rewrite decide_False by (rewrite Hb; done).
Qed.

Lemma kind_u8_inj k k' : kind_u8 k = kind_u8 k' -> k = k'.
Proof. by destruct k, k'. Qed.

Lemma outcome_u8_inj o o' : outcome_u8 o = outcome_u8 o' -> o = o'.
Proof. by destruct o, o'. Qed.

Lemma class_byte_inj c c' : class_byte c = class_byte c' -> c = c'.
Proof. by destruct c as [[]|], c' as [[]|]. Qed.

Lemma le_inj_u32 x y : in_u32 x -> in_u32 y -> to_le_bytes 4 x = to_le_bytes 4 y -> x = y.
Proof. intros. apply (to_le_bytes_inj 4); [width_lia..|done]. Qed.

Lemma le_inj_u64 x y : in_u64 x -> in_u64 y -> to_le_bytes 8 x = to_le_bytes 8 y -> x = y.
Proof. intros. apply (to_le_bytes_inj 8); [width_lia..|done]. Qed.

(** Peel one fixed-width field off an equation between encodings. *)
Ltac peel_field H Hf :=
  apply app_inj_length in H as [Hf H]; [|by rewrite ?to_le_bytes_length].

Lemma chain_input_inj p p' e e' :
  length p = length p' -> event_wf e -> event_wf e' ->
  chain_input p e = chain_input p' e' -> p = p' /\ event_fields e = event_fields e'.
Proof.
  intros Hl [Ha Hs Ht _ Hr] [Ha' Hs' Ht' _ Hr'] H. unfold chain_input in H.
  apply app_inj_length in H as [Hp H]; [|done].
  peel_field H Hk. peel_field H Hac. peel_field H Hse. peel_field H Hti. peel_field H Ho.
  peel_field H Hc. injection Hk as Hk. injection Ho as Ho. injection Hc as Hc.
  apply kind_u8_inj in Hk. apply outcome_u8_inj in Ho. apply class_byte_inj in Hc.
  apply le_inj_u32 in Hac; [|done..]. apply le_inj_u64 in Hse; [|done..].
  apply le_inj_u64 in Hti; [|done..].
  assert (ev_denial_reason e = ev_denial_reason e') as Hre.
  { rewrite Hc in Hr. destruct (ev_denial_reason e) as [r|], (ev_denial_reason e') as [r'|];
      cbn in H; [|naive_solver..]. by apply as_bytes_inj in H as ->. }
  split; [done|]. unfold event_fields. congruence.
Qed.

Section facts.
Context `{HV : HVec} `{SH : Sha256} `{HL : !HVecLaws} `{SL : !Sha256Laws}.

Lemma event_hash_digest prev e : event_hash prev e = digest (chain_input prev e).
Proof using SL.
  unfold event_hash, compute_hash.
  pose proof (sha_stream ([prev; [kind_u8 (ev_kind e)]; to_le_bytes 4 (ev_actor e);
    to_le_bytes 8 (ev_seq e); to_le_bytes 8 (ev_timestamp e); [outcome_u8 (ev_outcome e)];
    [class_byte (ev_denial_class e)]] ++ option_list (as_bytes <$> ev_denial_reason e))) as H.
  unfold chain_input, reason_bytes.
  destruct (ev_denial_reason e); cbn -[to_le_bytes] in *; rewrite ?app_nil_r in *; exact H.
Qed.

Lemma event_hash_length prev e : length (event_hash prev e) = 32%nat.
Proof using SL. rewrite event_hash_digest. apply sha_length. Qed.

(** The hash a next event would be chained to. *)
Definition chain_head (prev : bytes) (evs : list AuditEvent) : bytes :=
  match last evs with Some e => ev_hash e | None => prev end.

Lemma chain_head_snoc prev evs e : chain_head prev (evs ++ [e]) = ev_hash e.
Proof. unfold chain_head. by rewrite last_snoc. Qed.

Lemma chain_head_cons prev e evs : chain_head prev (e :: evs) = chain_head (ev_hash e) evs.
Proof. unfold chain_head. rewrite last_cons. by destruct (last evs). Qed.

Lemma verify_from_app prev l1 l2 :
  verify_from prev (l1 ++ l2) = verify_from prev l1 && verify_from (chain_head prev l1) l2.
Proof.
  revert prev. induction l1 as [|e l1 IH]; intros prev; cbn; [done|].
  rewrite chain_head_cons. case_decide; [apply IH|done].
Qed.

Lemma verify_from_snoc prev evs e :
  verify_from prev (evs ++ [e]) = true <->
  verify_from prev evs = true /\ event_hash (chain_head prev evs) e = ev_hash e.
Proof.
  rewrite verify_from_app, andb_true_iff. cbn. case_decide; naive_solver.
Qed.

Lemma chain_head_length prev evs :
  length prev = 32%nat -> verify_from prev evs = true -> length (chain_head prev evs) = 32%nat.
Proof using SL.
  intros Hp. induction evs as [|e evs _] using rev_ind; [done|].
  rewrite verify_from_snoc, chain_head_snoc. intros [_ <-]. apply event_hash_length.
Qed.

Lemma zero_hash_length : length zero_hash = 32%nat.
Proof. done. Qed.

(** ** The log invariant *)

Record log_wf (log : AuditLog) : Prop := {
  lwf_chain : verify_chain log = true;
  lwf_head : al_last_hash log = chain_head zero_hash (events log);
  lwf_next : al_next_seq log = Z.of_nat (len log);
  lwf_seq : forall i e, events log !! i = Some e -> ev_seq e = Z.of_nat i;
  lwf_cap : (len log <= MAX_AUDIT_EVENTS)%nat;
  lwf_events : Forall event_wf (events log);
}.

Lemma is_full_true log : is_full log = true <-> (MAX_AUDIT_EVENTS <= len log)%nat.
Proof. apply bool_decide_eq_true. Qed.

Lemma is_full_false log : is_full log = false <-> (len log < MAX_AUDIT_EVENTS)%nat.
Proof. unfold is_full, len. rewrite bool_decide_eq_false. lia. Qed.

(** The event [append] records. *)
Definition logged (log : AuditLog) (kind : EventKind) (actor timestamp : Z)
    (denial : option (DenialClass * string)) : AuditEvent :=
  let outcome := match denial with Some _ => Denied | None => Permitted end in
  {| ev_kind := kind; ev_actor := actor; ev_seq := al_next_seq log; ev_timestamp := timestamp;
     ev_outcome := outcome; ev_denial_class := fst <$> denial; ev_denial_reason := snd <$> denial;
     ev_hash := compute_hash (al_last_hash log) kind actor (al_next_seq log) timestamp outcome
                  (fst <$> denial) (snd <$> denial) |}.

Lemma append_full log kind actor ts denial :
  is_full log = true -> append log kind actor ts denial = (log, false).
Proof using HL.
  rewrite is_full_true. intros Hf. unfold append.
  destruct denial as [[c r]|]; by rewrite hv_push_full.
Qed.

Lemma append_room log kind actor ts denial :
  is_full log = false ->
  exists log', append log kind actor ts denial = (log', true) /\
    events log' = events log ++ [logged log kind actor ts denial] /\
    al_last_hash log' = ev_hash (logged log kind actor ts denial) /\
    al_next_seq log' = saturating_add_u64 (al_next_seq log) 1.
Proof using HL.
  rewrite is_full_false. intros Hr. unfold append, logged.
  destruct denial as [[c r]|]; cbn;
    match goal with |- context [hv_push ?v ?x] =>
      destruct (hv_push_room _ _ v x Hr) as (v' & -> & Hv') end;
    eexists; (split; [done|split; [exact Hv'|done]]).
Qed.

(** [append] succeeds exactly when the log is not full. *)
Lemma append_snd log kind actor ts denial :
  snd (append log kind actor ts denial) = negb (is_full log).
Proof using HL.
  destruct (is_full log) eqn:Hf; cbn.
  - by rewrite append_full.
  - by destruct (append_room log kind actor ts denial Hf) as (? & -> & _).
Qed.

Lemma logged_wf log kind actor ts denial :
  in_u64 (al_next_seq log) -> in_u32 actor -> in_u64 ts -> event_wf (logged log kind actor ts denial).
Proof. intros. constructor; cbn; [done..| |]; destruct denial as [[]|]; cbn; naive_solver. Qed.

Lemma logged_hash log kind actor ts denial :
  ev_hash (logged log kind actor ts denial)
  = event_hash (al_last_hash log) (logged log kind actor ts denial).
Proof. done. Qed.

Lemma log_wf_next_u64 log : log_wf log -> in_u64 (al_next_seq log).
Proof. intros [_ _ -> _ Hc _]. assert (MAX_AUDIT_EVENTS = 512%nat) by done. width_lia. Qed.

Lemma new_wf : log_wf new.
Proof using HL.
  constructor; unfold verify_chain, events, len, hv_len; cbn; rewrite ?hv_slice_new; cbn; try done.
  lia.
Qed.

Lemma append_wf log kind actor ts denial :
  log_wf log -> in_u32 actor -> in_u64 ts -> log_wf (fst (append log kind actor ts denial)).
Proof using HL.
  intros Hwf Ha Ht. destruct (is_full log) eqn:Hf; [by rewrite append_full|].
  pose proof (log_wf_next_u64 log Hwf) as Hn.
  destruct (append_room log kind actor ts denial Hf) as (log' & -> & He & Hh & Hs).
  destruct Hwf as [Hc Hhd Hnx Hsq Hcap Hev]. apply is_full_false in Hf.
  assert (len log' = S (len log)) as Hlen.
  { change (length (events log') = S (length (events log))). rewrite He, length_app; cbn. lia. }
  assert (MAX_AUDIT_EVENTS = 512%nat) as Hmax by done.
  cbn [fst]. constructor.
  - change (verify_from zero_hash (events log') = true). rewrite He. apply verify_from_snoc.
    split; [done|]. by rewrite <- Hhd, logged_hash.
  - by rewrite He, chain_head_snoc.
  - rewrite Hs, Hlen, Hnx. width_lia.
  - intros i e. rewrite He, lookup_app_Some. intros [Hi|[Hi Hx]]; [eauto|].
    apply list_lookup_singleton_Some in Hx as [Hi0 <-]. cbn. rewrite Hnx. unfold len.
    change (hv_len (al_events log)) with (length (events log)). lia.
  - lia.
  - rewrite He, Forall_snoc. split; [done|]. by apply logged_wf.
Qed.

(** The logs that any sequence of [append] calls can produce. *)
Inductive log_reachable : AuditLog -> Prop :=
| reach_new : log_reachable new
| reach_append log kind actor ts denial :
    log_reachable log -> in_u32 actor -> in_u64 ts ->
    log_reachable (fst (append log kind actor ts denial)).

Lemma reachable_wf log : log_reachable log -> log_wf log.
Proof using HL. induction 1; [apply new_wf|by apply append_wf]. Qed.

(** C19: Every log produced by [AuditLog::new] and any sequence of [append] calls passes
    [verify_chain], holds at most MAX_AUDIT_EVENTS events numbered 0, 1, 2, ..., and its
    head hash is the hash of its last event. *)
Theorem audit_log_invariant log :
  log_reachable log ->
  verify_chain log = true /\
  (len log <= MAX_AUDIT_EVENTS)%nat /\
  (forall i e, events log !! i = Some e -> ev_seq e = Z.of_nat i) /\
  head_hash log = chain_head zero_hash (events log).
Proof using HL. intros [Hc Hh _ Hs Hcap _]%reachable_wf. done. Qed.

(** [append] reports [true] exactly when the log is not full; it then adds one event at
    the end, carrying its arguments, the next sequence number, and an outcome that is
    [Denied] exactly when a denial was passed; on a full log it changes nothing. *)
Theorem append_spec log kind actor ts denial :
  let '(log', ok) := append log kind actor ts denial in
  (ok = true <-> is_full log = false) /\
  (ok = false -> log' = log) /\
  (ok = true -> exists e, events log' = events log ++ [e] /\
     ev_kind e = kind /\ ev_actor e = actor /\ ev_timestamp e = ts /\
     ev_seq e = al_next_seq log /\
     (ev_outcome e = Denied <-> is_Some denial) /\
     ev_denial_class e = fst <$> denial /\ ev_denial_reason e = snd <$> denial /\
     ev_hash e = head_hash log' /\
     ev_hash e = digest (chain_input (head_hash log) e)).
Proof using HL SL.
  destruct (is_full log) eqn:Hf.
  - rewrite append_full by done. done.
  - destruct (append_room log kind actor ts denial Hf) as (log' & -> & He & Hh & _).
    split; [done|]. split; [done|]. intros _. eexists; split; [exact He|].
    unfold head_hash. rewrite Hh, <- event_hash_digest. cbn -[event_hash].
    repeat split; try done; destruct denial; naive_solver.
Qed.

(** ** Tamper evidence *)

Lemma event_eq e e' : event_fields e = event_fields e' -> ev_hash e = ev_hash e' -> e = e'.
Proof. destruct e, e'; cbn. unfold event_fields. cbn. intros. simplify_eq. done. Qed.

(** What is hashed for each event, in order, when a chain is verified from [prev]. *)
Fixpoint hashed (prev : bytes) (evs : list AuditEvent) : list bytes :=
  match evs with
  | [] => []
  | e :: evs' => chain_input prev e :: hashed (ev_hash e) evs'
  end.

Lemma hashed_length prev evs : length (hashed prev evs) = length evs.
Proof. revert prev. induction evs as [|e evs IH]; intros prev; cbn; [done|]. by rewrite IH. Qed.

Lemma hashed_snoc prev evs e :
  hashed prev (evs ++ [e]) = hashed prev evs ++ [chain_input (chain_head prev evs) e].
Proof.
  revert prev. induction evs as [|x evs IH]; intros prev; [done|]. cbn. by rewrite IH, chain_head_cons.
Qed.

(** Two event lists that verify from the same genesis, have equally many events and the
    same head agree, or a collision occurs among the inputs hashed for them. *)
Lemma chains_agree prev l l' :
  length prev = 32%nat -> length l = length l' ->
  Forall event_wf l -> Forall event_wf l' ->
  verify_from prev l = true -> verify_from prev l' = true ->
  chain_head prev l = chain_head prev l' ->
  l = l' \/ collide (hashed prev l) (hashed prev l').
Proof using SL.
  intros Hp. revert l'. induction l as [|e l IH] using rev_ind; intros l' Hl Hw Hw' Hv Hv' Hh.
  { destruct l'; [by left|done]. }
  destruct l' as [|e' l' _] using rev_ind; [rewrite length_app in Hl; cbn in Hl; lia|].
  rewrite !length_app in Hl; cbn in Hl.
  apply Forall_snoc in Hw as [Hw He].
  apply Forall_snoc in Hw' as [Hw' He'].
  apply verify_from_snoc in Hv as [Hv Hd]. apply verify_from_snoc in Hv' as [Hv' Hd'].
  rewrite !chain_head_snoc in Hh. rewrite event_hash_digest in Hd, Hd'.
  destruct (decide (chain_input (chain_head prev l) e = chain_input (chain_head prev l') e'))
    as [Hin|Hne].
  - apply chain_input_inj in Hin as [Hhd Hf]; [|by rewrite !chain_head_length|done..].
    destruct (IH l') as [->|(i & x & y & Hx & Hy & Hc)]; [lia|done..| |].
    + left. by rewrite (event_eq e e').
    + right. exists i, x, y. rewrite !hashed_snoc. by rewrite !(lookup_app_l_Some _ _ _ _ Hx), !(lookup_app_l_Some _ _ _ _ Hy).
  - right. eexists (length l), _, _. rewrite !hashed_snoc.
    split; [apply list_lookup_middle; by rewrite hashed_length|].
    split; [apply list_lookup_middle; rewrite hashed_length; lia|]. split; [exact Hne|]. congruence.
Qed.


(** Replacing one event of a verified chain. *)
Lemma verify_replace prev evs i e e' :
  verify_from prev evs = true -> evs !! i = Some e ->
  verify_from prev (<[i := e']> evs) = true ->
  let p := chain_head prev (take i evs) in event_hash p e = ev_hash e /\ event_hash p e' = ev_hash e'.
Proof.
  intros Hv He Hv'. pose proof (lookup_lt_Some _ _ _ He) as Hlt.
  rewrite insert_take_drop in Hv' by done.
  rewrite <- (take_drop_middle _ _ _ He) in Hv.
  rewrite verify_from_app in Hv, Hv'. apply andb_true_iff in Hv as [_ Hv], Hv' as [_ Hv'].
  cbn in Hv, Hv' |- *. by repeat case_decide.
Qed.

(** Single mutations are caught.  In a log the kernel produced, overwriting the hash of
    one event, or overwriting other fields of one event and keeping its hash, makes
    [verify_chain] fail, unless SHA-256 collides on what is hashed for the two versions of
    that event. *)
Theorem audit_mutation_detected log i e e' :
  log_reachable log -> events log !! i = Some e -> event_wf e' -> e' <> e ->
  event_fields e' = event_fields e \/ ev_hash e' = ev_hash e ->
  verify_from zero_hash (<[i := e']> (events log)) = false \/
  let p := chain_head zero_hash (take i (events log)) in sha_collision (chain_input p e') (chain_input p e).
Proof using HL SL.
  intros [Hc _ _ _ _ Hev]%reachable_wf Hi Hw' Hne Hkeep.
  destruct (verify_from zero_hash (<[i := e']> (events log))) eqn:Hv; [right|by left].
  destruct (verify_replace _ _ _ _ _ Hc Hi Hv) as [He He'].
  set (p := chain_head _ _) in *. cbn zeta. assert (event_wf e) as Hw by by eapply Forall_lookup_1.
  rewrite event_hash_digest in He, He'.
  destruct (decide (event_fields e' = event_fields e)) as [Hf|Hf].
  - exfalso. apply Hne, event_eq; [done|]. rewrite <- He, <- He'. unfold event_fields in Hf.
    unfold chain_input. congruence.
  - destruct Hkeep as [|Hh]; [done|]. split; [|congruence]. intros [_ ?]%chain_input_inj; done.
Qed.

End facts.

(** ** Export

    For a writer that never fails and appends, the export is the JSON array of the
    rendered events. *)

Definition json_event (ev : AuditEvent) : string :=
  "{" +:+ dq +:+ "seq" +:+ dq +:+ ":" +:+ fmt_uint (ev_seq ev)
  +:+ "," +:+ dq +:+ "kind" +:+ dq +:+ ":" +:+ dq +:+ kind_str ev +:+ dq
  +:+ "," +:+ dq +:+ "actor" +:+ dq +:+ ":" +:+ fmt_uint (ev_actor ev)
  +:+ "," +:+ dq +:+ "ts" +:+ dq +:+ ":" +:+ fmt_uint (ev_timestamp ev)
  +:+ "," +:+ dq +:+ "ok" +:+ dq +:+ ":" +:+ fmt_bool (bool_decide (ev_outcome ev = Permitted))
  +:+ "," +:+ match denial_class_str ev with
      | None => dq +:+ "class" +:+ dq +:+ ":null," +:+ dq +:+ "reason" +:+ dq +:+ ":null,"
      | Some c => dq +:+ "class" +:+ dq +:+ ":" +:+ dq +:+ c +:+ dq
          +:+ "," +:+ dq +:+ "reason" +:+ dq +:+ ":" +:+ dq
          +:+ default "" (ev_denial_reason ev) +:+ dq +:+ ","
      end
  +:+ dq +:+ "hash" +:+ dq +:+ ":" +:+ dq +:+ String.concat "" (fmt_02x <$> ev_hash ev) +:+ dq +:+ "}".

Section export_facts.
Context `{HV : HVec} `{FW : FmtWrite W} (content : W -> string).
Hypothesis write_str_ok : forall w s,
  exists w', write_str w s = Some w' /\ content w' = content w +:+ s.

(** [c] runs to completion on [w] and adds exactly [s] to what was written. *)
Definition writes (c : W -> option W) (s : string) : Prop :=
  forall w, exists w', c w = Some w' /\ content w' = content w +:+ s.

Lemma writes_str s : writes (fun w => write_str w s) s.
Proof using write_str_ok. intros w. apply write_str_ok. Qed.

Lemma writes_nop : writes Some "".
Proof. intros w. exists w. by rewrite string_app_nil. Qed.

Lemma writes_seq c d s t : writes c s -> writes d t -> writes (fun w => w' ← c w; d w') (s +:+ t).
Proof.
  intros Hc Hd w. destruct (Hc w) as (w1 & -> & H1). destruct (Hd w1) as (w2 & H2 & H3).
  exists w2. cbn. split; [done|]. by rewrite H3, H1, string_app_assoc.
Qed.

Lemma concat_empty_cons s ss : String.concat "" (s :: ss) = s +:+ String.concat "" ss.
Proof. destruct ss; [|done]. symmetry. apply string_app_nil. Qed.

Lemma writes_fmt ps : writes (fun w => write_fmt w ps) (String.concat "" ps).
Proof using write_str_ok.
  induction ps as [|p ps IH]; [apply writes_nop|].
  rewrite concat_empty_cons. by apply (writes_seq (fun w => write_str w p)); [apply writes_str|].
Qed.

Lemma writes_hex hash : writes (fun w => write_hex w hash) (String.concat "" (fmt_02x <$> hash)).
Proof using write_str_ok.
  induction hash as [|b bs IH]; [apply writes_nop|]. cbn [fmap list_fmap].
  rewrite concat_empty_cons. apply (writes_seq (fun w => write_fmt w [fmt_02x b])); [|done].
  apply (writes_fmt [_]).
Qed.

Lemma writes_event ev : writes (fun w => export_event w ev) (json_event ev).
Proof using write_str_ok.
  unfold json_event. eapply eq_rect.
  - unfold export_event. eapply writes_seq; [apply writes_fmt|].
    eapply writes_seq; [instantiate (1 := match denial_class_str ev with
      | Some c => String.concat "" _ | None => String.concat "" _ end);
      destruct (denial_class_str ev); apply writes_fmt|].
    eapply writes_seq; [apply writes_str|]. eapply writes_seq; [apply writes_hex|]. apply writes_str.
  - destruct (denial_class_str ev);
      by rewrite !concat_empty_cons, <- !string_app_assoc.
Qed.

Lemma writes_events_tail i evs :
  writes (fun w => export_events (S i) w evs)
         (String.concat "" ((fun e => "," +:+ json_event e) <$> evs)).
Proof using write_str_ok.
  revert i. induction evs as [|e evs IH]; intros i; [apply writes_nop|].
  cbn [fmap list_fmap]. rewrite concat_empty_cons, <- string_app_assoc.
  eapply writes_seq; [apply writes_str|]. eapply writes_seq; [apply writes_event|apply IH].
Qed.

Lemma concat_comma j js :
  String.concat "," (j :: js) = j +:+ String.concat "" ((fun s => "," +:+ s) <$> js).
Proof.
  revert j. induction js as [|k js IH]; intros j; [by rewrite string_app_nil|].
  cbn [fmap list_fmap]. rewrite concat_empty_cons, <- string_app_assoc.
  change (String.concat "," (j :: k :: js)) with (j +:+ "," +:+ String.concat "," (k :: js)).
  by rewrite IH.
Qed.

Lemma writes_events evs :
  writes (fun w => export_events 0 w evs) (String.concat "," (json_event <$> evs)).
Proof using write_str_ok.
  destruct evs as [|e evs]; [apply writes_nop|].
  rewrite fmap_cons, concat_comma, <- list_fmap_compose.
  apply (writes_seq (fun w => export_event w e)); [apply writes_event|apply writes_events_tail].
Qed.

(** On a writer that does not fail, [export_json] succeeds and writes the JSON array of the
    log's events, one object per event in insertion order, separated by commas. *)
Lemma export_json_writes (log : AuditLog) w :
  exists w', export_json log w = Some w' /\
    content w' = content w +:+ "[" +:+ String.concat "," (json_event <$> events log) +:+ "]".
Proof using write_str_ok.
  apply (writes_seq (fun w => write_str w "[")); [apply writes_str|].
  apply (writes_seq (fun w => export_events 0 w _)); [apply writes_events|apply writes_str].
Qed.

End export_facts.

(** ** Witnesses *)

Module Witness.
#[local] Existing Instance ListModel.list_hvec.
#[local] Existing Instance ListModel.list_hvec_laws.
#[local] Existing Instance ByteModel.toy_sha.
#[local] Existing Instance ByteModel.toy_sha_laws.

(** A permitted capability check followed by a denied deduction. *)
Definition log1 : AuditLog := fst (append new CapabilityCheck 7 UNTIMED None).
Definition log2 : AuditLog := fst (append log1 ResourceDeduction 9 UNTIMED (Some (Failure, "compute"))).

Lemma log2_reachable : log_reachable log2.
Proof. unfold log2, log1, UNTIMED. repeat constructor; width_lia. Qed.

Lemma audit_log_invariant_witness :
  verify_chain log2 = true /\ (len log2 <= MAX_AUDIT_EVENTS)%nat.
Proof. destruct (audit_log_invariant log2 log2_reachable) as (H1 & H2 & _). by split. Defined.

Lemma append_spec_witness :
  is_full log1 = false /\ exists e, events log2 = events log1 ++ [e] /\ ev_outcome e = Denied.
Proof.
  pose proof (append_spec log1 ResourceDeduction 9 UNTIMED (Some (Failure, "compute"))) as H.
  change (append log1 ResourceDeduction 9 UNTIMED (Some (Failure, "compute"))) with (log2, true) in H.
  destruct H as ([Hf _] & _ & He). split; [by apply Hf|].
  destruct (He eq_refl) as (e & Hev & _ & _ & _ & _ & [_ Ho] & _). exists e. eauto.
Defined.


(** The first event with its actor changed from 7 to 8. *)
Definition forged : AuditEvent := {|
  ev_kind := CapabilityCheck; ev_actor := 8; ev_seq := 0; ev_timestamp := 0;
  ev_outcome := Permitted; ev_denial_class := None; ev_denial_reason := None;
  ev_hash := head_hash log1 |}.

Lemma audit_mutation_detected_witness :
  verify_from zero_hash (<[0%nat := forged]> (events log2)) = false \/
  let p := chain_head zero_hash (take 0 (events log2)) in
  sha_collision (chain_input p forged) (chain_input p (logged new CapabilityCheck 7 UNTIMED None)).
Proof.
  eapply (audit_mutation_detected log2 0 (logged new CapabilityCheck 7 UNTIMED None) forged).
  - exact log2_reachable.
  - vm_compute; reflexivity.
  - constructor; cbn; [width_lia..| |]; split; intros H; try done; by destruct H.
  - intros [=].
  - right. vm_compute; reflexivity.
Defined.

(** A writer that appends to a string. *)
#[local] Instance string_writer : FmtWrite string := fun w s => Some (w +:+ s).

(** The export of a concrete log. *)
Lemma export_log2 :
  exists w', export_json log2 "" = Some w' /\
    w' = "" +:+ "[" +:+ String.concat "," (json_event <$> events log2) +:+ "]".
Proof.
  apply (export_json_writes (fun w : string => w)). intros w s. by exists (w +:+ s).
Qed.

End Witness.
