(* ===== verification/Capability.v ===== *)
(** * Capability tokens

    Models [src/auth/capability.rs]: the rights set, the token, [authorises], [delegate]
    and [zeroize].  The theorems: [authorises] is exactly "same generation and every
    requested bit held", and no chain of delegations, however long, ever gains a right or
    changes the generation. *)
From S2P Require Import Prelude Heapless Types.
From stdpp Require Import base tactics list numbers option relations.
Open Scope Z_scope.

(** ** Rights: [struct CapabilitySet: u32], a set of flags held as its bits. *)

Definition CapabilitySet : Type := Z.

Definition READ_TOPOLOGY : CapabilitySet := 1.
Definition ALLOC_RESOURCE : CapabilitySet := 2.
Definition SCHEDULE : CapabilitySet := 4.
Definition DELEGATE : CapabilitySet := 8.
Definition SHUTDOWN : CapabilitySet := 16.

(** [CapabilitySet::empty()] and the union of all declared flags. *)
Definition empty_rights : CapabilitySet := 0.
Definition all_rights : CapabilitySet := 31.

(** The value fits its [u32]. *)
Definition rights_ok (r : CapabilitySet) : Prop := in_u32 r.

(** Every right of [s] is a right of [r]. *)
Definition rights_subset (s r : CapabilitySet) : Prop :=
  forall i, 0 <= i -> Z.testbit s i = true -> Z.testbit r i = true.

#[global] Instance rights_subset_preorder : PreOrder rights_subset.
Proof. split; [by intros r i|]. intros r s t H1 H2 i Hi Hr. eauto. Qed.

(** ** Tokens *)

Record Capability := mkCap {
  cap_issuer : NodeId;
  cap_target : NodeId;
  cap_rights : CapabilitySet;
  cap_generation : Generation;
  cap_nonce : Z;
}.

#[global] Instance Capability_eq_dec : EqDecision Capability.
Proof. solve_decision. Defined.

(** The field widths. *)
Record cap_ok (c : Capability) : Prop := {
  cok_issuer : node_ok (cap_issuer c);
  cok_target : node_ok (cap_target c);
  cok_rights : rights_ok (cap_rights c);
  cok_generation : in_u64 (cap_generation c);
  cok_nonce : in_u64 (cap_nonce c);
}.

(** [Zeroize::zeroize], also run by [Drop]. *)
Definition zeroize (self : Capability) : Capability := {|
  cap_issuer := cap_issuer self;
  cap_target := cap_target self;
  cap_rights := empty_rights;
  cap_generation := 0;
  cap_nonce := 0;
|}.

Section ops.
Context `{BF : Bitflags}.

Definition contains (r s : CapabilitySet) : bool := bf_contains r s.

Definition from_bits_truncate (bits : Z) : CapabilitySet := bf_truncate all_rights bits.

Definition authorises (self : Capability) (right : CapabilitySet) (current_gen : Generation) : bool :=
  (cap_generation self =? current_gen) && contains (cap_rights self) right.

Definition delegate (self : Capability) (new_target : NodeId) (subset : CapabilitySet) (nonce : Z)
    : option Capability :=
  if negb (contains (cap_rights self) DELEGATE) then None
  else if negb (contains (cap_rights self) subset) then None
  else Some {|
    cap_issuer := cap_target self;
    cap_target := new_target;
    cap_rights := subset;
    cap_generation := cap_generation self;
    cap_nonce := nonce;
  |}.

(** [Capability::new_for_test], the public constructor the tests and examples use. *)
Definition new_for_test (issuer target : NodeId) (rights : CapabilitySet) (generation : Generation) (nonce : Z)
    : Capability := {|
  cap_issuer := issuer; cap_target := target; cap_rights := rights;
  cap_generation := generation; cap_nonce := nonce |}.

(** [Drop::drop]. *)
Definition drop_cap (self : Capability) : Capability := zeroize self.

(** [Capability::issuer], [target], [rights_bits], [generation_raw], [nonce_raw]. *)
Definition issuer (self : Capability) : NodeId := cap_issuer self.
Definition target (self : Capability) : NodeId := cap_target self.
Definition rights_bits (self : Capability) : Z := cap_rights self.
Definition generation_raw (self : Capability) : Z := cap_generation self.
Definition nonce_raw (self : Capability) : Z := cap_nonce self.

End ops.

Section facts.
Context `{BF : Bitflags} `{BL : !BitflagsLaws}.

Lemma contains_true r s : rights_ok r -> rights_ok s -> contains r s = true <-> rights_subset s r.
Proof using BL. intros Hr Hs. apply bf_contains_spec; width_lia || (unfold rights_ok in *; width_lia). Qed.

Lemma flags_ok : rights_ok SCHEDULE /\ rights_ok DELEGATE /\ rights_ok empty_rights.
Proof. unfold rights_ok, SCHEDULE, DELEGATE, empty_rights. width_lia. Qed.

Lemma authorises_true c right g :
  rights_ok (cap_rights c) -> rights_ok right ->
  authorises c right g = true <-> cap_generation c = g /\ rights_subset right (cap_rights c).
Proof using BL.
  intros Hr Hs. unfold authorises. rewrite andb_true_iff, Z.eqb_eq, contains_true by done. done.
Qed.

Lemma delegate_Some c new_target subset nonce c' :
  rights_ok (cap_rights c) -> rights_ok subset ->
  delegate c new_target subset nonce = Some c' <->
  rights_subset DELEGATE (cap_rights c) /\ rights_subset subset (cap_rights c) /\
  c' = mkCap (cap_target c) new_target subset (cap_generation c) nonce.
Proof using BL.
  intros Hr Hs. unfold delegate. rewrite <- !contains_true by (done || apply flags_ok).
  destruct (contains (cap_rights c) DELEGATE), (contains (cap_rights c) subset); cbn; naive_solver.
Qed.

(** One delegation by a holder of [c], with arguments of the right width. *)
Definition delegates_to (c c' : Capability) : Prop :=
  exists new_target subset nonce, node_ok new_target /\ rights_ok subset /\ in_u64 nonce /\
    delegate c new_target subset nonce = Some c'.

Lemma delegates_ok c c' : cap_ok c -> delegates_to c c' -> cap_ok c'.
Proof using BL.
  intros [] (t & s & n & Ht & Hs & Hn & Hd).
  apply delegate_Some in Hd as (_ & _ & ->); [by constructor|done..].
Qed.

(** What any chain of delegations keeps. *)
Lemma delegation_chain c c' :
  cap_ok c -> rtc delegates_to c c' ->
  cap_ok c' /\ rights_subset (cap_rights c') (cap_rights c) /\ cap_generation c' = cap_generation c.
Proof using BL.
  intros Hc Hch. induction Hch as [c|c d e Hcd _ IH]; [done|].
  pose proof (delegates_ok _ _ Hc Hcd) as Hd. destruct (IH Hd) as (He & Hsub & Hg).
  destruct Hcd as (t & s & n & _ & Hs & _ & Hdel).
  apply delegate_Some in Hdel as (_ & Hds & ->); [|apply Hc|done]. cbn in *.
  split; [done|]. split; [by etrans|done].
Qed.

(** [authorises] holds exactly when the token's generation equals the current one and
    the token holds every bit of the requested right. *)
Theorem authorises_exact c right g :
  cap_ok c -> rights_ok right ->
  authorises c right g = true <-> cap_generation c = g /\ rights_subset right (cap_rights c).
Proof using BL. intros Hc Hr. apply authorises_true; [apply Hc|done]. Qed.

(** C22: Non-escalation.  Whatever token is at the end of a chain of delegations, every
    operation it authorises in some generation was authorised by the token the chain
    started from. *)
Theorem delegation_never_escalates root c right g :
  cap_ok root -> rtc delegates_to root c -> rights_ok right ->
  authorises c right g = true -> authorises root right g = true.
Proof using BL.
  intros Hr Hch Hri. destruct (delegation_chain _ _ Hr Hch) as (Hc & Hsub & Hg).
  rewrite !authorises_true by (done || apply Hc || apply Hr).
  intros [<- Hs]. split; [done|]. by etrans.
Qed.

(** [delegate] succeeds exactly when the token holds DELEGATE and holds every requested
    right; the new token is issued by the delegator's node, keeps the generation and
    carries exactly the requested rights. *)
Theorem delegate_exact c new_target subset nonce c' :
  cap_ok c -> rights_ok subset ->
  delegate c new_target subset nonce = Some c' <->
  rights_subset DELEGATE (cap_rights c) /\ rights_subset subset (cap_rights c) /\
  c' = mkCap (cap_target c) new_target subset (cap_generation c) nonce.
Proof using BL. intros Hc Hs. apply delegate_Some; [apply Hc|done]. Qed.

(** The documentation of [delegate] speaks of a strict subset of rights; the check is not
    strict: a token that holds DELEGATE can delegate all of its rights, DELEGATE included. *)
Theorem delegate_not_strict c new_target nonce :
  cap_ok c -> rights_subset DELEGATE (cap_rights c) ->
  exists c', delegate c new_target (cap_rights c) nonce = Some c' /\ cap_rights c' = cap_rights c.
Proof using BL.
  intros Hc Hd. eexists. split; [apply delegate_Some; [apply Hc..|by split]|done].
Qed.

End facts.

(** ** Witnesses *)

Module Witness.
#[local] Existing Instance ListModel.bits_model.
#[local] Existing Instance ListModel.bits_model_laws.

Definition root : Capability := mkCap 1 2 (SCHEDULE + DELEGATE) 5 100.
Definition child : Capability := mkCap 2 3 SCHEDULE 5 101.

Lemma root_ok : cap_ok root.
Proof. constructor; ground. Qed.

Lemma root_child : delegates_to root child.
Proof.
  exists 3, SCHEDULE, 101. split; [ground|]. split; [ground|]. split; [ground|reflexivity].
Qed.

Lemma authorises_exact_witness :
  authorises root SCHEDULE 5 = true <->
  cap_generation root = 5 /\ rights_subset SCHEDULE (cap_rights root).
Proof. apply (authorises_exact root SCHEDULE 5 root_ok). apply flags_ok. Defined.

Lemma delegation_never_escalates_witness : authorises root SCHEDULE 5 = true.
Proof.
  apply (delegation_never_escalates root child SCHEDULE 5 root_ok).
  - apply rtc_once, root_child.
  - apply flags_ok.
  - vm_compute; reflexivity.
Defined.

Lemma delegate_exact_witness :
  delegate root 3 SCHEDULE 101 = Some child <->
  rights_subset DELEGATE (cap_rights root) /\ rights_subset SCHEDULE (cap_rights root) /\
  child = mkCap 2 3 SCHEDULE 5 101.
Proof. apply (delegate_exact root 3 SCHEDULE 101 child root_ok). apply flags_ok. Defined.

Lemma delegate_not_strict_witness :
  exists c', delegate root 3 (cap_rights root) 101 = Some c' /\ cap_rights c' = cap_rights root.
Proof.
  apply (delegate_not_strict root 3 101 root_ok).
  apply contains_true; [apply root_ok|apply flags_ok|vm_compute; reflexivity].
Defined.

End Witness.
