(* ===== verification/Revocation.v ===== *)
(** * Capability revocation ledger

    Models [src/auth/revocation.rs] over the index-set interface of [Heapless.v]. *)
From S2P Require Import Prelude Heapless Types.
From stdpp Require Import base tactics list numbers option.
Open Scope Z_scope.

Section ledger.
Context `{IS : IndexSet}.

Record RevocationLedger := mkRevocation {
  rv_revoked : iset MAX_REVOCATIONS;
  rv_epoch : Z;
}.

Definition new : RevocationLedger := {| rv_revoked := is_new; rv_epoch := 0 |}.

Definition default_revocations : RevocationLedger := new.

Definition revoke (self : RevocationLedger) (token_id : Z) : RevocationLedger * bool :=
  match is_insert (rv_revoked self) token_id with
  | Some (revoked, _) =>
      ({| rv_revoked := revoked; rv_epoch := saturating_add_u64 (rv_epoch self) 1 |}, true)
  | None => (self, false)
  end.

Definition is_revoked (self : RevocationLedger) (token_id : Z) : bool :=
  is_contains (rv_revoked self) token_id.

Definition clear (self : RevocationLedger) : RevocationLedger :=
  {| rv_revoked := is_clear (rv_revoked self); rv_epoch := 0 |}.

Definition epoch (self : RevocationLedger) : Z := rv_epoch self.

Context `{IL : !IndexSetLaws}.

Lemma is_revoked_new t : is_revoked new t = false.
Proof using IL. apply is_contains_new. Qed.

Lemma is_revoked_clear r t : is_revoked (clear r) t = false.
Proof using IL. apply is_contains_clear. Qed.

(** What a call of [revoke] does to the set. *)
Lemma revoke_cases r t :
  let '(r', ok) := revoke r t in
  (ok = false -> r' = r /\ is_revoked r t = false /\ (MAX_REVOCATIONS <= is_len (rv_revoked r))%nat) /\
  (ok = true -> (forall u, is_revoked r' u = bool_decide (u = t) || is_revoked r u) /\
     rv_epoch r' = saturating_add_u64 (rv_epoch r) 1 /\
     is_len (rv_revoked r') =
       (if is_revoked r t then is_len (rv_revoked r) else S (is_len (rv_revoked r)))).
Proof using IL.
  unfold revoke, is_revoked. destruct (is_contains (rv_revoked r) t) eqn:Hc.
  - rewrite is_insert_old by done. cbn. repeat split; try done.
    intros u. case_bool_decide; [by subst|done].
  - destruct (decide (is_len (rv_revoked r) < MAX_REVOCATIONS)%nat) as [Hl|Hl].
    + destruct (is_insert_fresh _ (rv_revoked r) t Hc Hl) as (s' & -> & Hlen & Hin). cbn. done.
    + rewrite is_insert_full by (done || lia). cbn. repeat split; try done. lia.
Qed.

Lemma revoke_monotone r t u : is_revoked r u = true -> is_revoked (fst (revoke r t)) u = true.
Proof using IL.
  pose proof (revoke_cases r t) as H. destruct (revoke r t) as [r' []]; destruct H as [Hf Ht]; cbn.
  - destruct (Ht eq_refl) as (-> & _). intros ->. apply orb_true_r.
  - by destruct (Hf eq_refl) as (-> & _).
Qed.

(** After a successful [revoke] the token is revoked and so is every token that was
    revoked before, and no other; [revoke] fails only for a new token when MAX_REVOCATIONS
    tokens are revoked already, and then changes nothing. *)
Theorem revoke_spec r t :
  let '(r', ok) := revoke r t in
  (ok = false <-> is_revoked r t = false /\ (MAX_REVOCATIONS <= is_len (rv_revoked r))%nat) /\
  (ok = false -> r' = r) /\
  (ok = true -> forall u, is_revoked r' u = true <-> u = t \/ is_revoked r u = true).
Proof using IL.
  pose proof (revoke_cases r t) as H.
  assert (is_revoked r t = false -> (MAX_REVOCATIONS <= is_len (rv_revoked r))%nat ->
          snd (revoke r t) = false) as Hfull.
  { intros Hc Hl. unfold revoke. by rewrite is_insert_full. }
  destruct (revoke r t) as [r' ok]; destruct H as [Hf Ht]. cbn in Hfull.
  destruct ok.
  - destruct (Ht eq_refl) as (Hu & _). split; [split; [done|]|split; [done|]].
    + intros [Hc Hl]. by apply Hfull.
    + intros _ u. by rewrite Hu, orb_true_iff, bool_decide_eq_true.
  - destruct (Hf eq_refl) as (-> & ? & ?). repeat split; done.
Qed.

(** [epoch] is documented as the number of tokens revoked in the current generation;
    it counts successful calls instead: revoking a token that is already revoked raises
    the epoch and leaves the set of revoked tokens as it was. *)
Theorem epoch_counts_repeats r t :
  in_u64 (rv_epoch r) -> rv_epoch r < U64_MAX -> is_revoked r t = true ->
  exists r', revoke r t = (r', true) /\ epoch r' = epoch r + 1 /\
    is_len (rv_revoked r') = is_len (rv_revoked r) /\
    forall u, is_revoked r' u = is_revoked r u.
Proof using IL.
  intros Hu Hlt Hr. unfold revoke, is_revoked in *. rewrite is_insert_old by done.
  eexists; split; [done|]. unfold epoch; cbn. split; [width_lia|done].
Qed.

End ledger.

(** ** Witnesses *)

Module Witness.
#[local] Existing Instance ListModel.list_iset.
#[local] Existing Instance ListModel.list_iset_laws.

Definition once : RevocationLedger := fst (revoke new 42).

Lemma revoke_spec_witness : is_revoked once 42 = true /\ is_revoked once 43 = false.
Proof.
  pose proof (revoke_spec new 42) as H. change (revoke new 42) with (once, true) in H.
  destruct H as (_ & _ & H). split; [apply (H eq_refl); by left|vm_compute; reflexivity].
Defined.

Lemma epoch_counts_repeats_witness :
  exists r', revoke once 42 = (r', true) /\ epoch r' = epoch once + 1 /\
    is_len (rv_revoked r') = is_len (rv_revoked once) /\
    forall u, is_revoked r' u = is_revoked once u.
Proof. apply (epoch_counts_repeats once 42); [ground|ground|vm_compute; reflexivity]. Defined.

End Witness.
