(* ===== verification/Policy.v ===== *)
(** * Policy enforcement point

    Models [src/auth/policy.rs], the single authorisation gate of the kernel, over the
    audit log, the token and the revocation ledger.  [check] returns the new policy, the
    new log and the result, so what a denial leaves behind is part of the model.

    The theorems: the exact decision of [check] and its audit record on every branch, and
    three guarantees over arbitrary sequences of policy operations: a nonce is accepted at
    most once per generation, a revoked nonce stays denied until rotation, and rotation
    kills every token of an earlier generation.  Two theorems record where the code departs
    from its documentation: a denial with [AuditFull] spends the nonce, and rotation at the
    last generation revives spent tokens. *)
From S2P Require Import Prelude Heapless Crypto Types AuditLog Capability Revocation.
From stdpp Require Import base tactics list numbers option strings sets.
Open Scope Z_scope.

Section policy.
Context `{HV : HVec} `{IS : IndexSet} `{SH : Sha256} `{BF : Bitflags}.

Record Policy := mkPolicy {
  current_generation : Generation;
  used_nonces : hvec NONCE_WINDOW Z;
  revocation : RevocationLedger;
}.

Definition new (generation : Generation) : Policy := {|
  current_generation := generation;
  used_nonces := hv_new;
  revocation := Revocation.new;
|}.

Definition err_not_authorised : Error :=
  CapabilityDenied "token expired, insufficient rights, or wrong generation".
Definition err_revoked : Error := CapabilityDenied "capability revoked".
Definition err_replayed : Error := CapabilityDenied "nonce replayed".
Definition err_window : Error := CapabilityDenied "nonce window exhausted; rotate generation".

Definition check_inner (self : Policy) (cap : Capability) (required_right : CapabilitySet)
    : Policy * Result unit :=
  if negb (authorises cap required_right (current_generation self)) then
    (self, Err err_not_authorised)
  else if Revocation.is_revoked (revocation self) (cap_nonce cap) then
    (self, Err err_revoked)
  else if contains_Z (hv_slice (used_nonces self)) (cap_nonce cap) then
    (self, Err err_replayed)
  else match hv_push (used_nonces self) (cap_nonce cap) with
       | Some nonces =>
           ({| current_generation := current_generation self; used_nonces := nonces;
               revocation := revocation self |}, Ok tt)
       | None => (self, Err err_window)
       end.

Definition check (self : Policy) (cap : Capability) (required_right : CapabilitySet)
    (audit : AuditLog) : Policy * AuditLog * Result unit :=
  let actor := cap_target cap in
  let '(self', result) := check_inner self cap required_right in
  let denial := denial_of result in
  let '(audit', appended) := AuditLog.append audit CapabilityCheck actor UNTIMED denial in
  if negb appended && is_ok result then (self', audit', Err AuditFull)
  else (self', audit', result).

Definition revoke_capability (self : Policy) (token_id : Z) : Policy * bool :=
  let '(r, ok) := Revocation.revoke (revocation self) token_id in
  ({| current_generation := current_generation self; used_nonces := used_nonces self;
      revocation := r |}, ok).

Definition is_revoked (self : Policy) (token_id : Z) : bool :=
  Revocation.is_revoked (revocation self) token_id.

Definition rotate_generation (self : Policy) : Policy := {|
  current_generation := saturating_add_u64 (current_generation self) 1;
  used_nonces := hv_clear (used_nonces self);
  revocation := Revocation.clear (revocation self);
|}.

Definition generation (self : Policy) : Generation := current_generation self.

End policy.

Section facts.
Context `{HV : HVec} `{IS : IndexSet} `{SH : Sha256} `{BF : Bitflags}.
Context `{HL : !HVecLaws} `{IL : !IndexSetLaws}.
Implicit Types (p : Policy) (cap : Capability) (log : AuditLog).

(** ** The decision *)

Definition window_full p : Prop := (NONCE_WINDOW <= hv_len (used_nonces p))%nat.
Definition spent p (n : Z) : Prop := n ∈ hv_slice (used_nonces p).

(** All four checks of the gate pass. *)
Definition admissible p cap (right : CapabilitySet) : Prop :=
  authorises cap right (current_generation p) = true /\
  is_revoked p (cap_nonce cap) = false /\
  ~ spent p (cap_nonce cap) /\ ~ window_full p.

(** The cause reported for a token that is not admissible: the first check that fails. *)
Definition denial_cause p cap (right : CapabilitySet) : Error :=
  if negb (authorises cap right (current_generation p)) then err_not_authorised
  else if is_revoked p (cap_nonce cap) then err_revoked
  else if contains_Z (hv_slice (used_nonces p)) (cap_nonce cap) then err_replayed
  else err_window.

Lemma check_inner_Ok p cap right :
  admissible p cap right ->
  exists p', check_inner p cap right = (p', Ok tt) /\
    current_generation p' = current_generation p /\ revocation p' = revocation p /\
    hv_slice (used_nonces p') = hv_slice (used_nonces p) ++ [cap_nonce cap].
Proof using HL.
  intros (Ha & Hr & Hs & Hw). unfold check_inner, is_revoked in *. rewrite Ha, Hr; cbn.
  rewrite (proj2 (contains_Z_false _ _)) by done.
  destruct (hv_push_room _ _ (used_nonces p) (cap_nonce cap)) as (v & -> & Hv);
    [unfold window_full in Hw; lia|]. eauto.
Qed.

Lemma check_inner_Err p cap right :
  ~ admissible p cap right -> check_inner p cap right = (p, Err (denial_cause p cap right)).
Proof using HL.
  intros Hn. unfold check_inner, denial_cause, is_revoked.
  destruct (authorises cap right (current_generation p)) eqn:Ha; cbn; [|done].
  destruct (Revocation.is_revoked (revocation p) (cap_nonce cap)) eqn:Hr; [done|].
  destruct (contains_Z (hv_slice (used_nonces p)) (cap_nonce cap)) eqn:Hc; [done|].
  apply contains_Z_false in Hc. rewrite hv_push_full; [done|].
  destruct (decide (NONCE_WINDOW <= hv_len (used_nonces p))%nat) as [|Hw]; [done|].
  destruct Hn. by repeat split.
Qed.

#[global] Instance admissible_dec p cap right : Decision (admissible p cap right).
Proof. unfold admissible, spent, window_full. apply _. Defined.

(** The event [check] passes to the log. *)
Definition check_denial p cap right : option (DenialClass * string) :=
  denial_of (snd (check_inner p cap right)).

Lemma check_unfold p cap right log :
  check p cap right log =
  (fst (check_inner p cap right),
   fst (AuditLog.append log CapabilityCheck (cap_target cap) UNTIMED (check_denial p cap right)),
   if is_full log && is_ok (snd (check_inner p cap right)) then Err AuditFull
   else snd (check_inner p cap right)).
Proof using HL.
  unfold check, check_denial. destruct (check_inner p cap right) as [p' r]; cbn.
  pose proof (append_snd log CapabilityCheck (cap_target cap) UNTIMED (denial_of r)) as Hs.
  destruct (AuditLog.append _ _ _ _ _) as [log' ok]; cbn in *. subst ok.
  rewrite negb_involutive. by destruct (is_full log && is_ok r).
Qed.

(** [check] permits an operation exactly when the token authorises the right in the
    current generation, its nonce is neither revoked nor spent, the nonce window has room,
    and the audit log is not full. *)
Lemma check_permits_iff p cap right log p' log' r :
  check p cap right log = (p', log', r) ->
  r = Ok tt <-> admissible p cap right /\ is_full log = false.
Proof using HL.
  rewrite check_unfold. intros [= <- <- <-].
  destruct (decide (admissible p cap right)) as [Ha|Ha].
  - destruct (check_inner_Ok _ _ _ Ha) as (p1 & -> & _). cbn. rewrite andb_true_r.
    destruct (is_full log); (split; [by intros [=]|by intros [? ?]]).
  - rewrite check_inner_Err by done. cbn. rewrite andb_false_r. naive_solver.
Qed.

(** Every decision of [check], branch by branch.  A denied token leaves the policy
    unchanged and is reported with the first failing check, whether or not the log is
    full; [AuditFull] is reported only for an otherwise permitted operation; a permitted
    operation spends the nonce and nothing else. *)
Lemma check_branches p cap right log :
  let '(p', log', r) := check p cap right log in
  (~ admissible p cap right -> p' = p /\ r = Err (denial_cause p cap right)) /\
  (admissible p cap right -> r = (if is_full log then Err AuditFull else Ok tt) /\
     current_generation p' = current_generation p /\ revocation p' = revocation p /\
     hv_slice (used_nonces p') = hv_slice (used_nonces p) ++ [cap_nonce cap]).
Proof using HL.
  rewrite check_unfold. split; intros Ha.
  - rewrite check_inner_Err by done. cbn. by rewrite andb_false_r.
  - destruct (check_inner_Ok _ _ _ Ha) as (p1 & -> & Hg & Hr & Hu). cbn. by rewrite andb_true_r.
Qed.

(** C4: The decision of the gate, exactly.  [check] permits an operation if and only
    if the token authorises the right in the current generation, its nonce is neither
    revoked nor spent, the nonce window has room and the log is not full.  A permitted
    operation spends the nonce and changes nothing else of the policy.  A token that fails
    a check leaves the policy unchanged and is reported with the first check that fails,
    whether or not the log is full; [AuditFull] is reported only for a token that passes. *)
Theorem policy_decision p cap right log :
  let '(p', log', r) := check p cap right log in
  (r = Ok tt <-> admissible p cap right /\ is_full log = false) /\
  (~ admissible p cap right -> p' = p /\ r = Err (denial_cause p cap right)) /\
  (admissible p cap right -> r = (if is_full log then Err AuditFull else Ok tt) /\
     current_generation p' = current_generation p /\ revocation p' = revocation p /\
     hv_slice (used_nonces p') = hv_slice (used_nonces p) ++ [cap_nonce cap]).
Proof using HL.
  pose proof (check_branches p cap right log) as Hb.
  destruct (check p cap right log) as [[p' log'] r] eqn:Hc.
  split; [exact (check_permits_iff _ _ _ _ _ _ _ Hc)|exact Hb].
Qed.

Lemma check_event p cap right log p' log' r :
  check p cap right log = (p', log', r) ->
  is_full log = false \/ r = Ok tt ->
  exists e, events log' = events log ++ [e] /\
    ev_kind e = CapabilityCheck /\ ev_actor e = cap_target cap /\
    (ev_outcome e = Permitted <-> r = Ok tt) /\
    (forall err, r = Err err -> ev_denial_class e = Some (denial_class err) /\
                                ev_denial_reason e = Some (denial_reason_str err)).
Proof using HL.
  intros Hc Hor. assert (is_full log = false) as Hf.
  { destruct Hor as [|Hok]; [done|]. by apply (check_permits_iff _ _ _ _ _ _ _ Hc) in Hok as [_ ?]. }
  rewrite check_unfold, Hf in Hc. cbn in Hc. injection Hc as <- <- <-.
  destruct (append_room log CapabilityCheck (cap_target cap) UNTIMED (check_denial p cap right) Hf)
    as (l' & -> & He & _). unfold check_denial in He.
  eexists. split; [exact He|]. cbn.
  destruct (snd (check_inner p cap right)) as [[]|err]; cbn; [done|naive_solver].
Qed.

(** Audit completeness of the gate.  Whenever [check] permits, and whenever it denies
    while the log has room, it has appended exactly one event of kind [CapabilityCheck] for
    the token's node, marked [Denied] with class and reason of the error on denial and
    [Permitted] otherwise. *)
Theorem check_audited p cap right log p' log' r :
  check p cap right log = (p', log', r) ->
  is_full log = false \/ r = Ok tt ->
  exists e, events log' = events log ++ [e] /\
    ev_kind e = CapabilityCheck /\ ev_actor e = cap_target cap /\
    (ev_outcome e = Permitted <-> r = Ok tt) /\
    (forall err, r = Err err -> ev_denial_class e = Some (denial_class err) /\
                                ev_denial_reason e = Some (denial_reason_str err)).
Proof using HL. apply check_event. Qed.

Lemma check_full_log p cap right log :
  is_full log = true -> (check p cap right log).1.2 = log.
Proof using HL. intros Hf. rewrite check_unfold. cbn. by rewrite append_full. Qed.

(** ** Sequences of policy operations *)

Inductive policy_op :=
| OpCheck (cap : Capability) (right : CapabilitySet)
| OpRevoke (token_id : Z)
| OpRotate.

#[global] Instance policy_op_eq_dec : EqDecision policy_op.
Proof. solve_decision. Defined.

Definition apply_op (s : Policy * AuditLog) (o : policy_op) : Policy * AuditLog :=
  match o with
  | OpCheck cap req => fst (check s.1 cap req s.2)
  | OpRevoke token_id => (fst (revoke_capability s.1 token_id), s.2)
  | OpRotate => (rotate_generation s.1, s.2)
  end.

Definition run_ops (s : Policy * AuditLog) (ops : list policy_op) : Policy * AuditLog :=
  foldl apply_op s ops.

Definition no_rotation (ops : list policy_op) : Prop := Forall (fun o => o <> OpRotate) ops.

(** [check] as a policy transformer. *)
Lemma check_policy_cases p cap right log :
  let p' := (check p cap right log).1.1 in
  p' = p \/ (current_generation p' = current_generation p /\ revocation p' = revocation p /\
             hv_slice (used_nonces p') = hv_slice (used_nonces p) ++ [cap_nonce cap]).
Proof using HL.
  rewrite check_unfold. cbn. destruct (decide (admissible p cap right)) as [Ha|Ha].
  - right. by destruct (check_inner_Ok _ _ _ Ha) as (p1 & -> & ?).
  - left. by rewrite check_inner_Err.
Qed.

(** Facts that every operation but rotation preserves. *)
Record persists (p p' : Policy) : Prop := {
  per_generation : current_generation p' = current_generation p;
  per_spent : forall n, spent p n -> spent p' n;
  per_revoked : forall n, is_revoked p n = true -> is_revoked p' n = true;
}.

Lemma persists_refl p : persists p p.
Proof. by split. Qed.

Lemma persists_trans p q r : persists p q -> persists q r -> persists p r.
Proof. intros [] []. split; [congruence|eauto..]. Qed.

Lemma op_persists s o : o <> OpRotate -> persists s.1 (apply_op s o).1.
Proof using HL IL.
  destruct s as [p log], o as [cap right|id|]; [| |done]; intros _; cbn.
  - destruct (check_policy_cases p cap right log) as [->|(Hg & Hr & Hu)]; [apply persists_refl|].
    split; [done| |].
    + intros n. unfold spent. rewrite Hu. set_solver.
    + intros n. unfold is_revoked. by rewrite Hr.
  - unfold revoke_capability. pose proof (revoke_monotone (revocation p) id) as Hm.
    destruct (Revocation.revoke (revocation p) id) as [r ok]. split; cbn in *; auto.
Qed.

Lemma run_persists s ops : no_rotation ops -> persists s.1 (run_ops s ops).1.
Proof using HL IL.
  revert s. induction ops as [|o ops IH]; intros s Hn; [apply persists_refl|].
  inversion_clear Hn. eapply persists_trans; [by apply (op_persists s o)|]. by apply IH.
Qed.

Lemma check_denied p cap right log :
  ~ admissible p cap right -> (check p cap right log).2 = Err (denial_cause p cap right) /\
    (check p cap right log).1.1 = p.
Proof using HL.
  intros Ha. pose proof (check_branches p cap right log) as H.
  destruct (check p cap right log) as [[p' l'] r]. by destruct H as [H _]; destruct (H Ha).
Qed.

Lemma denial_cause_capability p cap right : exists reason, denial_cause p cap right = CapabilityDenied reason.
Proof. unfold denial_cause. repeat case_match; by eexists. Qed.

(** The only errors of the gate. *)
Lemma check_errors p cap right log e :
  (check p cap right log).2 = Err e -> e = AuditFull \/ exists reason, e = CapabilityDenied reason.
Proof using HL.
  pose proof (check_branches p cap right log) as Hb.
  destruct (check p cap right log) as [[p' l'] r]. destruct Hb as [Hn Hy]. cbn [snd].
  destruct (decide (admissible p cap right)) as [Ha|Ha].
  - destruct (Hy Ha) as [-> _]. destruct (is_full log); [|done]. intros [= <-]. by left.
  - destruct (Hn Ha) as [_ ->]. intros [= <-]. right. apply denial_cause_capability.
Qed.

Lemma not_admissible_spent p cap right : spent p (cap_nonce cap) -> ~ admissible p cap right.
Proof. by intros Hs (_ & _ & ? & _). Qed.

Lemma not_admissible_revoked p cap right :
  is_revoked p (cap_nonce cap) = true -> ~ admissible p cap right.
Proof. intros Hr (_ & Hr' & _). congruence. Qed.

Lemma not_admissible_generation p cap right :
  cap_generation cap <> current_generation p -> ~ admissible p cap right.
Proof. intros Hg (Ha & _). unfold authorises in Ha. rewrite andb_true_iff, Z.eqb_eq in Ha. naive_solver. Qed.

(** C5: One use per generation.  Once [check] has permitted a token, every later check of
    a token with the same nonce, after any sequence of checks and revocations without a
    rotation, is denied with [CapabilityDenied] and leaves the policy as it was. *)
Theorem nonce_single_use p cap right log p1 log1 ops cap' right' :
  check p cap right log = (p1, log1, Ok tt) ->
  no_rotation ops -> cap_nonce cap' = cap_nonce cap ->
  let s := run_ops (p1, log1) ops in
  exists reason, (check s.1 cap' right' s.2).2 = Err (CapabilityDenied reason) /\
                 (check s.1 cap' right' s.2).1.1 = s.1.
Proof using HL IL.
  intros Hc Hn Heq s. pose proof (check_branches p cap right log) as Hb. rewrite Hc in Hb.
  destruct (proj1 (check_permits_iff _ _ _ _ _ _ _ Hc) eq_refl) as [Ha _].
  destruct Hb as [_ Hb]. destruct (Hb Ha) as (_ & _ & _ & Hu).
  assert (spent s.1 (cap_nonce cap')) as Hs.
  { rewrite Heq. apply (per_spent _ _ (run_persists (p1, log1) ops Hn)).
    unfold spent. cbn [fst]. rewrite Hu. set_solver. }
  destruct (check_denied s.1 cap' right' s.2 (not_admissible_spent _ _ _ Hs)) as [-> ->].
  destruct (denial_cause_capability s.1 cap' right') as [reason ->]. eauto.
Qed.

(** C6: Revocation is sound.  After a successful [revoke_capability] of a nonce, every
    check of a token with that nonce, after any sequence of checks and revocations without
    a rotation, is denied with [CapabilityDenied]. *)
Theorem revocation_sound p token_id p1 log ops cap right :
  revoke_capability p token_id = (p1, true) -> no_rotation ops -> cap_nonce cap = token_id ->
  let s := run_ops (p1, log) ops in
  exists reason, (check s.1 cap right s.2).2 = Err (CapabilityDenied reason).
Proof using HL IL.
  intros Hr Hn <- s. unfold revoke_capability in Hr.
  pose proof (revoke_cases (revocation p) (cap_nonce cap)) as Hc.
  destruct (Revocation.revoke _ _) as [r ok]. injection Hr as <- ->. destruct Hc as [_ Hc].
  destruct (Hc eq_refl) as (Hu & _).
  assert (is_revoked s.1 (cap_nonce cap) = true) as Hs.
  { apply (per_revoked _ _ (run_persists (_, log) ops Hn)). unfold is_revoked. cbn.
    rewrite Hu. by rewrite bool_decide_true. }
  destruct (check_denied s.1 cap right s.2 (not_admissible_revoked _ _ _ Hs)) as [-> _].
  destruct (denial_cause_capability s.1 cap right) as [reason ->]. eauto.
Qed.

(** ** Rotation *)

Lemma apply_op_generation s o :
  in_u64 (current_generation s.1) ->
  in_u64 (current_generation (apply_op s o).1) /\
  current_generation s.1 <= current_generation (apply_op s o).1.
Proof using HL IL.
  intros Hu. destruct (decide (o = OpRotate)) as [->|Hne].
  - cbn. width_lia.
  - rewrite (per_generation _ _ (op_persists s o Hne)). done.
Qed.

Lemma run_generation s ops :
  in_u64 (current_generation s.1) ->
  in_u64 (current_generation (run_ops s ops).1) /\
  current_generation s.1 <= current_generation (run_ops s ops).1.
Proof using HL IL.
  revert s. induction ops as [|o ops IH]; intros s Hu; [done|].
  destruct (apply_op_generation s o Hu) as [Hu' Hle]. destruct (IH (apply_op s o) Hu') as [Hu2 Hle2].
  split; [exact Hu2|]. by etrans; [|exact Hle2].
Qed.

Lemma rotate_below_max p :
  current_generation p < U64_MAX ->
  current_generation (rotate_generation p) = current_generation p + 1.
Proof. intros H. cbn [rotate_generation current_generation]. width_lia. Qed.

(** C7: Rotation is a kill switch.  Below the last generation, after [rotate_generation]
    every token of the old or an earlier generation is denied as expired, whatever
    operations, further rotations included, come in between. *)
Theorem rotation_kills_tokens p log ops cap right :
  in_u64 (current_generation p) -> current_generation p < U64_MAX ->
  cap_generation cap <= current_generation p ->
  let s := run_ops (rotate_generation p, log) ops in
  (check s.1 cap right s.2).2 = Err err_not_authorised.
Proof using HL IL.
  intros Hu Hlt Hle s.
  assert (current_generation p + 1 <= current_generation s.1) as Hg.
  { rewrite <- (rotate_below_max p) by done.
    apply (run_generation (rotate_generation p, log) ops). cbn [fst].
    rewrite rotate_below_max by done. width_lia. }
  assert (cap_generation cap <> current_generation s.1) as Hne by lia.
  destruct (check_denied s.1 cap right s.2 (not_admissible_generation _ _ _ Hne)) as [-> _].
  unfold denial_cause, authorises. by rewrite (proj2 (Z.eqb_neq _ _) Hne).
Qed.

(** The same is not true at the last generation, where the counter saturates:
    rotating clears the nonce window and the revocations but not the generation, so a
    token that was permitted, and so spent, is permitted again. *)
Theorem rotation_at_max_revives p cap right log p1 log1 log2 :
  current_generation p = U64_MAX -> check p cap right log = (p1, log1, Ok tt) ->
  is_full log2 = false ->
  (check (rotate_generation p1) cap right log2).2 = Ok tt.
Proof using HL IL.
  intros Hmax Hc Hf. destruct (proj1 (check_permits_iff _ _ _ _ _ _ _ Hc) eq_refl) as [Ha _].
  pose proof (check_branches p cap right log) as Hb. rewrite Hc in Hb.
  destruct Hb as [_ Hb]. destruct (Hb Ha) as (_ & Hg & _ & _). destruct Ha as (Hau & _).
  destruct (check (rotate_generation p1) cap right log2) as [[p2 l2] r] eqn:E. cbn.
  apply (check_permits_iff _ _ _ _ _ _ _ E). split; [|done]. split; [|split; [|split]].
  - cbn. rewrite Hg, Hmax. rewrite Hmax in Hau. exact Hau.
  - apply is_revoked_clear.
  - unfold spent; cbn. rewrite hv_slice_clear. set_solver.
  - unfold window_full, hv_len; cbn. rewrite hv_slice_clear. cbn.
    assert (NONCE_WINDOW = 256%nat) by done. lia.
Qed.

(** [AuditFull] is documented as a stop before execution that modifies no kernel
    state.  The gate spends the nonce before it finds the log full: the token is then
    denied as replayed even against a log that has room. *)
Theorem audit_full_spends_nonce p cap right log log2 :
  admissible p cap right -> is_full log = true -> is_full log2 = false ->
  let '(p1, log1, r) := check p cap right log in
  r = Err AuditFull /\ log1 = log /\ p1 <> p /\
  (check p1 cap right log2).2 = Err err_replayed.
Proof using HL IL.
  intros Ha Hf Hf2. pose proof (check_branches p cap right log) as Hb.
  assert ((check p cap right log).1.2 = log) as Hl.
  { by apply check_full_log. }
  destruct (check p cap right log) as [[p1 log1] r]. destruct Hb as [_ Hb].
  destruct (Hb Ha) as (-> & Hg & Hr & Hu). rewrite Hf. split; [done|]. split; [done|].
  split. { intros ->. apply (f_equal length) in Hu. rewrite length_app in Hu. cbn in Hu. lia. }
  assert (spent p1 (cap_nonce cap)) as Hs by (unfold spent; rewrite Hu; set_solver).
  destruct (check_denied p1 cap right log2 (not_admissible_spent _ _ _ Hs)) as [-> _].
  destruct Ha as (Hau & Hrv & _). unfold denial_cause, is_revoked in *.
  rewrite Hg, Hr, Hau, Hrv. cbn. by rewrite (proj2 (contains_Z_true _ _)).
Qed.

End facts.

(** ** Witnesses *)

Module Witness.
#[local] Existing Instance ListModel.list_hvec.
#[local] Existing Instance ListModel.list_hvec_laws.
#[local] Existing Instance ListModel.list_iset.
#[local] Existing Instance ListModel.list_iset_laws.
#[local] Existing Instance ListModel.bits_model.
#[local] Existing Instance ListModel.bits_model_laws.
#[local] Existing Instance ByteModel.toy_sha.

Definition cap0 : Capability := mkCap 1 2 SCHEDULE 5 100.
Definition cap1 : Capability := mkCap 1 3 SCHEDULE 5 101.
Definition p0 : Policy := Policy.new 5.
Definition log0 : AuditLog := AuditLog.new.

Definition after : Policy * AuditLog := (check p0 cap0 SCHEDULE log0).1.

Lemma check_after : check p0 cap0 SCHEDULE log0 = (after.1, after.2, Ok tt).
Proof. vm_compute. reflexivity. Qed.

Lemma policy_decision_witness :
  (check p0 cap0 SCHEDULE log0).2 = Ok tt /\
  (check p0 cap0 SHUTDOWN log0).2 = Err err_not_authorised.
Proof.
  split.
  - rewrite check_after. reflexivity.
  - pose proof (policy_decision p0 cap0 SHUTDOWN log0) as H.
    destruct (check p0 cap0 SHUTDOWN log0) as [[p' l'] r]. destruct H as (_ & H & _).
    destruct H as [_ ->]; [|vm_compute; reflexivity].
    intros [Ha _]. vm_compute in Ha. discriminate.
Defined.

Lemma check_audited_witness :
  exists e, events after.2 = events log0 ++ [e] /\ ev_actor e = 2 /\ ev_outcome e = Permitted.
Proof.
  destruct (check_audited p0 cap0 SCHEDULE log0 _ _ _ check_after (or_intror eq_refl))
    as (e & He & _ & Ha & [_ Ho] & _). exists e. split; [exact He|]. split; [exact Ha|by apply Ho].
Defined.

Lemma nonce_single_use_witness :
  let s := run_ops after [OpRevoke 7; OpCheck cap1 SCHEDULE] in
  exists reason, (check s.1 cap0 SCHEDULE s.2).2 = Err (CapabilityDenied reason) /\
                 (check s.1 cap0 SCHEDULE s.2).1.1 = s.1.
Proof.
  apply (nonce_single_use p0 cap0 SCHEDULE log0 after.1 after.2 _ _ _ check_after); [|reflexivity].
  repeat constructor; discriminate.
Defined.

Lemma revocation_sound_witness :
  let s := run_ops (fst (revoke_capability p0 100), log0) [OpCheck cap1 SCHEDULE] in
  exists reason, (check s.1 cap0 SCHEDULE s.2).2 = Err (CapabilityDenied reason).
Proof.
  apply (revocation_sound p0 100 _ log0); [vm_compute; reflexivity| |reflexivity].
  repeat constructor; discriminate.
Defined.

Lemma rotation_kills_tokens_witness :
  let s := run_ops (rotate_generation p0, log0) [OpRotate; OpRevoke 3] in
  (check s.1 cap0 SCHEDULE s.2).2 = Err err_not_authorised.
Proof. apply (rotation_kills_tokens p0 log0); ground. Defined.

Definition pmax : Policy := Policy.new U64_MAX.
Definition capmax : Capability := mkCap 1 2 SCHEDULE U64_MAX 100.

Lemma rotation_at_max_revives_witness :
  (check (rotate_generation (check pmax capmax SCHEDULE log0).1.1) capmax SCHEDULE log0).2 = Ok tt.
Proof.
  apply (rotation_at_max_revives pmax capmax SCHEDULE log0 _ (check pmax capmax SCHEDULE log0).1.2);
    vm_compute; reflexivity.
Defined.

(** A log filled to capacity. *)
Definition full_log : AuditLog := {|
  al_events := replicate MAX_AUDIT_EVENTS (logged log0 TopologyTraverse 1 UNTIMED None);
  al_last_hash := zero_hash;
  al_next_seq := 512;
|}.

Lemma audit_full_spends_nonce_witness :
  admissible p0 cap0 SCHEDULE /\ is_full full_log = true /\
  (check (check p0 cap0 SCHEDULE full_log).1.1 cap0 SCHEDULE log0).2 = Err err_replayed.
Proof.
  assert (admissible p0 cap0 SCHEDULE) as Ha
    by (apply (bool_decide_eq_true (admissible p0 cap0 SCHEDULE)); vm_compute; reflexivity).
  assert (is_full full_log = true) as Hf by (vm_compute; reflexivity).
  split; [exact Ha|]. split; [exact Hf|].
  pose proof (audit_full_spends_nonce p0 cap0 SCHEDULE full_log log0 Ha Hf eq_refl) as H.
  destruct (check p0 cap0 SCHEDULE full_log) as [[p1 l1] r]. apply H.
Defined.

End Witness.
