(* ===== verification/Ledger.v ===== *)
(** * Resource ledger and quota enforcement

    Models [src/metabolism/ledger.rs] and [src/metabolism/quota.rs].  The theorems:
    [seed] and [deduct] are exact and atomic, every deduction the enforcer permits is
    recorded, and over any sequence of requests a node never spends more than its ceiling,
    with its balance always the ceiling less what was permitted. *)
From S2P Require Import Prelude Heapless Crypto Types AuditLog.
From stdpp Require Import base tactics list numbers option strings.
Open Scope Z_scope.

Section ledger.
Context `{LM : LinearMap}.

Record Ledger := mkLedger { balances : lmap MAX_NODES }.

Definition new : Ledger := {| balances := lm_new |}.
Definition default_ledger : Ledger := new.

Definition err_duplicate : Error := ManifestInvalid "duplicate node quota in manifest".
Definition err_capacity : Error := ManifestInvalid "ledger node capacity exceeded (MAX_NODES)".

Definition seed (self : Ledger) (node : NodeId) (ceiling : Quota) : Ledger * Result unit :=
  if lm_contains_key (balances self) node then (self, Err err_duplicate)
  else match lm_insert (balances self) node (Quota_get ceiling) with
       | Some (m, _) => ({| balances := m |}, Ok tt)
       | None => (self, Err err_capacity)
       end.

Definition deduct (self : Ledger) (node : NodeId) (amount : Z) : Ledger * option Z :=
  match lm_get (balances self) node with
  | None => (self, None)
  | Some bal =>
      match checked_sub_u64 bal amount with
      | None => (self, None)
      | Some new_balance => ({| balances := lm_write (balances self) node new_balance |}, Some new_balance)
      end
  end.

Definition balance (self : Ledger) (node : NodeId) : option Z := lm_get (balances self) node.

End ledger.

(** ** [QuotaEnforcer::deduct] *)

Section enforcer.
Context `{LM : LinearMap} `{HV : HVec} `{SH : Sha256}.

Definition enforcer_deduct (ledger : Ledger) (node : NodeId) (amount : Z) (resource : string)
    (audit : AuditLog) : Ledger * AuditLog * Result Z :=
  if is_full audit then (ledger, audit, Err AuditFull)
  else
    let '(ledger', remaining) := deduct ledger node amount in
    let result := ok_or remaining (QuotaExceeded resource) in
    let denial := denial_of result in
    let '(audit', _) := AuditLog.append audit ResourceDeduction node UNTIMED denial in
    (ledger', audit', result).

End enforcer.

Section facts.
Context `{LM : LinearMap} `{HV : HVec} `{SH : Sha256} `{LL : !LinearMapLaws} `{HL : !HVecLaws}.
Implicit Types (l : Ledger) (log : AuditLog).

Lemma balance_new n : balance new n = None.
Proof using LL. apply lm_get_new. Qed.

Lemma seed_cases l n q :
  (is_Some (balance l n) -> seed l n q = (l, Err err_duplicate)) /\
  (balance l n = None -> (MAX_NODES <= lm_len (balances l))%nat -> seed l n q = (l, Err err_capacity)) /\
  (balance l n = None -> (lm_len (balances l) < MAX_NODES)%nat ->
     exists l', seed l n q = (l', Ok tt) /\ lm_len (balances l') = S (lm_len (balances l)) /\
       forall m, balance l' m = if decide (n = m) then Some (Quota_get q) else balance l m).
Proof using LL.
  unfold seed, balance. split; [|split].
  - intros H. by rewrite (proj2 (lm_contains_get _ _ _)).
  - intros Hb Hc. destruct (lm_contains_key _ _) eqn:Hk.
    { apply lm_contains_get in Hk. rewrite Hb in Hk. by destruct Hk. }
    by rewrite lm_insert_full.
  - intros Hb Hc. destruct (lm_contains_key _ _) eqn:Hk.
    { apply lm_contains_get in Hk. rewrite Hb in Hk. by destruct Hk. }
    destruct (lm_insert_fresh _ _ n (Quota_get q) Hb Hc) as (m & -> & Hl & Hg). eauto.
Qed.

Lemma deduct_Some l n amount bal :
  balance l n = Some bal -> amount <= bal ->
  exists l', deduct l n amount = (l', Some (bal - amount)) /\
    forall m, balance l' m = if decide (n = m) then Some (bal - amount) else balance l m.
Proof using LL.
  unfold deduct, balance. intros Hb Hle. rewrite Hb.
  rewrite (proj2 (checked_sub_u64_spec _ _ _)) by eauto. eexists; split; [done|].
  intros m. by apply lm_get_write; rewrite Hb.
Qed.

Lemma deduct_None l n amount :
  (forall bal, balance l n = Some bal -> bal < amount) -> deduct l n amount = (l, None).
Proof.
  unfold deduct, balance. intros H. destruct (lm_get (balances l) n) as [bal|]; [|done].
  by rewrite (proj2 (checked_sub_u64_None _ _)) by auto.
Qed.

(** The request can be served from the node's balance. *)
Definition affordable l (n : NodeId) (amount : Z) : Prop :=
  exists bal, balance l n = Some bal /\ amount <= bal.

#[global] Instance affordable_dec l n amount : Decision (affordable l n amount).
Proof.
  destruct (balance l n) as [bal|] eqn:E; [destruct (decide (amount <= bal))|].
  - left. by exists bal.
  - right. intros (b & Hb & Hle). simplify_eq. done.
  - right. intros (b & Hb & Hle). simplify_eq.
Defined.

Lemma deduct_unaffordable l n amount : ~ affordable l n amount -> deduct l n amount = (l, None).
Proof.
  intros Hn. apply deduct_None. intros bal Hb.
  destruct (Z.lt_ge_cases bal amount); [done|]. destruct Hn. by exists bal.
Qed.

(** [seed] registers a node once: a repeated node is rejected as a duplicate, a new
    node is rejected when MAX_NODES nodes are registered, and both leave the ledger
    unchanged; otherwise exactly that node gets its ceiling as balance. *)
Theorem seed_spec l n q :
  (is_Some (balance l n) -> seed l n q = (l, Err err_duplicate)) /\
  (balance l n = None -> (MAX_NODES <= lm_len (balances l))%nat -> seed l n q = (l, Err err_capacity)) /\
  (balance l n = None -> (lm_len (balances l) < MAX_NODES)%nat ->
     exists l', seed l n q = (l', Ok tt) /\
       forall m, balance l' m = if decide (n = m) then Some (Quota_get q) else balance l m).
Proof using LL.
  destruct (seed_cases l n q) as (H1 & H2 & H3). split; [done|split; [done|]].
  intros Hb Hc. destruct (H3 Hb Hc) as (l' & ? & _ & ?). eauto.
Qed.

(** [deduct] is exact and atomic: it succeeds exactly when the node is declared and
    its balance covers the amount, then lowers that balance by exactly the amount and
    touches no other node; on failure the ledger is unchanged. *)
Theorem deduct_exact l n amount :
  let '(l', r) := deduct l n amount in
  (forall b', r = Some b' <-> exists bal, balance l n = Some bal /\ amount <= bal /\ b' = bal - amount) /\
  (r = None -> l' = l) /\
  (forall b' m, r = Some b' -> balance l' m = if decide (n = m) then Some b' else balance l m).
Proof using LL.
  destruct (decide (affordable l n amount)) as [(bal & Hb & Hle)|Hn].
  - destruct (deduct_Some l n amount bal Hb Hle) as (l' & -> & Hg).
    split; [|split; [done|]].
    + intros b'. split; [intros [= <-]; eauto|]. intros (b2 & Hb2 & _ & ->). congruence.
    + intros b' m [= <-]. apply Hg.
  - rewrite deduct_unaffordable by done. split; [|done].
    intros b'. split; [done|]. intros (bal & Hb & Hle & _). destruct Hn. by exists bal.
Qed.

(** ** The enforcer *)

Lemma enforcer_permitted l n amount resource log :
  is_full log = false -> affordable l n amount ->
  exists l' log' bal, enforcer_deduct l n amount resource log = (l', log', Ok (bal - amount)) /\
    balance l n = Some bal /\ amount <= bal /\
    (forall m, balance l' m = if decide (n = m) then Some (bal - amount) else balance l m) /\
    events log' = events log ++ [logged log ResourceDeduction n UNTIMED None].
Proof using LL HL.
  intros Hf (bal & Hb & Hle). unfold enforcer_deduct. rewrite Hf.
  destruct (deduct_Some l n amount bal Hb Hle) as (l' & -> & Hg). cbn.
  destruct (append_room log ResourceDeduction n UNTIMED None Hf) as (log' & -> & He & _).
  exists l', log', bal. eauto 10.
Qed.

Lemma enforcer_denied l n amount resource log :
  is_full log = false -> ~ affordable l n amount ->
  exists log', enforcer_deduct l n amount resource log = (l, log', Err (QuotaExceeded resource)) /\
    events log' = events log ++ [logged log ResourceDeduction n UNTIMED (Some (Failure, resource))].
Proof using HL.
  intros Hf Hn. unfold enforcer_deduct. rewrite Hf, deduct_unaffordable by done. cbn.
  destruct (append_room log ResourceDeduction n UNTIMED (Some (Failure, resource)) Hf)
    as (log' & -> & He & _). eauto.
Qed.

Lemma enforcer_full l n amount resource log :
  is_full log = true -> enforcer_deduct l n amount resource log = (l, log, Err AuditFull).
Proof. intros Hf. unfold enforcer_deduct. by rewrite Hf. Qed.

Lemma enforcer_cases l n amount resource log :
  let '(l', log', r) := enforcer_deduct l n amount resource log in
  (is_ok r = true <-> is_full log = false /\ affordable l n amount) /\
  (is_err r = true -> l' = l) /\
  (forall b', r = Ok b' -> balance l n = Some (b' + amount) /\
     (forall m, balance l' m = if decide (n = m) then Some b' else balance l m)) /\
  (is_full log = false -> exists e, events log' = events log ++ [e] /\
     ev_kind e = ResourceDeduction /\ ev_actor e = n /\
     (ev_outcome e = Permitted <-> is_ok r = true) /\
     (is_err r = true -> ev_denial_class e = Some Failure /\ ev_denial_reason e = Some resource)).
Proof using LL HL.
  destruct (is_full log) eqn:Hf; [rewrite enforcer_full by done; naive_solver|].
  destruct (decide (affordable l n amount)) as [Ha|Ha].
  - destruct (enforcer_permitted l n amount resource log Hf Ha)
      as (l' & log' & bal & -> & Hb & Hle & Hg & He). cbn.
    split; [done|]. split; [done|]. split.
    + intros b' [= <-]. split; [|done]. rewrite Hb. f_equal. lia.
    + intros _. eexists. split; [exact He|]. done.
  - destruct (enforcer_denied l n amount resource log Hf Ha) as (log' & -> & He). cbn.
    split; [naive_solver|]. split; [done|]. split; [done|].
    intros _. eexists. split; [exact He|]. done.
Qed.

(** C9: The three outcomes of the enforcer, exactly.  On a full log it refuses with
    [AuditFull], changes nothing and emits nothing, whatever the balance (see
    [audit_full_masks_quota] for what the documentation says).  Otherwise an amount the
    balance does not cover, or a node without one, is refused with [QuotaExceeded] for the
    resource, the ledger is unchanged, and one [Denied] event of class [Failure] is appended;
    an amount it covers is taken from that balance and no other, the rest is returned, and
    one [Permitted] event is appended. *)
Theorem enforcer_deduct_spec l n amount resource log :
  let '(l', log', r) := enforcer_deduct l n amount resource log in
  (is_full log = true -> l' = l /\ log' = log /\ r = Err AuditFull) /\
  (is_full log = false -> ~ affordable l n amount ->
     l' = l /\ r = Err (QuotaExceeded resource) /\
     events log' = events log ++ [logged log ResourceDeduction n UNTIMED (Some (Failure, resource))]) /\
  (is_full log = false -> affordable l n amount ->
     exists bal, balance l n = Some bal /\ amount <= bal /\ r = Ok (bal - amount) /\
     (forall m, balance l' m = if decide (n = m) then Some (bal - amount) else balance l m) /\
     events log' = events log ++ [logged log ResourceDeduction n UNTIMED None]).
Proof using LL HL.
  destruct (is_full log) eqn:Hf; [by rewrite enforcer_full|].
  destruct (decide (affordable l n amount)) as [Ha|Ha].
  - destruct (enforcer_permitted l n amount resource log Hf Ha) as (l' & log' & bal & -> & H).
    split; [done|]. split; [done|]. intros _ _. exists bal. naive_solver.
  - destruct (enforcer_denied l n amount resource log Hf Ha) as (log' & -> & He). done.
Qed.

(** ** Sequences of requests *)

Record request := mkReq { rq_node : NodeId; rq_amount : Z; rq_resource : string }.

(** Run the requests in order; the second component is what was permitted. *)
Fixpoint run_requests (l : Ledger) (log : AuditLog) (rs : list request)
    : Ledger * AuditLog * list request :=
  match rs with
  | [] => (l, log, [])
  | q :: rs' =>
      let '(l1, log1, r) := enforcer_deduct l (rq_node q) (rq_amount q) (rq_resource q) log in
      let '(l2, log2, ps) := run_requests l1 log1 rs' in
      (l2, log2, if is_ok r then q :: ps else ps)
  end.

(** What node [n] was charged. *)
Fixpoint charged (n : NodeId) (ps : list request) : Z :=
  match ps with
  | [] => 0
  | q :: ps' => (if decide (rq_node q = n) then rq_amount q else 0) + charged n ps'
  end.

Lemma charged_nonneg n ps : Forall (fun q => 0 <= rq_amount q) ps -> 0 <= charged n ps.
Proof. induction 1; cbn; [lia|]. case_decide; lia. Qed.

Lemma enforcer_step l n amount resource log m :
  let '(l1, log1, r) := enforcer_deduct l n amount resource log in
  balance l1 m = (fun b => b - (if is_ok r then if decide (n = m) then amount else 0 else 0)) <$> balance l m.
Proof using LL HL.
  pose proof (enforcer_cases l n amount resource log) as H.
  destruct (enforcer_deduct l n amount resource log) as [[l1 log1] [b'|e]]; destruct H as (_ & He & Ho & _); cbn in *.
  - destruct (Ho b' eq_refl) as [Hb Hg]. rewrite Hg. case_decide; subst; [rewrite Hb; cbn; f_equal; lia|].
    destruct (balance l m); cbn; f_equal; lia.
  - rewrite (He eq_refl). destruct (balance l m); cbn; f_equal; lia.
Qed.

(** C8: Accountability.  Over any sequence of requests, the balance of every node is its
    initial balance less exactly what the node was charged by permitted requests, and the
    total charged never exceeds the initial balance. *)
Theorem ledger_accountable l log rs n bal :
  Forall (fun q => 0 <= rq_amount q) rs -> balance l n = Some bal -> 0 <= bal ->
  let '(l', log', ps) := run_requests l log rs in
  balance l' n = Some (bal - charged n ps) /\ 0 <= charged n ps <= bal.
Proof using LL HL.
  intros Hrs. revert l log bal. induction Hrs as [|q rs Hq Hrs IH]; intros l log bal Hb Hnn.
  { cbn. rewrite Hb. split; [f_equal; lia|lia]. }
  cbn [run_requests].
  pose proof (enforcer_step l (rq_node q) (rq_amount q) (rq_resource q) log n) as Hs.
  pose proof (enforcer_cases l (rq_node q) (rq_amount q) (rq_resource q) log) as Hd.
  destruct (enforcer_deduct _ _ _ _ _) as [[l1 log1] r].
  rewrite Hb in Hs. cbn in Hs.
  set (c := if is_ok r then if decide (rq_node q = n) then rq_amount q else 0 else 0) in Hs.
  assert (0 <= c <= bal) as Hc.
  { subst c. destruct (is_ok r); [|lia]. case_decide; [|lia]. subst n.
    destruct (proj1 (proj1 Hd) eq_refl) as (_ & b2 & Hb2 & Hle). simplify_eq. lia. }
  specialize (IH l1 log1 (bal - c) Hs ltac:(lia)).
  destruct (run_requests l1 log1 rs) as [[l2 log2] ps]. destruct IH as [-> IH].
  assert (charged n (if is_ok r then q :: ps else ps) = c + charged n ps) as ->
    by (subst c; by destruct (is_ok r)).
  split; [f_equal; lia|lia].
Qed.

(** The documentation says that [AuditFull] is produced only for otherwise permitted
    operations and never masks another denial.  The enforcer tests the log first: on a full
    log a request the balance does not cover is reported as [AuditFull], not as
    [QuotaExceeded]. *)
Theorem audit_full_masks_quota l n amount resource log :
  is_full log = true -> ~ affordable l n amount ->
  (enforcer_deduct l n amount resource log).2 = Err AuditFull /\
  forall log', is_full log' = false ->
    (enforcer_deduct l n amount resource log').2 = Err (QuotaExceeded resource).
Proof using HL.
  intros Hf Hn. split; [by rewrite enforcer_full|]. intros log' Hf'.
  by destruct (enforcer_denied l n amount resource log' Hf' Hn) as (? & -> & _).
Qed.

End facts.

(** ** Witnesses *)

Module Witness.
#[local] Existing Instance ListModel.list_hvec.
#[local] Existing Instance ListModel.list_hvec_laws.
#[local] Existing Instance ListModel.list_lmap.
#[local] Existing Instance ListModel.list_lmap_laws.
#[local] Existing Instance ByteModel.toy_sha.

Definition ledger1 : Ledger := fst (seed Ledger.new 3 (Quota_new 100)).
Definition log_empty : AuditLog := AuditLog.new.
Definition log_full : AuditLog := {|
  al_events := replicate MAX_AUDIT_EVENTS (logged log_empty TopologyTraverse 1 UNTIMED None);
  al_last_hash := zero_hash; al_next_seq := 512 |}.

Lemma seed_spec_witness : seed ledger1 3 (Quota_new 7) = (ledger1, Err err_duplicate).
Proof. apply (seed_spec ledger1 3 (Quota_new 7)). by exists 100. Defined.

Lemma deduct_exact_witness :
  exists l', deduct ledger1 3 40 = (l', Some 60) /\ balance l' 3 = Some 60.
Proof.
  pose proof (deduct_exact ledger1 3 40) as H. destruct (deduct ledger1 3 40) as [l' r] eqn:E.
  assert (r = Some 60) as -> by (vm_compute in E; congruence).
  destruct H as (_ & _ & H). exists l'. split; [reflexivity|]. exact (H 60 3 eq_refl).
Defined.

Lemma enforcer_deduct_spec_witness :
  (enforcer_deduct ledger1 3 40 "compute" log_empty).2 = Ok 60 /\
  (enforcer_deduct ledger1 3 40 "compute" log_full).2 = Err AuditFull.
Proof.
  pose proof (enforcer_deduct_spec ledger1 3 40 "compute" log_empty) as H.
  pose proof (enforcer_deduct_spec ledger1 3 40 "compute" log_full) as Hfull.
  destruct (enforcer_deduct ledger1 3 40 "compute" log_empty) as [[l' log'] r].
  destruct (enforcer_deduct ledger1 3 40 "compute" log_full) as [[l2 log2] r2].
  destruct H as (_ & _ & H). destruct Hfull as [Hfull _]. split.
  - destruct H as (bal & Hb & _ & Hr & _); [reflexivity|exists 100; split; [reflexivity|lia]|].
    cbn. rewrite Hr. injection Hb as <-. reflexivity.
  - apply Hfull. vm_compute. reflexivity.
Defined.

Lemma ledger_accountable_witness :
  let '(l', log', ps) :=
    run_requests ledger1 log_empty [mkReq 3 40 "a"; mkReq 3 70 "b"; mkReq 3 60 "c"] in
  balance l' 3 = Some (100 - charged 3 ps) /\ 0 <= charged 3 ps <= 100.
Proof.
  apply (ledger_accountable ledger1 log_empty); [|reflexivity|lia]. repeat constructor; cbn; lia.
Defined.

Lemma audit_full_masks_quota_witness :
  (enforcer_deduct ledger1 3 101 "compute" log_full).2 = Err AuditFull /\
  (enforcer_deduct ledger1 3 101 "compute" log_empty).2 = Err (QuotaExceeded "compute").
Proof.
  destruct (audit_full_masks_quota ledger1 3 101 "compute" log_full) as [H1 H2].
  - vm_compute. reflexivity.
  - intros (b & Hb & Hle). vm_compute in Hb. simplify_eq. lia.
  - split; [exact H1|]. apply H2. reflexivity.
Defined.

End Witness.
