(* ===== verification/Topology.v ===== *)
(** * Topology graph

    Models [src/topology/graph.rs]: the mutable [BootingGraph] with its 64x64 bit matrix,
    sealing, and the gate [traverse] of the sealed [OperationalGraph].

    The bit-level graph refines a pair of finite sets, the active nodes and the declared
    edges ([graph_repr]): every boot operation returns the same result as the operation on
    sets and keeps the relation, and [traverse] is membership in the set of edges. *)
From S2P Require Import Prelude Heapless Crypto Types AuditLog.
From stdpp Require Import base tactics list numbers option gmap sets.
Open Scope Z_scope.

(** ** Definitions *)

Record BootingGraph := mkBooting {
  bg_active_nodes : Z;
  bg_edge_matrix : list Z;
}.

Record OperationalGraph := mkOperational {
  og_active_nodes : Z;
  og_edge_matrix : list Z;
}.

(** [node_idx]: the zero-based index of a node, [saturating_sub] on [usize]. *)
Definition node_idx (id : NodeId) : Result nat :=
  let idx := saturating_sub_u64 id 1 in
  if Z.of_nat MAX_NODES <=? idx then Err (TopologyViolation id 0) else Ok (Z.to_nat idx).

Definition new : BootingGraph :=
  {| bg_active_nodes := 0; bg_edge_matrix := replicate MAX_NODES 0 |}.

(** [Default::default]. *)
Definition default_graph : BootingGraph := new.

(** [1u64 << i] and [(mask >> i) & 1], for an index below 64. *)
Definition bit (i : nat) : Z := Z.shiftl 1 (Z.of_nat i).
Definition bit_at (mask : Z) (i : nat) : Z := Z.land (Z.shiftr mask (Z.of_nat i)) 1.

(** [edge_matrix\[i\]]; every row index is below MAX_NODES. *)
Definition row (m : list Z) (i : nat) : Z := default 0 (m !! i).

Definition activate (self : BootingGraph) (id : NodeId) : BootingGraph * Result unit :=
  match node_idx id with
  | Err e => (self, Err e)
  | Ok idx =>
      ({| bg_active_nodes := Z.lor (bg_active_nodes self) (bit idx);
          bg_edge_matrix := bg_edge_matrix self |}, Ok tt)
  end.

Definition permit_edge (self : BootingGraph) (src dst : NodeId) : BootingGraph * Result unit :=
  match node_idx src with
  | Err e => (self, Err e)
  | Ok si =>
    match node_idx dst with
    | Err e => (self, Err e)
    | Ok di =>
        if bit_at (bg_active_nodes self) si =? 0 then (self, Err (TopologyViolation src dst))
        else if bit_at (bg_active_nodes self) di =? 0 then (self, Err (TopologyViolation src dst))
        else
          ({| bg_active_nodes := bg_active_nodes self;
              bg_edge_matrix :=
                <[si := Z.lor (row (bg_edge_matrix self) si) (bit di)]> (bg_edge_matrix self) |},
           Ok tt)
    end
  end.

Definition seal (self : BootingGraph) : OperationalGraph :=
  {| og_active_nodes := bg_active_nodes self; og_edge_matrix := bg_edge_matrix self |}.

Definition traverse_inner (self : OperationalGraph) (src dst : NodeId) : Result unit :=
  si ← node_idx src;
  di ← node_idx dst;
  let src_active := bit_at (og_active_nodes self) si =? 1 in
  let dst_active := bit_at (og_active_nodes self) di =? 1 in
  if negb src_active || negb dst_active then Err (TopologyViolation src dst)
  else
    let edge_present := bit_at (row (og_edge_matrix self) si) di =? 1 in
    if negb edge_present then Err (TopologyViolation src dst) else Ok tt.

Definition is_active (self : OperationalGraph) (id : NodeId) : bool :=
  match node_idx id with
  | Ok i => bit_at (og_active_nodes self) i =? 1
  | Err _ => false
  end.

Section gate.
Context `{HV : HVec} `{SH : Sha256}.

Definition traverse (self : OperationalGraph) (src dst : NodeId) (audit : AuditLog)
    : AuditLog * Result unit :=
  let actor := src in
  let result := traverse_inner self src dst in
  let denial := denial_of result in
  let '(audit', appended) := AuditLog.append audit TopologyTraverse actor UNTIMED denial in
  if negb appended && is_ok result then (audit', Err AuditFull) else (audit', result).

End gate.

(** ** Bits *)

Lemma bit_at_testbit mask i : bit_at mask i = Z.b2z (Z.testbit mask (Z.of_nat i)).
Proof.
  unfold bit_at. change 1 with (Z.ones 1) at 1. rewrite Z.land_ones by lia.
  rewrite Z.shiftr_div_pow2 by lia. change (2 ^ 1) with 2.
  by rewrite <- Z.testbit_spec' by lia.
Qed.

Lemma bit_at_1 mask i : (bit_at mask i =? 1) = Z.testbit mask (Z.of_nat i).
Proof. rewrite bit_at_testbit. by destruct (Z.testbit mask _). Qed.

Lemma bit_at_0 mask i : (bit_at mask i =? 0) = negb (Z.testbit mask (Z.of_nat i)).
Proof. rewrite bit_at_testbit. by destruct (Z.testbit mask _). Qed.

Lemma testbit_set mask i j :
  Z.testbit (Z.lor mask (bit i)) (Z.of_nat j) = bool_decide (i = j) || Z.testbit mask (Z.of_nat j).
Proof.
  unfold bit. rewrite Z.lor_spec, Z.shiftl_1_l, Z.pow2_bits_eqb by lia.
  rewrite orb_comm. f_equal. apply eq_true_iff_eq. rewrite Z.eqb_eq, bool_decide_eq_true. lia.
Qed.

Lemma row_insert m i j v :
  (i < length m)%nat -> row (<[i := v]> m) j = if decide (i = j) then v else row m j.
Proof.
  intros Hi. unfold row. case_decide; subst.
  - by rewrite list_lookup_insert_eq.
  - by rewrite list_lookup_insert_ne.
Qed.

(** ** Nodes in range *)

Definition in_range (n : NodeId) : Prop := 1 <= n <= Z.of_nat MAX_NODES.

Lemma node_idx_cases n :
  node_ok n ->
  (in_range n /\ node_idx n = Ok (Z.to_nat (n - 1))) \/
  (~ in_range n /\ node_idx n = Err (TopologyViolation n 0)).
Proof.
  intros Hn. unfold node_ok, node_idx, in_range, saturating_sub_u64 in *.
  change (Z.of_nat MAX_NODES) with 64.
  destruct (Z.leb_spec 64 (Z.max (n - 1) 0)); [right|left]; (split; [lia|]); f_equal; lia.
Qed.

Lemma in_range_idx n : in_range n -> (Z.to_nat (n - 1) < MAX_NODES)%nat.
Proof. unfold in_range. lia. Qed.

#[global] Instance in_range_dec n : Decision (in_range n).
Proof. unfold in_range. apply _. Defined.

Lemma idx_inj n m : in_range n -> in_range m -> Z.to_nat (n - 1) = Z.to_nat (m - 1) <-> n = m.
Proof. unfold in_range. lia. Qed.

(** ** The specification: a graph as two finite sets *)

Record agraph := mkAgraph {
  ag_nodes : gset Z;
  ag_edges : gset (Z * Z);
}.

Definition a_new : agraph := mkAgraph ∅ ∅.

Definition a_activate (a : agraph) (n : NodeId) : agraph * Result unit :=
  if decide (in_range n) then (mkAgraph ({[n]} ∪ ag_nodes a) (ag_edges a), Ok tt)
  else (a, Err (TopologyViolation n 0)).

Definition a_permit (a : agraph) (src dst : NodeId) : agraph * Result unit :=
  if negb (bool_decide (in_range src)) then (a, Err (TopologyViolation src 0))
  else if negb (bool_decide (in_range dst)) then (a, Err (TopologyViolation dst 0))
  else if bool_decide (src ∈ ag_nodes a) && bool_decide (dst ∈ ag_nodes a) then
    (mkAgraph (ag_nodes a) ({[(src, dst)]} ∪ ag_edges a), Ok tt)
  else (a, Err (TopologyViolation src dst)).

(** The bit matrix holds exactly the two sets, and every declared edge joins active nodes. *)
Record graph_repr (active : Z) (matrix : list Z) (a : agraph) : Prop := {
  gr_length : length matrix = MAX_NODES;
  gr_range : forall n, n ∈ ag_nodes a -> in_range n;
  gr_nodes : forall n, in_range n ->
    Z.testbit active (Z.of_nat (Z.to_nat (n - 1))) = bool_decide (n ∈ ag_nodes a);
  gr_edges : forall s d, in_range s -> in_range d ->
    Z.testbit (row matrix (Z.to_nat (s - 1))) (Z.of_nat (Z.to_nat (d - 1)))
    = bool_decide ((s, d) ∈ ag_edges a);
  gr_ends : forall s d, (s, d) ∈ ag_edges a -> s ∈ ag_nodes a /\ d ∈ ag_nodes a;
}.

Definition booting_repr (g : BootingGraph) (a : agraph) : Prop :=
  graph_repr (bg_active_nodes g) (bg_edge_matrix g) a.
Definition operational_repr (g : OperationalGraph) (a : agraph) : Prop :=
  graph_repr (og_active_nodes g) (og_edge_matrix g) a.

Lemma new_repr : booting_repr new a_new.
Proof.
  constructor; cbn.
  - by rewrite length_replicate.
  - set_solver.
  - intros n _. rewrite Z.testbit_0_l. symmetry. apply bool_decide_eq_false. set_solver.
  - intros s d Hs _. unfold row. rewrite lookup_replicate_2 by by apply in_range_idx. cbn.
    rewrite Z.testbit_0_l. symmetry. apply bool_decide_eq_false. set_solver.
  - set_solver.
Qed.

Lemma activate_repr g a n :
  node_ok n -> booting_repr g a ->
  (activate g n).2 = (a_activate a n).2 /\ booting_repr (activate g n).1 (a_activate a n).1.
Proof.
  intros Hn Hr. unfold activate, a_activate.
  destruct (node_idx_cases n Hn) as [[Hin ->]|[Hout ->]];
    [rewrite decide_True by done|rewrite decide_False by done; by split].
  split; [done|]. destruct Hr as [Hl Hrg Hnd Hed Hen]. constructor; cbn; try done.
  - set_solver.
  - intros m Hm. rewrite testbit_set, Hnd by done. apply eq_true_iff_eq.
    rewrite orb_true_iff, !bool_decide_eq_true, idx_inj by done. set_solver.
  - intros s d Hsd. destruct (Hen s d Hsd). set_solver.
Qed.

Lemma permit_repr g a src dst :
  node_ok src -> node_ok dst -> booting_repr g a ->
  (permit_edge g src dst).2 = (a_permit a src dst).2 /\
  booting_repr (permit_edge g src dst).1 (a_permit a src dst).1.
Proof.
  intros Hs Hd Hr. pose proof Hr as [Hl Hrg Hnd Hed Hen]. unfold permit_edge, a_permit.
  destruct (node_idx_cases src Hs) as [[Hsi ->]|[Hso ->]];
    [rewrite (bool_decide_true (in_range src)) by done
    |rewrite (bool_decide_false (in_range src)) by done; by split]; cbn [negb].
  destruct (node_idx_cases dst Hd) as [[Hdi ->]|[Hdo ->]];
    [rewrite (bool_decide_true (in_range dst)) by done
    |rewrite (bool_decide_false (in_range dst)) by done; by split]; cbn [negb].
  rewrite !bit_at_0, !Hnd by done.
  destruct (decide (src ∈ ag_nodes a)) as [Has|Has];
    [rewrite (bool_decide_true (src ∈ _)) by done
    |rewrite (bool_decide_false (src ∈ _)) by done; by split]; cbn [negb andb].
  destruct (decide (dst ∈ ag_nodes a)) as [Had|Had];
    [rewrite (bool_decide_true (dst ∈ _)) by done
    |rewrite (bool_decide_false (dst ∈ _)) by done; by split]; cbn [negb andb].
  split; [done|]. constructor; cbn; try done.
  - by rewrite length_insert.
  - intros s d Hs' Hd'. rewrite row_insert by (rewrite Hl; by apply in_range_idx).
    apply eq_true_iff_eq. case_decide as He.
    + apply idx_inj in He as <-; [|done..]. rewrite testbit_set, Hed by done.
      rewrite orb_true_iff, !bool_decide_eq_true, idx_inj by done. set_solver.
    + rewrite Hed, !bool_decide_eq_true by done. rewrite idx_inj in He by done. set_solver.
  - intros s d. rewrite elem_of_union, elem_of_singleton. intros [[= -> ->]|?]; [done|by apply Hen].
Qed.

(** ** The boot window as a sequence of operations *)

Inductive topo_op :=
| Activate (id : NodeId)
| Permit (src dst : NodeId).

Definition op_nodes_ok (o : topo_op) : Prop :=
  match o with Activate n => node_ok n | Permit s d => node_ok s /\ node_ok d end.

Definition boot_op (g : BootingGraph) (o : topo_op) : BootingGraph * Result unit :=
  match o with Activate n => activate g n | Permit s d => permit_edge g s d end.

Definition a_boot_op (a : agraph) (o : topo_op) : agraph * Result unit :=
  match o with Activate n => a_activate a n | Permit s d => a_permit a s d end.

(** Run a sequence, pairing each operation with its result. *)
Fixpoint run_boot {G} (step : G -> topo_op -> G * Result unit) (g : G) (ops : list topo_op)
    : G * list (topo_op * Result unit) :=
  match ops with
  | [] => (g, [])
  | o :: ops' =>
      let '(g1, r) := step g o in
      let '(g2, rs) := run_boot step g1 ops' in
      (g2, (o, r) :: rs)
  end.

Lemma boot_op_repr g a o :
  op_nodes_ok o -> booting_repr g a ->
  (boot_op g o).2 = (a_boot_op a o).2 /\ booting_repr (boot_op g o).1 (a_boot_op a o).1.
Proof. destruct o; cbn; intros Ho Hr; [by apply activate_repr|]. destruct Ho. by apply permit_repr. Qed.

Lemma run_boot_repr g a ops :
  Forall op_nodes_ok ops -> booting_repr g a ->
  (run_boot boot_op g ops).2 = (run_boot a_boot_op a ops).2 /\
  booting_repr (run_boot boot_op g ops).1 (run_boot a_boot_op a ops).1.
Proof.
  intros Hops. revert g a. induction Hops as [|o ops Ho _ IH]; intros g a Hr; [done|]. cbn [run_boot].
  destruct (boot_op_repr g a o Ho Hr) as [He Hr1].
  destruct (boot_op g o) as [g1 r], (a_boot_op a o) as [a1 r']. cbn in He, Hr1. subst r'.
  destruct (IH g1 a1 Hr1) as [He2 Hr2].
  destruct (run_boot boot_op g1 ops) as [g2 rs], (run_boot a_boot_op a1 ops) as [a2 rs']. cbn in *.
  by subst.
Qed.

(** An edge of the specification was added by a successful [permit_edge], and conversely. *)
Lemma a_run_edges a ops s d :
  let '(a', rs) := run_boot a_boot_op a ops in
  (s, d) ∈ ag_edges a' <-> (s, d) ∈ ag_edges a \/ (Permit s d, Ok tt) ∈ rs.
Proof.
  revert a. induction ops as [|o ops IH]; intros a; cbn [run_boot]; [set_solver|].
  assert ((s, d) ∈ ag_edges (a_boot_op a o).1 <->
          (s, d) ∈ ag_edges a \/ (o, (a_boot_op a o).2) = (Permit s d, Ok tt)) as Hstep.
  { destruct o as [n|s' d']; cbn; unfold a_activate, a_permit; repeat case_match; cbn; set_solver. }
  destruct (a_boot_op a o) as [a1 r]. specialize (IH a1).
  destruct (run_boot a_boot_op a1 ops) as [a2 rs]. cbn in Hstep. rewrite IH, Hstep. set_solver.
Qed.

(** ** The gate *)

Lemma traverse_inner_repr g a s d :
  node_ok s -> node_ok d -> operational_repr g a ->
  traverse_inner g s d =
    if negb (bool_decide (in_range s)) then Err (TopologyViolation s 0)
    else if negb (bool_decide (in_range d)) then Err (TopologyViolation d 0)
    else if bool_decide ((s, d) ∈ ag_edges a) then Ok tt else Err (TopologyViolation s d).
Proof.
  intros Hs Hd [Hl Hrg Hnd Hed Hen]. unfold traverse_inner.
  destruct (node_idx_cases s Hs) as [[Hsi ->]|[Hso ->]];
    [rewrite (bool_decide_true (in_range s)) by done|by rewrite (bool_decide_false (in_range s))].
  destruct (node_idx_cases d Hd) as [[Hdi ->]|[Hdo ->]];
    [rewrite (bool_decide_true (in_range d)) by done|by rewrite (bool_decide_false (in_range d))].
  cbn. rewrite !bit_at_1, !Hnd, Hed by done.
  destruct (decide ((s, d) ∈ ag_edges a)) as [He|He].
  - destruct (Hen s d He). by rewrite !bool_decide_true.
  - rewrite (bool_decide_false ((s, d) ∈ _)) by done. by destruct (_ || _).
Qed.

Lemma traverse_inner_Ok g a s d :
  node_ok s -> node_ok d -> operational_repr g a ->
  traverse_inner g s d = Ok tt <-> (s, d) ∈ ag_edges a.
Proof.
  intros Hs Hd Hr. rewrite (traverse_inner_repr g a) by done. destruct Hr as [_ Hrg _ _ Hen].
  split.
  - repeat case_bool_decide; cbn; done.
  - intros He. destruct (Hen s d He). by rewrite !bool_decide_true by auto.
Qed.

Lemma traverse_inner_err g s d e :
  traverse_inner g s d = Err e -> exists s' d', e = TopologyViolation s' d'.
Proof. unfold traverse_inner, node_idx, mbind, result_bind. repeat case_match; naive_solver. Qed.

Section gate_facts.
Context `{HV : HVec} `{SH : Sha256} `{HL : !HVecLaws}.
Implicit Types (log : AuditLog).

Lemma traverse_unfold g s d log :
  traverse g s d log =
  (fst (AuditLog.append log TopologyTraverse s UNTIMED (denial_of (traverse_inner g s d))),
   if is_full log && is_ok (traverse_inner g s d) then Err AuditFull else traverse_inner g s d).
Proof using HL.
  unfold traverse.
  pose proof (append_snd log TopologyTraverse s UNTIMED (denial_of (traverse_inner g s d))) as Hs.
  destruct (AuditLog.append _ _ _ _ _) as [log' ok]; cbn in *. subst ok.
  rewrite negb_involutive. by destruct (_ && _).
Qed.

(** C10: The bit-matrix graph refines a graph of finite sets.  For every sequence of
    [activate] and [permit_edge] calls, the results are those of the set operations, and
    the sealed graph permits exactly the traversals in the resulting set of edges and has
    exactly its active nodes. *)
Theorem topology_refines ops :
  Forall op_nodes_ok ops ->
  let '(g, rs) := run_boot boot_op new ops in
  let '(a, rs') := run_boot a_boot_op a_new ops in
  rs = rs' /\
  (forall s d, node_ok s -> node_ok d ->
     traverse_inner (seal g) s d = Ok tt <-> (s, d) ∈ ag_edges a) /\
  (forall n, node_ok n -> is_active (seal g) n = true <-> n ∈ ag_nodes a).
Proof.
  intros Hops. destruct (run_boot_repr new a_new ops Hops new_repr) as [He Hr].
  destruct (run_boot boot_op new ops) as [g rs], (run_boot a_boot_op a_new ops) as [a rs']. cbn in *.
  split; [done|]. split; [intros; by apply traverse_inner_Ok|].
  intros n Hn. destruct Hr as [_ Hrg Hnd _ _]. unfold is_active.
  destruct (node_idx_cases n Hn) as [[Hin ->]|[Hout ->]].
  - cbn. rewrite bit_at_1, Hnd by done. apply bool_decide_eq_true.
  - split; [done|]. intros Ha%Hrg. done.
Qed.

(** Topology-bounded execution.  Whatever the boot window did, the sealed graph permits
    the traversal from [src] to [dst] exactly when [permit_edge src dst] was called and
    succeeded before sealing and the traversal can be logged. *)
Theorem traversal_was_declared ops src dst log :
  Forall op_nodes_ok ops -> node_ok src -> node_ok dst ->
  let '(g, rs) := run_boot boot_op new ops in
  (traverse (seal g) src dst log).2 = Ok tt <->
  (Permit src dst, Ok tt) ∈ rs /\ is_full log = false.
Proof using HL.
  intros Hops Hs Hd. destruct (run_boot_repr new a_new ops Hops new_repr) as [He Hr].
  pose proof (a_run_edges a_new ops src dst) as Ha.
  destruct (run_boot boot_op new ops) as [g rs], (run_boot a_boot_op a_new ops) as [a rs']. cbn in *.
  subst rs'. pose proof (traverse_inner_Ok (seal g) a src dst Hs Hd Hr) as Ht.
  rewrite traverse_unfold. cbn [snd].
  assert ((Permit src dst, Ok tt) ∈ rs <-> traverse_inner (seal g) src dst = Ok tt) as ->.
  { rewrite Ht, Ha. set_solver. }
  destruct (traverse_inner (seal g) src dst) as [[]|e], (is_full log); cbn; naive_solver.
Qed.

Lemma traverse_event g src dst log :
  let '(log', r) := traverse g src dst log in
  (is_full log = false -> exists e, events log' = events log ++ [e] /\
     ev_kind e = TopologyTraverse /\ ev_actor e = src /\
     (ev_outcome e = Permitted <-> r = Ok tt) /\
     (r <> Ok tt -> ev_denial_class e = Some Halt)) /\
  (is_full log = true -> log' = log /\ r <> Ok tt) /\
  (r = Err AuditFull <-> is_full log = true /\ traverse_inner g src dst = Ok tt).
Proof using HL.
  rewrite traverse_unfold. pose proof (traverse_inner_err g src dst) as Herr.
  destruct (is_full log) eqn:Hf.
  - rewrite append_full by done. split; [done|].
    destruct (traverse_inner g src dst) as [[]|e]; cbn; [by repeat split|].
    destruct (Herr e eq_refl) as (s & d & ->). split; [done|]. split; [done|by intros [_ ?]].
  - destruct (append_room log TopologyTraverse src UNTIMED (denial_of (traverse_inner g src dst)) Hf)
      as (log' & -> & He & _).
    split; [|split; [done|]].
    + intros _. eexists. split; [exact He|]. cbn.
      destruct (traverse_inner g src dst) as [[]|e]; cbn; [done|].
      destruct (Herr e eq_refl) as (s & d & ->). done.
    + cbn. destruct (traverse_inner g src dst) as [[]|e]; cbn; [by split; [|intros [? _]]|].
      destruct (Herr e eq_refl) as (s & d & ->). by split; [|intros [? _]].
Qed.

(** [traverse] records every decision: while the log has room it appends exactly one
    [TopologyTraverse] event for the source node, [Permitted] exactly on success and
    [Denied] with class [Halt] otherwise; a denial is never replaced by [AuditFull]. *)
Theorem traverse_audited g src dst log :
  let '(log', r) := traverse g src dst log in
  (is_full log = false -> exists e, events log' = events log ++ [e] /\
     ev_kind e = TopologyTraverse /\ ev_actor e = src /\
     (ev_outcome e = Permitted <-> r = Ok tt) /\
     (r <> Ok tt -> ev_denial_class e = Some Halt)) /\
  (is_full log = true -> log' = log /\ r <> Ok tt) /\
  (r = Err AuditFull <-> is_full log = true /\ traverse_inner g src dst = Ok tt).
Proof using HL. apply traverse_event. Qed.

End gate_facts.

(** ** Witnesses *)

Module Witness.
#[local] Existing Instance ListModel.list_hvec.
#[local] Existing Instance ListModel.list_hvec_laws.
#[local] Existing Instance ByteModel.toy_sha.

Definition ring : list topo_op := [Activate 1; Activate 64; Permit 1 64; Permit 1 2; Activate 65].

Lemma ring_ok : Forall op_nodes_ok ring.
Proof. repeat constructor; ground. Qed.

Lemma topology_refines_witness :
  let '(g, rs) := run_boot boot_op new ring in
  traverse_inner (seal g) 1 64 = Ok tt.
Proof.
  pose proof (topology_refines ring ring_ok) as H.
  destruct (run_boot boot_op new ring) as [g rs] eqn:E.
  destruct (run_boot a_boot_op a_new ring) as [a rs'] eqn:Ea.
  destruct H as (_ & H & _). apply H; [ground|ground|].
  apply (f_equal fst) in Ea. cbn [fst] in Ea. subst a. vm_compute. set_solver.
Defined.

Lemma traversal_was_declared_witness :
  let '(g, rs) := run_boot boot_op new ring in
  (traverse (seal g) 1 64 AuditLog.new).2 = Ok tt <->
  (Permit 1 64, Ok tt) ∈ rs /\ is_full AuditLog.new = false.
Proof. apply (traversal_was_declared ring 1 64 AuditLog.new ring_ok); ground. Defined.

Lemma traverse_audited_witness :
  exists e, events (traverse (seal new) 3 4 AuditLog.new).1 = events AuditLog.new ++ [e] /\
    ev_outcome e <> Permitted.
Proof.
  pose proof (traverse_audited (seal new) 3 4 AuditLog.new) as H.
  destruct (traverse (seal new) 3 4 AuditLog.new) as [log' r] eqn:E.
  assert (r <> Ok tt) as Hr by (vm_compute in E; congruence).
  destruct H as [H _]. destruct (H eq_refl) as (e & He & _ & _ & [Ho _] & _).
  exists e. split; [exact He|]. intros Hp. exact (Hr (Ho Hp)).
Defined.

End Witness.
