(* ===== verification/Scheduler.v ===== *)
(** * Scheduler

    Models [src/scheduler/queue.rs] and [src/scheduler/mod.rs]: the bounded priority queue
    over [heapless::BinaryHeap] and the capability-gated [Scheduler] in front of it.

    The theorems: no accepted item is lost or duplicated over any sequence of queue
    operations and each dequeue serves a most urgent item; [drain_ordered] terminates with
    an empty queue and returns every item in order of urgency; [schedule] changes the queue
    only when the policy gate and the capacity check both pass. *)
From S2P Require Import Prelude Heapless Crypto Types AuditLog Capability Revocation Policy.
From stdpp Require Import base tactics list numbers option strings sorting sets.
Open Scope Z_scope.

(** ** Definitions *)

Record WorkItem := mkItem {
  wi_priority : Z;
  wi_target : NodeId;
  wi_payload : Z;
}.

#[global] Instance WorkItem_eq_dec : EqDecision WorkItem.
Proof. solve_decision. Defined.

(** [Ord for WorkItem] compares priorities only. *)
Definition item_cmp (self other : WorkItem) : comparison :=
  Z.compare (wi_priority self) (wi_priority other).

Definition item_partial_cmp (self other : WorkItem) : option comparison := Some (item_cmp self other).

Definition item_le (a b : WorkItem) : bool :=
  match item_cmp a b with Gt => false | _ => true end.

Lemma item_le_priority a b : item_le a b = true <-> wi_priority a <= wi_priority b.
Proof. unfold item_le, item_cmp. destruct (Z.compare_spec (wi_priority a) (wi_priority b)); naive_solver lia. Qed.

Section queue.
Context {BH : BinaryHeap WorkItem item_le} `{HV : HVec} {N : nat}.

Record WorkQueue := mkQueue { inner : bheap (BinaryHeap := BH) N }.

Definition new : WorkQueue := {| inner := bh_new |}.

Definition default_queue : WorkQueue := new.

Definition err_capacity : Error := SchedulerInvariant "queue capacity exhausted".

Definition enqueue (self : WorkQueue) (item : WorkItem) : WorkQueue * Result unit :=
  match bh_push (inner self) item with
  | Some h => ({| inner := h |}, Ok tt)
  | None => (self, Err err_capacity)
  end.

Definition dequeue (self : WorkQueue) : WorkQueue * option WorkItem :=
  match bh_pop (inner self) with
  | Some (item, h) => ({| inner := h |}, Some item)
  | None => (self, None)
  end.

Definition len (self : WorkQueue) : nat := bh_len (inner self).
Definition is_empty (self : WorkQueue) : bool := bool_decide (len self = 0)%nat.

(** The loop [while let Some(item) = self.inner.pop()] of [drain_ordered]; a failed push
    into [out] is ignored. *)
Fixpoint drain_loop (fuel : nat) (h : bheap (BinaryHeap := BH) N) (out : hvec N WorkItem)
    : bheap (BinaryHeap := BH) N * hvec N WorkItem :=
  match fuel with
  | O => (h, out)
  | S fuel' =>
      match bh_pop h with
      | None => (h, out)
      | Some (item, h') => drain_loop fuel' h' (default out (hv_push out item))
      end
  end.

(** Each iteration removes one item, so the length of the queue is enough fuel. *)
Definition drain_ordered (self : WorkQueue) : WorkQueue * hvec N WorkItem :=
  let '(h, out) := drain_loop (len self) (inner self) hv_new in ({| inner := h |}, out).

End queue.
Arguments WorkQueue {BH} N.

Section scheduler.
Context {BH : BinaryHeap WorkItem item_le}.
Context `{HV : HVec} `{IS : IndexSet} `{SH : Sha256} `{BF : Bitflags} {N : nat}.

Record Scheduler := mkScheduler { sched_queue : WorkQueue N }.

Definition scheduler_new : Scheduler := {| sched_queue := new |}.

Definition schedule (self : Scheduler) (item : WorkItem) (cap : Capability) (policy : Policy)
    (audit : AuditLog) : Scheduler * Policy * AuditLog * Result unit :=
  match Policy.check policy cap SCHEDULE audit with
  | (policy', audit', Err e) => (self, policy', audit', Err e)
  | (policy', audit', Ok _) =>
      let '(q, r) := enqueue (sched_queue self) item in
      ({| sched_queue := q |}, policy', audit', r)
  end.

Definition scheduler_dequeue (self : Scheduler) : Scheduler * option WorkItem :=
  let '(q, r) := dequeue (sched_queue self) in ({| sched_queue := q |}, r).

Definition scheduler_len (self : Scheduler) : nat := len (sched_queue self).
Definition scheduler_is_empty (self : Scheduler) : bool := is_empty (sched_queue self).
Definition default_scheduler : Scheduler := scheduler_new.

End scheduler.
Arguments Scheduler {BH} N.

(** ** The queue against a bag of items *)

Section queue_facts.
Context {BH : BinaryHeap WorkItem item_le} {BL : BinaryHeapLaws (BH := BH)}.
Context `{HV : HVec} `{HL : !HVecLaws} {N : nat}.
Implicit Types (q : WorkQueue N) (item : WorkItem).

(** The items in the queue, in no particular order. *)
Definition items q : list WorkItem := bh_elems (inner q).

Lemma enqueue_cases q item :
  ((len q < N)%nat /\ exists q', enqueue q item = (q', Ok tt) /\ items q' ≡ₚ item :: items q) \/
  ((N <= len q)%nat /\ enqueue q item = (q, Err err_capacity)).
Proof using BL.
  unfold enqueue, len, items. destruct (decide (bh_len (inner q) < N)%nat) as [Hl|Hl].
  - left. destruct (bh_push_room N (inner q) item Hl) as (h & -> & Hh). split; [done|].
    by eexists.
  - right. rewrite bh_push_full by lia. split; [lia|done].
Qed.

Lemma dequeue_cases q :
  (items q = [] /\ dequeue q = (q, None)) \/
  (exists item q', dequeue q = (q', Some item) /\ items q ≡ₚ item :: items q' /\
     Forall (fun y => wi_priority item <= wi_priority y) (items q)).
Proof using BL.
  unfold dequeue, items. destruct (bh_elems (inner q)) as [|x l] eqn:E.
  - left. by rewrite bh_pop_empty.
  - right. destruct (bh_pop_least N (inner q)) as (y & h & -> & Hp & Hle); [by rewrite E|].
    rewrite E in Hp. exists y. eexists. split; [done|]. cbn. split; [done|].
    rewrite Hp. constructor; [lia|]. eapply Forall_impl; [exact Hle|]. cbn.
    intros z. apply item_le_priority.
Qed.

Inductive queue_op := Enqueue (item : WorkItem) | Dequeue.

(** What a step accepted into and served from the queue. *)
Definition queue_step q (o : queue_op) : WorkQueue N * list WorkItem * list WorkItem :=
  match o with
  | Enqueue item =>
      let '(q', r) := enqueue q item in (q', if is_ok r then [item] else [], [])
  | Dequeue => let '(q', r) := dequeue q in (q', [], option_list r)
  end.

Fixpoint queue_run q (ops : list queue_op) : WorkQueue N * list WorkItem * list WorkItem :=
  match ops with
  | [] => (q, [], [])
  | o :: ops' =>
      let '(q1, a, s) := queue_step q o in
      let '(q2, a', s') := queue_run q1 ops' in
      (q2, a ++ a', s ++ s')
  end.

Lemma queue_step_bag q o :
  let '(q', a, s) := queue_step q o in
  a ++ items q ≡ₚ s ++ items q' /\ ((len q <= N)%nat -> (len q' <= N)%nat).
Proof using BL.
  destruct o as [item|]; cbn.
  - destruct (enqueue_cases q item) as [(Hl & q' & -> & Hp)|(_ & ->)]; cbn; [|done].
    rewrite Hp. split; [done|]. intros _. unfold len, bh_len, items in *. rewrite Hp. cbn. lia.
  - destruct (dequeue_cases q) as [(_ & ->)|(item & q' & -> & Hp & _)]; cbn; [done|].
    split; [done|]. unfold len, bh_len, items in *. rewrite Hp. cbn. lia.
Qed.

Lemma queue_run_bag q ops :
  let '(q', a, s) := queue_run q ops in
  a ++ items q ≡ₚ s ++ items q' /\ ((len q <= N)%nat -> (len q' <= N)%nat).
Proof using BL.
  revert q. induction ops as [|o ops IH]; intros q; cbn; [done|].
  pose proof (queue_step_bag q o) as H1. destruct (queue_step q o) as [[q1 a] s].
  specialize (IH q1). destruct (queue_run q1 ops) as [[q2 a'] s'].
  destruct H1 as [Hp Hn], IH as [Hp' Hn']. split; [|auto].
  rewrite (Permutation_app_comm a a'), <- app_assoc, Hp, !app_assoc.
  rewrite (Permutation_app_comm a' s), <- !app_assoc. by rewrite Hp'.
Qed.

Lemma new_items : items (new (N := N)) = [].
Proof using BL. unfold items, new; cbn. apply bh_elems_new. Qed.

(** Nothing is lost or duplicated.  After any sequence of [enqueue] and [dequeue] on a
    new queue, the accepted items are exactly the served ones together with those still in
    the queue, and the queue never exceeds its capacity. *)
Theorem queue_conserves ops :
  let '(q, accepted, served) := queue_run (new (N := N)) ops in
  accepted ≡ₚ served ++ items q /\ (len q <= N)%nat.
Proof using BL.
  pose proof (queue_run_bag new ops) as H. destruct (queue_run new ops) as [[q a] s].
  rewrite new_items, app_nil_r in H. destruct H as [Hp Hn]. split; [done|]. apply Hn.
  unfold len, bh_len. fold (items (new (N := N))). rewrite new_items. cbn. lia.
Qed.

(** ** Draining *)

Definition urgent_first : relation WorkItem := fun a b => wi_priority a <= wi_priority b.

Lemma drain_loop_spec fuel (h : bheap (BinaryHeap := BH) N) (out : hvec N WorkItem) :
  fuel = bh_len h -> (hv_len out + bh_len h <= N)%nat ->
  exists h' out' l, drain_loop fuel h out = (h', out') /\ bh_elems h' = [] /\
    hv_slice out' = hv_slice out ++ l /\ l ≡ₚ bh_elems h /\ StronglySorted urgent_first l.
Proof using BL HL.
  revert h out. induction fuel as [|fuel IH]; intros h out Hf Hcap; cbn [drain_loop].
  - assert (bh_elems h = []) as He by (apply length_zero_iff_nil; unfold bh_len in Hf; lia).
    exists h, out, []. rewrite app_nil_r, He. repeat split; constructor.
  - destruct (dequeue_cases {| inner := h |}) as [(He & _)|(item & q' & Hd & Hp & Hle)];
      unfold items in *; cbn [inner] in *.
    { unfold bh_len in Hf. rewrite He in Hf. cbn in Hf. lia. }
    unfold dequeue in Hd. cbn [inner] in Hd.
    destruct (bh_pop h) as [[item' h']|] eqn:E; [|done]. injection Hd as <- ->.
    cbn [inner] in *.
    assert (bh_len h = S (bh_len h')) as Hl by (unfold bh_len; by rewrite Hp).
    destruct (hv_push_room _ _ out item) as (out1 & -> & Ho); [lia|]. change (default out (Some out1)) with out1.
    destruct (IH h' out1) as (h2 & out2 & l & -> & He & Hs & Hpl & Hsort); [lia| |].
    { unfold hv_len in *. rewrite Ho, length_app. cbn [length]. lia. }
    exists h2, out2, (item :: l). split; [done|]. split; [done|].
    split; [by rewrite Hs, Ho, <- app_assoc|]. split; [by rewrite Hpl, Hp|].
    constructor; [done|]. rewrite Hp in Hle. inversion_clear Hle. by rewrite Hpl.
Qed.

(** [drain_ordered] terminates with an empty queue, and its result holds exactly the
    items that were queued, the most urgent first, for every queue the operations can
    build: the push into the output vector, whose error is ignored, never fails. *)
Theorem drain_ordered_sorted ops :
  let '(q, _, _) := queue_run (new (N := N)) ops in
  let '(q', out) := drain_ordered q in
  is_empty q' = true /\ hv_slice out ≡ₚ items q /\ StronglySorted urgent_first (hv_slice out).
Proof using BL HL.
  pose proof (queue_run_bag new ops) as H. destruct (queue_run new ops) as [[q a] s].
  destruct H as [_ Hn]. unfold drain_ordered.
  destruct (drain_loop_spec (len q) (inner q) hv_new) as (h' & out' & l & -> & He & Hs & Hp & Hst).
  { done. }
  { unfold hv_len. rewrite hv_slice_new. cbn. apply Hn. unfold len, bh_len.
    fold (items (new (N := N))). rewrite new_items. cbn. lia. }
  rewrite hv_slice_new in Hs. cbn in Hs. rewrite Hs. split; [|done].
  unfold is_empty, len, bh_len. cbn. by rewrite He.
Qed.

End queue_facts.

(** ** The gate *)

Section scheduler_facts.
Context {BH : BinaryHeap WorkItem item_le} {BL : BinaryHeapLaws (BH := BH)}.
Context `{HV : HVec} `{IS : IndexSet} `{SH : Sha256} `{BF : Bitflags}.
Context `{HL : !HVecLaws} {N : nat}.

(** C36: [schedule] puts an item in the queue exactly when the token passes the policy gate
    for [SCHEDULE], the decision is logged and the queue has room; on every other branch
    the queue is unchanged and the error says which step failed.  The policy gate comes
    first, so a token whose item does not fit is spent all the same. *)
Theorem schedule_gated (s : Scheduler N) item cap policy audit :
  let '(s', policy', audit', r) := schedule s item cap policy audit in
  (policy', audit') = (Policy.check policy cap SCHEDULE audit).1 /\
  (r = Ok tt <-> admissible policy cap SCHEDULE /\ is_full audit = false /\
                 (scheduler_len s < N)%nat) /\
  (r = Ok tt -> items (sched_queue s') ≡ₚ item :: items (sched_queue s)) /\
  (r <> Ok tt -> s' = s) /\
  (r = Err err_capacity -> admissible policy cap SCHEDULE /\ spent policy' (cap_nonce cap)).
Proof using BL HL.
  unfold schedule, scheduler_len. pose proof (check_branches policy cap SCHEDULE audit) as Hb.
  destruct (Policy.check policy cap SCHEDULE audit) as [[p' l'] [[]|e]] eqn:Hc.
  - pose proof (proj1 (check_permits_iff _ _ _ _ _ _ _ Hc) eq_refl) as [Ha Hf].
    destruct Hb as [_ Hb]. destruct (Hb Ha) as (_ & _ & _ & Hu).
    assert (spent p' (cap_nonce cap)) as Hsp by (unfold spent; rewrite Hu; set_solver).
    destruct (enqueue_cases (sched_queue s) item) as [(Hl & q' & -> & Hp)|(Hl & ->)]; cbn.
    + repeat split; (done || apply Ha).
    + split; [done|]. split; [|by destruct s].
      split; [done|]. intros (_ & _ & ?). lia.
  - split; [done|]. split; [|split; [done|split; [done|]]].
    + split; [done|]. intros (Ha & Hf & _).
      by apply (check_permits_iff _ _ _ _ _ _ _ Hc).
    + intros [= ->]. pose proof (check_errors policy cap SCHEDULE audit err_capacity) as He.
      rewrite Hc in He. by destruct (He eq_refl) as [|[? ?]].
Qed.

End scheduler_facts.

(** ** Witnesses *)

Module Witness.
#[local] Existing Instance ListModel.list_hvec.
#[local] Existing Instance ListModel.list_hvec_laws.
#[local] Existing Instance ListModel.list_iset.
#[local] Existing Instance ListModel.bits_model.
#[local] Existing Instance ByteModel.toy_sha.
#[local] Instance item_heap : BinaryHeap WorkItem item_le := ListModel.list_heap item_le.

#[local] Instance item_heap_laws : BinaryHeapLaws (BH := item_heap).
Proof.
  apply ListModel.list_heap_laws.
  - intros x. apply item_le_priority. lia.
  - intros x y z. rewrite !item_le_priority. lia.
  - intros x y H. apply item_le_priority. apply not_true_iff_false in H.
    rewrite item_le_priority in H. lia.
Qed.

Definition it (p x : Z) : WorkItem := mkItem p 1 x.
Definition busy : list queue_op := [Enqueue (it 9 0); Enqueue (it 2 1); Enqueue (it 5 2); Dequeue].

Lemma queue_conserves_witness :
  let '(q, accepted, served) := queue_run (new (N := 2)) busy in
  (len q <= 2)%nat /\ served = [it 2 1].
Proof.
  pose proof (queue_conserves (N := 2) busy) as H.
  destruct (queue_run new busy) as [[q a] s] eqn:E. split; [apply H|].
  vm_compute in E. injection E as _ _ <-. reflexivity.
Defined.

Lemma drain_ordered_sorted_witness :
  let '(q, _, _) := queue_run (new (N := 3)) [Enqueue (it 9 0); Enqueue (it 2 1)] in
  is_empty (drain_ordered q).1 = true /\ hv_slice (drain_ordered q).2 = [it 2 1; it 9 0].
Proof.
  pose proof (drain_ordered_sorted (N := 3) [Enqueue (it 9 0); Enqueue (it 2 1)]) as H.
  destruct (queue_run new _) as [[q a] s] eqn:E.
  destruct (drain_ordered q) as [q' out] eqn:Ed. split; [apply H|].
  vm_compute in E. injection E as <- _ _. vm_compute in Ed. injection Ed as _ <-. reflexivity.
Defined.

Lemma schedule_gated_witness :
  (schedule (scheduler_new (N := 0)) (it 1 1) Policy.Witness.cap0 Policy.Witness.p0 AuditLog.new).2
    = Err err_capacity /\
  spent (schedule (scheduler_new (N := 0)) (it 1 1) Policy.Witness.cap0 Policy.Witness.p0
           AuditLog.new).1.1.2 100.
Proof.
  pose proof (schedule_gated (scheduler_new (N := 0)) (it 1 1) Policy.Witness.cap0
                Policy.Witness.p0 AuditLog.new) as H.
  destruct (schedule _ _ _ _ _) as [[[s' p'] l'] r] eqn:E.
  assert (r = Err err_capacity) as Hr by (vm_compute in E; injection E as _ _ _ <-; reflexivity).
  split; [exact Hr|]. apply (proj2 (proj2 (proj2 (proj2 H)))). exact Hr.
Defined.

End Witness.
