(* ===== verification/Reservation.v ===== *)
(** * Reservation ledger

    Models [src/auth/reservation.rs]: phase 2 (RESERVE) of the signed-message protocol, a
    bounded store of reservations with a lifecycle, a time to live in logical ticks, one-shot
    consumption and cascade revocation.

    The theorems are about arbitrary sequences of ledger operations: the lifecycle as a
    state machine, that an identifier once inactive is never granted or consumed again, the
    exact decision of [grant] and [consume], what the cascade does, that identifiers are
    unique, and that capacity is not reclaimed before [clear]. *)
From S2P Require Import Prelude Heapless Types Capability.
From stdpp Require Import base tactics list numbers option strings.
Open Scope Z_scope.

(** ** Definitions *)

(** [struct ReservationId(u64)]. *)
Definition ReservationId : Type := Z.

(** [struct ReservationTtl(u64)]. *)
Definition ReservationTtl : Type := Z.

Definition ttl_new (ticks : Z) : option ReservationTtl :=
  if (ticks =? 0) || (MAX_RESERVATION_TTL <? ticks) then None else Some ticks.

Inductive ReservationStatus := Active | Revoked | Expired | Consumed.

#[global] Instance ReservationStatus_eq_dec : EqDecision ReservationStatus.
Proof. solve_decision. Defined.

Record Reservation := mkReservation {
  rv_id : ReservationId;
  rv_node : NodeId;
  rv_action : CapabilitySet;
  rv_generation : Generation;
  rv_origin_nonce : Z;
  rv_created_at : Z;
  rv_ttl : ReservationTtl;
  rv_status : ReservationStatus;
}.

Definition expires_at (r : Reservation) : Z := saturating_add_u64 (rv_created_at r) (rv_ttl r).

Record ExecutionGrant := mkGrant {
  eg_reservation_id : ReservationId;
  eg_generation : Generation;
  eg_action : CapabilitySet;
  eg_expires_at : Z;
}.

(** The accessors of [ReservationId], [ReservationTtl], [Reservation] and [ExecutionGrant]. *)
Definition id_get (self : ReservationId) : Z := self.
Definition ttl_get (self : ReservationTtl) : Z := self.
Definition reservation_id (self : Reservation) : ReservationId := rv_id self.
Definition reservation_node (self : Reservation) : NodeId := rv_node self.
Definition reservation_action (self : Reservation) : CapabilitySet := rv_action self.
Definition reservation_generation (self : Reservation) : Generation := rv_generation self.
Definition origin_nonce (self : Reservation) : Z := rv_origin_nonce self.
Definition reservation_status (self : Reservation) : ReservationStatus := rv_status self.
Definition grant_reservation_id (self : ExecutionGrant) : ReservationId := eg_reservation_id self.
Definition grant_generation (self : ExecutionGrant) : Generation := eg_generation self.
Definition grant_action (self : ExecutionGrant) : CapabilitySet := eg_action self.
Definition grant_expires_at (self : ExecutionGrant) : Z := eg_expires_at self.

(** [r.status = s] through a mutable reference. *)
Definition set_status (r : Reservation) (s : ReservationStatus) : Reservation := {|
  rv_id := rv_id r; rv_node := rv_node r; rv_action := rv_action r;
  rv_generation := rv_generation r; rv_origin_nonce := rv_origin_nonce r;
  rv_created_at := rv_created_at r; rv_ttl := rv_ttl r; rv_status := s |}.

(** [matches!(r.status, ReservationStatus::Active)]. *)
Definition active (r : Reservation) : bool := bool_decide (rv_status r = Active).

Definition err_inactive : Error := ReservationDenied "reservation not active".
Definition err_no_room : Error := ReservationDenied "reservation capacity exhausted".

Section ledger.
Context `{HV : HVec}.

Record ReservationLedger := mkLedger {
  reservations : hvec MAX_RESERVATIONS Reservation;
  next_id : Z;
}.

Definition new : ReservationLedger := {| reservations := hv_new; next_id := 0 |}.
Definition default_reservations : ReservationLedger := new.

(** [find] and [find_mut]: the first reservation with the identifier, and its index for a
    write through the mutable reference. *)
Definition find_mut (self : ReservationLedger) (id : ReservationId) : option (nat * Reservation) :=
  list_find (fun r => rv_id r = id) (hv_slice (reservations self)).
Definition find (self : ReservationLedger) (id : ReservationId) : option Reservation :=
  snd <$> find_mut self id.

Definition write (self : ReservationLedger) (i : nat) (r : Reservation) : ReservationLedger :=
  {| reservations := hv_update (reservations self) i r; next_id := next_id self |}.

Definition reserve (self : ReservationLedger) (node : NodeId) (action : CapabilitySet)
    (generation : Generation) (origin_nonce : Z) (ttl : ReservationTtl) (now : Z)
    : ReservationLedger * Result ReservationId :=
  let id := next_id self in
  let reservation := {|
    rv_id := id; rv_node := node; rv_action := action; rv_generation := generation;
    rv_origin_nonce := origin_nonce; rv_created_at := now; rv_ttl := ttl;
    rv_status := Active |} in
  match hv_push (reservations self) reservation with
  | None => (self, Err err_no_room)
  | Some v => ({| reservations := v; next_id := saturating_add_u64 (next_id self) 1 |}, Ok id)
  end.

Definition effective_status (self : ReservationLedger) (id : ReservationId) (now : Z)
    : option ReservationStatus :=
  r ← find self id;
  Some (if active r && (expires_at r <=? now) then Expired else rv_status r).

Definition revoke (self : ReservationLedger) (id : ReservationId) : ReservationLedger * bool :=
  match find_mut self id with
  | Some (i, r) => if active r then (write self i (set_status r Revoked), true) else (self, false)
  | None => (self, false)
  end.

(** One iteration of the loop [for r in &mut self.reservations]; the count is a [usize],
    at most the length of the ledger. *)
Definition cascade_step (origin_nonce : Z) (s : ReservationLedger * Z) (i : nat)
    : ReservationLedger * Z :=
  match hv_slice (reservations s.1) !! i with
  | Some r =>
      if (rv_origin_nonce r =? origin_nonce) && active r
      then (write s.1 i (set_status r Revoked), saturating_add_u64 s.2 1)
      else s
  | None => s
  end.

Definition len (self : ReservationLedger) : nat := hv_len (reservations self).
Definition is_empty (self : ReservationLedger) : bool := bool_decide (len self = 0)%nat.

Definition revoke_by_origin_nonce (self : ReservationLedger) (origin_nonce : Z)
    : ReservationLedger * Z :=
  foldl (cascade_step origin_nonce) (self, 0) (seq 0 (len self)).

Definition grant (self : ReservationLedger) (id : ReservationId) (now : Z)
    : Result ExecutionGrant :=
  r ← ok_or (find self id) err_inactive;
  let is_active := active r && (now <? expires_at r) in
  if negb is_active then Err err_inactive
  else Ok {| eg_reservation_id := rv_id r; eg_generation := rv_generation r;
             eg_action := rv_action r; eg_expires_at := expires_at r |}.

Definition consume (self : ReservationLedger) (id : ReservationId) (now : Z)
    : ReservationLedger * Result unit :=
  match find self id with
  | Some r =>
      if active r then
        if expires_at r <=? now then (self, Err err_inactive)
        else match find_mut self id with
             | Some (i, r') => (write self i (set_status r' Consumed), Ok tt)
             | None => (self, Ok tt)
             end
      else (self, Err err_inactive)
  | None => (self, Err err_inactive)
  end.

Definition clear (self : ReservationLedger) : ReservationLedger :=
  {| reservations := hv_clear (reservations self); next_id := next_id self |}.

(** ** Sequences of operations *)

Inductive ledger_op :=
| Reserve (node : NodeId) (action : CapabilitySet) (generation : Generation)
    (origin_nonce : Z) (ttl : ReservationTtl) (now : Z)
| Revoke (id : ReservationId)
| Cascade (origin_nonce : Z)
| Consume (id : ReservationId) (now : Z)
| Clear.

Definition apply_op (l : ReservationLedger) (o : ledger_op) : ReservationLedger :=
  match o with
  | Reserve node action gen origin ttl now => fst (reserve l node action gen origin ttl now)
  | Revoke id => fst (revoke l id)
  | Cascade origin => fst (revoke_by_origin_nonce l origin)
  | Consume id now => fst (consume l id now)
  | Clear => clear l
  end.

Definition run_ops (l : ReservationLedger) (ops : list ledger_op) : ReservationLedger :=
  foldl apply_op l ops.

Definition no_clear (ops : list ledger_op) : Prop := Forall (fun o => o <> Clear) ops.

End ledger.

(** ** The lifecycle of one reservation *)

(** The transitions of the state machine: only [Active] is left, and only for [Revoked] or
    [Consumed]; [Expired] is never stored. *)
Inductive status_step : ReservationStatus -> ReservationStatus -> Prop :=
| step_stay s : status_step s s
| step_revoke : status_step Active Revoked
| step_consume : status_step Active Consumed.

(** [r'] is [r] later: the status moved along the machine and nothing else changed. *)
Definition evolves (r r' : Reservation) : Prop :=
  exists s, r' = set_status r s /\ status_step (rv_status r) s.

Lemma set_status_id r : set_status r (rv_status r) = r.
Proof. by destruct r. Qed.

#[global] Instance evolves_preorder : PreOrder evolves.
Proof.
  split.
  - intros r. exists (rv_status r). rewrite set_status_id. split; [done|constructor].
  - intros r1 r2 r3 (s & -> & Hs) (t & -> & Ht). exists t. split; [done|]. cbn in Ht.
    inversion Hs; subst; inversion Ht; subst; try constructor; congruence.
Qed.

Lemma active_true r : active r = true <-> rv_status r = Active.
Proof. apply bool_decide_eq_true. Qed.

Lemma evolves_to r s : active r = true -> s = Revoked \/ s = Consumed -> evolves r (set_status r s).
Proof.
  rewrite active_true. intros Ha Hs. exists s. split; [done|]. rewrite Ha.
  destruct Hs as [-> | ->]; constructor.
Qed.

(** What cascade revocation does to one reservation. *)
Definition cascaded (origin_nonce : Z) (r : Reservation) : Reservation :=
  if (rv_origin_nonce r =? origin_nonce) && active r then set_status r Revoked else r.

Lemma cascaded_evolves n r : evolves r (cascaded n r).
Proof.
  unfold cascaded. destruct (_ && _) eqn:E; [|done].
  apply andb_true_iff in E as [_ Ha]. by apply evolves_to; [|left].
Qed.

Lemma find_insert (l : list Reservation) i r r' id :
  l !! i = Some r -> rv_id r = rv_id r' -> rv_id r' <> id ->
  snd <$> list_find (fun x => rv_id x = id) (<[i := r']> l) =
  snd <$> list_find (fun x => rv_id x = id) l.
Proof.
  revert i. induction l as [|x l IH]; intros [|i] Hl He Hne; cbn in *; try done.
  - injection Hl as ->. rewrite !decide_False by congruence. done.
  - case_decide; [done|]. rewrite <- !option_fmap_compose. specialize (IH i Hl He Hne).
    destruct (list_find _ (<[i := r']> l)) as [[]|], (list_find _ l) as [[]|]; cbn in *; congruence.
Qed.

Section facts.
Context `{HV : HVec} `{HL : !HVecLaws}.
Implicit Types (l : ReservationLedger) (id now : Z).

Definition slice l : list Reservation := hv_slice (reservations l).

Lemma find_mut_Some l id i r :
  find_mut l id = Some (i, r) ->
  slice l !! i = Some r /\ rv_id r = id /\ (i < hv_len (reservations l))%nat.
Proof.
  unfold find_mut. intros (Hi & Hid & _)%list_find_Some. split; [done|]. split; [done|].
  by eapply lookup_lt_Some.
Qed.

Lemma slice_write l i r : (i < hv_len (reservations l))%nat -> slice (write l i r) = <[i := r]> (slice l).
Proof using HL. unfold slice, write; cbn. apply hv_slice_update. Qed.

Lemma find_write l id i r r' id' :
  find_mut l id = Some (i, r) -> rv_id r' = id ->
  find (write l i r') id' = if decide (id = id') then Some r' else find l id'.
Proof using HL.
  intros Hf Hr'. pose proof (find_mut_Some _ _ _ _ Hf) as (Hi & Hid & Hlt).
  unfold find, find_mut. fold (slice (write l i r')). rewrite slice_write by done. case_decide as Hd.
  - subst id'. unfold find_mut in Hf. apply list_find_Some in Hf as (Hl & _ & Hmin).
    rewrite (proj2 (list_find_Some _ _ i r')); [done|].
    split; [by apply list_lookup_insert_eq|]. split; [done|].
    intros j y Hj Hji. rewrite list_lookup_insert_ne in Hj by lia. by apply (Hmin j).
  - apply (find_insert _ _ r); [done|congruence|congruence].
Qed.

(** ** The ledger over time *)

(** Every reservation of [l] is still at its place in [l'], evolved; others may follow. *)
Definition ledger_le l l' : Prop :=
  exists old fresh, slice l' = old ++ fresh /\ Forall2 evolves (slice l) old.

Lemma ledger_le_refl l : ledger_le l l.
Proof. exists (slice l), []. rewrite app_nil_r. done. Qed.

Lemma ledger_le_trans l1 l2 l3 : ledger_le l1 l2 -> ledger_le l2 l3 -> ledger_le l1 l3.
Proof.
  intros (o & f & E2 & F1) (o' & f' & E3 & F2). rewrite E2 in F2.
  apply Forall2_app_inv_l in F2 as (o1 & o2 & Ho1 & _ & ->).
  exists o1, (o2 ++ f'). rewrite E3, <- app_assoc. split; [done|].
  by etrans.
Qed.

Lemma write_le l i r r' :
  (i < hv_len (reservations l))%nat -> slice l !! i = Some r -> evolves r r' ->
  ledger_le l (write l i r').
Proof using HL.
  intros Hlt Hi He. exists (slice (write l i r')), []. rewrite app_nil_r. split; [done|].
  rewrite slice_write by done. rewrite <- (list_insert_id (slice l) i r) at 1 by done.
  apply Forall2_insert; done.
Qed.

(** The number of reservations the cascade revokes. *)
Definition hits (n : Z) (rs : list Reservation) : nat :=
  length (filter (fun r => (rv_origin_nonce r =? n) && active r = true) rs).

Lemma hits_snoc n rs r :
  hits n (rs ++ [r]) =
  if (rv_origin_nonce r =? n) && active r then S (hits n rs) else hits n rs.
Proof.
  unfold hits. rewrite filter_app, length_app, filter_cons, filter_nil.
  destruct ((rv_origin_nonce r =? n) && active r) eqn:E.
  - rewrite decide_True by done. cbn. lia.
  - rewrite decide_False by done. cbn. lia.
Qed.

Lemma hits_take n rs k : (hits n (take k rs) <= k)%nat.
Proof. unfold hits. etrans; [apply length_filter|]. rewrite length_take. lia. Qed.

Lemma cascade_prefix n l k :
  (k <= len l)%nat ->
  let s := foldl (cascade_step n) (l, 0) (seq 0 k) in
  slice s.1 = (cascaded n <$> take k (slice l)) ++ drop k (slice l) /\
  next_id s.1 = next_id l /\
  (Z.of_nat (len l) <= U64_MAX -> s.2 = Z.of_nat (hits n (take k (slice l)))).
Proof using HL.
  unfold len, hv_len. fold (slice l). induction k as [|k IH]; intros Hk; [done|].
  rewrite seq_S, foldl_app. destruct IH as (Hs & Hn & Hc); [lia|].
  destruct (foldl _ _ (seq 0 k)) as [l1 c]. cbn [fst snd] in *. cbn [foldl Nat.add].
  destruct (lookup_lt_is_Some_2 (slice l) k) as [r Hr]; [lia|].
  assert (slice l1 !! k = Some r) as Hr1.
  { rewrite Hs, lookup_app_r by (rewrite length_fmap, length_take; lia).
    rewrite length_fmap, length_take, lookup_drop. by replace (k + (k - _))%nat with k by lia. }
  pose proof (lookup_lt_Some _ _ _ Hr1) as Hlt.
  unfold cascade_step. cbn [fst snd]. fold (slice l1). rewrite Hr1.
  rewrite (take_S_r _ _ _ Hr), fmap_app, hits_snoc. pose proof (hits_take n (slice l) k) as Hb.
  assert (forall x, <[k := x]> (slice l1) = ((cascaded n <$> take k (slice l)) ++ [x]) ++ drop (S k) (slice l))
    as Hins.
  { intros x. rewrite Hs, insert_app_r_alt by (rewrite length_fmap, length_take; lia).
    rewrite length_fmap, length_take, Nat.min_l, Nat.sub_diag by lia.
    rewrite (drop_S _ _ _ Hr). cbn. by rewrite <- app_assoc. }
  cbn [fmap list_fmap]. unfold cascaded at 2.
  destruct ((rv_origin_nonce r =? n) && active r) eqn:E; cbn [fst snd].
  - rewrite slice_write by exact Hlt. rewrite Hins. split; [done|]. split; [done|].
    intros Hmax. rewrite Hc by done. width_lia.
  - rewrite <- Hins, list_insert_id by done. done.
Qed.

Lemma cascade_slice n l :
  slice (revoke_by_origin_nonce l n).1 = cascaded n <$> slice l /\
  next_id (revoke_by_origin_nonce l n).1 = next_id l /\
  (Z.of_nat (len l) <= U64_MAX -> (revoke_by_origin_nonce l n).2 = Z.of_nat (hits n (slice l))).
Proof using HL.
  destruct (cascade_prefix n l (len l)) as (Hs & Hn & Hc); [done|].
  unfold revoke_by_origin_nonce, len, hv_len in *. fold (slice l) in *.
  rewrite firstn_all, drop_all, app_nil_r in Hs. rewrite firstn_all in Hc. done.
Qed.

Lemma reserve_cases l node action gen origin ttl now :
  ((len l < MAX_RESERVATIONS)%nat /\ exists l',
     reserve l node action gen origin ttl now = (l', Ok (next_id l)) /\
     slice l' = slice l ++ [mkReservation (next_id l) node action gen origin now ttl Active] /\
     next_id l' = saturating_add_u64 (next_id l) 1) \/
  ((MAX_RESERVATIONS <= len l)%nat /\
     reserve l node action gen origin ttl now = (l, Err err_no_room)).
Proof using HL.
  unfold reserve, len. destruct (decide (hv_len (reservations l) < MAX_RESERVATIONS)%nat) as [Hl|Hl].
  - left. edestruct (hv_push_room _ _ (reservations l)) as (v & -> & Hv); [done|].
    split; [done|]. eexists. split; [done|]. by split.
  - right. rewrite hv_push_full by lia. split; [lia|done].
Qed.

Lemma op_le l o : o <> Clear -> ledger_le l (apply_op l o).
Proof using HL.
  intros Ho. destruct o as [node act gen orig ttl now|id|n|id now|]; [..|done]; cbn.
  - destruct (reserve_cases l node act gen orig ttl now) as [(_ & l' & -> & Hs & _)|(_ & ->)];
      [|apply ledger_le_refl].
    eexists _, _. split; [exact Hs|]. done.
  - unfold revoke. destruct (find_mut l id) as [[i r]|] eqn:Hf; [|apply ledger_le_refl].
    destruct (active r) eqn:Ha; [|apply ledger_le_refl]. apply find_mut_Some in Hf as (? & _ & ?).
    by eapply write_le; [..|apply evolves_to; [|left]].
  - destruct (cascade_slice n l) as (Hs & _). exists (cascaded n <$> slice l), [].
    rewrite app_nil_r. split; [done|]. apply Forall2_fmap_r, Forall_Forall2_diag, Forall_true.
    intros r. apply cascaded_evolves.
  - unfold consume, find. destruct (find_mut l id) as [[i r]|] eqn:Hf; cbn; [|apply ledger_le_refl].
    destruct (active r) eqn:Ha; [|apply ledger_le_refl].
    destruct (expires_at r <=? now); [apply ledger_le_refl|]. apply find_mut_Some in Hf as (? & _ & ?).
    by eapply write_le; [..|apply evolves_to; [|right]].
Qed.

Lemma run_le l ops : no_clear ops -> ledger_le l (run_ops l ops).
Proof using HL.
  revert l. induction ops as [|o ops IH]; intros l Hn; [apply ledger_le_refl|].
  inversion_clear Hn. eapply ledger_le_trans; [by apply (op_le l o)|]. by apply IH.
Qed.

Lemma find_le l l' id r :
  ledger_le l l' -> find l id = Some r -> exists r', find l' id = Some r' /\ evolves r r'.
Proof.
  intros (old & fresh & Hs & Hold). unfold find, find_mut. fold (slice l) (slice l').
  rewrite Hs. clear Hs. induction Hold as [|x y xs ys (s & -> & Hst) _ IH]; cbn; [done|].
  case_decide; cbn; [intros [= ->]; eexists; split; [done|by exists s]|].
  rewrite <- !option_fmap_compose. intros Hx.
  destruct (list_find _ xs) as [[i a]|]; [|done]. cbn in *. destruct (IH Hx) as (r' & Hf & He).
  exists r'. split; [|done]. by destruct (list_find _ (ys ++ fresh)) as [[]|].
Qed.

(** ** Decisions *)

(** The condition [grant] and [consume] test. *)
Definition live l id now : Prop := effective_status l id now = Some Active.

Lemma live_find l id now :
  live l id now <-> exists r, find l id = Some r /\ rv_status r = Active /\ now < expires_at r.
Proof.
  unfold live, effective_status.
  destruct (find l id) as [r|]; cbn; [|by split; [|intros (? & ? & _)]].
  destruct (active r) eqn:Ha; cbn.
  - apply active_true in Ha. destruct (Z.leb_spec (expires_at r) now) as [Hle|Hlt]; split.
    + done.
    + intros (r' & [= <-] & _ & ?). lia.
    + intros _. by exists r.
    + by rewrite Ha.
  - apply bool_decide_eq_false in Ha. split; [congruence|]. by intros (r' & [= <-] & ? & _).
Qed.

#[global] Instance live_dec l id now : Decision (live l id now).
Proof. unfold live. apply _. Defined.

Lemma live_grant l id now r :
  find l id = Some r -> rv_status r = Active -> now < expires_at r ->
  grant l id now = Ok (mkGrant (rv_id r) (rv_generation r) (rv_action r) (expires_at r)) /\
  exists i, find_mut l id = Some (i, r) /\ consume l id now = (write l i (set_status r Consumed), Ok tt).
Proof.
  intros Hf Ha%active_true Hlt. unfold grant, consume. rewrite Hf. cbn. rewrite Ha.
  rewrite (proj2 (Z.ltb_lt _ _)), (proj2 (Z.leb_gt _ _)) by done. split; [done|].
  unfold find in Hf. destruct (find_mut l id) as [[i r']|]; [|done]. cbn in Hf.
  injection Hf as ->. eauto.
Qed.

Lemma not_live_denied l id now :
  ~ live l id now -> grant l id now = Err err_inactive /\ consume l id now = (l, Err err_inactive).
Proof.
  rewrite live_find. intros Hn. unfold grant, consume.
  destruct (find l id) as [r|]; cbn; [|done]. destruct (active r) eqn:Ha; cbn; [|done].
  apply active_true in Ha. destruct (Z.leb_spec (expires_at r) now) as [Hle|Hlt]; [|destruct Hn; by exists r].
  by rewrite (proj2 (Z.ltb_ge _ _)).
Qed.

(** The lifecycle is the state machine the module documents.  Over any sequence of
    operations without [clear], every stored reservation keeps its place, identifier, node,
    action, generation, origin, creation tick and time to live, and its status only moves
    from [Active] to [Revoked] or [Consumed]; those two are terminal. *)
Theorem reservation_lifecycle l ops i r :
  no_clear ops -> slice l !! i = Some r ->
  exists s, slice (run_ops l ops) !! i = Some (set_status r s) /\ status_step (rv_status r) s.
Proof using HL.
  intros Hn Hi. destruct (run_le l ops Hn) as (old & fresh & -> & Hold).
  destruct (Forall2_lookup_l _ _ _ _ _ Hold Hi) as (r' & Ho & s & -> & Hs).
  exists s. split; [|done]. by apply lookup_app_l_Some.
Qed.

(** C35: [grant] and [consume] succeed exactly on a reservation that is [Active] and not
    past its expiry; the grant carries the reservation's generation, action and expiry,
    [consume] marks that reservation [Consumed] and touches no other, and a refusal changes
    nothing. *)
Theorem grant_consume_exact l id now :
  (effective_status l id now = Some Active -> exists r, find l id = Some r /\
     grant l id now = Ok (mkGrant id (rv_generation r) (rv_action r) (expires_at r)) /\
     (consume l id now).2 = Ok tt /\
     forall id', find (consume l id now).1 id' =
       if decide (id = id') then Some (set_status r Consumed) else find l id') /\
  (effective_status l id now <> Some Active ->
     grant l id now = Err err_inactive /\ consume l id now = (l, Err err_inactive)).
Proof using HL.
  split; [|apply not_live_denied]. intros Hl. apply live_find in Hl as (r & Hf & Ha & Hlt).
  destruct (live_grant l id now r Hf Ha Hlt) as (Hg & i & Hm & ->).
  destruct (find_mut_Some _ _ _ _ Hm) as (_ & Hid & _).
  exists r. split; [done|]. split; [by rewrite Hg, Hid|]. split; [done|].
  intros id'. cbn [fst]. by apply (find_write l id i r).
Qed.

(** Once an identifier is not active it stays so.  If a stored reservation is revoked,
    consumed or past its expiry at tick [now], then after any operations without [clear]
    and at any later tick, [grant] and [consume] refuse it.  In particular a second
    [consume] fails, however it is interleaved with other operations. *)
Theorem inactive_forever l id now ops now' :
  find l id <> None -> effective_status l id now <> Some Active -> no_clear ops -> now <= now' ->
  let l' := run_ops l ops in
  grant l' id now' = Err err_inactive /\ consume l' id now' = (l', Err err_inactive).
Proof using HL.
  intros Hf Hn Hops Hle l'. apply not_live_denied. fold (live l id now) in Hn.
  rewrite live_find in *. destruct (find l id) as [r|] eqn:E; [|done].
  destruct (find_le _ _ _ _ (run_le l ops Hops) E) as (r' & Hf' & s & -> & Hs).
  fold l' in Hf'. rewrite Hf'. intros (r2 & [= <-] & Ha & Hlt). cbn in Ha. subst s. apply Hn. exists r. split; [done|].
  change (expires_at (set_status r Active)) with (expires_at r) in Hlt.
  split; [|lia]. inversion Hs; congruence.
Qed.

(** The cascade rule.  [revoke_by_origin_nonce n] revokes every active reservation
    that was derived from nonce [n], leaves every other reservation as it was, and returns
    how many it revoked; afterwards no reservation of that origin can be granted. *)
Theorem cascade_exact l n :
  (len l <= MAX_RESERVATIONS)%nat ->
  let '(l', count) := revoke_by_origin_nonce l n in
  slice l' = cascaded n <$> slice l /\ next_id l' = next_id l /\
  count = Z.of_nat (hits n (slice l)) /\
  (forall id r now, find l id = Some r -> rv_origin_nonce r = n ->
     grant l' id now = Err err_inactive).
Proof using HL.
  intros Hl. destruct (cascade_slice n l) as (Hs & Hn & Hc).
  pose proof (op_le l (Cascade n)) as Hle. cbn in Hle.
  destruct (revoke_by_origin_nonce l n) as [l' c]. cbn [fst snd] in *.
  split; [done|]. split; [done|]. split.
  { apply Hc. assert (MAX_RESERVATIONS = 256%nat) by done. width_lia. }
  intros id r now Hf Ho. apply not_live_denied. rewrite live_find. intros (r' & Hf' & Ha & _).
  assert (r' ∈ slice l') as Hin.
  { unfold find in Hf'. destruct (find_mut l' id) as [[i x]|] eqn:E; [|done].
    apply find_mut_Some in E as (Hi & _). cbn in Hf'. injection Hf' as ->.
    by eapply list_elem_of_lookup_2. }
  destruct (find_le l l' id r (Hle ltac:(done)) Hf) as (r2 & Hf2 & s & -> & _).
  rewrite Hf' in Hf2. injection Hf2 as ->. cbn in Ha. subst s.
  rewrite Hs in Hin. apply list_elem_of_fmap in Hin as (r0 & Heq & _). unfold cascaded in Heq.
  destruct (_ && _) eqn:E; [by apply (f_equal rv_status) in Heq|]. subst r0. cbn in E.
  by rewrite Ho, Z.eqb_refl in E.
Qed.

(** ** Identifiers *)

(** The identifiers a sequence of operations hands out. *)
Fixpoint issued l (ops : list ledger_op) : list ReservationId :=
  match ops with
  | [] => []
  | o :: ops' =>
      match o with
      | Reserve node act gen orig ttl now =>
          match (reserve l node act gen orig ttl now).2 with Ok id => [id] | Err _ => [] end
      | _ => []
      end ++ issued (apply_op l o) ops'
  end.

Record ids_wf l : Prop := {
  wf_next : 0 <= next_id l <= U64_MAX;
  wf_below : next_id l < U64_MAX -> Forall (fun x => 0 <= x < next_id l) (rv_id <$> slice l);
  wf_nodup : next_id l < U64_MAX -> NoDup (rv_id <$> slice l);
}.

(** Only [reserve] advances the counter; the others keep it and the identifiers, or clear. *)
Lemma op_ids l o :
  (next_id (apply_op l o) = next_id l /\
     (rv_id <$> slice (apply_op l o) = rv_id <$> slice l \/ slice (apply_op l o) = []) /\
     issued l [o] = []) \/
  (next_id (apply_op l o) = saturating_add_u64 (next_id l) 1 /\
     rv_id <$> slice (apply_op l o) = (rv_id <$> slice l) ++ [next_id l] /\
     issued l [o] = [next_id l]).
Proof using HL.
  assert (forall i r s, slice l !! i = Some r -> (i < hv_len (reservations l))%nat ->
            rv_id <$> slice (write l i (set_status r s)) = rv_id <$> slice l) as Hw.
  { intros i r s Hi Hlt. rewrite slice_write, list_fmap_insert by done.
    apply list_insert_id. by rewrite list_lookup_fmap, Hi. }
  destruct o as [node act gen orig ttl now|id|n|id now|]; cbn.
  - destruct (reserve_cases l node act gen orig ttl now) as [(_ & l' & -> & Hs & Hn)|(_ & ->)]; cbn.
    + right. split; [done|]. by rewrite Hs, fmap_app.
    + left. by split; [|split; [left|]].
  - left. unfold revoke. destruct (find_mut l id) as [[i r]|] eqn:Hf; [|by split; [|split; [left|]]].
    apply find_mut_Some in Hf as (Hi & _ & Hlt).
    destruct (active r); (split; [done|]); (split; [left|done]); [by apply Hw|done].
  - left. destruct (cascade_slice n l) as (-> & -> & _). split; [done|]. split; [|done]. left.
    rewrite <- list_fmap_compose. apply list_fmap_ext. intros i r _. cbn. unfold cascaded.
    by destruct (_ && _).
  - left. unfold consume, find. destruct (find_mut l id) as [[i r]|] eqn:Hf; cbn;
      [|by split; [|split; [left|]]].
    apply find_mut_Some in Hf as (Hi & _ & Hlt).
    destruct (active r), (expires_at r <=? now); (split; [done|]); (split; [left|done]);
      try done; by apply Hw.
  - left. split; [done|]. split; [right|done]. unfold slice, clear. cbn. apply hv_slice_clear.
Qed.

Lemma saturating_succ x : 0 <= x <= U64_MAX ->
  x <= saturating_add_u64 x 1 <= U64_MAX /\
  (saturating_add_u64 x 1 < U64_MAX -> x < U64_MAX /\ saturating_add_u64 x 1 = x + 1).
Proof. width_lia. Qed.

Lemma op_ids_wf l o : ids_wf l -> ids_wf (apply_op l o).
Proof using HL.
  intros [Hn Hb Hd]. destruct (op_ids l o) as [(Hn' & [Hs|Hs] & _)|(Hn' & Hs & _)].
  - constructor; rewrite Hn', ?Hs; done.
  - constructor; rewrite Hn', ?Hs; [done|constructor..].
  - destruct (saturating_succ _ Hn) as [Hr Hm]. constructor; rewrite Hn', ?Hs.
    + lia.
    + intros Hlt. destruct (Hm Hlt) as [Hl ->]. apply Forall_snoc. split; [|lia].
      eapply Forall_impl; [by apply Hb|]. cbn. lia.
    + intros Hlt. destruct (Hm Hlt) as [Hl _]. apply NoDup_app. split; [by apply Hd|].
      split; [|apply NoDup_singleton]. intros x Hx ->%list_elem_of_singleton.
      pose proof (proj1 (Forall_forall _ _) (Hb Hl) _ Hx) as Hc. cbn in Hc. lia.
Qed.

Lemma run_ids_wf l ops : ids_wf l -> ids_wf (run_ops l ops).
Proof using HL. revert l. induction ops as [|o ops IH]; intros l Hw; [done|]. by apply IH, op_ids_wf. Qed.

Lemma issued_cons l o ops : issued l (o :: ops) = issued l [o] ++ issued (apply_op l o) ops.
Proof. cbn. by rewrite app_nil_r. Qed.

Lemma run_next l ops : ids_wf l -> next_id l <= next_id (run_ops l ops).
Proof using HL.
  revert l. induction ops as [|o ops IH]; intros l Hw; [done|].
  pose proof (IH _ (op_ids_wf l o Hw)) as Hle. destruct Hw as [Hn _ _].
  change (run_ops l (o :: ops)) with (run_ops (apply_op l o) ops).
  destruct (op_ids l o) as [(He & _)|(He & _)]; rewrite He in Hle; [lia|].
  destruct (saturating_succ _ Hn). lia.
Qed.

Lemma issued_seq l ops :
  ids_wf l -> next_id (run_ops l ops) < U64_MAX ->
  issued l ops = seqZ (next_id l) (next_id (run_ops l ops) - next_id l).
Proof using HL.
  revert l. induction ops as [|o ops IH]; intros l Hw Hlt.
  - cbn. by rewrite Z.sub_diag.
  - rewrite issued_cons. pose proof (op_ids_wf l o Hw) as Hw'.
    change (run_ops l (o :: ops)) with (run_ops (apply_op l o) ops) in *.
    pose proof (run_next _ ops Hw') as Hle. rewrite (IH _ Hw' Hlt). destruct Hw as [Hn _ _].
    destruct (op_ids l o) as [(He & _ & ->)|(He & _ & ->)]; [by rewrite He|].
    assert (next_id (apply_op l o) = next_id l + 1) as He1.
    { destruct (saturating_succ _ Hn) as [_ Hm]. rewrite He in *. apply Hm. lia. }
    rewrite He1 in *. rewrite (seqZ_cons (next_id l)) by lia. cbn. do 2 f_equal; lia.
Qed.

Lemma new_ids_wf : ids_wf new.
Proof using HL.
  constructor; unfold slice, new; cbn; [width_lia| |]; rewrite hv_slice_new; constructor.
Qed.

(** Identifiers are issued once.  A ledger hands out 0, 1, 2, ... in order, over any
    sequence of operations, [clear] included, so no identifier is ever reused, and the
    stored reservations have distinct identifiers, as long as the 64-bit counter has not
    saturated. *)
Theorem ids_issued_once ops :
  let l := run_ops new ops in
  next_id l < U64_MAX ->
  issued new ops = seqZ 0 (next_id l) /\ NoDup (rv_id <$> slice l).
Proof using HL.
  intros l Hlt. split.
  - rewrite (issued_seq new ops new_ids_wf Hlt). unfold l. f_equal. cbn. lia.
  - by apply (run_ids_wf new ops new_ids_wf).
Qed.

(** The documentation of [reserve] tells the caller to wait for capacity to free up
    via expiry, consumption or revocation.  None of them frees any: a full ledger refuses
    every [reserve] until it is cleared. *)
Theorem capacity_not_reclaimed l ops node action gen origin ttl now :
  (MAX_RESERVATIONS <= len l)%nat -> no_clear ops ->
  (reserve (run_ops l ops) node action gen origin ttl now).2 = Err err_no_room.
Proof using HL.
  intros Hl Hn. destruct (run_le l ops Hn) as (old & fresh & Hs & Hold).
  destruct (reserve_cases (run_ops l ops) node action gen origin ttl now) as [(Hlt & _)|(_ & ->)];
    [|done].
  exfalso. apply Forall2_length in Hold. unfold len, hv_len in *. fold (slice l) in Hl.
  fold (slice (run_ops l ops)) in Hlt. rewrite Hs, length_app in Hlt. lia.
Qed.

End facts.

(** ** Witnesses *)

Module Witness.
#[local] Existing Instance ListModel.list_hvec.
#[local] Existing Instance ListModel.list_hvec_laws.

Definition rsv (origin : Z) : ledger_op := Reserve 1 SCHEDULE 5 origin 10 100.
Definition l2 : ReservationLedger := run_ops new [rsv 7; rsv 8].
Definition l2used : ReservationLedger := apply_op l2 (Consume 1 105).

Lemma reservation_lifecycle_witness :
  exists s, slice (run_ops l2 [Consume 1 105; Revoke 1]) !! 1%nat
    = Some (set_status (mkReservation 1 1 SCHEDULE 5 8 100 10 Active) s) /\ status_step Active s.
Proof. apply (reservation_lifecycle l2); [repeat constructor; discriminate|vm_compute; reflexivity]. Defined.

Lemma grant_consume_exact_witness :
  (consume l2 1 105).2 = Ok tt /\ grant l2 1 110 = Err err_inactive.
Proof.
  split.
  - destruct (grant_consume_exact l2 1 105) as [H _].
    destruct H as (r & _ & _ & H & _); [vm_compute; reflexivity|exact H].
  - apply (grant_consume_exact l2 1 110). vm_compute. discriminate.
Defined.

Lemma inactive_forever_witness :
  let l' := run_ops l2used [rsv 9; Cascade 7] in
  grant l' 1 106 = Err err_inactive /\ consume l' 1 106 = (l', Err err_inactive).
Proof.
  apply (inactive_forever l2used 1 105); [vm_compute; discriminate|vm_compute; discriminate| |lia].
  repeat constructor; discriminate.
Defined.

Lemma cascade_exact_witness : (revoke_by_origin_nonce l2 8).2 = 1.
Proof.
  pose proof (cascade_exact l2 8) as H. destruct (revoke_by_origin_nonce l2 8) as [l' c].
  destruct H as (_ & _ & -> & _); [apply Nat.leb_le; vm_compute; reflexivity|].
  vm_compute. reflexivity.
Defined.

Lemma ids_issued_once_witness : issued new [rsv 7; Clear; rsv 8] = seqZ 0 2.
Proof.
  destruct (ids_issued_once [rsv 7; Clear; rsv 8]) as [H _]; [vm_compute; reflexivity|].
  rewrite H. f_equal.
Defined.

Definition lfull : ReservationLedger := {|
  reservations := replicate MAX_RESERVATIONS (mkReservation 0 1 SCHEDULE 5 7 100 10 Active);
  next_id := 256 |}.

Lemma capacity_not_reclaimed_witness :
  (reserve (run_ops lfull [Cascade 7]) 1 SCHEDULE 5 9 10 200).2 = Err err_no_room.
Proof.
  apply (capacity_not_reclaimed lfull); [|repeat constructor; discriminate].
  apply Nat.leb_le. vm_compute. reflexivity.
Defined.

End Witness.
