(* ===== verification/Hsm.v ===== *)
(** * Hardware security modules

    Models [src/hsm/]: the traits [HsmProvider] and [KeyManagement] as type classes, the
    software provider ([mock.rs]), the key store ([keystore.rs]), the two hardware stubs
    ([yubihsm.rs], [pkcs11.rs]) and signed capabilities ([mod.rs]).

    The bytes [OsRng.fill_bytes] writes are an argument of the functions that call it.  The
    [Mutex] of the key store is modelled with its poison flag and the [HashMap] as a finite
    map.  [HsmContract] is what the security contract of the trait documentation asks of a
    provider's results; both software providers satisfy it, and the hardware stubs refuse
    every operation. *)
From S2P Require Import Prelude Heapless Crypto Types Capability.
From stdpp Require Import base tactics list numbers option strings gmap.
Open Scope Z_scope.

(** ** The traits *)

(** [struct KeyHandle(pub \[u8; 32\])]. *)
Definition KeyHandle : Type := bytes.

Definition zeroize_handle (self : KeyHandle) : KeyHandle := replicate (length self) 0.

(** [trait HsmProvider]; the second argument of [generate_capability_seed] is the entropy
    an implementation draws. *)
Class HsmProvider (H : Type) := {
  generate_capability_seed : H -> bytes -> Result bytes;
  sign : H -> bytes -> Result bytes;
  verify : H -> bytes -> bytes -> Result unit;
}.

(** [trait KeyManagement]; methods that change the store through interior mutability
    return it. *)
Class KeyManagement (H : Type) := {
  generate_keypair : H -> bytes -> H * Result KeyHandle;
  sign_capability : H -> KeyHandle -> bytes -> Result bytes;
  verify_capability_signature : H -> KeyHandle -> bytes -> bytes -> Result unit;
  list_keys : H -> Result (list KeyHandle);
  rotate_key : H -> KeyHandle -> bytes -> H * Result KeyHandle;
}.

(** What callers rely on when they sign and verify, for the values [ok] an implementation
    constructs: a produced signature is 64 bytes and verifies, and failures are of the
    documented kinds. *)
Class HsmSigning {H} `{HP : HsmProvider H} (ok : H -> Prop) : Prop := {
  hsm_sign_verifies : forall h m s, ok h -> sign h m = Ok s ->
    verify h m s = Ok tt /\ length s = 64%nat;
  hsm_sign_error : forall h m e, sign h m = Err e -> exists r, e = CapabilityDenied r;
  hsm_verify_error : forall h m s e, verify h m s = Err e -> exists d, e = ManifestInvalid d;
}.

(** The security contract of [hsm/mod.rs].  Verification is sound: it accepts exactly what
    strict Ed25519 verification accepts under the key [key] of the provider, and nothing if
    there is none.  A capability seed is 32 bytes, for 32 bytes of entropy.  That the seed
    is unpredictable is not a statement about one call; how it depends on the entropy is
    part of the theorem on the providers below. *)
Class HsmContract {H} `{HP : HsmProvider H} `{ED : Ed25519} (ok : H -> Prop)
    (key : H -> option verifying_key) : Prop := {
  hsm_signing :: HsmSigning ok;
  hsm_verify_sound : forall h m s, verify h m s = Ok tt <->
    exists vk, key h = Some vk /\ vk_verify_strict vk m s = true;
  hsm_seed_length : forall h entropy seed, length entropy = 32%nat ->
    generate_capability_seed h entropy = Ok seed -> length seed = 32%nat;
  hsm_seed_error : forall h entropy e, generate_capability_seed h entropy = Err e ->
    exists r, e = CapabilityDenied r;
}.

(** ** Signed capabilities *)

(** [cap_payload]: the five [copy_from_slice] calls fill the 28 bytes in order. *)
Definition cap_payload (cap : Capability) : bytes :=
  to_le_bytes 4 (issuer cap) ++ to_le_bytes 4 (target cap) ++
  to_le_bytes 4 (rights_bits cap) ++ to_le_bytes 8 (generation_raw cap) ++
  to_le_bytes 8 (nonce_raw cap).

Record HsmSignedCapability := mkSigned {
  sc_inner : Capability;
  sc_key_handle : KeyHandle;
  sc_signature : bytes;
}.

Section signed.
Context {H : Type} `{KM : KeyManagement H}.

Definition signed_sign (cap : Capability) (handle : KeyHandle) (hsm : H)
    : Result HsmSignedCapability :=
  signature ← sign_capability hsm handle (cap_payload cap);
  Ok {| sc_inner := cap; sc_key_handle := handle; sc_signature := signature |}.

Definition signed_verify (self : HsmSignedCapability) (hsm : H) : Result unit :=
  verify_capability_signature hsm (sc_key_handle self) (cap_payload (sc_inner self))
    (sc_signature self).

End signed.

(** ** Providers *)

Section providers.
Context `{SH : Sha256} `{ED : Ed25519}.

Definition err_bad_signature : Error := ManifestInvalid "Ed25519 signature verification failed".

(** [vk.verify_strict(payload, &sig).map_err(..)]. *)
Definition verify_strict_or (vk : verifying_key) (payload sig : bytes) (e : Error) : Result unit :=
  if vk_verify_strict vk payload sig then Ok tt else Err e.

(** [SHA-256] of the encoding of a verifying key. *)
Definition key_digest (vk : verifying_key) : bytes := digest (vk_to_bytes vk).

(** [SoftwareHsm] *)

Record SoftwareHsm := mkSoftwareHsm {
  sh_verifying_key : verifying_key;
  sh_signing_key : option signing_key;
}.

Definition from_verifying_key (b : bytes) : Result SoftwareHsm :=
  match vk_from_bytes b with
  | Some vk => Ok {| sh_verifying_key := vk; sh_signing_key := None |}
  | None => Err (ManifestInvalid "invalid Ed25519 public key bytes")
  end.

Definition from_signing_key (seed : bytes) : SoftwareHsm :=
  let sk := sk_from_bytes seed in
  {| sh_verifying_key := sk_verifying_key sk; sh_signing_key := Some sk |}.

Definition verifying_key_bytes (self : SoftwareHsm) : bytes := vk_to_bytes (sh_verifying_key self).

#[global] Instance software_hsm : HsmProvider SoftwareHsm := {|
  generate_capability_seed := fun self _ => Ok (key_digest (sh_verifying_key self));
  sign := fun self payload =>
    match sh_signing_key self with
    | None => Err (CapabilityDenied "SoftwareHsm: no signing key configured (verify-only mode)")
    | Some sk => Ok (sk_sign sk payload)
    end;
  verify := fun self payload sig =>
    verify_strict_or (sh_verifying_key self) payload sig err_bad_signature;
|}.

(** [SoftwareKeyStore] *)

Record SoftwareKeyStore := mkKeyStore {
  ks_primary : option signing_key;
  ks_poisoned : bool;
  ks_keys : gmap bytes signing_key;
}.

Definition keystore_new : SoftwareKeyStore :=
  {| ks_primary := None; ks_poisoned := false; ks_keys := ∅ |}.

Definition with_signing_key (seed : bytes) : SoftwareKeyStore :=
  {| ks_primary := Some (sk_from_bytes seed); ks_poisoned := false; ks_keys := ∅ |}.

Definition default_hsm : SoftwareKeyStore := keystore_new.

(** The accessor [verifying_key_bytes] and [Default::default] of the key store. *)
Definition ks_verifying_key_bytes (self : SoftwareKeyStore) : option bytes :=
  (fun sk => vk_to_bytes (sk_verifying_key sk)) <$> ks_primary self.
Definition default_keystore : SoftwareKeyStore := keystore_new.

#[global] Instance software_keystore : HsmProvider SoftwareKeyStore := {|
  generate_capability_seed := fun self seed =>
    match ks_primary self with
    | None => Ok seed
    | Some sk =>
        Ok (sha_finalize (sha_update (sha_update sha_new seed) (vk_to_bytes (sk_verifying_key sk))))
    end;
  sign := fun self payload =>
    match ks_primary self with
    | None => Err (CapabilityDenied "SoftwareKeyStore: no primary signing key configured")
    | Some sk => Ok (sk_sign sk payload)
    end;
  verify := fun self payload sig =>
    vk ← match ks_primary self with
         | None => Err (ManifestInvalid "SoftwareKeyStore: no primary key for verify")
         | Some sk => Ok (sk_verifying_key sk)
         end;
    verify_strict_or vk payload sig err_bad_signature;
|}.

Definition err_poisoned : Error := CapabilityDenied "SoftwareKeyStore: key store mutex poisoned".
Definition err_no_handle : Error := CapabilityDenied "SoftwareKeyStore: key handle not found".
Definition err_no_handle_rotate : Error :=
  CapabilityDenied "SoftwareKeyStore: key handle not found for rotation".
Definition err_cap_signature : Error :=
  ManifestInvalid "HSM capability signature verification failed".

(** [self.keys.lock().map_err(..)?]. *)
Definition lock (self : SoftwareKeyStore) : Result (gmap bytes signing_key) :=
  if ks_poisoned self then Err err_poisoned else Ok (ks_keys self).

Definition with_keys (self : SoftwareKeyStore) (keys : gmap bytes signing_key) : SoftwareKeyStore :=
  {| ks_primary := ks_primary self; ks_poisoned := ks_poisoned self; ks_keys := keys |}.

Definition ks_generate_keypair (self : SoftwareKeyStore) (seed : bytes)
    : SoftwareKeyStore * Result KeyHandle :=
  let sk := sk_from_bytes seed in
  let handle := key_digest (sk_verifying_key sk) in
  match lock self with
  | Err e => (self, Err e)
  | Ok keys => (with_keys self (<[handle := sk]> keys), Ok handle)
  end.

Definition ks_sign_capability (self : SoftwareKeyStore) (handle : KeyHandle) (payload : bytes)
    : Result bytes :=
  guard ← lock self;
  match guard !! handle with
  | None => Err err_no_handle
  | Some sk => Ok (sk_sign sk payload)
  end.

Definition ks_verify_capability_signature (self : SoftwareKeyStore) (handle : KeyHandle)
    (payload sig : bytes) : Result unit :=
  keys ← lock self;
  sk ← ok_or (keys !! handle) err_no_handle;
  verify_strict_or (sk_verifying_key sk) payload sig err_cap_signature.

(** The handles come in the arbitrary order of the hash map. *)
Definition ks_list_keys (self : SoftwareKeyStore) : Result (list KeyHandle) :=
  guard ← lock self; Ok (map_to_list guard).*1.

Definition ks_rotate_key (self : SoftwareKeyStore) (handle : KeyHandle) (seed : bytes)
    : SoftwareKeyStore * Result KeyHandle :=
  let new_key := sk_from_bytes seed in
  let new_handle := key_digest (sk_verifying_key new_key) in
  match lock self with
  | Err e => (self, Err e)
  | Ok guard =>
      if bool_decide (guard !! handle = None) then (self, Err err_no_handle_rotate)
      else (with_keys self (<[new_handle := new_key]> (delete handle guard)), Ok new_handle)
  end.

#[global] Instance keystore_management : KeyManagement SoftwareKeyStore := {|
  generate_keypair := ks_generate_keypair;
  sign_capability := ks_sign_capability;
  verify_capability_signature := ks_verify_capability_signature;
  list_keys := ks_list_keys;
  rotate_key := ks_rotate_key;
|}.

End providers.

(** [YubiHsmProvider] and [Pkcs11HsmProvider]: stubs that refuse everything. *)

Record YubiHsmProvider := mkYubi { yubi_connected : bool }.
Record Pkcs11HsmProvider := mkPkcs11 { pkcs11_library_path : option string }.

Definition yubi_new_stub : YubiHsmProvider := {| yubi_connected := false |}.
Definition pkcs11_new_stub (path : option string) : Pkcs11HsmProvider := {| pkcs11_library_path := path |}.

Definition yubi_detail : string :=
  "YubiHsmProvider: hardware not connected (stub implementation)".
Definition pkcs11_detail : string :=
  "Pkcs11HsmProvider: no PKCS#11 session open (stub implementation)".

#[global] Instance yubi_hsm : HsmProvider YubiHsmProvider := {|
  generate_capability_seed := fun _ _ => Err (CapabilityDenied yubi_detail);
  sign := fun _ _ => Err (CapabilityDenied yubi_detail);
  verify := fun _ _ _ => Err (ManifestInvalid yubi_detail);
|}.

#[global] Instance yubi_management : KeyManagement YubiHsmProvider := {|
  generate_keypair := fun self _ => (self, Err (CapabilityDenied yubi_detail));
  sign_capability := fun _ _ _ => Err (CapabilityDenied yubi_detail);
  verify_capability_signature := fun _ _ _ _ => Err (ManifestInvalid yubi_detail);
  list_keys := fun _ => Err (CapabilityDenied yubi_detail);
  rotate_key := fun self _ _ => (self, Err (CapabilityDenied yubi_detail));
|}.

#[global] Instance pkcs11_hsm : HsmProvider Pkcs11HsmProvider := {|
  generate_capability_seed := fun _ _ => Err (CapabilityDenied pkcs11_detail);
  sign := fun _ _ => Err (CapabilityDenied pkcs11_detail);
  verify := fun _ _ _ => Err (ManifestInvalid pkcs11_detail);
|}.

#[global] Instance pkcs11_management : KeyManagement Pkcs11HsmProvider := {|
  generate_keypair := fun self _ => (self, Err (CapabilityDenied pkcs11_detail));
  sign_capability := fun _ _ _ => Err (CapabilityDenied pkcs11_detail);
  verify_capability_signature := fun _ _ _ _ => Err (ManifestInvalid pkcs11_detail);
  list_keys := fun _ => Err (CapabilityDenied pkcs11_detail);
  rotate_key := fun self _ _ => (self, Err (CapabilityDenied pkcs11_detail));
|}.

(** ** The signing payload *)

Lemma cap_payload_length cap : length (cap_payload cap) = 28%nat.
Proof. unfold cap_payload. by rewrite !length_app, !to_le_bytes_length. Qed.

Lemma cap_payload_inj c c' : cap_ok c -> cap_ok c' -> cap_payload c = cap_payload c' -> c = c'.
Proof.
  intros [i1 t1 r1 g1 n1] [i2 t2 r2 g2 n2]. unfold cap_payload. intros He.
  apply app_inj_length in He as [Hi He]; [|by rewrite !to_le_bytes_length].
  apply app_inj_length in He as [Ht He]; [|by rewrite !to_le_bytes_length].
  apply app_inj_length in He as [Hr He]; [|by rewrite !to_le_bytes_length].
  apply app_inj_length in He as [Hg Hn]; [|by rewrite !to_le_bytes_length].
  unfold node_ok, rights_ok in *. unfold_width.
  apply to_le_bytes_inj in Hi, Ht, Hr, Hg, Hn; unfold issuer, target, rights_bits, generation_raw, nonce_raw;
    try lia.
  destruct c, c'; cbn in *. congruence.
Qed.

(** ** The providers honour the contract *)

Section facts.
Context `{SH : Sha256} `{ED : Ed25519} `{EL : !Ed25519Laws}.

(** What the two constructors of [SoftwareHsm] establish. *)
Definition software_ok (h : SoftwareHsm) : Prop :=
  forall sk, sh_signing_key h = Some sk -> sh_verifying_key h = sk_verifying_key sk.

Lemma from_signing_key_ok seed : software_ok (from_signing_key seed).
Proof. by intros sk [= <-]. Qed.

Lemma from_verifying_key_ok b h : from_verifying_key b = Ok h -> software_ok h.
Proof. unfold from_verifying_key. destruct (vk_from_bytes b); [|done]. by intros [= <-] sk. Qed.

Lemma verify_strict_or_Ok vk m s e : verify_strict_or vk m s e = Ok tt <-> vk_verify_strict vk m s = true.
Proof. unfold verify_strict_or. by destruct (vk_verify_strict vk m s). Qed.

#[global] Instance software_signing : HsmSigning software_ok.
Proof using EL.
  constructor; cbn.
  - intros h m s Hok. destruct (sh_signing_key h) as [sk|] eqn:E; [|done]. intros [= <-].
    rewrite (Hok sk E). split; [apply verify_strict_or_Ok, ed_sign_verify|apply ed_sign_length].
  - intros h m e. destruct (sh_signing_key h); [done|]. intros [= <-]. eauto.
  - intros h m s e. unfold verify_strict_or. case_match; [done|]. intros [= <-]. eexists. done.
Qed.

#[global] Instance keystore_signing : HsmSigning (H := SoftwareKeyStore) (fun _ => True).
Proof using EL.
  constructor; cbn.
  - intros h m s _. destruct (ks_primary h) as [sk|]; [|done]. intros [= <-]. cbn.
    split; [apply verify_strict_or_Ok, ed_sign_verify|apply ed_sign_length].
  - intros h m e. destruct (ks_primary h); [done|]. intros [= <-]. eauto.
  - intros h m s e. unfold verify_strict_or. destruct (ks_primary h); cbn; [case_match; [done|]|];
      intros [= <-]; eexists; done.
Qed.

(** The key a provider verifies with. *)
Definition software_key (h : SoftwareHsm) : option verifying_key := Some (sh_verifying_key h).
Definition keystore_key (h : SoftwareKeyStore) : option verifying_key := sk_verifying_key <$> ks_primary h.

Context `{SL : !Sha256Laws}.

#[global] Instance software_hsm_contract : HsmContract software_ok software_key.
Proof using EL SL.
  constructor; [apply _|..]; cbn.
  - intros h m s. rewrite verify_strict_or_Ok. unfold software_key. naive_solver.
  - intros h entropy seed _ [= <-]. apply sha_length.
  - done.
Qed.

#[global] Instance keystore_contract : HsmContract (H := SoftwareKeyStore) (fun _ => True) keystore_key.
Proof using EL SL.
  constructor; [apply _|..]; cbn.
  - intros h m s. unfold keystore_key. destruct (ks_primary h) as [sk|]; cbn; [rewrite verify_strict_or_Ok|]; naive_solver.
  - intros h entropy seed Hl. destruct (ks_primary h); intros [= <-]; [apply sha_length|done].
  - intros h entropy e. by destruct (ks_primary h).
Qed.

(** The key store's seeds for two draws of entropy. *)
Lemma keystore_seed_entropy (h : SoftwareKeyStore) e1 e2 :
  generate_capability_seed h e1 = generate_capability_seed h e2 ->
  e1 = e2 \/ exists vk, keystore_key h = Some vk /\ sha_collision (e1 ++ vk_to_bytes vk) (e2 ++ vk_to_bytes vk).
Proof using SL.
  cbn. unfold keystore_key. destruct (ks_primary h) as [sk|]; intros [= He]; [|by left].
  pose proof (fun e => sha_stream [e; vk_to_bytes (sk_verifying_key sk)]) as Hst. cbn in Hst. rewrite !Hst, app_nil_r in He.
  destruct (decide (e1 = e2)) as [->|Hne]; [by left|right]. eexists. split; [done|].
  split; [|done]. by intros ?%app_inv_tail.
Qed.

(** ** The key store over time *)

Inductive key_op :=
| GenerateKeypair (seed : bytes)
| RotateKey (handle : KeyHandle) (seed : bytes).

Definition key_step (s : SoftwareKeyStore) (o : key_op) : SoftwareKeyStore * Result KeyHandle :=
  match o with
  | GenerateKeypair seed => generate_keypair s seed
  | RotateKey handle seed => rotate_key s handle seed
  end.

Definition key_run (s : SoftwareKeyStore) (ops : list key_op) : SoftwareKeyStore :=
  foldl (fun s o => fst (key_step s o)) s ops.

(** Every key is stored under the digest of its verifying key. *)
Definition keys_wf (s : SoftwareKeyStore) : Prop :=
  map_Forall (fun h sk => h = key_digest (sk_verifying_key sk)) (ks_keys s).

Lemma key_step_wf s o : keys_wf s -> keys_wf (key_step s o).1.
Proof.
  intros Hw. destruct o as [seed|handle seed]; cbn;
    unfold ks_generate_keypair, ks_rotate_key, lock; destruct (ks_poisoned s); try done.
  - cbn. by apply map_Forall_insert_2.
  - case_bool_decide; [done|]. cbn. apply map_Forall_insert_2; [done|]. by apply map_Forall_delete.
Qed.

Lemma key_run_wf s ops : keys_wf s -> keys_wf (key_run s ops).
Proof. revert s. induction ops as [|o ops IH]; intros s Hw; [done|]. by apply IH, key_step_wf. Qed.

(** The steps that remove the key of [handle] or overwrite it. *)
Definition touches (handle : KeyHandle) (o : key_op) : Prop :=
  match o with
  | GenerateKeypair seed => key_digest (sk_verifying_key (sk_from_bytes seed)) = handle
  | RotateKey h seed => h = handle \/ key_digest (sk_verifying_key (sk_from_bytes seed)) = handle
  end.

Lemma key_step_frame s o handle :
  ~ touches handle o ->
  ks_keys (key_step s o).1 !! handle = ks_keys s !! handle /\
  ks_poisoned (key_step s o).1 = ks_poisoned s.
Proof.
  intros Ht. destruct o as [seed|h seed]; cbn in *;
    unfold ks_generate_keypair, ks_rotate_key, lock; destruct (ks_poisoned s) eqn:E; try done.
  - cbn. by rewrite lookup_insert_ne.
  - case_bool_decide; [done|]. cbn. rewrite lookup_insert_ne, lookup_delete_ne by tauto. done.
Qed.

Lemma key_run_frame s ops handle :
  Forall (fun o => ~ touches handle o) ops ->
  ks_keys (key_run s ops) !! handle = ks_keys s !! handle /\
  ks_poisoned (key_run s ops) = ks_poisoned s.
Proof.
  intros Hops. revert s. induction Hops as [|o ops Ho _ IH]; intros s; [done|].
  destruct (IH (key_step s o).1) as [Hk Hp]. destruct (key_step_frame s o handle Ho) as [Hk' Hp'].
  unfold key_run in *. cbn. by rewrite Hk, Hp.
Qed.

Lemma ks_verify_cases s handle m sig :
  ks_verify_capability_signature s handle m sig =
  if ks_poisoned s then Err err_poisoned
  else match ks_keys s !! handle with
       | None => Err err_no_handle
       | Some sk => verify_strict_or (sk_verifying_key sk) m sig err_cap_signature
       end.
Proof. unfold ks_verify_capability_signature, lock. destruct (ks_poisoned s); [done|]. cbn. by destruct (_ !! _). Qed.

Lemma ks_sign_Ok s handle m sig :
  ks_sign_capability s handle m = Ok sig <->
  ks_poisoned s = false /\ exists sk, ks_keys s !! handle = Some sk /\ sig = sk_sign sk m.
Proof.
  unfold ks_sign_capability, lock. destruct (ks_poisoned s); cbn; [naive_solver|].
  destruct (ks_keys s !! handle); naive_solver.
Qed.


(** C38: A signed capability keeps verifying against the key store through any generations
    and rotations that leave its key in place, and the signature covers the whole token:
    if it also verified for a different token under the same handle, the store's key would
    accept one signature for two different messages. *)
Theorem signed_capability_bound s cap handle sc ops cap' :
  signed_sign cap handle s = Ok sc -> Forall (fun o => ~ touches handle o) ops ->
  cap_ok cap -> cap_ok cap' ->
  let s' := key_run s ops in
  signed_verify sc s' = Ok tt /\
  (signed_verify (mkSigned cap' handle (sc_signature sc)) s' = Ok tt -> cap' <> cap ->
   exists sk m m', ks_keys s' !! handle = Some sk /\ m <> m' /\
     vk_verify_strict (sk_verifying_key sk) m (sc_signature sc) = true /\
     vk_verify_strict (sk_verifying_key sk) m' (sc_signature sc) = true).
Proof using EL.
  unfold signed_sign, signed_verify. cbn [sign_capability verify_capability_signature keystore_management].
  intros Hs Hops Hc Hc'. set (s' := key_run s ops).
  destruct (ks_sign_capability s handle (cap_payload cap)) as [sig|] eqn:E; [|done].
  injection Hs as <-. apply ks_sign_Ok in E as (Hp & sk & Hk & ->).
  destruct (key_run_frame s ops handle Hops) as [Hk' Hp']. fold s' in Hk', Hp'.
  rewrite !ks_verify_cases. cbn. rewrite Hp', Hp, Hk', Hk. split.
  - apply verify_strict_or_Ok, ed_sign_verify.
  - intros Hv Hne. exists sk, (cap_payload cap), (cap_payload cap'). split; [done|]. split.
    + intros Heq. apply Hne. symmetry. by apply cap_payload_inj.
    + split; [apply ed_sign_verify|by eapply verify_strict_or_Ok].
Qed.

(** Rotation invalidates the old handle.  After [rotate_key], unless the fresh key
    happens to have the same digest, nothing can be signed or verified under the old
    handle, through any later operations that do not generate a key with that digest, and
    the new handle signs and verifies. *)
Theorem rotation_invalidates_handle s handle seed s' handle' ops m sig :
  rotate_key s handle seed = (s', Ok handle') -> handle' <> handle ->
  Forall (fun o => ~ touches handle o) ops ->
  let s2 := key_run s' ops in
  sign_capability s2 handle m = Err err_no_handle /\
  verify_capability_signature s2 handle m sig = Err err_no_handle /\
  exists sig', sign_capability s' handle' m = Ok sig' /\
               verify_capability_signature s' handle' m sig' = Ok tt.
Proof using EL.
  cbn. unfold ks_rotate_key, lock. destruct (ks_poisoned s) eqn:Hp; [done|].
  case_bool_decide as Hn; [done|]. intros [= <- <-] Hne Hops.
  set (s' := with_keys _ _). set (s2 := key_run s' ops).
  destruct (key_run_frame s' ops handle Hops) as [Hk' Hp']. fold s2 in Hk', Hp'.
  assert (ks_keys s2 !! handle = None) as Hk.
  { rewrite Hk'. cbn. by rewrite lookup_insert_ne, lookup_delete_eq. }
  assert (ks_poisoned s2 = false) as Hp2 by by rewrite Hp'.
  rewrite !ks_verify_cases, Hp2, Hk. unfold ks_sign_capability, lock. rewrite Hp2. cbn. rewrite Hk.
  split; [done|]. split; [done|]. rewrite Hp. cbn. rewrite lookup_insert_eq.
  eexists. split; [done|]. rewrite ks_verify_cases. cbn. rewrite Hp, lookup_insert_eq.
  apply verify_strict_or_Ok, ed_sign_verify.
Qed.

End facts.

(** ** Witnesses *)

Module Witness.
#[local] Existing Instance ByteModel.toy_sha.
#[local] Existing Instance ByteModel.toy_sha_laws.
#[local] Existing Instance ByteModel.toy_ed.
#[local] Existing Instance ByteModel.toy_ed_laws.


Definition seed0 : bytes := [1].
Definition handle0 : KeyHandle := key_digest (sk_verifying_key (sk_from_bytes seed0)).
Definition store0 : SoftwareKeyStore := key_run keystore_new [GenerateKeypair seed0].
Definition cap0 : Capability := mkCap 1 2 SCHEDULE 5 100.
Definition signed0 : HsmSignedCapability := mkSigned cap0 handle0 (sk_sign seed0 (cap_payload cap0)).

Lemma sign0 : signed_sign cap0 handle0 store0 = Ok signed0.
Proof. vm_compute. reflexivity. Qed.

Lemma untouched0 : ~ touches handle0 (GenerateKeypair [9]).
Proof. vm_compute. discriminate. Qed.

Lemma cap0_ok : cap_ok cap0.
Proof. constructor; ground. Qed.

Lemma signed_capability_bound_witness :
  signed_verify signed0 (key_run store0 [GenerateKeypair [9]]) = Ok tt.
Proof.
  apply (signed_capability_bound store0 cap0 handle0 signed0 _ cap0 sign0);
    [|exact cap0_ok|exact cap0_ok].
  constructor; [exact untouched0|constructor].
Defined.

Definition handle1 : KeyHandle := key_digest (sk_verifying_key (sk_from_bytes [9])).
Definition rotated0 : SoftwareKeyStore := (rotate_key store0 handle0 [9]).1.

Lemma rotate0 : rotate_key store0 handle0 [9] = (rotated0, Ok handle1).
Proof.
  rewrite (surjective_pairing (rotate_key store0 handle0 [9])). apply (f_equal (pair rotated0)).
  vm_compute. reflexivity.
Qed.

Lemma handle1_fresh : handle1 <> handle0.
Proof. vm_compute. discriminate. Qed.

Lemma rotation_invalidates_handle_witness :
  sign_capability (key_run rotated0 []) handle0 [7] = Err err_no_handle.
Proof.
  apply (rotation_invalidates_handle store0 handle0 [9] rotated0 handle1 [] [7] [] rotate0 handle1_fresh).
  constructor.
Defined.

End Witness.
