(* ===== verification/Tpm.v ===== *)
(** * Trusted platform module and boot attestation

    Models [src/tpm/]: the trait [TpmProvider] as a type class, [NullTpm] ([mod.rs]), the
    24-register software TPM ([mock.rs]), the hardware stub ([tss.rs]) and
    [BootAttestation] ([attestation.rs]).

    The theorems say what a verified quote proves.  The digest is a parameter, so they are
    reductions: a quote that verifies against a register with another history exhibits a
    SHA-256 collision, or an input whose digest is the all-zero register. *)
From S2P Require Import Prelude Crypto Types.
From stdpp Require Import base tactics list numbers option strings.
Open Scope Z_scope.

(** ** Definitions *)

(** [struct TpmQuote(pub \[u8; 64\])]. *)
Definition TpmQuote : Type := bytes.

Definition as_bytes (q : TpmQuote) : bytes := q.

Definition is_null (q : TpmQuote) : bool := bool_decide (q = replicate 64 0).

(** [trait TpmProvider]; [extend_pcr] takes [&mut self]. *)
Class TpmProvider (T : Type) := {
  extend_pcr : T -> Z -> bytes -> T * Result unit;
  quote : T -> Z -> bytes -> Result TpmQuote;
  read_pcr : T -> Z -> Result bytes;
  verify_quote : T -> Z -> bytes -> TpmQuote -> Result unit;
}.

(** What a verifier relies on: a quote verifies in the state that produced it. *)
Class TpmContract {T} `{TP : TpmProvider T} : Prop := {
  tpm_quote_verifies : forall t i n q, length n = 32%nat -> quote t i n = Ok q ->
    verify_quote t i n q = Ok tt;
}.

(** [NullTpm] *)

Inductive NullTpm := mkNullTpm.

#[global] Instance null_tpm : TpmProvider NullTpm := {|
  extend_pcr := fun self _ _ => (self, Ok tt);
  quote := fun _ _ _ => Ok (replicate 64 0);
  read_pcr := fun _ _ => Ok (replicate 32 0);
  verify_quote := fun _ _ _ q =>
    if is_null q then Ok tt
    else Err (ManifestInvalid "NullTpm: non-null quote cannot be verified");
|}.

(** [TssTpmProvider] *)

Record TssTpmProvider := mkTss { tss_connected : bool }.

Definition tss_new_stub : TssTpmProvider := {| tss_connected := false |}.

Definition err_tss : Error :=
  ManifestInvalid "TssTpmProvider: hardware not connected (stub implementation)".

#[global] Instance tss_tpm : TpmProvider TssTpmProvider := {|
  extend_pcr := fun self _ _ => (self, Err err_tss);
  quote := fun _ _ _ => Err err_tss;
  read_pcr := fun _ _ => Err err_tss;
  verify_quote := fun _ _ _ _ => Err err_tss;
|}.

(** [SoftwareTpm] *)

Definition PCR_COUNT : nat := 24.
#[global] Arguments PCR_COUNT : simpl never.

Record SoftwareTpm := mkSoftwareTpm { pcrs : list bytes }.

Definition zero_pcr : bytes := replicate 32 0.

Definition tpm_new : SoftwareTpm := {| pcrs := replicate PCR_COUNT zero_pcr |}.
Definition default_tpm : SoftwareTpm := tpm_new.

Definition pcr_value (self : SoftwareTpm) (index : nat) : option bytes := pcrs self !! index.

(** [self.pcrs\[idx\]] after the range check. *)
Definition pcr_at (self : SoftwareTpm) (idx : nat) : bytes := default zero_pcr (pcrs self !! idx).

Definition err_pcr_range : Error := ManifestInvalid "TPM PCR index out of range".
Definition err_quote : Error :=
  ManifestInvalid "TPM quote verification failed: PCR value or signature mismatch".

(** The prologue of every method: [idx >= PCR_COUNT] is an error. *)
Definition pcr_idx (pcr_index : Z) : Result nat :=
  let idx := Z.to_nat pcr_index in
  if decide (PCR_COUNT <= idx)%nat then Err err_pcr_range else Ok idx.

Section software.
Context `{SH : Sha256}.

(** [h.update(a); h.update(b); h.finalize()] on a new hasher. *)
Definition hash2 (a b : bytes) : bytes := sha_finalize (sha_update (sha_update sha_new a) b).

Definition sw_extend_pcr (self : SoftwareTpm) (pcr_index : Z) (data : bytes)
    : SoftwareTpm * Result unit :=
  match pcr_idx pcr_index with
  | Err e => (self, Err e)
  | Ok idx => ({| pcrs := <[idx := hash2 (pcr_at self idx) data]> (pcrs self) |}, Ok tt)
  end.

Definition sw_quote (self : SoftwareTpm) (pcr_index : Z) (nonce : bytes) : Result TpmQuote :=
  idx ← pcr_idx pcr_index;
  let pcr_value := pcr_at self idx in
  let signed := hash2 pcr_value nonce in
  Ok (pcr_value ++ signed).

Definition sw_read_pcr (self : SoftwareTpm) (pcr_index : Z) : Result bytes :=
  idx ← pcr_idx pcr_index; Ok (pcr_at self idx).

Definition sw_verify_quote (self : SoftwareTpm) (pcr_index : Z) (nonce : bytes) (q : TpmQuote)
    : Result unit :=
  idx ← pcr_idx pcr_index;
  let pcr_value := pcr_at self idx in
  let expected_signed := hash2 pcr_value nonce in
  if bool_decide (take 32 q = pcr_value) && bool_decide (drop 32 q = expected_signed)
  then Ok tt else Err err_quote.

#[global] Instance software_tpm : TpmProvider SoftwareTpm := {|
  extend_pcr := sw_extend_pcr;
  quote := sw_quote;
  read_pcr := sw_read_pcr;
  verify_quote := sw_verify_quote;
|}.

End software.

(** [BootAttestation] *)

Record BootAttestation := mkAttestation {
  ba_manifest_hash : bytes;
  ba_pcr_index : Z;
  ba_nonce : bytes;
  ba_quote : TpmQuote;
}.

Definition attestation_new (manifest_hash : bytes) (pcr_index : Z) (nonce : bytes) (q : TpmQuote)
    : BootAttestation :=
  {| ba_manifest_hash := manifest_hash; ba_pcr_index := pcr_index; ba_nonce := nonce; ba_quote := q |}.

Definition att_manifest_hash (self : BootAttestation) : bytes := ba_manifest_hash self.
Definition att_pcr_index (self : BootAttestation) : Z := ba_pcr_index self.
Definition att_nonce (self : BootAttestation) : bytes := ba_nonce self.
Definition att_quote (self : BootAttestation) : TpmQuote := ba_quote self.

Definition attestation_verify {T} `{TP : TpmProvider T} (self : BootAttestation) (tpm : T)
    : Result unit :=
  verify_quote tpm (ba_pcr_index self) (ba_nonce self) (ba_quote self).

(** ** The register bank *)

Section facts.
Context `{SH : Sha256} `{SL : !Sha256Laws}.
Implicit Types (t : SoftwareTpm) (i : Z).

(** 24 registers of 32 bytes. *)
Definition tpm_wf t : Prop :=
  length (pcrs t) = PCR_COUNT /\ Forall (fun p => length p = 32%nat) (pcrs t).

Lemma tpm_new_wf : tpm_wf tpm_new.
Proof. split; cbn; [by rewrite length_replicate|]. by apply Forall_replicate. Qed.

Lemma hash2_digest a b : hash2 a b = digest (a ++ b).
Proof using SL. unfold hash2. pose proof (sha_stream [a; b]) as H. cbn in H. by rewrite app_nil_r in H. Qed.

Lemma hash2_length a b : length (hash2 a b) = 32%nat.
Proof using SL. apply sha_length. Qed.

Lemma pcr_idx_cases i :
  (i < Z.of_nat PCR_COUNT /\ pcr_idx i = Ok (Z.to_nat i)) \/
  (Z.of_nat PCR_COUNT <= i /\ pcr_idx i = Err err_pcr_range).
Proof.
  unfold pcr_idx. assert (PCR_COUNT = 24%nat) by done.
  case_decide; [right|left]; (split; [lia|done]).
Qed.

Lemma pcr_at_length t idx : tpm_wf t -> length (pcr_at t idx) = 32%nat.
Proof.
  intros [_ Hf]. unfold pcr_at. destruct (pcrs t !! idx) eqn:E; cbn; [|done].
  by apply (Forall_lookup_1 _ _ _ _ Hf E).
Qed.

Lemma extend_wf t i data : tpm_wf t -> tpm_wf (extend_pcr t i data).1.
Proof using SL.
  intros [Hl Hf]. cbn. unfold sw_extend_pcr. destruct (pcr_idx i); cbn; [|done].
  split; cbn; [by rewrite length_insert|]. apply Forall_insert; [done|]. apply hash2_length.
Qed.

(** Extending one register a number of times. *)
Definition extend_all t i (ms : list bytes) : SoftwareTpm :=
  foldl (fun t m => (extend_pcr t i m).1) t ms.

Lemma extend_all_wf t i ms : tpm_wf t -> tpm_wf (extend_all t i ms).
Proof using SL. revert t. induction ms as [|m ms IH]; intros t Hw; [done|]. by apply IH, extend_wf. Qed.

Lemma extend_pcr_at t i data :
  tpm_wf t -> 0 <= i < Z.of_nat PCR_COUNT ->
  pcr_at (extend_pcr t i data).1 (Z.to_nat i) = hash2 (pcr_at t (Z.to_nat i)) data.
Proof.
  intros [Hl _] Hi. cbn. unfold sw_extend_pcr. destruct (pcr_idx_cases i) as [[_ ->]|[? _]]; [|lia].
  cbn. unfold pcr_at at 1. cbn. rewrite list_lookup_insert_eq; [done|]. rewrite Hl. lia.
Qed.

(** The value of a register is a hash chain over what it was extended with. *)
Lemma extend_all_pcr t i ms :
  tpm_wf t -> 0 <= i < Z.of_nat PCR_COUNT ->
  pcr_at (extend_all t i ms) (Z.to_nat i) = foldl hash2 (pcr_at t (Z.to_nat i)) ms.
Proof using SL.
  revert t. induction ms as [|m ms IH]; intros t Hw Hi; [done|].
  change (extend_all t i (m :: ms)) with (extend_all (extend_pcr t i m).1 i ms).
  rewrite IH, extend_pcr_at by (done || by apply extend_wf). done.
Qed.

(** ** The hash chain *)

(** What extending a register from [p] with [ms] hashes, in order. *)
Fixpoint extended (p : bytes) (ms : list bytes) : list bytes :=
  match ms with
  | [] => []
  | m :: ms' => (p ++ m) :: extended (hash2 p m) ms'
  end.

Lemma extended_length p ms : length (extended p ms) = length ms.
Proof. revert p. induction ms as [|m ms IH]; intros p; cbn; [done|]. by rewrite IH. Qed.

Lemma extended_snoc p ms m : extended p (ms ++ [m]) = extended p ms ++ [foldl hash2 p ms ++ m].
Proof. revert p. induction ms as [|x ms IH]; intros p; [done|]. cbn. by rewrite IH. Qed.

Lemma hash2_inj a b c d :
  length a = 32%nat -> length c = 32%nat -> hash2 a b = hash2 c d ->
  (a = c /\ b = d) \/ sha_collision (a ++ b) (c ++ d).
Proof using SL.
  intros Ha Hc. rewrite !hash2_digest. intros He.
  destruct (decide (a ++ b = c ++ d)) as [Heq|Hne]; [|by right].
  left. apply app_inj_length in Heq; [done|congruence].
Qed.

Lemma chain_length p ms : length p = 32%nat -> length (foldl hash2 p ms) = 32%nat.
Proof using SL. revert p. induction ms as [|m ms IH]; intros p Hp; [done|]. apply IH, hash2_length. Qed.

(** Registers extended equally often. *)
Lemma chain_inj ms ms' :
  length ms = length ms' -> foldl hash2 zero_pcr ms = foldl hash2 zero_pcr ms' ->
  ms = ms' \/ collide (extended zero_pcr ms) (extended zero_pcr ms').
Proof using SL.
  revert ms'. induction ms as [|m ms IH] using rev_ind; intros ms' Hl Heq.
  { left. by destruct ms'. }
  destruct ms' as [|m' ms' _] using rev_ind; rewrite !length_app in Hl; cbn in Hl; [lia|].
  rewrite !foldl_app in Heq. cbn in Heq.
  apply hash2_inj in Heq as [[Heq ->]|Hc]; [| |by apply chain_length..].
  - destruct (IH ms' ltac:(lia) Heq) as [->|(i & x & y & Hx & Hy & Hc)]; [by left|right].
    exists i, x, y. rewrite !extended_snoc. by rewrite (lookup_app_l_Some _ _ _ _ Hx), (lookup_app_l_Some _ _ _ _ Hy).
  - right. eexists (length ms), _, _. rewrite !extended_snoc.
    split; [apply list_lookup_middle; by rewrite extended_length|].
    split; [apply list_lookup_middle; rewrite extended_length; lia|exact Hc].
Qed.

(** ** Quotes *)

Lemma sw_verify_Ok t i n q idx :
  pcr_idx i = Ok idx -> tpm_wf t ->
  verify_quote t i n q = Ok tt <-> q = pcr_at t idx ++ hash2 (pcr_at t idx) n.
Proof.
  intros Hi Hw. cbn. unfold sw_verify_quote. rewrite Hi. cbn.
  pose proof (pcr_at_length t idx Hw) as Hl. split.
  - destruct (bool_decide _) eqn:E1; [|done]. cbn. destruct (bool_decide (drop _ _ = _)) eqn:E2; [|done].
    apply bool_decide_eq_true in E1, E2. intros _. rewrite <- E2, <- E1 at 1. by rewrite take_drop.
  - intros ->. rewrite take_app_length', drop_app_length' by done. by rewrite !bool_decide_true.
Qed.

#[global] Instance null_tpm_contract : TpmContract (T := NullTpm).
Proof. constructor. cbn. by intros t i n q _ [= <-]. Qed.

#[global] Instance tss_tpm_contract : TpmContract (T := TssTpmProvider).
Proof. by constructor. Qed.

(** The value a register of a fresh TPM has after [ms]. *)
Lemma extend_all_new i ms :
  0 <= i < Z.of_nat PCR_COUNT -> pcr_at (extend_all tpm_new i ms) (Z.to_nat i) = foldl hash2 zero_pcr ms.
Proof using SL.
  intros Hi. rewrite extend_all_pcr by (done || apply tpm_new_wf). f_equal.
  unfold pcr_at. cbn. by rewrite lookup_replicate_2 by lia.
Qed.

(** A quote of one register verifies against another TPM exactly when the registers agree
    and the signed parts do. *)
Lemma quote_accepted i ms ms' n n' q :
  0 <= i < Z.of_nat PCR_COUNT -> quote (extend_all tpm_new i ms) i n = Ok q ->
  let p := foldl hash2 zero_pcr ms in
  verify_quote (extend_all tpm_new i ms') i n' q = Ok tt <->
  p = foldl hash2 zero_pcr ms' /\ digest (p ++ n) = digest (p ++ n').
Proof using SL.
  intros Hi. destruct (pcr_idx_cases i) as [[_ He]|[? _]]; [|lia].
  cbn -[verify_quote zero_pcr]. unfold sw_quote. rewrite He. cbn -[verify_quote zero_pcr]. intros [= <-].
  rewrite sw_verify_Ok by (done || apply extend_all_wf, tpm_new_wf). rewrite !extend_all_new, !hash2_digest by done.
  split.
  - intros Heq. apply app_inj_length in Heq as [Hp Hs]; [by rewrite <- Hp in Hs|]. by rewrite !chain_length.
  - by intros [<- <-].
Qed.

(** What a verified quote proves.  A quote taken after extending a register of a fresh
    software TPM with [ms] verifies in the state that produced it.  If it verifies for the
    challenge [n'] against a fresh TPM whose register was extended as often, with [ms'],
    then the measurements are the same and so are the challenges, unless SHA-256 collides
    on what the two registers or the two quotes hash. *)
Theorem quote_binds_history i ms ms' n n' q :
  0 <= i < Z.of_nat PCR_COUNT -> length ms = length ms' ->
  quote (extend_all tpm_new i ms) i n = Ok q ->
  verify_quote (extend_all tpm_new i ms) i n q = Ok tt /\
  (verify_quote (extend_all tpm_new i ms') i n' q = Ok tt ->
   (ms = ms' \/ collide (extended zero_pcr ms) (extended zero_pcr ms')) /\
   (n = n' \/ sha_collision (foldl hash2 zero_pcr ms ++ n) (foldl hash2 zero_pcr ms ++ n'))).
Proof using SL.
  intros Hi Hl Hq. pose proof (quote_accepted i ms ms n n q Hi Hq) as H. cbn zeta in H.
  split; [by apply H|]. rewrite (quote_accepted i ms ms' n n' q Hi Hq). intros [Hp Hn].
  split; [by apply chain_inj|]. destruct (decide (n = n')) as [->|Hne]; [by left|right].
  split; [|done]. intros ?%app_inv_head. done.
Qed.

(** The manifest hash an attestation carries plays no part in its verification: the module
    documentation calls the attestation a proof that a specific manifest was booted, but
    [verify] accepts it with any hash. *)
Theorem attestation_hash_unbound {T} `{TP : TpmProvider T} (a : BootAttestation) (h : bytes) (t : T) :
  attestation_verify (attestation_new h (ba_pcr_index a) (ba_nonce a) (ba_quote a)) t =
  attestation_verify a t.
Proof. done. Qed.

End facts.

(** ** Witnesses *)

Module Witness.
#[local] Existing Instance ByteModel.toy_sha.
#[local] Existing Instance ByteModel.toy_sha_laws.

Definition quote0 : bytes :=
  let p := pcr_at (extend_all tpm_new 0 [[7; 8]]) 0 in p ++ hash2 p (replicate 32 1).

Lemma quote_binds_history_witness :
  verify_quote (extend_all tpm_new 0 [[7; 8]]) 0 (replicate 32 1) quote0 = Ok tt.
Proof. apply (quote_binds_history 0 [[7; 8]] [[9]] _ [] quote0); [split; [lia|reflexivity]|reflexivity|reflexivity]. Defined.

End Witness.
