(* ===== verification/Manifest.v ===== *)
(** * Boot manifest: credentials, wire format and decoder

    Models [src/boot/manifest.rs], [src/boot/credentials.rs] and [src/boot/decode.rs].  The
    wire format is a 64-byte Ed25519 signature followed by a CBOR payload; the decoder
    verifies the signature over the payload before it parses anything.

    The theorems: what a decoded manifest guarantees, that a bad signature is rejected
    whatever the payload, and the round trip with a reference encoder of the documented
    payload format. *)
From S2P Require Import Prelude Heapless Crypto Types Capability Hsm.
From stdpp Require Import base tactics list numbers option strings.
Open Scope Z_scope.

(** ** The manifest *)

Record EdgeDecl := mkEdge { ed_src : NodeId; ed_dst : NodeId }.
Record QuotaDecl := mkQuotaDecl { qd_node : NodeId; qd_ceiling : Quota }.

#[global] Instance EdgeDecl_eq_dec : EqDecision EdgeDecl.
Proof. solve_decision. Defined.

Section manifest.
Context `{HV : HVec}.

Record Manifest := mkManifest {
  m_edges : hvec MAX_EDGES EdgeDecl;
  m_quotas : hvec MAX_NODES QuotaDecl;
  m_version : Z;
}.

(** The unwired constructor: every input is an error. *)
Definition parse_and_verify (b : bytes) : Result Manifest :=
  if bool_decide (b = []) then Err (ManifestInvalid "zero-length manifest")
  else Err (ManifestInvalid "parser not yet wired (stub)").

Definition permits_edge (self : Manifest) (src dst : NodeId) : bool :=
  existsb (fun e => (ed_src e =? src) && (ed_dst e =? dst)) (hv_slice (m_edges self)).

Definition quota_for (self : Manifest) (node : NodeId) : option Quota :=
  (fun x => qd_ceiling x.2) <$> list_find (fun q => qd_node q = node) (hv_slice (m_quotas self)).

Definition version (self : Manifest) : Z := m_version self.

End manifest.

(** ** Credentials *)

Record BootCredentials (H : Type) := mkCreds { bc_hsm : H }.
Arguments mkCreds {H} bc_hsm.
Arguments bc_hsm {H} b.

Section credentials.
Context {H : Type} `{HP : HsmProvider H}.

Definition creds_new (hsm : H) : BootCredentials H := {| bc_hsm := hsm |}.

Definition creds_verify (self : BootCredentials H) (message signature_bytes : bytes) : Result unit :=
  verify (bc_hsm self) message signature_bytes.

Definition creds_generate_capability_seed (self : BootCredentials H) (entropy : bytes) : Result bytes :=
  generate_capability_seed (bc_hsm self) entropy.

End credentials.

Definition from_key_bytes `{SH : Sha256} `{ED : Ed25519} (b : bytes)
    : Result (BootCredentials SoftwareHsm) :=
  hsm ← from_verifying_key b; Ok {| bc_hsm := hsm |}.

Definition key_bytes `{SH : Sha256} `{ED : Ed25519} (self : BootCredentials SoftwareHsm) : bytes :=
  verifying_key_bytes (bc_hsm self).

(** ** The decoder *)

Definition MIN_WIRE_LEN : nat := 65.
Definition SIG_LEN : nat := 64.

Definition err_manifest (detail : string) : Error := ManifestInvalid detail.

Section decode.
Context `{HV : HVec} `{DE : Decoder}.

(** [for _ in 0..len] in [parse_edges], from the loop state [(edges, d)]. *)
Fixpoint edges_loop (len : nat) (edges : hvec MAX_EDGES EdgeDecl) (d : decoder)
    : Result (hvec MAX_EDGES EdgeDecl * decoder) :=
  match len with
  | O => Ok (edges, d)
  | S len' =>
      '(edge_len, d) ← ok_or (dec_array d) (err_manifest "edge is not a CBOR array");
      if negb (bool_decide (edge_len = Some 2)) then
        Err (err_manifest "each edge must be [src, dst]")
      else
        '(src_raw, d) ← ok_or (dec_u32 d) (err_manifest "edge src is not uint32");
        '(dst_raw, d) ← ok_or (dec_u32 d) (err_manifest "edge dst is not uint32");
        src ← ok_or (NonZeroU32_new src_raw) (err_manifest "edge src must be non-zero");
        dst ← ok_or (NonZeroU32_new dst_raw) (err_manifest "edge dst must be non-zero");
        edges ← ok_or (hv_push edges {| ed_src := src; ed_dst := dst |})
                  (err_manifest "edge list capacity exceeded");
        edges_loop len' edges d
  end.

Definition parse_edges (d : decoder) : Result (hvec MAX_EDGES EdgeDecl * decoder) :=
  '(arr, d) ← ok_or (dec_array d) (err_manifest "edges is not a CBOR array");
  len ← ok_or arr (err_manifest "edges array must have definite length");
  if Z.of_nat MAX_EDGES <? len then Err (err_manifest "too many edges")
  else edges_loop (Z.to_nat len) hv_new d.

Fixpoint quotas_loop (len : nat) (quotas : hvec MAX_NODES QuotaDecl) (d : decoder)
    : Result (hvec MAX_NODES QuotaDecl * decoder) :=
  match len with
  | O => Ok (quotas, d)
  | S len' =>
      '(q_len, d) ← ok_or (dec_array d) (err_manifest "quota entry is not a CBOR array");
      if negb (bool_decide (q_len = Some 2)) then
        Err (err_manifest "each quota must be [node, ceiling]")
      else
        '(node_raw, d) ← ok_or (dec_u32 d) (err_manifest "quota node is not uint32");
        '(ceiling_raw, d) ← ok_or (dec_u64 d) (err_manifest "quota ceiling is not uint64");
        node ← ok_or (NonZeroU32_new node_raw) (err_manifest "quota node must be non-zero");
        quotas ← ok_or (hv_push quotas {| qd_node := node; qd_ceiling := Quota_new ceiling_raw |})
                   (err_manifest "quota list capacity exceeded");
        quotas_loop len' quotas d
  end.

Definition parse_quotas (d : decoder) : Result (hvec MAX_NODES QuotaDecl * decoder) :=
  '(arr, d) ← ok_or (dec_array d) (err_manifest "quotas is not a CBOR array");
  len ← ok_or arr (err_manifest "quotas array must have definite length");
  if Z.of_nat MAX_NODES <? len then Err (err_manifest "too many quota entries")
  else quotas_loop (Z.to_nat len) hv_new d.

Definition parse_cbor (payload : bytes) : Result Manifest :=
  let d := dec_new payload in
  '(outer_len, d) ← ok_or (dec_array d) (err_manifest "payload is not a CBOR array");
  if negb (bool_decide (outer_len = Some 3)) then
    Err (err_manifest "expected 3-element array [version, edges, quotas]")
  else
    '(ver, d) ← ok_or (dec_u32 d) (err_manifest "version is not a uint32");
    '(edges, d) ← parse_edges d;
    '(quotas, d) ← parse_quotas d;
    Ok {| m_edges := edges; m_quotas := quotas; m_version := ver |}.

(** The conversion of the 64-byte slice to an array cannot fail. *)
Definition decode {H} `{HP : HsmProvider H} (b : bytes) (credentials : BootCredentials H)
    : Result Manifest :=
  if decide (length b < MIN_WIRE_LEN)%nat then
    Err (err_manifest "wire format too short (minimum 65 bytes)")
  else
    let sig_slice := take SIG_LEN b in
    let payload := drop SIG_LEN b in
    _ ← creds_verify credentials payload sig_slice;
    parse_cbor payload.

End decode.

(** ** The documented payload format *)

Definition encode_edge (e : EdgeDecl) : bytes :=
  cbor_array 2 ++ cbor_uint (ed_src e) ++ cbor_uint (ed_dst e).

Definition encode_quota (q : QuotaDecl) : bytes :=
  cbor_array 2 ++ cbor_uint (qd_node q) ++ cbor_uint (Quota_get (qd_ceiling q)).

Definition encode_payload (ver : Z) (edges : list EdgeDecl) (quotas : list QuotaDecl) : bytes :=
  cbor_array 3 ++ cbor_uint ver ++
  cbor_array (Z.of_nat (length edges)) ++ concat (encode_edge <$> edges) ++
  cbor_array (Z.of_nat (length quotas)) ++ concat (encode_quota <$> quotas).

(** ** What a manifest guarantees *)

Definition edge_ok (e : EdgeDecl) : Prop := node_ok (ed_src e) /\ node_ok (ed_dst e).
Definition quota_ok (q : QuotaDecl) : Prop := node_ok (qd_node q) /\ in_u64 (Quota_get (qd_ceiling q)).

Section facts.
Context `{HV : HVec} `{HL : !HVecLaws} `{DE : Decoder} `{DL : !DecoderLaws}.

Record manifest_ok (m : Manifest) : Prop := {
  mok_edges : Forall edge_ok (hv_slice (m_edges m));
  mok_edges_len : (hv_len (m_edges m) <= MAX_EDGES)%nat;
  mok_quotas : Forall quota_ok (hv_slice (m_quotas m));
  mok_quotas_len : (hv_len (m_quotas m) <= MAX_NODES)%nat;
  mok_version : in_u32 (m_version m);
}.

Lemma permits_edge_true m s d :
  permits_edge m s d = true <-> {| ed_src := s; ed_dst := d |} ∈ hv_slice (m_edges m).
Proof.
  unfold permits_edge. rewrite existsb_exists. setoid_rewrite andb_true_iff. setoid_rewrite Z.eqb_eq.
  rewrite list_elem_of_In. split.
  - intros ([s' d'] & Hi & Hs & Hd). cbn in *. by subst.
  - intros Hi. eexists. split; [exact Hi|done].
Qed.

Lemma nonzero_node x n (e : Error) : in_u32 x -> ok_or (NonZeroU32_new x) e = Ok n -> node_ok n.
Proof. intros Hx Hn%ok_or_Ok. by apply (NonZeroU32_new_ok x n). Qed.

Lemma push_Forall {N A} (P : A -> Prop) (v v' : hvec N A) x :
  hv_push v x = Some v' -> Forall P (hv_slice v) -> P x ->
  Forall P (hv_slice v') /\ hv_len v' = S (hv_len v) /\ (hv_len v' <= N)%nat.
Proof using HL.
  intros [Hs Hl]%hv_push_Some Hf Hx. unfold hv_len in *.
  rewrite Hs, length_app, Forall_snoc. cbn. split; [done|lia].
Qed.

Lemma edges_loop_ok n : forall v d v' d',
  edges_loop n v d = Ok (v', d') -> Forall edge_ok (hv_slice v) -> (hv_len v <= MAX_EDGES)%nat ->
  Forall edge_ok (hv_slice v') /\ (hv_len v' <= MAX_EDGES)%nat.
Proof using HL DL.
  induction n as [|n IH]; intros v d v' d' H Hf Hl; cbn [edges_loop] in H.
  - by injection H as <- <-.
  - apply bind_Ok in H as ([len d1] & _ & H). case_match; [done|].
    apply bind_Ok in H as ([s d2] & Hs & H). apply ok_or_Ok, dec_u32_range in Hs.
    apply bind_Ok in H as ([t d3] & Ht & H). apply ok_or_Ok, dec_u32_range in Ht.
    apply bind_Ok in H as (s' & Hs' & H). apply nonzero_node in Hs'; [|done].
    apply bind_Ok in H as (t' & Ht' & H). apply nonzero_node in Ht'; [|done].
    apply bind_Ok in H as (w & Hw & H). apply ok_or_Ok in Hw.
    destruct (push_Forall edge_ok _ _ _ Hw Hf) as (Hf' & _ & Hl'); [done|]. by eapply IH.
Qed.

Lemma quotas_loop_ok n : forall v d v' d',
  quotas_loop n v d = Ok (v', d') -> Forall quota_ok (hv_slice v) -> (hv_len v <= MAX_NODES)%nat ->
  Forall quota_ok (hv_slice v') /\ (hv_len v' <= MAX_NODES)%nat.
Proof using HL DL.
  induction n as [|n IH]; intros v d v' d' H Hf Hl; cbn [quotas_loop] in H.
  - by injection H as <- <-.
  - apply bind_Ok in H as ([len d1] & _ & H). case_match; [done|].
    apply bind_Ok in H as ([s d2] & Hs & H). apply ok_or_Ok, dec_u32_range in Hs.
    apply bind_Ok in H as ([t d3] & Ht & H). apply ok_or_Ok, dec_u64_range in Ht.
    apply bind_Ok in H as (s' & Hs' & H). apply nonzero_node in Hs'; [|done].
    apply bind_Ok in H as (w & Hw & H). apply ok_or_Ok in Hw.
    destruct (push_Forall quota_ok _ _ _ Hw Hf) as (Hf' & _ & Hl'); [done|]. by eapply IH.
Qed.

Lemma hv_new_len {N A} : hv_len (hv_new (N := N) (A := A)) = 0%nat.
Proof using HL. unfold hv_len. by rewrite hv_slice_new. Qed.

Lemma parse_edges_ok d v d' :
  parse_edges d = Ok (v, d') -> Forall edge_ok (hv_slice v) /\ (hv_len v <= MAX_EDGES)%nat.
Proof using HL DL.
  unfold parse_edges. intros H. apply bind_Ok in H as ([arr d1] & _ & H).
  apply bind_Ok in H as (len & _ & H). case_match; [done|].
  eapply edges_loop_ok; [done|rewrite hv_slice_new; constructor|rewrite hv_new_len; lia].
Qed.

Lemma parse_quotas_ok d v d' :
  parse_quotas d = Ok (v, d') -> Forall quota_ok (hv_slice v) /\ (hv_len v <= MAX_NODES)%nat.
Proof using HL DL.
  unfold parse_quotas. intros H. apply bind_Ok in H as ([arr d1] & _ & H).
  apply bind_Ok in H as (len & _ & H). case_match; [done|].
  eapply quotas_loop_ok; [done|rewrite hv_slice_new; constructor|rewrite hv_new_len; lia].
Qed.

Lemma parse_cbor_ok payload m : parse_cbor payload = Ok m -> manifest_ok m.
Proof using HL DL.
  unfold parse_cbor. intros H. apply bind_Ok in H as ([outer d1] & _ & H). case_match; [done|].
  apply bind_Ok in H as ([ver d2] & Hv & H). apply ok_or_Ok, dec_u32_range in Hv.
  apply bind_Ok in H as ([edges d3] & He & H). apply parse_edges_ok in He as [He Hel].
  apply bind_Ok in H as ([quotas d4] & Hq & H). apply parse_quotas_ok in Hq as [Hq Hql].
  injection H as <-. by constructor.
Qed.

(** Every error of the parser is a [ManifestInvalid]. *)
Definition manifest_error {A} (c : Result A) : Prop :=
  forall e, c = Err e -> exists detail, e = ManifestInvalid detail.

Lemma manifest_error_bind {A B} (c : Result A) (f : A -> Result B) :
  manifest_error c -> (forall a, manifest_error (f a)) -> manifest_error (c ≫= f).
Proof. intros Hc Hf e [He|(a & _ & He)]%bind_Err; [by apply Hc|by eapply Hf]. Qed.

Lemma manifest_error_ok_or {A} (o : option A) d : manifest_error (ok_or o (err_manifest d)).
Proof. intros e. destruct o; cbn; [done|]. intros [= <-]. by eexists. Qed.

Lemma manifest_error_Ok {A} (a : A) : manifest_error (Ok a).
Proof. by intros e. Qed.

Lemma manifest_error_Err {A} d : manifest_error (A := A) (Err (err_manifest d)).
Proof. intros e [= <-]. by eexists. Qed.

Create HintDb parser discriminated.
Hint Resolve manifest_error_bind manifest_error_ok_or manifest_error_Ok manifest_error_Err : parser.
Hint Extern 1 (manifest_error (let (_, _) := ?p in _)) => destruct p : parser.
Hint Extern 1 (manifest_error (if ?b then _ else _)) => destruct b : parser.

Lemma edges_loop_error n v d : manifest_error (edges_loop n v d).
Proof. revert v d. induction n as [|n IH]; intros v d; cbn [edges_loop]; eauto 20 with parser. Qed.

Lemma quotas_loop_error n v d : manifest_error (quotas_loop n v d).
Proof. revert v d. induction n as [|n IH]; intros v d; cbn [quotas_loop]; eauto 20 with parser. Qed.

Hint Resolve edges_loop_error quotas_loop_error : parser.

Lemma parse_cbor_error payload : manifest_error (parse_cbor payload).
Proof. unfold parse_cbor, parse_edges, parse_quotas. eauto 20 with parser. Qed.

(** ** The round trip *)

Lemma dec_array_step d n r (e : Error) :
  in_u64 n -> dec_rest d = cbor_array n ++ r ->
  exists d', ok_or (dec_array d) e = Ok (Some n, d') /\ dec_rest d' = r.
Proof using DL. intros Hn Hr. destruct (dec_array_head d n r Hn Hr) as (d' & -> & ?). by exists d'. Qed.

Lemma dec_node_step d n r (e : Error) :
  node_ok n -> dec_rest d = cbor_uint n ++ r ->
  exists d', ok_or (dec_u32 d) e = Ok (n, d') /\ dec_rest d' = r.
Proof using DL.
  intros Hn Hr. destruct (dec_u32_head d n r) as (d' & -> & ?); [unfold node_ok in *; width_lia|done|].
  by exists d'.
Qed.

Lemma nonzero_step n (e : Error) : node_ok n -> ok_or (NonZeroU32_new n) e = Ok n.
Proof.
  intros Hn. unfold NonZeroU32_new, node_ok in *. destruct (Z.eqb_spec n 0); [lia|done].
Qed.

Lemma edges_loop_encode es : forall v d r,
  Forall edge_ok es -> (hv_len v + length es <= MAX_EDGES)%nat ->
  dec_rest d = concat (encode_edge <$> es) ++ r ->
  exists v' d', edges_loop (length es) v d = Ok (v', d') /\
    hv_slice v' = hv_slice v ++ es /\ dec_rest d' = r.
Proof using HL DL.
  induction es as [|[s t] es IH]; intros v d r Hok Hlen Hd; cbn [length edges_loop].
  - exists v, d. by rewrite app_nil_r.
  - inversion_clear Hok as [|? ? [Hs Ht] Hes]. cbn in Hs, Ht.
    cbn [fmap list_fmap concat] in Hd. unfold encode_edge at 1 in Hd. cbn [ed_src ed_dst] in Hd.
    rewrite <- !app_assoc in Hd.
    edestruct dec_array_step as (d1 & -> & Hd1); [|exact Hd|]; [width_lia|]. cbn [mbind result_bind].
    rewrite bool_decide_true by done. cbn [negb].
    edestruct dec_node_step as (d2 & -> & Hd2); [exact Hs|exact Hd1|]. cbn [mbind result_bind].
    edestruct dec_node_step as (d3 & -> & Hd3); [exact Ht|exact Hd2|]. cbn [mbind result_bind].
    rewrite !nonzero_step by done. cbn [mbind result_bind].
    edestruct (hv_push_room _ _ v) as (w & -> & Hw); [cbn in Hlen; lia|]. cbn [ok_or mbind result_bind].
    destruct (IH w d3 r Hes) as (v' & d' & -> & Hv' & Hd'); [|done|].
    { unfold hv_len in *. rewrite Hw, length_app. cbn in *. lia. }
    exists v', d'. split; [done|]. split; [|done]. by rewrite Hv', Hw, <- app_assoc.
Qed.

Lemma quotas_loop_encode qs : forall v d r,
  Forall quota_ok qs -> (hv_len v + length qs <= MAX_NODES)%nat ->
  dec_rest d = concat (encode_quota <$> qs) ++ r ->
  exists v' d', quotas_loop (length qs) v d = Ok (v', d') /\
    hv_slice v' = hv_slice v ++ qs /\ dec_rest d' = r.
Proof using HL DL.
  induction qs as [|[s [c]] qs IH]; intros v d r Hok Hlen Hd; cbn [length quotas_loop].
  - exists v, d. by rewrite app_nil_r.
  - inversion_clear Hok as [|? ? [Hs Hc] Hqs]. cbn in Hs, Hc.
    cbn [fmap list_fmap concat] in Hd. unfold encode_quota at 1 in Hd.
    cbn [qd_node qd_ceiling Quota_get quota_raw] in Hd. rewrite <- !app_assoc in Hd.
    edestruct dec_array_step as (d1 & -> & Hd1); [|exact Hd|]; [width_lia|]. cbn [mbind result_bind].
    rewrite bool_decide_true by done. cbn [negb].
    edestruct dec_node_step as (d2 & -> & Hd2); [exact Hs|exact Hd1|]. cbn [mbind result_bind].
    edestruct (dec_u64_head d2 c) as (d3 & -> & Hd3); [exact Hc|exact Hd2|]. cbn [ok_or mbind result_bind].
    rewrite !nonzero_step by done. cbn [mbind result_bind].
    edestruct (hv_push_room _ _ v) as (w & -> & Hw); [cbn in Hlen; lia|]. cbn [ok_or mbind result_bind].
    destruct (IH w d3 r Hqs) as (v' & d' & -> & Hv' & Hd'); [|done|].
    { unfold hv_len in *. rewrite Hw, length_app. cbn in *. lia. }
    exists v', d'. split; [done|]. split; [|done]. by rewrite Hv', Hw, <- app_assoc.
Qed.

Lemma parse_edges_encode d es r :
  Forall edge_ok es -> (length es <= MAX_EDGES)%nat ->
  dec_rest d = cbor_array (Z.of_nat (length es)) ++ concat (encode_edge <$> es) ++ r ->
  exists v d', parse_edges d = Ok (v, d') /\ hv_slice v = es /\ dec_rest d' = r.
Proof using HL DL.
  intros Hok Hlen Hd. unfold parse_edges. assert (MAX_EDGES = 256%nat) as Hm by done.
  edestruct dec_array_step as (d1 & -> & Hd1); [|exact Hd|]; [width_lia|]. cbn [mbind result_bind ok_or].
  rewrite (proj2 (Z.ltb_ge _ _)), Nat2Z.id by lia.
  destruct (edges_loop_encode es hv_new d1 r) as (v & d' & -> & Hv & Hd'); [done|by rewrite hv_new_len|done|].
  exists v, d'. by rewrite Hv, hv_slice_new.
Qed.

Lemma parse_quotas_encode d qs r :
  Forall quota_ok qs -> (length qs <= MAX_NODES)%nat ->
  dec_rest d = cbor_array (Z.of_nat (length qs)) ++ concat (encode_quota <$> qs) ++ r ->
  exists v d', parse_quotas d = Ok (v, d') /\ hv_slice v = qs /\ dec_rest d' = r.
Proof using HL DL.
  intros Hok Hlen Hd. unfold parse_quotas. assert (MAX_NODES = 64%nat) as Hm by done.
  edestruct dec_array_step as (d1 & -> & Hd1); [|exact Hd|]; [width_lia|]. cbn [mbind result_bind ok_or].
  rewrite (proj2 (Z.ltb_ge _ _)), Nat2Z.id by lia.
  destruct (quotas_loop_encode qs hv_new d1 r) as (v & d' & -> & Hv & Hd'); [done|by rewrite hv_new_len|done|].
  exists v, d'. by rewrite Hv, hv_slice_new.
Qed.

Lemma parse_cbor_encode ver es qs r :
  in_u32 ver -> Forall edge_ok es -> (length es <= MAX_EDGES)%nat ->
  Forall quota_ok qs -> (length qs <= MAX_NODES)%nat ->
  exists m, parse_cbor (encode_payload ver es qs ++ r) = Ok m /\
    hv_slice (m_edges m) = es /\ hv_slice (m_quotas m) = qs /\ m_version m = ver.
Proof using HL DL.
  intros Hv He Hel Hq Hql. unfold parse_cbor, encode_payload. rewrite <- !app_assoc.
  edestruct dec_array_step as (d1 & -> & Hd1); [|apply dec_rest_new|]; [width_lia|].
  cbn [mbind result_bind]. rewrite bool_decide_true by done. cbn [negb].
  destruct (dec_u32_head d1 ver _ Hv Hd1) as (d2 & -> & Hd2). cbn [ok_or mbind result_bind].
  destruct (parse_edges_encode d2 es _ He Hel Hd2) as (ev & d3 & -> & Hev & Hd3). cbn [mbind result_bind].
  destruct (parse_quotas_encode d3 qs _ Hq Hql Hd3) as (qv & d4 & -> & Hqv & _). cbn [mbind result_bind].
  by eexists.
Qed.

(** ** Decoding *)

Section credentials_facts.
Context {H : Type} `{HP : HsmProvider H} (ok : H -> Prop) `{HC : !HsmSigning ok}.
Implicit Types (creds : BootCredentials H).

(** C25: The decoder fails closed and verifies before it parses.  A decoded manifest comes
    from at least 65 bytes whose first 64 verify as a signature over exactly the rest, and
    is well formed: every node is non-zero, every integer fits its type, and both tables
    are within capacity.  If the signature does not verify, the error is that of the
    verification, whatever the payload holds.  Every error is [ManifestInvalid]. *)
Theorem decode_fail_closed (b : bytes) creds :
  (forall m, decode b creds = Ok m ->
     (MIN_WIRE_LEN <= length b)%nat /\
     creds_verify creds (drop SIG_LEN b) (take SIG_LEN b) = Ok tt /\ manifest_ok m) /\
  (forall e, (MIN_WIRE_LEN <= length b)%nat ->
     creds_verify creds (drop SIG_LEN b) (take SIG_LEN b) = Err e -> decode b creds = Err e) /\
  (forall e, decode b creds = Err e -> exists detail, e = ManifestInvalid detail).
Proof using HL DL HC.
  unfold decode. case_decide as Hl.
  - split; [done|]. split; [lia|]. apply manifest_error_Err.
  - split; [|split].
    + intros m Hd. apply bind_Ok in Hd as ([] & Hv & Hp). split; [lia|]. split; [done|].
      by eapply parse_cbor_ok.
    + by intros e _ ->.
    + apply manifest_error_bind; [|intros _; apply parse_cbor_error].
      intros e He. by eapply (hsm_verify_error (bc_hsm creds)).
Qed.

(** C26: The round trip.  Take any version, edges and quotas within the declared bounds,
    encode them in the documented format, and sign the payload with a provider that
    honours its contract: the decoder returns exactly that manifest.  Bytes after the
    third element of the payload, if they are signed too, are ignored. *)
Theorem decode_roundtrip creds ver es qs trailing sig :
  ok (bc_hsm creds) -> in_u32 ver ->
  Forall edge_ok es -> (length es <= MAX_EDGES)%nat ->
  Forall quota_ok qs -> (length qs <= MAX_NODES)%nat ->
  let payload := encode_payload ver es qs ++ trailing in
  sign (bc_hsm creds) payload = Ok sig ->
  exists m, decode (sig ++ payload) creds = Ok m /\
    hv_slice (m_edges m) = es /\ hv_slice (m_quotas m) = qs /\ version m = ver.
Proof using HL DL HC.
  intros Hok Hv He Hel Hq Hql payload Hs.
  destruct (hsm_sign_verifies _ _ _ Hok Hs) as [Hver Hlen].
  destruct (parse_cbor_encode ver es qs trailing Hv He Hel Hq Hql) as (m & Hm & Hr).
  exists m. split; [|done]. unfold decode, creds_verify. fold payload in Hm.
  rewrite decide_False.
  - rewrite take_app_length', drop_app_length' by done. rewrite Hver. exact Hm.
  - rewrite length_app, Hlen. unfold payload, encode_payload.
    change (cbor_array 3) with [131]. unfold MIN_WIRE_LEN. cbn. lia.
Qed.

End credentials_facts.

End facts.

(** ** Witnesses *)

Module Witness.
#[local] Existing Instance ListModel.list_hvec.
#[local] Existing Instance ListModel.list_hvec_laws.
#[local] Existing Instance ByteModel.toy_sha.
#[local] Existing Instance ByteModel.toy_ed.
#[local] Existing Instance ByteModel.toy_ed_laws.
#[local] Existing Instance ByteModel.list_decoder.
#[local] Existing Instance ByteModel.list_decoder_laws.

Definition creds0 : BootCredentials SoftwareHsm := creds_new (from_signing_key [5]).
Definition edges0 : list EdgeDecl := [mkEdge 1 2; mkEdge 2 64].
Definition quotas0 : list QuotaDecl := [mkQuotaDecl 1 (Quota_new 1000); mkQuotaDecl 2 (Quota_new U64_MAX)].
Definition payload0 : bytes := encode_payload 1 edges0 quotas0.
Definition wire0 : bytes := sk_sign [5] payload0 ++ payload0.

Lemma decode_fail_closed_witness :
  exists m, decode wire0 creds0 = Ok m /\ manifest_ok m.
Proof.
  destruct (decode_fail_closed software_ok wire0 creds0) as (H & _).
  destruct (decode wire0 creds0) as [m|e] eqn:E; [|vm_compute in E; discriminate].
  exists m. split; [reflexivity|]. destruct (H m eq_refl) as (_ & _ & Hm). exact Hm.
Defined.

Lemma decode_roundtrip_witness :
  exists m, decode wire0 creds0 = Ok m /\
    hv_slice (m_edges m) = edges0 /\ hv_slice (m_quotas m) = quotas0 /\ version m = 1.
Proof.
  unfold wire0, payload0.
  rewrite <- (app_nil_r (encode_payload 1 edges0 quotas0)).
  apply (decode_roundtrip software_ok creds0 1 edges0 quotas0 []).
  - apply from_signing_key_ok.
  - ground.
  - repeat constructor; ground.
  - apply Nat.leb_le. reflexivity.
  - repeat constructor; ground.
  - apply Nat.leb_le. reflexivity.
  - reflexivity.
Defined.

End Witness.
