(* ===== verification/Boot.v ===== *)
(** * Boot sequence

    Models [src/boot/mod.rs] except the consensus round: [BootState], the all-or-nothing
    [initialise_with_tpm] and [initialise], and [produce_attestation].  It composes the
    decoder, the topology graph, the ledger, the TPM and the policy the way the code does.

    The theorems follow a manifest from its bytes to the booted kernel: exactly when boot
    succeeds, and that the sealed graph, the ledger, the policy and the attestation are
    those the signed manifest declares. *)
From S2P Require Import Prelude Heapless Crypto Types AuditLog Capability Revocation Policy.
From S2P Require Import Ledger Topology Hsm Tpm Manifest.
From stdpp Require Import base tactics list numbers option strings gmap sets.
Open Scope Z_scope.

(** [?] on a [&mut self] call whose receiver is dropped when the call fails. *)
Definition or_drop {S A} (x : S * Result A) : Result S :=
  match x with (s, Ok _) => Ok s | (_, Err e) => Err e end.

(** ** Definitions *)

Section boot.
Context `{HV : HVec} `{IS : IndexSet} `{LM : LinearMap} `{SH : Sha256} `{BF : Bitflags} `{DE : Decoder}.

Record BootState := mkBootState {
  bs_graph : OperationalGraph;
  bs_ledger : Ledger;
  bs_policy : Policy;
  bs_attestation : TpmQuote;
  bs_manifest_hash : bytes;
  bs_local_id : NodeId;
}.

Definition local_id (self : BootState) : NodeId := bs_local_id self.

Definition with_local_id (self : BootState) (id : NodeId) : BootState := {|
  bs_graph := bs_graph self; bs_ledger := bs_ledger self; bs_policy := bs_policy self;
  bs_attestation := bs_attestation self; bs_manifest_hash := bs_manifest_hash self;
  bs_local_id := id |}.

Definition graph (self : BootState) : OperationalGraph := bs_graph self.
Definition ledger (self : BootState) : Ledger := bs_ledger self.
Definition attestation_quote (self : BootState) : TpmQuote := bs_attestation self.
Definition manifest_hash (self : BootState) : bytes := bs_manifest_hash self.

(** [policy_mut]: a call [f] on the policy through the mutable reference. *)
Definition policy_mut {A} (self : BootState) (f : Policy -> Policy * A) : BootState * A :=
  let '(p, a) := f (bs_policy self) in
  ({| bs_graph := bs_graph self; bs_ledger := bs_ledger self; bs_policy := p;
      bs_attestation := bs_attestation self; bs_manifest_hash := bs_manifest_hash self;
      bs_local_id := bs_local_id self |}, a).

(** [for edge in &manifest.edges]. *)
Fixpoint seed_edges (booting : BootingGraph) (edges : list EdgeDecl) : Result BootingGraph :=
  match edges with
  | [] => Ok booting
  | e :: edges' =>
      booting ← or_drop (activate booting (ed_src e));
      booting ← or_drop (activate booting (ed_dst e));
      booting ← or_drop (permit_edge booting (ed_src e) (ed_dst e));
      seed_edges booting edges'
  end.

(** [for q in &manifest.quotas]. *)
Fixpoint seed_quotas (ledger : Ledger) (quotas : list QuotaDecl) : Result Ledger :=
  match quotas with
  | [] => Ok ledger
  | q :: quotas' =>
      ledger ← or_drop (Ledger.seed ledger (qd_node q) (qd_ceiling q));
      seed_quotas ledger quotas'
  end.

Section providers.
Context {H : Type} `{HP : HsmProvider H} {T : Type} `{TP : TpmProvider T}.

(** Steps 1 to 4 of [initialise_with_tpm]: decode and verify, seed the graph and the
    ledger, seal. *)
Definition seed_state (raw_manifest : bytes) (credentials : BootCredentials H)
    : Result (OperationalGraph * Ledger) :=
  manifest ← Manifest.decode raw_manifest credentials;
  booting ← seed_edges Topology.new (hv_slice (m_edges manifest));
  ledger ← seed_quotas Ledger.new (hv_slice (m_quotas manifest));
  Ok (Topology.seal booting, ledger).

Definition initialise_with_tpm (raw_manifest : bytes) (credentials : BootCredentials H) (tpm : T)
    : T * Result BootState :=
  let manifest_hash := sha_finalize (sha_update sha_new raw_manifest) in
  match seed_state raw_manifest credentials with
  | Err e => (tpm, Err e)
  | Ok (graph, ledger) =>
      match extend_pcr tpm 0 raw_manifest with
      | (tpm, Err e) => (tpm, Err e)
      | (tpm, Ok _) =>
          match quote tpm 0 (replicate 32 0) with
          | Err e => (tpm, Err e)
          | Ok attestation =>
              (tpm, Ok {|
                bs_graph := graph; bs_ledger := ledger; bs_policy := Policy.new 0;
                bs_attestation := attestation; bs_manifest_hash := manifest_hash;
                bs_local_id := NodeId_MIN |})
          end
      end
  end.

Definition produce_attestation (self : BootState) (tpm : T) (nonce : bytes) : Result BootAttestation :=
  q ← quote tpm 0 nonce;
  Ok (attestation_new (bs_manifest_hash self) 0 nonce q).

End providers.

Definition initialise {H} `{HP : HsmProvider H} (raw_manifest : bytes)
    (credentials : BootCredentials H) : Result BootState :=
  (initialise_with_tpm raw_manifest credentials mkNullTpm).2.

End boot.

(** ** Seeding *)

Definition edge_in_range (e : EdgeDecl) : Prop := in_range (ed_src e) /\ in_range (ed_dst e).

#[global] Instance edge_in_range_dec e : Decision (edge_in_range e).
Proof. unfold edge_in_range. apply _. Defined.

Lemma activate_in_range g a n :
  node_ok n -> in_range n -> booting_repr g a ->
  exists g', activate g n = (g', Ok tt) /\ booting_repr g' (mkAgraph ({[n]} ∪ ag_nodes a) (ag_edges a)).
Proof.
  intros Hn Hr Hg. destruct (activate_repr g a n Hn Hg) as [He Hr'].
  destruct (activate g n) as [g' r]. unfold a_activate in *. rewrite decide_True in He, Hr' by done.
  cbn in *. subst r. eauto.
Qed.

Lemma activate_out_of_range g n : node_ok n -> ~ in_range n -> activate g n = (g, Err (TopologyViolation n 0)).
Proof. intros Hn Hr. unfold activate. by destruct (node_idx_cases n Hn) as [[? _]|[_ ->]]. Qed.

Lemma permit_active g a s d :
  node_ok s -> node_ok d -> s ∈ ag_nodes a -> d ∈ ag_nodes a -> booting_repr g a ->
  exists g', permit_edge g s d = (g', Ok tt) /\
    booting_repr g' (mkAgraph (ag_nodes a) ({[(s, d)]} ∪ ag_edges a)).
Proof.
  intros Hs Hd Has Had Hg. destruct (permit_repr g a s d Hs Hd Hg) as [He Hr'].
  destruct (permit_edge g s d) as [g' r]. destruct Hg as [_ Hrg _ _ _]. unfold a_permit in *.
  rewrite (bool_decide_true (in_range s)), (bool_decide_true (in_range d)) in He, Hr' by auto.
  rewrite !bool_decide_true in He, Hr' by done. cbn in *. subst r. eauto.
Qed.

Lemma seed_edges_ok es : forall g a,
  Forall edge_ok es -> Forall edge_in_range es -> booting_repr g a ->
  exists g' a', seed_edges g es = Ok g' /\ booting_repr g' a' /\
    forall s d, (s, d) ∈ ag_edges a' <-> (s, d) ∈ ag_edges a \/ mkEdge s d ∈ es.
Proof.
  induction es as [|[s d] es IH]; intros g a Hok Hr Hg; cbn [seed_edges].
  - exists g, a. split; [done|]. split; [done|]. set_solver.
  - inversion_clear Hok as [|? ? [Hs Hd] Hok']. inversion_clear Hr as [|? ? [Hsr Hdr] Hr']. cbn in *.
    destruct (activate_in_range g a s Hs Hsr Hg) as (g1 & -> & Hg1). cbn.
    destruct (activate_in_range g1 _ d Hd Hdr Hg1) as (g2 & -> & Hg2). cbn.
    destruct (permit_active g2 (mkAgraph ({[d]} ∪ ({[s]} ∪ ag_nodes a)) (ag_edges a)) s d Hs Hd)
      as (g3 & -> & Hg3); [set_solver|set_solver|exact Hg2|]. cbn.
    destruct (IH g3 _ Hok' Hr' Hg3) as (g' & a' & -> & Hg' & He).
    exists g', a'. split; [done|]. split; [done|]. intros s' d'. rewrite He. cbn.
    rewrite elem_of_union, elem_of_singleton, elem_of_cons. split; [|naive_solver].
    intros [[[= -> ->]|?]|?]; auto.
Qed.

Lemma seed_edges_err es : forall g a,
  Forall edge_ok es -> ~ Forall edge_in_range es -> booting_repr g a ->
  exists n, seed_edges g es = Err (TopologyViolation n 0) /\ ~ in_range n.
Proof.
  induction es as [|[s d] es IH]; intros g a Hok Hr Hg; cbn [seed_edges]; [by destruct Hr|].
  inversion_clear Hok as [|? ? [Hs Hd] Hok']. cbn in *.
  destruct (decide (in_range s)) as [Hsr|Hsr]; [|exists s; by rewrite activate_out_of_range].
  destruct (activate_in_range g a s Hs Hsr Hg) as (g1 & -> & Hg1). cbn.
  destruct (decide (in_range d)) as [Hdr|Hdr]; [|exists d; by rewrite activate_out_of_range].
  destruct (activate_in_range g1 _ d Hd Hdr Hg1) as (g2 & -> & Hg2). cbn.
  destruct (permit_active g2 (mkAgraph ({[d]} ∪ ({[s]} ∪ ag_nodes a)) (ag_edges a)) s d Hs Hd)
      as (g3 & -> & Hg3); [set_solver|set_solver|exact Hg2|]. cbn.
  eapply IH; [exact Hok'| |exact Hg3]. intros Hall. apply Hr. by constructor.
Qed.

Section seeding.
Context `{LM : LinearMap} `{LL : !LinearMapLaws}.
Implicit Types (l : Ledger) (qs : list QuotaDecl).

(** The first quota a table declares for a node. *)
Definition first_quota qs (n : NodeId) : option Quota :=
  (fun x => qd_ceiling x.2) <$> list_find (fun q => qd_node q = n) qs.

#[local] Arguments first_quota : simpl never.

Lemma first_quota_cons q qs n :
  first_quota (q :: qs) n = if decide (qd_node q = n) then Some (qd_ceiling q) else first_quota qs n.
Proof.
  unfold first_quota. cbn. case_decide; [done|]. rewrite <- option_fmap_compose.
  by destruct (list_find _ qs) as [[]|].
Qed.

Lemma first_quota_None qs n : n ∉ (qd_node <$> qs) -> first_quota qs n = None.
Proof.
  induction qs as [|q qs IH]; [done|]. rewrite first_quota_cons, fmap_cons, not_elem_of_cons.
  intros [Hne Hn]. rewrite decide_False by done. auto.
Qed.

(** Seeding succeeds exactly when no node occurs twice, and then the ledger holds the
    declared quotas. *)
Lemma seed_quotas_ok qs : forall l,
  NoDup (qd_node <$> qs) -> (forall q, q ∈ qs -> balance l (qd_node q) = None) ->
  (lm_len (balances l) + length qs <= MAX_NODES)%nat ->
  exists l', seed_quotas l qs = Ok l' /\
    forall n, balance l' n = match first_quota qs n with
                             | Some q => Some (Quota_get q) | None => balance l n end.
Proof using LL.
  induction qs as [|q qs IH]; intros l Hd Hn Hl; cbn [seed_quotas]; [by exists l|].
  rewrite fmap_cons in Hd. apply NoDup_cons in Hd as [Hq Hd].
  destruct (seed_cases l (qd_node q) (qd_ceiling q)) as (_ & _ & H3).
  destruct H3 as (l1 & -> & Hl1 & Hb1); [apply Hn; set_solver|cbn in Hl; lia|]. cbn.
  destruct (IH l1) as (l' & -> & Hb'); [done| |rewrite Hl1; cbn in Hl; lia|].
  - intros q' Hq'. rewrite Hb1. rewrite decide_False; [apply Hn; set_solver|].
    intros He. apply Hq. rewrite He. by apply list_elem_of_fmap_2.
  - exists l'. split; [done|]. intros n. rewrite Hb', first_quota_cons. case_decide as Hn'.
    + subst n. rewrite first_quota_None by done. by rewrite Hb1, decide_True.
    + destruct (first_quota qs n); [done|]. by rewrite Hb1, decide_False.
Qed.

Lemma seed_quotas_dup qs : forall l,
  (lm_len (balances l) + length qs <= MAX_NODES)%nat ->
  ~ NoDup (qd_node <$> qs) \/ (exists q, q ∈ qs /\ is_Some (balance l (qd_node q))) ->
  seed_quotas l qs = Err err_duplicate.
Proof using LL.
  induction qs as [|q qs IH]; intros l Hl Hbad; cbn [seed_quotas].
  - destruct Hbad as [Hd|(q & Hq & _)]; [destruct Hd; constructor|set_solver].
  - destruct (seed_cases l (qd_node q) (qd_ceiling q)) as (H1 & _ & H3).
    destruct (balance l (qd_node q)) as [b|] eqn:Eb; [by rewrite H1|].
    destruct H3 as (l1 & -> & Hl1 & Hb1); [done|cbn in Hl; lia|]. cbn.
    assert (~ NoDup (qd_node <$> qs) \/ (exists q', q' ∈ qs /\ is_Some (balance l1 (qd_node q')))) as Hb.
    { destruct (decide (qd_node q ∈ qd_node <$> qs)) as [Hin|Hin].
      - right. apply list_elem_of_fmap in Hin as (q' & He & Hq'). exists q'. split; [done|].
        rewrite Hb1, decide_True; done.
      - destruct Hbad as [Hd|(q' & [->|Hq']%elem_of_cons & Hs)].
        + left. intros Hd'. apply Hd. rewrite fmap_cons. by constructor.
        + by rewrite Eb in Hs; destruct Hs.
        + right. exists q'. split; [done|]. rewrite Hb1. by case_decide. }
    apply IH; [rewrite Hl1; cbn in Hl; lia|done].
Qed.

End seeding.

(** ** Boot, end to end *)

Section facts.
Context `{HV : HVec} `{IS : IndexSet} `{LM : LinearMap} `{SH : Sha256} `{BF : Bitflags} `{DE : Decoder}.
Context `{HL : !HVecLaws} `{LL : !LinearMapLaws} `{DL : !DecoderLaws}.
Context {H : Type} `{HP : HsmProvider H}.
Implicit Types (creds : BootCredentials H) (m : Manifest).

(** What the seeding steps require of a manifest beyond what the decoder checks. *)
Definition bootable m : Prop :=
  Forall edge_in_range (hv_slice (m_edges m)) /\ NoDup (qd_node <$> hv_slice (m_quotas m)).

#[global] Instance bootable_dec m : Decision (bootable m).
Proof. unfold bootable. apply _. Defined.

(** The graph and the ledger are those the manifest declares. *)
Definition realises m (g : OperationalGraph) (l : Ledger) : Prop :=
  (forall s d, node_ok s -> node_ok d ->
     traverse_inner g s d = Ok tt <-> permits_edge m s d = true) /\
  (forall n, balance l n = Quota_get <$> quota_for m n).

Lemma decode_ok b creds m : Manifest.decode b creds = Ok m -> manifest_ok m.
Proof using HL DL.
  unfold Manifest.decode. case_decide; [done|]. intros Hd. apply bind_Ok in Hd as ([] & _ & Hp).
  by eapply parse_cbor_ok.
Qed.

Lemma quota_nonneg (m : Manifest) n q : manifest_ok m -> quota_for m n = Some q -> 0 <= Quota_get q.
Proof.
  intros [_ _ Hq _ _]. unfold quota_for. destruct (list_find _ _) as [[i x]|] eqn:E; [|done].
  cbn. intros [= <-]. apply list_find_Some in E as (Hi & _). apply (Forall_lookup_1 _ _ _ _ Hq) in Hi as [_ Hc].
  unfold_width. lia.
Qed.

Lemma ledger_room m : manifest_ok m ->
  (lm_len (balances Ledger.new) + length (hv_slice (m_quotas m)) <= MAX_NODES)%nat.
Proof using LL. intros [_ _ _ Hl _]. cbn. rewrite lm_len_new. exact Hl. Qed.

Lemma seed_state_ok b creds m :
  Manifest.decode b creds = Ok m -> bootable m ->
  exists g l, seed_state b creds = Ok (g, l) /\ realises m g l.
Proof using HL LL DL.
  intros Hd [Hr Hn]. pose proof (decode_ok b creds m Hd) as Hm. pose proof (ledger_room m Hm) as Hroom.
  destruct Hm as [He _ _ _ _].
  destruct (seed_edges_ok _ Topology.new a_new He Hr new_repr) as (g & a & Hg & Hrep & Hea).
  destruct (seed_quotas_ok (hv_slice (m_quotas m)) Ledger.new Hn) as (l & Hl & Hb);
    [intros; apply balance_new|done|].
  exists (Topology.seal g), l. unfold seed_state. rewrite Hd. cbn. rewrite Hg. cbn. rewrite Hl.
  split; [done|]. split.
  - intros s d Hs Hd'. rewrite (traverse_inner_Ok (Topology.seal g) a s d Hs Hd' Hrep), permits_edge_true, Hea.
    set_solver.
  - intros n. rewrite Hb, balance_new. unfold quota_for, first_quota.
    by destruct (list_find _ _) as [[]|].
Qed.

Lemma seed_state_err b creds m :
  Manifest.decode b creds = Ok m -> ~ bootable m -> exists e, seed_state b creds = Err e.
Proof using HL LL DL.
  intros Hd Hn. pose proof (decode_ok b creds m Hd) as Hm. pose proof (ledger_room m Hm) as Hroom.
  destruct Hm as [He _ _ _ _]. unfold seed_state. rewrite Hd. cbn.
  destruct (decide (Forall edge_in_range (hv_slice (m_edges m)))) as [Hr|Hr].
  - destruct (seed_edges_ok _ Topology.new a_new He Hr new_repr) as (g & a & -> & _). cbn.
    rewrite seed_quotas_dup; [by eexists|done|]. left. intros Hdup. apply Hn. by split.
  - destruct (seed_edges_err _ Topology.new a_new He Hr new_repr) as (n & -> & _). by eexists.
Qed.

Section tpm.
Context {T : Type} `{TP : TpmProvider T}.

Lemma boot_sound raw creds (tpm tpm' : T) st :
  initialise_with_tpm raw creds tpm = (tpm', Ok st) ->
  exists m, Manifest.decode raw creds = Ok m /\ realises m (bs_graph st) (bs_ledger st) /\
    bs_policy st = Policy.new 0 /\ bs_manifest_hash st = digest raw /\
    extend_pcr tpm 0 raw = (tpm', Ok tt) /\ quote tpm' 0 (replicate 32 0) = Ok (bs_attestation st).
Proof using HL LL DL.
  unfold initialise_with_tpm. intros Hi.
  destruct (Manifest.decode raw creds) as [m|e] eqn:Hd.
  2: { unfold seed_state in Hi. by rewrite Hd in Hi. }
  exists m. split; [done|]. destruct (decide (bootable m)) as [Hb|Hb].
  - destruct (seed_state_ok raw creds m Hd Hb) as (g & l & Hs & Hr). rewrite Hs in Hi.
    destruct (extend_pcr tpm 0 raw) as [t [[]|e]]; [|done].
    destruct (quote t 0 (replicate 32 0)) as [q|e] eqn:Hq; [|done]. injection Hi as <- <-. done.
  - destruct (seed_state_err raw creds m Hd Hb) as (e & He). by rewrite He in Hi.
Qed.

(** C3: Boot is all or nothing and faithful to the manifest.  If [initialise_with_tpm]
    succeeds, then the raw bytes decode, under the given credentials, to a manifest [m]
    such that: the sealed graph permits a traversal exactly when [m] declares the edge,
    each balance is exactly the quota [m] declares, no other node has a balance, the policy
    is at generation 0 with nothing spent or revoked, and the attestation is the TPM's
    quote of register 0 after it was extended with the raw manifest. *)
Theorem boot_realises_manifest raw creds (tpm tpm' : T) st :
  initialise_with_tpm raw creds tpm = (tpm', Ok st) ->
  exists m, Manifest.decode raw creds = Ok m /\ realises m (bs_graph st) (bs_ledger st) /\
    bs_policy st = Policy.new 0 /\ bs_manifest_hash st = digest raw /\
    extend_pcr tpm 0 raw = (tpm', Ok tt) /\ quote tpm' 0 (replicate 32 0) = Ok (bs_attestation st).
Proof using HL LL DL. apply boot_sound. Qed.

(** C24: Exactly when boot succeeds: the manifest decodes and verifies, its edges use nodes
    1 to 64, no node has two quotas, and the TPM accepts the measurement and the quote.  If
    any of the first three fails the TPM is not touched. *)
Theorem boot_succeeds_iff raw creds (tpm : T) :
  ((exists st, (initialise_with_tpm raw creds tpm).2 = Ok st) <->
   (exists m, Manifest.decode raw creds = Ok m /\ bootable m) /\
   (extend_pcr tpm 0 raw).2 = Ok tt /\
   is_ok (quote (extend_pcr tpm 0 raw).1 0 (replicate 32 0)) = true) /\
  ((~ exists m, Manifest.decode raw creds = Ok m /\ bootable m) ->
   (initialise_with_tpm raw creds tpm).1 = tpm).
Proof using HL LL DL.
  destruct (Manifest.decode raw creds) as [m|e] eqn:Hd.
  - destruct (decide (bootable m)) as [Hb|Hb].
    + destruct (seed_state_ok raw creds m Hd Hb) as (g & l & Hs & _).
      unfold initialise_with_tpm. rewrite Hs.
      split; [|by intros []; exists m].
      destruct (extend_pcr tpm 0 raw) as [t [[]|e]]; cbn [fst snd].
      * destruct (quote t 0 (replicate 32 0)) as [q|e]; cbn [fst snd is_ok].
        -- split; [intros _; split; [by exists m|done]|intros _; by eexists].
        -- split; [by intros [? ?]|by intros (_ & _ & ?)].
      * split; [by intros [? ?]|by intros (_ & ? & _)].
    + destruct (seed_state_err raw creds m Hd Hb) as (e & He). unfold initialise_with_tpm. rewrite He.
      split; [|done]. split; [by intros [? ?]|]. intros ((m' & [= <-] & ?) & _). done.
  - unfold initialise_with_tpm, seed_state. rewrite Hd. cbn. split; [|done].
    split; [by intros [? ?]|by intros ((? & ? & _) & _)].
Qed.

End tpm.

(** ** Attestation *)

Section attestation.
Context `{SL : !Sha256Laws}.

Lemma same_or_collision (x y p : bytes) :
  digest (p ++ x) = digest (p ++ y) <-> x = y \/ sha_collision (p ++ x) (p ++ y).
Proof.
  split; [|intros [->|[_ ?]]; done]. intros Hd. destruct (decide (x = y)) as [->|Hne]; [by left|right].
  split; [|done]. by intros ?%app_inv_head.
Qed.

(** C37: The attestation chain.  Boot on a fresh software TPM, then answer the challenge
    [n]: the attestation verifies against that TPM.  A verifier with a reference TPM that
    was extended once, with the manifest it expects, accepts it exactly if the kernel booted
    those bytes, or SHA-256 collides on the two measurements.  The quote answers another
    challenge [n'] exactly if it is the same, or SHA-256 collides on the two signed
    strings. *)
Theorem attestation_proves_manifest raw creds tpm' st n att expected n' :
  initialise_with_tpm raw creds tpm_new = (tpm', Ok st) ->
  produce_attestation st tpm' n = Ok att ->
  attestation_verify att tpm' = Ok tt /\
  (attestation_verify att (extend_all tpm_new 0 [expected]) = Ok tt <->
   raw = expected \/ sha_collision (zero_pcr ++ raw) (zero_pcr ++ expected)) /\
  (attestation_verify (attestation_new (ba_manifest_hash att) (ba_pcr_index att) n' (ba_quote att)) tpm' = Ok tt <->
   n = n' \/ sha_collision (hash2 zero_pcr raw ++ n) (hash2 zero_pcr raw ++ n')).
Proof using HL LL DL SL.
  intros Hi Hp. destruct (boot_sound _ _ _ _ _ Hi) as (m & _ & _ & _ & _ & He & _).
  unfold produce_attestation in Hp. apply bind_Ok in Hp as (q & Hq & [= <-]).
  assert (tpm' = extend_all tpm_new 0 [raw]) as ->.
  { unfold extend_all. cbn [foldl]. by rewrite He. }
  assert (forall ms n1, attestation_verify (attestation_new (bs_manifest_hash st) 0 n1 q) (extend_all tpm_new 0 ms) = Ok tt <->
    hash2 zero_pcr raw = foldl hash2 zero_pcr ms /\ digest (hash2 zero_pcr raw ++ n) = digest (hash2 zero_pcr raw ++ n1)) as Hv.
  { intros ms n1. apply (quote_accepted 0 [raw] ms n n1 q); done. }
  cbn [ba_manifest_hash ba_pcr_index ba_quote attestation_new]. rewrite !Hv. cbn [foldl].
  rewrite <- !same_or_collision, !hash2_digest. tauto.
Qed.

End attestation.
End facts.

(** ** Witnesses *)

Module Witness.
#[local] Existing Instance ListModel.list_hvec.
#[local] Existing Instance ListModel.list_hvec_laws.
#[local] Existing Instance ListModel.list_iset.
#[local] Existing Instance ListModel.list_lmap.
#[local] Existing Instance ListModel.list_lmap_laws.
#[local] Existing Instance ListModel.bits_model.
#[local] Existing Instance ByteModel.toy_sha.
#[local] Existing Instance ByteModel.toy_sha_laws.
#[local] Existing Instance ByteModel.toy_ed.
#[local] Existing Instance ByteModel.list_decoder.
#[local] Existing Instance ByteModel.list_decoder_laws.
Import Manifest.Witness.

Lemma boots : exists (t : SoftwareTpm) st, initialise_with_tpm wire0 creds0 tpm_new = (t, Ok st).
Proof.
  assert (is_ok (initialise_with_tpm wire0 creds0 tpm_new).2 = true) as Hok by (vm_compute; reflexivity).
  destruct (is_ok_pair _ Hok) as [st Hst]. eauto.
Qed.

Lemma decodes : exists m, Manifest.decode wire0 creds0 = Ok m.
Proof.
  destruct (Manifest.decode wire0 creds0) as [m|e] eqn:E; [by exists m|]. vm_compute in E. discriminate.
Qed.

Lemma boot_realises_manifest_witness :
  exists m st, Manifest.decode wire0 creds0 = Ok m /\ realises m (bs_graph st) (bs_ledger st).
Proof.
  destruct boots as (t & st & Hst).
  destruct (boot_realises_manifest wire0 creds0 tpm_new t st Hst) as (m & Hd & Hr & _).
  exists m, st. split; [exact Hd|exact Hr].
Defined.

Lemma boot_succeeds_iff_witness : exists m, Manifest.decode wire0 creds0 = Ok m /\ bootable m.
Proof.
  destruct (boot_succeeds_iff wire0 creds0 tpm_new) as [H _]. apply H.
  destruct boots as (t & st & ->). exists st. reflexivity.
Defined.

Lemma quoted_booted (t : SoftwareTpm) (st : BootState) n :
  produce_attestation st t n =
  Ok (attestation_new (bs_manifest_hash st) 0 n (pcr_at t 0 ++ hash2 (pcr_at t 0) n)).
Proof. reflexivity. Qed.

Lemma attestation_proves_manifest_witness :
  exists (t : SoftwareTpm) att, attestation_verify att t = Ok tt /\
    attestation_verify att (extend_all tpm_new 0 [wire0]) = Ok tt.
Proof.
  destruct boots as (t & st & Hst). exists t. eexists.
  destruct (attestation_proves_manifest wire0 creds0 t st (replicate 32 7) _ wire0 [] Hst
              (quoted_booted t st (replicate 32 7))) as (Hv & Hx & _).
  split; [exact Hv|]. apply Hx. left. reflexivity.
Defined.

End Witness.
