(* ===== verification/Raft.v ===== *)
(** * Raft consensus

    Models [src/consensus/]: the bounded log ([log.rs]), the peer set ([peer.rs]), the
    messages ([protocol.rs]) and the state machine [RaftNode] ([raft.rs]).

    The transport is a trait that deployments implement, so it is a type class here and
    its state is threaded through the handlers that send.  An arithmetic overflow aborts
    the process, so every handler that adds returns an [option], [None] being the abort. *)
From S2P Require Import Prelude Heapless Types.
From stdpp Require Import base tactics list numbers option strings sets.
Open Scope Z_scope.

(** ** The log *)

Record LogEntry := mkEntry { le_term : Z; le_src : NodeId; le_dst : NodeId }.

#[global] Instance LogEntry_eq_dec : EqDecision LogEntry.
Proof. solve_decision. Defined.

(** The capacity [RaftLog] has in [RaftNode], and that of one [AppendEntries]. *)
Definition RAFT_LOG_CAP : nat := 256.
Definition AE_CAP : nat := 16.
Definition MAX_PEERS : nat := 16.
#[global] Arguments RAFT_LOG_CAP : simpl never.
#[global] Arguments AE_CAP : simpl never.
#[global] Arguments MAX_PEERS : simpl never.

Section log.
Context `{HV : HVec}.

Record RaftLog := mkLog { log_entries : hvec RAFT_LOG_CAP LogEntry }.

Definition log_new : RaftLog := {| log_entries := hv_new |}.

Definition default_log : RaftLog := log_new.

Definition log_append (self : RaftLog) (entry : LogEntry) : RaftLog * bool :=
  match hv_push (log_entries self) entry with
  | Some v => ({| log_entries := v |}, true)
  | None => (self, false)
  end.

Definition log_get (self : RaftLog) (index : Z) : option LogEntry :=
  if index =? 0 then None else hv_slice (log_entries self) !! Z.to_nat (index - 1).

Definition log_len (self : RaftLog) : Z := Z.of_nat (hv_len (log_entries self)).
Definition log_is_empty (self : RaftLog) : bool := log_len self =? 0.

Definition last_term (self : RaftLog) : Z :=
  match last (hv_slice (log_entries self)) with Some e => le_term e | None => 0 end.

Definition last_index (self : RaftLog) : Z := Z.of_nat (hv_len (log_entries self)).

Definition term_at (self : RaftLog) (index : Z) : option Z := le_term <$> log_get self index.

Definition truncate_from (self : RaftLog) (from_index : Z) : RaftLog :=
  if from_index =? 0 then self
  else {| log_entries := hv_truncate (log_entries self) (Z.to_nat (from_index - 1)) |}.

(** ** Peers *)

Record PeerSet := mkPeers { ps_peers : hvec MAX_PEERS NodeId }.

Definition peers_new : PeerSet := {| ps_peers := hv_new |}.

Definition peers_add (self : PeerSet) (peer : NodeId) : PeerSet * Result unit :=
  match hv_push (ps_peers self) peer with
  | Some v => ({| ps_peers := v |}, Ok tt)
  | None => (self, Err (ManifestInvalid "consensus peer set is full (max 16)"))
  end.

Definition peers (self : PeerSet) : list NodeId := hv_slice (ps_peers self).
Definition peers_len (self : PeerSet) : nat := hv_len (ps_peers self).
Definition peers_is_empty (self : PeerSet) : bool := bool_decide (peers_len self = 0)%nat.
Definition default_peers : PeerSet := peers_new.

Definition quorum_threshold (self : PeerSet) : nat :=
  let n := hv_len (ps_peers self) in
  if decide (n = 0)%nat then 0%nat else (n / 2 + 1)%nat.

(** ** Messages *)

Inductive RaftMessage :=
| RequestVote (term : Z) (candidate_id : NodeId) (last_log_index last_log_term : Z)
| RequestVoteReply (term : Z) (vote_granted : bool)
| AppendEntries (term : Z) (leader_id : NodeId) (prev_log_index prev_log_term : Z)
    (entries : hvec AE_CAP LogEntry) (leader_commit : Z)
| AppendEntriesReply (term : Z) (success : bool) (match_index : Z).

End log.

(** [trait RaftTransport]. *)
Class RaftTransport `{HV : HVec} (T : Type) := {
  rt_send : T -> NodeId -> RaftMessage -> T;
  rt_recv : T -> T * option (NodeId * RaftMessage);
}.

(** ** The node *)

Inductive RaftRole := Follower | Candidate | Leader.

#[global] Instance RaftRole_eq_dec : EqDecision RaftRole.
Proof. solve_decision. Defined.

Section node.
Context `{HV : HVec}.

Record RaftNode := mkNode {
  rn_id : NodeId;
  rn_role : RaftRole;
  rn_current_term : Z;
  rn_voted_for : option NodeId;
  rn_log : RaftLog;
  rn_commit_index : Z;
  rn_votes_granted : Z;
  rn_peers : hvec MAX_PEERS NodeId;
  rn_next_index : list Z;
  rn_match_index : list Z;
}.

(** Assignments to single fields. *)
Definition set_role (s : RaftNode) (x : RaftRole) : RaftNode :=
  mkNode (rn_id s) x (rn_current_term s) (rn_voted_for s) (rn_log s) (rn_commit_index s)
    (rn_votes_granted s) (rn_peers s) (rn_next_index s) (rn_match_index s).
Definition set_term (s : RaftNode) (x : Z) : RaftNode :=
  mkNode (rn_id s) (rn_role s) x (rn_voted_for s) (rn_log s) (rn_commit_index s)
    (rn_votes_granted s) (rn_peers s) (rn_next_index s) (rn_match_index s).
Definition set_voted (s : RaftNode) (x : option NodeId) : RaftNode :=
  mkNode (rn_id s) (rn_role s) (rn_current_term s) x (rn_log s) (rn_commit_index s)
    (rn_votes_granted s) (rn_peers s) (rn_next_index s) (rn_match_index s).
Definition set_log (s : RaftNode) (x : RaftLog) : RaftNode :=
  mkNode (rn_id s) (rn_role s) (rn_current_term s) (rn_voted_for s) x (rn_commit_index s)
    (rn_votes_granted s) (rn_peers s) (rn_next_index s) (rn_match_index s).
Definition set_commit (s : RaftNode) (x : Z) : RaftNode :=
  mkNode (rn_id s) (rn_role s) (rn_current_term s) (rn_voted_for s) (rn_log s) x
    (rn_votes_granted s) (rn_peers s) (rn_next_index s) (rn_match_index s).
Definition set_votes (s : RaftNode) (x : Z) : RaftNode :=
  mkNode (rn_id s) (rn_role s) (rn_current_term s) (rn_voted_for s) (rn_log s) (rn_commit_index s)
    x (rn_peers s) (rn_next_index s) (rn_match_index s).
Definition set_progress (s : RaftNode) (next mtch : list Z) : RaftNode :=
  mkNode (rn_id s) (rn_role s) (rn_current_term s) (rn_voted_for s) (rn_log s) (rn_commit_index s)
    (rn_votes_granted s) (rn_peers s) next mtch.

(** [RaftNode::new]; a failed push is ignored. *)
Definition node_new (id : NodeId) (peer_set : PeerSet) : RaftNode := {|
  rn_id := id; rn_role := Follower; rn_current_term := 0; rn_voted_for := None;
  rn_log := log_new; rn_commit_index := 0; rn_votes_granted := 0;
  rn_peers := foldl (fun v p => default v (hv_push v p)) hv_new (hv_slice (ps_peers peer_set));
  rn_next_index := replicate MAX_PEERS 1;
  rn_match_index := replicate MAX_PEERS 0;
|}.

Definition role (self : RaftNode) : RaftRole := rn_role self.
Definition commit_index (self : RaftNode) : Z := rn_commit_index self.
Definition is_leader (self : RaftNode) : bool := bool_decide (rn_role self = Leader).
Definition node_log_len (self : RaftNode) : Z := log_len (rn_log self).

(** [self.peers.len()]. *)
Definition n_peers (self : RaftNode) : nat := hv_len (rn_peers self).

(** [peers.len().div_ceil(2) + 1]. *)
Definition quorum (self : RaftNode) : nat := ((n_peers self + 1) / 2 + 1)%nat.

Definition peer_index (self : RaftNode) (peer : NodeId) : option nat :=
  fst <$> list_find (fun p => p = peer) (hv_slice (rn_peers self)).

Definition step_down (self : RaftNode) (term : Z) : RaftNode :=
  set_voted (set_role (set_term self term) Follower) None.

Definition log_up_to_date_for (self : RaftNode) (last_log_index last_log_term : Z) : bool :=
  (last_term (rn_log self) <? last_log_term) ||
  ((last_log_term =? last_term (rn_log self)) && (last_index (rn_log self) <=? last_log_index)).

(** The loop sets both arrays at each index below the number of peers. *)
Definition become_leader (self : RaftNode) : option RaftNode :=
  let self := set_role self Leader in
  next ← add_u64 (last_index (rn_log self)) 1;
  Some (foldl (fun s i => set_progress s (<[i := next]> (rn_next_index s)) (<[i := 0]> (rn_match_index s)))
          self (seq 0 (n_peers self))).

(** [while let Some(&entry) = self.log.get(idx)] in [send_ae_to]: the push into a vector of
    sixteen fails at the latest on the seventeenth iteration. *)
Fixpoint gather (fuel : nat) (log : RaftLog) (entries : hvec AE_CAP LogEntry) (idx : Z)
    : option (hvec AE_CAP LogEntry) :=
  match fuel with
  | O => Some entries
  | S fuel' =>
      match log_get log idx with
      | None => Some entries
      | Some entry =>
          match hv_push entries entry with
          | None => Some entries
          | Some entries' => idx' ← add_u64 idx 1; gather fuel' log entries' idx'
          end
      end
  end.

(** The entry indices the loop of [advance_commit_index] tries, in its order. *)
Definition commit_candidates (commit_index log_len : Z) : list Z :=
  reverse (seqZ (commit_index + 1) (log_len - commit_index)).

(** How many nodes hold the entry at [n], this one included. *)
Definition acked (self : RaftNode) (n : Z) : nat :=
  S (length (filter (fun m => n <= m) (take (n_peers self) (rn_match_index self)))).

Definition committable (self : RaftNode) (n : Z) : bool :=
  bool_decide (term_at (rn_log self) n = Some (rn_current_term self)) &&
  bool_decide (quorum self <= acked self n)%nat.

Definition advance_commit_index (self : RaftNode) : option (RaftNode * bool) :=
  let old := rn_commit_index self in
  let log_len := last_index (rn_log self) in
  _ ← add_u64 (rn_commit_index self) 1;
  let self' :=
    match list_find (fun n => committable self n = true) (commit_candidates old log_len) with
    | Some (_, n) => set_commit self n
    | None => self
    end in
  Some (self', old <? rn_commit_index self').

(** One iteration of the loop of [append_log_entries]. *)
Definition append_one (log : RaftLog) (log_idx : Z) (entry : LogEntry) : RaftLog :=
  let log :=
    match term_at log log_idx with
    | Some existing_term => if negb (existing_term =? le_term entry) then truncate_from log log_idx else log
    | None => log
    end in
  match log_get log log_idx with
  | None => (log_append log entry).1
  | Some _ => log
  end.

Fixpoint append_loop (log : RaftLog) (log_idx : Z) (entries : list LogEntry) : option RaftLog :=
  match entries with
  | [] => Some log
  | entry :: entries' =>
      let log := append_one log log_idx entry in
      log_idx ← add_u64 log_idx 1;
      append_loop log log_idx entries'
  end.

Definition append_log_entries (self : RaftNode) (prev_log_index : Z) (entries : list LogEntry)
    : option (RaftNode * Z) :=
  log_idx ← add_u64 prev_log_index 1;
  log ← append_loop (rn_log self) log_idx entries;
  matched ← add_u64 prev_log_index (Z.of_nat (length entries));
  Some (set_log self log, matched).

Section transport.
Context {T : Type} `{RT : !RaftTransport T}.

Definition start_election (self : RaftNode) (transport : T) : option (RaftNode * T) :=
  term ← add_u64 (rn_current_term self) 1;
  let self := set_votes (set_voted (set_role (set_term self term) Candidate) (Some (rn_id self))) 1 in
  if decide (n_peers self = 0)%nat then self ← become_leader self; Some (self, transport)
  else
    let msg := RequestVote (rn_current_term self) (rn_id self) (last_index (rn_log self))
                 (last_term (rn_log self)) in
    Some (self, foldl (fun t p => rt_send t p msg) transport (hv_slice (rn_peers self))).

Definition send_ae_to (self : RaftNode) (peer_idx : nat) (transport : T) : option T :=
  match hv_slice (rn_peers self) !! peer_idx with
  | None => Some transport
  | Some peer =>
      let next := default 0 (rn_next_index self !! peer_idx) in
      let prev_index := saturating_sub_u64 next 1 in
      let prev_term :=
        if prev_index =? 0 then 0 else default 0 (term_at (rn_log self) prev_index) in
      entries ← gather (S AE_CAP) (rn_log self) hv_new next;
      Some (rt_send transport peer
              (AppendEntries (rn_current_term self) (rn_id self) prev_index prev_term entries
                 (rn_commit_index self)))
  end.

(** [for idx in 0..self.peers.len() { self.send_ae_to(idx, transport) }]. *)
Definition broadcast_ae (self : RaftNode) (transport : T) : option T :=
  foldl (fun ot i => t ← ot; send_ae_to self i t) (Some transport) (seq 0 (n_peers self)).

Definition propose (self : RaftNode) (src dst : NodeId) (transport : T)
    : option (RaftNode * T * Result unit) :=
  if negb (is_leader self) then
    Some (self, transport, Err (UndefinedState "raft: cannot propose — not leader"))
  else
    let entry := {| le_term := rn_current_term self; le_src := src; le_dst := dst |} in
    let '(log, ok) := log_append (rn_log self) entry in
    if negb ok then Some (self, transport, Err (QuotaExceeded "raft log at capacity"))
    else
      let self := set_log self log in
      let entry_index := last_index log in
      if decide (n_peers self = 0)%nat then Some (set_commit self entry_index, transport, Ok tt)
      else transport ← broadcast_ae self transport; Some (self, transport, Ok tt).

Definition on_request_vote (self : RaftNode) (from : NodeId) (term : Z) (candidate_id : NodeId)
    (last_log_index last_log_term : Z) (transport : T) : RaftNode * T :=
  let self := if rn_current_term self <? term then step_down self term else self in
  let log_ok := log_up_to_date_for self last_log_index last_log_term in
  let can_vote := match rn_voted_for self with None => true | Some v => v =? candidate_id end in
  let vote_granted := (rn_current_term self <=? term) && log_ok && can_vote in
  let self := if vote_granted then set_voted self (Some candidate_id) else self in
  (self, rt_send transport from (RequestVoteReply (rn_current_term self) vote_granted)).

Definition on_vote_reply (self : RaftNode) (term : Z) (vote_granted : bool)
    : option RaftNode :=
  if rn_current_term self <? term then Some (step_down self term)
  else if negb (bool_decide (rn_role self = Candidate)) || negb (term =? rn_current_term self)
  then Some self
  else
    self ← (if vote_granted then votes ← add_u64 (rn_votes_granted self) 1; Some (set_votes self votes)
            else Some self);
    if Z.of_nat (quorum self) <=? rn_votes_granted self then become_leader self else Some self.

Definition on_append_entries (self : RaftNode) (from : NodeId) (term prev_log_index prev_log_term : Z)
    (entries : hvec AE_CAP LogEntry) (leader_commit : Z) (transport : T) : option (RaftNode * T) :=
  let reply self success m :=
    rt_send transport from (AppendEntriesReply (rn_current_term self) success m) in
  if term <? rn_current_term self then Some (self, reply self false 0)
  else
    let self := if rn_current_term self <? term then step_down self term else set_role self Follower in
    let prev_ok := (prev_log_index =? 0) ||
                   bool_decide (term_at (rn_log self) prev_log_index = Some prev_log_term) in
    if negb prev_ok then Some (self, reply self false 0)
    else
      '(self, matched) ← append_log_entries self prev_log_index (hv_slice entries);
      let self := if rn_commit_index self <? leader_commit
                  then set_commit self (Z.min leader_commit (last_index (rn_log self))) else self in
      Some (self, reply self true matched).

Definition on_ae_reply (self : RaftNode) (from : NodeId) (term : Z) (success : bool) (match_index : Z)
    : option (RaftNode * option LogEntry) :=
  if rn_current_term self <? term then Some (step_down self term, None)
  else if negb (is_leader self) || negb (term =? rn_current_term self) then Some (self, None)
  else
    match peer_index self from with
    | None => Some (self, None)
    | Some peer_idx =>
        self ← (if success then
                  next ← add_u64 match_index 1;
                  Some (set_progress self (<[peer_idx := next]> (rn_next_index self))
                          (<[peer_idx := match_index]> (rn_match_index self)))
                else
                  let next := default 0 (rn_next_index self !! peer_idx) in
                  Some (if 1 <? next
                        then set_progress self (<[peer_idx := next - 1]> (rn_next_index self)) (rn_match_index self)
                        else self));
        if success then
          match advance_commit_index self with
          | None => None
          | Some (self, advanced) =>
              Some (self, if advanced then log_get (rn_log self) (rn_commit_index self) else None)
          end
        else Some (self, None)
    end.

Definition step (self : RaftNode) (from : NodeId) (msg : RaftMessage) (transport : T)
    : option (RaftNode * T * option LogEntry) :=
  match msg with
  | RequestVote term candidate_id last_log_index last_log_term =>
      let '(self, transport) :=
        on_request_vote self from term candidate_id last_log_index last_log_term transport in
      Some (self, transport, None)
  | RequestVoteReply term vote_granted =>
      self ← on_vote_reply self term vote_granted; Some (self, transport, None)
  | AppendEntries term _ prev_log_index prev_log_term entries leader_commit =>
      '(self, transport) ←
        on_append_entries self from term prev_log_index prev_log_term entries leader_commit transport;
      Some (self, transport, None)
  | AppendEntriesReply term success match_index =>
      '(self, committed) ← on_ae_reply self from term success match_index;
      Some (self, transport, committed)
  end.

End transport.
End node.

(** ** Sequences of operations *)

(** A transport that records what is sent and delivers nothing. *)
Definition Outbox `{HV : HVec} : Type := list (NodeId * RaftMessage).

#[global] Instance outbox_transport `{HV : HVec} : RaftTransport Outbox := {|
  rt_send := fun t p m => t ++ [(p, m)];
  rt_recv := fun t => (t, None);
|}.

Section facts.
Context `{HV : HVec}.
Implicit Types (s : RaftNode).

Inductive raft_op :=
| OpElect
| OpPropose (src dst : NodeId)
| OpStep (from : NodeId) (msg : RaftMessage).

Definition raft_apply {T} `{RT : !RaftTransport T} (s : RaftNode) (t : T) (o : raft_op)
    : option (RaftNode * T) :=
  match o with
  | OpElect => start_election s t
  | OpPropose src dst => '(s', t', _) ← propose s src dst t; Some (s', t')
  | OpStep from msg => '(s', t', _) ← step s from msg t; Some (s', t')
  end.

Fixpoint raft_run {T} `{RT : !RaftTransport T} (s : RaftNode) (t : T) (ops : list raft_op)
    : option (RaftNode * T) :=
  match ops with
  | [] => Some (s, t)
  | o :: ops' => '(s', t') ← raft_apply s t o; raft_run s' t' ops'
  end.

(** ** Terms and votes *)

(** The term never decreases, and within a term a vote is never changed. *)
Definition later s s' : Prop :=
  rn_current_term s <= rn_current_term s' /\
  (rn_current_term s' = rn_current_term s ->
   forall c, rn_voted_for s = Some c -> rn_voted_for s' = Some c).

#[global] Instance later_preorder : PreOrder later.
Proof.
  split; [by intros s; split|]. intros s1 s2 s3 [H1 V1] [H2 V2]. split; [lia|].
  intros He c Hc. apply V2; [lia|]. apply V1; [lia|done].
Qed.

Lemma later_same s s' :
  rn_current_term s' = rn_current_term s -> rn_voted_for s' = rn_voted_for s -> later s s'.
Proof. intros Ht Hv. split; [lia|]. intros _ c. by rewrite Hv. Qed.

Lemma later_step_down s term : rn_current_term s < term -> later s (step_down s term).
Proof. intros Hlt. split; cbn; lia. Qed.

Lemma progress_fields next l s :
  let s' := foldl (fun s i => set_progress s (<[i := next]> (rn_next_index s)) (<[i := 0]> (rn_match_index s))) s l in
  rn_id s' = rn_id s /\ rn_role s' = rn_role s /\ rn_current_term s' = rn_current_term s /\
  rn_voted_for s' = rn_voted_for s /\ rn_log s' = rn_log s /\
  rn_commit_index s' = rn_commit_index s /\ rn_votes_granted s' = rn_votes_granted s /\
  rn_peers s' = rn_peers s.
Proof. revert s. induction l as [|i l IH]; intros s; cbn; [done|]. by apply (IH (set_progress s _ _)). Qed.

Lemma become_leader_fields s s' :
  become_leader s = Some s' ->
  rn_role s' = Leader /\ rn_current_term s' = rn_current_term s /\ rn_voted_for s' = rn_voted_for s /\
  rn_log s' = rn_log s /\ rn_peers s' = rn_peers s /\ rn_commit_index s' = rn_commit_index s /\
  rn_votes_granted s' = rn_votes_granted s.
Proof.
  unfold become_leader. destruct (add_u64 _ _) as [next|]; cbn; [|done]. intros [= <-].
  pose proof (progress_fields next (seq 0 (n_peers (set_role s Leader))) (set_role s Leader)) as H.
  cbn in H. by destruct H as (_ & -> & -> & -> & -> & -> & -> & ->).
Qed.

Lemma on_vote_reply_later s term g s' : on_vote_reply s term g = Some s' -> later s s'.
Proof.
  unfold on_vote_reply. destruct (Z.ltb_spec (rn_current_term s) term).
  { intros [= <-]. by apply later_step_down. }
  destruct (_ || _); [by intros [= <-]|].
  intros (s1 & Hs1 & Hr)%bind_Some.
  assert (rn_current_term s1 = rn_current_term s /\ rn_voted_for s1 = rn_voted_for s) as [Ht Hv].
  { destruct g; [apply bind_Some in Hs1 as (v & _ & Hs1)|]; by injection Hs1 as <-. }
  destruct (_ <=? _); [|injection Hr as <-; by apply later_same].
  apply become_leader_fields in Hr as (_ & Ht' & Hv' & _). apply later_same; congruence.
Qed.

Lemma append_log_entries_fields s prev es s' m :
  append_log_entries s prev es = Some (s', m) ->
  s' = set_log s (rn_log s') /\ append_loop (rn_log s) (prev + 1) es = Some (rn_log s') /\
  m = prev + Z.of_nat (length es).
Proof.
  unfold append_log_entries. intros (i & Hi & H)%bind_Some. apply bind_Some in H as (log & Hl & H).
  apply bind_Some in H as (m' & Hm & H). injection H as <- <-.
  apply add_u64_Some in Hi as [_ ->]. apply add_u64_Some in Hm as [_ ->]. done.
Qed.

Lemma advance_commit_fields s s' b :
  advance_commit_index s = Some (s', b) ->
  exists n, s' = set_commit s n /\ rn_commit_index s <= n /\ b = (rn_commit_index s <? n) /\
    (rn_commit_index s < n -> n <= last_index (rn_log s) /\ committable s n = true).
Proof.
  unfold advance_commit_index. intros (i & _ & H)%bind_Some. cbn in H.
  destruct (list_find _ _) as [[j n]|] eqn:Hf; injection H as <- <-.
  - apply list_find_Some in Hf as (Hj & Hc & _). apply list_elem_of_lookup_2 in Hj.
    unfold commit_candidates in Hj. rewrite elem_of_reverse, elem_of_seqZ in Hj.
    exists n. cbn. split; [done|]. split; [lia|]. split; [done|]. intros _. split; [lia|done].
  - exists (rn_commit_index s). split; [by destruct s|]. split; [lia|]. split; [done|lia].
Qed.

Lemma on_ae_reply_cases s from term ok m s' r :
  on_ae_reply s from term ok m = Some (s', r) ->
  later s s' /\
  (forall e, r = Some e -> exists s1, advance_commit_index s1 = Some (s', true) /\
     rn_role s1 = Leader /\ rn_commit_index s1 = rn_commit_index s /\
     log_get (rn_log s') (rn_commit_index s') = Some e).
Proof.
  unfold on_ae_reply. destruct (Z.ltb_spec (rn_current_term s) term).
  { intros [= <- <-]. split; [by apply later_step_down|done]. }
  destruct (_ || _) eqn:Hl; [intros [= <- <-]; by split|].
  apply orb_false_iff in Hl as [Hl%negb_false_iff%bool_decide_eq_true _].
  destruct (peer_index s from) as [i|]; [|intros [= <- <-]; by split].
  intros (s1 & Hs1 & H2)%bind_Some.
  assert (exists nx mt, s1 = set_progress s nx mt) as (nx & mt & ->).
  { destruct ok; [apply bind_Some in Hs1 as (x & _ & Hs1)|]; injection Hs1 as <-; [by eexists _, _|].
    case_match; [by eexists _, _|]. exists (rn_next_index s), (rn_match_index s). by destruct s. }
  destruct ok; [|injection H2 as <- <-; split; [by apply later_same|done]].
  destruct (advance_commit_index _) as [[s2 adv]|] eqn:Ha; [|done].
  injection H2 as <- <-. split.
  - apply advance_commit_fields in Ha as (n & -> & _). by apply later_same.
  - intros e He. destruct adv; [|done]. exists (set_progress s nx mt). done.
Qed.

Lemma on_request_vote_later {T} `{RT : !RaftTransport T} s from term c i lt (t : T) :
  later s (on_request_vote s from term c i lt t).1.
Proof.
  unfold on_request_vote. set (s1 := if _ <? term then _ else _). cbn.
  assert (later s s1) as H1.
  { unfold s1. destruct (Z.ltb_spec (rn_current_term s) term); [by apply later_step_down|done]. }
  etrans; [exact H1|]. clearbody s1. destruct (_ && _) eqn:E; [|done]. split; [done|].
  intros _ c' Hc'. cbn. apply andb_true_iff in E as [_ E]. rewrite Hc' in E.
  apply Z.eqb_eq in E. congruence.
Qed.

Lemma on_append_entries_later {T} `{RT : !RaftTransport T} s from term pi pt es lc (t t' : T) s' :
  on_append_entries s from term pi pt es lc t = Some (s', t') -> later s s'.
Proof.
  unfold on_append_entries. destruct (_ <? _); [by intros [= <- <-]|].
  set (s1 := if _ <? term then _ else _).
  assert (later s s1) as H1.
  { unfold s1. destruct (Z.ltb_spec (rn_current_term s) term); [by apply later_step_down|done]. }
  clearbody s1. destruct (negb _); [by intros [= <- <-]|].
  intros ([s2 m] & Ha & H2)%bind_Some. injection H2 as <- _.
  apply append_log_entries_fields in Ha as (-> & _). etrans; [exact H1|].
  by apply later_same; destruct (_ <? _).
Qed.

Lemma step_later {T} `{RT : !RaftTransport T} s from msg (t t' : T) s' r :
  step s from msg t = Some (s', t', r) -> later s s'.
Proof.
  destruct msg as [term c i lt|term g|term lid pi pt es lc|term ok m]; unfold step.
  - pose proof (on_request_vote_later s from term c i lt t) as Hl.
    destruct (on_request_vote _ _ _ _ _ _ _) as [s1 t1]. by intros [= <- _ _].
  - intros (s1 & H1 & [= <- _ _])%bind_Some. by eapply on_vote_reply_later.
  - intros ([s1 t1] & H1 & [= <- _ _])%bind_Some. by eapply on_append_entries_later.
  - intros ([s1 r1] & H1 & [= <- _ _])%bind_Some. by apply on_ae_reply_cases in H1 as [? _].
Qed.

Lemma start_election_fields {T} `{RT : !RaftTransport T} s (t t' : T) s' :
  start_election s t = Some (s', t') ->
  rn_current_term s' = rn_current_term s + 1 /\ rn_voted_for s' = Some (rn_id s) /\
  rn_log s' = rn_log s /\ rn_commit_index s' = rn_commit_index s /\ rn_peers s' = rn_peers s /\
  (rn_role s' = Leader <-> n_peers s = 0%nat) /\ rn_votes_granted s' = 1.
Proof.
  unfold start_election. intros (term & [_ ->]%add_u64_Some & H)%bind_Some. cbn in H.
  unfold n_peers in *. cbn in H. case_decide as Hn.
  - apply bind_Some in H as (s1 & Hb & [= <- _]).
    apply become_leader_fields in Hb as (-> & -> & -> & -> & -> & -> & ->). done.
  - injection H as <- _. cbn. done.
Qed.

Lemma propose_fields {T} `{RT : !RaftTransport T} s src dst (t t' : T) s' r :
  propose s src dst t = Some (s', t', r) ->
  rn_current_term s' = rn_current_term s /\ rn_voted_for s' = rn_voted_for s /\ rn_role s' = rn_role s.
Proof.
  unfold propose. destruct (negb _); [by intros [= <- _ _]|].
  destruct (log_append _ _) as [log [|]]; cbn; [|by intros [= <- _ _]].
  case_decide; [by intros [= <- _ _]|]. by intros (t1 & _ & [= <- _ _])%bind_Some.
Qed.

Lemma raft_apply_later {T} `{RT : !RaftTransport T} s (t t' : T) o s' :
  raft_apply s t o = Some (s', t') -> later s s'.
Proof.
  destruct o as [|src dst|from msg]; cbn.
  - intros (Ht & _)%start_election_fields. split; lia.
  - intros ([[s1 t1] r] & (Ht & Hv & _)%propose_fields & [= <- _])%bind_Some. by apply later_same.
  - intros ([[s1 t1] r] & H1 & [= <- _])%bind_Some. by eapply step_later.
Qed.

Lemma raft_run_later {T} `{RT : !RaftTransport T} ops s (t t' : T) s' :
  raft_run s t ops = Some (s', t') -> later s s'.
Proof.
  revert s t. induction ops as [|o ops IH]; intros s t; cbn; [by intros [= <- _]|].
  intros ([s1 t1] & H1 & H2)%bind_Some. etrans; [by eapply raft_apply_later|by eapply IH].
Qed.

(** The node answers a vote request of candidate [c] in term [t] with a granted vote. *)
Definition grants s (from : NodeId) (t : Z) (c : NodeId) (i lt : Z) s' : Prop :=
  step s from (RequestVote t c i lt) ([] : Outbox) = Some (s', [(from, RequestVoteReply t true)], None).

Lemma grants_voted s from t c i lt s' :
  grants s from t c i lt s' -> rn_current_term s' = t /\ rn_voted_for s' = Some c.
Proof.
  unfold grants, step. destruct (on_request_vote _ _ _ _ _ _ _) as [s1 t1] eqn:E. intros [= -> Ht1].
  unfold on_request_vote in E. cbn [rt_send outbox_transport] in E. injection E as <- <-.
  cbn in Ht1. injection Ht1 as Ht Hg. rewrite Hg in Ht |- *. done.
Qed.

(** One vote per term.  If a node grants its vote to candidate [c] in term [t], and
    later, after any elections, proposals and messages it processed, grants its vote in
    term [t] again, it is to the same candidate. *)
Theorem one_vote_per_term s from t c i lt s1 (out : Outbox) ops s2 out2 from' c' i' lt' s3 :
  grants s from t c i lt s1 -> raft_run s1 out ops = Some (s2, out2) ->
  grants s2 from' t c' i' lt' s3 -> c' = c.
Proof.
  intros [Ht1 Hv1]%grants_voted Hrun Hg. pose proof (raft_run_later _ _ _ _ _ Hrun) as [Hle Hkeep].
  pose proof (step_later _ _ _ _ _ _ _ Hg) as [Hle3 Hkeep3].
  apply grants_voted in Hg as [Ht3 Hv3].
  assert (rn_current_term s2 = rn_current_term s1) as He by lia.
  rewrite (Hkeep3 ltac:(lia) c (Hkeep He c Hv1)) in Hv3. congruence.
Qed.

(** ** Quorums *)

(** A quorum is a strict majority of the node and its peers. *)
Lemma quorum_majority s : (n_peers s + 1 < 2 * quorum s)%nat.
Proof.
  unfold quorum. pose proof (Nat.div_mod (n_peers s + 1) 2 ltac:(lia)).
  pose proof (Nat.mod_upper_bound (n_peers s + 1) 2 ltac:(lia)). lia.
Qed.

Lemma committable_spec s n :
  committable s n = true -> term_at (rn_log s) n = Some (rn_current_term s) /\
    (quorum s <= acked s n)%nat.
Proof. unfold committable. by rewrite andb_true_iff, !bool_decide_eq_true. Qed.

(** Commits are backed by a majority.  When [step] reports a committed entry, the node
    is the leader, the commit index has moved forward within the log and points to that
    entry, the entry is of the leader's current term, and the leader together with the
    peers whose match index reaches it form a quorum, which is a strict majority of the
    cluster. *)
Theorem commit_needs_quorum {T} `{RT : !RaftTransport T} s from msg (t t' : T) s' e :
  step s from msg t = Some (s', t', Some e) ->
  rn_role s' = Leader /\ rn_commit_index s < rn_commit_index s' <= last_index (rn_log s') /\
  log_get (rn_log s') (rn_commit_index s') = Some e /\ le_term e = rn_current_term s' /\
  (quorum s' <= acked s' (rn_commit_index s'))%nat /\ (n_peers s' + 1 < 2 * quorum s')%nat.
Proof.
  destruct msg as [term c i lt|term g|term lid pi pt es lc|term ok m]; unfold step.
  - by destruct (on_request_vote _ _ _ _ _ _ _).
  - by intros (s1 & _ & [=])%bind_Some.
  - by intros ([s1 t1] & _ & [=])%bind_Some.
  - intros ([s1 r] & Hr & [= -> _ ->])%bind_Some.
    apply on_ae_reply_cases in Hr as (_ & Hr). destruct (Hr e eq_refl) as (s1 & Ha & Hl & Hci & Hg).
    apply advance_commit_fields in Ha as (n & -> & _ & Hb & Hn). symmetry in Hb.
    apply Z.ltb_lt in Hb. destruct (Hn Hb) as [Hle Hc]. apply committable_spec in Hc as [Hterm Hq].
    cbn in *. split; [done|]. split; [lia|]. split; [done|]. split; [|split; [done|]].
    + unfold term_at in Hterm. rewrite Hg in Hterm. by injection Hterm.
    + apply quorum_majority.
Qed.

(** The identity of a voter is not looked at: a vote reply has the same effect whoever
    sends it, so one peer, or a node that is no peer, can fill a quorum by repeating
    itself. *)
Theorem vote_sender_ignored {T} `{RT : !RaftTransport T} s from from' term g (t : T) :
  step s from (RequestVoteReply term g) t = step s from' (RequestVoteReply term g) t.
Proof. done. Qed.

(** A successful reply with the largest match index aborts the leader: [match_index + 1]
    overflows. *)
Theorem reply_overflow_aborts {T} `{RT : !RaftTransport T} s from (t : T) i :
  rn_role s = Leader -> peer_index s from = Some i ->
  step s from (AppendEntriesReply (rn_current_term s) true U64_MAX) t = None.
Proof.
  intros Hl Hp. cbn. unfold on_ae_reply. rewrite Z.ltb_irrefl, Z.eqb_refl, Hp.
  unfold is_leader. by rewrite bool_decide_true.
Qed.

(** ** Replication *)

Context `{HL : !HVecLaws}.

Definition entries_of (l : RaftLog) : list LogEntry := hv_slice (log_entries l).

Lemma last_index_entries l : last_index l = Z.of_nat (length (entries_of l)).
Proof. done. Qed.

Lemma log_get_nat l k : log_get l (Z.of_nat k + 1) = entries_of l !! k.
Proof.
  unfold log_get. destruct (Z.eqb_spec (Z.of_nat k + 1) 0); [lia|].
  by replace (Z.to_nat (Z.of_nat k + 1 - 1)) with k by lia.
Qed.

Lemma term_at_nat l k : term_at l (Z.of_nat k + 1) = le_term <$> entries_of l !! k.
Proof. unfold term_at. by rewrite log_get_nat. Qed.

Lemma log_append_room l e :
  (length (entries_of l) < RAFT_LOG_CAP)%nat -> entries_of (log_append l e).1 = entries_of l ++ [e].
Proof using HL.
  intros Hl. unfold log_append. destruct (hv_push_room _ _ (log_entries l) e Hl) as (v & -> & Hv). done.
Qed.

Lemma log_append_ok l e l' :
  log_append l e = (l', true) -> entries_of l' = entries_of l ++ [e] /\ (length (entries_of l) < RAFT_LOG_CAP)%nat.
Proof using HL.
  unfold log_append. destruct (hv_push _ _) as [v|] eqn:Hv; [|done]. intros [= <-].
  by apply hv_push_Some in Hv as [? ?].
Qed.

Lemma log_append_full l e :
  (RAFT_LOG_CAP <= length (entries_of l))%nat -> log_append l e = (l, false).
Proof using HL. intros Hl. unfold log_append. by rewrite hv_push_full. Qed.

Lemma truncate_nat l k : entries_of (truncate_from l (Z.of_nat k + 1)) = take k (entries_of l).
Proof using HL.
  unfold truncate_from. destruct (Z.eqb_spec (Z.of_nat k + 1) 0); [lia|]. unfold entries_of. cbn.
  rewrite hv_slice_truncate. by replace (Z.to_nat (Z.of_nat k + 1 - 1)) with k by lia.
Qed.

(** An entry whose position is within the log or just after it. *)
Lemma append_one_entries l k e :
  (k <= length (entries_of l))%nat -> (k < RAFT_LOG_CAP)%nat ->
  entries_of (append_one l (Z.of_nat k + 1) e) =
  match entries_of l !! k with
  | Some x => if le_term x =? le_term e then entries_of l else take k (entries_of l) ++ [e]
  | None => entries_of l ++ [e]
  end.
Proof using HL.
  intros Hk Hc. unfold append_one. rewrite term_at_nat.
  destruct (entries_of l !! k) as [x|] eqn:Hx; cbn.
  - destruct (le_term x =? le_term e); cbn; [by rewrite log_get_nat, Hx|].
    rewrite log_get_nat, truncate_nat, lookup_take_ge by lia.
    rewrite log_append_room by (rewrite truncate_nat, length_take; lia). by rewrite truncate_nat.
  - rewrite log_get_nat, Hx. apply log_append_room. apply lookup_ge_None in Hx. lia.
Qed.

Lemma append_one_spec l k e :
  (k <= length (entries_of l))%nat -> (k < RAFT_LOG_CAP)%nat ->
  let l' := entries_of (append_one l (Z.of_nat k + 1) e) in
  take k l' = take k (entries_of l) /\ (exists x, l' !! k = Some x /\ le_term x = le_term e) /\
  ((forall x, entries_of l !! k = Some x -> le_term x = le_term e) -> entries_of l `prefix_of` l').
Proof using HL.
  intros Hk Hc. cbn zeta. rewrite append_one_entries by done.
  destruct (entries_of l !! k) as [x|] eqn:Hx.
  - destruct (Z.eqb_spec (le_term x) (le_term e)) as [He|He].
    + split; [done|]. split; [eauto|done].
    + assert (length (take k (entries_of l)) = k) as Hlen by (rewrite length_take; lia).
      split; [by rewrite take_app_length'|]. split; [|naive_solver].
      exists e. by rewrite lookup_app_r, Hlen, Nat.sub_diag by lia.
  - apply lookup_ge_None in Hx. split; [by rewrite take_app_le|]. split.
    + exists e. by rewrite lookup_app_r by lia; replace (k - _)%nat with 0%nat by lia.
    + intros _. by exists [e].
Qed.

Lemma append_loop_spec es : forall l k,
  (k <= length (entries_of l))%nat -> (k + length es <= RAFT_LOG_CAP)%nat ->
  exists l', append_loop l (Z.of_nat k + 1) es = Some l' /\
    take k (entries_of l') = take k (entries_of l) /\
    le_term <$> take (length es) (drop k (entries_of l')) = le_term <$> es /\
    ((forall j x e, entries_of l !! (k + j)%nat = Some x -> es !! j = Some e -> le_term x = le_term e) ->
     entries_of l `prefix_of` entries_of l').
Proof using HL.
  induction es as [|e es IH]; intros l k Hk Hc; cbn [append_loop].
  - exists l. done.
  - cbn in Hc. destruct (append_one_spec l k e Hk) as (Ht & (x & Hx & Hxe) & Hp); [lia|].
    set (l1 := append_one l _ e) in *.
    assert (RAFT_LOG_CAP = 256%nat) as Hcap by done. rewrite add_u64_fits by (unfold_width; lia).
    replace (Z.of_nat k + 1 + 1) with (Z.of_nat (S k) + 1) by lia. cbn [mbind option_bind].
    destruct (IH l1 (S k)) as (l' & Hl' & Ht' & Hm' & Hp').
    { by apply lookup_lt_Some in Hx. }
    { lia. }
    exists l'. split; [done|].
    assert (entries_of l' !! k = Some x) as Hxk.
    { rewrite <- (lookup_take_lt _ (S k)), Ht', lookup_take_lt by lia. done. }
    split; [|split].
    + rewrite <- Ht. rewrite <- (Nat.min_l k (S k)) by lia. by rewrite <- !take_take, Ht'.
    + rewrite (drop_S _ _ _ Hxk). cbn. rewrite Hxe. f_equal. exact Hm'.
    + intros Hno. assert (entries_of l `prefix_of` entries_of l1) as Hp1.
      { apply Hp. intros y Hy. apply (Hno 0%nat y e); [by rewrite Nat.add_0_r|done]. }
      etrans; [exact Hp1|]. apply Hp'. intros j y e' Hy He'.
      destruct (entries_of l !! (S k + j)%nat) as [z|] eqn:Hz.
      * assert (z = y) as ->.
        { pose proof (prefix_lookup_Some _ _ _ _ Hz Hp1). congruence. }
        apply (Hno (S j) y e'); [by rewrite Nat.add_succ_r|done].
      * exfalso. apply lookup_ge_None in Hz. apply lookup_lt_Some in Hy.
        unfold l1 in Hy. rewrite append_one_entries in Hy by lia.
        destruct (entries_of l !! k) as [w|] eqn:Hw; [destruct (_ =? _)|apply lookup_ge_None in Hw];
          rewrite ?length_app, ?length_take in Hy; cbn in Hy; lia.
Qed.

(** Log matching on a follower.  When the previous index is within its log and the
    entries fit, [append_log_entries] returns the index of the last new entry, keeps every
    entry up to the previous index, and afterwards holds, from there on, entries with
    exactly the terms of the leader's; if nothing conflicts, nothing the follower had is
    removed. *)
Theorem follower_log_matches s (prev : nat) es :
  (prev <= length (entries_of (rn_log s)))%nat -> (prev + length es <= RAFT_LOG_CAP)%nat ->
  exists s', append_log_entries s (Z.of_nat prev) es = Some (s', Z.of_nat (prev + length es)) /\
    s' = set_log s (rn_log s') /\
    take prev (entries_of (rn_log s')) = take prev (entries_of (rn_log s)) /\
    le_term <$> take (length es) (drop prev (entries_of (rn_log s'))) = le_term <$> es /\
    ((forall j x e, entries_of (rn_log s) !! (prev + j)%nat = Some x -> es !! j = Some e ->
        le_term x = le_term e) ->
     entries_of (rn_log s) `prefix_of` entries_of (rn_log s')).
Proof using HL.
  intros Hp Hc. assert (RAFT_LOG_CAP = 256%nat) as Hcap by done.
  destruct (append_loop_spec es (rn_log s) prev Hp Hc) as (l' & Hl & Ht & Hm & Hno).
  exists (set_log s l'). split; [|done]. unfold append_log_entries.
  rewrite (add_u64_fits _ 1) by (unfold_width; lia). cbn [mbind option_bind].
  rewrite Hl. cbn [mbind option_bind].
  rewrite add_u64_fits by (unfold_width; lia). cbn. do 2 f_equal. lia.
Qed.

(** At capacity the same routine acknowledges entries it dropped: the match index it
    returns lies beyond the end of the log. *)
Theorem ack_beyond_capacity s e :
  length (entries_of (rn_log s)) = RAFT_LOG_CAP ->
  append_log_entries s (Z.of_nat RAFT_LOG_CAP) [e] = Some (set_log s (rn_log s), 257) /\
  last_index (rn_log s) = 256.
Proof using HL.
  intros Hl. split; [|unfold last_index, hv_len; fold (entries_of (rn_log s)); by rewrite Hl].
  unfold append_log_entries. cbn [append_loop].
  change (add_u64 (Z.of_nat RAFT_LOG_CAP) 1) with (Some 257). cbn [mbind option_bind].
  assert (append_one (rn_log s) 257 e = rn_log s) as ->.
  { change 257 with (Z.of_nat RAFT_LOG_CAP + 1). unfold append_one.
    rewrite term_at_nat, lookup_ge_None_2 by lia. cbn. rewrite log_get_nat, lookup_ge_None_2 by lia.
    by rewrite log_append_full by lia. }
  done.
Qed.

End facts.

(** ** Witnesses *)

Module Witness.
#[local] Existing Instance ListModel.list_hvec.
#[local] Existing Instance ListModel.list_hvec_laws.

Definition peer_set (l : list NodeId) : PeerSet := {| ps_peers := l |}.
Definition node0 : RaftNode := node_new 1 (peer_set [2; 3]).

Definition voted0 : RaftNode := set_voted (step_down node0 7) (Some 2).

Lemma one_vote_per_term_witness : 2 = 2 :> Z.
Proof.
  apply (one_vote_per_term node0 2 7 2 0 0 voted0 [] [OpStep 3 (RequestVote 7 3 0 0)]
           voted0 [(3, RequestVoteReply 7 false)] 2 2 0 0 voted0); vm_compute; reflexivity.
Defined.

(** A leader of three with one uncommitted entry, and the reply that commits it. *)
Definition leader0 : RaftNode :=
  mkNode 1 Leader 1 (Some 1) {| log_entries := [mkEntry 1 4 5] : list LogEntry |} 0 2
    ([2; 3] : list NodeId) (replicate MAX_PEERS 1) (replicate MAX_PEERS 0).

Definition leader1 : RaftNode :=
  set_commit (set_progress leader0 (<[0%nat := 2]> (replicate MAX_PEERS 1))
                (<[0%nat := 1]> (replicate MAX_PEERS 0))) 1.

Lemma commit_needs_quorum_witness :
  rn_role leader1 = Leader /\ (quorum leader1 <= acked leader1 1)%nat.
Proof.
  destruct (commit_needs_quorum leader0 2 (AppendEntriesReply 1 true 1) ([] : Outbox) [] leader1 (mkEntry 1 4 5))
    as (H1 & _ & _ & _ & H2 & _); [vm_compute; reflexivity|]. split; [exact H1|exact H2].
Defined.

(** In a cluster of five, one peer that repeats its vote elects the candidate. *)
Lemma duplicate_votes_elect :
  exists s t, raft_run (node_new 1 (peer_set [2; 3; 4; 5])) ([] : Outbox)
    [OpElect; OpStep 2 (RequestVoteReply 1 true); OpStep 2 (RequestVoteReply 1 true)] = Some (s, t) /\
  is_leader s = true.
Proof. eexists _, _. split; [vm_compute; reflexivity|reflexivity]. Qed.

Lemma reply_overflow_aborts_witness :
  step leader0 2 (AppendEntriesReply 1 true U64_MAX) ([] : Outbox) = None.
Proof. apply (reply_overflow_aborts leader0 2 [] 0); reflexivity. Defined.

Lemma follower_log_matches_witness :
  exists s', append_log_entries leader0 (Z.of_nat 0) [mkEntry 2 6 7] = Some (s', 1) /\
    le_term <$> take 1 (drop 0 (entries_of (rn_log s'))) = [2].
Proof.
  destruct (follower_log_matches leader0 0 [mkEntry 2 6 7]) as (s' & Hs & _ & _ & Hm & _).
  - apply Nat.leb_le. reflexivity.
  - apply Nat.leb_le. reflexivity.
  - exists s'. split; [exact Hs|exact Hm].
Defined.

Definition full_node : RaftNode :=
  set_log leader0 {| log_entries := replicate RAFT_LOG_CAP (mkEntry 1 4 5) |}.

Lemma ack_beyond_capacity_witness : last_index (rn_log full_node) = 256.
Proof. apply (ack_beyond_capacity full_node (mkEntry 1 4 5)). vm_compute. reflexivity. Defined.

End Witness.
