(* ===== verification/RaftSafety.v ===== *)
(** * Bounds and commit rule of a Raft node

    Facts about the handlers of [src/consensus/raft.rs] that [Raft.v] models.

    - [node_wf] is the invariant of a node; every operation keeps it, and under it the only
      message that aborts a node is the one that overflows [match_index + 1]
      ([raft_aborts_iff]).
    - The downward search of [advance_commit_index] computes the largest entry of the
      current term that a quorum holds ([commit_rule]).
    - A follower may move its commit index past what the leader has matched
      ([commit_beyond_match]). *)
From S2P Require Import Prelude Heapless Types Raft.
From stdpp Require Import base tactics list numbers option strings sets.
Open Scope Z_scope.
#[local] Arguments quorum : simpl never.

Section facts.
Context `{HV : HVec} `{HL : !HVecLaws}.
Implicit Types (s : RaftNode) (l : RaftLog).

(** ** The invariant of a node *)

Record node_wf s : Prop := {
  nw_term : in_u64 (rn_current_term s);
  nw_log : (length (entries_of (rn_log s)) <= RAFT_LOG_CAP)%nat;
  nw_commit : 0 <= rn_commit_index s <= Z.of_nat RAFT_LOG_CAP;
  nw_peers : (n_peers s <= MAX_PEERS)%nat;
  nw_votes : 0 <= rn_votes_granted s <= Z.of_nat (quorum s);
  nw_candidate : rn_role s = Candidate -> rn_votes_granted s < Z.of_nat (quorum s);
  nw_next : Forall (Z.le 0) (rn_next_index s);
}.

(** What the types of the message fields guarantee. *)
Definition msg_wf (m : RaftMessage) : Prop :=
  match m with
  | RequestVote term _ _ _ => in_u64 term
  | RequestVoteReply term _ => in_u64 term
  | AppendEntries term _ prev _ entries commit =>
      in_u64 term /\ in_u64 prev /\ in_u64 commit /\ (hv_len entries <= AE_CAP)%nat
  | AppendEntriesReply term _ matched => in_u64 term /\ in_u64 matched
  end.

Definition op_wf (o : raft_op) : Prop :=
  match o with OpStep _ msg => msg_wf msg | _ => True end.

(** The handlers only differ in which of the fields of the invariant they touch. *)
Lemma node_wf_fields s s' :
  node_wf s -> in_u64 (rn_current_term s') -> rn_log s' = rn_log s ->
  rn_commit_index s' = rn_commit_index s -> rn_peers s' = rn_peers s ->
  rn_votes_granted s' = rn_votes_granted s -> rn_role s' = rn_role s \/ rn_role s' <> Candidate ->
  Forall (Z.le 0) (rn_next_index s') -> node_wf s'.
Proof.
  intros [Ht Hl Hc Hp Hv Hcd _] Ht' El Ec Ep Ev Hr Hn.
  constructor; unfold quorum, n_peers in *; rewrite ?El, ?Ec, ?Ep, ?Ev; try done.
  intros Hr'. destruct Hr as [Hr|]; [apply Hcd; congruence|done].
Qed.

Lemma cap_value : RAFT_LOG_CAP = 256%nat /\ AE_CAP = 16%nat /\ MAX_PEERS = 16%nat.
Proof. done. Qed.

Lemma quorum_bound s : (n_peers s <= MAX_PEERS)%nat -> (1 <= quorum s <= 9)%nat.
Proof.
  destruct cap_value as (_ & _ & ->). intros Hp. unfold quorum.
  pose proof (Nat.Div0.div_le_mono (n_peers s + 1) 17 2 ltac:(lia)) as H.
  change (17 / 2)%nat with 8%nat in H. lia.
Qed.

Lemma quorum_peers s : n_peers s <> 0%nat -> (2 <= quorum s)%nat.
Proof.
  intros Hn. unfold quorum. pose proof (Nat.Div0.div_le_mono 2 (n_peers s + 1) 2 ltac:(lia)) as Hd.
  change (2 / 2)%nat with 1%nat in Hd. lia.
Qed.

Lemma last_index_le s : node_wf s -> 0 <= last_index (rn_log s) <= 256.
Proof.
  intros [_ Hl _ _ _ _ _]. unfold last_index. change (hv_len (log_entries (rn_log s))) with (length (entries_of (rn_log s))).
  change RAFT_LOG_CAP with 256%nat in Hl. lia.
Qed.

(** An index at which the log has an entry is small. *)
Lemma log_get_small l i e :
  (length (entries_of l) <= RAFT_LOG_CAP)%nat -> 0 <= i -> log_get l i = Some e -> 1 <= i <= 256.
Proof.
  intros Hl Hi. unfold log_get. destruct (Z.eqb_spec i 0); [done|]. intros He%lookup_lt_Some.
  change (hv_slice (log_entries l)) with (entries_of l) in He. change RAFT_LOG_CAP with 256%nat in Hl. lia.
Qed.

Lemma become_leader_total s : node_wf s -> exists s', become_leader s = Some s'.
Proof.
  intros Hw. unfold become_leader. rewrite add_u64_fits; [by eexists|].
  pose proof (last_index_le s Hw). cbn. unfold_width. lia.
Qed.

Lemma progress_next next js : 0 <= next -> forall s, Forall (Z.le 0) (rn_next_index s) ->
  Forall (Z.le 0) (rn_next_index (foldl (fun s i =>
    set_progress s (<[i := next]> (rn_next_index s)) (<[i := 0]> (rn_match_index s))) s js)).
Proof.
  intros H0. induction js as [|i js IH]; intros s Hs; cbn [foldl]; [done|].
  apply IH. cbn. by apply Forall_insert.
Qed.

Lemma become_leader_next s s' :
  Forall (Z.le 0) (rn_next_index s) -> become_leader s = Some s' -> Forall (Z.le 0) (rn_next_index s').
Proof.
  intros Hn. unfold become_leader. intros (next & [_ ->]%add_u64_Some & [= <-])%bind_Some.
  apply progress_next; [unfold last_index; lia|done].
Qed.

Lemma become_leader_wf s s' :
  in_u64 (rn_current_term s) -> (length (entries_of (rn_log s)) <= RAFT_LOG_CAP)%nat ->
  0 <= rn_commit_index s <= Z.of_nat RAFT_LOG_CAP -> (n_peers s <= MAX_PEERS)%nat ->
  0 <= rn_votes_granted s <= Z.of_nat (quorum s) -> Forall (Z.le 0) (rn_next_index s) ->
  become_leader s = Some s' -> node_wf s'.
Proof.
  intros Ht Hl Hc Hp Hv Hn Hb. pose proof (become_leader_next s s' Hn Hb) as Hn'.
  apply become_leader_fields in Hb as (Er & Et & _ & El & Ep & Ec & Ev).
  constructor; unfold quorum, n_peers in *; rewrite ?Et, ?El, ?Ec, ?Ep, ?Ev, ?Er; done.
Qed.

Lemma step_down_wf s term : node_wf s -> in_u64 term -> node_wf (step_down s term).
Proof. intros Hw Ht. apply (node_wf_fields s); cbn; try done; [by right|by apply nw_next]. Qed.

(** ** Logs stay within their capacity *)

Lemma log_append_cap l e :
  (length (entries_of l) <= RAFT_LOG_CAP)%nat ->
  (length (entries_of (log_append l e).1) <= RAFT_LOG_CAP)%nat.
Proof using HL.
  intros Hl. destruct (decide (length (entries_of l) < RAFT_LOG_CAP)%nat).
  - rewrite log_append_room, length_app by done. cbn. lia.
  - by rewrite log_append_full by lia.
Qed.

Lemma truncate_cap l i :
  (length (entries_of l) <= RAFT_LOG_CAP)%nat ->
  (length (entries_of (truncate_from l i)) <= RAFT_LOG_CAP)%nat.
Proof using HL.
  intros Hl. unfold truncate_from. destruct (i =? 0); [done|]. unfold entries_of. cbn.
  rewrite hv_slice_truncate, length_take. unfold entries_of in Hl. lia.
Qed.

Lemma append_one_cap l i e :
  (length (entries_of l) <= RAFT_LOG_CAP)%nat ->
  (length (entries_of (append_one l i e)) <= RAFT_LOG_CAP)%nat.
Proof using HL.
  intros Hl. unfold append_one.
  assert (forall l', (length (entries_of l') <= RAFT_LOG_CAP)%nat ->
    (length (entries_of match log_get l' i with None => (log_append l' e).1 | Some _ => l' end)
     <= RAFT_LOG_CAP)%nat) as H.
  { intros l' Hl'. destruct (log_get l' i); [done|by apply log_append_cap]. }
  apply H. destruct (term_at l i); [|done]. destruct (negb _); [by apply truncate_cap|done].
Qed.

Lemma append_loop_total es : forall l i,
  (length (entries_of l) <= RAFT_LOG_CAP)%nat -> i + Z.of_nat (length es) <= U64_MAX ->
  exists l', append_loop l i es = Some l' /\ (length (entries_of l') <= RAFT_LOG_CAP)%nat.
Proof using HL.
  induction es as [|e es IH]; intros l i Hl Hi; cbn [append_loop]; [by exists l|].
  cbn [length] in Hi. rewrite add_u64_fits by lia. cbn [mbind option_bind].
  apply IH; [by apply append_one_cap|lia].
Qed.

(** ** Each handler *)

Lemma start_election_total {T} `{RT : !RaftTransport T} s (t : T) :
  node_wf s -> (start_election s t = None <-> rn_current_term s = U64_MAX) /\
  (forall s' t', start_election s t = Some (s', t') -> node_wf s').
Proof.
  intros Hw. pose proof Hw as [Ht Hl Hc Hp Hv Hcd Hnx]. pose proof (quorum_bound s Hp) as Hq.
  unfold start_election. split.
  - unfold add_u64. destruct (Z.leb_spec (rn_current_term s + 1) U64_MAX) as [Hle|Hgt]; cbn [mbind option_bind].
    + split; [|unfold_width; lia]. case_decide; [|done]. unfold become_leader. cbn.
      pose proof (last_index_le s Hw). rewrite add_u64_fits by (unfold_width; lia). done.
    + split; [|done]. unfold_width. lia.
  - intros s' t' (term & [Hle ->]%add_u64_Some & H)%bind_Some.
    assert (in_u64 (rn_current_term s + 1)) by (unfold_width; lia).
    case_decide as Hn.
    + apply bind_Some in H as (s1 & Hb & [= <- _]). eapply become_leader_wf, Hb; cbn; try done.
      change (quorum _) with (quorum s). lia.
    + injection H as <- _. pose proof (quorum_peers s Hn) as Hq2.
      constructor; cbn; try done; change (quorum _) with (quorum s); lia.
Qed.

Lemma gather_total fuel : forall l entries i,
  (length (entries_of l) <= RAFT_LOG_CAP)%nat -> 0 <= i -> exists es, gather fuel l entries i = Some es.
Proof.
  induction fuel as [|fuel IH]; intros l entries i Hl Hi; cbn [gather]; [by eexists|].
  destruct (log_get l i) as [e|] eqn:He; [|by eexists].
  pose proof (log_get_small l i e Hl Hi He). destruct (hv_push _ _); [|by eexists].
  rewrite add_u64_fits by (unfold_width; lia). cbn [mbind option_bind]. apply IH; [done|lia].
Qed.

Lemma send_ae_total {T} `{RT : !RaftTransport T} s i (t : T) :
  node_wf s -> exists t', send_ae_to s i t = Some t'.
Proof.
  intros Hw. unfold send_ae_to. destruct (hv_slice (rn_peers s) !! i); [|by eexists].
  assert (0 <= default 0 (rn_next_index s !! i)) as H0.
  { destruct (rn_next_index s !! i) as [x|] eqn:Hx; [|done].
    exact (Forall_lookup_1 _ _ _ _ (nw_next s Hw) Hx). }
  destruct (gather_total (S AE_CAP) (rn_log s) hv_new _ (nw_log s Hw) H0) as [es ->]. by eexists.
Qed.

Lemma broadcast_total {T} `{RT : !RaftTransport T} s js : node_wf s -> forall t : T,
  exists t', foldl (fun ot i => t ← ot; send_ae_to s i t) (Some t) js = Some t'.
Proof.
  intros Hw. induction js as [|j js IH]; intros t; cbn [foldl]; [by exists t|].
  cbn [mbind option_bind]. destruct (send_ae_total s j t Hw) as [t' ->]. apply IH.
Qed.

Lemma propose_total {T} `{RT : !RaftTransport T} s src dst (t : T) :
  node_wf s -> exists s' t' r, propose s src dst t = Some (s', t', r) /\ node_wf s'.
Proof using HL.
  intros Hw. unfold propose. destruct (is_leader s) eqn:Hl; cbn; [|by eexists _, _, _].
  destruct (log_append (rn_log s) _) as [lg ok] eqn:Ha. destruct ok; cbn; [|by eexists _, _, _].
  assert (length (entries_of lg) <= RAFT_LOG_CAP)%nat as Hc.
  { pose proof (log_append_cap (rn_log s) (mkEntry (rn_current_term s) src dst) (nw_log s Hw)) as H.
    by rewrite Ha in H. }
  assert (node_wf (set_log s lg)) as Hw1 by (destruct Hw; by constructor).
  case_decide.
  - eexists _, _, _. split; [done|]. destruct Hw1; constructor; cbn in *; try done.
    unfold last_index. change (hv_len (log_entries lg)) with (length (entries_of lg)). lia.
  - unfold broadcast_ae. destruct (broadcast_total (set_log s lg) (seq 0 (n_peers (set_log s lg))) Hw1 t) as [t' ->].
    by eexists _, _, _.
Qed.

Lemma on_vote_reply_total s term g :
  node_wf s -> in_u64 term -> exists s', on_vote_reply s term g = Some s' /\ node_wf s'.
Proof.
  intros Hw Ht. unfold on_vote_reply. destruct (_ <? _); [eexists; split; [done|by apply step_down_wf]|].
  destruct (negb _ || _) eqn:Hr; [by eexists|].
  apply orb_false_iff in Hr as [Hr%negb_false_iff%bool_decide_eq_true _].
  pose proof Hw as [Hti Hl Hc Hp Hv Hcd Hnx]. specialize (Hcd Hr). pose proof (quorum_bound s Hp).
  set (v := if g then rn_votes_granted s + 1 else rn_votes_granted s).
  assert ((if g then votes ← add_u64 (rn_votes_granted s) 1; Some (set_votes s votes) else Some s)
          = Some (set_votes s v)) as ->.
  { destruct g; [rewrite add_u64_fits by (unfold_width; lia); done|by destruct s]. }
  cbn [mbind option_bind]. change (quorum (set_votes s v)) with (quorum s).
  assert (0 <= v <= Z.of_nat (quorum s)) as Hv' by (unfold v; destruct g; lia). cbn.
  destruct (Z.leb_spec (Z.of_nat (quorum s)) v).
  - destruct (become_leader (set_votes s v)) as [s'|] eqn:Hb.
    + eexists. split; [done|]. by eapply become_leader_wf, Hb.
    + exfalso. unfold become_leader in Hb. cbn in Hb. rewrite add_u64_fits in Hb; [done|].
      pose proof (last_index_le s Hw). unfold_width. lia.
  - eexists. split; [done|]. by constructor.
Qed.

Lemma on_request_vote_wf {T} `{RT : !RaftTransport T} s from term c i lt (t : T) :
  node_wf s -> in_u64 term -> node_wf (on_request_vote s from term c i lt t).1.
Proof.
  intros Hw Ht. unfold on_request_vote. cbn.
  assert (node_wf (if rn_current_term s <? term then step_down s term else s)) as Hw1
    by (destruct (_ <? _); [by apply step_down_wf|done]).
  destruct (_ && _); [|done]. destruct Hw1. by constructor.
Qed.

Lemma on_append_entries_total {T} `{RT : !RaftTransport T} s from term pi pt es lc (t : T) :
  node_wf s -> in_u64 term -> in_u64 pi -> in_u64 lc -> (hv_len es <= AE_CAP)%nat ->
  exists s' t', on_append_entries s from term pi pt es lc t = Some (s', t') /\ node_wf s'.
Proof using HL.
  intros Hw Ht Hpi Hlc Hes. unfold on_append_entries. destruct (_ <? _); [by eexists _, _|].
  set (s1 := if _ <? term then _ else _).
  assert (node_wf s1) as Hw1.
  { unfold s1. destruct (_ <? _); [by apply step_down_wf|]. destruct Hw. by constructor. }
  clearbody s1. destruct (negb _) eqn:Hok; [by eexists _, _|]. apply negb_false_iff, orb_true_iff in Hok.
  assert (0 <= pi <= 256) as Hp.
  { destruct Hok as [Hz%Z.eqb_eq|Hok%bool_decide_eq_true]; [lia|]. unfold term_at in Hok.
    destruct (log_get (rn_log s1) pi) as [e|] eqn:He; [|done].
    destruct Hpi as [Hpi _]. pose proof (log_get_small _ _ _ (nw_log s1 Hw1) Hpi He). lia. }
  assert (length (hv_slice es) <= 16)%nat as Hes' by exact Hes. clear Hes.
  unfold append_log_entries. rewrite !add_u64_fits by (unfold_width; lia). cbn [mbind option_bind].
  destruct (append_loop_total (hv_slice es) (rn_log s1) (pi + 1) (nw_log s1 Hw1)) as (l' & -> & Hl');
    [unfold_width; lia|]. cbn [mbind option_bind]. eexists _, _. split; [done|].
  assert (node_wf (set_log s1 l')) as Hw2 by (destruct Hw1; by constructor).
  destruct (_ <? lc); [|done]. pose proof (last_index_le _ Hw2).
  assert (Z.of_nat RAFT_LOG_CAP = 256) as Hcap by done.
  destruct Hw2; constructor; cbn in *; try done. unfold_width. lia.
Qed.

Lemma advance_total s :
  node_wf s -> exists s' b, advance_commit_index s = Some (s', b) /\ node_wf s'.
Proof.
  intros Hw. pose proof (nw_commit s Hw) as Hc. assert (Z.of_nat RAFT_LOG_CAP = 256) as Hcap by done.
  destruct (advance_commit_index s) as [[s' b]|] eqn:Ha.
  - eexists _, _. split; [done|]. apply advance_commit_fields in Ha as (n & -> & Hn & _ & Hlt).
    pose proof (last_index_le s Hw). destruct Hw; constructor; cbn in *; try done.
    destruct (decide (rn_commit_index s < n)) as [Hl|]; [destruct (Hlt Hl); lia|lia].
  - exfalso. unfold advance_commit_index in Ha. rewrite add_u64_fits in Ha by (unfold_width; lia). done.
Qed.

(** The reply that overflows: a success with the largest match index, from a known peer,
    to the leader of the term. *)
Definition overflowing s (from : NodeId) (m : RaftMessage) : Prop :=
  m = AppendEntriesReply (rn_current_term s) true U64_MAX /\ rn_role s = Leader /\
  is_Some (peer_index s from).

Lemma on_ae_reply_total s from term ok m :
  node_wf s -> in_u64 term -> in_u64 m ->
  (on_ae_reply s from term ok m = None <-> overflowing s from (AppendEntriesReply term ok m)) /\
  (forall s' r, on_ae_reply s from term ok m = Some (s', r) -> node_wf s').
Proof.
  intros Hw Ht Hm. unfold on_ae_reply, overflowing. destruct (Z.ltb_spec (rn_current_term s) term).
  { split; [split; [done|intros ([= -> _ _] & _); lia]|]. intros s' r [= <- _]. by apply step_down_wf. }
  destruct (is_leader s) eqn:Hl; cbn.
  2: { split; [split; [done|]|by intros s' r [= <- _]]. intros (_ & Hld & _). unfold is_leader in Hl.
       by rewrite bool_decide_true in Hl. }
  apply bool_decide_eq_true in Hl. destruct (Z.eqb_spec term (rn_current_term s)) as [->|Hne]; cbn.
  2: { split; [split; [done|intros ([= -> _ _] & _); done]|by intros s' r [= <- _]]. }
  destruct (peer_index s from) as [i|]; cbn.
  2: { split; [split; [done|by intros (_ & _ & [? ?])]|by intros s' r [= <- _]]. }
  destruct ok; cbn [mbind option_bind].
  - unfold add_u64. destruct (Z.leb_spec (m + 1) U64_MAX) as [Hle|Hgt]; cbn [mbind option_bind].
    + assert (node_wf (set_progress s (<[i := m + 1]> (rn_next_index s)) (<[i := m]> (rn_match_index s)))) as Hw1.
      { destruct Hw; constructor; cbn; try done. apply Forall_insert; [done|]. unfold_width. lia. }
      destruct (advance_total _ Hw1) as (s' & b & -> & Hw'). split; [|by intros ? ? [= <- _]].
      split; [done|]. intros ([= ->] & _). lia.
    + split; [|done]. split; [|done]. intros _. split; [|by eauto]. f_equal. unfold_width. lia.
  - split; [split; [done|by intros ([=] & _)]|]. intros s' r. destruct (1 <? _) eqn:Hn; intros [= <- _]; [|done].
    apply Z.ltb_lt in Hn. destruct Hw; constructor; cbn; try done. apply Forall_insert; [done|]. lia.
Qed.

Lemma step_total {T} `{RT : !RaftTransport T} s from msg (t : T) :
  node_wf s -> msg_wf msg ->
  (step s from msg t = None <-> overflowing s from msg) /\
  (forall s' t' r, step s from msg t = Some (s', t', r) -> node_wf s').
Proof using HL.
  intros Hw Ho. destruct msg as [term c i lt|term g|term lid pi pt es lc|term ok m]; unfold step; cbn in Ho.
  - pose proof (on_request_vote_wf s from term c i lt t Hw Ho) as Hv.
    destruct (on_request_vote _ _ _ _ _ _ _). split; [by split; [|intros ([=] & _)]|]. by intros ? ? ? [= <- _ _].
  - destruct (on_vote_reply_total s term g Hw Ho) as (s1 & -> & Hv).
    split; [by split; [|intros ([=] & _)]|]. by intros ? ? ? [= <- _ _].
  - destruct Ho as (H1 & H2 & H3 & H4).
    destruct (on_append_entries_total s from term pi pt es lc t Hw H1 H2 H3 H4) as (? & ? & -> & Hv).
    split; [by split; [|intros ([=] & _)]|]. by intros ? ? ? [= <- _ _].
  - destruct Ho as [H1 H2]. destruct (on_ae_reply_total s from term ok m Hw H1 H2) as [<- Hv].
    destruct (on_ae_reply s from term ok m) as [[s1 r1]|]; [|done]. split; [done|].
    intros ? ? ? [= <- _ _]. by eapply Hv.
Qed.

(** C31: When a node aborts.  The invariant [node_wf] (a log of at most 256 entries, a
    commit index within that bound, at most a quorum of votes, fewer while a candidate) is
    kept by every election, proposal and message.  Under it, no operation overflows,
    except an election in the last term and a successful append reply with match index
    [u64::MAX] that a known peer sends to the leader of the term. *)
Theorem raft_aborts_iff {T} `{RT : !RaftTransport T} s (t : T) o :
  node_wf s -> op_wf o ->
  (raft_apply s t o = None <->
     (o = OpElect /\ rn_current_term s = U64_MAX) \/
     (exists from msg, o = OpStep from msg /\ overflowing s from msg)) /\
  (forall s' t', raft_apply s t o = Some (s', t') -> node_wf s').
Proof using HL.
  intros Hw Ho. destruct o as [|src dst|from msg]; cbn [raft_apply].
  - destruct (start_election_total s t Hw) as [Hn Hs]. split; [|done]. rewrite Hn.
    split; [by left|]. intros [[_ ?]|(? & ? & [=] & _)]; done.
  - destruct (propose_total s src dst t Hw) as (s' & t' & r & -> & Hw'). cbn.
    split; [|by intros ? ? [= <- _]]. split; [done|]. intros [[[=] _]|(? & ? & [=] & _)].
  - destruct (step_total s from msg t Hw Ho) as [Hiff Hv]. split.
    + transitivity (step s from msg t = None); [by destruct (step s from msg t) as [[[]]|]|].
      rewrite Hiff. split; [intros H; right; by eauto|]. by intros [[[=] _]|(? & ? & [= <- <-] & ?)].
    + intros s' t' ([[s1 t1] r] & Hs & [= <- _])%bind_Some. by eapply Hv.
Qed.

(** ** The commit rule *)

(** Reference: the largest index above the commit index that is committable. *)
Definition highest (P : Z -> bool) (old : Z) (ns : list Z) : Z :=
  foldr (fun n acc => if P n then Z.max n acc else acc) old ns.

Definition highest_committable s : Z :=
  highest (committable s) (rn_commit_index s)
    (seqZ (rn_commit_index s + 1) (last_index (rn_log s) - rn_commit_index s)).

Lemma highest_spec P old ns :
  old <= highest P old ns /\ (highest P old ns = old \/ (highest P old ns ∈ ns /\ P (highest P old ns) = true)) /\
  (forall m, m ∈ ns -> P m = true -> m <= highest P old ns).
Proof.
  induction ns as [|n ns (H1 & H2 & H3)]; cbn.
  { split; [lia|]. split; [by left|]. by intros m Hm%not_elem_of_nil. }
  fold (highest P old ns). destruct (P n) eqn:Hn.
  - split; [lia|]. split.
    + destruct (Z.max_spec n (highest P old ns)) as [[_ ->]|[_ ->]].
      * destruct H2 as [|[? ?]]; [by left|right]. by split; [right|].
      * right. by split; [left|].
    + intros m [->|Hm]%elem_of_cons Hp; [lia|]. specialize (H3 m Hm Hp). lia.
  - split; [done|]. split; [destruct H2 as [|[? ?]]; [by left|right; by split; [right|]]|].
    intros m [->|Hm]%elem_of_cons Hp; [congruence|by apply H3].
Qed.

(** The loop from the top stops at the first hit, which is the largest. *)
Lemma first_from_top P lo k n j :
  list_find (fun m => P m = true) (reverse (seqZ lo k)) = Some (j, n) ->
  n ∈ seqZ lo k /\ P n = true /\ (forall m, m ∈ seqZ lo k -> n < m -> P m = false).
Proof.
  intros (Hj & Hp & Hmin)%list_find_Some. pose proof (lookup_lt_Some _ _ _ Hj) as Hlt.
  rewrite length_reverse in Hlt. rewrite reverse_lookup in Hj by done.
  pose proof (list_elem_of_lookup_2 _ _ _ Hj) as Hin. split; [done|]. split; [done|].
  apply lookup_seqZ in Hj as [Hn Hk]. rewrite length_seqZ in *. intros m Hm Hnm.
  rewrite elem_of_seqZ in Hm. destruct (P m) eqn:HPm; [|done]. exfalso.
  apply (Hmin (Z.to_nat (lo + k - 1 - m)) m); [|lia|done].
  rewrite reverse_lookup by (rewrite length_seqZ; lia). rewrite length_seqZ. apply lookup_seqZ. lia.
Qed.

(** C32: The commit rule.  [advance_commit_index] searches downwards and stops at the first
    hit; it computes the maximum of the commit index and all indices of the log that hold
    an entry of the current term acknowledged by a quorum, and reports whether that is
    news. *)
Theorem commit_rule s :
  node_wf s ->
  advance_commit_index s =
  Some (set_commit s (highest_committable s), rn_commit_index s <? highest_committable s).
Proof.
  intros Hw. pose proof (nw_commit s Hw) as Hc. assert (Z.of_nat RAFT_LOG_CAP = 256) as Hcap by done.
  unfold advance_commit_index, highest_committable. rewrite add_u64_fits by (unfold_width; lia).
  cbn [mbind option_bind]. unfold commit_candidates.
  set (ns := seqZ _ _). destruct (highest_spec (committable s) (rn_commit_index s) ns) as (H1 & H2 & H3).
  set (h := highest _ _ _) in *. destruct (list_find _ _) as [[j n]|] eqn:Hf.
  - apply first_from_top in Hf as (Hin & Hp & Hmax). fold ns in Hin, Hmax. specialize (H3 n Hin Hp).
    assert (h = n) as ->; [|done]. destruct H2 as [H2|[H2 H2p]].
    + unfold ns in Hin. rewrite elem_of_seqZ in Hin. lia.
    + destruct (decide (n < h)) as [Hl|]; [|lia]. rewrite (Hmax h H2 Hl) in H2p. done.
  - assert (h = rn_commit_index s) as ->; [|by destruct s].
    destruct H2 as [|[Hin Hp]]; [done|]. exfalso. eapply list_find_None in Hf.
    rewrite Forall_forall in Hf. apply (Hf h); [by apply elem_of_reverse|done].
Qed.

(** ** Commits on a follower *)

(** An [AppendEntries] without entries after index 0 matches nothing of the follower's log,
    as the match index 0 of the reply says; the follower still takes over the leader's
    commit index for whatever entries it has at those positions. *)
Theorem commit_beyond_match {T} `{RT : !RaftTransport T} s from lid pt lc (t : T) :
  rn_commit_index s < lc <= last_index (rn_log s) ->
  exists s', step s from (AppendEntries (rn_current_term s) lid 0 pt hv_new lc) t =
    Some (s', rt_send t from (AppendEntriesReply (rn_current_term s) true 0), None) /\
    rn_log s' = rn_log s /\ rn_commit_index s' = lc.
Proof using HL.
  intros Hlc. unfold step, on_append_entries. rewrite !Z.ltb_irrefl. cbn -[Z.ltb].
  unfold append_log_entries. rewrite hv_slice_new. rewrite !add_u64_fits by done. cbn -[Z.ltb].
  rewrite (proj2 (Z.ltb_lt _ _)) by lia. eexists. split; [done|]. cbn. split; [done|lia].
Qed.

End facts.

(** ** Witnesses *)

Module Witness.
#[local] Existing Instance ListModel.list_hvec.
#[local] Existing Instance ListModel.list_hvec_laws.
Import Raft.Witness.

Lemma leader0_wf : node_wf leader0.
Proof.
  constructor; cbn; try done; try (apply Nat.leb_le; reflexivity); try (unfold_width; lia).
  repeat constructor; done.
Qed.

Lemma raft_aborts_iff_witness :
  raft_apply leader0 ([] : Outbox) (OpStep 2 (AppendEntriesReply 1 true U64_MAX)) = None.
Proof.
  apply (raft_aborts_iff leader0 ([] : Outbox) (OpStep 2 (AppendEntriesReply 1 true U64_MAX)) leader0_wf).
  - split; unfold_width; lia.
  - right. eexists _, _. split; [done|]. split; [done|]. split; [done|]. by eexists.
Defined.

Lemma commit_rule_witness :
  advance_commit_index leader0 = Some (set_commit leader0 (highest_committable leader0), false).
Proof. exact (commit_rule leader0 leader0_wf). Defined.

(** A follower with a stale entry of term 1 that a leader of term 1 never sent it. *)
Lemma commit_beyond_match_witness :
  exists s', step leader0 2 (AppendEntries 1 2 0 0 [] 1) ([] : Outbox) =
    Some (s', [(2, AppendEntriesReply 1 true 0)], None) /\ rn_commit_index s' = 1.
Proof.
  destruct (commit_beyond_match leader0 2 2 0 1 ([] : Outbox)) as (s' & H & _ & Hc); [vm_compute; done|].
  by exists s'.
Defined.

End Witness.
