(* ===== verification/Cluster.v ===== *)
(** * A cluster of Raft nodes

    The handlers of [src/consensus/raft.rs] on several nodes that share a network.  A step
    of the cluster is an election or a proposal on one node, the delivery of one packet in
    flight, the loss of a packet, or the crash of a node; packets may be reordered and
    delayed without bound.

    [election_safety]: at most one leader per term.  The nodes do not look at who sends a
    vote ([Raft.vote_sender_ignored]), so this relies on the network delivering a packet at
    most once; [duplication_elects_two] shows two leaders of one term when it does not. *)
From S2P Require Import Prelude Heapless Types Raft.
From stdpp Require Import base tactics list numbers option strings gmap sets relations.
Open Scope Z_scope.

#[local] Arguments quorum : simpl never.

(** ** The system *)

Section cluster.
Context `{HV : HVec}.

Record packet := mkPacket { pk_src : NodeId; pk_dst : NodeId; pk_msg : RaftMessage }.

Record cluster := mkCluster { cl_nodes : gmap NodeId RaftNode; cl_net : list packet }.

(** What node [i] put into its outbox, as packets. *)
Definition sent (i : NodeId) (out : Outbox) : list packet :=
  (fun '(p, m) => mkPacket i p m) <$> out.

Definition is_local (o : raft_op) : bool :=
  match o with OpStep _ _ => false | _ => true end.

Inductive cluster_step : cluster -> cluster -> Prop :=
| cs_local i s o s' out nodes net :
    nodes !! i = Some s -> is_local o = true -> raft_apply s ([] : Outbox) o = Some (s', out) ->
    cluster_step (mkCluster nodes net) (mkCluster (<[i := s']> nodes) (net ++ sent i out))
| cs_deliver p s s' out nodes net1 net2 :
    nodes !! pk_dst p = Some s ->
    raft_apply s ([] : Outbox) (OpStep (pk_src p) (pk_msg p)) = Some (s', out) ->
    cluster_step (mkCluster nodes (net1 ++ p :: net2))
      (mkCluster (<[pk_dst p := s']> nodes) ((net1 ++ net2) ++ sent (pk_dst p) out))
| cs_lose p nodes net1 net2 :
    cluster_step (mkCluster nodes (net1 ++ p :: net2)) (mkCluster nodes (net1 ++ net2))
| cs_crash i nodes net :
    cluster_step (mkCluster nodes net) (mkCluster (delete i nodes) net).

(** Fresh nodes, each with all other members as its peers. *)
Definition cluster_init (M : gset NodeId) (c : cluster) : Prop :=
  cl_net c = [] /\
  forall i s, cl_nodes c !! i = Some s -> i ∈ M /\ exists ps, s = node_new i ps /\
    NoDup (hv_slice (ps_peers ps)) /\ (hv_len (ps_peers ps) <= MAX_PEERS)%nat /\
    list_to_set (hv_slice (ps_peers ps)) = M ∖ {[ i ]}.

Definition cluster_reachable (M : gset NodeId) (c : cluster) : Prop :=
  exists c0, cluster_init M c0 /\ rtc cluster_step c0 c.

(** ** Ballots in flight *)

(** [p] may still lead to a vote of [v] for [c] in term [t] being counted: a request on its
    way to [v], or a granted vote on its way back. *)
Definition ballot (v c : NodeId) (t : Z) (p : packet) : bool :=
  match pk_msg p with
  | RequestVote t' c' _ _ => (t' =? t) && (c' =? c) && (pk_dst p =? v)
  | RequestVoteReply t' true => (t' =? t) && (pk_src p =? v) && (pk_dst p =? c)
  | _ => false
  end.

Definition voting (p : packet) : bool :=
  match pk_msg p with RequestVote _ _ _ _ | RequestVoteReply _ true => true | _ => false end.

Definition cnt (v c : NodeId) (t : Z) (net : list packet) : nat :=
  length (List.filter (ballot v c t) net).

Lemma cnt_app v c t l k : cnt v c t (l ++ k) = (cnt v c t l + cnt v c t k)%nat.
Proof. unfold cnt. by rewrite List.filter_app, length_app. Qed.

Lemma cnt_cons v c t p l : cnt v c t (p :: l) = ((if ballot v c t p then 1 else 0) + cnt v c t l)%nat.
Proof. unfold cnt. cbn. by destruct (ballot v c t p). Qed.

Lemma cnt_zero v c t l : (forall p, p ∈ l -> ballot v c t p = false) -> cnt v c t l = 0%nat.
Proof.
  induction l as [|p l IH]; intros H; [done|]. rewrite cnt_cons, H by left.
  rewrite IH; [done|]. intros q Hq. apply H. by right.
Qed.

Lemma cnt_elem v c t p l : p ∈ l -> ballot v c t p = true -> (1 <= cnt v c t l)%nat.
Proof.
  intros (l1 & l2 & ->)%list_elem_of_split Hb. rewrite cnt_app, cnt_cons, Hb. lia.
Qed.

Lemma ballot_voting v c t p : voting p = false -> ballot v c t p = false.
Proof. unfold voting, ballot. by destruct (pk_msg p) as [|? []| |]. Qed.

(** ** The invariant

    [B v t c]: voter [v] has ever voted for [c] in term [t].  [V c]: the voters that the
    candidate or leader [c] has counted in its current term. *)

Record vote_inv (M : gset NodeId) (nodes : gmap NodeId RaftNode) (net : list packet)
    (B : NodeId -> Z -> NodeId -> Prop) (V : NodeId -> gset NodeId) : Prop := {
  vi_node : forall i s, nodes !! i = Some s -> i ∈ M /\ rn_id s = i /\
    NoDup (hv_slice (rn_peers s)) /\ list_to_set (hv_slice (rn_peers s)) = M ∖ {[ i ]};
  vi_fun : forall v t c c', B v t c -> B v t c' -> c = c';
  vi_cur : forall v s t c, nodes !! v = Some s -> B v t c ->
    t <= rn_current_term s /\ (t = rn_current_term s -> rn_voted_for s = Some c);
  vi_src : forall p, p ∈ net -> pk_src p ∈ M;
  vi_req : forall p t c i lt, p ∈ net -> pk_msg p = RequestVote t c i lt -> pk_src p = c;
  vi_grant : forall p t, p ∈ net -> pk_msg p = RequestVoteReply t true -> B (pk_src p) t (pk_dst p);
  vi_time : forall p v c t s, p ∈ net -> ballot v c t p = true -> nodes !! c = Some s ->
    t <= rn_current_term s;
  vi_once : forall v c t, (cnt v c t net <= 1)%nat;
  vi_count : forall c s, nodes !! c = Some s -> rn_role s <> Follower ->
    rn_votes_granted s = Z.of_nat (size (V c)) /\ V c ⊆ M /\
    forall v, v ∈ V c -> B v (rn_current_term s) c /\ cnt v c (rn_current_term s) net = 0%nat;
  vi_lead : forall c s, nodes !! c = Some s -> rn_role s = Leader ->
    (quorum s <= size (V c))%nat;
}.

(** ** Steps without a new vote *)

(** A node that moves to a later term as a follower, or at most steps down in its term. *)
Definition quiet (s s' : RaftNode) : Prop :=
  rn_id s' = rn_id s /\ rn_peers s' = rn_peers s /\
  ((rn_current_term s < rn_current_term s' /\ rn_role s' = Follower) \/
   (rn_current_term s' = rn_current_term s /\ rn_voted_for s' = rn_voted_for s /\
    rn_votes_granted s' = rn_votes_granted s /\ (rn_role s' = rn_role s \/ rn_role s' = Follower))).

(** A network that has no ballots beyond those of [net]. *)
Definition fewer (M : gset NodeId) (net net' : list packet) : Prop :=
  (forall v c t, (cnt v c t net' <= cnt v c t net)%nat) /\
  (forall p, p ∈ net' -> pk_src p ∈ M /\ (voting p = true -> p ∈ net)).

Lemma vote_inv_fewer M nodes net net' B V :
  vote_inv M nodes net B V -> fewer M net net' -> vote_inv M nodes net' B V.
Proof.
  intros [Hn Hf Hc Hs Hr Hg Ht Ho Hk Hl] [Hle Hin].
  assert (forall p t c i lt, p ∈ net' -> pk_msg p = RequestVote t c i lt -> p ∈ net) as Hrv.
  { intros p t c i lt Hp Hm. apply (Hin p Hp). unfold voting. by rewrite Hm. }
  assert (forall p t, p ∈ net' -> pk_msg p = RequestVoteReply t true -> p ∈ net) as Hgr.
  { intros p t Hp Hm. apply (Hin p Hp). unfold voting. by rewrite Hm. }
  constructor; eauto.
  - intros p Hp. by apply Hin.
  - intros p v c t s Hp Hb Hs'. apply (Ht p v c t s); [|done..]. apply Hin; [done|].
    destruct (voting p) eqn:Hv; [done|]. by rewrite (ballot_voting v c t p Hv) in Hb.
  - intros v c t. specialize (Hle v c t). specialize (Ho v c t). lia.
  - intros c s Hs' Hrole. destruct (Hk c s Hs' Hrole) as (H1 & H2 & H3). split; [done|]. split; [done|].
    intros v Hv. destruct (H3 v Hv) as [HB H0]. split; [done|]. specialize (Hle v c (rn_current_term s)). lia.
Qed.

Lemma vote_inv_quiet M nodes net B V i s s' :
  vote_inv M nodes net B V -> nodes !! i = Some s -> quiet s s' ->
  vote_inv M (<[i := s']> nodes) net B V.
Proof.
  intros [Hn Hf Hc Hs Hr Hg Ht Ho Hk Hl] Hi (Hid & Hp & Hq).
  assert (rn_current_term s <= rn_current_term s') as Hle by (destruct Hq as [|]; lia).
  constructor; try done.
  - intros j sj. rewrite lookup_insert_Some. intros [[<- <-]|[_ Hj]]; [|by apply Hn].
    rewrite Hid, Hp. by apply Hn.
  - intros v sv t c. rewrite lookup_insert_Some. intros [[<- <-]|[_ Hv]] HB; [|by eapply Hc].
    destruct (Hc _ _ _ _ Hi HB) as [Hts Hvs]. split; [lia|]. intros ->.
    destruct Hq as [[Hlt _]|(Het & -> & _)]; [lia|by apply Hvs].
  - intros p v c t sc Hpn Hb. rewrite lookup_insert_Some. intros [[<- <-]|[_ Hv]]; [|by eapply Ht].
    specialize (Ht p v _ t s Hpn Hb Hi). lia.
  - intros c sc. rewrite lookup_insert_Some. intros [[<- <-]|[_ Hj]] Hrole; [|by apply Hk].
    destruct Hq as [[_ ?]|(Het & _ & -> & [Her|?])]; [done| |done]. rewrite Het. apply Hk; [done|congruence].
  - intros c sc. rewrite lookup_insert_Some. intros [[<- <-]|[_ Hj]] Hrole; [|by apply Hl].
    destruct Hq as [[_ ?]|(_ & _ & _ & [Her|?])]; [congruence| |congruence].
    unfold quorum, n_peers in *. rewrite Hp. apply (Hl _ s); [done|congruence].
Qed.

Lemma vote_inv_delete M nodes net B V i :
  vote_inv M nodes net B V -> vote_inv M (delete i nodes) net B V.
Proof.
  intros [Hn Hf Hc Hs Hr Hg Ht Ho Hk Hl].
  constructor; try done.
  - intros j s [_ Hj]%lookup_delete_Some. by apply Hn.
  - intros v s t c [_ Hj]%lookup_delete_Some. by apply Hc.
  - intros p v c t s Hp Hb [_ Hj]%lookup_delete_Some. by eapply Ht.
  - intros c s [_ Hj]%lookup_delete_Some. by apply Hk.
  - intros c s [_ Hj]%lookup_delete_Some. by apply Hl.
Qed.

Lemma fewer_remove M net1 p net2 out :
  (forall q, q ∈ net1 ++ p :: net2 -> pk_src q ∈ M) ->
  (forall q, q ∈ out -> pk_src q ∈ M /\ voting q = false) ->
  fewer M (net1 ++ p :: net2) ((net1 ++ net2) ++ out).
Proof.
  intros Hsrc Hout. split.
  - intros v c t. rewrite !cnt_app, cnt_cons, (cnt_zero v c t out); [lia|].
    intros q Hq. apply ballot_voting. by apply Hout.
  - intros q [Hq|Hq]%elem_of_app.
    + assert (q ∈ net1 ++ p :: net2) as Hin by set_solver. split; [by apply Hsrc|done].
    + destruct (Hout q Hq) as [? Hv]. split; [done|]. by rewrite Hv.
Qed.

Lemma fewer_add M net out :
  (forall q, q ∈ net -> pk_src q ∈ M) ->
  (forall q, q ∈ out -> pk_src q ∈ M /\ voting q = false) -> fewer M net (net ++ out).
Proof.
  intros Hsrc Hout. split.
  - intros v c t. rewrite cnt_app, (cnt_zero v c t out); [lia|].
    intros q Hq. apply ballot_voting. by apply Hout.
  - intros q [Hq|Hq]%elem_of_app; [by split; [apply Hsrc|]|].
    destruct (Hout q Hq) as [? Hv]. split; [done|]. by rewrite Hv.
Qed.

(** ** A vote is granted *)

Lemma vote_inv_grant M nodes net1 p net2 B V s i lt :
  let v := pk_dst p in
  let c := pk_src p in
  let t := rn_current_term s in
  vote_inv M nodes (net1 ++ p :: net2) B V -> nodes !! v = Some s ->
  pk_msg p = RequestVote t c i lt -> rn_voted_for s = None \/ rn_voted_for s = Some c ->
  vote_inv M (<[v := set_voted s (Some c)]> nodes)
    ((net1 ++ net2) ++ [mkPacket v c (RequestVoteReply t true)])
    (fun v' t' c' => B v' t' c' \/ (v', t', c') = (v, t, c)) V.
Proof.
  intros v c t [Hn Hf Hc Hs Hr Hg Ht Ho Hk Hl] Hv Hm Hvote.
  assert (forall c', B v t c' -> c' = c) as Hsame.
  { intros c' HB. destruct (Hc _ _ _ _ Hv HB) as [_ Hvf]. specialize (Hvf eq_refl).
    destruct Hvote; congruence. }
  assert (forall v' c' t', cnt v' c' t' ((net1 ++ net2) ++ [mkPacket v c (RequestVoteReply t true)])
            = cnt v' c' t' (net1 ++ p :: net2)) as Hcnt.
  { intros v' c' t'. rewrite !cnt_app, !cnt_cons. unfold ballot at 1 2. cbn. rewrite Hm. fold v.
    change (cnt v' c' t' []) with 0%nat. destruct (t =? t'), (c =? c'), (v =? v'); cbn; lia. }
  assert (p ∈ net1 ++ p :: net2) as Hpin by set_solver.
  assert (forall q, q ∈ (net1 ++ net2) ++ [mkPacket v c (RequestVoteReply t true)] ->
            q ∈ net1 ++ p :: net2 \/ q = mkPacket v c (RequestVoteReply t true)) as Hsplit by set_solver.
  constructor.
  - intros j sj. rewrite lookup_insert_Some. intros [[<- <-]|[_ Hj]]; [exact (Hn v s Hv)|by apply Hn].
  - intros w t' c1 c2 [H1|E1] [H2|E2]; rewrite ?pair_eq in *; [by eapply Hf|..]; destruct_and!; subst w t'.
    + rewrite (Hsame c1) by done. done.
    + rewrite (Hsame c2) by done. done.
    + congruence.
  - intros w sw t' c'. rewrite lookup_insert_Some. intros [[<- <-]|[Hne Hw]] [HB|E]; rewrite ?pair_eq in *; destruct_and?; subst; cbn.
    + destruct (Hc _ _ _ _ Hv HB) as [Hle _]. split; [done|]. intros ->. by rewrite (Hsame c' HB).
    + done.
    + by eapply Hc.
    + done.
  - intros q [Hq| ->]%Hsplit; [by apply Hs|]. cbn. by apply (Hn v s).
  - intros q t' c' i' lt' [Hq| ->]%Hsplit Hmq; [by eapply Hr|done].
  - intros q t' [Hq| ->]%Hsplit Hmq; [left; by apply Hg|]. injection Hmq as <-. by right.
  - intros q w c' t' sc [Hq| ->]%Hsplit Hb; rewrite lookup_insert_Some.
    + intros [[<- <-]|[_ Hsc]]; [exact (Ht q w v t' s Hq Hb Hv)|by eapply Ht].
    + unfold ballot in Hb. cbn in Hb. rewrite !andb_true_iff, !Z.eqb_eq in Hb. destruct Hb as [[<- <-] <-].
      assert (ballot v c t p = true) as Hbp.
      { unfold ballot. rewrite Hm. fold v. by rewrite !Z.eqb_refl. }
      intros [[Heq <-]|[_ Hsc]]; [done|by eapply Ht].
  - intros w c' t'. rewrite Hcnt. apply Ho.
  - intros c' sc. rewrite lookup_insert_Some. intros [[<- <-]|[_ Hsc]] Hrole; cbn in *.
    + destruct (Hk v s Hv Hrole) as (H1 & H2 & H3). split; [done|]. split; [done|].
      intros w Hw. destruct (H3 w Hw). rewrite Hcnt. auto.
    + destruct (Hk c' sc Hsc Hrole) as (H1 & H2 & H3). split; [done|]. split; [done|].
      intros w Hw. destruct (H3 w Hw). rewrite Hcnt. auto.
  - intros c' sc. rewrite lookup_insert_Some. intros [[<- <-]|[_ Hsc]] Hrole; [by apply (Hl v s)|by apply Hl].
Qed.

(** ** A vote is counted *)

(** A candidate takes note of a reply, and becomes the leader if that fills its quorum. *)
Definition counted (s : RaftNode) (g : bool) (s' : RaftNode) : Prop :=
  rn_id s' = rn_id s /\ rn_peers s' = rn_peers s /\ rn_current_term s' = rn_current_term s /\
  rn_voted_for s' = rn_voted_for s /\
  rn_votes_granted s' = rn_votes_granted s + (if g then 1 else 0) /\
  (rn_role s' = Candidate \/ (rn_role s' = Leader /\ Z.of_nat (quorum s') <= rn_votes_granted s')).

Lemma vote_inv_count M nodes net1 p net2 B V s s' g :
  let c := pk_dst p in
  vote_inv M nodes (net1 ++ p :: net2) B V -> nodes !! c = Some s -> rn_role s = Candidate ->
  pk_msg p = RequestVoteReply (rn_current_term s) g -> counted s g s' ->
  vote_inv M (<[c := s']> nodes) (net1 ++ net2) B
    (fun x => if decide (x = c) then if g then {[ pk_src p ]} ∪ V c else V c else V x).
Proof.
  intros c Hinv Hc Hcand Hm (Hid & Hps & Het & Hev & Hvotes & Hrole).
  pose proof Hinv as [Hn Hf Hcur Hs Hr Hg Ht Ho Hk Hl].
  assert (fewer M (net1 ++ p :: net2) (net1 ++ net2)) as Hfew.
  { rewrite <- (app_nil_r (net1 ++ net2)). apply fewer_remove; [done|]. by intros q Hq%not_elem_of_nil. }
  pose proof (vote_inv_fewer _ _ _ _ _ _ Hinv Hfew) as [_ _ _ Hs' Hr' Hg' Ht' Ho' Hk' Hl'].
  assert (p ∈ net1 ++ p :: net2) as Hpin by set_solver.
  destruct (Hk c s Hc ltac:(congruence)) as (Hsz & Hsub & Hall).
  set (Vc := if g then {[ pk_src p ]} ∪ V c else V c).
  assert (rn_votes_granted s' = Z.of_nat (size Vc) /\ Vc ⊆ M /\
    forall v, v ∈ Vc -> B v (rn_current_term s) c /\ cnt v c (rn_current_term s) (net1 ++ net2) = 0%nat)
    as (Hsz' & Hsub' & Hall').
  { rewrite Hvotes, Hsz. unfold Vc. destruct g.
    - set (v := pk_src p). assert (ballot v c (rn_current_term s) p = true) as Hb.
      { unfold ballot. rewrite Hm. by rewrite !Z.eqb_refl. }
      assert (cnt v c (rn_current_term s) (net1 ++ net2) = 0%nat) as H0.
      { specialize (Ho v c (rn_current_term s)). rewrite cnt_app, cnt_cons, Hb in Ho. rewrite cnt_app. lia. }
      assert (v ∉ V c) as Hnin.
      { intros Hin. destruct (Hall v Hin) as [_ Hz]. pose proof (cnt_elem _ _ _ _ _ Hpin Hb). lia. }
      split; [rewrite size_union, size_singleton by set_solver; lia|].
      split; [apply union_subseteq; split; [apply singleton_subseteq_l; by apply Hs|done]|].
      intros w [->%elem_of_singleton|Hw]%elem_of_union; [split; [by apply Hg|done]|].
      destruct (Hall w Hw) as [HB Hz]. split; [done|].
      destruct Hfew as [Hle _]. specialize (Hle w c (rn_current_term s)). lia.
    - split; [lia|]. split; [done|]. intros w Hw. destruct (Hall w Hw) as [HB Hz]. split; [done|].
      destruct Hfew as [Hle _]. specialize (Hle w c (rn_current_term s)). lia. }
  constructor; try done.
  - intros j sj. rewrite lookup_insert_Some. intros [[<- <-]|[_ Hj]]; [|by apply Hn].
    rewrite Hid, Hps. by apply Hn.
  - intros v sv t c'. rewrite lookup_insert_Some. intros [[<- <-]|[_ Hv]] HB; [|by eapply Hcur].
    rewrite Het, Hev. by eapply Hcur.
  - intros q v c' t sc Hq Hb. rewrite lookup_insert_Some. intros [[<- <-]|[_ Hv]]; [|by eapply Ht'].
    rewrite Het. by eapply Ht'.
  - intros c' sc. rewrite lookup_insert_Some. intros [[<- <-]|[Hne Hj]] Hrl.
    + rewrite decide_True by done. rewrite Het. done.
    + rewrite decide_False by done. by apply Hk'.
  - intros c' sc. rewrite lookup_insert_Some. intros [[<- <-]|[Hne Hj]] Hrl.
    + rewrite decide_True by done. destruct Hrole as [|[_ Hq]]; [congruence|]. lia.
    + rewrite decide_False by done. by apply Hl'.
Qed.

(** ** An election starts *)

Definition campaign (s : RaftNode) (msg : RaftMessage) : list packet :=
  (fun p => mkPacket (rn_id s) p msg) <$> hv_slice (rn_peers s).

Lemma cnt_campaign v c t s t' i lt :
  NoDup (hv_slice (rn_peers s)) ->
  (cnt v c t (campaign s (RequestVote t' (rn_id s) i lt)) <= 1)%nat /\
  (v ∉ hv_slice (rn_peers s) \/ c <> rn_id s \/ t <> t' ->
   cnt v c t (campaign s (RequestVote t' (rn_id s) i lt)) = 0%nat).
Proof.
  unfold campaign. intros Hnd. split.
  - induction Hnd as [|x l Hx Hnd IH]; [unfold cnt; cbn; lia|]. cbn [fmap list_fmap]. rewrite cnt_cons.
    destruct (ballot v c t (mkPacket (rn_id s) x _)) eqn:Hb; [|lia].
    unfold ballot in Hb. cbn in Hb. rewrite !andb_true_iff, !Z.eqb_eq in Hb. destruct Hb as [_ ->].
    rewrite cnt_zero; [lia|]. intros q (y & -> & Hy)%list_elem_of_fmap. unfold ballot. cbn.
    destruct (Z.eqb_spec y v) as [->|]; [done|]. by rewrite andb_false_r.
  - intros Hno. apply cnt_zero. intros q (y & -> & Hy)%list_elem_of_fmap. unfold ballot. cbn.
    destruct (Z.eqb_spec t' t), (Z.eqb_spec (rn_id s) c), (Z.eqb_spec y v); cbn; try done. naive_solver.
Qed.

(** No ballot is in flight for a term the candidate has not reached. *)
Lemma cnt_future M nodes net B V c s v t :
  vote_inv M nodes net B V -> nodes !! c = Some s -> rn_current_term s < t -> cnt v c t net = 0%nat.
Proof.
  intros Hv Hc Hlt. apply cnt_zero. intros q Hq. destruct (ballot v c t q) eqn:Hb; [|done].
  pose proof (vi_time _ _ _ _ _ Hv q v c t s Hq Hb Hc). lia.
Qed.

(** A vote in a term in which the voter had none. *)
Lemma votes_add (B : NodeId -> Z -> NodeId -> Prop) (c : NodeId) (t : Z) :
  (forall v t c c', B v t c -> B v t c' -> c = c') -> (forall t' c', B c t' c' -> t' < t) ->
  let B' v t' c' := B v t' c' \/ (v, t', c') = (c, t, c) in
  forall v t c c', B' v t c -> B' v t c' -> c = c'.
Proof.
  intros Hf HB B' w t' c1 c2 [H1|E1] [H2|E2]; rewrite ?pair_eq in *; [by eapply Hf|..]; destruct_and!; subst; [| |done].
  - specialize (HB _ _ H1). lia.
  - specialize (HB _ _ H2). lia.
Qed.

Lemma vote_inv_elect M nodes net B V c s s' i lt :
  vote_inv M nodes net B V -> nodes !! c = Some s ->
  rn_id s' = rn_id s -> rn_peers s' = rn_peers s -> rn_current_term s' = rn_current_term s + 1 ->
  rn_voted_for s' = Some c -> rn_votes_granted s' = 1 -> (rn_role s' = Leader -> n_peers s = 0%nat) ->
  vote_inv M (<[c := s']> nodes)
    (net ++ campaign s (RequestVote (rn_current_term s + 1) (rn_id s) i lt))
    (fun v t c' => B v t c' \/ (v, t, c') = (c, rn_current_term s + 1, c))
    (fun x => if decide (x = c) then {[ c ]} else V x).
Proof.
  intros Hinv Hc Hid Hps Het Hev Hvotes Hlead. pose proof Hinv as [Hn Hf Hcur Hs Hr Hg Ht Ho Hk Hl].
  destruct (Hn c s Hc) as (HcM & Hids & Hnd & Hset).
  set (t := rn_current_term s + 1) in *. set (msg := RequestVote t (rn_id s) i lt).
  assert (forall t' c', B c t' c' -> t' < t) as HB.
  { intros t' c' HBv. destruct (Hcur _ _ _ _ Hc HBv). lia. }
  assert (forall v, cnt v c t net = 0%nat) as Hnew by (intros v; eapply cnt_future; try done; lia).
  assert (forall q, q ∈ campaign s msg -> pk_src q = c /\ pk_msg q = msg) as Hq.
  { intros q (y & -> & _)%list_elem_of_fmap. cbn. by rewrite Hids. }
  assert (forall v c' t', c' <> c \/ t' <> t -> cnt v c' t' (campaign s msg) = 0%nat) as Hother.
  { intros v c' t' Hne. apply (cnt_campaign v c' t' s t i lt Hnd). rewrite Hids. tauto. }
  constructor.
  - intros j sj. rewrite lookup_insert_Some. intros [[<- <-]|[_ Hj]]; [|by apply Hn]. by rewrite Hid, Hps.
  - by apply votes_add.
  - intros w sw t' c'. rewrite lookup_insert_Some. intros [[<- <-]|[Hne Hw]] [HBw|E]; rewrite ?pair_eq in *;
      destruct_and?; subst.
    + rewrite Het. specialize (HB _ _ HBw). split; lia.
    + rewrite Het. split; [lia|done].
    + by eapply Hcur.
    + done.
  - intros q [Hin|[-> _]%Hq]%elem_of_app; [by apply Hs|done].
  - intros q t' c' i' lt' [Hin|[-> ->]%Hq]%elem_of_app Hm; [by eapply Hr|]. injection Hm as _ <- _ _. done.
  - intros q t' [Hin|[_ ->]%Hq]%elem_of_app Hm; [left; by apply Hg|done].
  - intros q v c' t' sc [Hin|Hin]%elem_of_app Hb; rewrite lookup_insert_Some.
    + intros [[<- <-]|[_ Hsc]]; [|by eapply Ht]. specialize (Ht q v c t' s Hin Hb Hc). lia.
    + destruct (Hq q Hin) as [_ Hm]. unfold ballot in Hb. rewrite Hm in Hb. cbn in Hb.
      rewrite !andb_true_iff, !Z.eqb_eq in Hb. destruct Hb as [[<- <-] _].
      intros [[_ <-]|[Hne _]]; [lia|congruence].
  - intros v c' t'. rewrite cnt_app. destruct (decide (c' = c /\ t' = t)) as [[-> ->]|Hne].
    + rewrite Hnew. apply (cnt_campaign v c t s t i lt Hnd).
    + rewrite Hother by (destruct (decide (c' = c)); [right|left]; naive_solver). specialize (Ho v c' t'). lia.
  - intros c' sc. rewrite lookup_insert_Some. intros [[<- <-]|[Hne Hj]] Hrl.
    + rewrite decide_True, size_singleton by done. split; [done|].
      split; [by apply singleton_subseteq_l|]. intros v ->%elem_of_singleton. rewrite Het. split; [by right|].
      rewrite cnt_app, Hnew. apply (cnt_campaign c c t s t i lt Hnd). left.
      intros Hin. apply (elem_of_list_to_set (C := gset NodeId)) in Hin. rewrite Hset in Hin. set_solver.
    + rewrite decide_False by done. destruct (Hk c' sc Hj Hrl) as (H1 & H2 & H3). split; [done|]. split; [done|].
      intros v Hv. destruct (H3 v Hv) as [HBv Hz]. split; [by left|]. rewrite cnt_app, Hz, Hother; auto.
  - intros c' sc. rewrite lookup_insert_Some. intros [[<- <-]|[Hne Hj]] Hrl.
    + rewrite decide_True, size_singleton by done. specialize (Hlead Hrl). unfold quorum, n_peers in *.
      rewrite Hps, Hlead. done.
    + rewrite decide_False by done. by apply Hl.
Qed.

(** ** What the handlers do to the vote *)

Lemma become_leader_id s s' : become_leader s = Some s' -> rn_id s' = rn_id s.
Proof.
  unfold become_leader. intros (next & _ & [= <-])%bind_Some.
  by destruct (progress_fields next (seq 0 (n_peers (set_role s Leader))) (set_role s Leader)) as (-> & _).
Qed.

Lemma foldl_send (msg : RaftMessage) (l : list NodeId) (t : Outbox) :
  foldl (fun t p => t ++ [(p, msg)]) t l = t ++ ((., msg) <$> l).
Proof.
  revert t. induction l as [|p l IH]; intros t; cbn; [by rewrite app_nil_r|].
  rewrite IH. by rewrite <- app_assoc.
Qed.

Lemma start_election_sends s s' (out : Outbox) :
  start_election s [] = Some (s', out) ->
  rn_id s' = rn_id s /\
  sent (rn_id s) out = campaign s (RequestVote (rn_current_term s + 1) (rn_id s)
                                     (last_index (rn_log s)) (last_term (rn_log s))).
Proof.
  unfold start_election. intros (term & [_ ->]%add_u64_Some & H)%bind_Some. case_decide as Hn.
  - apply bind_Some in H as (s1 & Hb & [= <- <-]). split; [by rewrite (become_leader_id _ _ Hb)|].
    unfold campaign. apply length_zero_iff_nil in Hn. cbn in Hn. by rewrite Hn.
  - injection H as <- <-. split; [done|]. cbn [rt_send outbox_transport]. rewrite foldl_send. cbn. unfold sent, campaign.
    by rewrite <- list_fmap_compose.
Qed.

Lemma start_election_role s s' (t t' : Outbox) : start_election s t = Some (s', t') -> rn_role s' <> Follower.
Proof.
  unfold start_election. intros (term & _ & H)%bind_Some. case_decide; [|by injection H as <- _].
  apply bind_Some in H as (s1 & Hb & [= <- _]). apply become_leader_fields in Hb as (Hr & _). by rewrite Hr.
Qed.

Lemma send_ae_out s i (t t' : Outbox) :
  send_ae_to s i t = Some t' -> (forall x, x ∈ t' -> x ∈ t \/ voting (mkPacket 0 x.1 x.2) = false).
Proof.
  unfold send_ae_to. case_match; [|intros [= <-]; by left].
  intros (es & _ & [= <-])%bind_Some x. cbn. intros [Hx| ->%list_elem_of_singleton]%elem_of_app; auto.
Qed.

Lemma broadcast_out s l : forall t t' : Outbox,
  foldl (fun ot i => t ← ot; send_ae_to s i t) (Some t) l = Some t' ->
  forall x, x ∈ t' -> x ∈ t \/ voting (mkPacket 0 x.1 x.2) = false.
Proof.
  induction l as [|i l IH]; intros t t'; cbn [foldl]; [intros [= <-]; by left|].
  cbn [mbind option_bind]. destruct (send_ae_to s i t) as [t1|] eqn:Hs.
  - intros H x Hx. destruct (IH _ _ H x Hx) as [Hx1|]; [by apply (send_ae_out _ _ _ _ Hs)|auto].
  - intros H. exfalso. clear -H. induction l as [|j l IH]; [done|]. by apply IH.
Qed.

Lemma propose_quiet s src dst s' (out : Outbox) r :
  propose s src dst [] = Some (s', out, r) ->
  quiet s s' /\ forall x, x ∈ out -> voting (mkPacket 0 x.1 x.2) = false.
Proof.
  assert (forall s', rn_id s' = rn_id s -> rn_peers s' = rn_peers s -> rn_role s' = rn_role s ->
    rn_current_term s' = rn_current_term s -> rn_voted_for s' = rn_voted_for s ->
    rn_votes_granted s' = rn_votes_granted s -> quiet s s') as Hq by (unfold quiet; auto 10).
  assert (forall x : NodeId * RaftMessage, x ∈ [] -> voting (mkPacket 0 x.1 x.2) = false) as Hnil
    by by intros x Hx%not_elem_of_nil.
  unfold propose. destruct (negb _); [intros [= <- <- _]; split; [by apply Hq|done]|].
  destruct (log_append _ _) as [lg [|]]; cbn; [|intros [= <- <- _]; split; [by apply Hq|done]].
  case_decide; [intros [= <- <- _]; split; [by apply Hq|done]|].
  intros (t1 & Hb & [= <- <- _])%bind_Some. split; [by apply Hq|].
  intros x Hx. by destruct (broadcast_out _ _ _ _ Hb x Hx) as [?%not_elem_of_nil|].
Qed.

Lemma step_down_quiet s t : rn_current_term s < t -> quiet s (step_down s t).
Proof. unfold quiet. cbn. auto. Qed.

Lemma quiet_refl s : quiet s s.
Proof. unfold quiet. auto 10. Qed.

Lemma on_vote_reply_cases s t g s' :
  on_vote_reply s t g = Some s' ->
  quiet s s' \/ (rn_role s = Candidate /\ t = rn_current_term s /\ counted s g s').
Proof.
  unfold on_vote_reply. destruct (Z.ltb_spec (rn_current_term s) t).
  { intros [= <-]. left. by apply step_down_quiet. }
  destruct (negb _ || _) eqn:Hr; [intros [= <-]; left; apply quiet_refl|].
  apply orb_false_iff in Hr as [Hr%negb_false_iff%bool_decide_eq_true Ht%negb_false_iff%Z.eqb_eq].
  intros (s1 & Hs1 & H2)%bind_Some. right. split; [done|]. split; [done|].
  assert (s1 = set_votes s (rn_votes_granted s + if g then 1 else 0)) as ->.
  { destruct g.
    - by apply bind_Some in Hs1 as (v & [_ ->]%add_u64_Some & [= <-]).
    - injection Hs1 as <-. rewrite Z.add_0_r. by destruct s. }
  unfold counted. destruct (Z.leb_spec (Z.of_nat (quorum (set_votes s (rn_votes_granted s + if g then 1 else 0))))
    (rn_votes_granted (set_votes s (rn_votes_granted s + if g then 1 else 0)))) as [Hle|].
  - pose proof (become_leader_id _ _ H2) as Hid.
    apply become_leader_fields in H2 as (Er & Et & Ev & _ & Ep & _ & En).
    unfold quorum, n_peers in *. rewrite Ep, En, Et, Ev, Er. cbn in *. auto 10.
  - injection H2 as <-. cbn. auto 10.
Qed.

Lemma on_append_entries_quiet s from term pi pt es lc s' (out : Outbox) :
  on_append_entries s from term pi pt es lc [] = Some (s', out) ->
  quiet s s' /\ exists t ok m, out = [(from, AppendEntriesReply t ok m)].
Proof.
  unfold on_append_entries. destruct (_ <? _).
  { intros [= <- <-]. split; [apply quiet_refl|by eexists _, _, _]. }
  set (s1 := if _ <? term then _ else _).
  assert (quiet s s1) as H1.
  { unfold s1. destruct (Z.ltb_spec (rn_current_term s) term); [by apply step_down_quiet|].
    unfold quiet. cbn. auto 10. }
  clearbody s1. destruct (negb _); [intros [= <- <-]; split; [done|by eexists _, _, _]|].
  intros ([s2 m] & Ha & H2)%bind_Some. injection H2 as <- <-.
  apply append_log_entries_fields in Ha as (-> & _). split; [|by eexists _, _, _].
  unfold quiet in *. by destruct (_ <? lc).
Qed.

Lemma on_ae_reply_quiet s from term ok m s' r : on_ae_reply s from term ok m = Some (s', r) -> quiet s s'.
Proof.
  unfold on_ae_reply. destruct (Z.ltb_spec (rn_current_term s) term).
  { intros [= <- <-]. by apply step_down_quiet. }
  destruct (negb _ || _); [intros [= <- <-]; apply quiet_refl|].
  destruct (peer_index s from) as [i|]; [|intros [= <- <-]; apply quiet_refl].
  intros (s1 & Hs1 & H2)%bind_Some.
  assert (quiet s s1) as Hq.
  { destruct ok; [apply bind_Some in Hs1 as (x & _ & Hs1)|]; injection Hs1 as <-;
      [unfold quiet; cbn; auto 10|]. destruct (1 <? _); unfold quiet; cbn; auto 10. }
  destruct ok; [|by injection H2 as <- _].
  destruct (advance_commit_index s1) as [[s2 b]|] eqn:Ha; [|done]. injection H2 as <- _.
  apply advance_commit_fields in Ha as (n & -> & _). unfold quiet in *. done.
Qed.

(** ** The invariant holds *)

Definition safe (M : gset NodeId) (c : cluster) : Prop :=
  exists B V, vote_inv M (cl_nodes c) (cl_net c) B V.

(** In the step from [c] to [c'], node [v] may have voted for [x] in term [t]: for itself,
    as it starts a campaign, or on a request that its log permits. *)
Definition casts (c c' : cluster) (v : NodeId) (t : Z) (x : NodeId) : Prop :=
  exists s s', cl_nodes c !! v = Some s /\ cl_nodes c' !! v = Some s' /\ rn_log s' = rn_log s /\
    ((x = v /\ t = rn_current_term s + 1 /\ rn_current_term s' = t /\ rn_role s' <> Follower) \/
     exists p i lt, p ∈ cl_net c /\ pk_msg p = RequestVote t x i lt /\ rn_current_term s <= t /\
       log_up_to_date_for s i lt = true).

(** The invariant after a step: no vote of [B0] is forgotten, and those beyond are [casts]. *)
Definition safe_from (B0 : NodeId -> Z -> NodeId -> Prop) (M : gset NodeId) (c c' : cluster) : Prop :=
  exists B V, (forall v t x, B0 v t x -> B v t x) /\
    (forall v t x, B v t x -> B0 v t x \/ casts c c' v t x) /\
    vote_inv M (cl_nodes c') (cl_net c') B V.

Lemma sent_quiet (M : gset NodeId) i (out : Outbox) :
  i ∈ M -> (forall x, x ∈ out -> voting (mkPacket 0 x.1 x.2) = false) ->
  forall q, q ∈ sent i out -> pk_src q ∈ M /\ voting q = false.
Proof.
  intros Hi Hv q ([p m] & -> & Hx)%list_elem_of_fmap. split; [done|]. exact (Hv (p, m) Hx).
Qed.

Lemma safe_local M i s o s' out nodes net B V :
  vote_inv M nodes net B V -> nodes !! i = Some s -> is_local o = true ->
  raft_apply s ([] : Outbox) o = Some (s', out) ->
  safe_from B M (mkCluster nodes net) (mkCluster (<[i := s']> nodes) (net ++ sent i out)).
Proof.
  intros Hinv Hi Ho Ha. destruct (vi_node _ _ _ _ _ Hinv i s Hi) as (HiM & Hid & _).
  destruct o as [|src dst|]; [| |done]; cbn [raft_apply] in Ha.
  - pose proof (start_election_fields _ _ _ _ Ha) as (Et & Ev & El & _ & Ep & Er & En).
    pose proof (start_election_role _ _ _ _ Ha) as Hrole.
    apply start_election_sends in Ha as [Eid Hout]. subst i. eexists _, _. cbn [cl_nodes cl_net]. rewrite Hout.
    split; [|split; [|eapply (vote_inv_elect M nodes net B V (rn_id s) s s'); try done; by rewrite Er]].
    + intros v t x HB. by left.
    + intros v t x [HB|[= -> -> ->]]; [by left|]. right. exists s, s'. cbn. rewrite lookup_insert_eq. auto 10.
  - apply bind_Some in Ha as ([[s1 t1] r] & Hp & [= <- <-]). apply propose_quiet in Hp as [Hq Hv].
    exists B, V. split; [done|]. split; [auto|]. cbn. eapply vote_inv_fewer; [by eapply vote_inv_quiet|].
    apply fewer_add; [apply (vi_src _ _ _ _ _ Hinv)|]. by apply sent_quiet.
Qed.

Lemma safe_deliver_quiet M p s s' out nodes net1 net2 B V :
  vote_inv M nodes (net1 ++ p :: net2) B V -> nodes !! pk_dst p = Some s -> quiet s s' ->
  (forall x, x ∈ out -> voting (mkPacket 0 x.1 x.2) = false) ->
  safe_from B M (mkCluster nodes (net1 ++ p :: net2))
    (mkCluster (<[pk_dst p := s']> nodes) ((net1 ++ net2) ++ sent (pk_dst p) out)).
Proof.
  intros Hinv Hs Hq Hv. exists B, V. split; [done|]. split; [auto|]. cbn.
  eapply vote_inv_fewer; [by eapply vote_inv_quiet|].
  apply fewer_remove; [apply (vi_src _ _ _ _ _ Hinv)|]. apply sent_quiet; [|done].
  by apply (vi_node _ _ _ _ _ Hinv (pk_dst p) s).
Qed.

Lemma safe_request M p s nodes net1 net2 B V t c i lt :
  vote_inv M nodes (net1 ++ p :: net2) B V -> nodes !! pk_dst p = Some s ->
  pk_msg p = RequestVote t c i lt ->
  let '(s', out) := on_request_vote s (pk_src p) t c i lt ([] : Outbox) in
  safe_from B M (mkCluster nodes (net1 ++ p :: net2))
    (mkCluster (<[pk_dst p := s']> nodes) ((net1 ++ net2) ++ sent (pk_dst p) out)).
Proof.
  intros Hinv Hs Hm. assert (p ∈ net1 ++ p :: net2) as Hpin by set_solver.
  pose proof (vi_req _ _ _ _ _ Hinv p t c i lt Hpin Hm) as Hsrc.
  unfold on_request_vote. set (s1 := if rn_current_term s <? t then _ else _).
  assert (quiet s s1) as Hq.
  { unfold s1. destruct (Z.ltb_spec (rn_current_term s) t); [by apply step_down_quiet|apply quiet_refl]. }
  assert (t <= rn_current_term s1 /\ rn_current_term s <= rn_current_term s1 /\ rn_log s1 = rn_log s) as (Hle & Hle2 & Hlog).
  { unfold s1. destruct (Z.ltb_spec (rn_current_term s) t); cbn; split_and!; (lia || done). }
  clearbody s1. destruct (_ && _) eqn:Hg.
  - apply andb_true_iff in Hg as [Hg Hvote]. apply andb_true_iff in Hg as [Hge%Z.leb_le Hup].
    assert (t = rn_current_term s1) as -> by lia. rewrite <- Hsrc in *.
    eexists _, _. split; [|split]; cycle 2. cbn. rewrite <- (insert_insert_eq nodes (pk_dst p) _ s1).
    eapply (vote_inv_grant M (<[pk_dst p := s1]> nodes) net1 p net2 B V s1 i lt).
    + by eapply vote_inv_quiet.
    + by rewrite lookup_insert_eq.
    + done.
    + destruct (rn_voted_for s1) as [w|]; [|by left]. apply Z.eqb_eq in Hvote. right. congruence.
    + intros v t' x HB. by left.
    + intros v t' x [HB|[= -> -> ->]]; [by left|]. right. eexists s, _. cbn. rewrite lookup_insert_eq.
      split; [done|]. split; [done|]. split; [done|]. right. exists p, i, lt. unfold log_up_to_date_for in *. by rewrite <- Hlog.
  - eapply safe_deliver_quiet; [done|done|done|]. by intros x ->%list_elem_of_singleton.
Qed.

Lemma safe_deliver M p s s' out nodes net1 net2 B V :
  vote_inv M nodes (net1 ++ p :: net2) B V -> nodes !! pk_dst p = Some s ->
  raft_apply s ([] : Outbox) (OpStep (pk_src p) (pk_msg p)) = Some (s', out) ->
  safe_from B M (mkCluster nodes (net1 ++ p :: net2))
    (mkCluster (<[pk_dst p := s']> nodes) ((net1 ++ net2) ++ sent (pk_dst p) out)).
Proof.
  intros Hinv Hs Ha. cbn [raft_apply] in Ha.
  apply bind_Some in Ha as ([[s1 t1] r] & Hstep & [= <- <-]).
  assert (forall x : NodeId * RaftMessage, x ∈ [] -> voting (mkPacket 0 x.1 x.2) = false) as Hnil
    by by intros x Hx%not_elem_of_nil.
  destruct (pk_msg p) as [t c i lt|t g|t lid pi pt es lc|t ok m] eqn:Hm; unfold step in Hstep.
  - pose proof (safe_request M p s nodes net1 net2 B V t c i lt Hinv Hs Hm) as H.
    destruct (on_request_vote _ _ _ _ _ _ _) as [s2 t2]. by injection Hstep as <- <- _.
  - apply bind_Some in Hstep as (s2 & Hv & [= <- <- _]).
    apply on_vote_reply_cases in Hv as [Hq|(Hcand & -> & Hcnt)]; [by eapply safe_deliver_quiet|].
    eexists _, _. split; [|split]; cycle 2. { cbn. rewrite app_nil_r. by eapply vote_inv_count. } { done. } by left.
  - apply bind_Some in Hstep as ([s2 t2] & Hae & [= <- <- _]).
    apply on_append_entries_quiet in Hae as [Hq (t' & ok & m & ->)].
    eapply safe_deliver_quiet; [done|done|done|]. by intros x ->%list_elem_of_singleton.
  - apply bind_Some in Hstep as ([s2 r2] & Hae & [= <- <- _]). apply on_ae_reply_quiet in Hae.
    by eapply safe_deliver_quiet.
Qed.

Lemma vote_step M c c' B V :
  vote_inv M (cl_nodes c) (cl_net c) B V -> cluster_step c c' -> safe_from B M c c'.
Proof.
  intros Hinv Hstep. destruct Hstep as [i s o s' out nodes net Hi Ho Ha|p s s' out nodes net1 net2 Hp Ha|p nodes net1 net2|i nodes net].
  - by eapply safe_local.
  - by eapply safe_deliver.
  - exists B, V. split; [done|]. split; [auto|]. cbn in *. eapply vote_inv_fewer; [done|].
    rewrite <- (app_nil_r (net1 ++ net2)). apply fewer_remove; [apply (vi_src _ _ _ _ _ Hinv)|].
    by intros q Hq%not_elem_of_nil.
  - exists B, V. split; [done|]. split; [auto|]. by apply vote_inv_delete.
Qed.

Lemma safe_step M c c' : safe M c -> cluster_step c c' -> safe M c'.
Proof. intros (B & V & Hinv) Hstep. destruct (vote_step M c c' B V Hinv Hstep) as (B' & V' & _ & _ & H). by exists B', V'. Qed.

Section init.
Context `{HL : !HVecLaws}.

Lemma push_all (l : list NodeId) : forall v : hvec MAX_PEERS NodeId,
  (hv_len v + length l <= MAX_PEERS)%nat ->
  hv_slice (foldl (fun v p => default v (hv_push v p)) v l) = hv_slice v ++ l.
Proof using HL.
  induction l as [|x l IH]; intros v Hl; cbn [foldl]; [by rewrite app_nil_r|]. cbn in Hl.
  destruct (hv_push_room _ _ v x) as (w & -> & Hw); [lia|]. change (default v (Some w)) with w.
  rewrite IH, Hw; [by rewrite <- app_assoc|]. unfold hv_len in *. rewrite Hw, length_app. cbn. lia.
Qed.

Lemma node_new_peers i ps :
  (hv_len (ps_peers ps) <= MAX_PEERS)%nat -> hv_slice (rn_peers (node_new i ps)) = hv_slice (ps_peers ps).
Proof using HL.
  intros Hl. cbn. rewrite push_all; [by rewrite hv_slice_new|]. unfold hv_len. by rewrite hv_slice_new.
Qed.

Lemma vote_inv_init M c :
  cluster_init M c -> vote_inv M (cl_nodes c) (cl_net c) (fun _ _ _ => False) (fun _ => ∅).
Proof using HL.
  intros [Hnet Hn]. rewrite Hnet. constructor; try done.
  - intros i s Hi. destruct (Hn i s Hi) as (HiM & ps & -> & Hnd & Hl & Hset).
    rewrite node_new_peers by done. done.
  - by intros p Hp%not_elem_of_nil.
  - by intros p t c' i lt Hp%not_elem_of_nil.
  - by intros p t Hp%not_elem_of_nil.
  - by intros p v c' t s Hp%not_elem_of_nil.
  - intros v c' t. cbn. lia.
  - intros c' s Hc. by destruct (Hn c' s Hc) as (_ & ps & -> & _).
  - intros c' s Hc. by destruct (Hn c' s Hc) as (_ & ps & -> & _).
Qed.

Lemma safe_init M c : cluster_init M c -> safe M c.
Proof using HL. intros Hi. eexists _, _. by apply vote_inv_init. Qed.

Lemma reachable_safe M c : cluster_reachable M c -> safe M c.
Proof using HL.
  intros (c0 & Hi & Hr). apply safe_init in Hi.
  induction Hr as [|c1 c2 c3 Hs _ IH]; [done|]. apply IH. by eapply safe_step.
Qed.

(** Two sets that each hold more than half of [M] meet. *)
Lemma majorities_meet (M A B : gset NodeId) :
  A ⊆ M -> B ⊆ M -> (size M < size A + size B)%nat -> exists v, v ∈ A /\ v ∈ B.
Proof.
  intros HA HB Hlt. destruct (decide (A ∩ B = ∅)) as [He|Hne].
  - exfalso. assert (size (A ∪ B) <= size M)%nat by (apply subseteq_size; set_solver).
    rewrite size_union in * by set_solver. lia.
  - apply set_choose_L in Hne as [v Hv]. exists v. set_solver.
Qed.

Lemma members_peers M nodes net B V c s :
  vote_inv M nodes net B V -> nodes !! c = Some s -> size M = S (n_peers s).
Proof.
  intros Hinv Hc. destruct (vi_node _ _ _ _ _ Hinv c s Hc) as (HcM & _ & Hnd & Hset).
  unfold n_peers, hv_len. rewrite <- (size_list_to_set (C := gset NodeId)) by done. rewrite Hset.
  rewrite size_difference by set_solver. rewrite size_singleton.
  assert (size M <> 0%nat); [|lia]. intros H0%size_empty_inv. set_solver.
Qed.

Lemma leader_majority M nodes net B V c s :
  vote_inv M nodes net B V -> nodes !! c = Some s -> rn_role s = Leader ->
  V c ⊆ M /\ (size M < 2 * size (V c))%nat /\ forall v, v ∈ V c -> B v (rn_current_term s) c.
Proof.
  intros Hinv Hc Hl. destruct (vi_count _ _ _ _ _ Hinv c s Hc ltac:(congruence)) as (_ & Hsub & HB).
  pose proof (vi_lead _ _ _ _ _ Hinv c s Hc Hl) as Hq. pose proof (quorum_majority s) as Hm.
  split; [done|]. split; [|intros v Hv; by apply HB]. rewrite (members_peers _ _ _ _ _ _ _ Hinv Hc). lia.
Qed.

(** C11: Election safety.  In every state that a cluster can reach, whatever packets were
    reordered, delayed or lost and whatever nodes crashed, two leaders of the same term are
    the same node. *)
Theorem election_safety M c a b sa sb :
  cluster_reachable M c -> cl_nodes c !! a = Some sa -> cl_nodes c !! b = Some sb ->
  rn_role sa = Leader -> rn_role sb = Leader -> rn_current_term sa = rn_current_term sb -> a = b.
Proof using HL.
  intros (B & V & Hinv)%reachable_safe Ha Hb Hla Hlb Ht.
  destruct (leader_majority _ _ _ _ _ _ _ Hinv Ha Hla) as (Hsa & Hma & HBa).
  destruct (leader_majority _ _ _ _ _ _ _ Hinv Hb Hlb) as (Hsb & Hmb & HBb).
  destruct (majorities_meet M (V a) (V b) Hsa Hsb ltac:(lia)) as (v & Hva & Hvb).
  apply (vi_fun _ _ _ _ _ Hinv v (rn_current_term sa)); [by apply HBa|]. rewrite Ht. by apply HBb.
Qed.

End init.

(** ** Executions *)

(** A schedule chooses what happens next; [Duplicate] is what a step of the cluster lacks. *)
Inductive action :=
| Local (i : NodeId) (o : raft_op)
| Deliver (k : nat)
| Lose (k : nat)
| Crash (i : NodeId)
| Duplicate (k : nat).

Definition act (c : cluster) (a : action) : option cluster :=
  match a with
  | Local i o =>
      s ← cl_nodes c !! i;
      '(s', out) ← (if is_local o then raft_apply s ([] : Outbox) o else None);
      Some (mkCluster (<[i := s']> (cl_nodes c)) (cl_net c ++ sent i out))
  | Deliver k =>
      p ← cl_net c !! k;
      s ← cl_nodes c !! pk_dst p;
      '(s', out) ← raft_apply s ([] : Outbox) (OpStep (pk_src p) (pk_msg p));
      Some (mkCluster (<[pk_dst p := s']> (cl_nodes c))
              ((take k (cl_net c) ++ drop (S k) (cl_net c)) ++ sent (pk_dst p) out))
  | Lose k => p ← cl_net c !! k; Some (mkCluster (cl_nodes c) (take k (cl_net c) ++ drop (S k) (cl_net c)))
  | Crash i => Some (mkCluster (delete i (cl_nodes c)) (cl_net c))
  | Duplicate k => p ← cl_net c !! k; Some (mkCluster (cl_nodes c) (take k (cl_net c) ++ p :: p :: drop (S k) (cl_net c)))
  end.

Definition schedule (c : cluster) (acts : list action) : option cluster :=
  foldl (fun oc a => c ← oc; act c a) (Some c) acts.

Definition duplicates (a : action) : bool := match a with Duplicate _ => true | _ => false end.

Lemma act_step c a c' : act c a = Some c' -> duplicates a = false -> cluster_step c c'.
Proof.
  destruct c as [nodes net], a as [i o|k|k|i|k]; cbn [act cl_nodes cl_net]; [| | | |done]; intros H _.
  - apply bind_Some in H as (s & Hi & H). apply bind_Some in H as ([s' out] & Ha & [= <-]).
    destruct (is_local o) eqn:Ho; [|done]. by eapply cs_local.
  - apply bind_Some in H as (p & Hp & H). apply bind_Some in H as (s & Hs & H).
    apply bind_Some in H as ([s' out] & Ha & [= <-]).
    rewrite <- (take_drop_middle net k p Hp) at 1. by eapply cs_deliver.
  - apply bind_Some in H as (p & Hp & [= <-]). rewrite <- (take_drop_middle net k p Hp) at 1. apply cs_lose.
  - injection H as <-. apply cs_crash.
Qed.

Lemma schedule_reachable acts : forallb (fun a => negb (duplicates a)) acts = true ->
  forall M c c', cluster_reachable M c -> schedule c acts = Some c' -> cluster_reachable M c'.
Proof.
  unfold schedule. induction acts as [|a acts IH]; intros Hd M c c' Hr; cbn [foldl]; [by intros [= <-]|].
  cbn in Hd. apply andb_true_iff in Hd as [Ha%negb_true_iff Hd]. cbn [mbind option_bind].
  destruct (act c a) as [c1|] eqn:Hc.
  - apply IH; [done|]. destruct Hr as (c0 & Hi & Hr). exists c0. split; [done|].
    eapply rtc_r; [exact Hr|by eapply act_step].
  - intros H. exfalso. clear -H. induction acts as [|b acts IH]; [done|]. by apply IH.
Qed.

(** Who leads in term [t]. *)
Definition leaders (t : Z) (c : cluster) (ids : list NodeId) : list NodeId :=
  filter (fun i => match cl_nodes c !! i with
                   | Some s => is_leader s && (rn_current_term s =? t)
                   | None => false end = true) ids.

Lemma leaders_spec t c ids i :
  i ∈ leaders t c ids -> exists s, cl_nodes c !! i = Some s /\ rn_role s = Leader /\ rn_current_term s = t.
Proof.
  unfold leaders. rewrite list_elem_of_filter. intros [H _]. destruct (cl_nodes c !! i) as [s|]; [|done].
  apply andb_true_iff in H as [H1%bool_decide_eq_true H2%Z.eqb_eq]. eauto.
Qed.

End cluster.

(** ** Witnesses *)

Module Witness.
#[local] Existing Instance ListModel.list_hvec.
#[local] Existing Instance ListModel.list_hvec_laws.

Definition fresh (i : NodeId) (others : list NodeId) : NodeId * RaftNode :=
  (i, node_new i {| ps_peers := others |}).

Definition three : cluster :=
  mkCluster (list_to_map [fresh 1 [2; 3]; fresh 2 [1; 3]; fresh 3 [1; 2]]) [].

Lemma three_init : cluster_init {[1; 2; 3]} three.
Proof.
  split; [done|]. intros i s. cbn.
  rewrite !lookup_insert_Some, lookup_empty.
  intros [[<- <-]|[_ [[<- <-]|[_ [[<- <-]|[_ [=]]]]]]];
    (split; [set_solver|]); eexists; (split; [reflexivity|]); cbn;
    (split; [repeat constructor; set_solver|]); (split; [apply Nat.leb_le; reflexivity|set_solver]).
Qed.

(** Node 1 campaigns; node 3 campaigns too, but too late; node 1 gets the vote of node 2. *)
Definition election : list action := [Local 1 OpElect; Deliver 0; Local 3 OpElect; Deliver 3; Deliver 1].

Lemma election_safety_witness :
  exists c, cluster_reachable {[1; 2; 3]} c /\ leaders 1 c [1; 2; 3] = [1] /\
    forall b sb, cl_nodes c !! b = Some sb -> rn_role sb = Leader -> rn_current_term sb = 1 -> b = 1.
Proof.
  destruct (schedule three election) as [c|] eqn:Hs; [|vm_compute in Hs; discriminate].
  assert (cluster_reachable {[1; 2; 3]} c) as Hr.
  { eapply (schedule_reachable election); [reflexivity| |exact Hs]. exists three. split; [exact three_init|constructor]. }
  assert (leaders 1 c [1; 2; 3] = [1]) as Hl.
  { transitivity (from_option (fun c => leaders 1 c [1; 2; 3]) [] (schedule three election));
      [by rewrite Hs|vm_compute; reflexivity]. }
  exists c. split; [exact Hr|]. split; [exact Hl|]. intros b sb Hb Hlb Htb.
  destruct (leaders_spec 1 c [1; 2; 3] 1) as (sa & Ha & Hla & Hta); [rewrite Hl; left|].
  apply (election_safety _ c b 1 sb sa Hr Hb Ha Hlb Hla). congruence.
Defined.

Definition five : cluster :=
  mkCluster (list_to_map [fresh 1 [2; 3; 4; 5]; fresh 2 [1; 3; 4; 5]; fresh 3 [1; 2; 4; 5];
                          fresh 4 [1; 2; 3; 5]; fresh 5 [1; 2; 3; 4]]) [].

(** Nodes 1 and 3 campaign in term 1.  Node 2 votes for 1 and its vote arrives twice; nodes
    4 and 5 vote for 3.  Both lead term 1. *)
Definition split_vote : list action :=
  [Local 1 OpElect; Deliver 0; Local 3 OpElect;
   (* in flight: 1 asks 3, 4, 5; 2 grants 1; 3 asks 1, 2, 4, 5 *)
   Deliver 6; Deliver 6; Duplicate 3; Deliver 3; Deliver 3; Deliver 5; Deliver 5].

Lemma duplication_elects_two :
  exists c, schedule five split_vote = Some c /\ leaders 1 c [1; 2; 3; 4; 5] = [1; 3].
Proof.
  destruct (schedule five split_vote) as [c|] eqn:Hs; [|vm_compute in Hs; discriminate].
  exists c. split; [done|].
  transitivity (from_option (fun c => leaders 1 c [1; 2; 3; 4; 5]) [] (schedule five split_vote));
    [by rewrite Hs|vm_compute; reflexivity].
Qed.

End Witness.
