(* ===== verification/LogMatching.v ===== *)
(** * Log matching in a cluster

    The second safety property of the Raft state machine of [src/consensus/raft.rs], on the
    clusters of [Cluster.v]: if two logs hold an entry of the same term at the same index,
    they are equal up to that index ([log_matching]).

    The proof keeps, for each term, the log its leader has had (a ghost [history]).  Every
    log of a node agrees with it, and every [AppendEntries] in flight carries a piece of
    it. *)
From S2P Require Import Prelude Heapless Types Raft Cluster.
From stdpp Require Import base tactics list numbers option strings gmap sets relations.
Open Scope Z_scope.

#[local] Arguments quorum : simpl never.

Section matching.
Context `{HV : HVec} `{HL : !HVecLaws}.
Implicit Types (s : RaftNode) (l : list LogEntry).

(** ** Histories *)

(** For a term in which some node has led: that node and its log. *)
Definition history : Type := Z -> option (NodeId * list LogEntry).

(** Up to any of its entries, [l] is the log of the leader of that entry's term. *)
Definition agrees (L : history) l : Prop :=
  forall i e, l !! i = Some e -> exists c l', L (le_term e) = Some (c, l') /\ take (S i) l = take (S i) l'.

(** A message says nothing that the leader of its term did not hold. *)
Definition backed (L : history) (m : RaftMessage) : Prop :=
  match m with
  | AppendEntries term _ pi pt es _ =>
      0 <= pi /\ exists c l, L term = Some (c, l) /\
        (pi = 0 \/ pt = 0 \/ exists e, l !! Z.to_nat (pi - 1) = Some e /\ le_term e = pt) /\
        hv_slice es `prefix_of` drop (Z.to_nat pi) l
  | AppendEntriesReply _ _ m => 0 <= m
  | _ => True
  end.

(** Leaders only append. *)
Definition extends (L L' : history) : Prop :=
  forall t c l, L t = Some (c, l) -> exists k, L' t = Some (c, l ++ k).

Lemma extends_refl L : extends L L.
Proof. intros t c l H. exists []. by rewrite app_nil_r. Qed.

Lemma extends_trans L1 L2 L3 : extends L1 L2 -> extends L2 L3 -> extends L1 L3.
Proof.
  intros H1 H2 t c l Ht. destruct (H1 t c l Ht) as [k Hk]. destruct (H2 t c _ Hk) as [k' Hk'].
  exists (k ++ k'). by rewrite app_assoc.
Qed.

Lemma take_eq_length {A} n (l l' : list A) : take n l = take n l' -> (n <= length l)%nat -> (n <= length l')%nat.
Proof. intros H%(f_equal length). rewrite !length_take in H. lia. Qed.

Lemma agrees_extends L L' l : extends L L' -> agrees L l -> agrees L' l.
Proof.
  intros He Ha i e Hi. destruct (Ha i e Hi) as (c & l' & HL' & Ht). destruct (He _ _ _ HL') as [k Hk].
  exists c, (l' ++ k). split; [done|]. rewrite take_app_le; [done|].
  eapply take_eq_length; [exact Ht|]. apply lookup_lt_Some in Hi. lia.
Qed.

Lemma backed_extends L L' m : extends L L' -> backed L m -> backed L' m.
Proof.
  intros He. destruct m as [| |term lid pi pt es lc|]; cbn; try done.
  intros (Hpi & c & l & Hl & Hp & Hes). split; [done|]. destruct (He _ _ _ Hl) as [k Hk].
  exists c, (l ++ k). split; [done|]. split.
  - destruct Hp as [|[|(e & Hi & Hte)]]; [auto..|]. right; right. exists e. split; [|done]. by apply lookup_app_l_Some.
  - rewrite drop_app. by apply prefix_app_r.
Qed.

Lemma agrees_take L l n : agrees L l -> agrees L (take n l).
Proof.
  intros Ha i e [Hi Hn]%lookup_take_Some. destruct (Ha i e Hi) as (c & l' & HL' & Ht). exists c, l'. split; [done|].
  rewrite take_take. by rewrite Nat.min_l by lia.
Qed.

(** Two logs that agree with the history and share a term at an index. *)
Lemma agrees_match L l l' i e e' :
  agrees L l -> agrees L l' -> l !! i = Some e -> l' !! i = Some e' -> le_term e = le_term e' ->
  take (S i) l = take (S i) l'.
Proof.
  intros Ha Ha' Hi Hi' Ht. destruct (Ha i e Hi) as (c & k & Hk & ->). destruct (Ha' i e' Hi') as (c' & k' & Hk' & ->).
  by simplify_eq/=; rewrite Ht in Hk; simplify_eq.
Qed.

(** ** A follower takes over a piece of a leader's log *)

Lemma log_append_cases (lg : RaftLog) e :
  (entries_of (log_append lg e).1 = entries_of lg ++ [e] /\ (length (entries_of lg) < RAFT_LOG_CAP)%nat) \/
  ((log_append lg e).1 = lg /\ (RAFT_LOG_CAP <= length (entries_of lg))%nat).
Proof using HL.
  destruct (decide (length (entries_of lg) < RAFT_LOG_CAP)%nat).
  - left. by rewrite log_append_room.
  - right. unfold log_append. rewrite hv_push_full; [split; [done|lia]|]. unfold hv_len, entries_of in *. lia.
Qed.

(** The log follows [l] up to index [k], or it is full. *)
Definition follows l (k : nat) (lg : RaftLog) : Prop :=
  (take k (entries_of lg) = take k l /\ (k <= length (entries_of lg))%nat) \/
  ((RAFT_LOG_CAP <= length (entries_of lg))%nat /\ (length (entries_of lg) <= k)%nat).

Lemma push_agrees L l k lg e :
  agrees L l -> entries_of lg = take k l -> l !! k = Some e ->
  let lg' := (log_append lg e).1 in agrees L (entries_of lg') /\ follows l (S k) lg'.
Proof using HL.
  intros Hl Hlg He lg'. pose proof (lookup_lt_Some _ _ _ He) as Hlt.
  assert (length (entries_of lg) = k) as Hk by (rewrite Hlg, length_take; lia).
  unfold lg'. destruct (log_append_cases lg e) as [[Heq _]|[-> Hc]].
  - rewrite Hlg, <- (take_S_r l k e He) in Heq. unfold follows. rewrite Heq. split; [by apply agrees_take|].
    left. rewrite take_take, length_take. split; [f_equal; lia|lia].
  - rewrite Hlg. split; [by apply agrees_take|]. right. lia.
Qed.

Lemma append_one_agrees L l k lg e :
  agrees L l -> agrees L (entries_of lg) -> follows l k lg -> l !! k = Some e ->
  let lg' := append_one lg (Z.of_nat k + 1) e in agrees L (entries_of lg') /\ follows l (S k) lg'.
Proof using HL.
  intros Hl Hlg Hf He. cbn zeta. unfold append_one. rewrite term_at_nat.
  destruct (entries_of lg !! k) as [x|] eqn:Hx; cbn [fmap option_fmap option_map].
  - pose proof (lookup_lt_Some _ _ _ Hx) as Hlt. destruct Hf as [[Ht Hk]|[_ ?]]; [|lia].
    destruct (Z.eqb_spec (le_term x) (le_term e)) as [Heq|Hne]; cbn [negb].
    + rewrite log_get_nat, Hx. split; [done|]. left. split; [by eapply agrees_match|lia].
    + rewrite log_get_nat, truncate_nat, lookup_take_ge by lia.
      apply push_agrees; [done| |done]. by rewrite truncate_nat.
  - rewrite log_get_nat, Hx. apply lookup_ge_None in Hx. destruct Hf as [[Ht Hk]|[Hc Hk]].
    + apply push_agrees; [done| |done]. by rewrite <- Ht, take_ge by lia.
    + destruct (log_append_cases lg e) as [[_ ?]|[-> _]]; [lia|]. split; [done|]. right. lia.
Qed.

Lemma append_loop_agrees L l es : forall lg lg' k,
  agrees L l -> agrees L (entries_of lg) -> follows l k lg -> es `prefix_of` drop k l ->
  append_loop lg (Z.of_nat k + 1) es = Some lg' -> agrees L (entries_of lg').
Proof using HL.
  induction es as [|e es IH]; intros lg lg' k Hl Hlg Hf Hp; cbn [append_loop]; [by intros [= <-]|].
  intros (i & [_ ->]%add_u64_Some & H)%bind_Some.
  assert (l !! k = Some e /\ es `prefix_of` drop (S k) l) as [He Hp'].
  { destruct Hp as [r Hr]. split.
    - rewrite <- (Nat.add_0_r k), <- lookup_drop, Hr. done.
    - exists r. rewrite <- Nat.add_1_r, <- drop_drop, Hr. done. }
  destruct (append_one_agrees L l k lg e Hl Hlg Hf He) as [Ha Hf'].
  eapply (IH _ lg' (S k)); [done|done|done|done|]. by replace (Z.of_nat (S k) + 1) with (Z.of_nat k + 1 + 1) by lia.
Qed.

(** ** A leader sends pieces of its log *)

Lemma gather_spec fuel : forall (lg : RaftLog) (v es : hvec AE_CAP LogEntry) (k : nat),
  gather fuel lg v (Z.of_nat k + 1) = Some es ->
  exists r, hv_slice es = hv_slice v ++ r /\ r `prefix_of` drop k (entries_of lg).
Proof using HL.
  assert (forall (lg : RaftLog) (v : hvec AE_CAP LogEntry) k,
    exists r, hv_slice v = hv_slice v ++ r /\ r `prefix_of` drop k (entries_of lg)) as Hstop.
  { intros lg v k. exists []. rewrite app_nil_r. split; [done|]. apply prefix_nil. }
  induction fuel as [|fuel IH]; intros lg v es k; cbn [gather]; [intros [= <-]; apply Hstop|].
  rewrite log_get_nat. destruct (entries_of lg !! k) as [e|] eqn:He; [|intros [= <-]; apply Hstop].
  destruct (hv_push v e) as [w|] eqn:Hw; [|intros [= <-]; apply Hstop].
  intros (i & [_ ->]%add_u64_Some & H)%bind_Some.
  replace (Z.of_nat k + 1 + 1) with (Z.of_nat (S k) + 1) in H by lia.
  destruct (IH lg w es (S k) H) as (r & Hr & Hp). apply hv_push_Some in Hw as [Hw _].
  exists (e :: r). rewrite Hr, Hw, <- app_assoc. split; [done|]. rewrite (drop_S _ _ _ He). by apply prefix_cons.
Qed.

Lemma send_ae_backed (L : history) s i c (t t' : Outbox) :
  L (rn_current_term s) = Some (c, entries_of (rn_log s)) -> Forall (Z.le 0) (rn_next_index s) ->
  send_ae_to s i t = Some t' -> forall x, x ∈ t' -> x ∈ t \/ backed L x.2.
Proof using HL.
  intros HLs Hnext. unfold send_ae_to. destruct (_ !! i) as [peer|]; [|intros [= <-]; by left].
  set (next := default 0 _). assert (0 <= next) as Hn.
  { unfold next. destruct (rn_next_index s !! i) as [n|] eqn:Hi; cbn; [|lia]. by eapply Forall_lookup_1 in Hnext. }
  clearbody next. intros (es & Hg & [= <-])%bind_Some x. cbn [rt_send outbox_transport].
  intros [Hx| ->%list_elem_of_singleton]%elem_of_app; [by left|right]. cbn [snd backed].
  unfold saturating_sub_u64. split; [lia|]. eexists _, _. split; [exact HLs|]. split.
  - destruct (Z.eqb_spec (Z.max (next - 1) 0) 0) as [|Hne]; [by left|right].
    destruct (term_at (rn_log s) _) as [pt|] eqn:Ht; [right|by left]. cbn.
    replace (Z.max (next - 1) 0) with (Z.of_nat (Z.to_nat (next - 2)) + 1) in Ht by lia. rewrite term_at_nat in Ht.
    apply fmap_Some in Ht as (e & He & ->). exists e. split; [|done].
    by replace (Z.to_nat (Z.max (next - 1) 0 - 1)) with (Z.to_nat (next - 2)) by lia.
  - destruct (decide (next = 0)) as [->|Hpos].
    + cbn in Hg. injection Hg as <-. rewrite hv_slice_new. apply prefix_nil.
    + replace next with (Z.of_nat (Z.to_nat (next - 1)) + 1) in Hg by lia.
      apply gather_spec in Hg as (r & -> & Hp). rewrite hv_slice_new. cbn [app].
      by replace (Z.to_nat (Z.max (next - 1) 0)) with (Z.to_nat (next - 1)) by lia.
Qed.

Lemma broadcast_backed (L : history) s c (ks : list nat) : forall t t' : Outbox,
  L (rn_current_term s) = Some (c, entries_of (rn_log s)) -> Forall (Z.le 0) (rn_next_index s) ->
  foldl (fun ot i => t ← ot; send_ae_to s i t) (Some t) ks = Some t' ->
  forall x, x ∈ t' -> x ∈ t \/ backed L x.2.
Proof using HL.
  induction ks as [|i ks IH]; intros t t' HLs Hn; cbn [foldl]; [intros [= <-]; by left|].
  cbn [mbind option_bind]. destruct (send_ae_to s i t) as [t1|] eqn:Hs.
  - intros H x Hx. destruct (IH _ _ HLs Hn H x Hx) as [Hx1|]; [by eapply send_ae_backed|auto].
  - intros H. exfalso. clear -H. induction ks as [|j ks IH]; [done|]. by apply IH.
Qed.

(** ** The invariant *)

(** What the history has to do with node [i]. *)
Record node_log (L : history) (i : NodeId) s : Prop := {
  nl_agrees : agrees L (entries_of (rn_log s));
  nl_term : 0 <= rn_current_term s;
  nl_role : rn_role s <> Follower -> 1 <= rn_current_term s;
  nl_next : Forall (Z.le 0) (rn_next_index s);
  nl_lead : rn_role s = Leader -> L (rn_current_term s) = Some (i, entries_of (rn_log s));
  nl_past : forall t l, L t = Some (i, l) ->
    t <= rn_current_term s /\ (t = rn_current_term s -> rn_role s <> Candidate);
}.

(** A majority has voted for [c] in term [t]. *)
Definition elected (M : gset NodeId) (B : NodeId -> Z -> NodeId -> Prop) (t : Z) (c : NodeId) : Prop :=
  exists W : gset NodeId, W ⊆ M /\ (size M < 2 * size W)%nat /\ forall v, v ∈ W -> B v t c.

Record log_inv (M : gset NodeId) (nodes : gmap NodeId RaftNode) (net : list packet)
    (B : NodeId -> Z -> NodeId -> Prop) (L : history) : Prop := {
  lg_node : forall i s, nodes !! i = Some s -> node_log L i s;
  lg_msg : forall p, p ∈ net -> backed L (pk_msg p);
  lg_hist : forall t c l, L t = Some (c, l) -> 1 <= t /\ agrees L l /\ elected M B t c;
}.

Lemma elected_unique M B t c c' :
  (forall v t c c', B v t c -> B v t c' -> c = c') -> elected M B t c -> elected M B t c' -> c = c'.
Proof.
  intros Hf (W & HW & Hm & HB) (W' & HW' & Hm' & HB').
  destruct (majorities_meet M W W' HW HW' ltac:(lia)) as (v & Hv & Hv'). by apply (Hf v t); auto.
Qed.

(** ** Steps *)

(** A step of a node that keeps its log and does not make it a leader. *)
Definition keeps s s' : Prop :=
  rn_log s' = rn_log s /\ rn_current_term s <= rn_current_term s' /\
  Forall (Z.le 0) (rn_next_index s') /\
  (rn_role s' <> Follower -> 1 <= rn_current_term s') /\
  (rn_role s' = Leader -> rn_role s = Leader /\ rn_current_term s' = rn_current_term s) /\
  (rn_role s' = Candidate -> rn_current_term s' = rn_current_term s -> rn_role s = Candidate).

Lemma node_log_keeps L i s s' : node_log L i s -> keeps s s' -> node_log L i s'.
Proof.
  intros [Ha Ht Hr Hn Hl Hp] (El & Ele & Hn' & Hr' & Hl' & Hc'). constructor; rewrite ?El; try done.
  - lia.
  - intros Hlead. destruct (Hl' Hlead) as [Hs ->]. by apply Hl.
  - intros t l HL0. destruct (Hp t l HL0) as [Hle Hc]. split; [lia|]. intros -> Hcand.
    assert (rn_current_term s' = rn_current_term s) as He by lia. apply Hc; [done|]. by apply Hc'.
Qed.

Lemma log_inv_keeps M nodes net net' B B' L i s s' :
  log_inv M nodes net B L -> (forall v t x, B v t x -> B' v t x) -> nodes !! i = Some s ->
  node_log L i s' -> (forall p, p ∈ net' -> p ∈ net \/ backed L (pk_msg p)) ->
  log_inv M (<[i := s']> nodes) net' B' L.
Proof.
  intros [Hn Hm Hh] HB Hi Hs' Hnet. constructor.
  - intros j sj [[<- <-]|[_ Hj]]%lookup_insert_Some; [done|by apply Hn].
  - intros p Hp. destruct (Hnet p Hp); [by apply Hm|done].
  - intros t c l HL0. destruct (Hh t c l HL0) as (H1 & H2 & W & H3 & H4 & H5). split; [done|]. split; [done|].
    exists W. auto.
Qed.

(** The history gets a new log for term [t]. *)
Definition record (L : history) (t : Z) (c : NodeId) l : history :=
  fun t' => if decide (t' = t) then Some (c, l) else L t'.

Lemma record_eq L t c l : record L t c l t = Some (c, l).
Proof. unfold record. by rewrite decide_True. Qed.

Lemma record_extends L t c l :
  L t = None \/ (exists l0 k, L t = Some (c, l0) /\ l = l0 ++ k) -> extends L (record L t c l).
Proof.
  intros H t' c' l' Hl. unfold record. destruct (decide (t' = t)) as [->|]; [|exists []; by rewrite app_nil_r].
  destruct H as [H|(l0 & k & H & ->)]; [congruence|]. assert (c' = c /\ l' = l0) as [-> ->] by (split; congruence).
  by exists k.
Qed.

Lemma log_inv_record M nodes net net' B B' L i s s' t l :
  log_inv M nodes net B L -> (forall v t x, B v t x -> B' v t x) -> nodes !! i = Some s ->
  extends L (record L t i l) -> 1 <= t -> agrees (record L t i l) l -> elected M B' t i ->
  node_log (record L t i l) i s' ->
  (forall p, p ∈ net' -> p ∈ net \/ backed (record L t i l) (pk_msg p)) ->
  log_inv M (<[i := s']> nodes) net' B' (record L t i l).
Proof.
  intros [Hn Hm Hh] HB Hi Hext Ht Hl Hel Hs' Hnet. constructor.
  - intros j sj [[<- <-]|[Hne Hj]]%lookup_insert_Some; [done|].
    destruct (Hn j sj Hj) as [Ha Ht' Hr Hnx Hld Hp]. constructor; try done.
    + by eapply agrees_extends.
    + intros Hlead. destruct (Hext _ _ _ (Hld Hlead)) as [k Hk].
      unfold record in *. destruct (decide (rn_current_term sj = t)); [congruence|by apply Hld].
    + intros t' l' H. apply (Hp t' l'). unfold record in H. destruct (decide (t' = t)); [congruence|done].
  - intros p Hp. destruct (Hnet p Hp); [|done]. eapply backed_extends; [done|by apply Hm].
  - intros t' c l' H. unfold record in H. destruct (decide (t' = t)) as [->|]; [by injection H as <- <-|].
    destruct (Hh t' c l' H) as (H1 & H2 & W & H3 & H4 & H5). split; [done|]. split; [by eapply agrees_extends|].
    exists W. auto.
Qed.

(** How the history changes as node [i] steps from [s] to [s']: a new leader's log and a
    leader's proposal are recorded, and otherwise a leader keeps its log. *)
Definition hist_next (L : history) (i : NodeId) s s' (L' : history) : Prop :=
  (L' = L /\ (rn_role s' = Leader ->
     rn_role s = Leader /\ rn_current_term s' = rn_current_term s /\ rn_log s' = rn_log s)) \/
  (rn_role s' = Leader /\ L' = record L (rn_current_term s') i (entries_of (rn_log s')) /\
   ((L (rn_current_term s') = None /\ rn_log s' = rn_log s) \/
    exists e, rn_role s = Leader /\ rn_current_term s' = rn_current_term s /\
      le_term e = rn_current_term s /\ entries_of (rn_log s') = entries_of (rn_log s) ++ [e])).

(** A candidate becomes the leader: the history has nothing for its term yet. *)
Lemma log_inv_leader M nodes net net' B B' V L i s s' :
  log_inv M nodes net B L -> (forall v t x, B v t x -> B' v t x) -> nodes !! i = Some s ->
  vote_inv M (<[i := s']> nodes) net' B' V -> rn_role s' = Leader -> rn_log s' = rn_log s ->
  1 <= rn_current_term s' -> Forall (Z.le 0) (rn_next_index s') ->
  rn_current_term s < rn_current_term s' \/ (rn_current_term s = rn_current_term s' /\ rn_role s = Candidate) ->
  (forall p, p ∈ net' -> p ∈ net \/ backed L (pk_msg p)) ->
  exists L', hist_next L i s s' L' /\ log_inv M (<[i := s']> nodes) net' B' L'.
Proof.
  intros Hinv HB Hi Hv Hlead Hlog Ht Hnext Hnew Hnet.
  pose proof Hinv as [Hn _ Hh]. destruct (Hn i s Hi) as [Ha _ _ _ _ Hp].
  destruct (leader_majority _ _ _ _ _ _ _ Hv (lookup_insert_eq _ _ _) Hlead) as (HV1 & HV2 & HV3).
  assert (elected M B' (rn_current_term s') i) as Hel by (exists (V i); auto).
  assert (L (rn_current_term s') = None) as Hnone.
  { destruct (L (rn_current_term s')) as [[c l]|] eqn:E; [exfalso|done].
    destruct (Hh _ _ _ E) as (_ & _ & W & HW1 & HW2 & HW3).
    assert (c = i) as ->.
    { eapply elected_unique; [exact (vi_fun _ _ _ _ _ Hv)| |exact Hel]. exists W. auto. }
    destruct (Hp _ _ E) as [Hle Hc]. destruct Hnew as [|[Heq Hcand]]; [lia|]. by apply Hc. }
  set (l := entries_of (rn_log s)).
  assert (extends L (record L (rn_current_term s') i l)) as Hext by (apply record_extends; by left).
  exists (record L (rn_current_term s') i l). split.
  { right. unfold l. rewrite <- Hlog. by auto. }
  eapply (log_inv_record M nodes net net' B B' L i s s'); try done.
  - by eapply agrees_extends.
  - constructor; rewrite ?Hlog; try done.
    + by eapply agrees_extends.
    + lia.
    + intros _. apply record_eq.
    + intros t' l'. unfold record. destruct (decide (t' = rn_current_term s')) as [->|]; [intros _; split; [lia|by rewrite Hlead]|].
      intros H. destruct (Hp t' l' H). split; [destruct Hnew; lia|done].
  - intros p Hp'. destruct (Hnet p Hp'); [by left|right]. by eapply backed_extends.
Qed.

(** ** What the handlers do to the log and the progress arrays *)

Lemma leader_next_nonneg s s' :
  become_leader s = Some s' -> Forall (Z.le 0) (rn_next_index s) -> Forall (Z.le 0) (rn_next_index s').
Proof.
  unfold become_leader. intros (next & [_ ->]%add_u64_Some & [= <-])%bind_Some.
  change (rn_next_index s) with (rn_next_index (set_role s Leader)). cbn [rn_log set_role].
  assert (0 <= last_index (rn_log s) + 1) as H0 by (unfold last_index; lia).
  generalize (seq 0 (n_peers (set_role s Leader))). generalize (set_role s Leader). intros s1 ks. revert s1.
  induction ks as [|k ks IH]; intros s1 Hn; cbn [foldl]; [done|]. apply IH.
  cbn [rn_next_index set_progress]. by apply Forall_insert.
Qed.

Lemma start_election_next s (t t' : Outbox) s' :
  start_election s t = Some (s', t') -> Forall (Z.le 0) (rn_next_index s) -> Forall (Z.le 0) (rn_next_index s').
Proof.
  unfold start_election. intros (term & _ & H)%bind_Some. case_decide.
  - apply bind_Some in H as (s1 & Hb & [= <- _]). intros Hn. by apply (leader_next_nonneg _ _ Hb).
  - by injection H as <- _.
Qed.

Lemma on_vote_reply_log s t g s' :
  on_vote_reply s t g = Some s' ->
  rn_log s' = rn_log s /\ (Forall (Z.le 0) (rn_next_index s) -> Forall (Z.le 0) (rn_next_index s')).
Proof.
  unfold on_vote_reply. destruct (_ <? _); [by intros [= <-]|]. destruct (_ || _); [by intros [= <-]|].
  intros (s1 & Hs1 & H2)%bind_Some.
  assert (rn_log s1 = rn_log s /\ rn_next_index s1 = rn_next_index s) as [<- <-].
  { destruct g; [apply bind_Some in Hs1 as (v & _ & Hs1)|]; by injection Hs1 as <-. }
  destruct (_ <=? _); [|by injection H2 as <-]. split; [by apply become_leader_fields in H2 as (_ & _ & _ & -> & _)|].
  by apply leader_next_nonneg.
Qed.

Lemma on_append_entries_roles s from term pi pt es lc s' (out : Outbox) :
  on_append_entries s from term pi pt es lc [] = Some (s', out) ->
  (s' = s /\ term < rn_current_term s) \/ (rn_role s' = Follower /\ rn_current_term s' = term).
Proof.
  unfold on_append_entries. destruct (Z.ltb_spec term (rn_current_term s)); [intros [= <- _]; by left|].
  set (s1 := if _ <? term then _ else _). assert (rn_role s1 = Follower /\ rn_current_term s1 = term) as H1.
  { unfold s1. destruct (Z.ltb_spec (rn_current_term s) term); cbn; (split; [done|lia]). }
  clearbody s1. destruct (negb _); [intros [= <- _]; by right|]. intros ([s2 m] & Ha & [= <- _])%bind_Some.
  apply append_log_entries_fields in Ha as (-> & _). right. by destruct (_ <? lc).
Qed.

Lemma on_ae_reply_log s from term ok m s' r :
  on_ae_reply s from term ok m = Some (s', r) -> 0 <= m ->
  rn_log s' = rn_log s /\ (Forall (Z.le 0) (rn_next_index s) -> Forall (Z.le 0) (rn_next_index s')).
Proof.
  intros H Hm. revert H. unfold on_ae_reply. destruct (_ <? _); [by intros [= <- _]|].
  destruct (_ || _); [by intros [= <- _]|]. destruct (peer_index s from) as [k|]; [|by intros [= <- _]].
  intros (s1 & Hs1 & H2)%bind_Some.
  assert (rn_log s1 = rn_log s /\ (Forall (Z.le 0) (rn_next_index s) -> Forall (Z.le 0) (rn_next_index s1))) as [<- Hn].
  { destruct ok.
    - apply bind_Some in Hs1 as (v & [_ ->]%add_u64_Some & [= <-]). split; [done|]. cbn. intros Hn.
      apply Forall_insert; [done|lia].
    - injection Hs1 as <-. destruct (Z.ltb_spec 1 (default 0 (rn_next_index s !! k))); [|done]. split; [done|].
      cbn. intros Hn. apply Forall_insert; [done|lia]. }
  destruct ok; [|by injection H2 as <- _].
  destruct (advance_commit_index s1) as [[s2 b]|] eqn:Ha; [|done]. injection H2 as <- _.
  by apply advance_commit_fields in Ha as (n & -> & _).
Qed.

Lemma quiet_keeps L i s s' :
  node_log L i s -> quiet s s' -> rn_log s' = rn_log s -> Forall (Z.le 0) (rn_next_index s') -> keeps s s'.
Proof.
  intros [Ha Ht Hr Hn Hl Hp] (_ & _ & Hq) El En.
  destruct Hq as [[Hlt Hf]|(Het & _ & _ & [Her|Hf])]; split_and!; try done; rewrite ?Het, ?Her, ?Hf; try done; lia.
Qed.

Lemma node_log_quiet L i s s' :
  node_log L i s -> quiet s s' -> rn_log s' = rn_log s -> Forall (Z.le 0) (rn_next_index s') -> node_log L i s'.
Proof. intros Hs Hq El En. eapply node_log_keeps; [done|]. by eapply quiet_keeps. Qed.

(** A follower's log is replaced, and its commit index and vote may change. *)
Lemma node_log_set_log L i s lg :
  node_log L i s -> rn_role s = Follower -> agrees L (entries_of lg) -> node_log L i (set_log s lg).
Proof. intros [Ha Ht Hr Hn Hl Hp] Hf Hag. constructor; cbn; try done. by rewrite Hf. Qed.

Lemma node_log_set_commit L i s n : node_log L i s -> node_log L i (set_commit s n).
Proof. by intros []. Qed.

Lemma node_log_set_voted L i s v : node_log L i s -> node_log L i (set_voted s v).
Proof. by intros []. Qed.

(** ** [AppendEntries] at a follower *)

Lemma prev_matches L l (lg : RaftLog) pi pt :
  (forall t c l, L t = Some (c, l) -> 1 <= t) -> agrees L l -> agrees L (entries_of lg) -> 0 <= pi ->
  (pi = 0 \/ pt = 0 \/ exists e, l !! Z.to_nat (pi - 1) = Some e /\ le_term e = pt) ->
  (pi =? 0) || bool_decide (term_at lg pi = Some pt) = true ->
  take (Z.to_nat pi) (entries_of lg) = take (Z.to_nat pi) l /\ (Z.to_nat pi <= length (entries_of lg))%nat.
Proof using HL.
  intros Hpos Hl Hlg Hpi Hprev Hok. destruct (Z.eqb_spec pi 0) as [->|Hne]; [cbn; split; [done|lia]|].
  apply bool_decide_eq_true in Hok. replace pi with (Z.of_nat (Z.to_nat (pi - 1)) + 1) in Hok by lia.
  rewrite term_at_nat in Hok. apply fmap_Some in Hok as (x & Hx & ->).
  destruct (Hlg _ _ Hx) as (c & l' & Hc & _). specialize (Hpos _ _ _ Hc).
  destruct Hprev as [|[|(e & He & Hte)]]; [lia..|].
  replace (Z.to_nat pi) with (S (Z.to_nat (pi - 1))) by lia. split; [by eapply agrees_match|].
  apply lookup_lt_Some in Hx. lia.
Qed.

Lemma on_append_entries_log L i s from term pi pt es lc s' (out : Outbox) :
  (forall t c l, L t = Some (c, l) -> 1 <= t /\ agrees L l) -> node_log L i s ->
  backed L (AppendEntries term from pi pt es lc) ->
  on_append_entries s from term pi pt es lc [] = Some (s', out) ->
  node_log L i s' /\ forall x, x ∈ out -> backed L x.2.
Proof using HL.
  intros Hh Hs (Hpi & c & l & HLt & Hprev & Hes). unfold on_append_entries. destruct (_ <? _).
  { intros [= <- <-]. split; [done|]. intros x ->%list_elem_of_singleton. cbn. lia. }
  set (s1 := if _ <? term then _ else _).
  assert (node_log L i s1 /\ rn_role s1 = Follower) as [H1 Hf].
  { unfold s1. pose proof (nl_next _ _ _ Hs). destruct (Z.ltb_spec (rn_current_term s) term);
      (split; [|done]); eapply node_log_quiet; try done; [by apply step_down_quiet|]. unfold quiet. cbn. auto 10. }
  clearbody s1. destruct (negb _) eqn:Hok.
  { intros [= <- <-]. split; [done|]. intros x ->%list_elem_of_singleton. cbn. lia. }
  apply negb_false_iff in Hok. intros ([s2 m] & Ha & H2)%bind_Some. injection H2 as <- <-.
  apply append_log_entries_fields in Ha as (Es2 & Hloop & ->). destruct (Hh _ _ _ HLt) as [_ Hl].
  assert (node_log L i s2) as H3.
  { rewrite Es2. apply node_log_set_log; [done|done|].
    replace (pi + 1) with (Z.of_nat (Z.to_nat pi) + 1) in Hloop by lia.
    eapply (append_loop_agrees L l); [done|apply (nl_agrees _ _ _ H1)| |exact Hes|exact Hloop].
    left. eapply prev_matches; [intros t c' l' H; apply (Hh _ _ _ H)|done|apply (nl_agrees _ _ _ H1)|done|done|done]. }
  split; [by destruct (_ <? lc); [apply node_log_set_commit|]|].
  intros x ->%list_elem_of_singleton. cbn. lia.
Qed.

(** ** A proposal *)

Lemma agrees_snoc L t c l e : agrees (record L t c (l ++ [e])) l -> le_term e = t ->
  agrees (record L t c (l ++ [e])) (l ++ [e]).
Proof.
  intros Ha Ht i x Hx. apply lookup_snoc_Some in Hx as [[Hlt Hx]|[-> <-]].
  - destruct (Ha i x Hx) as (c' & l' & H1 & H2). exists c', l'. split; [done|]. by rewrite take_app_le by lia.
  - exists c, (l ++ [e]). rewrite Ht. split; [apply record_eq|done].
Qed.

Lemma log_inv_propose M nodes net B B' L i s src dst s' (out : Outbox) r :
  log_inv M nodes net B L -> (forall v t x, B v t x -> B' v t x) -> nodes !! i = Some s ->
  propose s src dst [] = Some (s', out, r) ->
  exists L', hist_next L i s s' L' /\ log_inv M (<[i := s']> nodes) (net ++ sent i out) B' L'.
Proof using HL.
  intros Hinv HB Hi Hp. pose proof Hinv as [Hn _ Hh]. pose proof (Hn i s Hi) as Hs.
  assert (forall L net', forall p, p ∈ net' ++ sent i [] -> p ∈ net' \/ backed L (pk_msg p)) as Hnone.
  { intros L0 net' p Hp'. left. cbn in Hp'. by rewrite app_nil_r in Hp'. }
  unfold propose in Hp. destruct (is_leader s) eqn:Hl; cbn [negb] in Hp.
  2: { injection Hp as <- <- _. exists L. split; [by left|]. eapply log_inv_keeps; [exact Hinv|exact HB|exact Hi|exact Hs|apply Hnone]. }
  apply bool_decide_eq_true in Hl. set (e := {| le_term := _ |}) in Hp.
  destruct (log_append (rn_log s) e) as [lg ok] eqn:Happ. destruct ok; cbn [negb] in Hp.
  2: { injection Hp as <- <- _. exists L. split; [by left|]. eapply log_inv_keeps; [exact Hinv|exact HB|exact Hi|exact Hs|apply Hnone]. }
  apply log_append_ok in Happ as [Hlg _].
  set (t := rn_current_term s) in *. set (L' := record L t i (entries_of (rn_log s) ++ [e])).
  pose proof (nl_lead _ _ _ Hs Hl) as HLt. fold t in HLt. destruct (Hh _ _ _ HLt) as (Ht & _ & W & HW1 & HW2 & HW3).
  assert (extends L L') as Hext by (apply record_extends; right; eauto).
  assert (agrees L' (entries_of (rn_log s) ++ [e])) as Hag.
  { apply agrees_snoc; [|done]. eapply agrees_extends; [exact Hext|apply (nl_agrees _ _ _ Hs)]. }
  assert (node_log L' i (set_log s lg)) as Hs1.
  { destruct Hs as [Ha Ht' Hr Hnx Hld Hps]. constructor; cbn [rn_log set_log rn_current_term rn_role rn_next_index];
      rewrite ?Hlg; try done.
    - intros _. apply record_eq.
    - intros t' l'. unfold L', record. destruct (decide (t' = t)) as [Hd|]; [|apply Hps]. intros _.
      split; [by rewrite Hd|by rewrite Hl]. }
  assert (forall x, x ∈ out -> backed L' x.2) as Hout.
  { case_decide; [injection Hp as _ <- _; by intros x Hx%not_elem_of_nil|].
    apply bind_Some in Hp as (t1 & Hb & [= _ <- _]). intros x Hx. unfold broadcast_ae in Hb.
    eapply broadcast_backed in Hb as [Hx'%not_elem_of_nil|Hb']; [done|exact Hb'| | |exact Hx].
    - cbn [rn_log set_log rn_current_term]. rewrite Hlg. apply record_eq.
    - apply (nl_next _ _ _ Hs1). }
  assert (node_log L' i s') as Hs'.
  { case_decide; [injection Hp as <- _ _; by apply node_log_set_commit|]. by apply bind_Some in Hp as (t1 & _ & [= <- _ _]). }
  exists L'. split.
  { right. assert (rn_role s' = Leader /\ rn_current_term s' = t /\ rn_log s' = lg) as (-> & -> & ->).
    { case_decide; [by injection Hp as <- _ _|]. by apply bind_Some in Hp as (t1 & _ & [= <- _ _]). }
    rewrite Hlg. split; [done|]. split; [done|]. right. by exists e. }
  eapply log_inv_record; try done; [exists W; auto|].
  intros p [Hp'|Hp']%elem_of_app; [by left|right]. apply list_elem_of_fmap in Hp' as ([q m] & -> & Hx). exact (Hout _ Hx).
Qed.

(** ** Every step *)

Lemma log_inv_elect M nodes net B B' V' L i s s' (out : Outbox) :
  log_inv M nodes net B L -> (forall v t x, B v t x -> B' v t x) -> nodes !! i = Some s -> rn_id s = i ->
  start_election s [] = Some (s', out) -> vote_inv M (<[i := s']> nodes) (net ++ sent i out) B' V' ->
  exists L', hist_next L i s s' L' /\ log_inv M (<[i := s']> nodes) (net ++ sent i out) B' L'.
Proof.
  intros Hinv HB Hi Hid Hel Hv. pose proof (lg_node _ _ _ _ _ Hinv i s Hi) as Hs.
  pose proof (start_election_fields _ _ _ _ Hel) as (Et & _ & El & _ & _ & _ & _).
  pose proof (start_election_next _ _ _ _ Hel (nl_next _ _ _ Hs)) as Hnx.
  apply start_election_sends in Hel as [_ Hsent]. rewrite Hid in Hsent. pose proof (nl_term _ _ _ Hs) as Ht.
  assert (forall p, p ∈ net ++ sent i out -> p ∈ net \/ backed L (pk_msg p)) as Hnet.
  { intros p [Hp|Hp]%elem_of_app; [by left|right]. rewrite Hsent in Hp.
    by apply list_elem_of_fmap in Hp as (y & -> & _). }
  destruct (decide (rn_role s' = Leader)) as [Hl|Hl].
  - eapply log_inv_leader; try done; [lia|left; lia].
  - exists L. split; [by left|]. eapply log_inv_keeps; try done. eapply node_log_keeps; [done|]. split_and!; try done; lia.
Qed.

(** A quiet step that keeps the log records nothing. *)
Lemma quiet_next L i s s' : quiet s s' -> rn_log s' = rn_log s -> hist_next L i s s' L.
Proof.
  intros (_ & _ & Hq) El. left. split; [done|]. intros Hl.
  destruct Hq as [[_ Hf]|(Et & _ & _ & [Er|Hf])]; [congruence| |congruence]. split; [congruence|done].
Qed.

Lemma log_inv_step_msg M nodes net net' B B' V' L i s from msg s' (out : Outbox) r :
  log_inv M nodes net B L -> (forall v t x, B v t x -> B' v t x) -> nodes !! i = Some s ->
  (forall p, p ∈ net' -> p ∈ net \/ p ∈ sent i out) -> backed L msg ->
  step s from msg [] = Some (s', out, r) -> vote_inv M (<[i := s']> nodes) net' B' V' ->
  exists L', hist_next L i s s' L' /\ log_inv M (<[i := s']> nodes) net' B' L'.
Proof using HL.
  intros Hinv HB Hi Hin Hmsg Hstep Hv. pose proof (lg_node _ _ _ _ _ Hinv i s Hi) as Hs.
  pose proof (nl_next _ _ _ Hs) as Hnx.
  assert ((forall x, x ∈ out -> backed L x.2) -> forall p, p ∈ net' -> p ∈ net \/ backed L (pk_msg p)) as Hnet.
  { intros Hout p [Hp|Hp]%Hin; [by left|right]. apply list_elem_of_fmap in Hp as ([q m] & -> & Hx). exact (Hout _ Hx). }
  assert (node_log L i s' -> (forall x, x ∈ out -> backed L x.2) ->
    hist_next L i s s' L -> exists L', hist_next L i s s' L' /\ log_inv M (<[i := s']> nodes) net' B' L') as Hdone.
  { intros Hs' Hout Hn. exists L. split; [done|]. eapply log_inv_keeps; try done. by apply Hnet. }
  assert (forall x : NodeId * RaftMessage, x ∈ [] -> backed L x.2) as Hnil by by intros x Hx%not_elem_of_nil.
  destruct msg as [t c j lt|t g|t lid pi pt es lc|t ok m]; unfold step in Hstep.
  - unfold on_request_vote in Hstep. set (s1 := if rn_current_term s <? t then _ else _) in Hstep.
    assert (quiet s s1 /\ rn_log s1 = rn_log s) as [Hq El].
    { unfold s1. destruct (Z.ltb_spec (rn_current_term s) t); [by split; [apply step_down_quiet|]|].
      by split; [apply quiet_refl|]. }
    assert (node_log L i s1) as H1.
    { eapply node_log_quiet; try done. unfold s1. by destruct (_ <? _). }
    assert (hist_next L i s s1 L) as Hn by by apply quiet_next.
    clearbody s1. match type of Hstep with context [if ?b then set_voted _ _ else _] => destruct b end;
      injection Hstep as <- <- _;
      (apply Hdone; [by try apply node_log_set_voted|by intros x ->%list_elem_of_singleton|exact Hn]).
  - apply bind_Some in Hstep as (s2 & Hvr & [= <- <- _]). pose proof (on_vote_reply_log _ _ _ _ Hvr) as [El Hn2].
    apply on_vote_reply_cases in Hvr as [Hq|(Hcand & -> & Hcnt)].
    { apply Hdone; [eapply node_log_quiet; eauto|done|by apply quiet_next]. }
    destruct Hcnt as (_ & _ & Et & _ & _ & Hrole). pose proof (nl_role _ _ _ Hs ltac:(congruence)) as H1.
    destruct Hrole as [Hc|[Hl _]].
    + apply Hdone; [|done|left; split; [done|congruence]].
      eapply node_log_keeps; [done|]. split_and!; try done; [lia|auto|lia|congruence].
    + eapply (log_inv_leader M nodes net net' B B' V' L i s s2); try done; [lia|auto|right; by split|]. by apply Hnet.
  - apply bind_Some in Hstep as ([s2 t2] & Hae & [= <- <- _]). pose proof (on_append_entries_roles _ _ _ _ _ _ _ _ _ Hae) as Hf.
    eapply on_append_entries_log in Hae as [Hs2 Hout]; [| |exact Hs|exact Hmsg].
    { apply Hdone; [done|done|]. left. split; [done|]. by destruct Hf as [[-> _]|[-> _]]. }
    intros t' c' l' H. destruct (lg_hist _ _ _ _ _ Hinv _ _ _ H) as (? & ? & _). done.
  - apply bind_Some in Hstep as ([s2 r2] & Hae & [= <- <- _]). pose proof (on_ae_reply_log _ _ _ _ _ _ _ Hae Hmsg) as [El Hn2].
    apply on_ae_reply_quiet in Hae. apply Hdone; [eapply node_log_quiet; eauto|done|by apply quiet_next].
Qed.

(** Both invariants, with one record of the votes. *)
Definition log_safe (M : gset NodeId) (c : cluster) : Prop :=
  exists B V L, vote_inv M (cl_nodes c) (cl_net c) B V /\ log_inv M (cl_nodes c) (cl_net c) B L.

Lemma log_inv_fewer M nodes net net' B L :
  log_inv M nodes net B L -> (forall p, p ∈ net' -> p ∈ net) -> log_inv M nodes net' B L.
Proof. intros [Hn Hm Hh] Hin. constructor; auto. Qed.

Lemma log_inv_delete M nodes net B L i : log_inv M nodes net B L -> log_inv M (delete i nodes) net B L.
Proof. intros [Hn Hm Hh]. constructor; try done. intros j s [_ Hj]%lookup_delete_Some. by apply Hn. Qed.

Lemma log_inv_votes M nodes net B B' L :
  log_inv M nodes net B L -> (forall v t x, B v t x -> B' v t x) -> log_inv M nodes net B' L.
Proof.
  intros [Hn Hm Hh] HB. constructor; try done. intros t c l HL0.
  destruct (Hh t c l HL0) as (H1 & H2 & W & H3 & H4 & H5). split; [done|]. split; [done|]. exists W. auto.
Qed.

Lemma log_safe_step M c c' : log_safe M c -> cluster_step c c' -> log_safe M c'.
Proof using HL.
  intros (B & V & L & Hv & Hl) Hstep. destruct (vote_step M c c' B V Hv Hstep) as (B' & V' & HB & _ & Hv').
  exists B', V'. cut (exists L', log_inv M (cl_nodes c') (cl_net c') B' L'); [intros [L' ?]; by exists L'|].
  destruct Hstep as [i s o s' out nodes net Hi Ho Ha|p s s' out nodes net1 net2 Hp Ha|p nodes net1 net2|i nodes net];
    cbn [cl_nodes cl_net] in *.
  - destruct o as [|src dst|]; [| |done]; cbn [raft_apply] in Ha.
    + eapply log_inv_elect in Ha as (L' & _ & ?); [by exists L'|done..| |done]. by apply (vi_node _ _ _ _ _ Hv).
    + apply bind_Some in Ha as ([[s1 t1] r] & Hpr & [= <- <-]).
      eapply log_inv_propose in Hpr as (L' & _ & ?); [by exists L'|done..].
  - cbn [raft_apply] in Ha. apply bind_Some in Ha as ([[s1 t1] r] & Hst & [= <- <-]).
    eapply log_inv_step_msg in Hst as (L' & _ & ?); [by exists L'|done..|set_solver| |done].
    apply (lg_msg _ _ _ _ _ Hl). set_solver.
  - exists L. eapply log_inv_votes; [|exact HB]. eapply log_inv_fewer; [exact Hl|set_solver].
  - exists L. eapply log_inv_votes; [|exact HB]. by apply log_inv_delete.
Qed.

Lemma log_inv_init M c B :
  cluster_init M c -> log_inv M (cl_nodes c) (cl_net c) B (fun _ => None).
Proof using HL.
  intros [Hnet Hn]. constructor; [|rewrite Hnet; by intros p Hp%not_elem_of_nil|done].
  intros i s Hi. destruct (Hn i s Hi) as (_ & ps & -> & _).
  constructor; cbn [node_new rn_log rn_current_term rn_role rn_next_index]; try done.
  - intros j e. unfold entries_of. cbn. by rewrite hv_slice_new.
  - by apply Forall_replicate.
Qed.

Lemma log_safe_init M c : cluster_init M c -> log_safe M c.
Proof using HL.
  intros Hinit. eexists _, _, _. split; [by apply vote_inv_init|by apply log_inv_init].
Qed.

Lemma reachable_log_safe M c : cluster_reachable M c -> log_safe M c.
Proof using HL.
  intros (c0 & Hi & Hr). apply log_safe_init in Hi.
  induction Hr as [|c1 c2 c3 Hs _ IH]; [done|]. apply IH. by eapply log_safe_step.
Qed.

(** C12: Log matching.  In every reachable state of a cluster, if the logs of two nodes hold
    entries of the same term at the same index, then the two logs are identical up to and
    including that index. *)
Theorem log_matching M c a b sa sb i ea eb :
  cluster_reachable M c -> cl_nodes c !! a = Some sa -> cl_nodes c !! b = Some sb ->
  entries_of (rn_log sa) !! i = Some ea -> entries_of (rn_log sb) !! i = Some eb -> le_term ea = le_term eb ->
  take (S i) (entries_of (rn_log sa)) = take (S i) (entries_of (rn_log sb)).
Proof using HL.
  intros (B & V & L & _ & Hl)%reachable_log_safe Ha Hb Hia Hib Ht.
  eapply agrees_match; [apply (nl_agrees L a), (lg_node _ _ _ _ _ Hl a sa Ha)|
    apply (nl_agrees L b), (lg_node _ _ _ _ _ Hl b sb Hb)|done|done|done].
Qed.

End matching.

(** ** Witness *)

Module Witness.
#[local] Existing Instance ListModel.list_hvec.
#[local] Existing Instance ListModel.list_hvec_laws.

(** Node 1 is elected with the vote of node 2, proposes two traversals, and node 2 receives
    the second message, which carries both entries. *)
Definition replication : list action :=
  [Local 1 OpElect; Deliver 0; Deliver 1; Local 1 (OpPropose 1 2); Local 1 (OpPropose 2 3); Deliver 3].

Lemma log_matching_witness : exists c s1 s2 e,
  cluster_reachable {[1; 2; 3]} c /\ cl_nodes c !! 1 = Some s1 /\ cl_nodes c !! 2 = Some s2 /\
  entries_of (rn_log s2) !! 1%nat = Some e /\
  take 2 (entries_of (rn_log s1)) = take 2 (entries_of (rn_log s2)).
Proof.
  destruct (schedule Cluster.Witness.three replication) as [c|] eqn:Hs; [|vm_compute in Hs; discriminate].
  assert (cluster_reachable {[1; 2; 3]} c) as Hr.
  { eapply (schedule_reachable replication); [reflexivity| |exact Hs].
    exists Cluster.Witness.three. split; [exact Cluster.Witness.three_init|constructor]. }
  vm_compute in Hs. injection Hs as Hc. 
  eexists c, _, _, _. split; [exact Hr|]. rewrite <- Hc. split; [vm_compute; reflexivity|]. split; [vm_compute; reflexivity|].
  split; [vm_compute; reflexivity|]. rewrite <- Hc in Hr.
  eapply (log_matching _ _ 1 2 _ _ 1 _ _ Hr); vm_compute; reflexivity.
Defined.

End Witness.
