(* ===== verification/Divergence.v ===== *)
(** * Two nodes commit different entries

    Log matching ([LogMatching.v]) and election safety ([Cluster.v]) hold, but the property
    they serve does not: [on_append_entries] of [src/consensus/raft.rs] lets a follower
    commit up to the end of its own log instead of the last entry the leader has matched
    ([RaftSafety.commit_beyond_match]).  Since one message carries at most sixteen entries,
    the leader's commit index can lie beyond them, and the follower then commits a stale
    tail.

    [state_machine_safety_fails] runs such an execution of five nodes, with packets
    delivered in order on each link, none duplicated, four lost, and no crash. *)
From S2P Require Import Prelude Heapless Types Raft Cluster.
From stdpp Require Import base tactics list numbers option strings gmap sets relations.
Open Scope Z_scope.

(** ** Scripts *)

Section scripts.
Context `{HV : HVec}.

(** [Pass a b] delivers the oldest packet from [a] to [b]; [Drop a b] loses it. *)
Inductive cmd :=
| Elect (i : NodeId)
| Propose (i src dst : NodeId)
| Pass (a b : NodeId)
| Drop (a b : NodeId).

Definition oldest (a b : NodeId) (c : cluster) : option nat :=
  fst <$> list_find (fun p => pk_src p = a /\ pk_dst p = b) (cl_net c).

Definition action_of (c : cluster) (x : cmd) : option action :=
  match x with
  | Elect i => Some (Local i OpElect)
  | Propose i src dst => Some (Local i (OpPropose src dst))
  | Pass a b => Deliver <$> oldest a b c
  | Drop a b => Lose <$> oldest a b c
  end.

Definition exec (c : cluster) (xs : list cmd) : option cluster :=
  foldl (fun oc x => c ← oc; a ← action_of c x; act c a) (Some c) xs.

Lemma exec_None xs : foldl (fun oc x => c ← oc; a ← action_of c x; act c a) None xs = None.
Proof. induction xs as [|x xs IH]; [done|]. exact IH. Qed.

Lemma exec_rtc xs : forall c c', exec c xs = Some c' -> rtc cluster_step c c'.
Proof.
  unfold exec. induction xs as [|x xs IH]; intros c c'; cbn [foldl]; [by intros [= <-]|].
  cbn [mbind option_bind]. destruct (action_of c x) as [a|] eqn:Ha; cbn [mbind option_bind]; [|by rewrite exec_None].
  destruct (act c a) as [c1|] eqn:Hc; [|by rewrite exec_None]. intros H. eapply rtc_l; [|by apply IH].
  eapply act_step; [exact Hc|].
  destruct x; cbn in Ha; [by injection Ha as <-..| |]; by apply fmap_Some in Ha as (k & _ & ->).
Qed.

Lemma exec_reachable xs M c c' : cluster_reachable M c -> exec c xs = Some c' -> cluster_reachable M c'.
Proof. intros (c0 & Hi & Hr) He. exists c0. split; [done|]. etrans; [exact Hr|by eapply exec_rtc]. Qed.

(** Node [i] has committed entry [e] at the zero-based index [k]. *)
Definition committed (c : cluster) (i : NodeId) (k : nat) : option LogEntry :=
  s ← cl_nodes c !! i;
  if Z.of_nat k <? rn_commit_index s then entries_of (rn_log s) !! k else None.

End scripts.

(** ** The execution *)

Section run.
#[local] Existing Instance ListModel.list_hvec.
#[local] Existing Instance ListModel.list_hvec_laws.

Definition times (n : nat) (xs : list cmd) : list cmd := mjoin (replicate n xs).

(** A leader is elected by two of its peers. *)
Definition elect_by (i a b : NodeId) : list cmd := [Elect i; Pass i a; Pass i b; Pass a i; Pass b i].

(** Node 1 leads term 1 and replicates sixteen entries to nodes 2 to 5, then two more to
    node 2 only. *)
Definition term1 : list cmd :=
  elect_by 1 2 3 ++ [Pass 1 4; Pass 1 5] ++
  times 16 [Propose 1 1 2; Pass 1 2; Pass 1 3; Pass 1 4; Pass 1 5] ++ times 16 [Pass 2 1] ++
  times 2 [Propose 1 1 2; Pass 1 2].

(** Node 3 leads term 2 and commits two entries with nodes 4 and 5. *)
Definition term2 : list cmd :=
  elect_by 3 4 5 ++ times 2 [Propose 3 2 3; Pass 3 4; Pass 3 5; Pass 4 3; Pass 5 3].

(** Node 3 leads term 3 and proposes eighteen times before it hears from node 2, which
    refuses each message; it then starts over with node 2 from index 1. *)
Definition term3 : list cmd :=
  elect_by 3 4 5 ++ times 4 [Drop 3 2] ++ times 18 [Propose 3 2 3] ++ times 18 [Pass 3 2] ++ times 18 [Pass 2 3] ++
  [Propose 3 2 3; Pass 3 2].

Definition divergence : list cmd := term1 ++ term2 ++ term3.

Lemma five_init : cluster_init {[1; 2; 3; 4; 5]} Cluster.Witness.five.
Proof.
  split; [done|]. intros i s. cbn. rewrite !lookup_insert_Some, lookup_empty.
  intros H. destruct_or! H; destruct_and?; subst; try done;
    repeat match goal with H : _ \/ _ |- _ => destruct H | H : _ /\ _ |- _ => destruct H end; subst; try done;
    (split; [set_solver|]); eexists; (split; [reflexivity|]); cbn;
    (split; [repeat constructor; set_solver|]); (split; [apply Nat.leb_le; reflexivity|set_solver]).
Qed.

(** C30: State machine safety fails.  Five fresh nodes, run by the script [divergence], reach
    a state in which two of them have committed different traversals at the same log index.
    The script delivers packets in order on each link, loses four, and duplicates none. *)
Theorem state_machine_safety_fails :
  exists c a b k ea eb, exec Cluster.Witness.five divergence = Some c /\ cluster_reachable {[1; 2; 3; 4; 5]} c /\
    committed c a k = Some ea /\ committed c b k = Some eb /\ ea <> eb.
Proof.
  destruct (exec Cluster.Witness.five divergence) as [c|] eqn:Hs; [|vm_compute in Hs; discriminate].
  assert (forall i, committed c i 16 =
    (c ← exec Cluster.Witness.five divergence; committed c i 16)) as Hc by by rewrite Hs.
  exists c, 2, 3, 16%nat, (mkEntry 1 1 2), (mkEntry 2 2 3). split; [reflexivity|]. split.
  - eapply exec_reachable; [|exact Hs]. exists Cluster.Witness.five. split; [exact five_init|constructor].
  - rewrite !Hc. split; [vm_compute; reflexivity|]. split; [vm_compute; reflexivity|discriminate].
Qed.

End run.
