(* ===== verification/Completeness.v ===== *)
(** * Leader completeness

    The invariant behind the third safety property of the Raft state machine of
    [src/consensus/raft.rs], on the clusters of [Cluster.v]: an entry of its own term that a
    majority has acknowledged to a leader is in the log of every later leader
    ([chosen_clear]).  [Decisions.v] draws the consequences.

    On top of the votes of [Cluster.v] and the history of [LogMatching.v] the proof keeps
    three more ghosts: the log each candidate campaigned with, the votes cast before a term
    had a leader, and what each node has acknowledged to the leader of each term. *)
From S2P Require Import Prelude Heapless Types Raft Cluster LogMatching.
From stdpp Require Import base tactics list numbers option strings gmap sets relations.
Open Scope Z_scope.

#[local] Arguments quorum : simpl never.

Section completeness.
Context `{HV : HVec} `{HL : !HVecLaws}.
Implicit Types (s : RaftNode) (l : list LogEntry) (L : history).

(** ** What a follower's log becomes *)

Lemma take_prefix_elem {A} n (l l' : list A) j :
  take n l = take n l' -> (j < n)%nat -> l !! j = l' !! j.
Proof. intros H Hj. rewrite <- (lookup_take_lt l n j Hj), <- (lookup_take_lt l' n j Hj). by rewrite H. Qed.

Lemma take_le_eq {A} m n (l l' : list A) : take n l = take n l' -> (m <= n)%nat -> take m l = take m l'.
Proof. intros H Hm. rewrite <- (Nat.min_l m n Hm), <- !take_take. by rewrite H. Qed.

Lemma take_prefix_le {A} m n (l : list A) : (m <= n)%nat -> take m l `prefix_of` take n l.
Proof. intros Hm. exists (drop m (take n l)). rewrite <- (take_drop m (take n l)) at 1. rewrite take_take. by rewrite Nat.min_l. Qed.

(** Two logs that agree up to one of two lengths. *)
Lemma takes_prefix {A} n n' (l0 l l' : list A) :
  take n l0 = take n l -> take n l0 = take n l' \/ take n' l0 = take n' l' ->
  take n l `prefix_of` take n' l' \/ take n' l' `prefix_of` take n l.
Proof.
  intros E E'. destruct (decide (n <= n')%nat) as [Hle|Hgt].
  - left. rewrite <- E. destruct E' as [->|E']; [by apply take_prefix_le|]. rewrite <- E'. by apply take_prefix_le.
  - right. rewrite <- E. destruct E' as [E'|<-].
    + rewrite <- (take_le_eq n' n l0 l' E') by lia. apply take_prefix_le. lia.
    + apply take_prefix_le. lia.
Qed.

(** The log keeps its entries, or becomes the piece of the leader's log that was sent, and
    then it differed from it. *)
Definition taken_over (old : list LogEntry) l (n : nat) (new : list LogEntry) : Prop :=
  take n new = take n l /\ (n <= length l)%nat /\
  (new = old \/ (new = take n l /\ exists j, (j < n)%nat /\ old !! j <> l !! j)).

Lemma taken_over_step old l k n new :
  (S k <= n)%nat -> old !! k <> l !! k ->
  taken_over (take (S k) l) l n new -> taken_over old l n new.
Proof.
  intros Hk Hne (Ht & Hn & H). split; [done|]. split; [done|]. right.
  split; [|exists k; split; [lia|done]]. destruct H as [->|[-> _]]; [|done].
  rewrite take_take in Ht. by rewrite Nat.min_r in Ht by lia.
Qed.

Lemma append_one_new l (lg : RaftLog) k e :
  take k (entries_of lg) = take k l -> (k <= length (entries_of lg))%nat ->
  (length l <= RAFT_LOG_CAP)%nat -> l !! k = Some e ->
  entries_of (append_one lg (Z.of_nat k + 1) e) = entries_of lg /\
    (exists x, entries_of lg !! k = Some x /\ le_term x = le_term e) \/
  entries_of (append_one lg (Z.of_nat k + 1) e) = take (S k) l /\ entries_of lg !! k <> l !! k.
Proof using HL.
  intros Ht Hk Hcap He. pose proof (lookup_lt_Some _ _ _ He) as Hlt.
  rewrite append_one_entries by lia. destruct (entries_of lg !! k) as [x|] eqn:Hx.
  - destruct (Z.eqb_spec (le_term x) (le_term e)) as [Heq|Hne]; [left; eauto|right].
    rewrite Ht, <- (take_S_r l k e He). split; [done|]. rewrite He. congruence.
  - right. apply lookup_ge_None in Hx. rewrite (take_S_r l k e He), <- Ht, take_ge by lia.
    split; [done|]. by rewrite He.
Qed.

Lemma append_loop_new L l es : forall lg lg' k,
  agrees L l -> agrees L (entries_of lg) -> take k (entries_of lg) = take k l ->
  (k <= length (entries_of lg))%nat -> (k <= length l)%nat -> (length l <= RAFT_LOG_CAP)%nat ->
  es `prefix_of` drop k l -> append_loop lg (Z.of_nat k + 1) es = Some lg' ->
  taken_over (entries_of lg) l (k + length es) (entries_of lg').
Proof using HL.
  induction es as [|e es IH]; intros lg lg' k Hl Hlg Ht Hk Hkl Hcap Hp; cbn [append_loop].
  { intros [= <-]. cbn. rewrite Nat.add_0_r. split; [done|]. split; [done|by left]. }
  intros (i & [_ ->]%add_u64_Some & H)%bind_Some.
  assert (l !! k = Some e /\ es `prefix_of` drop (S k) l) as [He Hp'].
  { destruct Hp as [r Hr]. split.
    - rewrite <- (Nat.add_0_r k), <- lookup_drop, Hr. done.
    - exists r. rewrite <- Nat.add_1_r, <- drop_drop, Hr. done. }
  replace (Z.of_nat k + 1 + 1) with (Z.of_nat (S k) + 1) in H by lia.
  pose proof (lookup_lt_Some _ _ _ He) as Hlt. cbn [length]. rewrite <- Nat.add_succ_comm.
  destruct (append_one_new l lg k e Ht Hk Hcap He) as [[E (x & Hx & Hxe)]|[E Hne]].
  - pose proof (lookup_lt_Some _ _ _ Hx). rewrite <- E.
    eapply (IH _ lg' (S k)); rewrite ?E; try done. by eapply agrees_match.
  - eapply (taken_over_step _ _ k); [lia|done|]. rewrite <- E.
    eapply (IH _ lg' (S k)); rewrite ?E; try done.
    + by apply agrees_take.
    + by rewrite take_take, Nat.min_l by lia.
    + rewrite length_take. lia.
Qed.

(** ** Ghosts *)

(** [K t c]: the log with which [c] campaigned in term [t].  [A v t j]: node [v] has had the
    entry at index [j] of the leader of term [t], while in that term.  [R v t c]: [v] voted
    for [c] in term [t] before that term had a leader. *)
Definition campaigns : Type := Z -> NodeId -> option (list LogEntry).
Definition acks : Type := NodeId -> Z -> nat -> Prop.
Definition votes : Type := NodeId -> Z -> NodeId -> Prop.

(** The leaders after term [t], up to term [u], agree with [l] up to index [j]. *)
Definition clear L l (j : nat) (t u : Z) : Prop :=
  forall t' c' l', t < t' <= u -> L t' = Some (c', l') -> take (S j) l' = take (S j) l.

(** Entry [e] at index [j] of the leader of term [t] is of that term. *)
Definition owns L (t : Z) (j : nat) l : Prop :=
  exists c e, L t = Some (c, l) /\ l !! j = Some e /\ le_term e = t.

Record ghost_inv (M : gset NodeId) L (K : campaigns) (A : acks) (R : votes) : Prop := {
  gh_lead : forall t c l, L t = Some (c, l) ->
    exists l0 r, K t c = Some l0 /\ l = l0 ++ r /\ Forall (fun e => le_term e = t) r;
  gh_cand : forall t c l, K t c = Some l -> agrees L l /\ Forall (fun e => le_term e < t) l;
  gh_cap : forall t c l, L t = Some (c, l) -> (length l <= RAFT_LOG_CAP)%nat;
  gh_elected : forall t c l, L t = Some (c, l) -> elected M R t c;
  gh_voted : forall v t c, R v t c -> is_Some (K t c);
  gh_ack : forall v t j, A v t j -> exists c l, L t = Some (c, l) /\ (j < length l)%nat;
  gh_vote : forall v t' c' lk t j l, R v t' c' -> K t' c' = Some lk -> t < t' ->
    A v t j -> owns L t j l -> clear L l j t (t' - 1) -> take (S j) lk = take (S j) l;
}.

Lemma lead_terms M L K A R t c l :
  ghost_inv M L K A R -> L t = Some (c, l) -> Forall (fun e => le_term e <= t) l.
Proof.
  intros Hg Ht. destruct (gh_lead _ _ _ _ _ Hg _ _ _ Ht) as (l0 & r & HK & -> & Hr).
  destruct (gh_cand _ _ _ _ _ Hg _ _ _ HK) as [_ H0]. apply Forall_app.
  split; (eapply Forall_impl; [eassumption|]); cbn; lia.
Qed.

(** ** The quorum argument *)

(** A majority has acknowledged entry [j] of the leader of term [t]. *)
Definition chosen (M : gset NodeId) (A : acks) (t : Z) (j : nat) : Prop :=
  exists W : gset NodeId, W ⊆ M /\ (size M < 2 * size W)%nat /\ forall v, v ∈ W -> A v t j.

Lemma chosen_clear M L K A R t j l u :
  ghost_inv M L K A R -> owns L t j l -> chosen M A t j -> clear L l j t u.
Proof.
  intros Hg Ho (W & HW & Hm & HA) t' c' l' [Hlt _]. revert c' l'.
  induction (Z.lt_wf t t') as [t' _ IH]; intros c' l' Ht'.
  destruct (gh_elected _ _ _ _ _ Hg _ _ _ Ht') as (W' & HW' & Hm' & HR).
  destruct (majorities_meet M W W' HW HW' ltac:(lia)) as (v & Hv & Hv').
  destruct (gh_lead _ _ _ _ _ Hg _ _ _ Ht') as (l0 & r & HK & -> & _).
  assert (take (S j) l0 = take (S j) l) as Hl0.
  { eapply (gh_vote _ _ _ _ _ Hg v t' c' l0 t j l); auto.
    intros t'' c'' l'' Hr. apply IH; lia. }
  rewrite take_app_le; [done|]. destruct Ho as (c & e & _ & He & _). apply lookup_lt_Some in He.
  symmetry in Hl0. eapply take_eq_length; [exact Hl0|lia].
Qed.

(** ** A vote carries the entries of the voter's log *)

(** What [log_up_to_date_for] compares. *)
Definition last_term_of l : Z := match last l with Some e => le_term e | None => 0 end.

Definition up_to_date (lv lk : list LogEntry) : Prop :=
  last_term_of lv < last_term_of lk \/
  (last_term_of lk = last_term_of lv /\ (length lv <= length lk)%nat).

Lemma agrees_last L l :
  agrees L l -> l <> [] -> exists e c l', last l = Some e /\ L (le_term e) = Some (c, l') /\
    l = take (length l) l'.
Proof.
  intros Ha Hne. destruct (last l) as [e|] eqn:E; [|by apply last_None in E].
  pose proof E as Hi. rewrite last_lookup in Hi. pose proof (lookup_lt_Some _ _ _ Hi).
  destruct (Ha _ _ Hi) as (c & l' & HLe & Ht). exists e, c, l'. split; [done|]. split; [done|].
  replace (S (pred (length l))) with (length l) in Ht by lia. by rewrite firstn_all in Ht.
Qed.

(** In a log that agrees with the history, terms do not decrease towards the end. *)
Lemma agrees_last_term M L K A R l j e :
  ghost_inv M L K A R -> agrees L l -> l !! j = Some e -> le_term e <= last_term_of l.
Proof.
  intros Hg Ha Hj. destruct (agrees_last L l Ha) as (x & c & l' & Hx & HLx & El); [by intros ->|].
  unfold last_term_of. rewrite Hx. pose proof (lead_terms _ _ _ _ _ _ _ _ Hg HLx) as Hf.
  rewrite El in Hj. apply lookup_take_Some in Hj as [Hj _]. by apply (Forall_lookup_1 _ _ _ _ Hf Hj).
Qed.

Lemma vote_carries M L K A R t j l lv lk t' c' :
  ghost_inv M L K A R -> owns L t j l -> 0 <= t -> K t' c' = Some lk -> clear L l j t (t' - 1) ->
  agrees L lv -> take (S j) lv = take (S j) l -> up_to_date lv lk -> take (S j) lk = take (S j) l.
Proof.
  intros Hg (c & e & Ht & He & Hte) Hpos HK Hcl Hlv Htake Hup.
  destruct (gh_cand _ _ _ _ _ Hg _ _ _ HK) as [Hlk Hlt'].
  assert (lv !! j = Some e) as Hlvj.
  { rewrite (take_prefix_elem (S j) lv l j) by (done || lia). done. }
  pose proof (agrees_last_term _ _ _ _ _ _ _ _ Hg Hlv Hlvj) as Hge. rewrite Hte in Hge.
  pose proof (lookup_lt_Some _ _ _ Hlvj) as Hlenv. pose proof (lookup_lt_Some _ _ _ He) as Hlenl.
  assert (lk <> []) as Hne.
  { intros ->. destruct Hup as [Hup|[_ Hup]]; cbn in Hup; lia. }
  destruct (agrees_last L lk Hlk Hne) as (x & cx & lx & Hx & HLx & Elk).
  assert (last_term_of lk = le_term x) as Elt by (unfold last_term_of; by rewrite Hx).
  unfold up_to_date in Hup. rewrite Elt in Hup. assert (le_term x < t') as Hxt.
  { rewrite last_lookup in Hx. by apply (Forall_lookup_1 _ _ _ _ Hlt' Hx). }
  assert ((S j <= length lk)%nat /\ take (S j) lx = take (S j) l) as [Hlen Hlx].
  { destruct (decide (le_term x = t)) as [Heq|Hneq].
    - rewrite Heq, Ht in HLx. injection HLx as -> ->. destruct Hup as [|[_ ?]]; [lia|]. split; [lia|done].
    - assert (take (S j) lx = take (S j) l) as Hlx by (apply (Hcl (le_term x) cx); [destruct Hup; lia|done]).
      split; [|done]. destruct (decide (S j <= length lk)%nat) as [|Hshort]; [done|exfalso].
      assert (lk !! pred (length lk) = Some x) as Hlast by by rewrite <- last_lookup.
      pose proof (lookup_lt_Some _ _ _ Hlast).
      assert (l !! pred (length lk) = Some x) as Hlast'.
      { rewrite <- (take_prefix_elem (S j) lx l), <- (lookup_take_lt lx (length lk)) by (done || lia).
        by rewrite <- Elk. }
      pose proof (lead_terms _ _ _ _ _ _ _ _ Hg Ht) as Hf.
      pose proof (Forall_lookup_1 _ _ _ _ Hf Hlast') as Hle. cbn in Hle. destruct Hup; lia. }
  rewrite Elk, take_take, Nat.min_l by lia. done.
Qed.

(** ** The invariant *)

Record node_comp L (K : campaigns) (A : acks) (v : NodeId) s : Prop := {
  nc_cap : (length (entries_of (rn_log s)) <= RAFT_LOG_CAP)%nat;
  nc_terms : Forall (fun e => le_term e <= rn_current_term s) (entries_of (rn_log s));
  nc_cand : forall t l, K t v = Some l -> t <= rn_current_term s;
  nc_campaign : rn_role s = Candidate -> K (rn_current_term s) v = Some (entries_of (rn_log s));
  nc_ack : forall t j, A v t j -> t <= rn_current_term s;
  nc_hold : forall t j l, A v t j -> owns L t j l -> clear L l j t (rn_current_term s) ->
    take (S j) (entries_of (rn_log s)) = take (S j) l;
  nc_match : rn_role s = Leader -> forall k p m j, hv_slice (rn_peers s) !! k = Some p ->
    rn_match_index s !! k = Some m -> Z.of_nat j < m -> A p (rn_current_term s) j;
  nc_self : rn_role s = Leader -> forall j, (j < length (entries_of (rn_log s)))%nat ->
    A v (rn_current_term s) j;
  nc_commit : 0 <= rn_commit_index s;
}.

Definition msg_comp (K : campaigns) (A : acks) (p : packet) : Prop :=
  match pk_msg p with
  | RequestVote t c i lt => exists l, K t c = Some l /\ i = Z.of_nat (length l) /\ lt = last_term_of l
  | AppendEntriesReply t true m => forall j, Z.of_nat j < m -> A (pk_src p) t j
  | _ => True
  end.

Record comp_inv (M : gset NodeId) (nodes : gmap NodeId RaftNode) (net : list packet)
    (B : votes) L (K : campaigns) (A : acks) (R : votes) : Prop := {
  cp_ghost : ghost_inv M L K A R;
  cp_node : forall v s, nodes !! v = Some s -> node_comp L K A v s;
  cp_msg : forall p, p ∈ net -> msg_comp K A p;
  cp_sub : forall v t c, R v t c -> B v t c;
  cp_new : forall v t c, B v t c -> L t = None -> R v t c;
}.

(** ** How the ghosts change *)

Definition grows L L' : Prop :=
  forall t, L' t = L t \/ L t = None \/
    exists c l e, L t = Some (c, l) /\ L' t = Some (c, l ++ [e]) /\ le_term e = t.

Lemma grows_refl L : grows L L.
Proof. by left. Qed.

Lemma grows_extends L L' : grows L L' -> extends L L'.
Proof.
  intros Hg t c l Ht. destruct (Hg t) as [->|[?|(c' & l' & e & H & -> & _)]]; [|congruence|].
  - exists []. by rewrite app_nil_r.
  - rewrite H in Ht. injection Ht as -> ->. by exists [e].
Qed.

Lemma hist_next_grows L i s s' L' :
  hist_next L i s s' L' -> (rn_role s = Leader -> L (rn_current_term s) = Some (i, entries_of (rn_log s))) ->
  grows L L'.
Proof.
  intros [[-> _]|(_ & -> & Hn)] Hl; [apply grows_refl|]. intros t. unfold record. case_decide; [subst t|by left].
  destruct Hn as [[Hn _]|(e & Hs & Et & He & ->)]; [by right; left|]. right; right.
  exists i, (entries_of (rn_log s)), e. rewrite Et. auto.
Qed.

(** A step that makes no leader and appends nothing to a leader's log. *)
Lemma hist_next_same L i s s' L' :
  hist_next L i s s' L' -> node_log L i s ->
  (rn_role s' = Leader -> rn_role s = Leader /\ rn_current_term s' = rn_current_term s /\ rn_log s' = rn_log s) -> L' = L.
Proof.
  intros [[? _]|(Hld & _ & Hn)] Hnl Hk; [done|exfalso]. destruct (Hk Hld) as (Hl & Et & El).
  destruct Hn as [[Hnone _]|(e & _ & _ & _ & Ee)].
  - by rewrite Et, (nl_lead _ _ _ Hnl Hl) in Hnone.
  - rewrite El in Ee. apply (f_equal length) in Ee. rewrite length_app in Ee. cbn in Ee. lia.
Qed.

(** What was acknowledged and clear before a change of the history. *)
Lemma grows_back M L K A R L' v t j l' :
  ghost_inv M L K A R -> grows L L' -> A v t j -> owns L' t j l' ->
  exists l, owns L t j l /\ take (S j) l' = take (S j) l /\
    forall u, clear L' l' j t u -> clear L l j t u.
Proof.
  intros Hg Hgr HA (c & e & Ht & He & Hte). destruct (gh_ack _ _ _ _ _ Hg _ _ _ HA) as (c0 & l & HLt & Hj).
  destruct (grows_extends _ _ Hgr _ _ _ HLt) as [k Hk]. rewrite Hk in Ht. injection Ht as -> <-.
  assert (take (S j) (l ++ k) = take (S j) l) as Htk by (rewrite take_app_le by lia; done).
  exists l. split; [|split; [done|]].
  - exists c, e. rewrite lookup_app_l in He by lia. done.
  - intros u Hcl t'' c'' l'' Hr HL''. rewrite <- Htk.
    destruct (Hgr t'') as [Heq|[?|(c2 & l2 & e2 & H2 & H2' & He2)]]; [|congruence|].
    + eapply Hcl; [exact Hr|]. by rewrite Heq.
    + rewrite HL'' in H2. injection H2 as <- <-. specialize (Hcl _ _ _ Hr H2'). rewrite <- Hcl.
      destruct (decide (S j <= length l'')%nat); [by rewrite take_app_le by lia|]. exfalso.
      assert ((l ++ k) !! length l'' = Some e2) as Hbad.
      { rewrite <- (take_prefix_elem (S j) _ _ (length l'') Hcl) by lia.
        rewrite lookup_app_r, Nat.sub_diag by lia. done. }
      rewrite lookup_app_l in Hbad by lia. pose proof (lead_terms _ _ _ _ _ _ _ _ Hg HLt) as Hf.
      pose proof (Forall_lookup_1 _ _ _ _ Hf Hbad) as Hle. cbn in Hle. lia.
Qed.

Section update.
Context (M : gset NodeId) (nodes : gmap NodeId RaftNode) (net net' : list packet) (B B' : votes).
Context (L : history) (K : campaigns) (A : acks) (R : votes) (L' : history) (K' : campaigns) (A' : acks).
Context (i : NodeId) (s' : RaftNode).

(** Node [i] moves to [s'] and the ghosts grow: a campaign and acknowledgements of its own
    in its new term. *)
Record ghost_step : Prop := {
  gs_hist : grows L L';
  gs_cand : forall t c l, K t c = Some l -> K' t c = Some l;
  gs_cand_new : forall t c l, K' t c = Some l -> K t c = Some l \/
    (c = i /\ t = rn_current_term s' /\ agrees L l /\ Forall (fun e => le_term e < t) l);
  gs_ack : forall v t j, A v t j -> A' v t j;
  gs_ack_new : forall v t j, A' v t j -> A v t j \/
    (v = i /\ t = rn_current_term s' /\ exists c l, L' t = Some (c, l) /\ (j < length l)%nat);
}.

Definition votes_next : votes := fun v t c => R v t c \/ (B' v t c /\ L t = None).

(** A vote that is new is for a candidate whose log is as good as the voter's. *)
Definition good_vote (v : NodeId) (t' : Z) (c' : NodeId) : Prop :=
  exists lk, K' t' c' = Some lk /\ forall t j l, t < t' -> A v t j -> owns L t j l ->
    clear L l j t (t' - 1) -> take (S j) lk = take (S j) l.

Hypothesis Hinv : comp_inv M nodes net B L K A R.
Hypothesis Hstep : ghost_step.
Hypothesis Hvotes : forall v t c, B' v t c -> L t = None -> B v t c \/ good_vote v t c.
Hypothesis Hcur : forall t c, B' i t c -> t <= rn_current_term s'.
Hypothesis HB : forall v t c, B v t c -> B' v t c.
Hypothesis Hnew : forall t c l, L t = None -> L' t = Some (c, l) ->
  K' t c = Some l /\ elected M votes_next t c.
Hypothesis Hcap : forall t c l, L' t = Some (c, l) -> (length l <= RAFT_LOG_CAP)%nat.

Lemma ghost_update : ghost_inv M L' K' A' votes_next.
Proof using All.
  clear HL. destruct Hinv as [Hg _ _ Hsub Hnewv]. destruct Hstep as [Hgr HK HKn HA HAn].
  pose proof (grows_extends _ _ Hgr) as Hext. constructor.
  - intros t c l Ht. destruct (Hgr t) as [Heq|[Hnone|(c0 & l0 & e & H0 & H0' & He)]].
    + rewrite Heq in Ht. destruct (gh_lead _ _ _ _ _ Hg _ _ _ Ht) as (k & r & HKt & -> & Hr). exists k, r. auto.
    + destruct (Hnew t c l Hnone Ht) as [HKt _]. exists l, []. by rewrite app_nil_r.
    + rewrite Ht in H0'. injection H0' as -> ->.
      destruct (gh_lead _ _ _ _ _ Hg _ _ _ H0) as (k & r & HKt & -> & Hr). exists k, (r ++ [e]).
      rewrite <- app_assoc. split; [auto|]. split; [done|]. apply Forall_app. auto.
  - intros t c l [Ht|(-> & _ & Ha & Hf)]%HKn; [|by split; [eapply agrees_extends|]].
    destruct (gh_cand _ _ _ _ _ Hg _ _ _ Ht). split; [by eapply agrees_extends|done].
  - exact Hcap.
  - intros t c l Ht. destruct (Hgr t) as [Heq|[Hnone|(c0 & l0 & e & H0 & H0' & He)]].
    + rewrite Heq in Ht. destruct (gh_elected _ _ _ _ _ Hg _ _ _ Ht) as (W & H1 & H2 & H3).
      exists W. split; [done|]. split; [done|]. intros v Hv. left. auto.
    + by destruct (Hnew t c l Hnone Ht).
    + rewrite Ht in H0'. injection H0' as -> _. destruct (gh_elected _ _ _ _ _ Hg _ _ _ H0) as (W & H1 & H2 & H3).
      exists W. split; [done|]. split; [done|]. intros v Hv. left. auto.
  - intros v t c [Hr|[Hb Hnone]].
    + destruct (gh_voted _ _ _ _ _ Hg _ _ _ Hr) as [l Hl]. exists l. auto.
    + destruct (Hvotes v t c Hb Hnone) as [Hb0|(lk & Hk & _)]; [|by exists lk].
      destruct (gh_voted _ _ _ _ _ Hg _ _ _ (Hnewv _ _ _ Hb0 Hnone)) as [l Hl]. exists l. auto.
  - intros v t j [Ha|(_ & _ & H)]%HAn; [|done]. destruct (gh_ack _ _ _ _ _ Hg _ _ _ Ha) as (c & l & Hl & Hj).
    destruct (Hext _ _ _ Hl) as [k Hk]. exists c, (l ++ k). rewrite length_app. split; [done|lia].
  - intros v t' c' lk t j l Hr HKt Hlt [Ha|(-> & -> & _)]%HAn Ho Hcl; cycle 1.
    { assert (B' i t' c') as Hb by (destruct Hr as [?|[? _]]; auto). specialize (Hcur _ _ Hb). lia. }
    destruct (grows_back _ _ _ _ _ _ _ _ _ _ Hg Hgr Ha Ho) as (l0 & Ho0 & -> & Hcl0).
    assert (R v t' c' \/ good_vote v t' c') as [Hr0|(lk' & HKt' & Hgood)].
    { destruct Hr as [?|[Hb Hnone]]; [by left|]. destruct (Hvotes _ _ _ Hb Hnone); [left; auto|by right]. }
    + destruct (gh_voted _ _ _ _ _ Hg _ _ _ Hr0) as [lk0 Hlk0]. pose proof (HK _ _ _ Hlk0) as E.
      rewrite HKt in E. injection E as ->. eapply (gh_vote _ _ _ _ _ Hg v t' c' lk0 t j l0); auto.
    + rewrite HKt in HKt'. injection HKt' as <-. apply (Hgood t j l0); auto.
Qed.

Lemma node_comp_other v s : v <> i -> node_comp L K A v s -> node_comp L' K' A' v s.
Proof using Hinv Hstep.
  clear HL. destruct Hinv as [Hg _ _ _ _]. destruct Hstep as [Hgr HK HKn HA HAn].
  intros Hne [Hcp Htm Hcd Hcm Hak Hhd Hmt Hsf Hci].
  assert (forall t j, A' v t j -> A v t j) as Hback by (intros t j [?|(? & _)]%HAn; [done|congruence]).
  constructor; eauto.
  - intros t l [Ht|(? & _)]%HKn; [by eapply Hcd|congruence].
  - intros t j l Ha%Hback Ho Hcl. destruct (grows_back _ _ _ _ _ _ _ _ _ _ Hg Hgr Ha Ho) as (l0 & Ho0 & -> & Hcl0).
    apply Hhd with t; auto.
Qed.

Lemma comp_update :
  node_comp L' K' A' i s' -> (forall p, p ∈ net' -> p ∈ net \/ msg_comp K' A' p) ->
  comp_inv M (<[i := s']> nodes) net' B' L' K' A' votes_next.
Proof using All.
  intros Hi Hmsg. pose proof Hinv as [Hg Hn Hm Hsub Hnewv]. constructor.
  - exact ghost_update.
  - intros v s [[<- <-]|[Hne Hv]]%lookup_insert_Some; [done|]. apply node_comp_other; auto.
  - intros p [Hp| ]%Hmsg; [|done]. specialize (Hm p Hp). destruct Hstep as [_ HK _ HA _].
    unfold msg_comp in *. destruct (pk_msg p) as [t c k lt| | |t [] m]; try done; [|auto].
    destruct Hm as (l & H1 & H2). exists l. auto.
  - intros v t c [Hr|[Hb _]]; [|done]. auto.
  - intros v t c Hb Hnone. right. split; [done|]. destruct (L t) as [[c0 l0]|] eqn:E; [|done].
    destruct Hstep as [Hgr _ _ _ _]. destruct (grows_extends _ _ Hgr _ _ _ E) as [k Hk]. congruence.
Qed.

End update.

(** ** Votes are good *)

Lemma last_term_entries (lg : RaftLog) : last_term lg = last_term_of (entries_of lg).
Proof. done. Qed.

Lemma request_up_to_date s lk :
  log_up_to_date_for s (Z.of_nat (length lk)) (last_term_of lk) = true ->
  up_to_date (entries_of (rn_log s)) lk.
Proof.
  unfold log_up_to_date_for, up_to_date. rewrite last_term_entries, last_index_entries.
  rewrite orb_true_iff, andb_true_iff, Z.ltb_lt, Z.eqb_eq, Z.leb_le. intros [?|[? ?]]; [by left|right]. lia.
Qed.

Lemma cast_good M nodes net nodes' net' B L K A R K' v t x :
  log_inv M nodes net B L -> comp_inv M nodes net B L K A R ->
  casts (mkCluster nodes net) (mkCluster nodes' net') v t x -> L t = None ->
  (forall t c l, K t c = Some l -> K' t c = Some l) ->
  (forall s s', nodes !! v = Some s -> nodes' !! v = Some s' -> rn_current_term s' = rn_current_term s + 1 ->
     rn_role s' <> Follower -> K' (rn_current_term s') v = Some (entries_of (rn_log s))) ->
  good_vote L A K' v t x.
Proof.
  intros Hlog Hinv (s & s' & Hs & Hs' & _ & Hc) Hnone HK Hself. cbn in Hs, Hs', Hc.
  pose proof (cp_node _ _ _ _ _ _ _ _ Hinv v s Hs) as Hn.
  destruct Hc as [(-> & -> & Et & Hr)|(p & i & lt & Hp & Hm & Hle & Hup)].
  - exists (entries_of (rn_log s)). split; [rewrite <- Et; by apply Hself|].
    intros t j l Hlt HA Ho Hcl. apply (nc_hold _ _ _ _ _ Hn t); try done.
    by replace (rn_current_term s) with (rn_current_term s + 1 - 1) by lia.
  - pose proof (cp_msg _ _ _ _ _ _ _ _ Hinv p Hp) as Hmc. unfold msg_comp in Hmc. rewrite Hm in Hmc.
    destruct Hmc as (lk & HKt & -> & ->). exists lk. split; [auto|].
    intros t0 j l Hlt HA Ho Hcl. destruct (lg_node _ _ _ _ _ Hlog v s Hs) as [Hag _ _ _ _ _].
    eapply (vote_carries M L K A R); try done.
    + apply (cp_ghost _ _ _ _ _ _ _ _ Hinv).
    + destruct Ho as (c & e & Ht & _). destruct (lg_hist _ _ _ _ _ Hlog _ _ _ Ht). lia.
    + apply (nc_hold _ _ _ _ _ Hn t0); try done. intros t' c' l' Hr HLt. apply (Hcl t' c'); [|done].
      assert (t' <> t) by congruence. lia.
    + by apply request_up_to_date.
Qed.

(** ** One node moves *)

Definition acks_add (A : acks) (i : NodeId) (t : Z) (n : nat) : acks :=
  fun v t' j => A v t' j \/ (v = i /\ t' = t /\ (j < n)%nat).

Definition campaign_add (K : campaigns) (t : Z) (c : NodeId) l : campaigns :=
  fun t' c' => if decide (t' = t /\ c' = c) then Some l else K t' c'.

Lemma campaign_add_eq K t c l : campaign_add K t c l t c = Some l.
Proof. unfold campaign_add. by rewrite decide_True. Qed.

(** A campaign starts, or a node that is no follower stays in its term. *)
Definition campaign_next (K : campaigns) (i : NodeId) s s' (K' : campaigns) : Prop :=
  (K' = K /\ (rn_role s' <> Follower -> rn_current_term s' = rn_current_term s /\ rn_role s <> Follower)) \/
  (K' = campaign_add K (rn_current_term s') i (entries_of (rn_log s)) /\
   rn_current_term s' = rn_current_term s + 1 /\ rn_log s' = rn_log s).

Lemma comp_move M nodes net net' B B' V' L L' K K' A R i s s' n :
  log_inv M nodes net B L -> comp_inv M nodes net B L K A R ->
  nodes !! i = Some s -> vote_inv M (<[i := s']> nodes) net' B' V' ->
  (forall v t x, B v t x -> B' v t x) ->
  (forall v t x, B' v t x ->
     B v t x \/ casts (mkCluster nodes net) (mkCluster (<[i := s']> nodes) net') v t x) ->
  hist_next L i s s' L' -> campaign_next K i s s' K' -> rn_current_term s <= rn_current_term s' ->
  n = 0%nat \/ (exists c l, L' (rn_current_term s') = Some (c, l) /\ (n <= length l)%nat) ->
  let A' := acks_add A i (rn_current_term s') n in
  node_comp L' K' A' i s' -> (forall p, p ∈ net' -> p ∈ net \/ msg_comp K' A' p) ->
  exists R', comp_inv M (<[i := s']> nodes) net' B' L' K' A' R'.
Proof.
  intros Hlog Hinv Hi Hv HB Hcasts Hh Hk Hle Hn A' Hs' Hmsg. exists (votes_next B' L R).
  pose proof (cp_node _ _ _ _ _ _ _ _ Hinv i s Hi) as Hnc. pose proof (lg_node _ _ _ _ _ Hlog i s Hi) as Hnl.
  assert (forall t c l, K t c = Some l -> K' t c = Some l) as HK.
  { destruct Hk as [[-> _]|(-> & Et & _)]; [done|]. intros t c l Ht. unfold campaign_add.
    rewrite decide_False; [done|]. intros [-> ->]. pose proof (nc_cand _ _ _ _ _ Hnc _ _ Ht). lia. }
  assert (grows L L') as Hgr by (eapply hist_next_grows; [exact Hh|apply Hnl]).
  eapply (comp_update M nodes net net' B B' L K A R L' K' A' i s'); try done.
  - constructor; try done.
    + destruct Hk as [[-> _]|(-> & Et & _)]; [by left|]. intros t c l. unfold campaign_add.
      case_decide as Hd; [|by left]. destruct Hd as [-> ->]. intros [= <-]. right. split_and!; try done; [apply Hnl|].
      eapply Forall_impl; [apply Hnc|]. cbn. lia.
    + by left.
    + intros v t j [?|(-> & -> & Hj)]; [by left|right]. split; [done|]. split; [done|].
      destruct Hn as [->|(c & l & Hc & Hlen)]; [lia|]. exists c, l. split; [done|lia].
  - intros v t c Hb Hnone. destruct (Hcasts v t c Hb) as [|Hc]; [by left|right].
    eapply (cast_good M nodes net); try done. intros s1 s1' H1 H1' Et Hr.
    apply lookup_insert_Some in H1' as [[<- <-]|[_ H1']]; [|simplify_eq; lia].
    simplify_eq. destruct Hk as [[-> Hk]|(-> & _)]; [|apply campaign_add_eq]. destruct (Hk Hr). lia.
  - intros t c Hb. by apply (vi_cur _ _ _ _ _ Hv i s' t c (lookup_insert_eq _ _ _) Hb).
  - intros t c l Hnone Ht. destruct Hh as [[-> _]|(Hl & -> & Hh)]; [congruence|].
    unfold record in Ht. case_decide; [subst t|congruence]. injection Ht as <- <-.
    destruct Hh as [[_ Elog]|(e & Hls & Et & _)]; [|rewrite Et, (nl_lead _ _ _ Hnl Hls) in Hnone; congruence].
    split.
    + destruct Hk as [[-> Hk]|(-> & _)]; [|rewrite Elog; apply campaign_add_eq].
      destruct Hk as [Et Hf]; [congruence|]. rewrite Elog, Et. apply (nc_campaign _ _ _ _ _ Hnc).
      destruct (rn_role s) eqn:E; [done|done|]. rewrite Et, (nl_lead _ _ _ Hnl E) in Hnone. congruence.
    + destruct (leader_majority _ _ _ _ _ _ _ Hv (lookup_insert_eq _ _ _) Hl) as (H1 & H2 & H3).
      exists (V' i). split; [done|]. split; [done|]. intros v Hin. right. auto.
  - intros t c l Ht. destruct (Hgr t) as [Heq|[Hnone|(c0 & l0 & e & H0 & H0' & He)]].
    + rewrite Heq in Ht. by apply (gh_cap _ _ _ _ _ (cp_ghost _ _ _ _ _ _ _ _ Hinv) t c l).
    + destruct Hh as [[-> _]|(Hl & -> & Hh)]; [congruence|]. unfold record in Ht.
      case_decide; [|congruence]. injection Ht as <- <-. apply Hs'.
    + destruct Hh as [[-> _]|(Hl & -> & Hh)].
      { by apply (gh_cap _ _ _ _ _ (cp_ghost _ _ _ _ _ _ _ _ Hinv) t c l). }
      unfold record in Ht. case_decide; [injection Ht as <- <-; apply Hs'|].
      by apply (gh_cap _ _ _ _ _ (cp_ghost _ _ _ _ _ _ _ _ Hinv) t c l).
Qed.

(** ** The node that moves *)

(** A node that keeps its log, its peers and its progress, and gains no office. *)
Lemma node_comp_keeps L K A v s s' :
  node_comp L K A v s -> rn_log s' = rn_log s -> rn_current_term s <= rn_current_term s' ->
  (0 <= rn_commit_index s -> 0 <= rn_commit_index s') ->
  (rn_role s' <> Follower -> rn_current_term s' = rn_current_term s /\ rn_role s = rn_role s' /\
     rn_peers s' = rn_peers s /\ rn_match_index s' = rn_match_index s) ->
  node_comp L K A v s'.
Proof.
  intros [Hcp Htm Hcd Hcm Hak Hhd Hmt Hsf Hci] El Hle Hc0 Hr. constructor; rewrite ?El; try done; [..|by auto].
  - eapply Forall_impl; [exact Htm|]. cbn. lia.
  - intros t l Ht. specialize (Hcd t l Ht). lia.
  - intros Hc. destruct Hr as (-> & Er & _); [congruence|]. apply Hcm. congruence.
  - intros t j Ha. specialize (Hak t j Ha). lia.
  - intros t j l Ha Ho Hcl. apply Hhd with t; try done. intros t' c' l' Ht'. apply Hcl. lia.
  - intros Hl. destruct Hr as (-> & Er & -> & ->); [congruence|]. apply Hmt. congruence.
  - intros Hl. destruct Hr as (-> & Er & _); [congruence|]. apply Hsf. congruence.
Qed.

(** A leader holds whatever it has acknowledged: the history for its term is its log. *)
Lemma node_comp_leader L K A v s :
  L (rn_current_term s) = Some (v, entries_of (rn_log s)) -> rn_role s = Leader ->
  (length (entries_of (rn_log s)) <= RAFT_LOG_CAP)%nat ->
  Forall (fun e => le_term e <= rn_current_term s) (entries_of (rn_log s)) ->
  (forall t l, K t v = Some l -> t <= rn_current_term s) ->
  (forall t j, A v t j -> t <= rn_current_term s) ->
  (forall k p m j, hv_slice (rn_peers s) !! k = Some p -> rn_match_index s !! k = Some m ->
     Z.of_nat j < m -> A p (rn_current_term s) j) ->
  (forall j, (j < length (entries_of (rn_log s)))%nat -> A v (rn_current_term s) j) ->
  0 <= rn_commit_index s -> node_comp L K A v s.
Proof.
  intros HLs Hl Hcp Htm Hcd Hak Hmt Hsf Hci. constructor; try done; [by rewrite Hl|].
  intros t j l Ha (c & e & Ht & He & Hte) Hcl. specialize (Hak t j Ha).
  destruct (decide (t = rn_current_term s)) as [->|Hne]; [congruence|]. eapply Hcl; [|exact HLs]. lia.
Qed.

Lemma reset_match k m next ks : forall s,
  k ∈ ks \/ (forall x, rn_match_index s !! k = Some x -> x = 0) ->
  rn_match_index (foldl (fun s i => set_progress s (<[i := next]> (rn_next_index s))
                                      (<[i := 0]> (rn_match_index s))) s ks) !! k = Some m -> m = 0.
Proof.
  induction ks as [|i ks IH]; intros s Hk; cbn [foldl].
  { destruct Hk as [Hk|Hk]; [by apply not_elem_of_nil in Hk|apply Hk]. }
  apply IH. cbn. destruct (decide (i = k)) as [->|Hne].
  - right. intros x Hx. apply list_lookup_insert_Some in Hx as [(_ & -> & _)|[? _]]; done.
  - destruct Hk as [[->|Hin]%elem_of_cons|Hk]; [done|by left|right]. by rewrite list_lookup_insert_ne.
Qed.

Lemma become_leader_match s s' k p m :
  become_leader s = Some s' -> hv_slice (rn_peers s') !! k = Some p -> rn_match_index s' !! k = Some m -> m = 0.
Proof.
  intros Hb Hk. pose proof (become_leader_fields _ _ Hb) as (_ & _ & _ & _ & Ep & _).
  unfold become_leader in Hb. apply bind_Some in Hb as (next & _ & [= <-]).
  apply reset_match. left. apply elem_of_seq. rewrite Ep in Hk. apply lookup_lt_Some in Hk.
  unfold n_peers, hv_len. cbn. lia.
Qed.

(** A node wins an election, with its progress arrays reset. *)
Lemma node_comp_elected L K A K' i s s' :
  node_comp L K A i s -> rn_role s' = Leader -> rn_log s' = rn_log s ->
  rn_current_term s <= rn_current_term s' ->
  (forall k p m, hv_slice (rn_peers s') !! k = Some p -> rn_match_index s' !! k = Some m -> m = 0) ->
  (forall t l, K' t i = Some l -> K t i = Some l \/ t = rn_current_term s') ->
  rn_commit_index s' = rn_commit_index s ->
  let n := length (entries_of (rn_log s')) in
  node_comp (record L (rn_current_term s') i (entries_of (rn_log s'))) K'
    (acks_add A i (rn_current_term s') n) i s'.
Proof.
  intros [Hcp Htm Hcd Hcm Hak Hhd Hmt Hsf Hci] Hl El Hle Hz HK Ec n. apply node_comp_leader; try done; [..|by rewrite Ec].
  - apply record_eq.
  - by rewrite El.
  - rewrite El. eapply Forall_impl; [exact Htm|]. cbn. lia.
  - intros t l [Ht| ->]%HK; [|lia]. specialize (Hcd t l Ht). lia.
  - intros t j [Ha|(_ & -> & _)]; [|lia]. specialize (Hak t j Ha). lia.
  - intros k p m j Hp Hm Hj. rewrite (Hz k p m Hp Hm) in Hj. lia.
  - intros j Hj. right. auto.
Qed.

Lemma node_comp_acks L K A A' v s :
  (forall w t j, A w t j <-> A' w t j) -> node_comp L K A v s -> node_comp L K A' v s.
Proof.
  intros HA [Hcp Htm Hcd Hcm Hak Hhd Hmt Hsf Hci]. constructor; try done.
  - intros t j Ha%HA. by eapply Hak.
  - intros t j l Ha%HA. by apply Hhd.
  - intros Hl k p m j H1 H2 H3. apply HA. eauto.
  - intros Hl j Hj. apply HA. auto.
Qed.

Lemma acks_add_0 A i t w t' j : A w t' j <-> acks_add A i t 0 w t' j.
Proof. unfold acks_add. split; [by left|]. intros [?|(_ & _ & ?)]; [done|lia]. Qed.

(** ** What the handlers send and keep *)

Definition is_append (m : RaftMessage) : Prop :=
  match m with AppendEntries _ _ _ _ _ _ => True | _ => False end.

Lemma broadcast_appends s ks : forall t t' : Outbox,
  foldl (fun ot i => t ← ot; send_ae_to s i t) (Some t) ks = Some t' ->
  forall x, x ∈ t' -> x ∈ t \/ is_append x.2.
Proof.
  induction ks as [|k ks IH]; intros t t'; cbn [foldl]; [intros [= <-]; by left|].
  cbn [mbind option_bind]. destruct (send_ae_to s k t) as [t1|] eqn:Hs.
  - intros H x Hx. destruct (IH _ _ H x Hx) as [Hx1|]; [|by right]. unfold send_ae_to in Hs.
    destruct (_ !! k) as [peer|]; [|injection Hs as <-; by left]. apply bind_Some in Hs as (es & _ & [= <-]).
    cbn in Hx1. apply elem_of_app in Hx1 as [?| ->%list_elem_of_singleton]; [by left|by right].
  - intros H. exfalso. clear -H. induction ks as [|j ks IH]; [done|]. by apply IH.
Qed.

(** A proposal keeps all but the log and the commit index. *)
Lemma propose_keeps s src dst s' (out : Outbox) r :
  propose s src dst [] = Some (s', out, r) ->
  rn_role s' = rn_role s /\ rn_current_term s' = rn_current_term s /\ rn_peers s' = rn_peers s /\
  rn_match_index s' = rn_match_index s /\ rn_next_index s' = rn_next_index s /\
  (0 <= rn_commit_index s -> 0 <= rn_commit_index s') /\
  (rn_log s' = rn_log s \/ (rn_role s = Leader /\ (length (entries_of (rn_log s')) <= RAFT_LOG_CAP)%nat)) /\
  forall x, x ∈ out -> is_append x.2.
Proof using HL.
  assert (forall x : NodeId * RaftMessage, x ∈ [] -> is_append x.2) as Hnil by by intros x Hx%not_elem_of_nil.
  unfold propose. destruct (is_leader s) eqn:Hl; cbn [negb]; [|intros [= <- <- _]; auto 10].
  apply bool_decide_eq_true in Hl. destruct (log_append _ _) as [lg [|]] eqn:Ha; cbn [negb]; [|intros [= <- <- _]; auto 10].
  assert (length (entries_of lg) <= RAFT_LOG_CAP)%nat as Hlen.
  { apply log_append_ok in Ha as [-> Hlt]. rewrite length_app. cbn. lia. }
  case_decide; [intros [= <- <- _]; cbn; split_and!; try done; [unfold last_index; lia|by right]|].
  intros (t1 & Hb & [= <- <- _])%bind_Some. cbn. split_and!; try done; [by right|].
  intros x Hx. by destruct (broadcast_appends _ _ _ _ Hb x Hx) as [?%not_elem_of_nil|].
Qed.

(** A quiet step keeps the peers, and the match indices if the node is not a new leader. *)
Lemma on_request_vote_keeps s from t c j lt s' (out : Outbox) :
  on_request_vote s from t c j lt [] = (s', out) ->
  rn_log s' = rn_log s /\ rn_current_term s <= rn_current_term s' /\
  rn_commit_index s' = rn_commit_index s /\
  (rn_role s' <> Follower -> rn_current_term s' = rn_current_term s /\ rn_role s = rn_role s' /\
     rn_peers s' = rn_peers s /\ rn_match_index s' = rn_match_index s) /\
  exists g, out = [(from, RequestVoteReply (rn_current_term s') g)].
Proof.
  unfold on_request_vote. set (s1 := if _ <? t then _ else _).
  assert (rn_log s1 = rn_log s /\ rn_current_term s <= rn_current_term s1 /\
    rn_commit_index s1 = rn_commit_index s /\ (rn_role s1 <> Follower -> rn_current_term s1 = rn_current_term s /\ rn_role s = rn_role s1 /\
       rn_peers s1 = rn_peers s /\ rn_match_index s1 = rn_match_index s)) as (H1 & H2 & H4 & H3).
  { unfold s1. destruct (Z.ltb_spec (rn_current_term s) t); cbn; [split_and!; try done; lia|].
    split_and!; try done; lia. }
  clearbody s1. destruct (_ && _); intros [= <- <-]; cbn; eauto 10.
Qed.

Lemma on_vote_reply_won s t g s' k p m :
  on_vote_reply s t g = Some s' -> rn_role s' = Leader -> rn_role s = Candidate ->
  hv_slice (rn_peers s') !! k = Some p -> rn_match_index s' !! k = Some m -> m = 0.
Proof.
  unfold on_vote_reply. destruct (_ <? _); [by intros [= <-]|]. destruct (_ || _); [intros [= <-]; congruence|].
  intros (s1 & Hs1 & H2)%bind_Some. destruct (_ <=? _).
  - intros _ _. by apply (become_leader_match _ _ k p m H2).
  - injection H2 as <-. intros Hl Hc. destruct g; [apply bind_Some in Hs1 as (v & _ & Hs1)|]; injection Hs1 as <-; cbn in *; congruence.
Qed.

Lemma on_vote_reply_commit s t g s' : on_vote_reply s t g = Some s' -> rn_commit_index s' = rn_commit_index s.
Proof.
  unfold on_vote_reply. destruct (_ <? _); [by intros [= <-]|]. destruct (_ || _); [by intros [= <-]|].
  intros (s1 & Hs1 & H2)%bind_Some.
  assert (rn_commit_index s1 = rn_commit_index s) as <-.
  { destruct g; [apply bind_Some in Hs1 as (v & _ & Hs1)|]; by injection Hs1 as <-. }
  destruct (_ <=? _); [by apply become_leader_fields in H2 as (_ & _ & _ & _ & _ & ? & _)|by injection H2 as <-].
Qed.

Lemma on_vote_reply_quiet s t g s' :
  on_vote_reply s t g = Some s' -> rn_role s' = Leader -> rn_role s = Leader ->
  rn_peers s' = rn_peers s /\ rn_match_index s' = rn_match_index s.
Proof.
  unfold on_vote_reply. destruct (_ <? _); [by intros [= <-]|].
  destruct (_ || _) eqn:Ho; [by intros [= <-]|]. intros _ _ Hl. apply orb_false_iff in Ho as [Ho _].
  apply negb_false_iff, bool_decide_eq_true in Ho. congruence.
Qed.

(** The three outcomes of [AppendEntries] at a node: a stale message, a mismatch, or a log
    that matched up to the previous index and has taken over the entries of the leader. *)
Lemma on_append_entries_cases L s from term pi pt es lc c l s' (out : Outbox) :
  (forall t c l, L t = Some (c, l) -> 1 <= t /\ agrees L l) -> agrees L (entries_of (rn_log s)) ->
  L term = Some (c, l) -> (length l <= RAFT_LOG_CAP)%nat -> 0 <= pi ->
  (pi = 0 \/ pt = 0 \/ exists e, l !! Z.to_nat (pi - 1) = Some e /\ le_term e = pt) ->
  hv_slice es `prefix_of` drop (Z.to_nat pi) l ->
  on_append_entries s from term pi pt es lc [] = Some (s', out) ->
  (term < rn_current_term s /\ s' = s /\ out = [(from, AppendEntriesReply (rn_current_term s) false 0)]) \/
  (rn_current_term s <= term /\ rn_current_term s' = term /\ rn_role s' = Follower /\
   (((pi <> 0 /\ term_at (rn_log s) pi <> Some pt) /\ rn_log s' = rn_log s /\
     rn_commit_index s' = rn_commit_index s /\ out = [(from, AppendEntriesReply term false 0)]) \/
    exists n, Z.of_nat n = pi + Z.of_nat (length (hv_slice es)) /\
      (take (Z.to_nat pi) (entries_of (rn_log s)) = take (Z.to_nat pi) l /\
       (Z.to_nat pi <= length (entries_of (rn_log s)))%nat) /\
      taken_over (entries_of (rn_log s)) l n (entries_of (rn_log s')) /\
      rn_commit_index s' = (if rn_commit_index s <? lc then Z.min lc (last_index (rn_log s')) else rn_commit_index s) /\
      out = [(from, AppendEntriesReply term true (Z.of_nat n))])).
Proof using HL.
  intros Hh Ha HLt Hcap Hpi Hprev Hes. unfold on_append_entries.
  destruct (Z.ltb_spec term (rn_current_term s)); [intros [= <- <-]; by left|].
  set (s1 := if _ <? term then _ else _).
  assert (rn_role s1 = Follower /\ rn_current_term s1 = term /\ rn_log s1 = rn_log s /\
    rn_commit_index s1 = rn_commit_index s) as (H1 & H2 & H3 & H4).
  { unfold s1. destruct (Z.ltb_spec (rn_current_term s) term); cbn; (split_and!; try done; lia). }
  clearbody s1. intros Hs. right. split; [done|]. destruct (negb _) eqn:Hok.
  { injection Hs as <- <-. rewrite H2, H3, H4. split; [done|]. split; [done|]. left. split; [|done].
    rewrite H3 in Hok. apply negb_true_iff, orb_false_iff in Hok as [?%Z.eqb_neq ?%bool_decide_eq_false]. done. }
  apply negb_false_iff in Hok. apply bind_Some in Hs as ([s2 m] & Happ & [= <- <-]).
  apply append_log_entries_fields in Happ as (Es2 & Hloop & ->). destruct (Hh _ _ _ HLt) as [_ Hl].
  rewrite H3 in Hok, Hloop. destruct (prev_matches L l (rn_log s) pi pt) as [Ht Hk]; try done.
  { intros t c' l' Hc'. by apply (Hh _ _ _ Hc'). }
  split; [rewrite Es2; by destruct (_ <? lc)|]. split; [rewrite Es2; by destruct (_ <? lc)|]. right.
  exists (Z.to_nat pi + length (hv_slice es))%nat. split; [lia|]. split; [done|].
  assert (Z.to_nat pi <= length l)%nat as Hpl by (eapply take_eq_length; [exact Ht|done]).
  replace (pi + 1) with (Z.of_nat (Z.to_nat pi) + 1) in Hloop by lia.
  pose proof (append_loop_new L l (hv_slice es) (rn_log s) _ _ Hl Ha Ht Hk Hpl Hcap Hes Hloop) as Hto.
  assert (rn_current_term s2 = term /\ rn_commit_index s2 = rn_commit_index s) as [E1 E2] by by rewrite Es2.
  rewrite E2. split; [by destruct (_ <? lc)|]. split; [by destruct (_ <? lc)|].
  replace (pi + Z.of_nat (length (hv_slice es))) with (Z.of_nat (Z.to_nat pi + length (hv_slice es))) by lia.
  destruct (_ <? lc); cbn; by rewrite E1.
Qed.

Lemma taken_over_keeps old l n new l0 j :
  taken_over old l n new -> take (S j) old = take (S j) l0 -> take (S j) l = take (S j) l0 ->
  take (S j) new = take (S j) l0.
Proof.
  intros (_ & _ & [->|[-> (k & Hk & Hne)]]) Ho Hl; [done|].
  destruct (decide (k < S j)%nat) as [Hlt|Hge].
  - destruct Hne. apply (take_prefix_elem (S j)); [congruence|done].
  - by rewrite take_take, Nat.min_l by lia.
Qed.

Lemma taken_over_Forall (P : LogEntry -> Prop) old l n new :
  taken_over old l n new -> Forall P old -> Forall P l -> Forall P new.
Proof. intros (_ & _ & [->|[-> _]]) Ho Hl; [done|by apply Forall_take]. Qed.

Lemma taken_over_length old l n new :
  taken_over old l n new -> (length old <= RAFT_LOG_CAP)%nat -> (length l <= RAFT_LOG_CAP)%nat ->
  (length new <= RAFT_LOG_CAP)%nat.
Proof. intros (_ & _ & [->|[-> _]]) Ho Hl; [done|]. rewrite length_take. lia. Qed.

(** A node that has taken over entries from the leader of its term. *)
Lemma node_comp_append M L K A R v s s' term c l n :
  ghost_inv M L K A R -> node_comp L K A v s -> L term = Some (c, l) ->
  rn_current_term s <= term -> rn_current_term s' = term -> rn_role s' = Follower ->
  taken_over (entries_of (rn_log s)) l n (entries_of (rn_log s')) ->
  (0 <= rn_commit_index s -> 0 <= rn_commit_index s') ->
  node_comp L K (acks_add A v term n) v s'.
Proof.
  intros Hg [Hcp Htm Hcd Hcm Hak Hhd Hmt Hsf Hci] HLt Hle Et Hf Hto Hc0. constructor; rewrite ?Et, ?Hf; try done; [..|by auto].
  - eapply taken_over_length; [exact Hto|done|]. by apply (gh_cap _ _ _ _ _ Hg term c).
  - eapply taken_over_Forall; [exact Hto| |by eapply lead_terms]. eapply Forall_impl; [exact Htm|]. cbn. lia.
  - intros t l' Ht. specialize (Hcd t l' Ht). lia.
  - intros t j [Ha|(_ & -> & _)]; [|lia]. specialize (Hak t j Ha). lia.
  - intros t j l0 [Ha|(_ & -> & Hj)] Ho Hcl.
    + specialize (Hak t j Ha). eapply taken_over_keeps; [exact Hto| |].
      * apply (Hhd t j l0); try done. intros t' c' l' Ht'. apply Hcl. lia.
      * destruct (decide (t = term)) as [->|Hne].
        -- destruct Ho as (c0 & e & Ht0 & _). congruence.
        -- apply (Hcl term c); [lia|done].
    + destruct Ho as (c0 & e & Ht0 & _). rewrite HLt in Ht0. injection Ht0 as _ <-.
      destruct Hto as (Ht & _). eapply take_le_eq; [exact Ht|lia].
Qed.

Lemma on_ae_reply_keeps s from term ok m s' r :
  on_ae_reply s from term ok m = Some (s', r) ->
  rn_log s' = rn_log s /\ rn_current_term s <= rn_current_term s' /\
  rn_commit_index s <= rn_commit_index s' /\
  (rn_role s' <> Follower -> rn_current_term s' = rn_current_term s /\ rn_role s = rn_role s' /\
     rn_peers s' = rn_peers s /\
     (rn_match_index s' = rn_match_index s \/
      exists k, ok = true /\ term = rn_current_term s /\ hv_slice (rn_peers s) !! k = Some from /\
        rn_match_index s' = <[k := m]> (rn_match_index s))).
Proof.
  unfold on_ae_reply. destruct (Z.ltb_spec (rn_current_term s) term).
  { intros [= <- _]. cbn. split; [done|]. split; [lia|]. split; [lia|done]. }
  destruct (negb (is_leader s) || negb (term =? rn_current_term s)) eqn:Ho.
  { intros [= <- _]. split; [done|]. split; [lia|]. split; [lia|]. auto. }
  apply orb_false_iff in Ho as [_ Ht%negb_false_iff%Z.eqb_eq].
  destruct (peer_index s from) as [k|] eqn:Hk; [|intros [= <- _]; split; [done|]; split; [lia|]; split; [lia|]; by auto].
  unfold peer_index in Hk. apply fmap_Some in Hk as ([k' p] & (Hp & -> & _)%list_find_Some & ->). cbn [fst].
  intros (s1 & Hs1 & H2)%bind_Some.
  assert (rn_log s1 = rn_log s /\ rn_current_term s1 = rn_current_term s /\ rn_role s1 = rn_role s /\
    rn_peers s1 = rn_peers s /\ rn_commit_index s1 = rn_commit_index s /\ (rn_match_index s1 = rn_match_index s \/
      (ok = true /\ rn_match_index s1 = <[k' := m]> (rn_match_index s)))) as (E1 & E2 & E3 & E4 & E6 & E5).
  { destruct ok.
    - apply bind_Some in Hs1 as (x & _ & [= <-]). cbn. auto 10.
    - injection Hs1 as <-. destruct (1 <? _); cbn; auto 10. }
  assert (rn_log s' = rn_log s1 /\ rn_current_term s' = rn_current_term s1 /\ rn_role s' = rn_role s1 /\
    rn_peers s' = rn_peers s1 /\ rn_match_index s' = rn_match_index s1 /\
    rn_commit_index s1 <= rn_commit_index s') as (F1 & F2 & F3 & F4 & F5 & F6).
  { destruct ok; [|injection H2 as <- _; split_and!; (done || lia)].
    destruct (advance_commit_index s1) as [[s2 b]|] eqn:Hadv; [|done]. injection H2 as <- _.
    by apply advance_commit_fields in Hadv as (x & -> & Hx & _). }
  rewrite F1, F2, F3, F4, F5, E1, E2, E3, E4. split; [done|]. split; [lia|]. split; [lia|]. intros _. split_and!; try done.
  destruct E5 as [?|[? ?]]; [by left|right]. exists k'. auto.
Qed.

(** ** Elections *)

Section steps.
Context {M : gset NodeId} {nodes : gmap NodeId RaftNode} {net net' : list packet} {B B' : votes}.
Context {V' : NodeId -> gset NodeId} {L : history} {K : campaigns} {A : acks} {R : votes}.
Context {i : NodeId} {s s' : RaftNode} {L' : history}.
Context (Hlog : log_inv M nodes net B L) (Hinv : comp_inv M nodes net B L K A R).
Context (Hi : nodes !! i = Some s) (Hv : vote_inv M (<[i := s']> nodes) net' B' V').
Context (HB : forall v t x, B v t x -> B' v t x).
Context (Hcasts : forall v t x, B' v t x ->
  B v t x \/ casts (mkCluster nodes net) (mkCluster (<[i := s']> nodes) net') v t x).
Context (Hh : hist_next L i s s' L').

(** The invariant after the step, with whatever the ghosts have become. *)
Definition comp_after : Prop :=
  exists K' A' R', comp_inv M (<[i := s']> nodes) net' B' L' K' A' R' /\
    (forall v t j, A v t j -> A' v t j).

(** A step after which the history is as before and nothing is acknowledged. *)
Lemma comp_plain K' :
  campaign_next K i s s' K' -> rn_current_term s <= rn_current_term s' -> L' = L ->
  node_comp L K' A i s' -> (forall p, p ∈ net' -> p ∈ net \/ msg_comp K' A p) -> comp_after.
Proof using All.
  intros HK Hle HLL Hn Hmsg. exists K', (acks_add A i (rn_current_term s') 0).
  destruct (comp_move M nodes net net' B B' V' L L' K K' A R i s s' 0) as [R' H]; try done; [by left| | |].
  - rewrite HLL. eapply node_comp_acks; [|exact Hn]. intros w t j. apply acks_add_0.
  - intros p [?|Hm]%Hmsg; [by left|right]. unfold msg_comp in *. destruct (pk_msg p) as [| | |t [] m]; try done.
    intros j Hj. left. auto.
  - exists R'. split; [done|]. intros v t j Ha. by left.
Qed.

(** A step after which the node leads with the log recorded for it. *)
Lemma comp_record K' :
  campaign_next K i s s' K' -> rn_current_term s <= rn_current_term s' ->
  L' = record L (rn_current_term s') i (entries_of (rn_log s')) ->
  node_comp L' K' (acks_add A i (rn_current_term s') (length (entries_of (rn_log s')))) i s' ->
  (forall p, p ∈ net' -> p ∈ net \/ msg_comp K' A p) -> comp_after.
Proof using All.
  intros HK Hle HLL Hn Hmsg.
  exists K', (acks_add A i (rn_current_term s') (length (entries_of (rn_log s')))).
  destruct (comp_move M nodes net net' B B' V' L L' K K' A R i s s' (length (entries_of (rn_log s')))) as [R' H]; try done.
  - right. exists i, (entries_of (rn_log s')). rewrite HLL. split; [apply record_eq|lia].
  - intros p [?|Hm]%Hmsg; [by left|right]. unfold msg_comp in *. destruct (pk_msg p) as [| | |t [] m]; try done.
    intros j Hj. left. auto.
  - exists R'. split; [done|]. intros v t j Ha. by left.
Qed.

Lemma start_election_match (t t' : Outbox) k p m :
  start_election s t = Some (s', t') -> rn_role s' = Leader ->
  hv_slice (rn_peers s') !! k = Some p -> rn_match_index s' !! k = Some m -> m = 0.
Proof.
  unfold start_election. intros (term & _ & H)%bind_Some. case_decide; [|by injection H as <- _].
  apply bind_Some in H as (s1 & Hb & [= <- _]). intros _. by apply (become_leader_match _ _ k p m Hb).
Qed.

Lemma comp_elect (out : Outbox) :
  rn_id s = i -> start_election s [] = Some (s', out) -> net' = net ++ sent i out -> comp_after.
Proof using All.
  intros Hid Hel Hnet. pose proof (cp_node _ _ _ _ _ _ _ _ Hinv i s Hi) as Hn.
  pose proof (start_election_fields _ _ _ _ Hel) as (Et & _ & El & Ec & _ & _ & _).
  pose proof (start_election_role _ _ _ _ Hel) as Hr.
  assert (campaign_next K i s s' (campaign_add K (rn_current_term s') i (entries_of (rn_log s)))) as HK by by right.
  assert (forall p, p ∈ net' -> p ∈ net \/
    msg_comp (campaign_add K (rn_current_term s') i (entries_of (rn_log s))) A p) as Hmsg.
  { apply start_election_sends in Hel as [_ Hsent]. rewrite Hid in Hsent. rewrite Hnet, Hsent.
    intros p [?|(y & -> & _)%list_elem_of_fmap]%elem_of_app; [by left|right].
    exists (entries_of (rn_log s)). rewrite <- Et. split; [|done]. apply campaign_add_eq. }
  assert (forall t l, campaign_add K (rn_current_term s') i (entries_of (rn_log s)) t i = Some l ->
    K t i = Some l \/ t = rn_current_term s') as HKi.
  { intros t l. unfold campaign_add. case_decide; [|by left]. right. by destruct_and!. }
  destruct Hh as [[HLL _]|(Hl & HLL & _)].
  - eapply comp_plain; [exact HK|lia|exact HLL| |exact Hmsg].
    assert (rn_role s' <> Leader) as Hnl.
    { intros Hl. destruct Hh as [[_ Hk]|(_ & HLL' & Hk)].
      - destruct (Hk Hl). lia.
      - rewrite HLL in HLL'. apply (f_equal (fun f => f (rn_current_term s'))) in HLL'. rewrite record_eq in HLL'.
        destruct Hk as [[Hnone _]|(e & _ & Et' & _)]; [congruence|lia]. }
    destruct Hn as [Hcp Htm Hcd Hcm Hak Hhd Hmt Hsf Hci]. constructor; rewrite ?El; try done.
    + eapply Forall_impl; [exact Htm|]. cbn. lia.
    + intros t l [Ht| ->]%HKi; [|lia]. specialize (Hcd t l Ht). lia.
    + intros _. apply campaign_add_eq.
    + intros t j Ha. specialize (Hak t j Ha). lia.
    + intros t j l Ha Ho Hcl. apply Hhd with t; try done. intros t' c' l' Ht'. apply Hcl. lia.
    + lia.
  - eapply comp_record; [exact HK|lia|exact HLL| |exact Hmsg]. rewrite HLL.
    eapply node_comp_elected; try done; [lia|]. intros k p m. by apply (start_election_match _ _ k p m Hel).
Qed.

(** ** Proposals *)

Lemma comp_propose src dst (out : Outbox) r :
  propose s src dst [] = Some (s', out, r) -> net' = net ++ sent i out -> comp_after.
Proof using All.
  intros Hp Hnet. pose proof (cp_node _ _ _ _ _ _ _ _ Hinv i s Hi) as Hn.
  pose proof (lg_node _ _ _ _ _ Hlog i s Hi) as Hnl.
  apply propose_keeps in Hp as (Er & Et & Ep & Em & _ & Hci' & Hcap & Hout).
  assert (campaign_next K i s s' K) as HK by (left; split; [done|]; rewrite Er; done).
  assert (forall p, p ∈ net' -> p ∈ net \/ msg_comp K A p) as Hmsg.
  { rewrite Hnet. intros p [?|([q m] & -> & Hx)%list_elem_of_fmap]%elem_of_app; [by left|right].
    specialize (Hout _ Hx). cbn in Hout. unfold msg_comp. cbn. by destruct m. }
  assert (rn_log s' = rn_log s -> L' = L -> comp_after) as Hsame.
  { intros El HLL. eapply comp_plain; [exact HK|lia|exact HLL| |exact Hmsg].
    eapply node_comp_keeps; [exact Hn|exact El|lia|done|]. auto. }
  destruct Hh as [[HLL Hk]|(Hl & HLL & Hk)].
  - apply Hsame; [|done]. destruct Hcap as [?|[Hl _]]; [done|]. apply Hk. congruence.
  - eapply comp_record; [exact HK|lia|exact HLL| |exact Hmsg]. rewrite Er in Hl. rewrite HLL.
    destruct Hk as [[Hnone El]|(e & _ & _ & He & El)].
    { rewrite Et, (nl_lead _ _ _ Hnl Hl) in Hnone. congruence. }
    destruct Hn as [Hcp Htm Hcd Hcm Hak Hhd Hmt Hsf Hci].
    apply node_comp_leader; rewrite ?Et, ?Ep, ?Em; try done.
    + apply record_eq.
    + by rewrite Er.
    + destruct Hcap as [->|[_ ?]]; done.
    + rewrite El. apply Forall_app. split; [done|]. constructor; [lia|done].
    + intros t j [Ha|(_ & -> & _)]; [by eapply Hak|lia].
    + intros k p m j H1 H2 H3. left. by eapply Hmt.
    + intros j Hj. right. auto.
    + auto.
Qed.

(** ** Votes *)

Lemma comp_request from t c j lt (out : Outbox) :
  on_request_vote s from t c j lt [] = (s', out) ->
  (forall p, p ∈ net' -> p ∈ net \/ p ∈ sent i out) -> L' = L -> comp_after.
Proof using All.
  intros Hr Hnet HLL. pose proof (cp_node _ _ _ _ _ _ _ _ Hinv i s Hi) as Hn.
  apply on_request_vote_keeps in Hr as (El & Hle & Ec & Hk & g & Hout).
  eapply (comp_plain K); [|exact Hle|exact HLL|eapply node_comp_keeps; try done; by rewrite Ec|].
  - left. split; [done|]. intros Hf. destruct (Hk Hf) as (H1 & H2 & _). split; [done|congruence].
  - intros p [?|Hp]%Hnet; [by left|right]. rewrite Hout in Hp. by apply list_elem_of_singleton in Hp as ->.
Qed.

Lemma comp_vote_reply t g :
  on_vote_reply s t g = Some s' -> (forall p, p ∈ net' -> p ∈ net) -> comp_after.
Proof using All.
  intros Hr Hnet. pose proof (cp_node _ _ _ _ _ _ _ _ Hinv i s Hi) as Hn.
  pose proof (lg_node _ _ _ _ _ Hlog i s Hi) as Hnl.
  pose proof (on_vote_reply_log _ _ _ _ Hr) as [El _]. pose proof (on_vote_reply_commit _ _ _ _ Hr) as Ec.
  assert (forall p, p ∈ net' -> p ∈ net \/ msg_comp K A p) as Hmsg by auto.
  pose proof (on_vote_reply_cases _ _ _ _ Hr) as Hc.
  assert (rn_current_term s <= rn_current_term s' /\ (rn_role s' <> Follower ->
    rn_current_term s' = rn_current_term s /\ rn_role s <> Follower)) as [Hle HK].
  { destruct Hc as [(_ & _ & [[? Hf]|(Et & _ & _ & [Er|Er])])|(Hcand & _ & (_ & _ & Et & _))];
      (split; [lia|]); intros Hne; [congruence| |congruence|]; (split; [done|congruence]). }
  assert (campaign_next K i s s' K) as HKn by by left.
  assert (node_comp L K A i s' \/ (rn_role s' = Leader /\ rn_role s = Candidate)) as [Hsame|[Hl Hcand]].
  { destruct (decide (rn_role s' = Leader)) as [Hl|Hl].
    - destruct (rn_role s) eqn:Er; [destruct (HK ltac:(congruence)); congruence|by right|left].
      destruct (on_vote_reply_quiet _ _ _ _ Hr Hl Er) as [Ep Em].
      eapply node_comp_keeps; [exact Hn|done|lia|lia|]. intros _. destruct (HK ltac:(congruence)). split_and!; try done; congruence.
    - left. destruct Hn as [Hcp Htm Hcd Hcm Hak Hhd Hmt Hsf Hci]. constructor; rewrite ?El; try done.
      + eapply Forall_impl; [exact Htm|]. cbn. lia.
      + intros t' l Ht. specialize (Hcd t' l Ht). lia.
      + intros Hc'. destruct (HK ltac:(congruence)) as [-> Hf]. apply Hcm.
        destruct Hc as [(_ & _ & [[? Hf']|(Et & _ & _ & [Er|Er])])|(Hcand & _)]; congruence.
      + intros t' j Ha. specialize (Hak t' j Ha). lia.
      + intros t' j l Ha Ho Hcl. apply Hhd with t'; try done. intros t1 c' l' Ht'. apply Hcl. lia.
      + lia. }
  - destruct Hh as [[HLL _]|(Hl & HLL & Hk)].
    + by eapply comp_plain.
    + eapply comp_record; [exact HKn|lia|exact HLL| |exact Hmsg]. rewrite HLL.
      eapply node_comp_elected; try done; [|by left]. intros k p m Hp Hm.
      destruct (rn_role s) eqn:Er; [destruct (HK ltac:(congruence)); congruence| |].
      * by apply (on_vote_reply_won _ _ _ _ k p m Hr).
      * destruct Hk as [[Hnone _]|(e & _ & _ & _ & El')].
        -- destruct (HK ltac:(congruence)) as [Et _]. rewrite Et, (nl_lead _ _ _ Hnl Er) in Hnone. congruence.
        -- rewrite El in El'. apply (f_equal length) in El'. rewrite length_app in El'. cbn in El'. lia.
  - destruct Hh as [[HLL Hk]|(_ & HLL & Hk)]; [destruct (Hk Hl); congruence|].
    eapply comp_record; [exact HKn|lia|exact HLL| |exact Hmsg]. rewrite HLL.
    eapply node_comp_elected; try done; [|by left]. intros k p m. by apply (on_vote_reply_won _ _ _ _ k p m Hr).
Qed.

(** ** Replication *)

Lemma comp_append p0 from lid term pi pt es lc (out : Outbox) :
  p0 ∈ net -> pk_msg p0 = AppendEntries term lid pi pt es lc ->
  on_append_entries s from term pi pt es lc [] = Some (s', out) ->
  (forall p, p ∈ net' -> p ∈ net \/ p ∈ sent i out) -> L' = L -> comp_after.
Proof using All.
  intros Hp0 Hm Hae Hnet HLL. pose proof (cp_node _ _ _ _ _ _ _ _ Hinv i s Hi) as Hn.
  pose proof (cp_ghost _ _ _ _ _ _ _ _ Hinv) as Hg.
  pose proof (lg_msg _ _ _ _ _ Hlog p0 Hp0) as Hb. rewrite Hm in Hb.
  destruct Hb as (Hpi & c & l & HLt & Hprev & Hes).
  eapply (on_append_entries_cases L) in Hae; try done.
  2: { intros t c' l' H. by destruct (lg_hist _ _ _ _ _ Hlog _ _ _ H) as (? & ? & _). }
  2: { apply (lg_node _ _ _ _ _ Hlog i s Hi). }
  2: { by apply (gh_cap _ _ _ _ _ Hg term c). }
  assert (forall t, out = [(from, AppendEntriesReply t false 0)] ->
    forall p, p ∈ net' -> p ∈ net \/ msg_comp K A p) as Hfail.
  { intros t Hout p [?|Hp]%Hnet; [by left|right]. rewrite Hout in Hp. by apply list_elem_of_singleton in Hp as ->. }
  destruct Hae as [(_ & Es & Hout)|(Hle & Et & Hf & [(_ & El & Ec & Hout)|(n & Hnn & _ & Hto & Ec & Hout)])].
  - eapply (comp_plain K); [|by rewrite Es|exact HLL|by rewrite Es|by eapply Hfail]. left. rewrite Es. auto.
  - eapply (comp_plain K); [|lia|exact HLL| |by eapply Hfail]; [left; by rewrite Hf|].
    eapply node_comp_keeps; [exact Hn|done|lia|lia|]. by rewrite Hf.
  - exists K, (acks_add A i (rn_current_term s') n).
    destruct (comp_move M nodes net net' B B' V' L L' K K A R i s s' n) as [R' H]; try done.
    + left. by rewrite Hf.
    + lia.
    + right. exists c, l. rewrite HLL, Et. split; [done|]. by destruct Hto as (_ & ? & _).
    + rewrite HLL, Et. eapply node_comp_append; try done. rewrite Ec. unfold last_index.
      destruct (Z.ltb_spec (rn_commit_index s) lc); lia.
    + intros p [?|Hp]%Hnet; [by left|right]. rewrite Hout in Hp. apply list_elem_of_singleton in Hp as ->.
      unfold msg_comp. cbn. intros j Hj. right. rewrite Et. split; [done|]. split; [done|lia].
    + exists R'. split; [done|]. intros v t j Ha. by left.
Qed.

Lemma comp_ae_reply p0 term ok m r :
  p0 ∈ net -> pk_msg p0 = AppendEntriesReply term ok m ->
  on_ae_reply s (pk_src p0) term ok m = Some (s', r) ->
  (forall p, p ∈ net' -> p ∈ net) -> L' = L -> comp_after.
Proof using All.
  intros Hp0 Hm Hr Hnet HLL. pose proof (cp_node _ _ _ _ _ _ _ _ Hinv i s Hi) as Hn.
  apply on_ae_reply_keeps in Hr as (El & Hle & Hci & Hk).
  eapply (comp_plain K); [|exact Hle|exact HLL| |by auto].
  { left. split; [done|]. intros Hf. destruct (Hk Hf) as (H1 & H2 & _). split; [done|congruence]. }
  destruct (decide (rn_match_index s' = rn_match_index s)) as [Em|Hne].
  { eapply node_comp_keeps; [exact Hn|done|done|lia|]. intros Hf. by destruct (Hk Hf) as (? & ? & ? & _). }
  destruct Hn as [Hcp Htm Hcd Hcm Hak Hhd Hmt Hsf Hc0]. constructor; rewrite ?El; try done; [..|lia].
  - eapply Forall_impl; [exact Htm|]. cbn. lia.
  - intros t l Ht. specialize (Hcd t l Ht). lia.
  - intros Hc. destruct (Hk ltac:(congruence)) as (-> & Er & _). apply Hcm. congruence.
  - intros t j Ha. specialize (Hak t j Ha). lia.
  - intros t j l Ha Ho Hcl. apply Hhd with t; try done. intros t' c' l' Ht'. apply Hcl. lia.
  - intros Hl k p x j Hp Hx Hj. destruct (Hk ltac:(congruence)) as (Et & Er & Ep & [?|(k0 & Hok & Htm0 & Hp1 & Em)]); [done|].
    rewrite Et. rewrite Ep in Hp. rewrite Em in Hx.
    apply list_lookup_insert_Some in Hx as [(<- & <- & _)|[Hkk Hx]].
    + rewrite Hp1 in Hp. injection Hp as <-. pose proof (cp_msg _ _ _ _ _ _ _ _ Hinv p0 Hp0) as Hc.
      unfold msg_comp in Hc. rewrite Hm, Hok, Htm0 in Hc. auto.
    + eapply Hmt; try done. congruence.
  - intros Hl. destruct (Hk ltac:(congruence)) as (-> & Er & _). apply Hsf. congruence.
Qed.

End steps.

(** ** Every step *)

(** The three invariants with their ghosts. *)
Record run_inv (M : gset NodeId) (c : cluster) (B : votes) L (A : acks) : Prop := {
  ri_votes : exists V, vote_inv M (cl_nodes c) (cl_net c) B V;
  ri_logs : log_inv M (cl_nodes c) (cl_net c) B L;
  ri_comp : exists K R, comp_inv M (cl_nodes c) (cl_net c) B L K A R;
}.

Lemma commit_nonneg M c B L A i s :
  run_inv M c B L A -> cl_nodes c !! i = Some s -> 0 <= rn_commit_index s.
Proof.
  intros Hr Hi. destruct (ri_comp _ _ _ _ _ Hr) as (K & R & Hc).
  apply (nc_commit _ _ _ _ _ (cp_node _ _ _ _ _ _ _ _ Hc i s Hi)).
Qed.

(** The invariants after a step, with nothing forgotten. *)
Definition run_after (M : gset NodeId) (c' : cluster) L (A : acks) : Prop :=
  exists B' L' A', run_inv M c' B' L' A' /\ grows L L' /\ forall v t j, A v t j -> A' v t j.

Lemma run_local M i s o s' (out : Outbox) nodes net B L A :
  run_inv M (mkCluster nodes net) B L A -> nodes !! i = Some s -> is_local o = true ->
  raft_apply s ([] : Outbox) o = Some (s', out) ->
  run_after M (mkCluster (<[i := s']> nodes) (net ++ sent i out)) L A.
Proof using HL.
  intros [[V Hv] Hl (K & R & Hc)] Hi Ho Ha. cbn [cl_nodes cl_net] in *.
  destruct (safe_local M i s o s' out nodes net B V Hv Hi Ho Ha) as (B' & V' & HB & Hcasts & Hv').
  cbn [cl_nodes cl_net] in Hv'. pose proof (lg_node _ _ _ _ _ Hl i s Hi) as Hnl.
  assert (exists L', hist_next L i s s' L' /\ log_inv M (<[i := s']> nodes) (net ++ sent i out) B' L' /\
    comp_after (M := M) (nodes := nodes) (net' := net ++ sent i out) (B' := B') (A := A) (i := i) (s' := s') (L' := L'))
    as (L' & Hh & Hl' & K' & A' & R' & Hc' & HA).
  { destruct o as [|src dst|]; [| |done]; cbn [raft_apply] in Ha.
    - pose proof (proj1 (proj2 (vi_node _ _ _ _ _ Hv i s Hi))) as Hid.
      destruct (log_inv_elect M nodes net B B' V' L i s s' out Hl HB Hi Hid Ha Hv') as (L' & Hh & Hl').
      exists L'. split; [done|]. split; [done|]. by eapply (comp_elect Hl Hc Hi Hv' HB Hcasts Hh).
    - apply bind_Some in Ha as ([[s1 t1] r] & Hp & [= <- <-]).
      destruct (log_inv_propose M nodes net B B' L i s src dst s1 t1 r Hl HB Hi Hp) as (L' & Hh & Hl').
      exists L'. split; [done|]. split; [done|]. by eapply (comp_propose Hl Hc Hi Hv' HB Hcasts Hh). }
  exists B', L', A'. split; [|split; [|done]].
  - constructor; [by exists V'|done|by exists K', R'].
  - eapply hist_next_grows; [exact Hh|apply Hnl].
Qed.

Lemma run_deliver M p s s' (out : Outbox) nodes net1 net2 B L A :
  run_inv M (mkCluster nodes (net1 ++ p :: net2)) B L A -> nodes !! pk_dst p = Some s ->
  raft_apply s ([] : Outbox) (OpStep (pk_src p) (pk_msg p)) = Some (s', out) ->
  run_after M (mkCluster (<[pk_dst p := s']> nodes) ((net1 ++ net2) ++ sent (pk_dst p) out)) L A.
Proof using HL.
  intros [[V Hv] Hl (K & R & Hc)] Hi Ha. cbn [cl_nodes cl_net] in *.
  destruct (safe_deliver M p s s' out nodes net1 net2 B V Hv Hi Ha) as (B' & V' & HB & Hcasts & Hv').
  cbn [cl_nodes cl_net] in Hv'. pose proof (lg_node _ _ _ _ _ Hl _ s Hi) as Hnl.
  assert (p ∈ net1 ++ p :: net2) as Hpin by set_solver.
  assert (forall q, q ∈ (net1 ++ net2) ++ sent (pk_dst p) out -> q ∈ net1 ++ p :: net2 \/ q ∈ sent (pk_dst p) out) as Hnet
    by set_solver.
  cbn [raft_apply] in Ha. apply bind_Some in Ha as ([[s1 t1] r] & Hst & [= <- <-]).
  destruct (log_inv_step_msg M nodes _ _ B B' V' L (pk_dst p) s (pk_src p) (pk_msg p) s1 t1 r Hl HB Hi Hnet
    (lg_msg _ _ _ _ _ Hl p Hpin) Hst Hv') as (L' & Hh & Hl').
  assert (comp_after (M := M) (nodes := nodes) (net' := (net1 ++ net2) ++ sent (pk_dst p) t1) (B' := B')
    (A := A) (i := pk_dst p) (s' := s1) (L' := L')) as (K' & A' & R' & Hc' & HA).
  { destruct (pk_msg p) as [t c j lt|t g|t lid pi pt es lc|t ok m] eqn:Hm; unfold step in Hst.
    - destruct (on_request_vote _ _ _ _ _ _ _) as [s2 t2] eqn:Hr. injection Hst as E1 E2 _. subst s2 t2.
      eapply (comp_request Hl Hc Hi Hv' HB Hcasts Hh); [exact Hr|exact Hnet|].
      eapply hist_next_same; [exact Hh|exact Hnl|]. intros Hld.
      apply on_request_vote_keeps in Hr as (El & _ & _ & Hk & _). destruct (Hk ltac:(congruence)) as (Et & Er & _).
      split; [congruence|done].
    - apply bind_Some in Hst as (s2 & Hr & [= -> <- _]).
      eapply (comp_vote_reply Hl Hc Hi Hv' HB Hcasts Hh); [exact Hr|]. cbn. set_solver.
    - apply bind_Some in Hst as ([s2 t2] & Hr & [= -> -> _]).
      eapply (comp_append Hl Hc Hi Hv' HB Hcasts Hh p); [exact Hpin|exact Hm|exact Hr|exact Hnet|].
      eapply hist_next_same; [exact Hh|exact Hnl|]. intros Hld.
      apply on_append_entries_roles in Hr as [[E _]|[? _]]; [by rewrite E in *|congruence].
    - apply bind_Some in Hst as ([s2 r2] & Hr & [= -> <- _]).
      eapply (comp_ae_reply Hl Hc Hi Hv' HB Hcasts Hh p); [exact Hpin|exact Hm|exact Hr|cbn; set_solver|].
      eapply hist_next_same; [exact Hh|exact Hnl|]. intros Hld.
      apply on_ae_reply_keeps in Hr as (El & _ & _ & Hk). destruct (Hk ltac:(congruence)) as (Et & Er & _).
      split; [congruence|done]. }
  exists B', L', A'. split; [|split; [|done]].
  - constructor; [by exists V'|done|by exists K', R'].
  - eapply hist_next_grows; [exact Hh|apply Hnl].
Qed.

Lemma run_step M c c' B L A : run_inv M c B L A -> cluster_step c c' -> run_after M c' L A.
Proof using HL.
  intros Hr Hstep.
  destruct Hstep as [i s o s' out nodes net Hi Ho Ha|p s s' out nodes net1 net2 Hp Ha|p nodes net1 net2|i nodes net].
  - by eapply run_local.
  - by eapply run_deliver.
  - exists B, L, A. split; [|split; [apply grows_refl|done]].
    destruct Hr as [[V Hv] Hl (K & R & [Hg Hn Hm Hsub Hnew])]. cbn in *. constructor; cbn.
    + exists V. eapply vote_inv_fewer; [exact Hv|]. rewrite <- (app_nil_r (net1 ++ net2)).
      apply fewer_remove; [apply (vi_src _ _ _ _ _ Hv)|]. by intros q Hq%not_elem_of_nil.
    + eapply log_inv_fewer; [exact Hl|set_solver].
    + exists K, R. constructor; try done. intros q Hq. apply Hm. set_solver.
  - exists B, L, A. split; [|split; [apply grows_refl|done]].
    destruct Hr as [[V Hv] Hl (K & R & [Hg Hn Hm Hsub Hnew])]. cbn in *. constructor; cbn.
    + exists V. by apply vote_inv_delete.
    + by apply log_inv_delete.
    + exists K, R. constructor; try done. intros v s [_ Hs]%lookup_delete_Some. by apply Hn.
Qed.

Lemma run_steps M c c' B L A : run_inv M c B L A -> rtc cluster_step c c' ->
  exists B' L' A', run_inv M c' B' L' A' /\ extends L L' /\ forall v t j, A v t j -> A' v t j.
Proof using HL.
  intros Hr Hs. revert B L A Hr. induction Hs as [c|c1 c2 c3 Hs _ IH]; intros B L A Hr.
  - exists B, L, A. split; [done|]. split; [apply extends_refl|done].
  - destruct (run_step M c1 c2 B L A Hr Hs) as (B1 & L1 & A1 & Hr1 & Hg1 & HA1).
    destruct (IH B1 L1 A1 Hr1) as (B2 & L2 & A2 & Hr2 & He2 & HA2). exists B2, L2, A2.
    split; [done|]. split; [|auto]. eapply extends_trans; [by apply grows_extends|exact He2].
Qed.

Lemma run_init M c : cluster_init M c -> exists B L A, run_inv M c B L A.
Proof using HL.
  intros Hinit. exists (fun _ _ _ => False), (fun _ => None), (fun _ _ _ => False). constructor.
  - exists (fun _ => ∅). by apply vote_inv_init.
  - by apply log_inv_init.
  - destruct Hinit as [Hnet Hn]. exists (fun _ _ => None), (fun _ _ _ => False). constructor; try done.
    + intros v s Hs. destruct (Hn v s Hs) as (_ & ps & -> & _).
      assert (entries_of (rn_log (node_new v ps)) = []) as E by (unfold entries_of; cbn; apply hv_slice_new).
      constructor; rewrite ?E; cbn; try done; lia.
    + rewrite Hnet. by intros p Hp%not_elem_of_nil.
Qed.

Lemma run_reachable M c : cluster_reachable M c -> exists B L A, run_inv M c B L A.
Proof using HL.
  intros (c0 & Hi & Hr). destruct (run_init M c0 Hi) as (B & L & A & H0).
  destruct (run_steps M c0 c B L A H0 Hr) as (B' & L' & A' & H & _). by exists B', L', A'.
Qed.

End completeness.
