(* ===== verification/Decisions.v ===== *)
(** * Decisions

    What the invariant of [Completeness.v] says of the Raft nodes of
    [src/consensus/raft.rs]: an entry that a leader has committed under its quorum rule is
    in the log of every later leader ([leader_completeness]), so the commits that [step]
    reports never conflict ([decisions_agree]).  Followers use another rule, for which this
    fails ([Divergence.v]). *)
From S2P Require Import Prelude Heapless Types Raft Cluster LogMatching Divergence Completeness.
From stdpp Require Import base tactics list numbers option strings gmap sets relations.
Open Scope Z_scope.

#[local] Arguments quorum : simpl never.

Section decisions.
Context `{HV : HVec} `{HL : !HVecLaws}.
Implicit Types (s : RaftNode) (l : list LogEntry) (L : history).

(** ** Commits *)

(** The peers whose match index reaches [n]. *)
Definition ackers (n : Z) (ps : list NodeId) (ms : list Z) : list NodeId :=
  fst <$> filter (fun x => n <= x.2) (zip ps ms).

Lemma ackers_length n ps : forall ms, length (ackers n ps ms) = length (filter (fun m => n <= m) (take (length ps) ms)).
Proof.
  unfold ackers. induction ps as [|p ps IH]; intros [|m ms]; try done. cbn [zip zip_with take length].
  rewrite !filter_cons. cbn [snd]. specialize (IH ms). by case_decide; cbn; rewrite IH.
Qed.

Lemma ackers_spec n ps ms p : p ∈ ackers n ps ms -> exists k m, ps !! k = Some p /\ ms !! k = Some m /\ n <= m.
Proof.
  unfold ackers. intros ([q m] & -> & [Hle Hin]%list_elem_of_filter)%list_elem_of_fmap.
  apply list_elem_of_lookup in Hin as [k Hk]. apply lookup_zip_Some in Hk as [H1 H2]. by exists k, m.
Qed.

Lemma ackers_sublist n ps : forall ms, ackers n ps ms `sublist_of` ps.
Proof.
  unfold ackers. induction ps as [|p ps IH]; intros [|m ms]; cbn [zip zip_with]; try apply sublist_nil_l.
  rewrite filter_cons. cbn [snd]. case_decide; cbn; [by constructor|by apply sublist_cons].
Qed.

(** What a leader may commit, a majority has acknowledged. *)
Lemma committable_chosen M c B L A i s j :
  run_inv M c B L A -> cl_nodes c !! i = Some s -> rn_role s = Leader ->
  committable s (Z.of_nat j + 1) = true ->
  owns L (rn_current_term s) j (entries_of (rn_log s)) /\ chosen M A (rn_current_term s) j.
Proof.
  intros [[V Hv] Hl (K & R & Hc)] Hi Hld Hcm. apply committable_spec in Hcm as [Hterm Hq].
  destruct (vi_node _ _ _ _ _ Hv i s Hi) as (HiM & _ & Hnd & Hset).
  pose proof (cp_node _ _ _ _ _ _ _ _ Hc i s Hi) as Hn. rewrite term_at_nat in Hterm.
  apply fmap_Some in Hterm as (e & He & Hte). split.
  { exists i, e. split; [by apply (lg_node _ _ _ _ _ Hl i s Hi)|]. auto. }
  set (ps := ackers (Z.of_nat j + 1) (hv_slice (rn_peers s)) (rn_match_index s)).
  assert (forall p, p ∈ ps -> p ∈ M ∖ {[ i ]}) as Hps.
  { intros p (k & m & Hp & _)%ackers_spec. rewrite <- Hset. apply elem_of_list_to_set. by eapply list_elem_of_lookup_2. }
  exists ({[ i ]} ∪ list_to_set ps). split; [|split].
  - apply union_subseteq. split; [by apply singleton_subseteq_l|]. intros p Hp%elem_of_list_to_set.
    specialize (Hps p Hp). set_solver.
  - rewrite size_union, size_singleton by (intros x ->%elem_of_singleton Hx%elem_of_list_to_set; specialize (Hps _ Hx); set_solver).
    rewrite size_list_to_set by (eapply sublist_NoDup; [exact Hnd|apply ackers_sublist]).
    unfold ps. rewrite ackers_length. unfold acked, n_peers, hv_len in Hq. pose proof (quorum_majority s) as Hm.
    assert (size M = S (n_peers s)) as ->; [by eapply members_peers|]. unfold n_peers, hv_len in *. lia.
  - intros v [->%elem_of_singleton|Hp%elem_of_list_to_set]%elem_of_union.
    + apply (nc_self _ _ _ _ _ Hn Hld). by apply lookup_lt_Some in He.
    + apply ackers_spec in Hp as (k & m & Hp & Hm & Hle). eapply (nc_match _ _ _ _ _ Hn Hld); [exact Hp|exact Hm|lia].
Qed.

Lemma chosen_extends M L L' A A' t j l :
  extends L L' -> (forall v t j, A v t j -> A' v t j) -> owns L t j l -> chosen M A t j ->
  (exists l', owns L' t j l' /\ take (S j) l' = take (S j) l) /\ chosen M A' t j.
Proof.
  intros He HA (c & e & Ht & Hj & Hte) (W & HW & Hm & Hall). split; [|exists W; auto].
  destruct (He _ _ _ Ht) as [k Hk]. pose proof (lookup_lt_Some _ _ _ Hj). exists (l ++ k). split.
  - exists c, e. split; [done|]. split; [by rewrite lookup_app_l by lia|done].
  - by rewrite take_app_le by lia.
Qed.

Lemma chosen_hist M c B L A t j l t' c' l' :
  run_inv M c B L A -> owns L t j l -> chosen M A t j -> L t' = Some (c', l') -> t <= t' ->
  take (S j) l' = take (S j) l.
Proof.
  intros [_ _ (K & R & Hc)] Ho Hch Ht' Hle. destruct (decide (t = t')) as [<-|Hne].
  - destruct Ho as (c0 & e & Ht & _). congruence.
  - eapply (chosen_clear M L K A R t j l t'); [apply Hc|done|done| |exact Ht']. lia.
Qed.

(** C13: Leader completeness.  If a leader may commit the entry at an index under its quorum
    rule, then in every later state of the cluster the log of every leader of the same or a
    later term holds the same entries up to that index. *)
Theorem leader_completeness M c c' i s j a sa :
  cluster_reachable M c -> cl_nodes c !! i = Some s -> rn_role s = Leader ->
  committable s (Z.of_nat j + 1) = true -> rtc cluster_step c c' ->
  cl_nodes c' !! a = Some sa -> rn_role sa = Leader -> rn_current_term s <= rn_current_term sa ->
  take (S j) (entries_of (rn_log sa)) = take (S j) (entries_of (rn_log s)).
Proof using HL.
  intros (B & L & A & Hr)%run_reachable Hi Hl Hcm Hs Ha Hla Hle.
  destruct (committable_chosen _ _ _ _ _ _ _ _ Hr Hi Hl Hcm) as [Ho Hch].
  destruct (run_steps _ _ _ _ _ _ Hr Hs) as (B' & L' & A' & Hr' & He & HA).
  destruct (chosen_extends M _ _ _ _ _ _ _ He HA Ho Hch) as [(l' & Ho' & <-) Hch'].
  eapply (chosen_hist M c' B' L' A'); try done. by apply (lg_node _ _ _ _ _ (ri_logs _ _ _ _ _ Hr') a sa Ha).
Qed.

(** The step from [c] to [c'] delivers a packet to a node, which is then in state [s'], and
    [step] reports entry [e] as committed. *)
Definition decides (c c' : cluster) s' (e : LogEntry) : Prop :=
  exists p net1 net2 s (out : Outbox), cl_net c = net1 ++ p :: net2 /\ cl_nodes c !! pk_dst p = Some s /\
    step s (pk_src p) (pk_msg p) ([] : Outbox) = Some (s', out, Some e) /\
    c' = mkCluster (<[pk_dst p := s']> (cl_nodes c)) ((net1 ++ net2) ++ sent (pk_dst p) out).

(** The log of a node up to its commit index. *)
Definition committed_log s : list LogEntry := take (Z.to_nat (rn_commit_index s)) (entries_of (rn_log s)).

Lemma decides_step c c' s' e : decides c c' s' e -> cluster_step c c'.
Proof.
  destruct c as [nodes net]. intros (p & net1 & net2 & s & out & Hnet & Hs & Hst & ->). cbn in *. subst net.
  eapply cs_deliver; [exact Hs|]. cbn. by rewrite Hst.
Qed.

Lemma decides_chosen M c c' s' e B L A :
  run_inv M c B L A -> decides c c' s' e ->
  exists B' L' A' j, run_inv M c' B' L' A' /\ extends L L' /\ (forall v t j, A v t j -> A' v t j) /\
    rn_commit_index s' = Z.of_nat (S j) /\ entries_of (rn_log s') !! j = Some e /\
    owns L' (rn_current_term s') j (entries_of (rn_log s')) /\ chosen M A' (rn_current_term s') j.
Proof using HL.
  intros Hr Hd. destruct (run_step _ _ _ _ _ _ Hr (decides_step _ _ _ _ Hd)) as (B' & L' & A' & Hr' & Hg & HA).
  destruct Hd as (p & net1 & net2 & s & out & Hnet & Hs & Hst & Hc').
  pose proof (commit_nonneg _ _ _ _ _ _ _ Hr Hs) as H0.
  destruct (commit_needs_quorum _ _ _ _ _ _ _ Hst) as (Hl & Hlt & Hget & Hte & Hq & _).
  assert (cl_nodes c' !! pk_dst p = Some s') as Hs' by (rewrite Hc'; cbn; by rewrite lookup_insert_eq).
  set (j := Z.to_nat (rn_commit_index s' - 1)).
  assert (rn_commit_index s' = Z.of_nat j + 1) as Hj by lia. rewrite Hj in *.
  assert (entries_of (rn_log s') !! j = Some e) as He by by rewrite <- log_get_nat.
  destruct (committable_chosen M c' B' L' A' (pk_dst p) s' j Hr' Hs' Hl) as [Ho Hch].
  { unfold committable. rewrite andb_true_iff, !bool_decide_eq_true, term_at_nat, He. cbn. by rewrite Hte. }
  exists B', L', A', j. split; [done|]. split; [by apply grows_extends|]. split; [done|]. split; [lia|]. done.
Qed.

(** Decisions are final.  Whenever [step] reports a committed entry, anywhere in the
    cluster, the log it commits and the log of any report that follows in the same
    execution, at whatever node and in whatever term, are prefixes of one another, and end
    with the entries reported.  Packets may be reordered, delayed and lost, and nodes may
    crash. *)
Theorem decisions_agree M c1 c2 c3 c4 s e s' e' :
  cluster_reachable M c1 -> decides c1 c2 s e -> rtc cluster_step c2 c3 -> decides c3 c4 s' e' ->
  last (committed_log s) = Some e /\ last (committed_log s') = Some e' /\
  (committed_log s `prefix_of` committed_log s' \/ committed_log s' `prefix_of` committed_log s).
Proof using HL.
  intros (B & L & A & Hr)%run_reachable Hd Hs Hd'.
  destruct (decides_chosen M c1 c2 s e B L A Hr Hd) as (B2 & L2 & A2 & j & Hr2 & _ & _ & Hj & He & Ho & Hch).
  destruct (run_steps _ _ _ _ _ _ Hr2 Hs) as (B3 & L3 & A3 & Hr3 & He3 & HA3).
  destruct (decides_chosen M c3 c4 s' e' B3 L3 A3 Hr3 Hd')
    as (B4 & L4 & A4 & j' & Hr4 & He4 & HA4 & Hj' & He' & Ho' & Hch').
  destruct (chosen_extends M _ _ _ _ _ _ _ He3 HA3 Ho Hch) as [(l3 & Ho3 & E3) Hch3].
  destruct (chosen_extends M _ _ _ _ _ _ _ He4 HA4 Ho3 Hch3) as [(l4 & Ho4 & E4) Hch4].
  unfold committed_log. rewrite Hj, Hj', !Nat2Z.id.
  split; [by rewrite (take_S_r _ _ _ He), last_snoc|]. split; [by rewrite (take_S_r _ _ _ He'), last_snoc|].
  apply (takes_prefix _ _ l4); [congruence|]. destruct (Z.le_ge_cases (rn_current_term s) (rn_current_term s')).
  - left. destruct Ho' as (c' & x & Ht' & _). symmetry. by eapply (chosen_hist M c4 B4 L4 A4).
  - right. destruct Ho4 as (c' & x & Ht & _). by eapply (chosen_hist M c4 B4 L4 A4 (rn_current_term s')).
Qed.

End decisions.

(** ** Witnesses *)

Module Witness.
#[local] Existing Instance ListModel.list_hvec.
#[local] Existing Instance ListModel.list_hvec_laws.
Import Cluster.Witness.

(** Deliver the oldest packet from [a] to [b], if its receiver then reports an entry. *)
Definition report (c : cluster) (a b : NodeId) : option (cluster * RaftNode * LogEntry) :=
  k ← oldest a b c;
  p ← cl_net c !! k;
  s ← cl_nodes c !! pk_dst p;
  '(s', out, r) ← step s (pk_src p) (pk_msg p) ([] : Outbox);
  e ← r;
  Some (mkCluster (<[pk_dst p := s']> (cl_nodes c))
          ((take k (cl_net c) ++ drop (S k) (cl_net c)) ++ sent (pk_dst p) out), s', e).

Lemma report_decides c a b c' s' e : report c a b = Some (c', s', e) -> decides c c' s' e.
Proof.
  unfold report. intros (k & _ & H)%bind_Some. apply bind_Some in H as (p & Hp & H).
  apply bind_Some in H as (s & Hs & H). apply bind_Some in H as ([[s1 out] r] & Hst & H).
  apply bind_Some in H as (e1 & -> & [= <- <- <-]).
  exists p, (take k (cl_net c)), (drop (S k) (cl_net c)), s, out.
  split; [by rewrite (take_drop_middle _ _ _ Hp)|]. done.
Qed.

(** Node 1 leads term 1 and replicates one entry to node 2, which then leads term 2 with the
    vote of node 3 and replicates a second entry to node 1. *)
Definition first : list cmd := [Elect 1; Pass 1 2; Pass 2 1; Propose 1 1 2; Pass 1 2].
Definition second : list cmd := [Elect 2; Pass 1 3; Pass 2 3; Pass 3 1; Pass 3 2; Propose 2 2 3; Pass 2 1; Pass 2 1; Pass 1 2].

Definition run1 : option (cluster * RaftNode * LogEntry) := c ← exec three first; report c 2 1.
Definition run2 : option (cluster * RaftNode * LogEntry) :=
  '(c, _, _) ← run1; c ← exec c second; report c 1 2.

Example reports :
  (fun x => (committed_log x.1.2, x.2)) <$> run1 = Some ([mkEntry 1 1 2], mkEntry 1 1 2) /\
  (fun x => (committed_log x.1.2, x.2)) <$> run2 =
    Some ([mkEntry 1 1 2; mkEntry 2 2 3], mkEntry 2 2 3).
Proof. split; vm_compute; reflexivity. Qed.

(** The two runs as one execution. *)
Lemma runs : exists c1 c2 c3 c4 s e s' e',
  cluster_reachable {[1; 2; 3]} c1 /\ decides c1 c2 s e /\ rtc cluster_step c2 c3 /\ decides c3 c4 s' e' /\
  run1 = Some (c2, s, e) /\ run2 = Some (c4, s', e').
Proof.
  destruct run2 as [[[c4 s'] e']|] eqn:H2; [|vm_compute in H2; discriminate].
  unfold run2 in H2. apply bind_Some in H2 as ([[c2 s] e] & H1 & H2). pose proof H1 as H1'.
  unfold run1 in H1. apply bind_Some in H1 as (c1 & Hc1 & Hrep1%report_decides).
  apply bind_Some in H2 as (c3 & Hc3 & Hrep2%report_decides).
  exists c1, c2, c3, c4, s, e, s', e'. split; [|split; [done|split; [by eapply exec_rtc|done]]].
  eapply exec_reachable; [|exact Hc1]. exists three. split; [exact three_init|constructor].
Qed.

Lemma decisions_agree_witness : exists c1 c2 c3 c4 s e s' e',
  decides c1 c2 s e /\ rtc cluster_step c2 c3 /\ decides c3 c4 s' e' /\ e' <> e /\
  (committed_log s `prefix_of` committed_log s' \/ committed_log s' `prefix_of` committed_log s).
Proof.
  destruct runs as (c1 & c2 & c3 & c4 & s & e & s' & e' & Hr & Hd & Hs & Hd' & R1 & R2).
  exists c1, c2, c3, c4, s, e, s', e'. split; [exact Hd|]. split; [exact Hs|]. split; [exact Hd'|]. split.
  - destruct reports as [E1 E2]. rewrite R1 in E1. rewrite R2 in E2. injection E1 as _ ->. injection E2 as _ ->. discriminate.
  - apply (decisions_agree {[1; 2; 3]} c1 c2 c3 c4 s e s' e' Hr Hd Hs Hd').
Defined.

Definition node_in (i : NodeId) (oc : option cluster) : option RaftNode := c ← oc; cl_nodes c !! i.

Definition decided : option cluster := fst ∘ fst <$> run1.
Definition succeeded : option cluster := c ← decided; exec c (take 5 second).

Definition leads (t : Z) (s : RaftNode) : bool := is_leader s && (rn_current_term s =? t).

Lemma leaders_checked :
  from_option (fun s => leads 1 s && committable s 1) false (node_in 1 decided) = true /\
  from_option (leads 2) false (node_in 2 succeeded) = true.
Proof. split; vm_compute; reflexivity. Qed.

Lemma leader_completeness_witness : exists c c' s s2,
  cluster_reachable {[1; 2; 3]} c /\ cl_nodes c !! 1 = Some s /\ rtc cluster_step c c' /\
  cl_nodes c' !! 2 = Some s2 /\ rn_role s2 = Leader /\ rn_current_term s2 = 2 /\
  take 1 (entries_of (rn_log s2)) = take 1 (entries_of (rn_log s)).
Proof.
  destruct runs as (c1 & c & _ & _ & s0 & e & _ & _ & (c0 & Hi & Hr) & Hd & _ & _ & R1 & _).
  destruct (exec c (take 5 second)) as [c'|] eqn:Hc'.
  2: { assert (succeeded = None) as Hn by (unfold succeeded, decided; rewrite R1; exact Hc'). vm_compute in Hn. discriminate. }
  assert (succeeded = Some c') as Hsucc by (unfold succeeded, decided; rewrite R1; exact Hc').
  assert (decided = Some c) as Hdec by (unfold decided; rewrite R1; reflexivity).
  assert (exists s, cl_nodes c !! 1 = Some s /\ leads 1 s = true /\ committable s 1 = true) as (s & Hs & H1 & H2).
  { pose proof leaders_checked as [Hck _]. rewrite Hdec in Hck. change (node_in 1 (Some c)) with (cl_nodes c !! 1) in Hck.
    destruct (cl_nodes c !! 1) as [s|]; [|discriminate Hck]. exists s. apply andb_true_iff in Hck as [? ?]. auto. }
  assert (exists s2, cl_nodes c' !! 2 = Some s2 /\ leads 2 s2 = true) as (s2 & Hs2 & H4).
  { pose proof leaders_checked as [_ Hck]. rewrite Hsucc in Hck. change (node_in 2 (Some c')) with (cl_nodes c' !! 2) in Hck.
    destruct (cl_nodes c' !! 2) as [s2|]; [|discriminate Hck]. exists s2. auto. }
  apply andb_true_iff in H1 as [H1%bool_decide_eq_true H3%Z.eqb_eq].
  apply andb_true_iff in H4 as [H4%bool_decide_eq_true H5%Z.eqb_eq].
  assert (cluster_reachable {[1; 2; 3]} c) as Hrc.
  { exists c0. split; [exact Hi|]. eapply rtc_r; [exact Hr|by eapply decides_step]. }
  exists c, c', s, s2. split; [exact Hrc|]. split; [exact Hs|]. split; [by eapply exec_rtc|].
  split; [exact Hs2|]. split; [exact H4|]. split; [exact H5|].
  exact (leader_completeness {[1; 2; 3]} c c' 1 s 0 2 s2 Hrc Hs H1 H2 (exec_rtc _ _ _ Hc') Hs2 H4 ltac:(lia)).
Defined.

End Witness.
