(* ===== verification/StateMachine.v ===== *)
(** * State machine safety

    When do the nodes of [src/consensus/raft.rs] agree on what they have committed?  Not in
    every execution ([Divergence.v]).  A follower takes over the leader's commit index
    without looking at how far the message matches its log, so all depends on the messages:
    if none of them announces a commit index beyond the entries it covers, no two nodes
    ever commit different entries at the same index ([state_machine_safety]).

    A message holds sixteen entries, so this is the case as long as no log grows beyond
    sixteen entries ([small_logs_agree]); the execution of [Divergence.v] uses eighteen and
    more. *)
From S2P Require Import Prelude Heapless Types Raft RaftSafety Cluster LogMatching Divergence Completeness Decisions.
From stdpp Require Import base tactics list numbers option strings gmap sets relations.
Open Scope Z_scope.

#[local] Arguments quorum : simpl never.

Section machine.
Context `{HV : HVec} `{HL : !HVecLaws}.
Implicit Types (s : RaftNode) (l : list LogEntry) (L : history).

(** ** Settled entries *)

(** The first [n] entries of [l0] are those of a leader of a term up to [u], which a
    majority has acknowledged. *)
Definition settled (M : gset NodeId) L (A : acks) (u n : Z) (l0 : list LogEntry) : Prop :=
  n <= 0 \/ exists t j l, t <= u /\ owns L t j l /\ chosen M A t j /\ n <= Z.of_nat (S j) /\
    take (Z.to_nat n) l0 = take (Z.to_nat n) l.

Lemma settled_length M L A u n l0 : settled M L A u n l0 -> n <= Z.of_nat (length l0).
Proof.
  intros [?|(t & j & l & _ & (c & e & _ & Hj%lookup_lt_Some & _) & _ & Hn & E)]; [lia|].
  symmetry in E. apply take_eq_length in E; lia.
Qed.

Lemma settled_mono M L L' A A' u u' n l0 l1 :
  extends L L' -> (forall v t j, A v t j -> A' v t j) -> u <= u' ->
  take (Z.to_nat n) l1 = take (Z.to_nat n) l0 -> settled M L A u n l0 -> settled M L' A' u' n l1.
Proof.
  intros He HA Hu E [?|(t & j & l & Ht & Ho & Hch & Hn & E')]; [by left|right].
  destruct (chosen_extends M L L' A A' t j l He HA Ho Hch) as [(l' & Ho' & El) Hch'].
  exists t, j, l'. split; [lia|]. split; [done|]. split; [done|]. split; [done|].
  rewrite E, E'. symmetry. eapply take_le_eq; [exact El|lia].
Qed.

Lemma settled_prefix M L L' A A' u u' n l0 l1 :
  extends L L' -> (forall v t j, A v t j -> A' v t j) -> u <= u' ->
  l0 `prefix_of` l1 -> settled M L A u n l0 -> settled M L' A' u' n l1.
Proof.
  intros He HA Hu [k ->] Hs. eapply settled_mono; [exact He|exact HA|exact Hu| |exact Hs].
  apply settled_length in Hs. rewrite take_app_le by lia. done.
Qed.

(** What is settled by term [u] is in the log of every leader from [u] on. *)
Lemma settled_lead M c B L A u n l0 t' c' l' :
  run_inv M c B L A -> settled M L A u n l0 -> L t' = Some (c', l') -> u <= t' ->
  take (Z.to_nat n) l' = take (Z.to_nat n) l0.
Proof.
  intros Hr [?|(t & j & l & Ht & Ho & Hch & Hn & ->)] HLt Hu; [by replace (Z.to_nat n) with 0%nat by lia|].
  eapply take_le_eq; [eapply (chosen_hist M c B L A t j l t'); try done; lia|lia].
Qed.

(** Two nodes with settled logs agree where both reach. *)
Lemma settled_agree M c B L A u u' n n' l0 l0' k :
  run_inv M c B L A -> settled M L A u n l0 -> settled M L A u' n' l0' ->
  Z.of_nat k < n -> Z.of_nat k < n' -> l0 !! k = l0' !! k.
Proof.
  intros Hr [?|(t & j & l & _ & Ho & Hch & Hn & E)] [?|(t' & j' & l' & _ & Ho' & Hch' & Hn' & E')] Hk Hk'; try lia.
  rewrite (take_prefix_elem _ _ _ k E), (take_prefix_elem _ _ _ k E') by lia.
  destruct (Z.le_ge_cases t t').
  - symmetry. destruct Ho' as (c' & e & HLt & _).
    apply (take_prefix_elem (S j)); [by eapply (chosen_hist M c B L A t j l t')|lia].
  - destruct Ho as (c' & e & HLt & _).
    apply (take_prefix_elem (S j')); [by eapply (chosen_hist M c B L A t' j' l' t)|lia].
Qed.

(** ** Commits and messages of one node *)

(** How a commit index moves: not at all, by the rule of leaders, or by that of followers. *)
Definition commit_move s (o : raft_op) s' : Prop :=
  (rn_commit_index s' = rn_commit_index s /\ entries_of (rn_log s) `prefix_of` entries_of (rn_log s')) \/
  (rn_role s' = Leader /\ 0 < rn_commit_index s' /\ committable s' (rn_commit_index s') = true) \/
  (exists from term lid pi pt es lc (out : Outbox), o = OpStep from (AppendEntries term lid pi pt es lc) /\
     on_append_entries s from term pi pt es lc [] = Some (s', out)).

Lemma on_ae_reply_commit s from term ok m s' r :
  on_ae_reply s from term ok m = Some (s', r) ->
  rn_commit_index s' = rn_commit_index s \/
  (rn_role s' = Leader /\ rn_commit_index s < rn_commit_index s' /\ committable s' (rn_commit_index s') = true).
Proof.
  unfold on_ae_reply. destruct (_ <? _); [intros [= <- _]; by left|].
  destruct (_ || _) eqn:Ho; [intros [= <- _]; by left|]. apply orb_false_iff in Ho as [Ho%negb_false_iff%bool_decide_eq_true _].
  destruct (peer_index s from) as [k|]; [|intros [= <- _]; by left]. intros (s1 & Hs1 & H2)%bind_Some.
  assert (rn_role s1 = Leader /\ rn_commit_index s1 = rn_commit_index s) as [Hl <-].
  { destruct ok; [apply bind_Some in Hs1 as (x & _ & [= <-]); done|]. injection Hs1 as <-. by destruct (1 <? _). }
  destruct ok; [|injection H2 as <- _; by left].
  destruct (advance_commit_index s1) as [[s2 b]|] eqn:Ha; [|done]. injection H2 as <- _.
  apply advance_commit_fields in Ha as (n & -> & Hle & _ & Hn). cbn.
  destruct (decide (rn_commit_index s1 = n)) as [|Hne]; [by left|right]. destruct (Hn ltac:(lia)). split; [done|]. split; [lia|done].
Qed.

(** Without peers the proposer alone is a quorum. *)
Lemma propose_commit s src dst s' (out : Outbox) r :
  propose s src dst [] = Some (s', out, r) -> commit_move s (OpPropose src dst) s'.
Proof using HL.
  unfold propose. destruct (is_leader s) eqn:Hl; cbn [negb]; [|intros [= <- _ _]; by left].
  apply bool_decide_eq_true in Hl. set (e := {| le_term := _ |}).
  destruct (log_append (rn_log s) e) as [lg [|]] eqn:Ha; cbn [negb]; [|intros [= <- _ _]; by left].
  apply log_append_ok in Ha as [Hlg _].
  case_decide as Hp.
  - intros [= <- _ _]. right; left. cbn [rn_commit_index set_commit set_log rn_role].
    assert (last_index lg = Z.of_nat (length (entries_of (rn_log s))) + 1) as ->.
    { rewrite last_index_entries, Hlg, length_app. cbn. lia. }
    split; [done|]. split; [lia|]. unfold committable. rewrite andb_true_iff, !bool_decide_eq_true.
    cbn [rn_log set_commit set_log rn_current_term]. rewrite term_at_nat, Hlg, lookup_app_r, Nat.sub_diag by lia.
    split; [done|]. unfold quorum, acked, n_peers in *. cbn in *. rewrite Hp. cbn. lia.
  - intros (t1 & _ & [= <- _ _])%bind_Some. left. split; [done|]. cbn. rewrite Hlg. by exists [e].
Qed.

Lemma apply_commit s o s' (out : Outbox) :
  0 <= rn_commit_index s -> raft_apply s [] o = Some (s', out) -> commit_move s o s'.
Proof using HL.
  intros H0. destruct o as [|src dst|from [t c j lt|t g|t lid pi pt es lc|t ok m]]; cbn [raft_apply].
  - intros (_ & _ & El & Ec & _)%start_election_fields. left. by rewrite El.
  - intros ([[s1 t1] r] & Hp & [= <- _])%bind_Some. by eapply propose_commit.
  - intros ([[s1 t1] r] & Hst & [= <- _])%bind_Some. unfold step in Hst.
    destruct (on_request_vote _ _ _ _ _ _ _) as [s2 t2] eqn:Hr. injection Hst as <- _ _.
    apply on_request_vote_keeps in Hr as (El & _ & Ec & _). left. by rewrite El.
  - intros ([[s1 t1] r] & (s2 & Hr & [= <- _ _])%bind_Some & [= <- _])%bind_Some.
    left. pose proof (on_vote_reply_log _ _ _ _ Hr) as [El _]. rewrite El. split; [by eapply on_vote_reply_commit|done].
  - intros ([[s1 t1] r] & ([s2 t2] & Hr & [= <- _ _])%bind_Some & [= <- _])%bind_Some.
    right; right. by eexists _, _, _, _, _, _, _, _.
  - intros ([[s1 t1] r] & ([s2 r2] & Hr & [= <- _ _])%bind_Some & [= <- _])%bind_Some.
    pose proof (on_ae_reply_keeps _ _ _ _ _ _ _ Hr) as (El & _).
    destruct (on_ae_reply_commit _ _ _ _ _ _ _ Hr) as [?|(? & ? & ?)]; [left; by rewrite El|right; left].
    split; [done|]. split; [lia|done].
Qed.

(** Only leaders send [AppendEntries], with their term, their commit index, and the piece of
    their log that [gather] collects. *)
Definition from_leader s (m : RaftMessage) : Prop :=
  match m with
  | AppendEntries t _ pi _ es lc =>
      rn_role s = Leader /\ t = rn_current_term s /\ lc = rn_commit_index s /\
      exists k, (k < n_peers s)%nat /\ pi = saturating_sub_u64 (default 0 (rn_next_index s !! k)) 1 /\
        gather (S AE_CAP) (rn_log s) hv_new (default 0 (rn_next_index s !! k)) = Some es
  | _ => True
  end.

Lemma broadcast_from s ks : forall t t' : Outbox,
  rn_role s = Leader -> foldl (fun ot i => t ← ot; send_ae_to s i t) (Some t) ks = Some t' ->
  forall x, x ∈ t' -> x ∈ t \/ from_leader s x.2.
Proof.
  induction ks as [|k ks IH]; intros t t' Hl; cbn [foldl]; [intros [= <-]; by left|].
  cbn [mbind option_bind]. destruct (send_ae_to s k t) as [t1|] eqn:Hs.
  - intros H x Hx. destruct (IH _ _ Hl H x Hx) as [Hx1|]; [|by right]. unfold send_ae_to in Hs.
    destruct (_ !! k) as [peer|] eqn:Hk; [|injection Hs as <-; by left].
    apply bind_Some in Hs as (es & Hg & [= <-]). cbn [rt_send outbox_transport] in Hx1.
    apply elem_of_app in Hx1 as [?| ->%list_elem_of_singleton]; [by left|right].
    split; [done|]. split; [done|]. split; [done|]. exists k. split; [by apply lookup_lt_Some in Hk|done].
  - intros H. exfalso. clear -H. induction ks as [|j ks IH]; [done|]. by apply IH.
Qed.

Lemma apply_sends s o s' (out : Outbox) :
  raft_apply s [] o = Some (s', out) -> forall x, x ∈ out -> from_leader s' x.2.
Proof.
  assert (forall x : NodeId * RaftMessage, x ∈ [] -> from_leader s' x.2) as Hnil by by intros x Hx%not_elem_of_nil.
  destruct o as [|src dst|from [t c j lt|t g|t lid pi pt es lc|t ok m]]; cbn [raft_apply].
  - unfold start_election. intros (term & _ & H)%bind_Some. case_decide; [apply bind_Some in H as (s1 & _ & [= _ <-]); exact Hnil|].
    injection H as _ <-. rewrite foldl_send. cbn. by intros x (y & -> & _)%list_elem_of_fmap.
  - intros ([[s1 t1] r] & Hp & [= <- <-])%bind_Some. unfold propose in Hp.
    destruct (is_leader s) eqn:Hl; cbn [negb] in Hp; [|injection Hp as _ <- _; exact Hnil].
    apply bool_decide_eq_true in Hl. destruct (log_append _ _) as [lg [|]]; cbn [negb] in Hp; [|injection Hp as _ <- _; exact Hnil].
    case_decide; [injection Hp as _ <- _; exact Hnil|]. apply bind_Some in Hp as (t2 & Hb & [= <- <- _]).
    unfold broadcast_ae in Hb. intros x Hx.
    destruct (broadcast_from (set_log s lg) _ _ _ Hl Hb x Hx) as [[]%not_elem_of_nil|Hx']; exact Hx'.
  - intros ([[s1 t1] r] & Hst & [= _ <-])%bind_Some. unfold step in Hst.
    destruct (on_request_vote _ _ _ _ _ _ _) as [s2 t2] eqn:Hr. injection Hst as _ <- _.
    apply on_request_vote_keeps in Hr as (_ & _ & _ & _ & g & ->). by intros x ->%list_elem_of_singleton.
  - intros ([[s1 t1] r] & (s2 & Hr & [= _ <- _])%bind_Some & [= _ <-])%bind_Some. exact Hnil.
  - intros ([[s1 t1] r] & ([s2 t2] & Hr & [= _ <- _])%bind_Some & [= _ <-])%bind_Some.
    unfold on_append_entries in Hr. destruct (_ <? _); [injection Hr as _ <-; by intros x ->%list_elem_of_singleton|].
    destruct (negb _); [injection Hr as _ <-; by intros x ->%list_elem_of_singleton|].
    apply bind_Some in Hr as ([s3 m3] & _ & [= _ <-]). by intros x ->%list_elem_of_singleton.
  - intros ([[s1 t1] r] & ([s2 r2] & Hr & [= _ <- _])%bind_Some & [= _ <-])%bind_Some. exact Hnil.
Qed.

(** ** The invariant *)

(** The message matches all the entries it announces as committed. *)
Definition covers (m : RaftMessage) : Prop :=
  match m with
  | AppendEntries _ _ pi _ es lc => lc <= pi + Z.of_nat (length (hv_slice es))
  | _ => True
  end.

#[global] Instance covers_dec m : Decision (covers m).
Proof. destruct m; cbn; apply _. Defined.

Definition covered (c : cluster) : Prop := Forall (fun p => covers (pk_msg p)) (cl_net c).

Definition msg_settled (M : gset NodeId) L (A : acks) (m : RaftMessage) : Prop :=
  match m with
  | AppendEntries t _ _ _ _ lc => exists c l, L t = Some (c, l) /\ settled M L A t lc l
  | _ => True
  end.

Definition node_settled (M : gset NodeId) L (A : acks) s : Prop :=
  settled M L A (rn_current_term s) (rn_commit_index s) (entries_of (rn_log s)).

Record settled_inv (M : gset NodeId) (c : cluster) L (A : acks) : Prop := {
  si_node : forall i s, cl_nodes c !! i = Some s -> node_settled M L A s;
  si_msg : forall p, p ∈ cl_net c -> msg_settled M L A (pk_msg p);
}.

Lemma msg_settled_mono M L L' A A' m :
  extends L L' -> (forall v t j, A v t j -> A' v t j) -> msg_settled M L A m -> msg_settled M L' A' m.
Proof.
  intros He HA. destruct m as [| |t lid pi pt es lc|]; try done. intros (c & l & HLt & Hs).
  destruct (He _ _ _ HLt) as [k Hk]. exists c, (l ++ k). split; [done|].
  eapply settled_prefix; [exact He|exact HA| | |exact Hs]; [lia|]. by exists k.
Qed.

(** A step of the cluster loses nodes or packets, or is an operation of one node. *)
Definition operates (c c' : cluster) (i : NodeId) s (o : raft_op) s' (out : Outbox) : Prop :=
  cl_nodes c !! i = Some s /\ raft_apply s [] o = Some (s', out) /\ cl_nodes c' = <[i := s']> (cl_nodes c) /\
  (forall p, p ∈ cl_net c' -> p ∈ cl_net c \/ p ∈ sent i out) /\
  (forall from m, o = OpStep from m -> exists p, p ∈ cl_net c /\ pk_msg p = m).

Lemma operates_local i s o s' (out : Outbox) nodes net :
  nodes !! i = Some s -> is_local o = true -> raft_apply s [] o = Some (s', out) ->
  operates (mkCluster nodes net) (mkCluster (<[i := s']> nodes) (net ++ sent i out)) i s o s' out.
Proof.
  intros Hi Ho Ha. split; [done|]. split; [done|]. split; [done|]. split; [cbn; set_solver|]. by intros from m ->.
Qed.

Lemma operates_deliver p s s' (out : Outbox) nodes net1 net2 :
  nodes !! pk_dst p = Some s -> raft_apply s [] (OpStep (pk_src p) (pk_msg p)) = Some (s', out) ->
  operates (mkCluster nodes (net1 ++ p :: net2)) (mkCluster (<[pk_dst p := s']> nodes) ((net1 ++ net2) ++ sent (pk_dst p) out))
    (pk_dst p) s (OpStep (pk_src p) (pk_msg p)) s' out.
Proof.
  intros Hi Ha. split; [done|]. split; [done|]. split; [done|]. split; [cbn; set_solver|].
  intros from m [= _ <-]. exists p. split; [cbn; set_solver|done].
Qed.

Lemma cluster_step_view c c' : cluster_step c c' ->
  (cl_nodes c' ⊆ cl_nodes c /\ forall p, p ∈ cl_net c' -> p ∈ cl_net c) \/
  exists i s o s' out, operates c c' i s o s' out.
Proof.
  intros [i s o s' out nodes net Hi Ho Ha|p s s' out nodes net1 net2 Hi Ha|p nodes net1 net2|i nodes net].
  - right. eexists _, _, _, _, _. by apply operates_local.
  - right. eexists _, _, _, _, _. by apply operates_deliver.
  - left. split; [done|]. cbn. set_solver.
  - left. split; [apply delete_subseteq|done].
Qed.

(** One step of the cluster, seen from the invariants before and after it. *)
Section step.
Context (M : gset NodeId) (c c' : cluster) (B B' : votes) (L L' : history) (A A' : acks).
Context (Hr : run_inv M c B L A) (Hr' : run_inv M c' B' L' A').
Context (He : extends L L') (HA : forall v t j, A v t j -> A' v t j).

(** A follower takes over entries and the commit index: what it had committed is in the
    leader's log, and so is what it commits now. *)
Lemma settle_append i s from term lid pi pt es lc s' (out : Outbox) :
  cl_nodes c !! i = Some s -> node_settled M L A s -> backed L (AppendEntries term lid pi pt es lc) ->
  msg_settled M L A (AppendEntries term lid pi pt es lc) -> covers (AppendEntries term lid pi pt es lc) ->
  on_append_entries s from term pi pt es lc [] = Some (s', out) -> node_settled M L' A' s'.
Proof using All.
  clear Hr'. intros Hi Hs (Hpi & x & l & HLt & Hprev & Hes) (x' & l' & HLt' & Hm) Hcov Hae.
  rewrite HLt in HLt'. injection HLt' as <- <-. cbn in Hcov.
  eapply (on_append_entries_cases L) in Hae; try done.
  2: { intros t y k H. by destruct (lg_hist _ _ _ _ _ (ri_logs _ _ _ _ _ Hr) _ _ _ H) as (? & ? & _). }
  2: { apply (lg_node _ _ _ _ _ (ri_logs _ _ _ _ _ Hr) i s Hi). }
  2: { destruct (ri_comp _ _ _ _ _ Hr) as (K & R & Hc). by apply (gh_cap _ _ _ _ _ (cp_ghost _ _ _ _ _ _ _ _ Hc) term x). }
  destruct Hae as [(_ & -> & _)|(Hle & Et & _ & [(_ & El & Ec & _)|(n & Hn & _ & Hto & Ec & _)])]; unfold node_settled.
  - eapply settled_mono; [exact He|exact HA| | |exact Hs]; [lia|done].
  - rewrite El, Ec. eapply settled_mono; [exact He|exact HA| | |exact Hs]; [lia|done].
  - destruct (Z.ltb_spec (rn_commit_index s) lc) as [Hlt|_].
    + destruct Hto as (Ht & Hnl & _). pose proof Ht as Hlen. symmetry in Hlen. apply take_eq_length in Hlen; [|done].
      rewrite Ec, last_index_entries, Z.min_l by lia. rewrite Et.
      eapply settled_mono; [exact He|exact HA|reflexivity| |exact Hm]. eapply take_le_eq; [exact Ht|lia].
    + rewrite Ec, Et. eapply settled_mono; [exact He|exact HA|exact Hle| |exact Hs].
      pose proof (settled_lead _ _ _ _ _ _ _ _ _ _ _ Hr Hs HLt Hle) as Hk.
      destruct (Z.to_nat (rn_commit_index s)) as [|j]; [done|].
      eapply taken_over_keeps; [exact Hto|done|exact Hk].
Qed.

(** What a leader commits by its own rule is settled. *)
Lemma settle_lead i s :
  cl_nodes c' !! i = Some s -> rn_role s = Leader -> 0 < rn_commit_index s ->
  committable s (rn_commit_index s) = true -> node_settled M L' A' s.
Proof using Hr' HL.
  intros Hi Hl H0 Hc. right.
  replace (rn_commit_index s) with (Z.of_nat (Z.to_nat (rn_commit_index s - 1)) + 1) in Hc by lia.
  destruct (committable_chosen M c' B' L' A' i s _ Hr' Hi Hl Hc) as [Ho Hch].
  eexists _, _, _. split; [|split; [exact Ho|split; [exact Hch|]]]; [lia|]. split; [lia|done].
Qed.

Lemma settle_node i s o s' (out : Outbox) :
  cl_nodes c !! i = Some s -> cl_nodes c' !! i = Some s' -> raft_apply s [] o = Some (s', out) ->
  node_settled M L A s ->
  (forall from m, o = OpStep from m -> backed L m /\ msg_settled M L A m /\ covers m) ->
  node_settled M L' A' s'.
Proof using All.
  intros Hi Hi' Ha Hs Hm. pose proof (commit_nonneg _ _ _ _ _ _ _ Hr Hi) as H0.
  pose proof (raft_apply_later _ _ _ _ _ Ha) as [Hle _].
  destruct (apply_commit _ _ _ _ H0 Ha) as [[Ec Hp]|[(Hl & Hpos & Hcm)|(from & term & lid & pi & pt & es & lc & t & -> & Hae)]].
  - unfold node_settled. rewrite Ec. by eapply settled_prefix.
  - by eapply settle_lead.
  - destruct (Hm _ _ eq_refl) as (Hb & Hms & Hcov). by eapply settle_append.
Qed.

(** A message of a leader announces what the leader has committed. *)
Lemma settle_sent i s m :
  cl_nodes c' !! i = Some s -> node_settled M L' A' s -> from_leader s m -> msg_settled M L' A' m.
Proof using Hr' HL.
  intros Hi Hs. destruct m as [| |t lid pi pt es lc|]; try done.
  intros (Hl & -> & -> & _). exists i, (entries_of (rn_log s)). split; [|exact Hs].
  by apply (lg_node _ _ _ _ _ (ri_logs _ _ _ _ _ Hr') i s Hi).
Qed.

Lemma settle_step : settled_inv M c L A -> covered c -> cluster_step c c' -> settled_inv M c' L' A'.
Proof using All.
  intros [Hn Hm] Hcov Hstep. unfold covered in Hcov. rewrite Forall_forall in Hcov.
  assert (forall i s, cl_nodes c !! i = Some s -> node_settled M L' A' s) as Hn'.
  { intros i s Hi. eapply settled_mono; [exact He|exact HA|reflexivity|done|by apply (Hn i)]. }
  assert (forall p, p ∈ cl_net c -> msg_settled M L' A' (pk_msg p)) as Hm'.
  { intros p Hp. eapply msg_settled_mono; [exact He|exact HA|by apply Hm]. }
  destruct (cluster_step_view c c' Hstep) as [[Hsub Hnet]|(i & s & o & s' & out & Hi & Ha & Ec & Hnet & Hmsg)].
  { constructor; [|by auto]. intros i s Hi. apply (Hn' i). by eapply lookup_weaken. }
  assert (cl_nodes c' !! i = Some s') as Hi' by (rewrite Ec; by rewrite lookup_insert_eq).
  assert (node_settled M L' A' s') as Hs'.
  { eapply settle_node; [exact Hi|exact Hi'|exact Ha|by apply (Hn i)|].
    intros from m Ho. destruct (Hmsg from m Ho) as (p & Hp & <-). split; [|split; [by apply Hm|by apply Hcov]].
    by apply (lg_msg _ _ _ _ _ (ri_logs _ _ _ _ _ Hr)). }
  constructor.
  - rewrite Ec. intros j sj [[<- <-]|[_ Hj]]%lookup_insert_Some; [done|by apply (Hn' j)].
  - intros p [Hp|([q m] & -> & Hx)%list_elem_of_fmap]%Hnet; [by apply Hm'|].
    eapply settle_sent; [exact Hi'|exact Hs'|]. exact (apply_sends _ _ _ _ Ha _ Hx).
Qed.

End step.

(** ** Executions *)

(** A step into a state where [P] holds. *)
Definition within (P : cluster -> Prop) (c c' : cluster) : Prop := cluster_step c c' /\ P c'.

Lemma init_settled M c : cluster_init M c -> covered c /\ forall L A, settled_inv M c L A.
Proof.
  intros [Hnet Hn]. unfold covered. rewrite Hnet. split; [constructor|]. intros L A. constructor.
  - intros i s Hi. destruct (Hn i s Hi) as (_ & ps & -> & _). left. cbn. lia.
  - rewrite Hnet. by intros p Hp%not_elem_of_nil.
Qed.

Lemma covered_steps M c c' B L A :
  rtc (within covered) c c' -> run_inv M c B L A -> settled_inv M c L A -> covered c ->
  exists B' L' A', run_inv M c' B' L' A' /\ settled_inv M c' L' A' /\ covered c' /\
    extends L L' /\ forall v t j, A v t j -> A' v t j.
Proof using HL.
  intros Hs. revert B L A. induction Hs as [c|c1 c2 c3 [Hs Hc2] _ IH]; intros B L A Hr Hi Hc.
  - exists B, L, A. split_and!; try done. apply extends_refl.
  - destruct (run_step M c1 c2 B L A Hr Hs) as (B1 & L1 & A1 & Hr1 & Hg1 & HA1). apply grows_extends in Hg1.
    destruct (IH B1 L1 A1 Hr1) as (B2 & L2 & A2 & Hr2 & Hi2 & Hc3 & He2 & HA2); [eapply (settle_step M c1 c2 B B1 L L1 A A1); done|done|].
    exists B2, L2, A2. split_and!; try done; [|by auto]. by eapply extends_trans.
Qed.

Lemma committed_spec c i k e :
  committed c i k = Some e -> exists s, cl_nodes c !! i = Some s /\ Z.of_nat k < rn_commit_index s /\
    entries_of (rn_log s) !! k = Some e.
Proof.
  unfold committed. intros (s & Hs & H)%bind_Some. destruct (Z.ltb_spec (Z.of_nat k) (rn_commit_index s)); [|done].
  by exists s.
Qed.

Lemma committed_agree M c c' B L A a b k ea eb :
  run_inv M c B L A -> settled_inv M c L A -> covered c -> rtc (within covered) c c' ->
  committed c a k = Some ea -> committed c' b k = Some eb -> ea = eb.
Proof using HL.
  intros Hr Hs Hc Hst (sa & Ha & Hka & Hea)%committed_spec (sb & Hb & Hkb & Heb)%committed_spec.
  destruct (covered_steps M c c' B L A Hst Hr Hs Hc) as (B' & L' & A' & Hr' & Hs' & _ & He & HA).
  apply (inj Some). rewrite <- Hea, <- Heb.
  eapply (settled_agree M c' B' L' A' (rn_current_term sa) (rn_current_term sb)); [done| | |exact Hka|exact Hkb].
  - eapply settled_mono; [exact He|exact HA|reflexivity|done|by apply (si_node _ _ _ _ Hs a)].
  - by apply (si_node _ _ _ _ Hs' b).
Qed.

(** State machine safety, of executions in which no message announces a commit index
    beyond the entries it carries: if a node has committed an entry at some index, then
    whatever any node has committed at that index in any later state is the same entry.
    With the two nodes equal, committed entries are never changed. *)
Theorem state_machine_safety M c0 c c' a b k ea eb :
  cluster_init M c0 -> rtc (within covered) c0 c -> rtc (within covered) c c' ->
  committed c a k = Some ea -> committed c' b k = Some eb -> ea = eb.
Proof using HL.
  intros Hi H1 H2. destruct (run_init M c0 Hi) as (B & L & A & Hr). destruct (init_settled M c0 Hi) as [Hc Hs].
  destruct (covered_steps M c0 c B L A H1 Hr (Hs L A) Hc) as (B1 & L1 & A1 & Hr1 & Hs1 & Hc1 & _).
  by apply (committed_agree M c c' B1 L1 A1).
Qed.

(** ** Small logs *)

Definition small (c : cluster) : Prop :=
  map_Forall (fun _ s => (length (entries_of (rn_log s)) <= AE_CAP)%nat) (cl_nodes c).

(** [gather] collects what fits of the log from its start index. *)
Lemma gather_take fuel : forall (lg : RaftLog) (v es : hvec AE_CAP LogEntry) (k : nat),
  (AE_CAP - hv_len v < fuel)%nat -> gather fuel lg v (Z.of_nat k + 1) = Some es ->
  hv_slice es = hv_slice v ++ take (AE_CAP - hv_len v) (drop k (entries_of lg)).
Proof using HL.
  induction fuel as [|fuel IH]; intros lg v es k Hf; [lia|]. cbn [gather].
  rewrite log_get_nat. destruct (entries_of lg !! k) as [e|] eqn:He.
  - destruct (hv_push v e) as [w|] eqn:Hw.
    + apply hv_push_Some in Hw as [Hw Hroom]. fold (hv_len v) in Hroom.
      intros (i & [_ ->]%add_u64_Some & H)%bind_Some.
      replace (Z.of_nat k + 1 + 1) with (Z.of_nat (S k) + 1) in H by lia.
      assert (hv_len w = S (hv_len v)) as Hl by (unfold hv_len; rewrite Hw, length_app; cbn; lia).
      rewrite (IH lg w es (S k)), Hw, Hl, <- app_assoc, (drop_S _ _ _ He) by (done || lia).
      by replace (AE_CAP - hv_len v)%nat with (S (AE_CAP - S (hv_len v))) by lia.
    + intros [= <-]. destruct (decide (hv_len v < AE_CAP)%nat) as [Hr|Hr].
      * destruct (hv_push_room _ _ v e Hr) as (w & Hw' & _). congruence.
      * replace (AE_CAP - hv_len v)%nat with 0%nat by lia. by rewrite take_0, app_nil_r.
  - intros [= <-]. apply lookup_ge_None in He. by rewrite drop_ge, take_nil, app_nil_r by lia.
Qed.

(** There are a next index and a match index for every peer, and all next indices are
    positive. *)
Definition progress_wf s : Prop :=
  Forall (Z.le 1) (rn_next_index s) /\ (n_peers s <= length (rn_next_index s))%nat /\
  (n_peers s <= length (rn_match_index s))%nat.

(** A leader whose log fits into a message covers its commit index. *)
Lemma small_covers s m :
  progress_wf s -> (length (entries_of (rn_log s)) <= AE_CAP)%nat ->
  rn_commit_index s <= Z.of_nat (length (entries_of (rn_log s))) -> from_leader s m -> covers m.
Proof using HL.
  intros (Hn & Hp & _) Hlen Hc. destruct m as [| |t lid pi pt es lc|]; try done. intros (_ & _ & -> & k & Hk & -> & Hg).
  destruct (lookup_lt_is_Some_2 (rn_next_index s) k ltac:(lia)) as [n Hx]. rewrite Hx in *. cbn [default] in *.
  pose proof (Forall_lookup_1 _ _ _ _ Hn Hx) as H1. change (default 0 (Some n)) with n in *. cbn in H1.
  replace n with (Z.of_nat (Z.to_nat (n - 1)) + 1) in Hg by lia.
  apply gather_take in Hg; [|lia]. unfold hv_len in Hg. rewrite hv_slice_new in Hg. cbn [app length] in Hg.
  rewrite take_ge in Hg by (rewrite length_drop; lia). cbn. rewrite Hg, length_drop. unfold saturating_sub_u64. lia.
Qed.

(** *** The next indices stay positive *)

Lemma progress_wf_keeps s s' :
  rn_peers s' = rn_peers s -> rn_next_index s' = rn_next_index s ->
  rn_match_index s' = rn_match_index s -> progress_wf s -> progress_wf s'.
Proof. unfold progress_wf, n_peers. by intros -> -> ->. Qed.

Lemma set_progress_wf s k n mt :
  progress_wf s -> 1 <= n -> length mt = length (rn_match_index s) ->
  progress_wf (set_progress s (<[k := n]> (rn_next_index s)) mt).
Proof. intros (Hn & Hp & Hm) H1 Hl. split_and!; cbn; [by apply Forall_insert| |]; by rewrite ?length_insert, ?Hl. Qed.

Lemma become_leader_progress s s' : progress_wf s -> become_leader s = Some s' -> progress_wf s'.
Proof.
  intros Hs. unfold become_leader. intros (next & [_ En]%add_u64_Some & [= <-])%bind_Some.
  assert (1 <= next) as Hn by (unfold last_index in En; lia). clear En.
  assert (progress_wf (set_role s Leader)) as H0 by exact Hs. revert H0. clear Hs.
  generalize (seq 0 (n_peers (set_role s Leader))) as ks. intros ks. generalize (set_role s Leader) as x.
  induction ks as [|k ks IH]; intros x Hx; cbn [foldl]; [done|]. apply IH.
  apply set_progress_wf; [done|done|by rewrite length_insert].
Qed.

Lemma on_append_entries_progress s from term pi pt es lc s' (out : Outbox) :
  on_append_entries s from term pi pt es lc [] = Some (s', out) ->
  rn_peers s' = rn_peers s /\ rn_next_index s' = rn_next_index s /\ rn_match_index s' = rn_match_index s.
Proof.
  unfold on_append_entries. destruct (_ <? _); [by intros [= <- _]|]. set (s1 := if _ <? term then _ else _).
  assert (rn_peers s1 = rn_peers s /\ rn_next_index s1 = rn_next_index s /\
    rn_match_index s1 = rn_match_index s) as (<- & <- & <-) by (unfold s1; by destruct (_ <? _)).
  clearbody s1. destruct (negb _); [by intros [= <- _]|]. intros ([s2 m] & Ha & [= <- _])%bind_Some.
  apply append_log_entries_fields in Ha as (-> & _). by destruct (_ <? _).
Qed.

Lemma on_ae_reply_progress s from term ok m s' r :
  progress_wf s -> 0 <= m -> on_ae_reply s from term ok m = Some (s', r) -> progress_wf s'.
Proof.
  intros Hs Hm. unfold on_ae_reply. destruct (_ <? _); [by intros [= <- _]|].
  destruct (_ || _); [by intros [= <- _]|]. destruct (peer_index s from) as [k|]; [|by intros [= <- _]].
  intros (s1 & Hs1 & H2)%bind_Some. assert (progress_wf s1) as H1.
  { destruct ok; [apply bind_Some in Hs1 as (x & [_ ->]%add_u64_Some & [= <-]); apply set_progress_wf; [done|lia|by rewrite length_insert]|].
    injection Hs1 as <-. destruct (Z.ltb_spec 1 (default 0 (rn_next_index s !! k))); [|done].
    apply set_progress_wf; [done|lia|done]. }
  destruct ok; [|by injection H2 as <- _]. destruct (advance_commit_index s1) as [[s2 b]|] eqn:Ha; [|done].
  injection H2 as <- _. by apply advance_commit_fields in Ha as (n & -> & _).
Qed.

Lemma apply_progress L s o s' (out : Outbox) :
  progress_wf s -> (forall from m, o = OpStep from m -> backed L m) ->
  raft_apply s [] o = Some (s', out) -> progress_wf s'.
Proof using HL.
  intros Hs Hb. destruct o as [|src dst|from [t c j lt|t g|t lid pi pt es lc|t ok m]]; cbn [raft_apply].
  - unfold start_election. intros (term & _ & H)%bind_Some. case_decide; [|injection H as <- _; exact Hs].
    apply bind_Some in H as (s1 & Hl & [= <- _]). eapply become_leader_progress; [|exact Hl]. exact Hs.
  - intros ([[s1 t1] r] & Hp & [= <- _])%bind_Some. apply propose_keeps in Hp as (_ & _ & Ep & Em & En & _).
    by eapply progress_wf_keeps.
  - intros ([[s1 t1] r] & Hst & [= <- _])%bind_Some. unfold step, on_request_vote in Hst.
    set (s2 := if rn_current_term s <? t then _ else _) in Hst.
    assert (progress_wf s2) as H2 by (unfold s2; destruct (_ <? _); exact Hs). clearbody s2.
    injection Hst as <- _ _. destruct (_ && _); exact H2.
  - intros ([[s1 t1] r] & (s2 & Hr & [= <- _ _])%bind_Some & [= <- _])%bind_Some. unfold on_vote_reply in Hr.
    destruct (_ <? _); [injection Hr as <-; exact Hs|]. destruct (_ || _); [injection Hr as <-; exact Hs|].
    apply bind_Some in Hr as (s3 & Hs3 & Hr). assert (progress_wf s3) as H3.
    { destruct g; [apply bind_Some in Hs3 as (v & _ & [= <-])|injection Hs3 as <-]; exact Hs. }
    destruct (_ <=? _); [by eapply become_leader_progress|injection Hr as <-; exact H3].
  - intros ([[s1 t1] r] & ([s2 t2] & Hr & [= <- _ _])%bind_Some & [= <- _])%bind_Some.
    apply on_append_entries_progress in Hr as (Ep & En & Em). by eapply progress_wf_keeps.
  - intros ([[s1 t1] r] & ([s2 r2] & Hr & [= <- _ _])%bind_Some & [= <- _])%bind_Some.
    eapply on_ae_reply_progress; [exact Hs| |exact Hr]. exact (Hb _ _ eq_refl).
Qed.

Definition all_progress (c : cluster) : Prop := forall i s, cl_nodes c !! i = Some s -> progress_wf s.

Lemma progress_init M c : cluster_init M c -> all_progress c.
Proof using HL.
  intros [_ Hn] i s Hs. destruct (Hn i s Hs) as (_ & ps & -> & _ & Hlen & _). split_and!; cbn; [by apply Forall_replicate|..];
    unfold n_peers, hv_len; rewrite node_new_peers, length_replicate by done; exact Hlen.
Qed.

Lemma progress_step M c c' B L A : run_inv M c B L A -> all_progress c -> cluster_step c c' -> all_progress c'.
Proof using HL.
  intros Hr Hp Hstep.
  destruct (cluster_step_view c c' Hstep) as [[Hsub _]|(i & s & o & s' & out & Hi & Ha & Ec & Hnet & Hmsg)].
  - intros i s Hi. apply (Hp i). by eapply lookup_weaken.
  - unfold all_progress. rewrite Ec. intros j sj [[<- <-]|[_ Hj]]%lookup_insert_Some; [|by apply (Hp j)].
    eapply (apply_progress L); [by apply (Hp i)| |exact Ha].
    intros from m Ho. destruct (Hmsg from m Ho) as (p & Hin & <-).
    by apply (lg_msg _ _ _ _ _ (ri_logs _ _ _ _ _ Hr)).
Qed.

Lemma progress_reachable M c : cluster_reachable M c -> all_progress c.
Proof using HL.
  intros (c0 & Hi & Hs). destruct (run_init M c0 Hi) as (B & L & A & Hr).
  apply progress_init in Hi. revert B L A Hr. induction Hs as [|c1 c2 c3 Hs _ IH]; intros B L A Hr; [done|].
  pose proof (progress_step M c1 c2 B L A Hr Hi Hs) as Hi2.
  destruct (run_step M c1 c2 B L A Hr Hs) as (B' & L' & A' & Hr' & _). by eapply IH.
Qed.

(** ** Executions with small logs *)

Definition small_inv (M : gset NodeId) (c : cluster) : Prop :=
  covered c /\ all_progress c /\
  exists B L A, run_inv M c B L A /\ settled_inv M c L A.

Lemma small_init M c : cluster_init M c -> small_inv M c.
Proof using HL.
  intros Hi. destruct (init_settled M c Hi) as [Hc Hs]. split; [done|]. split; [by eapply progress_init|].
  destruct (run_init M c Hi) as (B & L & A & Hr). exists B, L, A. auto.
Qed.

Lemma small_step M c c' : small_inv M c -> within small c c' -> small_inv M c'.
Proof using HL.
  intros (Hc & Hp & B & L & A & Hr & Hs) [Hstep Hsm].
  destruct (run_step M c c' B L A Hr Hstep) as (B' & L' & A' & Hr' & Hg%grows_extends & HA).
  pose proof (settle_step M c c' B B' L L' A A' Hr Hr' Hg HA Hs Hc Hstep) as Hs'.
  pose proof (progress_step M c c' B L A Hr Hp Hstep) as Hp'.
  split; [|split; [done|by exists B', L', A']]. unfold covered in *. rewrite Forall_forall in Hc |- *.
  destruct (cluster_step_view c c' Hstep) as [[_ Hnet]|(i & s & o & s' & out & Hi & Ha & Ec & Hnet & Hmsg)]; [by auto|].
  assert (cl_nodes c' !! i = Some s') as Hi' by (rewrite Ec; by rewrite lookup_insert_eq).
  intros p [Hin|([q m] & -> & Hx)%list_elem_of_fmap]%Hnet; [by auto|].
  apply (small_covers s'); [by apply (Hp' i)|exact (Hsm i s' Hi')| |exact (apply_sends _ _ _ _ Ha _ Hx)].
  eapply settled_length. exact (si_node _ _ _ _ Hs' i s' Hi').
Qed.

Lemma small_steps M c c' : small_inv M c -> rtc (within small) c c' -> small_inv M c' /\ rtc (within covered) c c'.
Proof using HL.
  intros Hi Hs. induction Hs as [c|c1 c2 c3 Hs _ IH]; [by split|].
  pose proof (small_step M c1 c2 Hi Hs) as H2. destruct (IH H2) as [H3 Hr]. split; [done|].
  eapply rtc_l; [|exact Hr]. split; [apply Hs|apply H2].
Qed.

(** C16: Small logs are safe.  As long as no log of the cluster grows beyond the sixteen
    entries of one message, two nodes never commit different entries at the same index,
    in whatever order packets arrive, are lost, and nodes crash. *)
Theorem small_logs_agree M c0 c c' a b k ea eb :
  cluster_init M c0 -> rtc (within small) c0 c -> rtc (within small) c c' ->
  committed c a k = Some ea -> committed c' b k = Some eb -> ea = eb.
Proof using HL.
  intros Hi H1 H2. destruct (small_steps M c0 c (small_init M c0 Hi) H1) as [Hi1 _].
  destruct (small_steps M c c' Hi1 H2) as [_ H2']. destruct Hi1 as (Hc & _ & B & L & A & Hr & Hs).
  by apply (committed_agree M c c' B L A).
Qed.

End machine.

(** ** Witnesses *)

Module Witness.
#[local] Existing Instance ListModel.list_hvec.
#[local] Existing Instance ListModel.list_hvec_laws.
Import Cluster.Witness.

(** Run a script whose states all satisfy [P]. *)
Fixpoint exec_within (P : cluster -> Prop) `{forall c, Decision (P c)} (c : cluster) (xs : list cmd) : option cluster :=
  match xs with
  | [] => Some c
  | x :: xs' =>
      a ← action_of c x;
      c' ← act c a;
      if bool_decide (P c') then exec_within P c' xs' else None
  end.

Lemma exec_within_rtc (P : cluster -> Prop) `{forall c, Decision (P c)} xs : forall c c',
  exec_within P c xs = Some c' -> rtc (within P) c c'.
Proof.
  induction xs as [|x xs IH]; intros c c'; cbn [exec_within]; [by intros [= <-]|].
  intros (a & Ha & H1)%bind_Some. apply bind_Some in H1 as (c1 & Hc & H1).
  case_bool_decide; [|done]. eapply rtc_l; [split; [|done]|by apply IH]. eapply act_step; [exact Hc|].
  destruct x; cbn in Ha; [by injection Ha as <-..| |]; by apply fmap_Some in Ha as (k & _ & ->).
Qed.

(** Node 1 commits an entry of term 1 and a second one, and tells node 2, which takes over
    the commit index with the message that follows. *)
Definition first_leg : list cmd :=
  [Elect 1; Pass 1 2; Pass 2 1; Propose 1 1 2; Pass 1 2; Pass 2 1].
Definition second_leg : list cmd := [Propose 1 2 3; Pass 1 2].

Definition leg1 (P : cluster -> Prop) `{forall c, Decision (P c)} : option cluster := exec_within P three first_leg.
Definition leg2 (P : cluster -> Prop) `{forall c, Decision (P c)} : option cluster := c ← leg1 P; exec_within P c second_leg.

#[local] Instance covered_dec c : Decision (covered c).
Proof. unfold covered. apply _. Defined.

#[local] Instance small_dec c : Decision (small c).
Proof. unfold small. apply _. Defined.

Lemma legs_checked :
  (c ← leg1 covered; committed c 1 0) = Some (mkEntry 1 1 2) /\ (c ← leg2 covered; committed c 2 0) = Some (mkEntry 1 1 2) /\
  (c ← leg1 small; committed c 1 0) = Some (mkEntry 1 1 2) /\ (c ← leg2 small; committed c 2 0) = Some (mkEntry 1 1 2).
Proof. split_and!; vm_compute; reflexivity. Qed.

(** The two legs as one execution. *)
Lemma legs (P : cluster -> Prop) `{HP : forall c, Decision (P c)} ea eb :
  (c ← leg1 P; committed c 1 0) = Some ea -> (c ← leg2 P; committed c 2 0) = Some eb ->
  exists c c', rtc (within P) three c /\ rtc (within P) c c' /\ committed c 1 0 = Some ea /\ committed c' 2 0 = Some eb.
Proof.
  intros (c & H1 & Hc)%bind_Some H2. apply bind_Some in H2 as (c' & H2 & Hc').
  unfold leg2 in H2. rewrite H1 in H2. exists c, c'. split; [by eapply exec_within_rtc|]. split; [by eapply exec_within_rtc|done].
Qed.

Lemma state_machine_safety_witness : exists c c' ea eb,
  rtc (within covered) three c /\ rtc (within covered) c c' /\
  committed c 1 0 = Some ea /\ committed c' 2 0 = Some eb /\ ea = eb.
Proof.
  destruct legs_checked as (E1 & E2 & _). destruct (legs covered _ _ E1 E2) as (c & c' & H1 & H2 & Ha & Hb).
  exists c, c', (mkEntry 1 1 2), (mkEntry 1 1 2). split; [exact H1|]. split; [exact H2|]. split; [exact Ha|]. split; [exact Hb|].
  exact (state_machine_safety _ _ _ _ _ _ _ _ _ three_init H1 H2 Ha Hb).
Defined.

Lemma small_logs_agree_witness : exists c c' ea eb,
  rtc (within small) three c /\ rtc (within small) c c' /\
  committed c 1 0 = Some ea /\ committed c' 2 0 = Some eb /\ ea = eb.
Proof.
  destruct legs_checked as (_ & _ & E1 & E2). destruct (legs small _ _ E1 E2) as (c & c' & H1 & H2 & Ha & Hb).
  exists c, c', (mkEntry 1 1 2), (mkEntry 1 1 2). split; [exact H1|]. split; [exact H2|]. split; [exact Ha|]. split; [exact Hb|].
  exact (small_logs_agree _ _ _ _ _ _ _ _ _ three_init H1 H2 Ha Hb).
Defined.

End Witness.
