(* ===== verification/ReplicatedLog.v ===== *)
(** * The cluster as a replicated log

    What [src/consensus/mod.rs] promises its callers, as a machine of its own: a log that
    only grows, holds nothing but what was proposed, and of which every commit that a node
    announces is a prefix ([spec_step]).

    The clusters of [Cluster.v] refine it.  The commits of leaders do so in every execution
    ([leaders_refine_log]), and the commits of all nodes as long as messages cover the
    commit index they announce ([nodes_refine_log], with the condition of
    [StateMachine.v]). *)
From S2P Require Import Prelude Heapless Types Raft Cluster LogMatching Divergence Completeness Decisions StateMachine.
From stdpp Require Import base tactics list numbers option strings gmap sets relations.
Open Scope Z_scope.

#[local] Arguments quorum : simpl never.

(** ** The specification *)

(** A proposal that node [i] accepted; a commit that takes the commit index of node [i] to
    the end of [l]. *)
Inductive event :=
| Proposed (i : NodeId) (e : LogEntry)
| Decided (i : NodeId) (l : list LogEntry).

Record log_spec := mkSpec { proposed : list LogEntry; decided : list LogEntry }.

Definition spec_init : log_spec := mkSpec [] [].

(** A commit repeats a part of the log, or extends it by proposals. *)
Definition spec_step (sp : log_spec) (ev : event) : option log_spec :=
  match ev with
  | Proposed _ e => Some (mkSpec (e :: proposed sp) (decided sp))
  | Decided _ l =>
      if decide (l `prefix_of` decided sp) then Some sp
      else if decide (decided sp `prefix_of` l /\ Forall (fun e => e ∈ proposed sp) l)
      then Some (mkSpec (proposed sp) l)
      else None
  end.

Fixpoint spec_run (sp : log_spec) (evs : list event) : option log_spec :=
  match evs with
  | [] => Some sp
  | ev :: evs' => sp' ← spec_step sp ev; spec_run sp' evs'
  end.

Lemma spec_run_app evs evs' : forall sp,
  spec_run sp (evs ++ evs') = sp' ← spec_run sp evs; spec_run sp' evs'.
Proof.
  induction evs as [|ev evs IH]; intros sp; cbn [spec_run app]; [done|].
  destruct (spec_step sp ev); cbn [mbind option_bind]; [apply IH|done].
Qed.

Lemma spec_run_proposed i es : forall sp,
  spec_run sp (Proposed i <$> es) = Some (mkSpec (reverse es ++ proposed sp) (decided sp)).
Proof.
  induction es as [|e es IH]; intros [P D]; [done|]. cbn [fmap list_fmap spec_run spec_step mbind option_bind].
  rewrite IH. cbn [proposed decided]. by rewrite reverse_cons, <- app_assoc.
Qed.

(** What a client of the specification may rely on: the decided log only grows. *)
Lemma spec_run_grows evs : forall sp sp', spec_run sp evs = Some sp' -> decided sp `prefix_of` decided sp'.
Proof.
  induction evs as [|ev evs IH]; intros sp sp'; cbn [spec_run]; [by intros [= <-]|].
  intros (sp1 & H1 & H2)%bind_Some. etrans; [|by apply IH].
  destruct ev as [i e|i l]; cbn in H1; [by injection H1 as <-|].
  case_decide; [by injection H1 as <-|]. case_decide as Hd; [|done]. injection H1 as <-. apply Hd.
Qed.

Section refinement.
Context `{HV : HVec} `{HL : !HVecLaws}.
Implicit Types (s : RaftNode) (L : history) (P : list LogEntry).

(** ** What a cluster shows *)

(** The entries a proposal has added. *)
Definition added s (o : raft_op) s' : list LogEntry :=
  match o with
  | OpPropose _ _ => drop (length (entries_of (rn_log s))) (entries_of (rn_log s'))
  | _ => []
  end.

(** The events of an operation, with the commits of the nodes that [who] selects. *)
Definition observe (who : RaftNode -> bool) (i : NodeId) s (o : raft_op) s' : list event :=
  (Proposed i <$> added s o s') ++
  (if who s' && (rn_commit_index s <? rn_commit_index s') then [Decided i (committed_log s')] else []).

(** The steps of [cluster_step] with their events. *)
Inductive shows (who : RaftNode -> bool) : cluster -> list event -> cluster -> Prop :=
| sh_local i s o s' out nodes net :
    nodes !! i = Some s -> is_local o = true -> raft_apply s ([] : Outbox) o = Some (s', out) ->
    shows who (mkCluster nodes net) (observe who i s o s') (mkCluster (<[i := s']> nodes) (net ++ sent i out))
| sh_deliver p s s' out nodes net1 net2 :
    nodes !! pk_dst p = Some s ->
    raft_apply s ([] : Outbox) (OpStep (pk_src p) (pk_msg p)) = Some (s', out) ->
    shows who (mkCluster nodes (net1 ++ p :: net2)) (observe who (pk_dst p) s (OpStep (pk_src p) (pk_msg p)) s')
      (mkCluster (<[pk_dst p := s']> nodes) ((net1 ++ net2) ++ sent (pk_dst p) out))
| sh_lose p nodes net1 net2 :
    shows who (mkCluster nodes (net1 ++ p :: net2)) [] (mkCluster nodes (net1 ++ net2))
| sh_crash i nodes net :
    shows who (mkCluster nodes net) [] (mkCluster (delete i nodes) net).

(** Executions through states where [Q] holds, with the events they show. *)
Inductive behaves (who : RaftNode -> bool) (Q : cluster -> Prop) (c0 : cluster) : list event -> cluster -> Prop :=
| bh_start : behaves who Q c0 [] c0
| bh_step evs c evs' c' :
    behaves who Q c0 evs c -> shows who c evs' c' -> Q c' -> behaves who Q c0 (evs ++ evs') c'.

Lemma shows_step who c evs c' : shows who c evs c' -> cluster_step c c'.
Proof. destruct 1; by econstructor. Qed.

(** Every step of a cluster shows something. *)
Lemma step_shows who c c' : cluster_step c c' -> exists evs, shows who c evs c'.
Proof. destruct 1; eexists; by econstructor. Qed.

Lemma shows_view who c evs c' : shows who c evs c' ->
  (evs = [] /\ cl_nodes c' ⊆ cl_nodes c /\ forall p, p ∈ cl_net c' -> p ∈ cl_net c) \/
  exists i s o s' out, operates c c' i s o s' out /\ evs = observe who i s o s'.
Proof.
  intros [i s o s' out nodes net Hi Ho Ha|p s s' out nodes net1 net2 Hi Ha|p nodes net1 net2|i nodes net].
  - right. eexists _, _, _, _, _. split; [by apply operates_local|done].
  - right. eexists _, _, _, _, _. split; [by apply operates_deliver|done].
  - left. split; [done|]. split; [done|]. cbn. set_solver.
  - left. split; [done|]. split; [apply delete_subseteq|done].
Qed.

(** ** Entries come from proposals *)

Definition msg_drawn (P : list LogEntry) (m : RaftMessage) : Prop :=
  match m with
  | AppendEntries _ _ _ _ es _ => Forall (fun e => e ∈ P) (hv_slice es)
  | _ => True
  end.

Definition node_drawn (P : list LogEntry) s : Prop := Forall (fun e => e ∈ P) (entries_of (rn_log s)).

Definition drawn (P : list LogEntry) (c : cluster) : Prop :=
  (forall i s, cl_nodes c !! i = Some s -> node_drawn P s) /\ forall p, p ∈ cl_net c -> msg_drawn P (pk_msg p).

Lemma Forall_elem_mono (P P' l : list LogEntry) :
  (forall e, e ∈ P -> e ∈ P') -> Forall (fun e => e ∈ P) l -> Forall (fun e => e ∈ P') l.
Proof. intros HP Hl. eapply Forall_impl; [exact Hl|]. exact HP. Qed.

Lemma drawn_mono P P' c : (forall e, e ∈ P -> e ∈ P') -> drawn P c -> drawn P' c.
Proof.
  intros HP [Hn Hm]. split.
  - intros i s Hi. eapply Forall_elem_mono; [exact HP|by apply (Hn i)].
  - intros p Hp. specialize (Hm p Hp). destruct (pk_msg p); try done. by eapply Forall_elem_mono.
Qed.

Lemma append_one_drawn P lg i e :
  e ∈ P -> Forall (fun e => e ∈ P) (entries_of lg) -> Forall (fun e => e ∈ P) (entries_of (append_one lg i e)).
Proof using HL.
  intros He Hl. unfold append_one. set (lg1 := match term_at lg i with Some _ => _ | None => _ end).
  assert (Forall (fun e => e ∈ P) (entries_of lg1)) as H1.
  { unfold lg1. destruct (term_at lg i) as [t|]; [|done]. destruct (negb _); [|done].
    unfold truncate_from. destruct (i =? 0); [done|]. unfold entries_of. cbn. rewrite hv_slice_truncate. by apply Forall_take. }
  clearbody lg1. destruct (log_get lg1 i); [done|].
  destruct (log_append_cases lg1 e) as [[-> _]|[-> _]]; [|done]. apply Forall_app. by split; [|constructor].
Qed.

Lemma append_loop_drawn P es : forall lg i lg',
  Forall (fun e => e ∈ P) es -> Forall (fun e => e ∈ P) (entries_of lg) ->
  append_loop lg i es = Some lg' -> Forall (fun e => e ∈ P) (entries_of lg').
Proof using HL.
  induction es as [|e es IH]; intros lg i lg' Hes Hl; cbn [append_loop]; [by intros [= <-]|].
  inversion_clear Hes. intros (j & _ & H1)%bind_Some. eapply IH; [done| |exact H1]. by apply append_one_drawn.
Qed.

Lemma on_append_entries_drawn P s from term pi pt es lc s' (out : Outbox) :
  Forall (fun e => e ∈ P) (hv_slice es) -> node_drawn P s ->
  on_append_entries s from term pi pt es lc [] = Some (s', out) -> node_drawn P s'.
Proof using HL.
  intros Hes Hs. unfold on_append_entries. destruct (_ <? _); [by intros [= <- _]|].
  set (s1 := if _ <? term then _ else _).
  assert (node_drawn P s1) as H1 by (unfold s1; by destruct (_ <? _)). clearbody s1.
  destruct (negb _); [by intros [= <- _]|]. intros ([s2 m] & Ha & [= <- _])%bind_Some.
  apply append_log_entries_fields in Ha as (_ & Hl & _).
  assert (node_drawn P s2) as H2 by (eapply append_loop_drawn; [exact Hes|exact H1|exact Hl]). by destruct (_ <? lc).
Qed.

Lemma propose_extends s src dst s' (out : Outbox) r :
  propose s src dst [] = Some (s', out, r) -> entries_of (rn_log s) `prefix_of` entries_of (rn_log s').
Proof using HL.
  unfold propose. destruct (negb _); [by intros [= <- _ _]|].
  destruct (log_append (rn_log s) _) as [lg [|]] eqn:Ha; cbn [negb]; [|by intros [= <- _ _]].
  apply log_append_ok in Ha as [Hlg _]. case_decide; [intros [= <- _ _]|intros (t1 & _ & [= <- _ _])%bind_Some];
    cbn; rewrite Hlg; by eexists.
Qed.

Lemma apply_drawn P s o s' (out : Outbox) :
  node_drawn P s -> (forall from m, o = OpStep from m -> msg_drawn P m) ->
  raft_apply s [] o = Some (s', out) -> node_drawn (reverse (added s o s') ++ P) s'.
Proof using HL.
  intros Hs Hm. destruct o as [|src dst|from [t c j lt|t g|t lid pi pt es lc|t ok m]]; cbn [raft_apply added].
  - intros (_ & _ & El & _)%start_election_fields. unfold node_drawn. by rewrite El.
  - intros ([[s1 t1] r] & Hp & [= <- _])%bind_Some.
    assert (entries_of (rn_log s) `prefix_of` entries_of (rn_log s1)) as [k Hk] by by eapply propose_extends.
    unfold node_drawn. rewrite Hk, drop_app_length. apply Forall_app. split.
    + eapply Forall_elem_mono; [|exact Hs]. intros e He. apply elem_of_app. by right.
    + apply Forall_forall. intros e He. apply elem_of_app. left. by apply elem_of_reverse.
  - intros ([[s1 t1] r] & Hst & [= <- _])%bind_Some. unfold step in Hst.
    destruct (on_request_vote _ _ _ _ _ _ _) as [s2 t2] eqn:Hr. injection Hst as <- _ _.
    apply on_request_vote_keeps in Hr as (El & _). unfold node_drawn. by rewrite El.
  - intros ([[s1 t1] r] & (s2 & Hr & [= <- _ _])%bind_Some & [= <- _])%bind_Some.
    apply on_vote_reply_log in Hr as [El _]. unfold node_drawn. by rewrite El.
  - intros ([[s1 t1] r] & ([s2 t2] & Hr & [= <- _ _])%bind_Some & [= <- _])%bind_Some.
    eapply on_append_entries_drawn; [|exact Hs|exact Hr]. exact (Hm _ _ eq_refl).
  - intros ([[s1 t1] r] & ([s2 r2] & Hr & [= <- _ _])%bind_Some & [= <- _])%bind_Some.
    apply on_ae_reply_keeps in Hr as (El & _). unfold node_drawn. by rewrite El.
Qed.

Lemma gather_drawn P fuel : forall (lg : RaftLog) (v es : hvec AE_CAP LogEntry) i,
  Forall (fun e => e ∈ P) (entries_of lg) -> Forall (fun e => e ∈ P) (hv_slice v) ->
  gather fuel lg v i = Some es -> Forall (fun e => e ∈ P) (hv_slice es).
Proof using HL.
  induction fuel as [|fuel IH]; intros lg v es i Hl Hv; cbn [gather]; [by intros [= <-]|].
  destruct (log_get lg i) as [e|] eqn:He; [|by intros [= <-]].
  destruct (hv_push v e) as [w|] eqn:Hw; [|by intros [= <-]]. intros (j & _ & H1)%bind_Some.
  eapply IH; [done| |exact H1]. apply hv_push_Some in Hw as [-> _]. apply Forall_app. split; [done|].
  constructor; [|done]. unfold log_get in He. destruct (i =? 0); [done|]. exact (Forall_lookup_1 _ _ _ _ Hl He).
Qed.

Lemma from_leader_drawn P s m : node_drawn P s -> from_leader s m -> msg_drawn P m.
Proof using HL.
  intros Hs. destruct m as [| |t lid pi pt es lc|]; try done. intros (_ & _ & _ & k & _ & _ & Hg). cbn.
  eapply gather_drawn; [exact Hs| |exact Hg]. by rewrite hv_slice_new.
Qed.

(** After an operation everything is drawn from the proposals, the new ones included. *)
Lemma operates_drawn P c c' i s o s' out :
  drawn P c -> operates c c' i s o s' out -> drawn (reverse (added s o s') ++ P) c'.
Proof using HL.
  intros Hc (Hi & Ha & Ec & Hnet & Hmsg). pose proof Hc as [Hn Hm].
  assert (drawn (reverse (added s o s') ++ P) c) as [Hn' Hm'].
  { eapply drawn_mono; [|exact Hc]. intros e He. apply elem_of_app. by right. }
  assert (node_drawn (reverse (added s o s') ++ P) s') as Hs'.
  { eapply apply_drawn; [by apply (Hn i)| |exact Ha]. intros from m Ho. destruct (Hmsg from m Ho) as (p & Hp & <-). by apply Hm. }
  split.
  - rewrite Ec. intros j sj [[<- <-]|[_ Hj]]%lookup_insert_Some; [done|by apply (Hn' j)].
  - intros p [Hp|([q m] & -> & Hx)%list_elem_of_fmap]%Hnet; [by apply Hm'|].
    eapply from_leader_drawn; [exact Hs'|]. exact (apply_sends _ _ _ _ Ha _ Hx).
Qed.

(** ** The simulation *)

(** Two settled logs, one a part of the other. *)
Lemma settled_prefixes M c B L A u u' l l' :
  run_inv M c B L A -> settled M L A u (Z.of_nat (length l)) l -> settled M L A u' (Z.of_nat (length l')) l' ->
  l `prefix_of` l' \/ l' `prefix_of` l.
Proof.
  intros Hr Hs Hs'.
  assert (forall k, (k < length l)%nat -> (k < length l')%nat -> l !! k = l' !! k) as He.
  { intros k Hk Hk'. eapply (settled_agree M c B L A u u'); [done|exact Hs|exact Hs'|lia|lia]. }
  destruct (decide (length l <= length l')%nat) as [Hle|Hgt]; [left|right].
  - exists (drop (length l) l'). rewrite <- (take_drop (length l) l') at 1. f_equal. apply list_eq. intros k.
    destruct (decide (k < length l)%nat); [by rewrite lookup_take_lt, He by lia|].
    rewrite lookup_take_ge, lookup_ge_None_2 by lia. done.
  - exists (drop (length l') l). rewrite <- (take_drop (length l') l) at 1. f_equal. apply list_eq. intros k.
    destruct (decide (k < length l')%nat); [by rewrite lookup_take_lt, He by lia|].
    rewrite lookup_take_ge, lookup_ge_None_2 by lia. done.
Qed.

(** The decided log of the specification is settled in the cluster. *)
Definition spec_settled (M : gset NodeId) L (A : acks) (sp : log_spec) : Prop :=
  exists u, settled M L A u (Z.of_nat (length (decided sp))) (decided sp).

Lemma committed_settled M L A s :
  0 <= rn_commit_index s -> node_settled M L A s ->
  Z.of_nat (length (committed_log s)) = rn_commit_index s /\
  settled M L A (rn_current_term s) (Z.of_nat (length (committed_log s))) (committed_log s).
Proof.
  intros H0 Hs. pose proof (settled_length _ _ _ _ _ _ Hs) as Hle. unfold committed_log.
  assert (Z.of_nat (length (take (Z.to_nat (rn_commit_index s)) (entries_of (rn_log s)))) = rn_commit_index s) as E.
  { rewrite length_take. lia. }
  split; [done|]. rewrite E. destruct Hs as [?|(t & j & l & H1 & H2 & H3 & H4 & H5)]; [by left|right].
  exists t, j, l. split_and!; try done. by rewrite take_take, Nat.min_id.
Qed.

(** A commit that is settled is a step of the specification. *)
Lemma decide_step M c B L A i s sp :
  run_inv M c B L A -> spec_settled M L A sp -> 0 <= rn_commit_index s -> node_settled M L A s ->
  node_drawn (proposed sp) s ->
  exists sp', spec_step sp (Decided i (committed_log s)) = Some sp' /\ proposed sp' = proposed sp /\
    spec_settled M L A sp' /\ decided sp `prefix_of` decided sp' /\ committed_log s `prefix_of` decided sp'.
Proof.
  intros Hr [u Hu] H0 Hs Hd. destruct (committed_settled M L A s H0 Hs) as [_ Hc]. cbn [spec_step].
  case_decide as Hp; [exists sp; split_and!; try done; by exists u|].
  rewrite decide_True; [|split].
  - exists (mkSpec (proposed sp) (committed_log s)). assert (decided sp `prefix_of` committed_log s) as Hx.
    { by destruct (settled_prefixes M c B L A _ _ _ _ Hr Hu Hc). }
    split_and!; try done. by exists (rn_current_term s).
  - by destruct (settled_prefixes M c B L A _ _ _ _ Hr Hu Hc).
  - unfold committed_log. by apply Forall_take.
Qed.

(** What holds of the cluster and the specification along a common execution. *)
Record sim (M : gset NodeId) (c : cluster) L (A : acks) (sp : log_spec) : Prop := {
  sim_drawn : drawn (proposed sp) c;
  sim_settled : spec_settled M L A sp;
}.

Lemma sim_init M c L A : cluster_init M c -> sim M c L A spec_init.
Proof using HL.
  intros [Hnet Hn]. split; [|exists 0; left; done]. split; [|rewrite Hnet; by intros p Hp%not_elem_of_nil].
  intros i s Hi. destruct (Hn i s Hi) as (_ & ps & -> & _). unfold node_drawn, entries_of. cbn. by rewrite hv_slice_new.
Qed.

Section step.
Context (who : RaftNode -> bool) (M : gset NodeId) (c c' : cluster) (B' : votes) (L L' : history) (A A' : acks).
Context (Hr' : run_inv M c' B' L' A').
Context (He : extends L L') (HA : forall v t j, A v t j -> A' v t j).
(** The commits observed are settled. *)
Context (Hsee : forall i s o s' out, operates c c' i s o s' out -> who s' = true ->
  rn_commit_index s < rn_commit_index s' -> node_settled M L' A' s').

Lemma spec_settled_mono sp : spec_settled M L A sp -> spec_settled M L' A' sp.
Proof using He HA.
  clear Hr' Hsee. intros [u Hu]. exists u. eapply settled_mono; [exact He|exact HA|reflexivity|done|exact Hu].
Qed.

(** The specification follows; a node that is seen to advance has its log decided. *)
Lemma sim_step sp evs :
  sim M c L A sp -> shows who c evs c' ->
  exists sp', spec_run sp evs = Some sp' /\ sim M c' L' A' sp' /\ decided sp `prefix_of` decided sp' /\
    forall i s', cl_nodes c' !! i = Some s' ->
      (exists s, cl_nodes c !! i = Some s /\ rn_commit_index s' <= rn_commit_index s) \/ who s' = false \/
      committed_log s' `prefix_of` decided sp'.
Proof using All.
  intros [Hd Hs%spec_settled_mono] Hsh.
  destruct (shows_view who c evs c' Hsh) as [(-> & Hsub & Hnet)|(i & s & o & s' & out & Hop & ->)].
  { exists sp. split; [done|]. destruct Hd as [Hn Hm]. split; [split; [|done]; split; [|by auto]|split; [done|]].
    - intros i s Hi. apply (Hn i). by eapply lookup_weaken.
    - intros i s Hi. left. exists s. split; [by eapply lookup_weaken|lia]. }
  pose proof (operates_drawn _ _ _ _ _ _ _ _ Hd Hop) as Hd'. unfold observe. rewrite spec_run_app, spec_run_proposed.
  cbn [mbind option_bind]. set (sp1 := mkSpec _ _).
  assert (spec_settled M L' A' sp1) as Hs1 by exact Hs.
  pose proof Hop as (Hi & _ & Ec & _). assert (cl_nodes c' !! i = Some s') as Hi' by (rewrite Ec; apply lookup_insert_eq).
  assert (forall sp' : log_spec, (forall j sj, cl_nodes c' !! j = Some sj -> j = i \/
    (exists s, cl_nodes c !! j = Some s /\ rn_commit_index sj <= rn_commit_index s) \/ who sj = false \/
      committed_log sj `prefix_of` decided sp')) as Hother.
  { intros sp' j sj Hj. rewrite Ec in Hj. apply lookup_insert_Some in Hj as [[-> _]|[_ Hj]]; [by left|].
    right; left. exists sj. split; [done|lia]. }
  destruct (who s' && (rn_commit_index s <? rn_commit_index s')) eqn:Hw.
  - apply andb_true_iff in Hw as [Hw Hlt%Z.ltb_lt]. pose proof (Hsee _ _ _ _ _ Hop Hw Hlt) as Hset.
    pose proof (commit_nonneg _ _ _ _ _ _ _ Hr' Hi') as H0.
    destruct (decide_step M c' B' L' A' i s' sp1 Hr' Hs1 H0 Hset) as (sp' & Hst & Ep & Hs' & Hg & Hin); [by apply (proj1 Hd' i)|].
    exists sp'. cbn [spec_run]. rewrite Hst. split; [done|]. split; [split; [by rewrite Ep|done]|]. split; [exact Hg|].
    intros j sj Hj. destruct (Hother sp' j sj Hj) as [->|?]; [|done]. right; right. by simplify_eq.
  - exists sp1. split; [done|]. split; [by split|]. split; [done|].
    intros j sj Hj. destruct (Hother sp1 j sj Hj) as [->|?]; [|done]. simplify_eq.
    apply andb_false_iff in Hw as [?|Hlt%Z.ltb_ge]; [by right; left|left]. by exists s.
Qed.

End step.

(** ** Refinement *)

(** What the leader rule commits is settled. *)
Lemma leader_commits_settled M c c' B B' L L' A A' i s o s' out :
  run_inv M c B L A -> run_inv M c' B' L' A' -> operates c c' i s o s' out -> is_leader s' = true ->
  rn_commit_index s < rn_commit_index s' -> node_settled M L' A' s'.
Proof using HL.
  intros Hr Hr' (Hi & Ha & Ec & _) Hl%bool_decide_eq_true Hlt.
  pose proof (commit_nonneg _ _ _ _ _ _ _ Hr Hi) as H0.
  assert (cl_nodes c' !! i = Some s') as Hi' by (rewrite Ec; apply lookup_insert_eq).
  destruct (apply_commit _ _ _ _ H0 Ha) as [[? _]|[(_ & Hpos & Hcm)|(from & term & lid & pi & pt & es & lc & t & _ & Hae)]].
  - lia.
  - by eapply (settle_lead M c' B' L' A').
  - apply on_append_entries_roles in Hae as [[-> _]|[? _]]; [lia|congruence].
Qed.

(** C14: Leaders refine a replicated log.  In every execution of a cluster of fresh nodes,
    whatever is delivered, lost or crashes, the proposals that nodes accept and the commits
    that leaders make form a run of [spec_step]: there is one log that only grows, holds
    only entries proposed before, and every commit of a leader announces a prefix of it. *)
Theorem leaders_refine_log M c0 evs c :
  cluster_init M c0 -> behaves is_leader (fun _ => True) c0 evs c ->
  exists sp, spec_run spec_init evs = Some sp.
Proof using HL.
  intros Hi Hb.
  cut (exists sp B L A, spec_run spec_init evs = Some sp /\ run_inv M c B L A /\ sim M c L A sp);
    [intros (sp & _ & _ & _ & H & _); by exists sp|].
  induction Hb as [|evs c evs' c' _ (sp & B & L & A & Hrun & Hr & Hs) Hsh _].
  - destruct (run_init M c0 Hi) as (B & L & A & Hr). exists spec_init, B, L, A. split; [done|]. split; [done|]. by apply sim_init.
  - destruct (run_step M c c' B L A Hr (shows_step _ _ _ _ Hsh)) as (B' & L' & A' & Hr' & Hg%grows_extends & HA).
    destruct (sim_step is_leader M c c' B' L L' A A' Hr' Hg HA) with (sp := sp) (evs := evs')
      as (sp' & Hrun' & Hs' & _); [|done|done|].
    { intros i s o s' out. by apply (leader_commits_settled M c c' B B' L L' A A'). }
    exists sp', B', L', A'. by rewrite spec_run_app, Hrun.
Qed.

(** The same for all nodes, on executions of [StateMachine.v]. *)
Record sim_all (M : gset NodeId) (c : cluster) (B : votes) L (A : acks) (sp : log_spec) : Prop := {
  sa_run : run_inv M c B L A;
  sa_settled : settled_inv M c L A;
  sa_covered : covered c;
  sa_sim : sim M c L A sp;
  sa_reached : forall i s, cl_nodes c !! i = Some s -> rn_commit_index s <= Z.of_nat (length (decided sp));
}.

Lemma sim_all_step M c c' B L A sp evs :
  sim_all M c B L A sp -> shows (fun _ => true) c evs c' -> covered c' ->
  exists sp' B' L' A', spec_run sp evs = Some sp' /\ sim_all M c' B' L' A' sp'.
Proof using HL.
  intros [Hr Hi Hc Hs Hd] Hsh Hc'. pose proof (shows_step _ _ _ _ Hsh) as Hst.
  destruct (run_step M c c' B L A Hr Hst) as (B' & L' & A' & Hr' & Hg%grows_extends & HA).
  pose proof (settle_step M c c' B B' L L' A A' Hr Hr' Hg HA Hi Hc Hst) as Hi'.
  destruct (sim_step (fun _ => true) M c c' B' L L' A A' Hr' Hg HA) with (sp := sp) (evs := evs)
    as (sp' & Hrun & Hs' & Hp & Hn); [|done|done|].
  { intros i s o s' out (_ & _ & Ec & _) _ _. apply (si_node _ _ _ _ Hi' i). rewrite Ec. apply lookup_insert_eq. }
  exists sp', B', L', A'. split; [done|]. constructor; try done. intros i s Hi0.
  destruct (Hn i s Hi0) as [(s0 & Hs0 & Hle)|[?|Hl%prefix_length]]; [|done|].
  - specialize (Hd i s0 Hs0). apply prefix_length in Hp. lia.
  - pose proof (commit_nonneg _ _ _ _ _ _ _ Hr' Hi0) as H0.
    destruct (committed_settled M L' A' s H0 (si_node _ _ _ _ Hi' i s Hi0)) as [<- _]. lia.
Qed.

Lemma sim_all_init M c : cluster_init M c -> exists B L A, sim_all M c B L A spec_init.
Proof using HL.
  intros Hi. destruct (run_init M c Hi) as (B & L & A & Hr). destruct (init_settled M c Hi) as [Hc Hs].
  exists B, L, A. constructor; try done; [by apply sim_init|].
  destruct Hi as [_ Hn]. intros i s Hs0. by destruct (Hn i s Hs0) as (_ & ps & -> & _).
Qed.

(** C15: All nodes refine a replicated log, in executions in which no message announces a
    commit index beyond the entries it carries.  The proposals and the commits of all nodes,
    followers included, form a run of [spec_step], and at its end what each node has
    committed is a prefix of the decided log. *)
Theorem nodes_refine_log M c0 evs c :
  cluster_init M c0 -> behaves (fun _ => true) covered c0 evs c ->
  exists sp, spec_run spec_init evs = Some sp /\
    forall i s, cl_nodes c !! i = Some s -> committed_log s `prefix_of` decided sp.
Proof using HL.
  intros Hi Hb. assert (exists sp B L A, spec_run spec_init evs = Some sp /\ sim_all M c B L A sp) as (sp & B & L & A & Hrun & Hs).
  { induction Hb as [|evs c evs' c' _ (sp & B & L & A & Hrun & Hs) Hsh Hc].
    - destruct (sim_all_init M c0 Hi) as (B & L & A & H0). by exists spec_init, B, L, A.
    - destruct (sim_all_step M c c' B L A sp evs' Hs Hsh Hc) as (sp' & B' & L' & A' & Hrun' & Hs').
      exists sp', B', L', A'. by rewrite spec_run_app, Hrun. }
  exists sp. split; [done|]. intros i s His. destruct Hs as [Hr Hset _ [_ [u Hu]] Hreach].
  pose proof (commit_nonneg _ _ _ _ _ _ _ Hr His) as H0.
  destruct (committed_settled M L A s H0 (si_node _ _ _ _ Hset i s His)) as [El Hc].
  destruct (settled_prefixes M c B L A _ _ _ _ Hr Hc Hu) as [?|Hp]; [done|]. specialize (Hreach i s His).
  apply prefix_length_eq in Hp as ->; [done|lia].
Qed.

End refinement.

(** ** Witnesses *)

Module Witness.
#[local] Existing Instance ListModel.list_hvec.
#[local] Existing Instance ListModel.list_hvec_laws.
#[local] Existing Instance StateMachine.Witness.covered_dec.
Import Cluster.Witness.

(** An action with its events. *)
Definition watch1 (who : RaftNode -> bool) (c : cluster) (a : action) : option (list event * cluster) :=
  c' ← act c a;
  match a with
  | Local i o =>
      s ← cl_nodes c !! i;
      s' ← cl_nodes c' !! i;
      Some (observe who i s o s', c')
  | Deliver k =>
      p ← cl_net c !! k;
      s ← cl_nodes c !! pk_dst p;
      s' ← cl_nodes c' !! pk_dst p;
      Some (observe who (pk_dst p) s (OpStep (pk_src p) (pk_msg p)) s', c')
  | Lose _ | Crash _ => Some ([], c')
  | Duplicate _ => None
  end.

Fixpoint watch (who : RaftNode -> bool) (Q : cluster -> Prop) `{forall c, Decision (Q c)} (c : cluster)
    (xs : list cmd) : option (list event * cluster) :=
  match xs with
  | [] => Some ([], c)
  | x :: xs' =>
      a ← action_of c x;
      '(evs, c1) ← watch1 who c a;
      '(evs', c2) ← (if bool_decide (Q c1) then watch who Q c1 xs' else None);
      Some (evs ++ evs', c2)
  end.

Lemma watch1_shows who c a evs c' : watch1 who c a = Some (evs, c') -> shows who c evs c'.
Proof.
  destruct c as [nodes net]. unfold watch1. intros (c1 & Ha & H)%bind_Some. destruct a as [i o|k|k|i|k]; cbn [act cl_nodes cl_net] in *.
  - apply bind_Some in Ha as (s & Hi & Ha). apply bind_Some in Ha as ([s' out] & Ha & [= <-]).
    rewrite Hi in H. cbn in H. rewrite lookup_insert_eq in H. injection H as <- <-.
    destruct (is_local o) eqn:Ho; [|done]. by eapply sh_local.
  - apply bind_Some in Ha as (p & Hp & Ha). apply bind_Some in Ha as (s & Hs & Ha).
    apply bind_Some in Ha as ([s' out] & Ha & [= <-]). rewrite Hp in H. cbn in H. rewrite Hs in H. cbn in H.
    rewrite lookup_insert_eq in H. injection H as <- <-. rewrite <- (take_drop_middle net k p Hp) at 1. by eapply sh_deliver.
  - apply bind_Some in Ha as (p & Hp & [= <-]). injection H as <- <-. rewrite <- (take_drop_middle net k p Hp) at 1. apply sh_lose.
  - injection Ha as <-. injection H as <- <-. apply sh_crash.
  - done.
Qed.

Lemma watch_behaves who (Q : cluster -> Prop) `{forall c, Decision (Q c)} c0 xs : forall evs0 c evs c',
  behaves who Q c0 evs0 c -> watch who Q c xs = Some (evs, c') -> behaves who Q c0 (evs0 ++ evs) c'.
Proof.
  induction xs as [|x xs IH]; intros evs0 c evs c' Hb; cbn [watch]; [intros [= <- <-]; by rewrite app_nil_r|].
  intros (a & _ & H1)%bind_Some. apply bind_Some in H1 as ([evs1 c1] & Hw%watch1_shows & H1).
  apply bind_Some in H1 as ([evs2 c2] & H2 & [= <- <-]). case_bool_decide; [|done].
  rewrite app_assoc. eapply IH; [|exact H2]. by eapply bh_step.
Qed.

(** Two leaders in a row, as in [Decisions.v]; the second tells node 1 what it committed. *)
Definition script : list cmd := Decisions.Witness.first ++ [Pass 2 1] ++ Decisions.Witness.second ++
  [Pass 1 2; Propose 2 3 4; Pass 2 1].

Definition seen (who : RaftNode -> bool) (Q : cluster -> Prop) `{forall c, Decision (Q c)} : option (list event) :=
  fst <$> watch who Q three script.

Definition e1 : LogEntry := mkEntry 1 1 2.
Definition e2 : LogEntry := mkEntry 2 2 3.
Definition e3 : LogEntry := mkEntry 2 3 4.

Lemma seen_checked :
  seen is_leader (fun _ => True) =
    Some [Proposed 1 e1; Decided 1 [e1]; Proposed 2 e2; Decided 2 [e1; e2]; Proposed 2 e3] /\
  seen (fun _ => true) covered =
    Some [Proposed 1 e1; Decided 1 [e1]; Proposed 2 e2; Decided 2 [e1; e2]; Proposed 2 e3; Decided 1 [e1; e2]].
Proof. split; vm_compute; reflexivity. Qed.

Lemma seen_behaves who (Q : cluster -> Prop) `{forall c, Decision (Q c)} evs :
  seen who Q = Some evs -> exists c, behaves who Q three evs c.
Proof.
  unfold seen. intros ([evs' c] & Hw & ->)%fmap_Some. exists c.
  exact (watch_behaves who Q three script [] three _ c (bh_start who Q three) Hw).
Qed.

(** A commit that contradicts the log is no step of the specification, nor is one of an
    entry that nobody proposed. *)
Example spec_refuses :
  spec_run spec_init [Proposed 1 e1; Proposed 2 e2; Decided 1 [e1]; Decided 2 [e2]] = None /\
  spec_run spec_init [Proposed 1 e1; Decided 1 [e2]] = None.
Proof. split; vm_compute; reflexivity. Qed.

Lemma leaders_refine_log_witness : exists c evs sp,
  behaves is_leader (fun _ => True) three evs c /\ length evs = 5%nat /\ spec_run spec_init evs = Some sp.
Proof.
  destruct (seen_behaves _ _ _ (proj1 seen_checked)) as [c Hb].
  destruct (leaders_refine_log _ _ _ _ three_init Hb) as [sp Hsp]. eexists c, _, sp. split; [exact Hb|]. split; [reflexivity|exact Hsp].
Defined.

Lemma nodes_refine_log_witness : exists c evs sp,
  behaves (fun _ => true) covered three evs c /\ length evs = 6%nat /\ spec_run spec_init evs = Some sp /\
  forall i s, cl_nodes c !! i = Some s -> committed_log s `prefix_of` decided sp.
Proof.
  destruct (seen_behaves _ _ _ (proj2 seen_checked)) as [c Hb].
  destruct (nodes_refine_log _ _ _ _ three_init Hb) as (sp & Hsp & Hp). eexists c, _, sp. split; [exact Hb|].
  split; [reflexivity|]. split; [exact Hsp|exact Hp].
Defined.

End Witness.
