(* ===== verification/Repair.v ===== *)
(** * Repairing a follower's log

    A leader of [src/consensus/raft.rs] sends entries only from [propose]: a refused
    [AppendEntries] lowers the next index of the peer by one, and the next attempt is the
    next proposal.  A [round] is such an attempt with links that deliver: a proposal, its
    message to one peer, and the reply.

    [follower_catches_up]: enough rounds make the log of the peer equal to the leader's,
    with a bound on their number.  [empty_follower_starves]: every round takes a place of
    the 256 of the log, and a new leader with half of them taken never brings a peer with an
    empty log up to date. *)
From S2P Require Import Prelude Heapless Types Raft RaftSafety Cluster LogMatching Completeness StateMachine.
From stdpp Require Import base tactics list numbers option strings gmap sets relations.
Open Scope Z_scope.

#[local] Arguments quorum : simpl never.

Section repair.
Context `{HV : HVec} `{HL : !HVecLaws}.
Implicit Types (s f : RaftNode) (l : list LogEntry) (L : history).

#[local] Abbreviation entries s := (entries_of (rn_log s)).

(** ** Rounds *)

(** A proposal at [s] whose message to peer [k], the node [f], is delivered, and so is the
    reply. *)
Definition round (k : nat) (src dst : NodeId) s f : option (RaftNode * RaftNode) :=
  '(s1, out, _) ← propose s src dst ([] : Outbox);
  match out !! k with
  | None => Some (s1, f)
  | Some (p, m) =>
      if decide (p = rn_id f) then
        '(f1, back, _) ← step f (rn_id s) m ([] : Outbox);
        match back !! 0%nat with
        | None => Some (s1, f1)
        | Some (q, m') =>
            if decide (q = rn_id s) then '(s2, _, _) ← step s1 (rn_id f) m' ([] : Outbox); Some (s2, f1)
            else Some (s1, f1)
        end
      else Some (s1, f)
  end.

Fixpoint rounds (k : nat) (ps : list (NodeId * NodeId)) s f : option (RaftNode * RaftNode) :=
  match ps with
  | [] => Some (s, f)
  | (src, dst) :: ps' => '(s', f') ← round k src dst s f; rounds k ps' s' f'
  end.

Lemma sent_elem i (out : Outbox) k p m : out !! k = Some (p, m) -> mkPacket i p m ∈ sent i out.
Proof. intros Hk. apply list_elem_of_fmap. exists (p, m). split; [done|]. by eapply list_elem_of_lookup_2. Qed.

Lemma deliver_step c i j f m f' (out : Outbox) r :
  mkPacket i j m ∈ cl_net c -> cl_nodes c !! j = Some f -> step f i m ([] : Outbox) = Some (f', out, r) ->
  exists net', cluster_step c (mkCluster (<[j := f']> (cl_nodes c)) net') /\ sent j out ⊆ net'.
Proof.
  destruct c as [nodes net]. cbn [cl_net cl_nodes]. intros (n1 & n2 & ->)%list_elem_of_split Hj Hs.
  eexists. split; [apply (cs_deliver (mkPacket i j m) f f' out nodes n1 n2 Hj)|set_solver].
  cbn. by rewrite Hs.
Qed.

(** A round is a part of an execution. *)
Lemma round_steps k src dst c i j s f s' f' :
  cl_nodes c !! i = Some s -> cl_nodes c !! j = Some f -> rn_id s = i -> rn_id f = j -> i <> j ->
  round k src dst s f = Some (s', f') ->
  exists c', rtc cluster_step c c' /\ cl_nodes c' !! i = Some s' /\ cl_nodes c' !! j = Some f'.
Proof.
  intros Hi Hj <- <- Hne. unfold round. intros ([[s1 out] r] & Hp & H)%bind_Some.
  destruct c as [nodes net]. cbn [cl_nodes] in *. set (c1 := mkCluster (<[rn_id s := s1]> nodes) (net ++ sent (rn_id s) out)).
  assert (rtc cluster_step (mkCluster nodes net) c1) as H1.
  { apply rtc_once, (cs_local _ s (OpPropose src dst)); [done|done|]. cbn. by rewrite Hp. }
  assert (cl_nodes c1 !! rn_id s = Some s1 /\ cl_nodes c1 !! rn_id f = Some f) as [Hi1 Hj1].
  { cbn. by rewrite lookup_insert_eq, lookup_insert_ne. }
  destruct (out !! k) as [[p m]|] eqn:Hk; [|injection H as <- <-; by exists c1].
  case_decide as Hpf; [subst p|injection H as <- <-; by exists c1].
  apply bind_Some in H as ([[f1 back] r1] & Hst & H).
  destruct (deliver_step c1 (rn_id s) (rn_id f) f m f1 back r1) as (net2 & H2 & Hnet2); [|done..|].
  { cbn. apply elem_of_app. right. by eapply sent_elem. }
  set (c2 := mkCluster _ net2) in H2.
  assert (rtc cluster_step (mkCluster nodes net) c2) as H12 by (by eapply rtc_r).
  assert (cl_nodes c2 !! rn_id s = Some s1 /\ cl_nodes c2 !! rn_id f = Some f1) as [Hi2 Hj2].
  { cbn. by rewrite lookup_insert_eq, lookup_insert_ne, lookup_insert_eq. }
  destruct (back !! 0%nat) as [[q m']|] eqn:Hb; [|injection H as <- <-; by exists c2].
  case_decide as Hqs; [subst q|injection H as <- <-; by exists c2].
  apply bind_Some in H as ([[s2 out3] r3] & Hst3 & [= <- <-]).
  destruct (deliver_step c2 (rn_id f) (rn_id s) s1 m' s2 out3 r3) as (net3 & H3 & _); [|done..|].
  { cbn. apply Hnet2. by eapply sent_elem. }
  eexists. split; [by eapply rtc_r|]. cbn. by rewrite lookup_insert_eq, lookup_insert_ne, lookup_insert_eq.
Qed.

(** ** The message to a peer *)

(** The message [send_ae_to] makes for peer [k]. *)
Definition addressed s (k : nat) (m : RaftMessage) : Prop :=
  exists next es, rn_next_index s !! k = Some next /\
    gather (S AE_CAP) (rn_log s) hv_new next = Some es /\
    m = AppendEntries (rn_current_term s) (rn_id s) (saturating_sub_u64 next 1)
          (if saturating_sub_u64 next 1 =? 0 then 0
           else default 0 (term_at (rn_log s) (saturating_sub_u64 next 1))) es (rn_commit_index s).

Lemma send_ae_addressed s k p next (t t' : Outbox) :
  hv_slice (rn_peers s) !! k = Some p -> rn_next_index s !! k = Some next ->
  send_ae_to s k t = Some t' -> exists m, addressed s k m /\ t' = t ++ [(p, m)].
Proof.
  intros Hp Hn. unfold send_ae_to. rewrite Hp, Hn. intros (es & Hg & [= <-])%bind_Some.
  eexists. split; [|done]. by exists next, es.
Qed.

Lemma send_ae_grows s k (t t' : Outbox) :
  (k < n_peers s)%nat -> send_ae_to s k t = Some t' -> exists x, t' = t ++ [x].
Proof.
  intros Hk. unfold send_ae_to. destruct (lookup_lt_is_Some_2 (hv_slice (rn_peers s)) k Hk) as [p ->].
  intros (es & _ & [= <-])%bind_Some. by eexists.
Qed.

(** The message to peer [k] is the [k]-th one. *)
Lemma broadcast_nth s k p next : forall j (t t' : Outbox),
  hv_slice (rn_peers s) !! k = Some p -> rn_next_index s !! k = Some next -> (j <= n_peers s)%nat ->
  foldl (fun ot i => t ← ot; send_ae_to s i t) (Some t) (seq 0 j) = Some t' ->
  length t' = (length t + j)%nat /\
  ((k < j)%nat -> exists m, addressed s k m /\ t' !! (length t + k)%nat = Some (p, m)).
Proof.
  induction j as [|j IH]; intros t t' Hp Hn Hj.
  { cbn. intros [= <-]. split; [lia|]. lia. }
  rewrite seq_S, foldl_app. cbn. intros (t1 & H1 & Hs)%bind_Some.
  destruct (IH t t1 Hp Hn ltac:(lia) H1) as [Hlen Hm]. split.
  - destruct (send_ae_grows s j t1 t' Hj Hs) as [x ->]. rewrite length_app. cbn. lia.
  - intros Hk. destruct (decide (k = j)) as [->|Hne].
    + destruct (send_ae_addressed s j p next t1 t' Hp Hn Hs) as (m & Ha & ->). exists m. split; [done|].
      apply list_lookup_middle. lia.
    + destruct (Hm ltac:(lia)) as (m & Ha & Hl). destruct (send_ae_grows s j t1 t' Hj Hs) as [x ->].
      exists m. split; [done|]. by apply lookup_app_l_Some.
Qed.

(** What a proposal of a leader with room does. *)
Lemma propose_addressed s k p next src dst :
  node_wf s -> rn_role s = Leader -> (length (entries s) < RAFT_LOG_CAP)%nat ->
  hv_slice (rn_peers s) !! k = Some p -> rn_next_index s !! k = Some next ->
  exists lg m (out : Outbox), propose s src dst ([] : Outbox) = Some (set_log s lg, out, Ok tt) /\
    node_wf (set_log s lg) /\ entries_of lg = entries s ++ [mkEntry (rn_current_term s) src dst] /\
    out !! k = Some (p, m) /\ addressed (set_log s lg) k m.
Proof using HL.
  intros Hw Hl Hroom Hp Hn. destruct (propose_total s src dst ([] : Outbox) Hw) as (s1 & out & r & Hpr & Hw1).
  pose proof Hpr as Hpr'. unfold propose in Hpr'. unfold is_leader in Hpr'. rewrite bool_decide_true in Hpr' by done.
  cbn [negb] in Hpr'. set (e := {| le_term := _ |}) in Hpr'.
  pose proof (log_append_room (rn_log s) e Hroom) as He.
  destruct (log_append (rn_log s) e) as [lg ok] eqn:Ha. cbn [fst] in He. destruct ok.
  2: { exfalso. unfold log_append in Ha. destruct (hv_push_room _ _ (log_entries (rn_log s)) e Hroom) as (v & Hv & _).
       by rewrite Hv in Ha. }
  cbn [negb] in Hpr'. assert (k < n_peers s)%nat as Hk by (by apply lookup_lt_Some in Hp).
  rewrite decide_False in Hpr' by (change (n_peers (set_log s lg)) with (n_peers s); lia).
  apply bind_Some in Hpr' as (t1 & Hb & E). injection E as <- <- <-.
  destruct (broadcast_nth (set_log s lg) k p next (n_peers (set_log s lg)) [] t1 Hp Hn (le_n _) Hb) as [_ Hm].
  destruct (Hm Hk) as (m & Hadd & Hlk). by exists lg, m, t1.
Qed.

(** At a full log nothing is sent. *)
Lemma round_full k src dst s f :
  (RAFT_LOG_CAP <= length (entries s))%nat -> round k src dst s f = Some (s, f).
Proof using HL.
  intros Hc. unfold round, propose. destruct (is_leader s); cbn [negb mbind option_bind]; [|done].
  by rewrite log_append_full by done.
Qed.

(** ** The reply at the leader *)

Lemma reply_refused s from k next :
  node_wf s -> rn_role s = Leader -> peer_index s from = Some k -> rn_next_index s !! k = Some next -> 1 < next ->
  on_ae_reply s from (rn_current_term s) false 0 =
  Some (set_progress s (<[k := next - 1]> (rn_next_index s)) (rn_match_index s), None) /\
  node_wf (set_progress s (<[k := next - 1]> (rn_next_index s)) (rn_match_index s)).
Proof.
  intros Hw Hl Hp Hn Hlt. unfold on_ae_reply. rewrite Z.ltb_irrefl, Z.eqb_refl. unfold is_leader.
  rewrite bool_decide_true by done. cbn [negb orb]. rewrite Hp, Hn. cbn [mbind option_bind default from_option id].
  rewrite (proj2 (Z.ltb_lt _ _) Hlt). split; [done|].
  destruct Hw; constructor; cbn; try done. apply Forall_insert; [done|]. lia.
Qed.

Lemma reply_accepted s from k n :
  node_wf s -> rn_role s = Leader -> peer_index s from = Some k -> 0 <= n <= 256 ->
  exists c r, on_ae_reply s from (rn_current_term s) true n =
    Some (set_commit (set_progress s (<[k := n + 1]> (rn_next_index s)) (<[k := n]> (rn_match_index s))) c, r) /\
    node_wf (set_commit (set_progress s (<[k := n + 1]> (rn_next_index s)) (<[k := n]> (rn_match_index s))) c).
Proof.
  intros Hw Hl Hp Hn. unfold on_ae_reply. rewrite Z.ltb_irrefl, Z.eqb_refl. unfold is_leader.
  rewrite bool_decide_true by done. cbn [negb orb]. rewrite Hp, add_u64_fits by (unfold_width; lia).
  cbn [mbind option_bind]. set (s1 := set_progress s _ _).
  assert (node_wf s1) as Hw1.
  { destruct Hw; constructor; cbn; try done. apply Forall_insert; [done|]. lia. }
  destruct (advance_total s1 Hw1) as (s2 & b & Ha & Hw2). rewrite Ha.
  apply advance_commit_fields in Ha as (c & -> & _). by eexists _, _.
Qed.

(** ** A leader and a peer *)

(** The logs coincide up to [n]. *)
Definition matched (n : nat) s f : Prop :=
  take n (entries f) = take n (entries s) /\ (n <= length (entries f))%nat.

(** A leader [s] that would send peer [k], the node [f] of no later term, the entries from
    [m] on; both logs agree with a history of which that of [s] is a part. *)
Record linked L (i : NodeId) (k : nat) s f (m : nat) : Prop := {
  lk_wf : node_wf s;
  lk_wf_peer : node_wf f;
  lk_role : rn_role s = Leader;
  lk_peer : hv_slice (rn_peers s) !! k = Some (rn_id f);
  lk_index : peer_index s (rn_id f) = Some k;
  lk_next : rn_next_index s !! k = Some (Z.of_nat m);
  lk_pos : (1 <= m <= S RAFT_LOG_CAP)%nat;
  lk_match : (k < length (rn_match_index s))%nat;
  lk_term : rn_current_term f <= rn_current_term s;
  lk_hist : forall t c l, L t = Some (c, l) -> 1 <= t /\ agrees L l;
  lk_lead : L (rn_current_term s) = Some (i, entries s);
  lk_agrees : agrees L (entries f);
}.

Lemma addressed_backed L i k s f m msg :
  linked L i k s f m -> addressed s k msg -> backed L msg.
Proof using HL.
  intros Hk (next & es & Hn & Hg & ->). set (msg := AppendEntries _ _ _ _ _ _).
  assert (send_ae_to s k ([] : Outbox) = Some [(rn_id f, msg)]) as Hs.
  { unfold send_ae_to. rewrite (lk_peer _ _ _ _ _ _ Hk), Hn. cbn [default from_option id]. by rewrite Hg. }
  destruct (send_ae_backed L s k i _ _ (lk_lead _ _ _ _ _ _ Hk) (nw_next s (lk_wf _ _ _ _ _ _ Hk)) Hs (rn_id f, msg))
    as [H%not_elem_of_nil|H]; [by left|done|exact H].
Qed.

(** What [m] says of the message. *)
Lemma addressed_fields L i k s f m msg :
  linked L i k s f m -> addressed s k msg ->
  exists pt es, msg = AppendEntries (rn_current_term s) (rn_id s) (Z.of_nat (m - 1)) pt es (rn_commit_index s) /\
    hv_slice es = take AE_CAP (drop (m - 1) (entries s)) /\
    (forall e, (1 < m)%nat -> entries s !! (m - 2)%nat = Some e -> pt = le_term e).
Proof using HL.
  intros Hk (next & es & Hn & Hg & ->). pose proof (lk_pos _ _ _ _ _ _ Hk).
  rewrite (lk_next _ _ _ _ _ _ Hk) in Hn. injection Hn as <-.
  assert (saturating_sub_u64 (Z.of_nat m) 1 = Z.of_nat (m - 1)) as -> by (unfold saturating_sub_u64; lia).
  eexists _, es. split; [done|]. split.
  - replace (Z.of_nat m) with (Z.of_nat (m - 1) + 1) in Hg by lia.
    apply gather_take in Hg; [|lia]. unfold hv_len in Hg. rewrite hv_slice_new in Hg. exact Hg.
  - intros e Hm He. destruct (Z.eqb_spec (Z.of_nat (m - 1)) 0); [lia|].
    replace (Z.of_nat (m - 1)) with (Z.of_nat (m - 2) + 1) by lia. by rewrite term_at_nat, He.
Qed.

(** The peer refuses, and then its log differs from the leader's before the entries sent,
    or takes them over. *)
Lemma deliver_addressed L i k s f m msg :
  linked L i k s f m -> addressed s k msg ->
  exists f' r, step f (rn_id s) msg ([] : Outbox) = Some (f', [(rn_id s, r)], None) /\ node_wf f' /\
    rn_id f' = rn_id f /\ rn_current_term f' = rn_current_term s /\
    ((r = AppendEntriesReply (rn_current_term s) false 0 /\ rn_log f' = rn_log f /\
      (1 < m)%nat /\ ~ matched (m - 1) s f) \/
     (exists n, n = Nat.min (m - 1 + AE_CAP) (length (entries s)) /\
      r = AppendEntriesReply (rn_current_term s) true (Z.of_nat n) /\ matched (m - 1) s f /\
      taken_over (entries f) (entries s) n (entries f'))).
Proof using HL.
  intros Hk Hadd. pose proof (addressed_backed _ _ _ _ _ _ _ Hk Hadd) as Hback.
  destruct (addressed_fields _ _ _ _ _ _ _ Hk Hadd) as (pt & es & -> & Hes & Hpt).
  destruct Hback as (Hpi & c & l & HLt & Hprev & Hpre). rewrite (lk_lead _ _ _ _ _ _ Hk) in HLt. injection HLt as <- <-.
  pose proof (lk_pos _ _ _ _ _ _ Hk) as Hm. pose proof (lk_wf _ _ _ _ _ _ Hk) as Hw.
  destruct cap_value as (Hcap & Hae & _). rewrite Hcap in *.
  destruct (on_append_entries_total f (rn_id s) (rn_current_term s) (Z.of_nat (m - 1)) pt es (rn_commit_index s)
    ([] : Outbox)) as (f' & out & Hae' & Hw').
  { apply (lk_wf_peer _ _ _ _ _ _ Hk). } { apply (nw_term s Hw). } { unfold_width. lia. }
  { pose proof (nw_commit s Hw). unfold_width. lia. } { unfold hv_len. rewrite Hes, length_take. lia. }
  assert (rn_id f' = rn_id f) as Hid by apply (on_append_entries_quiet _ _ _ _ _ _ _ _ _ Hae').
  unfold step. rewrite Hae'. cbn [mbind option_bind].
  eapply (on_append_entries_cases L) in Hae'; [|apply Hk|apply Hk|apply (lk_lead _ _ _ _ _ _ Hk)|apply (nw_log s Hw)|exact Hpi|exact Hprev|exact Hpre].
  destruct Hae' as [(Hlt & _)|(_ & Et & _ & [((Hp0 & Hne) & El & _ & ->)|(n & Hn & Hmt & Hto & _ & ->)])].
  - pose proof (lk_term _ _ _ _ _ _ Hk). lia.
  - eexists f', _. do 4 (split; [done|]). left. split; [done|]. split; [done|]. split; [lia|].
    intros [Ht Hlen]. apply Hne. replace (Z.of_nat (m - 1)) with (Z.of_nat (m - 2) + 1) by lia. rewrite term_at_nat.
    assert (entries f !! (m - 2)%nat = entries s !! (m - 2)%nat) as E by (eapply take_prefix_elem; [exact Ht|lia]).
    destruct (lookup_lt_is_Some_2 (entries f) (m - 2) ltac:(lia)) as [e He]. rewrite He in E.
    rewrite He. cbn. by rewrite (Hpt e) by (done || lia).
  - eexists f', _. do 4 (split; [done|]). right. exists n. rewrite Nat2Z.id in Hmt.
    assert (m - 1 <= length (entries s))%nat as Hle by (eapply take_eq_length; apply Hmt).
    rewrite Hes, length_take, length_drop in Hn. split; [lia|]. split; [done|]. by split.
Qed.

(** ** One round *)

(** The history with the proposal. *)
Lemma linked_propose L i k s f m e lg :
  linked L i k s f m -> le_term e = rn_current_term s -> entries_of lg = entries s ++ [e] ->
  node_wf (set_log s lg) ->
  linked (record L (rn_current_term s) i (entries_of lg)) i k (set_log s lg) f m.
Proof.
  intros Hk He Hlg Hw. set (L' := record _ _ _ _).
  assert (extends L L') as Hext.
  { apply record_extends. right. eexists _, _. split; [apply (lk_lead _ _ _ _ _ _ Hk)|exact Hlg]. }
  destruct (lk_hist _ _ _ _ _ _ Hk _ _ _ (lk_lead _ _ _ _ _ _ Hk)) as [Ht Hs].
  destruct Hk as [_ Hwf Hr Hp Hi Hn Hpos Hmt Htm Hh Hl Ha]. constructor; try done.
  - intros t c l. unfold L', record at 1. destruct (decide (t = rn_current_term s)) as [->|].
    + intros [= _ <-]. split; [done|]. fold L'. unfold L' in *. rewrite Hlg in *.
      apply agrees_snoc; [|done]. by eapply agrees_extends.
    + intros H. destruct (Hh _ _ _ H). split; [done|]. by eapply agrees_extends.
  - cbn. apply record_eq.
  - by eapply agrees_extends.
Qed.

(** Both nodes after a message and its reply. *)
Lemma linked_progress L i k s f m s' f' m' :
  linked L i k s f m -> (exists nx mt c, s' = set_commit (set_progress s nx mt) c /\
    nx = <[k := Z.of_nat m']> (rn_next_index s) /\ length mt = length (rn_match_index s)) ->
  node_wf s' -> node_wf f' -> rn_id f' = rn_id f -> (1 <= m' <= S RAFT_LOG_CAP)%nat ->
  rn_current_term f' = rn_current_term s -> agrees L (entries f') -> linked L i k s' f' m'.
Proof.
  intros [_ _ Hr Hp Hi Hn Hpos Hmt Htm Hh Hl Ha] (nx & mt & c & -> & -> & Hlen) Hw Hwf Hid Hm Ht Hag.
  constructor; cbn; rewrite ?Hid, ?Hlen; try done; [|lia].
  apply list_lookup_insert_eq. by apply lookup_lt_Some in Hn.
Qed.

(** A peer does not hold the entry a leader proposes next. *)
Lemma fresh_entry L i k s f m e :
  linked L i k s f m -> le_term e = rn_current_term s ->
  take (S (length (entries s))) (entries f) <> entries s ++ [e].
Proof.
  intros Hk He Ht. assert (entries f !! length (entries s) = Some e) as Hf.
  { rewrite <- (lookup_take_lt (entries f) (S (length (entries s))) (length (entries s)) ltac:(lia)), Ht. by apply list_lookup_middle. }
  destruct (lk_agrees _ _ _ _ _ _ Hk _ _ Hf) as (c & l & Hc & Hl). rewrite He, (lk_lead _ _ _ _ _ _ Hk) in Hc.
  injection Hc as _ <-. rewrite Hl in Ht. apply (f_equal length) in Ht.
  rewrite length_take, length_app in Ht. cbn [length] in Ht. lia.
Qed.

(** What a round at a log with room has for the pair: the proposal is in the leader's log,
    and either the peer refuses and the next index goes down, or it takes over up to sixteen
    entries and the next index follows. *)
Definition moved (k : nat) s f (m : nat) (e : LogEntry) s' f' (m' : nat) : Prop :=
  entries s' = entries s ++ [e] /\
  (((1 < m)%nat /\ m' = (m - 1)%nat /\ entries f' = entries f /\ ~ matched (m - 1) s' f) \/
   (exists n, n = Nat.min (m - 1 + AE_CAP) (length (entries s')) /\ m' = S n /\
      matched (m - 1) s' f /\ matched n s' f' /\ rn_match_index s' !! k = Some (Z.of_nat n) /\
      (n = length (entries s') -> entries f' = entries s'))).

Lemma round_outcome L i k src dst s f m :
  linked L i k s f m -> (length (entries s) < RAFT_LOG_CAP)%nat ->
  exists L' s' f' m', round k src dst s f = Some (s', f') /\ linked L' i k s' f' m' /\
    moved k s f m (mkEntry (rn_current_term s) src dst) s' f' m'.
Proof using HL.
  intros Hk Hroom. set (e := mkEntry _ _ _). pose proof (lk_pos _ _ _ _ _ _ Hk) as Hpos.
  destruct cap_value as (Hcap & _ & _).
  destruct (propose_addressed s k (rn_id f) (Z.of_nat m) src dst) as (lg & msg & out & Hpr & Hw1 & Hlg & Hout & Hadd);
    [apply Hk|apply Hk|done|apply Hk|apply Hk|]. fold e in Hlg.
  pose proof (linked_propose L i k s f m e lg Hk eq_refl Hlg Hw1) as Hk1.
  set (s1 := set_log s lg) in *. set (L1 := record _ _ _ _) in Hk1.
  destruct (deliver_addressed _ _ _ _ _ _ _ Hk1 Hadd) as (f1 & r & Hst & Hwf & Hid & Htm & Hcases).
  unfold round. rewrite Hpr. cbn [mbind option_bind]. rewrite Hout. change (rn_id s) with (rn_id s1).
  rewrite decide_True, Hst by done. cbn [mbind option_bind lookup list_lookup]. rewrite decide_True by done.
  destruct Hcases as [(-> & El & Hm & Hno)|(n & Hn & -> & Hmt & Hto)]; unfold step.
  - destruct (reply_refused s1 (rn_id f) k (Z.of_nat m)) as [-> Hw2]; [apply Hk1..|lia|]. cbn [mbind option_bind].
    eexists L1, _, f1, (m - 1)%nat. split; [done|]. split; [|split; [exact Hlg|left; by rewrite El]].
    eapply (linked_progress L1 i k s1 f m); [exact Hk1| |exact Hw2|exact Hwf|exact Hid|lia|exact Htm|].
    + exists (<[k := Z.of_nat m - 1]> (rn_next_index s1)), (rn_match_index s1), (rn_commit_index s1).
      split; [done|]. split; [f_equal; lia|done].
    + rewrite El. apply Hk1.
  - destruct (reply_accepted s1 (rn_id f) k (Z.of_nat n)) as (c & r & -> & Hw2); [apply Hk1..| |].
    { pose proof (nw_log s1 Hw1). lia. }
    cbn [mbind option_bind]. eexists L1, _, f1, (S n). split; [done|]. split; [|split; [exact Hlg|right]].
    + eapply (linked_progress L1 i k s1 f m); [exact Hk1| |exact Hw2|exact Hwf|exact Hid| |exact Htm|].
      * eexists _, _, c. split; [done|]. split; [f_equal; lia|by rewrite length_insert].
      * pose proof (nw_log s1 Hw1). lia.
      * destruct Hto as (_ & _ & [->|[-> _]]); [apply Hk1|]. apply agrees_take. eapply Hk1, Hk1.
    + exists n. split; [done|]. split; [done|]. split; [done|]. split.
      { destruct Hto as (Ht & Hnl & _). split; [exact Ht|]. symmetry in Ht. by eapply take_eq_length. }
      split; [cbn; apply list_lookup_insert_eq; apply Hk1|].
      intros Hfull. destruct Hto as (Ht & _ & [Ho|[Ho _]]).
      * exfalso. apply (fresh_entry L i k s f m e Hk eq_refl).
        assert (entries s1 = entries s ++ [e]) as E1 by exact Hlg.
        assert (n = S (length (entries s))) as En.
        { rewrite Hfull. cbn [rn_log set_commit set_progress]. rewrite E1, length_app. cbn. lia. }
        rewrite Ho, E1, En in Ht. rewrite Ht. apply take_ge. rewrite length_app. cbn. lia.
      * rewrite Ho. by apply take_ge; lia.
Qed.

(** ** Catching up *)

(** The pair is at most [j] rounds from equal logs. *)
Definition rounds_left (j k : nat) s f (m : nat) : Prop :=
  (m = S (length (entries s)) /\ entries f = entries s /\ rn_match_index s !! k = Some (Z.of_nat (m - 1))) \/
  (matched (m - 1) s f /\ (S (length (entries s)) - m < 15 * j)%nat) \/
  ((m <= j)%nat /\ (length (entries s) + m - 1 < 15 * S (j - m))%nat).

Lemma moved_left j k s f m e s' f' m' :
  moved k s f m e s' f' m' -> (1 <= m)%nat -> rounds_left (S j) k s f m -> rounds_left j k s' f' m'.
Proof.
  intros [Hs Hcase] Hm Hw. destruct cap_value as (_ & Hae & _).
  assert (length (entries s') = S (length (entries s))) as Hlen by (rewrite Hs, length_app; cbn; lia).
  assert (matched (m - 1) s f -> matched (m - 1) s' f) as Hmt.
  { intros [Ht Hl]. split; [|done]. rewrite Hs, take_app_le; [done|]. by eapply take_eq_length. }
  destruct Hcase as [(H1 & -> & Hf & Hno)|(n & Hn & -> & _ & Hmn & Hix & Hall)].
  - right. right. destruct Hw as [(-> & Hf0 & _)|[[Hm0 _]|[Hj Hlt]]].
    + destruct Hno. apply Hmt. split; [by rewrite Hf0|]. rewrite Hf0. lia.
    + by destruct Hno; apply Hmt.
    + split; lia.
  - destruct (decide (n = length (entries s'))) as [E|E].
    + left. split; [lia|]. split; [by apply Hall|]. by replace (S n - 1)%nat with n by lia.
    + right. left. replace (S n - 1)%nat with n by lia. split; [done|].
      destruct Hw as [(-> & _)|[[_ Hlt]|[Hj Hlt]]]; lia.
Qed.

Lemma rounds_catch_up ps : forall L i k s f m,
  linked L i k s f m -> rounds_left (length ps) k s f m -> (length (entries s) + length ps <= RAFT_LOG_CAP)%nat ->
  exists L' s' f' m', rounds k ps s f = Some (s', f') /\ linked L' i k s' f' m' /\ rounds_left 0 k s' f' m' /\
    (exists new, entries s' = entries s ++ new /\ length new = length ps).
Proof using HL.
  induction ps as [|[src dst] ps IH]; intros L i k s f m Hk Hw Hroom; cbn [rounds length] in *.
  { exists L, s, f, m. do 3 (split; [done|]). exists []. by rewrite app_nil_r. }
  destruct (round_outcome L i k src dst s f m Hk ltac:(lia)) as (L1 & s1 & f1 & m1 & -> & Hk1 & Hmv).
  cbn [mbind option_bind]. pose proof Hmv as [Hs _].
  apply (moved_left (length ps)) in Hmv; [|apply Hk|done].
  destruct (IH L1 i k s1 f1 m1 Hk1 Hmv) as (L' & s' & f' & m' & -> & Hk' & Hw' & new & En & Hn).
  { rewrite Hs, length_app. cbn. lia. }
  exists L', s', f', m'. do 3 (split; [done|]). eexists (_ :: new). rewrite En, Hs, <- app_assoc.
  split; [done|]. cbn. lia.
Qed.

(** ** Starving *)

(** While the leader has room, the next index stays above one, and a peer with an empty log
    refuses; then the leader sends nothing any more. *)
Lemma rounds_starve ps : forall L i k s f m,
  linked L i k s f m -> entries f = [] -> (RAFT_LOG_CAP < length (entries s) + m)%nat ->
  exists s' f', rounds k ps s f = Some (s', f') /\ entries f' = [] /\
    length (entries s') = Nat.min RAFT_LOG_CAP (length (entries s) + length ps).
Proof using HL.
  induction ps as [|[src dst] ps IH]; intros L i k s f m Hk Hf Hm; cbn [rounds length];
    pose proof (nw_log s (lk_wf _ _ _ _ _ _ Hk)) as Hcap.
  { exists s, f. do 2 (split; [done|]). lia. }
  destruct (decide (length (entries s) < RAFT_LOG_CAP)%nat) as [Hroom|Hfull].
  - destruct (round_outcome L i k src dst s f m Hk Hroom) as (L1 & s1 & f1 & m1 & -> & Hk1 & Hs & Hcase).
    assert (length (entries s1) = S (length (entries s))) as Hlen by (rewrite Hs, length_app; cbn; lia).
    destruct Hcase as [(H1 & -> & Hf1 & _)|(n & _ & _ & [_ Hle] & _)].
    + destruct (IH L1 i k s1 f1 _ Hk1) as (s' & f' & Hr & Hf' & Hl); [by rewrite Hf1|lia|].
      exists s', f'. split; [exact Hr|]. split; [done|]. lia.
    + rewrite Hf in Hle. cbn in Hle. lia.
  - rewrite round_full by lia. cbn [mbind option_bind].
    destruct (IH L i k s f m Hk Hf Hm) as (s' & f' & Hr & Hf' & Hl). exists s', f'.
    split; [exact Hr|]. split; [done|]. lia.
Qed.

(** ** In a cluster *)

Lemma peer_index_nodup s k p :
  NoDup (hv_slice (rn_peers s)) -> hv_slice (rn_peers s) !! k = Some p -> peer_index s p = Some k.
Proof.
  intros Hnd Hk. unfold peer_index. apply fmap_Some. exists (k, p). split; [|done].
  apply list_find_Some. split; [done|]. split; [done|]. intros i y Hi Hlt ->.
  pose proof (NoDup_lookup _ _ _ _ Hnd Hk Hi). lia.
Qed.

Lemma reachable_ids M c i s :
  cluster_reachable M c -> cl_nodes c !! i = Some s ->
  rn_id s = i /\ NoDup (hv_slice (rn_peers s)) /\ list_to_set (hv_slice (rn_peers s)) = M ∖ {[ i ]}.
Proof using HL. intros (B & V & L & Hv & _)%reachable_log_safe Hi. apply (vi_node _ _ _ _ _ Hv i s Hi). Qed.

(** Rounds are part of an execution. *)
Lemma rounds_steps M k ps : forall c i j s f s' f',
  cluster_reachable M c -> cl_nodes c !! i = Some s -> cl_nodes c !! j = Some f -> i <> j ->
  rounds k ps s f = Some (s', f') ->
  exists c', rtc cluster_step c c' /\ cl_nodes c' !! i = Some s' /\ cl_nodes c' !! j = Some f'.
Proof using HL.
  induction ps as [|[src dst] ps IH]; intros c i j s f s' f' Hc Hi Hj Hne; cbn [rounds].
  { intros [= <- <-]. by exists c. }
  intros ([s1 f1] & Hr & H)%bind_Some.
  destruct (round_steps k src dst c i j s f s1 f1) as (c1 & H1 & Hi1 & Hj1); [done..| | |done|done|].
  { by eapply (reachable_ids M c). } { by eapply (reachable_ids M c). }
  destruct (IH c1 i j s1 f1 s' f') as (c' & H2 & ?); [|done..|].
  - destruct Hc as (c0 & Hi0 & Hc). exists c0. split; [done|]. by etrans.
  - exists c'. split; [by etrans|done].
Qed.

Section pair.
Context (M : gset NodeId) (c : cluster) (i j : NodeId) (s f : RaftNode) (k : nat).
Context (Hc : cluster_reachable M c) (Hi : cl_nodes c !! i = Some s) (Hj : cl_nodes c !! j = Some f).
Context (Hlead : rn_role s = Leader) (Hterm : rn_current_term f <= rn_current_term s).
Context (Hws : node_wf s) (Hwf : node_wf f) (Hpeer : hv_slice (rn_peers s) !! k = Some j).

Lemma pair_ne : i <> j.
Proof using Hc Hi Hpeer HL.
  intros ->. destruct (reachable_ids M c j s Hc Hi) as (_ & _ & Hs). apply list_elem_of_lookup_2 in Hpeer.
  assert (j ∈ M ∖ {[ j ]}) as Hin by (rewrite <- Hs; by apply elem_of_list_to_set).
  apply elem_of_difference in Hin as [_ Hn]. by apply Hn, elem_of_singleton.
Qed.

Lemma pair_linked m :
  rn_next_index s !! k = Some (Z.of_nat m) -> (m <= S RAFT_LOG_CAP)%nat -> exists L, linked L i k s f m.
Proof using All.
  intros Hm Hle. pose proof (reachable_log_safe M c Hc) as (B & V & L & _ & Hl). exists L.
  destruct (progress_reachable M c Hc i s Hi) as (Hpos & _ & Hlen).
  pose proof (Forall_lookup_1 _ _ _ _ Hpos Hm) as H1. pose proof (lookup_lt_Some _ _ _ Hpeer) as Hk.
  destruct (reachable_ids M c i s Hc Hi) as (_ & Hnd & _). destruct (reachable_ids M c j f Hc Hj) as (Hid & _ & _).
  constructor; try done; rewrite ?Hid; try done.
  - by apply peer_index_nodup.
  - cbn in H1. lia.
  - unfold n_peers, hv_len in Hlen. lia.
  - intros t y l Ht. by destruct (lg_hist _ _ _ _ _ Hl t y l Ht) as (? & ? & _).
  - by apply (nl_lead _ _ _ (lg_node _ _ _ _ _ Hl i s Hi)).
  - apply (nl_agrees _ _ _ (lg_node _ _ _ _ _ Hl j f Hj)).
Qed.

End pair.

(** C17: Log repair.  In a reachable cluster, let node [j] be the peer [k] of a leader [i],
    of no later term, with next index [m], and let the leader hold [n] entries.  If every
    proposal of the leader, its message to [j] and the reply are delivered, then after
    [m + (n + m - 1) / 15] or more proposals, as far as they fit into the log, the log of
    [j] is the leader's, whatever the two logs were, and the leader knows it: the refusals
    walk back at most to the first entry, and from the first match each proposal brings
    fifteen entries more than it adds.  The rounds are steps of the cluster. *)
Theorem follower_catches_up M c i j s f k m ps :
  cluster_reachable M c -> cl_nodes c !! i = Some s -> cl_nodes c !! j = Some f ->
  rn_role s = Leader -> rn_current_term f <= rn_current_term s -> node_wf s -> node_wf f ->
  hv_slice (rn_peers s) !! k = Some j -> rn_next_index s !! k = Some (Z.of_nat m) ->
  (m + (length (entries s) + m - 1) / 15 <= length ps)%nat ->
  (length (entries s) + length ps <= RAFT_LOG_CAP)%nat ->
  exists c' s' f', rounds k ps s f = Some (s', f') /\
    rtc cluster_step c c' /\ cl_nodes c' !! i = Some s' /\ cl_nodes c' !! j = Some f' /\
    entries f' = entries s' /\ rn_match_index s' !! k = Some (last_index (rn_log s')) /\
    rn_role s' = Leader /\ exists new, entries s' = entries s ++ new /\ length new = length ps.
Proof using HL.
  intros Hc Hi Hj Hl Ht Hws Hwf Hp Hm Hb Hroom.
  pose proof (Nat.mul_succ_div_gt (length (entries s) + m - 1) 15 ltac:(lia)).
  destruct (pair_linked M c i j s f k Hc Hi Hj Hl Ht Hws Hwf Hp m Hm ltac:(lia)) as [L Hk].
  destruct (rounds_catch_up ps L i k s f m Hk) as (L' & s' & f' & m' & Hr & Hk' & Hleft & Hnew); [|done|].
  { right. right. split; [lia|]. nia. }
  pose proof (lk_pos _ _ _ _ _ _ Hk').
  destruct Hleft as [(Em & Ef & Ex)|[[_ ?]|[? _]]]; [|lia..].
  destruct (rounds_steps M k ps c i j s f s' f' Hc Hi Hj (pair_ne M c i j s k Hc Hi Hp) Hr) as (c' & Hs & Hi' & Hj').
  exists c', s', f'. do 5 (split; [done|]). split; [|split; [apply Hk'|done]].
  rewrite Ex, last_index_entries. do 2 f_equal. lia.
Qed.

(** C34: Starvation.  A leader that holds 128 or more of the 256 entries a log has room for
    when it is elected never repairs a peer with an empty log, however many proposals
    follow and although every message is delivered: each refusal lowers the next index by
    one and the retry, a proposal, takes a place in the log, which is full before the next
    index has come down to the first entry. *)
Theorem empty_follower_starves M c i j s f k ps :
  cluster_reachable M c -> cl_nodes c !! i = Some s -> cl_nodes c !! j = Some f ->
  rn_role s = Leader -> rn_current_term f <= rn_current_term s -> node_wf s -> node_wf f ->
  hv_slice (rn_peers s) !! k = Some j -> rn_next_index s !! k = Some (last_index (rn_log s) + 1) ->
  128 <= last_index (rn_log s) -> entries f = [] ->
  exists c' s' f', rounds k ps s f = Some (s', f') /\
    rtc cluster_step c c' /\ cl_nodes c' !! i = Some s' /\ cl_nodes c' !! j = Some f' /\
    entries f' = [] /\
    last_index (rn_log s') = Z.min 256 (last_index (rn_log s) + Z.of_nat (length ps)).
Proof using HL.
  intros Hc Hi Hj Hl Ht Hws Hwf Hp Hm H128 Hf. destruct cap_value as (Hcap & _ & _).
  pose proof (nw_log s Hws) as Hlen. rewrite last_index_entries in *.
  replace (Z.of_nat (length (entries s)) + 1) with (Z.of_nat (S (length (entries s)))) in Hm by lia.
  destruct (pair_linked M c i j s f k Hc Hi Hj Hl Ht Hws Hwf Hp _ Hm ltac:(lia)) as [L Hk].
  destruct (rounds_starve ps L i k s f _ Hk Hf ltac:(lia)) as (s' & f' & Hr & Hf' & Hl').
  destruct (rounds_steps M k ps c i j s f s' f' Hc Hi Hj (pair_ne M c i j s k Hc Hi Hp) Hr) as (c' & Hs & Hi' & Hj').
  exists c', s', f'. do 5 (split; [done|]). rewrite last_index_entries. lia.
Qed.

End repair.

(** ** Witnesses *)

Module Witness.
#[local] Existing Instance ListModel.list_hvec.
#[local] Existing Instance ListModel.list_hvec_laws.
Import Cluster.Witness.

(** Node 1 is elected by node 2, proposes [n] traversals whose messages are lost, and is
    elected again. *)
Definition elect : list action := [Local 1 OpElect; Deliver 0; Deliver 1; Lose 0].
Definition script (n : nat) : list action :=
  elect ++ concat (replicate n [Local 1 (OpPropose 1 2); Lose 0; Lose 0]) ++ elect.

Definition stage (n : nat) : cluster := default three (schedule three (script n)).
Definition at_stage (n : nat) (i : NodeId) : RaftNode :=
  default (node_new i peers_new) (cl_nodes (stage n) !! i).

Lemma script_reachable n : schedule three (script n) = Some (stage n) ->
  forallb (fun a => negb (duplicates a)) (script n) = true -> cluster_reachable {[1; 2; 3]} (stage n).
Proof.
  intros Hs Hd. eapply (schedule_reachable (script n) Hd); [|exact Hs].
  exists three. split; [exact three_init|constructor].
Qed.

(** The invariant of a node, evaluated. *)
Definition wf_check (s : RaftNode) : bool :=
  (0 <=? rn_current_term s) && (rn_current_term s <=? U64_MAX) &&
  (length (entries_of (rn_log s)) <=? RAFT_LOG_CAP)%nat &&
  (0 <=? rn_commit_index s) && (rn_commit_index s <=? 256) && (n_peers s <=? MAX_PEERS)%nat &&
  (0 <=? rn_votes_granted s) && (rn_votes_granted s <=? Z.of_nat (quorum s)) &&
  negb (bool_decide (rn_role s = Candidate)) && forallb (Z.leb 0) (rn_next_index s).

Lemma wf_check_sound s : wf_check s = true -> node_wf s.
Proof.
  unfold wf_check. rewrite !andb_true_iff, !Z.leb_le, !Nat.leb_le, negb_true_iff, bool_decide_eq_false.
  intros [[[[[[[[[] ?] ?] ?] ?] ?] ?] ?] Hf]. constructor; try done.
  apply Forall_forall. intros x Hx. rewrite forallb_forall in Hf. apply Z.leb_le, Hf. by apply list_elem_of_In.
Qed.

(** What both witnesses evaluate of a stage. *)
Definition stage_check (n : nat) : Prop :=
  schedule three (script n) = Some (stage n) /\
  forallb (fun a => negb (duplicates a)) (script n) = true /\
  cl_nodes (stage n) !! 1 = Some (at_stage n 1) /\ cl_nodes (stage n) !! 3 = Some (at_stage n 3) /\
  rn_role (at_stage n 1) = Leader /\
  (rn_current_term (at_stage n 3) <=? rn_current_term (at_stage n 1)) = true /\
  wf_check (at_stage n 1) = true /\ wf_check (at_stage n 3) = true /\
  hv_slice (rn_peers (at_stage n 1)) !! 1%nat = Some 3 /\
  length (entries_of (rn_log (at_stage n 1))) = n /\ entries_of (rn_log (at_stage n 3)) = [] /\
  rn_next_index (at_stage n 1) !! 1%nat = Some (Z.of_nat (S n)).

Lemma stage_20 : stage_check 20.
Proof. unfold stage_check. split_and!; vm_compute; reflexivity. Qed.
Lemma stage_128 : stage_check 128.
Proof. unfold stage_check. split_and!; vm_compute; reflexivity. Qed.

(** Node 3 was away while node 1 took twenty proposals; 23 more bring it up to date. *)
Lemma follower_catches_up_witness : exists c' s' f',
  rounds 1 (replicate 23 (1, 2)) (at_stage 20 1) (at_stage 20 3) = Some (s', f') /\
  rtc cluster_step (stage 20) c' /\ cl_nodes c' !! 1 = Some s' /\ cl_nodes c' !! 3 = Some f' /\
  entries_of (rn_log f') = entries_of (rn_log s') /\ rn_match_index s' !! 1%nat = Some (last_index (rn_log s')) /\
  rn_role s' = Leader /\
  exists new, entries_of (rn_log s') = entries_of (rn_log (at_stage 20 1)) ++ new /\
    length new = length (replicate 23 (1, 2)).
Proof.
  destruct stage_20 as (Hs & Hd & H1 & H3 & Hl & Ht & Hw1 & Hw3 & Hp & Hn & _ & Hx).
  apply (follower_catches_up {[1; 2; 3]} (stage 20) 1 3 _ _ 1 21).
  - exact (script_reachable 20 Hs Hd).
  - exact H1.
  - exact H3.
  - exact Hl.
  - apply Z.leb_le. exact Ht.
  - exact (wf_check_sound _ Hw1).
  - exact (wf_check_sound _ Hw3).
  - exact Hp.
  - exact Hx.
  - rewrite Hn. apply Nat.leb_le. reflexivity.
  - rewrite Hn. apply Nat.leb_le. reflexivity.
Defined.

(** With 128 entries, a thousand proposals do not. *)
Lemma empty_follower_starves_witness : exists c' s' f',
  rounds 1 (replicate 1000 (1, 2)) (at_stage 128 1) (at_stage 128 3) = Some (s', f') /\
  rtc cluster_step (stage 128) c' /\ cl_nodes c' !! 1 = Some s' /\ cl_nodes c' !! 3 = Some f' /\
  entries_of (rn_log f') = [] /\
  last_index (rn_log s') = Z.min 256 (last_index (rn_log (at_stage 128 1)) + Z.of_nat (length (replicate 1000 (1, 2)))).
Proof.
  destruct stage_128 as (Hs & Hd & H1 & H3 & Hl & Ht & Hw1 & Hw3 & Hp & Hn & Hf & Hx).
  apply (empty_follower_starves {[1; 2; 3]} (stage 128) 1 3).
  - exact (script_reachable 128 Hs Hd).
  - exact H1.
  - exact H3.
  - exact Hl.
  - apply Z.leb_le. exact Ht.
  - exact (wf_check_sound _ Hw1).
  - exact (wf_check_sound _ Hw3).
  - exact Hp.
  - rewrite last_index_entries, Hn. exact Hx.
  - rewrite last_index_entries, Hn. apply Z.leb_le. reflexivity.
  - exact Hf.
Defined.

End Witness.
