(* ===== verification/Consensus.v ===== *)
(** * Topology consensus round

    Models [BootState::run_topology_consensus] of [src/boot/mod.rs]: the local sealed graph
    decides first, then the node elects itself, proposes the traversal and waits for a
    quorum.  The two receive loops end when the transport says its window is exhausted, so
    they take fuel; [round_returns] shows how much is enough for a transport to peers that
    answer each request at most once, and [Liveness.rounds_terminate] that the nodes of this
    repository are such peers. *)
From S2P Require Import Prelude Heapless Crypto Types AuditLog Capability Revocation Policy.
From S2P Require Import Ledger Topology Hsm Tpm Manifest Boot Raft.
From stdpp Require Import base tactics list numbers option strings gmap sets.
Open Scope Z_scope.

(** ** Definitions *)

(** How a run with fuel ends: with a value, with an overflow abort, or not yet. *)
Inductive run (A : Type) :=
| Returned (a : A)
| Aborted
| Running.
Arguments Returned {A} a.
Arguments Aborted {A}.
Arguments Running {A}.

(** How many messages a node sends back on a message: [RaftNode::step] answers requests,
    and does not answer replies. *)
Definition answers `{HV : HVec} (m : RaftMessage) : nat :=
  match m with
  | RequestVote _ _ _ _ | AppendEntries _ _ _ _ _ _ => 1
  | RequestVoteReply _ _ | AppendEntriesReply _ _ _ => 0
  end.

(** A transport on which only peers that so answer send: [window] bounds the messages that
    are still to be received, a receive takes one of them, and a send adds the answers.
    This is no part of the trait, whose receive window may stay open for ever; it is proved
    of transports. *)
Class RaftTransportLaws `{HV : HVec} {T} `{RT : !RaftTransport T} (window : T -> nat) : Prop := {
  rt_recv_window : forall t t' m, rt_recv t = (t', Some m) -> (window t' < window t)%nat;
  rt_recv_none_window : forall t t', rt_recv t = (t', None) -> (window t' <= window t)%nat;
  rt_send_window : forall t p m, (window (rt_send t p m) <= window t + answers m)%nat;
}.

Section consensus.
Context `{HV : HVec} `{IS : IndexSet} `{LM : LinearMap} `{SH : Sha256}.
Context {T : Type} `{RT : !RaftTransport T}.

(** [while let Some((from, msg)) = transport.recv()] until the node leads. *)
Fixpoint elect_loop (fuel : nat) (node : RaftNode) (transport : T) : run (RaftNode * T) :=
  match fuel with
  | O => Running
  | S fuel' =>
      match rt_recv transport with
      | (transport, None) => Returned (node, transport)
      | (transport, Some (from, msg)) =>
          match step node from msg transport with
          | None => Aborted
          | Some (node, transport, _) =>
              if is_leader node then Returned (node, transport) else elect_loop fuel' node transport
          end
      end
  end.

(** The same until a step commits an entry. *)
Fixpoint commit_loop (fuel : nat) (node : RaftNode) (transport : T) : run (bool * T) :=
  match fuel with
  | O => Running
  | S fuel' =>
      match rt_recv transport with
      | (transport, None) => Returned (false, transport)
      | (transport, Some (from, msg)) =>
          match step node from msg transport with
          | None => Aborted
          | Some (_, transport, Some _) => Returned (true, transport)
          | Some (node, transport, None) => commit_loop fuel' node transport
          end
      end
  end.

Definition not_reached : option (DenialClass * string) := Some (Halt, "topology consensus not reached"%string).

(** From the proposal on: [node.propose(..)?], the second loop, the audit event. *)
Definition propose_and_commit (fuel : nat) (node : RaftNode) (src dst : NodeId) (transport : T)
    (audit : AuditLog) : run (T * AuditLog * Result unit) :=
  match propose node src dst transport with
  | None => Aborted
  | Some (_, transport, Err e) => Returned (transport, audit, Err e)
  | Some (node, transport, Ok _) =>
      let finish (committed : bool) (transport : T) :=
        let denial := if negb committed then not_reached else None in
        let audit' := (AuditLog.append audit TopologyChange src UNTIMED denial).1 in
        Returned (transport, audit', if committed then Ok tt else Err (TopologyViolation src dst)) in
      if node_log_len node <=? rn_commit_index node then finish true transport
      else match commit_loop fuel node transport with
           | Running => Running
           | Aborted => Aborted
           | Returned (committed, transport) => finish committed transport
           end
  end.

Definition run_topology_consensus (fuel : nat) (self : BootState) (peer_set : PeerSet)
    (src dst : NodeId) (transport : T) (audit : AuditLog) : run (T * AuditLog * Result unit) :=
  let '(audit, local) := traverse (bs_graph self) src dst audit in
  if negb (is_ok local) then Returned (transport, audit, Err (TopologyViolation src dst))
  else
    match start_election (node_new (bs_local_id self) peer_set) transport with
    | None => Aborted
    | Some (node, transport) =>
        match (if negb (is_leader node) then elect_loop fuel node transport
               else Returned (node, transport)) with
        | Running => Running
        | Aborted => Aborted
        | Returned (node, transport) =>
            if negb (is_leader node) then
              let audit' := (AuditLog.append audit TopologyChange src UNTIMED not_reached).1 in
              Returned (transport, audit', Err (TopologyViolation src dst))
            else propose_and_commit fuel node src dst transport audit
        end
    end.

End consensus.

(** ** Facts *)

Section facts.
Context `{HV : HVec} `{IS : IndexSet} `{LM : LinearMap} `{SH : Sha256} `{HL : !HVecLaws}.
Context {T : Type} `{RT : !RaftTransport T}.
Implicit Types (t : T) (st : BootState) (log : AuditLog).

(** The messages a round sends come only after the local graph has permitted the edge. *)
Lemma local_denied fuel st ps src dst t log :
  (traverse (bs_graph st) src dst log).2 <> Ok tt ->
  run_topology_consensus fuel st ps src dst t log =
  Returned (t, (traverse (bs_graph st) src dst log).1, Err (TopologyViolation src dst)).
Proof. unfold run_topology_consensus. destruct (traverse _ _ _ _) as [log' [[]|e]]; [done|]. done. Qed.

Lemma propose_and_commit_result fuel node src dst t log t' log' r :
  propose_and_commit fuel node src dst t log = Returned (t', log', r) ->
  (log' = (AuditLog.append log TopologyChange src UNTIMED
            (if is_ok r then None else not_reached)).1 /\ (r = Ok tt \/ r = Err (TopologyViolation src dst))) \/
  (log' = log /\ is_ok r = false).
Proof.
  unfold propose_and_commit. destruct (propose node src dst t) as [[[n1 t1] [[]|e]]|]; [| |done].
  - destruct (_ <=? _); [intros [= _ <- <-]; left; cbn; auto|].
    destruct (commit_loop fuel n1 t1) as [[[] t2]| |]; [| |done..]; intros [= _ <- <-]; left; cbn; auto.
  - intros [= _ <- <-]. by right.
Qed.

Lemma local_ok_iff st src dst log :
  (traverse (bs_graph st) src dst log).2 = Ok tt <->
  traverse_inner (bs_graph st) src dst = Ok tt /\ is_full log = false.
Proof using HL.
  rewrite traverse_unfold. cbn. destruct (traverse_inner (bs_graph st) src dst) as [[]|e], (is_full log); cbn; naive_solver.
Qed.

Lemma consensus_permits fuel st ps src dst t log t' log' :
  run_topology_consensus fuel st ps src dst t log = Returned (t', log', Ok tt) ->
  traverse_inner (bs_graph st) src dst = Ok tt /\ is_full log = false.
Proof using HL.
  intros Hrun. apply local_ok_iff. destruct (traverse (bs_graph st) src dst log).2 as [[]|e] eqn:E; [done|].
  rewrite local_denied in Hrun by by rewrite E. done.
Qed.

(** C27: Consensus never widens the topology.  A round returns [Ok] only if the sealed graph
    of this node permits the traversal and that decision was logged, whatever the peers
    and the transport do.  If the local gate refuses, the round ends at once with
    [TopologyViolation] for the pair, and the transport has not been used. *)
Theorem consensus_respects_graph fuel st ps src dst t log :
  (forall t' log' r, run_topology_consensus fuel st ps src dst t log = Returned (t', log', r) ->
     r = Ok tt -> traverse_inner (bs_graph st) src dst = Ok tt /\ is_full log = false) /\
  (traverse_inner (bs_graph st) src dst <> Ok tt \/ is_full log = true ->
     run_topology_consensus fuel st ps src dst t log =
     Returned (t, (traverse (bs_graph st) src dst log).1, Err (TopologyViolation src dst))).
Proof using HL.
  split.
  - intros t' log' r Hrun ->. by eapply consensus_permits.
  - intros Hno. apply local_denied. rewrite local_ok_iff. intros [? ?]. destruct Hno; congruence.
Qed.

(** ** Termination *)

Section termination.
Context (window : T -> nat) `{WL : !RaftTransportLaws window}.

Lemma reply_window t p m : answers m = 0%nat -> (window (rt_send t p m) <= window t)%nat.
Proof using WL. intros Hm. pose proof (rt_send_window t p m). lia. Qed.

Lemma step_window node from msg t node' t' r :
  step node from msg t = Some (node', t', r) -> (window t' <= window t)%nat.
Proof using WL.
  destruct msg as [term c i lt|term g|term lid pi pt es lc|term ok m]; unfold step.
  - unfold on_request_vote. intros [= _ <- _]. by apply reply_window.
  - by intros (s1 & _ & [= _ <- _])%bind_Some.
  - intros ([s1 t1] & Ha & [= _ <- _])%bind_Some. unfold on_append_entries in Ha.
    destruct (_ <? _); [injection Ha as _ <-; by apply reply_window|].
    destruct (negb _); [injection Ha as _ <-; by apply reply_window|].
    apply bind_Some in Ha as ([s2 m] & _ & [= _ <-]). by apply reply_window.
  - by intros ([s1 r1] & _ & [= _ <- _])%bind_Some.
Qed.

Lemma recv_step_window t t1 from msg node node' t2 r :
  rt_recv t = (t1, Some (from, msg)) -> step node from msg t1 = Some (node', t2, r) ->
  (window t2 < window t)%nat.
Proof using WL. intros Hr%rt_recv_window Hs%step_window. lia. Qed.

Lemma elect_loop_terminates fuel : forall node t,
  (window t < fuel)%nat -> elect_loop fuel node t <> Running /\
  (forall node' t', elect_loop fuel node t = Returned (node', t') -> (window t' <= window t)%nat).
Proof using WL.
  induction fuel as [|fuel IH]; intros node t Hw; [lia|]. cbn [elect_loop].
  destruct (rt_recv t) as [t1 [[from msg]|]] eqn:Hr.
  - destruct (step node from msg t1) as [[[n2 t2] e]|] eqn:Hs; [|done].
    pose proof (recv_step_window _ _ _ _ _ _ _ _ Hr Hs).
    destruct (is_leader n2); [split; [done|]; intros ? ? [= <- <-]; lia|].
    destruct (IH n2 t2) as [Hn Hb]; [lia|]. split; [done|]. intros n' t' He. specialize (Hb n' t' He). lia.
  - apply rt_recv_none_window in Hr. split; [done|]. by intros n' t' [= _ <-].
Qed.

Lemma commit_loop_terminates fuel : forall node t,
  (window t < fuel)%nat -> commit_loop fuel node t <> Running.
Proof using WL.
  induction fuel as [|fuel IH]; intros node t Hw; [lia|]. cbn [commit_loop].
  destruct (rt_recv t) as [t1 [[from msg]|]] eqn:Hr; [|done].
  destruct (step node from msg t1) as [[[n2 t2] [e|]]|] eqn:Hs; [done| |done].
  pose proof (recv_step_window _ _ _ _ _ _ _ _ Hr Hs). apply IH. lia.
Qed.

Lemma send_ae_window node i t t' : send_ae_to node i t = Some t' -> (window t' <= window t + 1)%nat.
Proof using WL.
  unfold send_ae_to. case_match; [|intros [= <-]; lia].
  intros (es & _ & [= <-])%bind_Some. apply rt_send_window.
Qed.

Lemma broadcast_window node l : forall t t',
  foldl (fun ot i => t ← ot; send_ae_to node i t) (Some t) l = Some t' -> (window t' <= window t + length l)%nat.
Proof using WL.
  induction l as [|i l IH]; intros t t'; cbn [foldl length]; [intros [= <-]; lia|].
  cbn [mbind option_bind]. destruct (send_ae_to node i t) as [t1|] eqn:Hs.
  - intros H. apply IH in H. apply send_ae_window in Hs. lia.
  - intros H. exfalso. clear -H. induction l as [|j l IH]; [done|]. by apply IH.
Qed.

Lemma propose_window node src dst t node' t' r :
  propose node src dst t = Some (node', t', r) -> (window t' <= window t + n_peers node)%nat.
Proof using WL.
  unfold propose. destruct (negb _); [intros [= _ <- _]; lia|].
  destruct (log_append _ _) as [lg [|]]; cbn; [|intros [= _ <- _]; lia].
  case_decide; [intros [= _ <- _]; lia|]. intros (t1 & Hb & [= _ <- _])%bind_Some.
  apply broadcast_window in Hb. by rewrite length_seq in Hb.
Qed.

Lemma start_election_window node t node' t' :
  start_election node t = Some (node', t') -> (window t' <= window t + n_peers node)%nat.
Proof using WL.
  unfold start_election. intros (term & _ & H)%bind_Some. case_decide.
  - apply bind_Some in H as (n1 & _ & [= _ <-]). lia.
  - injection H as _ <-. cbn. unfold n_peers, hv_len. generalize (hv_slice (rn_peers node)). intros l.
    set (m := RequestVote _ _ _ _). assert (answers m = 1%nat) as Hm by done. clearbody m.
    revert t. induction l as [|p l IH]; intros t; cbn [foldl length]; [lia|].
    specialize (IH (rt_send t p m)). pose proof (rt_send_window t p m). lia.
Qed.

(** The loops keep the peers of the node. *)
Lemma step_peers node from msg t node' t' r :
  step node from msg t = Some (node', t', r) -> rn_peers node' = rn_peers node.
Proof.
  destruct msg as [term c i lt|term g|term lid pi pt es lc|term ok m]; unfold step.
  - unfold on_request_vote. set (s1 := if _ <? term then _ else _).
    assert (rn_peers s1 = rn_peers node) as <- by (unfold s1; by destruct (_ <? _)). clearbody s1.
    intros [= <- _ _]. by destruct (_ && _).
  - intros (s1 & Hv & [= <- _ _])%bind_Some. unfold on_vote_reply in Hv.
    destruct (_ <? _); [by injection Hv as <-|]. destruct (_ || _); [by injection Hv as <-|].
    apply bind_Some in Hv as (s2 & H2 & Hv). assert (rn_peers s2 = rn_peers node) as <-.
    { destruct g; [apply bind_Some in H2 as (v & _ & [= <-])|injection H2 as <-]; done. }
    destruct (_ <=? _); [|by injection Hv as <-]. by apply become_leader_fields in Hv as (_ & _ & _ & _ & -> & _).
  - intros ([s1 t1] & Ha & [= <- _ _])%bind_Some. unfold on_append_entries in Ha.
    destruct (_ <? _); [by injection Ha as <- _|]. set (s2 := if _ <? term then _ else _) in Ha.
    assert (rn_peers s2 = rn_peers node) as <- by (unfold s2; by destruct (_ <? _)). clearbody s2.
    destruct (negb _); [by injection Ha as <- _|]. apply bind_Some in Ha as ([s3 m] & Ha & [= <- _]).
    apply append_log_entries_fields in Ha as (-> & _). by destruct (_ <? _).
  - intros ([s1 r1] & Hr & [= <- _ _])%bind_Some. unfold on_ae_reply in Hr.
    destruct (_ <? _); [by injection Hr as <- _|]. destruct (_ || _); [by injection Hr as <- _|].
    destruct (peer_index node from); [|by injection Hr as <- _]. apply bind_Some in Hr as (s2 & H2 & Hr).
    assert (rn_peers s2 = rn_peers node) as <-.
    { destruct ok; [apply bind_Some in H2 as (x & _ & [= <-])|injection H2 as <-; case_match]; done. }
    destruct ok; [|by injection Hr as <- _]. destruct (advance_commit_index s2) as [[s3 b]|] eqn:Ha; [|done].
    injection Hr as <- _. by apply advance_commit_fields in Ha as (x & -> & _).
Qed.

Lemma elect_loop_peers fuel : forall node t node' t',
  elect_loop fuel node t = Returned (node', t') -> rn_peers node' = rn_peers node.
Proof.
  induction fuel as [|fuel IH]; intros node t node' t'; cbn [elect_loop]; [done|].
  destruct (rt_recv t) as [t1 [[from msg]|]]; [|by intros [= <- _]].
  destruct (step node from msg t1) as [[[n2 t2] e]|] eqn:Hs; [|done]. apply step_peers in Hs as <-.
  destruct (is_leader n2); [by intros [= <- _]|apply IH].
Qed.

(** The node of a round has no more peers than its peer set. *)
Lemma node_new_bound id ps : (n_peers (node_new id ps) <= peers_len ps)%nat.
Proof using HL.
  unfold n_peers, peers_len, node_new, hv_len. cbn [rn_peers].
  assert (forall l (v : hvec MAX_PEERS NodeId),
    length (hv_slice (foldl (fun v p => default v (hv_push v p)) v l)) <= length (hv_slice v) + length l)%nat as H.
  { induction l as [|p l IH]; intros v; cbn [foldl length]; [lia|]. specialize (IH (default v (hv_push v p))).
    destruct (hv_push v p) as [w|] eqn:Hw; cbn in IH |- *; [|lia]. apply hv_push_Some in Hw as [Hw _].
    rewrite Hw, length_app in IH. cbn in IH. lia. }
  specialize (H (hv_slice (ps_peers ps)) hv_new). rewrite hv_slice_new in H. exact H.
Qed.

Lemma propose_and_commit_returns fuel node src dst t log :
  (window t + n_peers node < fuel)%nat -> propose_and_commit fuel node src dst t log <> Running.
Proof using WL.
  intros Hf. unfold propose_and_commit.
  destruct (propose node src dst t) as [[[n3 t3] [[]|e]]|] eqn:Hpr; [|done..].
  apply propose_window in Hpr. destruct (_ <=? _); [done|].
  pose proof (commit_loop_terminates fuel n3 t3 ltac:(lia)).
  by destruct (commit_loop fuel n3 t3) as [[]| |].
Qed.

(** A round sends two requests to each peer, so its loops receive at most what was waiting
    at the start and two answers per peer. *)
Lemma round_returns fuel st ps src dst t log :
  (window t + 2 * peers_len ps < fuel)%nat -> run_topology_consensus fuel st ps src dst t log <> Running.
Proof using WL HL.
  intros Hf. unfold run_topology_consensus. destruct (traverse _ _ _ _) as [log1 local].
  destruct (negb _); [done|]. pose proof (node_new_bound (bs_local_id st) ps) as Hn.
  destruct (start_election _ t) as [[n1 t1]|] eqn:Hs; [|done].
  pose proof (start_election_fields _ _ _ _ Hs) as (_ & _ & _ & _ & Hp & _). apply start_election_window in Hs.
  assert (n_peers n1 = n_peers (node_new (bs_local_id st) ps)) as Hp1 by (unfold n_peers; by rewrite Hp).
  destruct (negb (is_leader n1)) eqn:Hl.
  - destruct (elect_loop_terminates fuel n1 t1) as [Hr Hb]; [lia|].
    destruct (elect_loop fuel n1 t1) as [[n2 t2]| |] eqn:He; [|done..]. apply elect_loop_peers in He.
    assert (n_peers n2 = n_peers n1) by (unfold n_peers; by rewrite He).
    destruct (negb (is_leader n2)); [done|]. specialize (Hb n2 t2 eq_refl).
    apply propose_and_commit_returns. lia.
  - rewrite Hl. apply propose_and_commit_returns. lia.
Qed.

End termination.

(** ** A single node *)

(** An empty peer set: the node leads at once and its proposal is committed. *)
Lemma single_election (id : NodeId) t :
  exists node, start_election (node_new id peers_new) t = Some (node, t) /\ is_leader node = true /\
    n_peers node = 0%nat /\ rn_log node = log_new.
Proof using HL.
  assert (n_peers (node_new id peers_new) = 0%nat) as Hn.
  { unfold n_peers, node_new, peers_new, hv_len. cbn. by rewrite !hv_slice_new; cbn; rewrite hv_slice_new. }
  assert (exists node, start_election (node_new id peers_new) t = Some (node, t)) as [node Hs].
  { unfold start_election. change (add_u64 (rn_current_term (node_new id peers_new)) 1) with (Some 1).
    cbn [mbind option_bind]. rewrite decide_True by exact Hn.
    unfold become_leader. rewrite add_u64_fits; [by eexists|].
    unfold last_index, hv_len. cbn. rewrite hv_slice_new. cbn. width_lia. }
  pose proof (start_election_fields _ _ _ _ Hs) as (_ & _ & Hlg & _ & Hp & Hr & _).
  exists node. split; [done|]. split; [by apply bool_decide_eq_true, Hr|].
  unfold n_peers in *. by rewrite Hp.
Qed.

Lemma single_propose node src dst t :
  is_leader node = true -> n_peers node = 0%nat -> rn_log node = log_new ->
  exists node', propose node src dst t = Some (node', t, Ok tt) /\ rn_commit_index node' = node_log_len node'.
Proof using HL.
  intros Hl Hn Hlg. unfold propose, log_append. rewrite Hl, Hlg. cbn.
  destruct (hv_push_room RAFT_LOG_CAP LogEntry hv_new (mkEntry (rn_current_term node) src dst))
    as (v & -> & Hv); [unfold hv_len; rewrite hv_slice_new; cbn; unfold RAFT_LOG_CAP; lia|].
  cbn. unfold n_peers in *. cbn. rewrite decide_True by done. by eexists.
Qed.

Lemma single_round fuel st src dst t log :
  traverse_inner (bs_graph st) src dst = Ok tt -> is_full log = false ->
  exists log1, events log1 = events log ++ [logged log TopologyTraverse src UNTIMED None] /\
    run_topology_consensus fuel st peers_new src dst t log =
    Returned (t, (AuditLog.append log1 TopologyChange src UNTIMED None).1, Ok tt).
Proof using HL.
  intros Hi Hf. unfold run_topology_consensus. rewrite traverse_unfold, Hf, Hi. cbn [andb is_ok negb].
  destruct (append_room log TopologyTraverse src UNTIMED (denial_of (Ok tt)) Hf) as (log1 & -> & He1 & _).
  exists log1. split; [exact He1|].
  cbn [fst]. destruct (single_election (bs_local_id st) t) as (node & -> & Hl & Hn & Hlg).
  rewrite Hl. cbn [negb]. rewrite Hl. cbn [negb]. unfold propose_and_commit.
  destruct (single_propose node src dst t Hl Hn Hlg) as (node' & -> & Hc).
  by rewrite Hc, Z.leb_refl.
Qed.

(** In a single-node deployment, a round for an edge the graph permits commits
    without using the transport, and records the traversal and then the topology change,
    both [Permitted], when the log has room for two events. *)
Theorem single_node_commits fuel st src dst t log :
  traverse_inner (bs_graph st) src dst = Ok tt ->
  (AuditLog.len log + 1 < MAX_AUDIT_EVENTS)%nat ->
  exists log' e1 e2, run_topology_consensus fuel st peers_new src dst t log = Returned (t, log', Ok tt) /\
    events log' = events log ++ [e1; e2] /\
    ev_kind e1 = TopologyTraverse /\ ev_kind e2 = TopologyChange /\
    ev_outcome e1 = Permitted /\ ev_outcome e2 = Permitted.
Proof using HL.
  intros Hi Hroom.
  assert (is_full log = false) as Hf by (apply bool_decide_eq_false; unfold AuditLog.len in Hroom; lia).
  destruct (single_round fuel st src dst t log Hi Hf) as (log1 & He1 & ->).
  assert (is_full log1 = false) as Hf1.
  { apply bool_decide_eq_false. unfold hv_len. fold (events log1). rewrite He1, length_app. cbn.
    unfold AuditLog.len, hv_len in Hroom. fold (events log) in Hroom. lia. }
  destruct (append_room log1 TopologyChange src UNTIMED None Hf1) as (log2 & -> & He2 & _).
  eexists log2, _, _. split; [done|]. split; [by rewrite He2, He1, <- app_assoc|]. done.
Qed.

(** The documentation says a [TopologyChange] event is always appended.  When the
    traversal takes the last place in the log, the round commits and returns [Ok] without
    one. *)
Theorem commit_unlogged fuel st src dst t log :
  traverse_inner (bs_graph st) src dst = Ok tt ->
  (AuditLog.len log + 1 = MAX_AUDIT_EVENTS)%nat ->
  exists log' e, run_topology_consensus fuel st peers_new src dst t log = Returned (t, log', Ok tt) /\
    events log' = events log ++ [e] /\ ev_kind e = TopologyTraverse.
Proof using HL.
  intros Hi Hroom.
  assert (is_full log = false) as Hf by (apply bool_decide_eq_false; unfold AuditLog.len in Hroom; lia).
  destruct (single_round fuel st src dst t log Hi Hf) as (log1 & He1 & ->).
  assert (is_full log1 = true) as Hf1.
  { apply bool_decide_eq_true. unfold hv_len. fold (events log1). rewrite He1, length_app. cbn.
    unfold AuditLog.len, hv_len in Hroom. fold (events log) in Hroom. lia. }
  rewrite append_full by done. eexists log1, _. split; [done|]. split; [exact He1|done].
Qed.

End facts.

(** ** Witnesses *)

Module Witness.
#[local] Existing Instance ListModel.list_hvec.
#[local] Existing Instance ListModel.list_hvec_laws.
#[local] Existing Instance ListModel.list_iset.
#[local] Existing Instance ListModel.list_lmap.
#[local] Existing Instance ByteModel.toy_sha.

Definition st0 : BootState := {|
  bs_graph := Topology.seal (run_boot boot_op Topology.new [Activate 1; Activate 2; Permit 1 2]).1;
  bs_ledger := Ledger.new; bs_policy := Policy.new 0; bs_attestation := [];
  bs_manifest_hash := []; bs_local_id := 1 |}.

Lemma consensus_respects_graph_witness :
  run_topology_consensus 1 st0 peers_new 2 1 ([] : Outbox) AuditLog.new =
  Returned ([], (traverse (bs_graph st0) 2 1 AuditLog.new).1, Err (TopologyViolation 2 1)).
Proof.
  apply (consensus_respects_graph 1 st0 peers_new 2 1 ([] : Outbox) AuditLog.new).
  left. vm_compute. discriminate.
Defined.

Lemma st0_permits : traverse_inner (bs_graph st0) 1 2 = Ok tt.
Proof. vm_compute. reflexivity. Qed.

(** A transport that always has one more stale vote, as the trait allows. *)
#[local] Instance endless : RaftTransport unit :=
  {| rt_send := fun _ _ _ => tt; rt_recv := fun _ => (tt, Some (2, RequestVoteReply 0 false)) |}.

Lemma endless_loop fuel n :
  on_vote_reply n 0 false = Some n -> is_leader n = false -> elect_loop fuel n tt = Running.
Proof.
  intros Hv Hl. induction fuel as [|fuel IH]; [done|]. cbn [elect_loop rt_recv endless step].
  by rewrite Hv; cbn [mbind option_bind]; rewrite Hl.
Qed.

(** On it a round runs for ever. *)
Lemma endless_round fuel :
  run_topology_consensus fuel st0 (Raft.Witness.peer_set [2; 3]) 1 2 tt AuditLog.new = Running.
Proof.
  unfold run_topology_consensus. destruct (traverse _ _ _ _) as [log r] eqn:Ht.
  assert (is_ok r = true) as -> by (change r with (log, r).2; rewrite <- Ht; vm_compute; reflexivity).
  destruct (start_election _ _) as [[n []]|] eqn:Hs; [|vm_compute in Hs; discriminate].
  assert (is_leader n = false /\ on_vote_reply n 0 false = Some n) as [Hl Hv].
  { vm_compute in Hs. injection Hs as <-. split; vm_compute; reflexivity. }
  cbn [negb]. rewrite Hl. cbn [negb]. by rewrite endless_loop.
Qed.

Lemma single_node_commits_witness :
  exists log', run_topology_consensus 0 st0 peers_new 1 2 ([] : Outbox) AuditLog.new =
    Returned ([], log', Ok tt).
Proof.
  destruct (single_node_commits 0 st0 1 2 ([] : Outbox) AuditLog.new st0_permits) as (log' & e1 & e2 & H & _).
  - apply Nat.ltb_lt. reflexivity.
  - exists log'. exact H.
Defined.

End Witness.
