(* ===== verification/Liveness.v ===== *)
(** * Progress of consensus rounds

    [BootState::run_topology_consensus] against peers that run the [RaftNode] of this
    repository.  The transport [mesh] hands each message to its receiver at once and queues
    the replies, so the peers are the handlers of [Raft.v] themselves and nothing is assumed
    about them.

    [consensus_live]: with fresh peers a round for a declared edge commits, at every size
    of the cluster.  [rounds_terminate]: with peers in whatever state, a round ends after
    two answers per peer at most.  [later_rounds_fail]: a round always campaigns with a new, empty node,
    so once the peers' logs hold an entry they refuse it and no later round succeeds. *)
From S2P Require Import Prelude Heapless Crypto Types AuditLog Capability Revocation Policy.
From S2P Require Import Ledger Topology Hsm Tpm Manifest Boot Raft Cluster Consensus.
From stdpp Require Import base tactics list numbers option strings gmap sets.
Open Scope Z_scope.

#[local] Arguments quorum : simpl never.

(** ** The mesh *)

Section mesh.
Context `{HV : HVec}.

Record mesh := mkMesh {
  mh_local : NodeId;
  mh_peers : gmap NodeId RaftNode;
  mh_inbox : list (NodeId * RaftMessage);
}.

(** What peer [p] sends back to the local node. *)
Definition replies (local p : NodeId) (out : Outbox) : list (NodeId * RaftMessage) :=
  omap (fun '(dst, m) => if decide (dst = local) then Some (p, m) else None) out.

(** An unknown peer, or one that aborts, does not answer. *)
Definition mesh_send (t : mesh) (p : NodeId) (m : RaftMessage) : mesh :=
  match mh_peers t !! p with
  | None => t
  | Some s =>
      match step s (mh_local t) m ([] : Outbox) with
      | None => t
      | Some (s', out, _) =>
          mkMesh (mh_local t) (<[p := s']> (mh_peers t)) (mh_inbox t ++ replies (mh_local t) p out)
      end
  end.

Definition mesh_recv (t : mesh) : mesh * option (NodeId * RaftMessage) :=
  match mh_inbox t with
  | [] => (t, None)
  | x :: inbox => (mkMesh (mh_local t) (mh_peers t) inbox, Some x)
  end.

#[global] Instance mesh_transport : RaftTransport mesh := {| rt_send := mesh_send; rt_recv := mesh_recv |}.

(** *** Answers *)

Lemma step_answers s from m s' (out : Outbox) r :
  step s from m ([] : Outbox) = Some (s', out, r) -> length out = answers m.
Proof.
  destruct m as [term c i lt|term g|term lid pi pt es lc|term ok mi]; unfold step.
  - unfold on_request_vote. by intros [= _ <- _].
  - by intros (s1 & _ & [= _ <- _])%bind_Some.
  - intros ([s1 t1] & Ha & [= _ <- _])%bind_Some.
    by apply on_append_entries_quiet in Ha as (_ & x & y & z & ->).
  - by intros ([s1 r1] & _ & [= _ <- _])%bind_Some.
Qed.

Lemma replies_length local p (out : Outbox) : (length (replies local p out) <= length out)%nat.
Proof.
  unfold replies. induction out as [|[d m] out IH]; [done|]. cbn. destruct (decide (d = local)); cbn; lia.
Qed.

(** The mesh delivers what waits in its inbox and the answers of its peers. *)
#[global] Instance mesh_laws : RaftTransportLaws (T := mesh) (fun t => length (mh_inbox t)).
Proof.
  constructor; cbn [rt_recv rt_send mesh_transport].
  - intros t t' m. unfold mesh_recv. destruct (mh_inbox t); [done|]. intros [= <- _]. cbn. lia.
  - intros t t'. unfold mesh_recv. destruct (mh_inbox t) eqn:E; [|done]. intros [= <-]. by rewrite E.
  - intros t p m. unfold mesh_send. destruct (mh_peers t !! p) as [s|]; [|lia].
    destruct (step s (mh_local t) m ([] : Outbox)) as [[[s' out] r]|] eqn:Hs; [|lia]. apply step_answers in Hs.
    cbn. rewrite length_app. pose proof (replies_length (mh_local t) p out). lia.
Qed.

(** *** Broadcasts *)

(** A broadcast: each peer answers [m] with [r s] and moves to [f s]. *)
Lemma broadcast_mesh (P : RaftNode -> Prop) (m : RaftMessage) (f : RaftNode -> RaftNode) (r : RaftMessage) id :
  (forall s, P s -> step s id m ([] : Outbox) = Some (f s, [(id, r)], None)) ->
  forall l peers inbox, NoDup l -> (forall p, p ∈ l -> exists s, peers !! p = Some s /\ P s) ->
  exists peers', foldl (fun t p => rt_send t p m) (mkMesh id peers inbox) l =
      mkMesh id peers' (inbox ++ ((., r) <$> l)) /\
    forall p, peers' !! p = if decide (p ∈ l) then f <$> peers !! p else peers !! p.
Proof.
  intros Hf l. induction l as [|p l IH]; intros peers inbox Hnd Hp; cbn [foldl].
  { exists peers. rewrite app_nil_r. split; [done|]. intros p. by rewrite decide_False by apply not_elem_of_nil. }
  apply NoDup_cons in Hnd as [Hpl Hnd]. destruct (Hp p ltac:(left)) as (s & Hs & HPs).
  assert (rt_send (mkMesh id peers inbox) p m = mkMesh id (<[p := f s]> peers) (inbox ++ [(p, r)])) as ->.
  { cbn. unfold mesh_send. cbn. rewrite Hs, Hf by done. unfold replies. cbn. by rewrite decide_True. }
  destruct (IH (<[p := f s]> peers) (inbox ++ [(p, r)])) as (peers' & -> & Hp'); [done| |].
  { intros q Hq. assert (q <> p) by congruence. rewrite lookup_insert_ne by done. apply Hp. by right. }
  exists peers'. split; [by rewrite <- app_assoc|]. intros q. rewrite Hp'.
  destruct (decide (q = p)) as [->|Hne].
  - rewrite decide_False by done. rewrite decide_True by left. by rewrite lookup_insert_eq, Hs.
  - rewrite lookup_insert_ne by done. destruct (decide (q ∈ l)) as [Hq|Hq].
    + by rewrite decide_True by by right.
    + rewrite decide_False; [done|]. intros [?|?]%elem_of_cons; done.
Qed.

End mesh.

(** ** The peers *)

Section peers.
Context `{HV : HVec} `{HL : !HVecLaws}.
Implicit Types (s : RaftNode).

(** A peer that has not taken part in anything yet. *)
Definition idle s : Prop :=
  rn_current_term s = 0 /\ entries_of (rn_log s) = [] /\ 0 <= rn_commit_index s.

Definition has_voted (id : NodeId) s : RaftNode := set_voted (step_down s 1) (Some id).

Lemma last_term_nil l : entries_of l = [] -> last_term l = 0.
Proof. unfold last_term, entries_of. by intros ->. Qed.

Lemma idle_grants id s :
  idle s -> step s id (RequestVote 1 id 0 0) ([] : Outbox) = Some (has_voted id s, [(id, RequestVoteReply 1 true)], None).
Proof.
  intros (Ht & Hl & _). unfold step, on_request_vote. rewrite Ht. cbn.
  unfold log_up_to_date_for. cbn. rewrite last_index_entries, (last_term_nil _ Hl), Hl. done.
Qed.

(** A peer that voted in term 1, with an empty log. *)
Definition voter s : Prop :=
  rn_current_term s = 1 /\ entries_of (rn_log s) = [] /\ 0 <= rn_commit_index s.

Lemma has_voted_voter id s : idle s -> voter (has_voted id s).
Proof. intros (_ & Hl & Hc). done. Qed.

Definition has_entry (e : LogEntry) s : RaftNode :=
  set_log (set_role s Follower) (log_append (rn_log s) e).1.

Lemma voter_acks id s (es : hvec AE_CAP LogEntry) e :
  voter s -> hv_slice es = [e] ->
  step s id (AppendEntries 1 id 0 0 es 0) ([] : Outbox) =
  Some (has_entry e s, [(id, AppendEntriesReply 1 true 1)], None).
Proof.
  intros (Ht & Hl & Hc) Hes. unfold step, on_append_entries. rewrite Ht, Hes. cbn -[Z.ltb append_one].
  unfold append_log_entries. cbn -[Z.ltb append_one add_u64]. rewrite !add_u64_fits by done.
  cbn -[Z.ltb append_one]. rewrite add_u64_fits by done. change (1 <? 1) with false. change (0 + 1) with 1.
  cbn -[Z.ltb append_one].
  assert (append_one (rn_log s) 1 e = (log_append (rn_log s) e).1) as ->.
  { unfold append_one. assert (log_get (rn_log s) 1 = None) as Hn.
    { change 1 with (Z.of_nat 0 + 1). by rewrite log_get_nat, Hl. }
    unfold term_at. rewrite Hn. cbn [fmap option_fmap option_map]. by rewrite Hn. }
  rewrite (proj2 (Z.ltb_ge _ _)) by lia. cbn. by rewrite Ht.
Qed.

Lemma has_entry_log e s : voter s -> entries_of (rn_log (has_entry e s)) = [e].
Proof using HL.
  intros (_ & Hl & _). cbn. rewrite log_append_room; rewrite Hl; [done|]. apply Nat.ltb_lt. reflexivity.
Qed.

End peers.

(** ** The local node *)

Section candidate.
Context `{HV : HVec} `{HL : !HVecLaws}.
Context (id : NodeId) (pv : hvec MAX_PEERS NodeId) (ps : list NodeId).
Hypothesis Hpv : hv_slice pv = ps.

Definition cand (votes : Z) : RaftNode :=
  mkNode id Candidate 1 (Some id) log_new 0 votes pv (replicate MAX_PEERS 1) (replicate MAX_PEERS 0).

(** A leader with log [lg], after the first [j] peers have acknowledged its entry. *)
Definition lead (votes : Z) (lg : RaftLog) (j : nat) : RaftNode :=
  mkNode id Leader 1 (Some id) lg 0 votes pv
    (replicate j 2 ++ replicate (MAX_PEERS - j) 1) (replicate j 1 ++ replicate (MAX_PEERS - j) 0).

Lemma npeers_cand v : n_peers (cand v) = length ps.
Proof using Hpv. unfold n_peers, hv_len. cbn. by rewrite Hpv. Qed.

Definition q : nat := ((length ps + 1) / 2 + 1)%nat.
#[local] Arguments q : simpl never.

Lemma quorum_lead v lg j : quorum (lead v lg j) = q.
Proof using Hpv. unfold quorum, n_peers, hv_len. cbn. by rewrite Hpv. Qed.

Lemma quorum_cand v : quorum (cand v) = q.
Proof using Hpv. unfold quorum, n_peers, hv_len. cbn. by rewrite Hpv. Qed.

Lemma q_bounds : ps <> [] -> (2 <= q <= S (length ps))%nat.
Proof.
  intros Hne. assert (length ps <> 0%nat) by by intros ?%length_zero_iff_nil. unfold q.
  pose proof (Nat.div_mod (length ps + 1) 2 ltac:(lia)). pose proof (Nat.mod_upper_bound (length ps + 1) 2 ltac:(lia)). lia.
Qed.

Lemma log_new_nil : entries_of log_new = [].
Proof using HL. apply hv_slice_new. Qed.

Lemma reset_progress l v : foldl (fun s i => set_progress s (<[i := 1]> (rn_next_index s)) (<[i := 0]> (rn_match_index s)))
    (lead v log_new 0) l = lead v log_new 0.
Proof.
  induction l as [|i l IH]; cbn [foldl]; [done|]. etrans; [|exact IH]. f_equal.
  unfold lead, set_progress. cbn [rn_next_index rn_match_index replicate app].
  destruct (decide (i < MAX_PEERS)%nat).
  - rewrite !list_insert_id by (by rewrite Nat.sub_0_r; apply lookup_replicate). done.
  - rewrite !list_insert_ge by (rewrite length_replicate; lia). done.
Qed.

Lemma cand_leads v : become_leader (cand v) = Some (lead v log_new 0).
Proof using HL.
  unfold become_leader. cbn -[foldl replicate]. rewrite last_index_entries, log_new_nil.
  rewrite add_u64_fits by done. cbn [mbind option_bind]. f_equal.
  change (set_role (cand v) Leader) with (lead v log_new 0). apply reset_progress.
Qed.

(** A granted vote: one more, or enough. *)
Lemma cand_vote v : 0 <= v <= 16 ->
  on_vote_reply (cand v) 1 true =
  if Z.of_nat q <=? v + 1 then Some (lead (v + 1) log_new 0) else Some (cand (v + 1)).
Proof using HL Hpv.
  intros Hv. unfold on_vote_reply. cbn -[Z.leb add_u64 replicate]. rewrite add_u64_fits by (unfold_width; lia).
  cbn -[Z.leb replicate]. change (set_votes (cand v) (v + 1)) with (cand (v + 1)). rewrite quorum_cand.
  destruct (_ <=? _); [|done]. apply cand_leads.
Qed.

Lemma recv_cons peers x inbox : rt_recv (mkMesh id peers (x :: inbox)) = (mkMesh id peers inbox, Some x).
Proof. done. Qed.

(** The election loop counts grants until the quorum is full. *)
Lemma elect_loop_live fuel : forall l v peers inbox,
  (length l < fuel)%nat -> 0 <= v -> v + Z.of_nat (length l) <= 17 -> v < Z.of_nat q <= v + Z.of_nat (length l) ->
  exists l', elect_loop fuel (cand v) (mkMesh id peers (((., RequestVoteReply 1 true) <$> l) ++ inbox)) =
    Returned (lead (Z.of_nat q) log_new 0, mkMesh id peers (((., RequestVoteReply 1 true) <$> l') ++ inbox)) /\
    (length l' <= length l)%nat.
Proof using HL Hpv.
  induction fuel as [|fuel IH]; intros l v peers inbox Hf H0 H17 Hq; [lia|].
  destruct l as [|p l]; cbn [length] in *; [lia|]. cbn [fmap list_fmap app elect_loop].
  rewrite recv_cons. unfold step. rewrite cand_vote by lia.
  destruct (Z.leb_spec (Z.of_nat q) (v + 1)).
  - cbn. replace (v + 1) with (Z.of_nat q) by lia. exists l. split; [done|lia].
  - cbn. destruct (IH l (v + 1) peers inbox) as (l' & -> & Hl'); [lia..|]. exists l'. split; [done|lia].
Qed.

(** ** Replication *)

Hypothesis Hps : NoDup ps.
Hypothesis Hlen : (length ps <= MAX_PEERS)%nat.

Lemma insert_next {A} (x y : A) j k :
  <[j := x]> (replicate j x ++ replicate (S k) y) = replicate (S j) x ++ replicate k y.
Proof.
  rewrite insert_app_r_alt by (rewrite length_replicate; lia). rewrite length_replicate, Nat.sub_diag. cbn.
  change (x :: replicate k y) with ([x] ++ replicate k y). rewrite app_assoc. f_equal.
  change [x] with (replicate 1 x). rewrite <- replicate_add. by rewrite Nat.add_comm.
Qed.

Lemma peer_index_lead v lg j i p : ps !! i = Some p -> peer_index (lead v lg j) p = Some i.
Proof using Hpv Hps.
  intros Hi. unfold peer_index. cbn. rewrite Hpv.
  assert (list_find (fun x => x = p) ps = Some (i, p)) as ->; [|done].
  apply list_find_Some. split; [done|]. split; [done|]. intros k y Hk Hlt ->.
  pose proof (NoDup_lookup ps k i p Hps Hk Hi). clear Hlen. lia.
Qed.

Lemma acked_lead v lg j : (j <= length ps)%nat -> acked (lead v lg j) 1 = S j.
Proof using Hpv Hlen.
  intros Hj. unfold acked. f_equal. unfold n_peers, hv_len. cbn [lead rn_peers rn_match_index]. rewrite Hpv.
  rewrite take_app, length_replicate, take_replicate, take_replicate, filter_app.
  rewrite length_app. replace (length ps `min` j)%nat with j by lia.
  assert (forall k, filter (fun m => 1 <= m) (replicate k 1) = replicate k 1) as ->.
  { induction k as [|k IH]; [done|]. cbn [replicate]. rewrite filter_cons_True by lia. by rewrite IH. }
  assert (forall k, filter (fun m => 1 <= m) (replicate k 0) = []) as ->.
  { induction k as [|k IH]; [done|]. cbn [replicate]. rewrite filter_cons_False by lia. done. }
  rewrite length_replicate. cbn. lia.
Qed.

(** The reply of peer [j]: commits if it completes the quorum. *)
Lemma lead_ack v lg e j p :
  entries_of lg = [e] -> le_term e = 1 -> ps !! j = Some p -> (j <= length ps)%nat ->
  on_ae_reply (lead v lg j) p 1 true 1 =
  Some (if decide (q <= S (S j))%nat then (set_commit (lead v lg (S j)) 1, Some e)
        else (lead v lg (S j), None)).
Proof using HL Hpv Hps Hlen.
  intros Hlg He Hp Hj. pose proof (lookup_lt_Some _ _ _ Hp) as Hlt. unfold on_ae_reply. cbn -[peer_index lead].
  change (rn_current_term (lead v lg j)) with 1. cbn -[peer_index lead].
  change (is_leader (lead v lg j)) with true. cbn -[peer_index lead]. rewrite (peer_index_lead v lg j j p Hp).
  rewrite add_u64_fits by done. cbn [mbind option_bind].
  assert (set_progress (lead v lg j) (<[j := 1 + 1]> (rn_next_index (lead v lg j)))
            (<[j := 1]> (rn_match_index (lead v lg j))) = lead v lg (S j)) as ->.
  { unfold lead, set_progress. cbn [rn_next_index rn_match_index]. change (1 + 1) with 2.
    replace (MAX_PEERS - j)%nat with (S (MAX_PEERS - S j)) by lia. by rewrite !insert_next. }
  unfold advance_commit_index. change (rn_commit_index (lead v lg (S j))) with 0.
  rewrite add_u64_fits by done. cbn [mbind option_bind]. cbn [rn_log lead].
  rewrite last_index_entries, Hlg. change (commit_candidates 0 (Z.of_nat (length [e]))) with [1].
  assert (committable (lead v lg (S j)) 1 = bool_decide (q <= S (S j))%nat) as Hc.
  { unfold committable. rewrite quorum_lead, acked_lead by lia. rewrite bool_decide_true; [done|].
    unfold term_at. cbn [rn_log lead rn_current_term]. change 1 with (Z.of_nat 0 + 1) at 1.
    by rewrite log_get_nat, Hlg; cbn; rewrite He. }
  cbn [list_find]. rewrite Hc. destruct (decide (q <= S (S j))%nat).
  - rewrite bool_decide_true by done. rewrite decide_True by done. cbn -[lead log_get].
    do 2 f_equal. change (rn_log (lead v lg (S j))) with lg. change 1 with (Z.of_nat 0 + 1).
    by rewrite log_get_nat, Hlg.
  - rewrite bool_decide_false by done. rewrite decide_False by done. done.
Qed.

Lemma lead_ignores_votes v lg j : on_vote_reply (lead v lg j) 1 true = Some (lead v lg j).
Proof. done. Qed.

(** Late grants are skipped, then acknowledgements are counted until the quorum is full. *)
Lemma commit_loop_acks fuel : forall v lg e peers j,
  entries_of lg = [e] -> le_term e = 1 -> (length ps - j < fuel)%nat -> (S j < q)%nat -> (q <= S (length ps))%nat ->
  exists inbox, commit_loop fuel (lead v lg j)
      (mkMesh id peers ((., AppendEntriesReply 1 true 1) <$> drop j ps)) =
    Returned (true, mkMesh id peers inbox) /\ inbox `suffix_of` ((., AppendEntriesReply 1 true 1) <$> ps).
Proof using HL Hpv Hps Hlen.
  induction fuel as [|fuel IH]; intros v lg e peers j Hlg He Hf Hj Hq; [lia|].
  destruct (lookup_lt_is_Some_2 ps j ltac:(lia)) as [p Hp]. rewrite (drop_S _ _ _ Hp).
  cbn [fmap list_fmap commit_loop]. rewrite recv_cons. unfold step.
  rewrite (lead_ack v lg e j p Hlg He Hp ltac:(lia)). cbn [mbind option_bind].
  destruct (decide (q <= S (S j))%nat); cbn [mbind option_bind].
  - eexists. split; [done|]. rewrite <- (take_drop (S j) ps) at 2. rewrite fmap_app. by eexists.
  - apply (IH v lg e peers (S j)); [done|done|lia..].
Qed.

Lemma commit_loop_live fuel v lg e peers l :
  entries_of lg = [e] -> le_term e = 1 -> (length l + length ps < fuel)%nat -> ps <> [] ->
  exists inbox, commit_loop fuel (lead v lg 0)
      (mkMesh id peers (((., RequestVoteReply 1 true) <$> l) ++ ((., AppendEntriesReply 1 true 1) <$> ps))) =
    Returned (true, mkMesh id peers inbox) /\ inbox `suffix_of` ((., AppendEntriesReply 1 true 1) <$> ps).
Proof using HL Hpv Hps Hlen.
  intros Hlg He Hf Hne. destruct (q_bounds Hne). revert fuel Hf.
  induction l as [|p l IH]; intros fuel Hf; cbn in Hf.
  - apply (commit_loop_acks fuel v lg e peers 0); [done|done|lia..].
  - destruct fuel as [|fuel]; [lia|]. cbn [fmap list_fmap app commit_loop]. rewrite recv_cons. unfold step.
    rewrite lead_ignores_votes. cbn [mbind option_bind]. apply IH. lia.
Qed.

(** Every peer gets the same message. *)
Lemma send_ae_lead v lg e : entries_of lg = [e] ->
  exists es, hv_slice es = [e] /\ forall i p (t : mesh), ps !! i = Some p ->
    send_ae_to (lead v lg 0) i t = Some (rt_send t p (AppendEntries 1 id 0 0 es 0)).
Proof using HL Hpv Hlen.
  intros Hlg. assert (log_get lg 1 = Some e) as H1 by (change 1 with (Z.of_nat 0 + 1); by rewrite log_get_nat, Hlg).
  assert (log_get lg 2 = None) as H2 by (change 2 with (Z.of_nat 1 + 1); by rewrite log_get_nat, Hlg).
  destruct (hv_push_room AE_CAP LogEntry hv_new e) as (es & Hpush & Hes).
  { unfold hv_len. rewrite hv_slice_new. apply Nat.ltb_lt. reflexivity. }
  rewrite hv_slice_new in Hes. exists es. split; [done|]. intros i p t Hi. unfold send_ae_to.
  assert (rn_next_index (lead v lg 0) !! i = Some 1) as ->.
  { cbn [rn_next_index lead replicate app]. apply lookup_replicate_2. apply lookup_lt_Some in Hi. lia. }
  assert (gather (S AE_CAP) lg hv_new 1 = Some es) as Hg.
  { change (S AE_CAP) with 17%nat. cbn [gather]. rewrite H1, Hpush. rewrite add_u64_fits by done.
    cbn [mbind option_bind]. change (1 + 1) with 2. by rewrite H2. }
  change (rn_peers (lead v lg 0)) with pv. rewrite Hpv, Hi. change (rn_log (lead v lg 0)) with lg.
  change (default 0 (Some 1)) with 1. cbv zeta. rewrite Hg. done.
Qed.

Lemma broadcast_lead v lg m : forall k i (t : mesh),
  (forall i p (t : mesh), ps !! i = Some p -> send_ae_to (lead v lg 0) i t = Some (rt_send t p m)) ->
  (i + k = length ps)%nat ->
  foldl (fun ot i => t ← ot; send_ae_to (lead v lg 0) i t) (Some t) (seq i k) =
  Some (foldl (fun t p => rt_send t p m) t (drop i ps)).
Proof.
  induction k as [|k IH]; intros i t Hs Hk.
  - rewrite drop_ge by lia. done.
  - destruct (lookup_lt_is_Some_2 ps i ltac:(lia)) as [p Hp]. rewrite (drop_S _ _ _ Hp).
    cbn [seq foldl mbind option_bind]. rewrite (Hs i p t Hp). apply IH; [done|lia].
Qed.

(** The proposal reaches every peer, and every peer acknowledges it. *)
Lemma propose_live v src dst peers inbox :
  ps <> [] -> (forall p, p ∈ ps -> exists s, peers !! p = Some s /\ voter s) ->
  exists lg peers', entries_of lg = [mkEntry 1 src dst] /\
    propose (lead v log_new 0) src dst (mkMesh id peers inbox) =
    Some (lead v lg 0, mkMesh id peers' (inbox ++ ((., AppendEntriesReply 1 true 1) <$> ps)), Ok tt) /\
    forall p, p ∈ ps -> exists s, peers' !! p = Some s /\ entries_of (rn_log s) = [mkEntry 1 src dst].
Proof using HL Hpv Hps Hlen.
  intros Hne Hvot. set (e := mkEntry 1 src dst). unfold propose. change (is_leader (lead v log_new 0)) with true.
  cbn [negb]. change {| le_term := rn_current_term (lead v log_new 0); le_src := src; le_dst := dst |} with e.
  change (rn_log (lead v log_new 0)) with log_new.
  destruct (log_append log_new e) as [lg ok] eqn:Happ.
  unfold log_append in Happ. destruct (hv_push_room _ _ (log_entries log_new) e) as (w & Hpush & Hw).
  { unfold hv_len. cbn. rewrite hv_slice_new. apply Nat.ltb_lt. reflexivity. }
  rewrite Hpush in Happ. injection Happ as <- <-. cbn [negb]. set (lg := {| log_entries := w |}).
  assert (entries_of lg = [e]) as Hlg by (unfold entries_of, lg; cbn; rewrite Hw; cbn; by rewrite hv_slice_new).
  change (set_log (lead v log_new 0) lg) with (lead v lg 0).
  assert (n_peers (lead v lg 0) = length ps) as Hn by (unfold n_peers, hv_len; cbn; by rewrite Hpv).
  rewrite decide_False by (rewrite Hn; by intros ?%length_zero_iff_nil).
  destruct (send_ae_lead v lg e Hlg) as (es & Hes & Hsend).
  destruct (broadcast_mesh voter (AppendEntries 1 id 0 0 es 0) (has_entry e) (AppendEntriesReply 1 true 1) id
    (fun s Hs => voter_acks id s es e Hs Hes) ps peers inbox Hps Hvot) as (peers' & Hb & Hp').
  exists lg, peers'. split; [done|]. split.
  - unfold broadcast_ae. rewrite Hn, (broadcast_lead v lg _ (length ps) 0 _ Hsend) by done.
    rewrite drop_0. setoid_rewrite Hb. done.
  - intros p Hp. rewrite Hp', decide_True by done. destruct (Hvot p Hp) as (s & -> & Hs).
    eexists. split; [done|]. by apply has_entry_log.
Qed.

(** The election asks every peer, and every peer grants its vote. *)
Lemma start_election_live pset peers :
  rn_peers (node_new id pset) = pv -> ps <> [] ->
  (forall p, p ∈ ps -> exists s, peers !! p = Some s /\ idle s) ->
  exists peers', start_election (node_new id pset) (mkMesh id peers []) =
    Some (cand 1, mkMesh id peers' (((., RequestVoteReply 1 true) <$> ps) ++ [])) /\
    forall p, p ∈ ps -> exists s, peers' !! p = Some s /\ voter s.
Proof using HL Hpv Hps Hlen.
  intros Hnew Hne Hidle. unfold start_election. change (add_u64 (rn_current_term (node_new id pset)) 1) with (Some 1).
  cbn [mbind option_bind].
  assert (set_votes (set_voted (set_role (set_term (node_new id pset) 1) Candidate) (Some (rn_id (node_new id pset)))) 1
          = cand 1) as -> by (unfold cand; rewrite <- Hnew; done).
  rewrite decide_False by (rewrite npeers_cand; by intros ?%length_zero_iff_nil).
  change (rn_peers (cand 1)) with pv. rewrite Hpv.
  change (rn_log (cand 1)) with log_new. rewrite last_index_entries, (last_term_nil _ log_new_nil), log_new_nil.
  destruct (broadcast_mesh idle (RequestVote 1 id 0 0) (has_voted id) (RequestVoteReply 1 true) id
    (idle_grants id) ps peers [] Hps Hidle) as (peers' & Hb & Hp').
  exists peers'. split.
  - rewrite app_nil_r. setoid_rewrite Hb. done.
  - intros p Hp. rewrite Hp', decide_True by done. destruct (Hidle p Hp) as (s & -> & Hs).
    eexists. split; [done|]. by apply has_voted_voter.
Qed.

End candidate.

(** ** A round with fresh peers *)

Section round.
Context `{HV : HVec} `{IS : IndexSet} `{LM : LinearMap} `{SH : Sha256} `{HL : !HVecLaws}.
Implicit Types (st : BootState) (log : AuditLog) (pset : PeerSet) (t : mesh).

(** The inbox holds replies only, and none of them is a vote. *)
Definition no_grants (inbox : list (NodeId * RaftMessage)) : Prop :=
  Forall (fun x => match x.2 with
                   | RequestVoteReply _ granted => granted = false
                   | AppendEntriesReply _ _ _ => True
                   | _ => False
                   end) inbox.

(** C21: Consensus makes progress.  If the peers are reachable and fresh, a round for an edge
    the sealed graph permits is committed: at every cluster size up to the sixteen peers the
    code supports, after at most two messages per peer, the round returns [Ok] and every
    peer holds the proposed traversal in its log. *)
Theorem consensus_live fuel st pset peers src dst log :
  let l := hv_slice (ps_peers pset) in
  traverse_inner (bs_graph st) src dst = Ok tt -> is_full log = false ->
  l <> [] -> NoDup l -> (length l <= MAX_PEERS)%nat -> (2 * length l < fuel)%nat ->
  (forall p, p ∈ l -> exists s, peers !! p = Some s /\ idle s) ->
  exists peers' inbox log',
    run_topology_consensus fuel st pset src dst (mkMesh (bs_local_id st) peers []) log =
    Returned (mkMesh (bs_local_id st) peers' inbox, log', Ok tt) /\
    (forall p, p ∈ l -> exists s, peers' !! p = Some s /\ entries_of (rn_log s) = [mkEntry 1 src dst]) /\
    no_grants inbox.
Proof using HL.
  intros l Hedge Hroom Hne Hnd Hlen Hfuel Hidle. set (id := bs_local_id st).
  pose proof (node_new_peers id pset Hlen) as Hpv. set (pv := rn_peers (node_new id pset)) in Hpv.
  unfold run_topology_consensus. fold id. rewrite traverse_unfold, Hroom, Hedge. cbn [andb is_ok negb].
  destruct (append_room log TopologyTraverse src UNTIMED (denial_of (Ok tt)) Hroom) as (log1 & -> & _). cbn [fst].
  destruct (start_election_live id pv l Hpv Hnd Hlen pset peers eq_refl Hne Hidle) as (peers1 & -> & Hvoters).
  change (is_leader (cand id pv 1)) with false. cbn [negb]. destruct (q_bounds l Hne) as [Hq1 Hq2].
  assert (length l <= 16)%nat as H16 by exact Hlen.
  destruct (elect_loop_live id pv l Hpv fuel l 1 peers1 []) as (l' & -> & Hl'); [lia..|].
  change (is_leader (lead id pv (Z.of_nat (q l)) log_new 0)) with true. cbn [negb]. unfold propose_and_commit.
  rewrite app_nil_r. destruct (propose_live id pv l Hpv Hnd Hlen (Z.of_nat (q l)) src dst peers1
    ((., RequestVoteReply 1 true) <$> l') Hne Hvoters) as (lg & peers2 & Hlg & -> & Hlogs).
  assert (node_log_len (lead id pv (Z.of_nat (q l)) lg 0) = 1) as ->.
  { unfold node_log_len. cbn [rn_log lead]. unfold log_len, hv_len. fold (entries_of lg). by rewrite Hlg. }
  change (rn_commit_index (lead id pv (Z.of_nat (q l)) lg 0)) with 0. change (1 <=? 0) with false. cbv iota.
  destruct (commit_loop_live id pv l Hpv Hnd Hlen fuel (Z.of_nat (q l)) lg (mkEntry 1 src dst) peers2 l')
    as (inbox & -> & Hsuf); [done|done|lia|done|].
  cbn [negb]. eexists peers2, inbox, _. split; [done|]. split; [done|].
  unfold no_grants. destruct Hsuf as [k Hk].
  assert (Forall (fun x => match x.2 with RequestVoteReply _ g => g = false | AppendEntriesReply _ _ _ => True
    | _ => False end) (((., AppendEntriesReply 1 true 1) <$> l) : list (NodeId * RaftMessage))) as Hall.
  { apply Forall_fmap, Forall_true. by intros. }
  rewrite Hk in Hall. by apply Forall_app in Hall as [_ ?].
Qed.

(** ** Every later round *)

(** A peer that holds an entry. *)
Definition settled (s : RaftNode) : Prop := entries_of (rn_log s) <> [] /\ 0 <= last_term (rn_log s).

(** The transport after a round: the peers of [l] that answer hold entries, and no vote is in flight. *)
Definition spent (l : list NodeId) (t : mesh) : Prop :=
  (forall p s, p ∈ l -> mh_peers t !! p = Some s -> settled s) /\ no_grants (mh_inbox t).

Lemma settled_refuses id s : settled s ->
  exists s' term, step s id (RequestVote 1 id 0 0) ([] : Outbox) = Some (s', [(id, RequestVoteReply term false)], None) /\
    settled s'.
Proof.
  intros [Hne Ht]. unfold step, on_request_vote.
  set (s1 := if rn_current_term s <? 1 then step_down s 1 else s).
  assert (rn_log s1 = rn_log s) as Hlog by (unfold s1; by destruct (_ <? _)).
  assert (log_up_to_date_for s1 0 0 = false) as ->.
  { unfold log_up_to_date_for. rewrite Hlog, last_index_entries.
    assert (length (entries_of (rn_log s)) <> 0%nat) by by intros ?%length_zero_iff_nil.
    rewrite (proj2 (Z.ltb_ge _ _)), (proj2 (Z.leb_gt _ _)) by lia. by rewrite andb_false_r. }
  rewrite andb_false_r. cbn. eexists s1, _. split; [done|]. unfold settled. by rewrite Hlog.
Qed.

Lemma refused_send l t p : spent l t -> p ∈ l ->
  exists t', rt_send t p (RequestVote 1 (mh_local t) 0 0) = t' /\ mh_local t' = mh_local t /\
    spent l t' /\ (length (mh_inbox t') <= S (length (mh_inbox t)))%nat.
Proof.
  intros [Hp Hin] Hpl. eexists. split; [done|]. cbn. unfold mesh_send.
  destruct (mh_peers t !! p) as [s|] eqn:Hs; [|split; [done|split; [done|lia]]].
  destruct (settled_refuses (mh_local t) s (Hp p s Hpl Hs)) as (s' & term & -> & Hs'). cbn.
  rewrite decide_True by done. cbn. split; [done|]. split; [|rewrite length_app; cbn; lia]. split; cbn.
  - intros p' s2 Hp' [[<- <-]|[_ H2]]%lookup_insert_Some; [done|]. by apply (Hp p').
  - apply Forall_app. split; [done|]. by apply Forall_singleton.
Qed.

Lemma refused_broadcast id l k : forall t, mh_local t = id -> spent l t -> k ⊆ l ->
  exists t', foldl (fun t p => rt_send t p (RequestVote 1 id 0 0)) t k = t' /\ mh_local t' = id /\
    spent l t' /\ (length (mh_inbox t') <= length (mh_inbox t) + length k)%nat.
Proof.
  induction k as [|p k IH]; intros t Hid Hs Hk; cbn [foldl].
  { exists t. split; [done|]. split; [done|]. split; [done|]. cbn. lia. }
  destruct (refused_send l t p Hs) as (t1 & Ht1 & Hl1 & Hs1 & Hn1); [apply Hk; left|].
  rewrite Hid in Ht1, Hl1. rewrite Ht1.
  destruct (IH t1 Hl1 Hs1) as (t2 & -> & Hl2 & Hs2 & Hn2); [intros x ?; apply Hk; by right|].
  exists t2. cbn [length]. split; [done|]. split; [done|]. split; [done|lia].
Qed.

(** A node that has only its own vote, and peers. *)
Definition alone (n : RaftNode) : Prop :=
  rn_role n <> Leader /\ rn_votes_granted n = 1 /\ n_peers n <> 0%nat.

Lemma alone_step n from m t : alone n -> no_grants [(from, m)] ->
  exists n', step n from m t = Some (n', t, None) /\ alone n'.
Proof.
  intros (Hr & Hv & Hn) [Hm _]%Forall_cons. destruct m as [| term g| |term ok mi]; cbn in Hm; try done; unfold step.
  - subst g. unfold on_vote_reply. destruct (_ <? _); [by eexists|].
    destruct (_ || _); [by eexists|]. cbn [mbind option_bind]. rewrite Hv, (proj2 (Z.leb_gt _ _)); [by eexists|].
    unfold quorum. pose proof (Nat.Div0.div_le_mono 2 (n_peers n + 1) 2 ltac:(lia)) as H2.
    change (2 / 2)%nat with 1%nat in H2. lia.
  - unfold on_ae_reply. destruct (_ <? _); [by eexists|].
    assert (is_leader n = false) as -> by by apply bool_decide_eq_false. by eexists.
Qed.

(** The election loop drains the inbox and the node does not lead. *)
Lemma elect_loop_alone id peers fuel : forall n inbox, (length inbox < fuel)%nat -> alone n -> no_grants inbox ->
  exists n', elect_loop fuel n (mkMesh id peers inbox) = Returned (n', mkMesh id peers []) /\ alone n'.
Proof.
  induction fuel as [|fuel IH]; intros n inbox Hf Hn Hin; [lia|]. destruct inbox as [|[from m] inbox].
  { exists n. done. }
  cbn [elect_loop]. rewrite recv_cons. apply Forall_cons in Hin as [Hm Hin].
  destruct (alone_step n from m (mkMesh id peers inbox) Hn ltac:(by apply Forall_singleton)) as (n' & -> & Hn').
  assert (is_leader n' = false) as -> by (apply bool_decide_eq_false, Hn'). apply IH; [cbn in Hf; lia|done..].
Qed.

(** C29: Only the first round can succeed.  A round campaigns with a new node, whose log is
    empty, in term 1; peers that hold an entry refuse it their vote.  So after
    [consensus_live], and after any number of failed rounds, every round for any edge
    ends with [TopologyViolation], and leaves the transport as unable to help. *)
Theorem later_rounds_fail fuel st pset t src dst log :
  let l := hv_slice (ps_peers pset) in
  l <> [] -> (length l <= MAX_PEERS)%nat -> mh_local t = bs_local_id st -> spent l t ->
  (length (mh_inbox t) + length l < fuel)%nat ->
  exists t' log', run_topology_consensus fuel st pset src dst t log =
    Returned (t', log', Err (TopologyViolation src dst)) /\ mh_local t' = bs_local_id st /\ spent l t'.
Proof using HL.
  intros l Hne Hlen Hid Hs Hfuel. unfold run_topology_consensus. destruct (traverse _ _ _ _) as [log1 r].
  destruct (is_ok r); [|by eexists t, log1]. cbn [negb]. set (id := bs_local_id st) in *.
  pose proof (node_new_peers id pset Hlen) as Hpv. fold l in Hpv.
  unfold start_election. change (add_u64 (rn_current_term (node_new id pset)) 1) with (Some 1).
  cbn [mbind option_bind]. set (n := set_votes _ 1).
  assert (n_peers n = length l) as Hn by (unfold n_peers, hv_len, n; cbn -[node_new]; by rewrite Hpv).
  assert (n_peers n <> 0%nat) as Hn0 by (rewrite Hn; by intros ?%length_zero_iff_nil).
  rewrite decide_False by done. change (hv_slice (rn_peers n)) with (hv_slice (rn_peers (node_new id pset))).
  rewrite Hpv. change (rn_log n) with log_new.
  rewrite last_index_entries, (last_term_nil _ log_new_nil), log_new_nil.
  destruct (refused_broadcast id l l t Hid Hs) as (t1 & Ht1 & Hid1 & [Hp1 Hin1] & Hlen1); [done|].
  change (rn_current_term n) with 1. change (rn_id n) with id. setoid_rewrite Ht1.
  change (is_leader n) with false. cbn [negb]. destruct t1 as [id1 peers1 inbox1]. cbn in *. subst id1.
  destruct (elect_loop_alone id peers1 fuel n inbox1) as (n' & -> & Hn'); [lia|done|done|].
  assert (is_leader n' = false) as -> by (apply bool_decide_eq_false, Hn'). cbn [negb].
  eexists _, _. split; [done|]. split; [done|]. split; [done|]. by apply Forall_nil.
Qed.

End round.

(** ** Termination *)

Section termination.
Context `{HV : HVec} `{IS : IndexSet} `{LM : LinearMap} `{SH : Sha256} `{HL : !HVecLaws}.

(** C28: Every round terminates.  Against peers that run the node of this repository, each
    in whatever state, some of them missing, and with any messages waiting from before, both
    receive loops of a round end within one unit of fuel more than the waiting messages and
    two per peer: the round returns a result, or aborts on an overflow.  (The trait itself
    promises less: see [Consensus.Witness.endless_round].) *)
Theorem rounds_terminate fuel st ps src dst (t : mesh) log :
  (length (mh_inbox t) + 2 * peers_len ps < fuel)%nat ->
  run_topology_consensus fuel st ps src dst t log <> Running.
Proof using HL. apply (round_returns (fun t : mesh => length (mh_inbox t))). Qed.

End termination.

(** ** Witnesses *)

Module Witness.
#[local] Existing Instance ListModel.list_hvec.
#[local] Existing Instance ListModel.list_hvec_laws.
#[local] Existing Instance ListModel.list_iset.
#[local] Existing Instance ListModel.list_lmap.
#[local] Existing Instance ByteModel.toy_sha.

Definition ps23 : PeerSet := Raft.Witness.peer_set [2; 3].
Definition peers0 : gmap NodeId RaftNode :=
  <[2 := node_new 2 (Raft.Witness.peer_set [1; 3])]> (<[3 := node_new 3 (Raft.Witness.peer_set [1; 2])]> ∅).
Definition mesh0 : mesh := mkMesh 1 peers0 [].

Lemma consensus_live_witness : exists peers' inbox log',
  run_topology_consensus 5 Consensus.Witness.st0 ps23 1 2 mesh0 AuditLog.new =
    Returned (mkMesh 1 peers' inbox, log', Ok tt) /\
  exists s, peers' !! 2 = Some s /\ entries_of (rn_log s) = [mkEntry 1 1 2].
Proof.
  destruct (consensus_live 5 Consensus.Witness.st0 ps23 peers0 1 2 AuditLog.new) as (peers' & inbox & log' & H & Hp & _).
  - exact Consensus.Witness.st0_permits.
  - reflexivity.
  - discriminate.
  - change (NoDup [2; 3]). apply NoDup_cons. split; [|by apply NoDup_singleton]. by intros [= ?]%list_elem_of_singleton.
  - apply Nat.leb_le. reflexivity.
  - apply Nat.ltb_lt. reflexivity.
  - change (forall p, p ∈ [2; 3] -> exists s, peers0 !! p = Some s /\ idle s).
    intros p [->|[->|[]%not_elem_of_nil]%elem_of_cons]%elem_of_cons; eexists; (split; [reflexivity|]); done.
  - exists peers', inbox, log'. split; [exact H|]. apply Hp. left.
Defined.

(** Two peers and a stray message from an earlier term, on which the node waits. *)
Lemma rounds_terminate_witness :
  run_topology_consensus 6 Consensus.Witness.st0 ps23 1 2 (mkMesh 1 peers0 [(2, RequestVoteReply 0 true)]) AuditLog.new
  <> Running.
Proof. apply rounds_terminate. apply Nat.ltb_lt. reflexivity. Defined.

(** The transport after that round. *)
Definition mesh1 : mesh :=
  match run_topology_consensus 5 Consensus.Witness.st0 ps23 1 2 mesh0 AuditLog.new with
  | Returned (t, _, _) => t
  | _ => mesh0
  end.

Lemma mesh1_spent : spent [2; 3] mesh1.
Proof.
  split; [|vm_compute; repeat constructor].
  intros p s [->|[->|[]%not_elem_of_nil]%elem_of_cons]%elem_of_cons H; vm_compute in H; injection H as <-;
    (split; [vm_compute; discriminate|by vm_compute]).
Qed.

Lemma later_rounds_fail_witness : exists t' log',
  run_topology_consensus 5 Consensus.Witness.st0 ps23 1 2 mesh1 AuditLog.new =
    Returned (t', log', Err (TopologyViolation 1 2)).
Proof.
  destruct (later_rounds_fail 5 Consensus.Witness.st0 ps23 mesh1 1 2 AuditLog.new) as (t' & log' & H & _).
  - discriminate.
  - apply Nat.leb_le. reflexivity.
  - reflexivity.
  - exact mesh1_spent.
  - apply Nat.ltb_lt. vm_compute. reflexivity.
  - exists t', log'. exact H.
Defined.

End Witness.
