(* ===== verification/Wasm.v ===== *)
(** * WASM guests

    Models [src/wasm/mod.rs] and [src/wasm/host.rs] (the shim, its handle table and the
    three host functions) and the host-function closures of [src/wasm/executor.rs], with
    their casts.  A guest is any sequence of host calls, chosen however it likes;
    [Executor.v] has the engine that runs it.

    [guest_confined] is the kernel-wide guarantee: whatever the guest calls, the four
    invariants hold together on the one shared state. *)
From S2P Require Import Prelude Heapless Crypto Types AuditLog Capability Revocation Policy.
From S2P Require Import Ledger Topology Hsm Tpm Manifest Boot.
From stdpp Require Import base tactics list numbers option strings sets.
Open Scope Z_scope.

(** ** Definitions *)

Definition MAX_WASM_CAPS : nat := 64.
#[global] Arguments MAX_WASM_CAPS : simpl never.

Definition RC_PERMITTED : Z := 0.
Definition RC_CAP_DENIED : Z := 1.
Definition RC_QUOTA_EXCEEDED : Z := 2.
Definition RC_TOPO_VIOLATION : Z := 3.
Definition RC_INVALID_HANDLE : Z := -1.

(** The casts [x as u32] and [x as u64] from [i32] and [i64]. *)
Definition as_u32 (x : Z) : Z := x mod (U32_MAX + 1).
Definition as_u64 (x : Z) : Z := x mod (U64_MAX + 1).

Section shim.
Context `{HV : HVec} `{IS : IndexSet} `{LM : LinearMap} `{SH : Sha256} `{BF : Bitflags}.

Record WasmShim := mkShim {
  ws_policy : Policy;
  ws_ledger : Ledger;
  ws_graph : OperationalGraph;
  ws_audit : AuditLog;
  ws_cap_table : hvec MAX_WASM_CAPS (option Capability);
}.

Definition from_parts (policy : Policy) (ledger : Ledger) (graph : OperationalGraph) : WasmShim :=
  {| ws_policy := policy; ws_ledger := ledger; ws_graph := graph; ws_audit := AuditLog.new;
     ws_cap_table := hv_new |}.

Definition from_boot_state (boot : BootState) : WasmShim :=
  from_parts (bs_policy boot) (bs_ledger boot) (bs_graph boot).

Definition audit (self : WasmShim) : AuditLog := ws_audit self.

Definition register_cap (self : WasmShim) (cap : Capability) : WasmShim * option Z :=
  let idx := Z.min (Z.of_nat (hv_len (ws_cap_table self))) U32_MAX in
  match hv_push (ws_cap_table self) (Some cap) with
  | None => (self, None)
  | Some table =>
      ({| ws_policy := ws_policy self; ws_ledger := ws_ledger self; ws_graph := ws_graph self;
          ws_audit := ws_audit self; ws_cap_table := table |}, Some idx)
  end.

Definition policy_check (self : WasmShim) (cap_handle right_bits : Z) : WasmShim * Z :=
  match hv_slice (ws_cap_table self) !! Z.to_nat cap_handle with
  | None | Some None => (self, RC_INVALID_HANDLE)
  | Some (Some cap) =>
      let required := from_bits_truncate right_bits in
      let '(policy, audit, r) := Policy.check (ws_policy self) cap required (ws_audit self) in
      ({| ws_policy := policy; ws_ledger := ws_ledger self; ws_graph := ws_graph self;
          ws_audit := audit; ws_cap_table := ws_cap_table self |},
       if is_ok r then RC_PERMITTED else RC_CAP_DENIED)
  end.

Definition ledger_deduct (self : WasmShim) (node_id amount : Z) : WasmShim * Z :=
  match NonZeroU32_new node_id with
  | None => (self, RC_INVALID_HANDLE)
  | Some node =>
      let '(ledger, audit, r) := enforcer_deduct (ws_ledger self) node amount "wasm" (ws_audit self) in
      ({| ws_policy := ws_policy self; ws_ledger := ledger; ws_graph := ws_graph self;
          ws_audit := audit; ws_cap_table := ws_cap_table self |},
       if is_ok r then RC_PERMITTED else RC_QUOTA_EXCEEDED)
  end.

Definition topology_traverse (self : WasmShim) (src_id dst_id : Z) : WasmShim * Z :=
  match NonZeroU32_new src_id, NonZeroU32_new dst_id with
  | Some src, Some dst =>
      let '(audit, r) := traverse (ws_graph self) src dst (ws_audit self) in
      ({| ws_policy := ws_policy self; ws_ledger := ws_ledger self; ws_graph := ws_graph self;
          ws_audit := audit; ws_cap_table := ws_cap_table self |},
       if is_ok r then RC_PERMITTED else RC_TOPO_VIOLATION)
  | _, _ => (self, RC_INVALID_HANDLE)
  end.

(** The host functions of [host.rs]. *)
Definition lux_policy_check (shim : WasmShim) (cap_handle right_bits : Z) : WasmShim * Z :=
  policy_check shim cap_handle right_bits.
Definition lux_ledger_deduct (shim : WasmShim) (node_id amount : Z) : WasmShim * Z :=
  ledger_deduct shim node_id amount.
Definition lux_topology_traverse (shim : WasmShim) (src_id dst_id : Z) : WasmShim * Z :=
  topology_traverse shim src_id dst_id.

(** ** Guests *)

(** A host call with the raw [i32] and [i64] arguments of the guest. *)
Inductive host_call :=
| PolicyCheck (cap_handle right_bits : Z)
| LedgerDeduct (node_id amount : Z)
| TopologyTraverseCall (src_id dst_id : Z).

(** The closures [WasmExecutor::new] registers in the linker. *)
Definition host_invoke (shim : WasmShim) (c : host_call) : WasmShim * Z :=
  match c with
  | PolicyCheck h b => policy_check shim (as_u32 h) (as_u32 b)
  | LedgerDeduct n a => ledger_deduct shim (as_u32 n) (as_u64 a)
  | TopologyTraverseCall s d => topology_traverse shim (as_u32 s) (as_u32 d)
  end.

(** The calls a guest makes and the return codes it sees. *)
Fixpoint guest_run (shim : WasmShim) (calls : list host_call) : WasmShim * list (host_call * Z) :=
  match calls with
  | [] => (shim, [])
  | c :: calls' =>
      let '(shim1, rc) := host_invoke shim c in
      let '(shim2, trace) := guest_run shim1 calls' in
      (shim2, (c, rc) :: trace)
  end.

End shim.

Lemma as_u32_range x : in_u32 (as_u32 x).
Proof.
  unfold as_u32. pose proof (Z.mod_pos_bound x (U32_MAX + 1) ltac:(done)). unfold in_u32. lia.
Qed.

Lemma as_u64_range x : in_u64 (as_u64 x).
Proof.
  unfold as_u64. pose proof (Z.mod_pos_bound x (U64_MAX + 1) ltac:(done)). unfold in_u64. lia.
Qed.

Lemma NonZeroU32_node x n : NonZeroU32_new (as_u32 x) = Some n -> n = as_u32 x /\ node_ok n.
Proof. intros Hn. apply NonZeroU32_new_ok in Hn; [done|apply as_u32_range]. Qed.

(** ** One call *)

Section facts.
Context `{HV : HVec} `{IS : IndexSet} `{LM : LinearMap} `{SH : Sha256} `{BF : Bitflags}.
Context `{HL : !HVecLaws} `{LL : !LinearMapLaws}.
Implicit Types (s : WasmShim) (c : host_call).

Definition permitted (x : host_call * Z) : bool := x.2 =? RC_PERMITTED.

(** The nonce behind a handle. *)
Definition handle_nonce s (h : Z) : option Z :=
  o ← hv_slice (ws_cap_table s) !! Z.to_nat (as_u32 h); cap_nonce <$> o.

(** What a permitted call spends, draws and uses. *)
Definition spends s (x : host_call * Z) : option Z :=
  match x with (PolicyCheck h _, rc) => if rc =? RC_PERMITTED then handle_nonce s h else None | _ => None end.

Definition draws (n : NodeId) (x : host_call * Z) : Z :=
  match x with
  | (LedgerDeduct m a, rc) => if (rc =? RC_PERMITTED) && (as_u32 m =? n) then as_u64 a else 0
  | _ => 0
  end.

Definition call_kind c : EventKind :=
  match c with
  | PolicyCheck _ _ => CapabilityCheck
  | LedgerDeduct _ _ => ResourceDeduction
  | TopologyTraverseCall _ _ => TopologyTraverse
  end.

(** The effect of one call on each part of the state. *)
Record call_effect s c s' (rc : Z) : Prop := {
  ce_graph : ws_graph s' = ws_graph s;
  ce_table : ws_cap_table s' = ws_cap_table s;
  ce_traverse : forall a b, c = TopologyTraverseCall a b -> rc = RC_PERMITTED ->
    node_ok (as_u32 a) /\ node_ok (as_u32 b) /\
    traverse_inner (ws_graph s) (as_u32 a) (as_u32 b) = Ok tt;
  ce_balance : forall n b, balance (ws_ledger s) n = Some b ->
    balance (ws_ledger s') n = Some (b - draws n (c, rc)) /\ 0 <= draws n (c, rc) /\
    (0 <= b -> 0 <= b - draws n (c, rc));
  ce_undeclared : forall n, balance (ws_ledger s) n = None ->
    balance (ws_ledger s') n = None /\ draws n (c, rc) = 0;
  ce_nonce : forall n, spends s (c, rc) = Some n ->
    ~ spent (ws_policy s) n /\ spent (ws_policy s') n;
  ce_spent : forall n, spent (ws_policy s) n -> spent (ws_policy s') n;
  ce_audit : exists es, events (ws_audit s') = events (ws_audit s) ++ es /\
    permitted_events es =
    (if permitted (c, rc) then [call_kind c] else []);
}.

(** A call that is refused before it reaches a gate. *)
Lemma refused_effect s c : call_effect s c s RC_INVALID_HANDLE.
Proof.
  constructor; try done.
  - intros n b Hb. assert (draws n (c, RC_INVALID_HANDLE) = 0) as -> by by destruct c.
    rewrite Z.sub_0_r. done.
  - intros n Hn. split; [done|]. by destruct c.
  - by destruct c.
  - exists []. by rewrite app_nil_r.
Qed.

Lemma policy_check_effect s h b :
  let '(s', rc) := policy_check s (as_u32 h) (as_u32 b) in call_effect s (PolicyCheck h b) s' rc.
Proof using HL LL.
  unfold policy_check.
  destruct (hv_slice (ws_cap_table s) !! Z.to_nat (as_u32 h)) as [[cap|]|] eqn:Hh;
    [|apply refused_effect..].
  pose proof (check_branches (ws_policy s) cap (from_bits_truncate (as_u32 b)) (ws_audit s)) as Hb.
  pose proof (check_policy_cases (ws_policy s) cap (from_bits_truncate (as_u32 b)) (ws_audit s)) as Hpc.
  pose proof (check_full_log (ws_policy s) cap (from_bits_truncate (as_u32 b)) (ws_audit s)) as Hfl.
  destruct (Policy.check _ _ _ _) as [[p' l'] r] eqn:Hc. cbn [fst snd] in *.
  pose proof (check_permits_iff _ _ _ _ _ _ _ Hc) as Hiff.
  assert (is_ok r = true <-> r = Ok tt) as Hr.
  { destruct r as [[]|]; cbn; naive_solver. }
  constructor; cbn; try done.
  - intros n bal Hbal. rewrite Z.sub_0_r. done.
  - intros n Hn. destruct (is_ok r) eqn:Er; [|done]. cbn in Hn. unfold handle_nonce in Hn. rewrite Hh in Hn.
    cbn in Hn. injection Hn as <-. destruct (proj1 Hiff (proj1 Hr eq_refl)) as [Ha _].
    destruct Hb as [_ Hb]. destruct (Hb Ha) as (_ & _ & _ & Hu). split; [apply Ha|].
    unfold spent. rewrite Hu. set_solver.
  - intros n Hn. destruct Hpc as [->|(_ & _ & Hu)]; [done|]. unfold spent in *. rewrite Hu. set_solver.
  - destruct (is_full (ws_audit s)) eqn:Hf.
    + rewrite Hfl by done. exists []. rewrite app_nil_r. split; [done|].
      destruct (is_ok r) eqn:Er; [|done]. destruct (proj1 Hiff (proj1 Hr eq_refl)) as [_ ?]. done.
    + destruct (check_event _ _ _ _ _ _ _ Hc (or_introl Hf)) as (e & He & Hk & _ & Ho & _).
      exists [e]. split; [exact He|]. rewrite (permitted_events_one e (is_ok r) CapabilityCheck); [|done|].
      * by destruct (is_ok r).
      * by rewrite Ho, Hr.
Qed.

Lemma ledger_deduct_effect s m a :
  let '(s', rc) := ledger_deduct s (as_u32 m) (as_u64 a) in call_effect s (LedgerDeduct m a) s' rc.
Proof using HL LL.
  unfold ledger_deduct. destruct (NonZeroU32_new (as_u32 m)) as [node|] eqn:Hm; [|apply refused_effect].
  apply NonZeroU32_node in Hm as [-> _]. pose proof (as_u64_range a) as Ha.
  pose proof (enforcer_cases (ws_ledger s) (as_u32 m) (as_u64 a) "wasm" (ws_audit s)) as He.
  destruct (is_full (ws_audit s)) eqn:Hf.
  { rewrite enforcer_full in * by done. constructor; cbn; try done.
    - intros n b Hb. rewrite Z.sub_0_r. done.
    - exists []. by rewrite app_nil_r. }
  destruct (enforcer_deduct _ _ _ _ _) as [[l' log'] r]. destruct He as (Hiff & Herr & Hok & Hev).
  destruct (Hev eq_refl) as (e & Hee & Hk & _ & Ho & _).
  constructor; cbn; try done.
  - intros n b Hb. destruct r as [b'|err]; cbn.
    + destruct (Hok b' eq_refl) as [Hbal Hall]. destruct (proj1 Hiff eq_refl) as [_ (b2 & Hb2 & Hle)].
      rewrite Hall. destruct (Z.eqb_spec (as_u32 m) n) as [Heq|Hne].
      * subst n. rewrite decide_True by done. rewrite Hb in Hbal, Hb2. injection Hbal as ->. injection Hb2 as <-.
        split; [f_equal; lia|]. unfold_width. lia.
      * rewrite decide_False by done. rewrite Z.sub_0_r. done.
    + rewrite (Herr eq_refl), Z.sub_0_r. done.
  - intros n Hn. destruct r as [b'|err]; cbn; [|by rewrite (Herr eq_refl)].
    destruct (Hok b' eq_refl) as [Hbal Hall]. destruct (Z.eqb_spec (as_u32 m) n) as [Heq|Hne].
    + subst n. rewrite Hn in Hbal. done.
    + by rewrite Hall, decide_False.
  - exists [e]. split; [exact Hee|]. rewrite (permitted_events_one e (is_ok r) ResourceDeduction) by done.
    by destruct (is_ok r).
Qed.

Lemma topology_traverse_effect s a b :
  let '(s', rc) := topology_traverse s (as_u32 a) (as_u32 b) in
  call_effect s (TopologyTraverseCall a b) s' rc.
Proof using HL LL.
  unfold topology_traverse. destruct (NonZeroU32_new (as_u32 a)) as [src|] eqn:Ha; [|apply refused_effect].
  destruct (NonZeroU32_new (as_u32 b)) as [dst|] eqn:Hb; [|apply refused_effect].
  apply NonZeroU32_node in Ha as [-> Hna]. apply NonZeroU32_node in Hb as [-> Hnb].
  pose proof (traverse_event (ws_graph s) (as_u32 a) (as_u32 b) (ws_audit s)) as He.
  pose proof (traverse_unfold (ws_graph s) (as_u32 a) (as_u32 b) (ws_audit s)) as Hu.
  destruct (traverse _ _ _ _) as [log' r]. destruct He as (Hev & Hfull & _).
  assert (is_ok r = true <-> r = Ok tt) as Hr by (destruct r as [[]|]; cbn; naive_solver).
  constructor; cbn; try done.
  - intros a' b' [= <- <-] Hrc. split; [done|]. split; [done|]. destruct (is_ok r) eqn:Er; [|done].
    apply (f_equal snd) in Hu. cbn in Hu. rewrite (proj1 Hr eq_refl) in Hu.
    destruct (traverse_inner (ws_graph s) (as_u32 a) (as_u32 b)) as [[]|], (is_full (ws_audit s)); done.
  - intros n bal Hbal. rewrite Z.sub_0_r. done.
  - destruct (is_full (ws_audit s)) eqn:Hf.
    + destruct (Hfull eq_refl) as [-> Hne]. exists []. rewrite app_nil_r. split; [done|].
      destruct (is_ok r) eqn:Er; [|done]. destruct Hne. by apply Hr.
    + destruct (Hev eq_refl) as (e & Hee & Hk & _ & Ho & _). exists [e]. split; [exact Hee|].
      rewrite (permitted_events_one e (is_ok r) TopologyTraverse); [by destruct (is_ok r)|done|].
      by rewrite Ho, Hr.
Qed.

Lemma host_invoke_effect s c : let '(s', rc) := host_invoke s c in call_effect s c s' rc.
Proof using HL LL.
  destruct c; [apply policy_check_effect|apply ledger_deduct_effect|apply topology_traverse_effect].
Qed.

(** ** Any guest *)

Definition total_draws (n : NodeId) (trace : list (host_call * Z)) : Z :=
  foldr (fun x acc => draws n x + acc) 0 trace.

Lemma spends_table s s' x : ws_cap_table s' = ws_cap_table s -> spends s' x = spends s x.
Proof. intros Ht. destruct x as [[] rc]; cbn; [|done..]. unfold handle_nonce. by rewrite Ht. Qed.

Record guest_effect s (trace : list (host_call * Z)) s' : Prop := {
  ge_graph : ws_graph s' = ws_graph s;
  ge_table : ws_cap_table s' = ws_cap_table s;
  ge_traverse : forall a b, (TopologyTraverseCall a b, RC_PERMITTED) ∈ trace ->
    node_ok (as_u32 a) /\ node_ok (as_u32 b) /\
    traverse_inner (ws_graph s) (as_u32 a) (as_u32 b) = Ok tt;
  ge_balance : forall n b, balance (ws_ledger s) n = Some b ->
    balance (ws_ledger s') n = Some (b - total_draws n trace) /\
    (0 <= b -> 0 <= b - total_draws n trace);
  ge_undeclared : forall n, balance (ws_ledger s) n = None -> total_draws n trace = 0;
  ge_fresh : Forall (fun n => ~ spent (ws_policy s) n) (omap (spends s) trace);
  ge_nodup : NoDup (omap (spends s) trace);
  ge_audit : exists es, events (ws_audit s') = events (ws_audit s) ++ es /\
    permitted_events es =
    (call_kind ∘ fst) <$> filter (fun x => permitted x = true) trace;
}.

Lemma omap_cons {A B} (f : A -> option B) x l :
  omap f (x :: l) = match f x with Some y => y :: omap f l | None => omap f l end.
Proof. done. Qed.

Lemma guest_nil s : guest_effect s [] s.
Proof.
  constructor; [done|done|..]; cbn.
  - intros a b Hin. by apply not_elem_of_nil in Hin.
  - intros n b Hb. rewrite Z.sub_0_r. done.
  - done.
  - constructor.
  - constructor.
  - exists []. by rewrite app_nil_r.
Qed.

Lemma guest_cons s c s1 rc trace s2 :
  call_effect s c s1 rc -> guest_effect s1 trace s2 -> guest_effect s ((c, rc) :: trace) s2.
Proof.
  intros [cg ct ctr cb cu cn cs (es & He & Hk)] [gg gt gtr gb gu gf gn (es' & He' & Hk')].
  assert (omap (spends s1) trace = omap (spends s) trace) as Hsp.
  { apply list_omap_ext. apply Forall_Forall2_diag, Forall_true. intros x. by apply spends_table. }
  rewrite Hsp in gf, gn. rewrite cg in gg, gtr. rewrite ct in gt.
  constructor; [done|done|..].
  - intros a b [[= <- <-]|Hin]%elem_of_cons; [by eapply ctr|by apply gtr].
  - intros n b Hb. destruct (cb n b Hb) as (Hb1 & _ & Hp1). destruct (gb n _ Hb1) as (Hb2 & Hp2).
    unfold total_draws in *. cbn [foldr].
    replace (b - (draws n (c, rc) + _)) with (b - draws n (c, rc) - foldr (fun x acc => draws n x + acc) 0 trace) by lia.
    split; [done|]. intros Hb0. auto.
  - intros n Hn. destruct (cu n Hn) as [Hn1 Hd]. unfold total_draws in *. cbn [foldr]. rewrite Hd, (gu n Hn1). done.
  - rewrite omap_cons. destruct (spends s (c, rc)) as [n|] eqn:Hn.
    + constructor; [by apply (cn n)|]. eapply Forall_impl; [exact gf|]. cbn. intros m Hm Hsm. by apply Hm, cs.
    + eapply Forall_impl; [exact gf|]. cbn. intros m Hm Hsm. by apply Hm, cs.
  - rewrite omap_cons. destruct (spends s (c, rc)) as [n|] eqn:Hn; [|done]. constructor; [|done].
    intros Hin. rewrite Forall_forall in gf. apply (gf n Hin). by apply (cn n).
  - exists (es ++ es'). rewrite He', He, <- app_assoc. split; [done|].
    rewrite permitted_events_app, Hk, Hk', filter_cons. unfold permitted. cbn.
    destruct (rc =? RC_PERMITTED); [by rewrite decide_True|by rewrite decide_False].
Qed.

Lemma guest_run_effect calls : forall s,
  let '(s', trace) := guest_run s calls in guest_effect s trace s'.
Proof using HL LL.
  induction calls as [|c calls IH]; intros s; cbn [guest_run]; [apply guest_nil|].
  pose proof (host_invoke_effect s c) as Hc. destruct (host_invoke s c) as [s1 rc].
  specialize (IH s1). destruct (guest_run s1 calls) as [s2 trace]. by eapply guest_cons.
Qed.

(** Handing capabilities to the guest. *)
Definition register_all s (caps : list Capability) : WasmShim :=
  foldl (fun s cap => (register_cap s cap).1) s caps.

Lemma register_all_frame caps : forall s,
  ws_graph (register_all s caps) = ws_graph s /\ ws_ledger (register_all s caps) = ws_ledger s /\
  ws_policy (register_all s caps) = ws_policy s.
Proof.
  induction caps as [|cap caps IH]; intros s; [done|].
  change (register_all s (cap :: caps)) with (register_all (register_cap s cap).1 caps).
  destruct (IH (register_cap s cap).1) as (-> & -> & ->). unfold register_cap.
  by destruct (hv_push _ _).
Qed.

(** ** From the manifest to the guest *)

Section booted.
Context `{DE : Decoder} `{DL : !DecoderLaws}.
Context {H : Type} `{HP : HsmProvider H} {T : Type} `{TP : TpmProvider T}.

(** The four invariants, end to end.  Boot a signed manifest [m], hand any
    capabilities to a WASM guest, and let it make any host calls with any arguments.  Then
    every traversal it was permitted is an edge of [m]; what it drew from a node is at
    most the quota [m] declares for it, and nothing from a node without a quota; no nonce
    was accepted twice; and the [Permitted] events in the log are, in order, exactly the
    calls that were permitted. *)
Theorem guest_confined raw (creds : BootCredentials H) (tpm tpm' : T) st m caps calls :
  initialise_with_tpm raw creds tpm = (tpm', Ok st) -> Manifest.decode raw creds = Ok m ->
  let shim := register_all (from_boot_state st) caps in
  let '(shim', trace) := guest_run shim calls in
  (forall a b, (TopologyTraverseCall a b, RC_PERMITTED) ∈ trace ->
     permits_edge m (as_u32 a) (as_u32 b) = true) /\
  (forall n, total_draws n trace <= default 0 (Quota_get <$> quota_for m n)) /\
  NoDup (omap (spends shim) trace) /\
  (exists es, events (ws_audit shim') = events (ws_audit shim) ++ es /\
     permitted_events es =
     (call_kind ∘ fst) <$> filter (fun x => permitted x = true) trace).
Proof using HL LL DL.
  intros Hi Hd shim. pose proof (guest_run_effect calls shim) as Hg.
  destruct (guest_run shim calls) as [shim' trace].
  destruct Hg as [_ _ Htr Hbal Hund _ Hnd Hau].
  destruct (boot_sound _ _ _ _ _ Hi) as (m' & Hd' & [Hedge Hq] & _).
  assert (m' = m) as -> by congruence. pose proof (decode_ok _ _ _ Hd) as Hm.
  destruct (register_all_frame caps (from_boot_state st)) as (Hgr & Hle & _). fold shim in Hgr, Hle.
  rewrite Hgr in Htr. rewrite Hle in Hbal, Hund. cbn in *. split; [|split; [|split; [done|done]]].
  - intros a b Hin. destruct (Htr a b Hin) as (Ha & Hb & Ht). by apply Hedge.
  - intros n. specialize (Hbal n). specialize (Hund n). rewrite Hq in Hbal, Hund.
    destruct (quota_for m n) as [q|] eqn:Eq; cbn in *; [|by rewrite Hund].
    destruct (Hbal _ eq_refl) as [_ Hb]. specialize (Hb (quota_nonneg m n q Hm Eq)). lia.
Qed.

End booted.

(** Bits outside the declared rights are dropped before the check: a request for only such
    bits asks for nothing, and any current, unspent token is permitted, one with no rights
    at all included. *)
Theorem undeclared_bits_permitted `{BL : !BitflagsLaws} s h bits cap :
  hv_slice (ws_cap_table s) !! Z.to_nat h = Some (Some cap) -> Z.land bits all_rights = 0 ->
  0 <= cap_rights cap -> cap_generation cap = current_generation (ws_policy s) ->
  Policy.is_revoked (ws_policy s) (cap_nonce cap) = false -> ~ spent (ws_policy s) (cap_nonce cap) ->
  ~ window_full (ws_policy s) -> is_full (ws_audit s) = false ->
  (policy_check s h bits).2 = RC_PERMITTED.
Proof using HL.
  intros Hh Hbits Hr Hg Hrev Hsp Hw Hf. unfold policy_check. rewrite Hh.
  unfold from_bits_truncate. rewrite bf_truncate_spec, Hbits.
  destruct (Policy.check _ _ _ _) as [[p' l'] r] eqn:Hc. cbn.
  rewrite (proj2 (check_permits_iff _ _ _ _ _ _ _ Hc)); [done|]. split; [|done].
  split; [|done]. unfold authorises. rewrite Hg, Z.eqb_refl. cbn.
  apply bf_contains_spec; [done|lia|]. intros i _ Hi. by rewrite Z.testbit_0_l in Hi.
Qed.

End facts.

(** ** Witnesses *)

Module Witness.
#[local] Existing Instance ListModel.list_hvec.
#[local] Existing Instance ListModel.list_hvec_laws.
#[local] Existing Instance ListModel.list_iset.
#[local] Existing Instance ListModel.list_lmap.
#[local] Existing Instance ListModel.list_lmap_laws.
#[local] Existing Instance ListModel.bits_model.
#[local] Existing Instance ListModel.bits_model_laws.
#[local] Existing Instance ByteModel.toy_sha.
#[local] Existing Instance ByteModel.toy_ed.
#[local] Existing Instance ByteModel.list_decoder.
#[local] Existing Instance ByteModel.list_decoder_laws.
Import Manifest.Witness.

Definition calls0 : list host_call :=
  [TopologyTraverseCall 1 2; TopologyTraverseCall 2 1; LedgerDeduct 1 600; LedgerDeduct 1 600].

Lemma guest_confined_witness :
  exists (st : BootState) m, Manifest.decode wire0 creds0 = Ok m /\
    forall n, total_draws n (guest_run (register_all (from_boot_state st) []) calls0).2
              <= default 0 (Quota_get <$> quota_for m n).
Proof.
  destruct Boot.Witness.boots as (t & st & Hst). destruct Boot.Witness.decodes as [m Hm].
  exists st, m. split; [exact Hm|].
  pose proof (guest_confined wire0 creds0 tpm_new t st m [] calls0 Hst Hm) as Hg. cbn zeta in Hg.
  destruct (guest_run _ calls0) as [s' trace]. apply Hg.
Defined.

Definition powerless : WasmShim :=
  {| ws_policy := Policy.new 0; ws_ledger := Ledger.new; ws_graph := Topology.seal Topology.new;
     ws_audit := AuditLog.new; ws_cap_table := [Some (mkCap 1 2 0 0 9)] |}.

Lemma undeclared_bits_permitted_witness : (policy_check powerless 0 1024).2 = RC_PERMITTED.
Proof.
  apply (undeclared_bits_permitted powerless 0 1024 (mkCap 1 2 0 0 9)); try reflexivity.
  - unfold spent. cbn. apply not_elem_of_nil.
  - intros Hw. apply Nat.leb_le in Hw. vm_compute in Hw. discriminate.
Defined.

End Witness.
