(* ===== verification/Executor.v ===== *)
(** * WASM executor

    Models [src/wasm/executor.rs]: [WasmExecutor] keeps a [WasmShim] in a wasmtime store,
    registers the three host functions with their casts in a linker, and compiles,
    instantiates and calls guest modules.

    The wasmtime engine is third-party: [Wasmtime] has the operations the executor calls,
    and [WasmtimeLaws] what their documentation promises.  The one that matters is
    isolation: running guest code changes the data of the store only through the functions
    the guest imports from the linker.

    [Engine::default()] has no fuel or epoch limit, so guest code may run for ever.  The two
    operations that run it, [instantiate] for the start function and [func_call], are
    therefore indexed by the time [fuel] for which the run is watched, and may answer that
    the guest is still running; the store they return is then the one at that moment.

    [executor_confined] carries the guarantee of [Wasm.guest_confined] over to whole
    sessions and every moment of them: any bytes offered as modules, any exports called,
    traps and endless loops included.  [executor_faults] is the outcome of a single call. *)
From S2P Require Import Prelude Heapless Crypto Types AuditLog Capability Revocation Policy.
From S2P Require Import Ledger Topology Hsm Tpm Manifest Boot Wasm.
From stdpp Require Import base tactics list numbers option strings sets.
Open Scope Z_scope.

(** ** The engine *)

(** A closure of two [i32] or [i64] arguments with access to the data of the store. *)
Definition HostFn (S : Type) : Type := S -> Z -> Z -> S * Z.

(** Guest code that has been watched for a while. *)
Inductive guest (A : Type) :=
| Done (a : A)
| Failed
| StillRunning.
Arguments Done {A} a.
Arguments Failed {A}.
Arguments StillRunning {A}.

Definition in_i32 (x : Z) : Prop := - 2 ^ 31 <= x < 2 ^ 31.

Class Wasmtime (S : Type) := {
  Engine : Type;
  Linker : Type;
  Module_ : Type;
  Store : Type;
  Instance_ : Type;
  TypedFunc : Type;
  engine_default : Engine;
  linker_new : Engine -> Linker;
  func_wrap : Linker -> string -> string -> HostFn S -> option Linker;
  module_new : Engine -> bytes -> option Module_;
  store_new : Engine -> S -> Store;
  store_data : Store -> S;
  store_set : Store -> S -> Store;
  instantiate : nat -> Linker -> Store -> Module_ -> Store * guest Instance_;
  get_typed_func : Instance_ -> Store -> string -> Store * option TypedFunc;
  func_call : nat -> TypedFunc -> Store -> Store * guest Z;
  (** The definition behind an import name; what an instance and its exports import. *)
  resolve : Linker -> string -> string -> option (HostFn S);
  instance_imports : Instance_ -> string -> string -> option (HostFn S);
  func_imports : TypedFunc -> string -> string -> option (HostFn S);
}.

(** Data reachable by calling imported functions, in any order and with any arguments. *)
Inductive guest_reaches {S} (imports : string -> string -> option (HostFn S)) : S -> S -> Prop :=
| guest_idle s : guest_reaches imports s s
| guest_calls m n f s a b s' :
    imports m n = Some f -> guest_reaches imports (f s a b).1 s' -> guest_reaches imports s s'.

Class WasmtimeLaws {S} `{WT : !Wasmtime S} : Prop := {
  resolve_new : forall e m n, resolve (linker_new e) m n = None;
  func_wrap_fresh : forall l m n f, resolve l m n = None ->
    exists l', func_wrap l m n f = Some l' /\
      forall m' n', resolve l' m' n' = if decide ((m', n') = (m, n)) then Some f else resolve l m' n';
  store_data_new : forall e s, store_data (store_new e s) = s;
  store_data_set : forall st s, store_data (store_set st s) = s;
  instantiate_isolated : forall fuel l st m st' o, instantiate fuel l st m = (st', o) ->
    guest_reaches (resolve l) (store_data st) (store_data st') /\
    forall i, o = Done i -> instance_imports i = resolve l;
  get_typed_func_pure : forall i st n st' o, get_typed_func i st n = (st', o) ->
    store_data st' = store_data st /\ forall f, o = Some f -> func_imports f = instance_imports i;
  call_isolated : forall fuel f st st' o, func_call fuel f st = (st', o) ->
    guest_reaches (func_imports f) (store_data st) (store_data st');
  (** A finished run has happened; watching longer shows the same. *)
  instantiate_ends : forall fuel fuel' l st m st' o, instantiate fuel l st m = (st', o) ->
    o <> StillRunning -> (fuel <= fuel')%nat -> instantiate fuel' l st m = (st', o);
  call_ends : forall fuel fuel' f st st' o, func_call fuel f st = (st', o) ->
    o <> StillRunning -> (fuel <= fuel')%nat -> func_call fuel' f st = (st', o);
  (** [TypedFunc<(), i32>]. *)
  call_i32 : forall fuel f st st' v, func_call fuel f st = (st', Done v) -> in_i32 v;
}.

(** ** The executor *)

Section executor.
Context `{HV : HVec} `{IS : IndexSet} `{LM : LinearMap} `{SH : Sha256} `{BF : Bitflags}.
Context `{WT : !Wasmtime WasmShim}.

Record WasmExecutor := mkExecutor { ex_engine : Engine; ex_linker : Linker; ex_store : Store }.

(** The closures given to [func_wrap]. *)
Definition policy_check_fn : HostFn WasmShim :=
  fun shim cap_handle right_bits => policy_check shim (as_u32 cap_handle) (as_u32 right_bits).
Definition ledger_deduct_fn : HostFn WasmShim :=
  fun shim node_id amount => ledger_deduct shim (as_u32 node_id) (as_u64 amount).
Definition topology_traverse_fn : HostFn WasmShim :=
  fun shim src_id dst_id => topology_traverse shim (as_u32 src_id) (as_u32 dst_id).

Definition register_failed : Error := WasmFault "failed to register host function".

Definition executor_new (shim : WasmShim) : Result WasmExecutor :=
  let engine := engine_default in
  let linker := linker_new engine in
  linker ← ok_or (func_wrap linker "lux" "lux_policy_check" policy_check_fn) register_failed;
  linker ← ok_or (func_wrap linker "lux" "lux_ledger_deduct" ledger_deduct_fn) register_failed;
  linker ← ok_or (func_wrap linker "lux" "lux_topology_traverse" topology_traverse_fn) register_failed;
  let store := store_new engine shim in
  Ok {| ex_engine := engine; ex_linker := linker; ex_store := store |}.

Definition shim (self : WasmExecutor) : WasmShim := store_data (ex_store self).

(** A write through [shim_mut]. *)
Definition shim_mut (self : WasmExecutor) (s : WasmShim) : WasmExecutor :=
  {| ex_engine := ex_engine self; ex_linker := ex_linker self; ex_store := store_set (ex_store self) s |}.

Definition with_store (self : WasmExecutor) (st : Store) : WasmExecutor :=
  {| ex_engine := ex_engine self; ex_linker := ex_linker self; ex_store := st |}.

(** The outer [option] is [None] while the guest runs. *)
Definition call_nullary (fuel : nat) (self : WasmExecutor) (wasm_bytes : bytes) (func_name : string)
    : WasmExecutor * option (Result Z) :=
  match module_new (ex_engine self) wasm_bytes with
  | None => (self, Some (Err (WasmFault "failed to compile WASM module")))
  | Some module =>
      match instantiate fuel (ex_linker self) (ex_store self) module with
      | (st, StillRunning) => (with_store self st, None)
      | (st, Failed) => (with_store self st, Some (Err (WasmFault "failed to instantiate WASM module")))
      | (st, Done instance) =>
          match get_typed_func instance st func_name with
          | (st, None) => (with_store self st, Some (Err (WasmFault "WASM function not found or wrong type")))
          | (st, Some func) =>
              match func_call fuel func st with
              | (st, StillRunning) => (with_store self st, None)
              | (st, Failed) => (with_store self st, Some (Err (WasmFault "WASM guest trapped")))
              | (st, Done v) => (with_store self st, Some (Ok v))
              end
          end
      end
  end.

(** Several calls, one after the other, with whatever results.  A call borrows the executor,
    so nothing follows one that has not returned. *)
Fixpoint session (fuel : nat) (self : WasmExecutor) (runs : list (bytes * string))
    : WasmExecutor * list (Result Z) :=
  match runs with
  | [] => (self, [])
  | (b, n) :: runs' =>
      match call_nullary fuel self b n with
      | (self, None) => (self, [])
      | (self, Some r) => let '(self, rs) := session fuel self runs' in (self, r :: rs)
      end
  end.

End executor.

(** ** Facts *)

Section facts.
Context `{HV : HVec} `{IS : IndexSet} `{LM : LinearMap} `{SH : Sha256} `{BF : Bitflags}.
Context `{WT : !Wasmtime WasmShim} `{WL : !WasmtimeLaws}.
Implicit Types (ex : WasmExecutor) (s : WasmShim).

(** Imports that are the host functions of the kernel and nothing else. *)
Definition lux_imports (imports : string -> string -> option (HostFn WasmShim)) : Prop :=
  forall m n f, imports m n = Some f ->
    m = "lux" /\ exists call : Z -> Z -> host_call, forall s a b, f s a b = host_invoke s (call a b).

Lemma guest_run_cons s c calls :
  (guest_run s (c :: calls)).1 = (guest_run (host_invoke s c).1 calls).1.
Proof. cbn. destruct (host_invoke s c) as [s1 rc]. cbn. by destruct (guest_run s1 calls). Qed.

Lemma guest_run_app s calls calls' :
  (guest_run s (calls ++ calls')).1 = (guest_run (guest_run s calls).1 calls').1.
Proof.
  revert s. induction calls as [|c calls IH]; intros s; [done|].
  change ((c :: calls) ++ calls') with (c :: (calls ++ calls')). by rewrite !guest_run_cons.
Qed.

(** Isolation turns any run of guest code into a sequence of host calls. *)
Lemma reaches_run imports s s' :
  lux_imports imports -> guest_reaches imports s s' -> exists calls, (guest_run s calls).1 = s'.
Proof.
  intros Hi. induction 1 as [s|m n f s a b s' Hf _ [calls Hc]]; [by exists []|].
  destruct (Hi m n f Hf) as (_ & call & Hcall). exists (call a b :: calls).
  by rewrite guest_run_cons, <- Hcall.
Qed.

Lemma executor_new_linker s ex :
  executor_new s = Ok ex -> shim ex = s /\ lux_imports (resolve (ex_linker ex)).
Proof using WL.
  unfold executor_new. intros (l1 & H1 & H)%bind_Ok. apply bind_Ok in H as (l2 & H2 & H).
  apply bind_Ok in H as (l3 & H3 & [= <-]). apply ok_or_Ok in H1, H2, H3. cbn.
  destruct (func_wrap_fresh (linker_new engine_default) "lux" "lux_policy_check" policy_check_fn)
    as (l1' & E1 & R1); [apply resolve_new|]. rewrite H1 in E1. injection E1 as <-.
  destruct (func_wrap_fresh l1 "lux" "lux_ledger_deduct" ledger_deduct_fn) as (l2' & E2 & R2).
  { by rewrite R1, resolve_new. }
  rewrite H2 in E2. injection E2 as <-.
  destruct (func_wrap_fresh l2 "lux" "lux_topology_traverse" topology_traverse_fn) as (l3' & E3 & R3).
  { by rewrite R2, R1, resolve_new. }
  rewrite H3 in E3. injection E3 as <-. split; [apply store_data_new|].
  intros m n f. rewrite R3, R2, R1, resolve_new.
  repeat case_decide; [intros [= <-]; simplify_eq; (split; [done|])..|done].
  - by exists TopologyTraverseCall.
  - by exists LedgerDeduct.
  - by exists PolicyCheck.
Qed.

Lemma executor_new_total s : exists ex, executor_new s = Ok ex.
Proof using WL.
  unfold executor_new.
  destruct (func_wrap_fresh (linker_new engine_default) "lux" "lux_policy_check" policy_check_fn)
    as (l1 & -> & R1); [apply resolve_new|]. cbn.
  destruct (func_wrap_fresh l1 "lux" "lux_ledger_deduct" ledger_deduct_fn) as (l2 & -> & R2).
  { by rewrite R1, resolve_new. }
  cbn. destruct (func_wrap_fresh l2 "lux" "lux_topology_traverse" topology_traverse_fn) as (l3 & -> & R3).
  { by rewrite R2, R1, resolve_new. }
  by eexists.
Qed.

Lemma guest_reaches_trans {S} imports (s1 s2 s3 : S) :
  guest_reaches imports s1 s2 -> guest_reaches imports s2 s3 -> guest_reaches imports s1 s3.
Proof. induction 1 as [|m n f s a b s' Hf _ IH]; [done|]. intros H. eapply guest_calls; [exact Hf|by apply IH]. Qed.

(** ** One call *)

(** How far a call gets with the module [b] and the export [n], after the documentation of
    [call_nullary]: what the engine says at each stage, and the result for it. *)
Inductive call_outcome (fuel : nat) ex (b : bytes) (n : string) : Store -> option (Result Z) -> Prop :=
| NotCompiled :
    module_new (ex_engine ex) b = None ->
    call_outcome fuel ex b n (ex_store ex) (Some (Err (WasmFault "failed to compile WASM module")))
| NotInstantiated m st :
    module_new (ex_engine ex) b = Some m -> instantiate fuel (ex_linker ex) (ex_store ex) m = (st, Failed) ->
    call_outcome fuel ex b n st (Some (Err (WasmFault "failed to instantiate WASM module")))
| Starting m st :
    module_new (ex_engine ex) b = Some m -> instantiate fuel (ex_linker ex) (ex_store ex) m = (st, StillRunning) ->
    call_outcome fuel ex b n st None
| NotFound m i st st' :
    module_new (ex_engine ex) b = Some m -> instantiate fuel (ex_linker ex) (ex_store ex) m = (st, Done i) ->
    get_typed_func i st n = (st', None) ->
    call_outcome fuel ex b n st' (Some (Err (WasmFault "WASM function not found or wrong type")))
| Ran m i f st st' st'' g :
    module_new (ex_engine ex) b = Some m -> instantiate fuel (ex_linker ex) (ex_store ex) m = (st, Done i) ->
    get_typed_func i st n = (st', Some f) -> func_call fuel f st' = (st'', g) ->
    call_outcome fuel ex b n st''
      match g with
      | Done v => Some (Ok v)
      | Failed => Some (Err (WasmFault "WASM guest trapped"))
      | StillRunning => None
      end.

Lemma call_nullary_outcome fuel ex b n :
  let '(ex', r) := call_nullary fuel ex b n in
  ex' = with_store ex (ex_store ex') /\ call_outcome fuel ex b n (ex_store ex') r.
Proof.
  unfold call_nullary. destruct (module_new (ex_engine ex) b) as [m|] eqn:Hm.
  2: { split; [by destruct ex|by apply NotCompiled]. }
  destruct (instantiate fuel (ex_linker ex) (ex_store ex) m) as [st1 [i| |]] eqn:Hi; cbn.
  - destruct (get_typed_func i st1 n) as [st2 [f|]] eqn:Hg; cbn; [|split; [done|by eapply NotFound]].
    destruct (func_call fuel f st2) as [st3 g] eqn:Hc.
    pose proof (Ran fuel ex b n m i f st1 st2 st3 g Hm Hi Hg Hc). by destruct g.
  - split; [done|by eapply NotInstantiated].
  - split; [done|by eapply Starting].
Qed.

(** Whatever the outcome, the data of the store changed through the linker's functions. *)
Lemma outcome_reaches fuel ex b n st r :
  call_outcome fuel ex b n st r -> guest_reaches (resolve (ex_linker ex)) (shim ex) (store_data st).
Proof using WL.
  unfold shim. intros [Hm|m st1 Hm Hi|m st1 Hm Hi|m i st1 st2 Hm Hi Hg|m i f st1 st2 st3 g Hm Hi Hg Hc]; [constructor|..];
    apply instantiate_isolated in Hi as [R1 Himp]; try done; apply get_typed_func_pure in Hg as [Hd Hf]; rewrite <- Hd in R1; [done|].
  apply call_isolated in Hc. rewrite (Hf f eq_refl), (Himp i eq_refl) in Hc. by eapply guest_reaches_trans.
Qed.

Lemma call_reaches fuel ex b n :
  let '(ex', r) := call_nullary fuel ex b n in
  ex_linker ex' = ex_linker ex /\ guest_reaches (resolve (ex_linker ex)) (shim ex) (shim ex').
Proof using WL.
  pose proof (call_nullary_outcome fuel ex b n) as H. destruct (call_nullary fuel ex b n) as [ex' r].
  destruct H as [-> H%outcome_reaches]. done.
Qed.

(** A result that has been seen stays. *)
Lemma call_returned fuel fuel' ex b n ex' r :
  call_nullary fuel ex b n = (ex', Some r) -> (fuel <= fuel')%nat -> call_nullary fuel' ex b n = (ex', Some r).
Proof using WL.
  unfold call_nullary. intros H Hle. destruct (module_new (ex_engine ex) b) as [m|]; [|done].
  destruct (instantiate fuel (ex_linker ex) (ex_store ex) m) as [st1 [i| |]] eqn:Hi; [| |done];
    rewrite (instantiate_ends _ fuel' _ _ _ _ _ Hi) by done; [|done].
  destruct (get_typed_func i st1 n) as [st2 [f|]]; [|done].
  destruct (func_call fuel f st2) as [st3 [v| |]] eqn:Hc; [| |done]; by rewrite (call_ends _ fuel' _ _ _ _ Hc).
Qed.

Lemma session_reaches fuel runs : forall ex,
  let ex' := (session fuel ex runs).1 in
  ex_linker ex' = ex_linker ex /\ guest_reaches (resolve (ex_linker ex)) (shim ex) (shim ex').
Proof using WL.
  induction runs as [|[b n] runs IH]; intros ex; cbn [session]; [split; [done|constructor]|].
  pose proof (call_reaches fuel ex b n) as Hc. destruct (call_nullary fuel ex b n) as [ex1 [r|]]; [|done].
  destruct Hc as [Hl Hr]. specialize (IH ex1). destruct (session fuel ex1 runs) as [ex2 rs].
  cbn in *. destruct IH as [Hl' Hr']. rewrite Hl in *. split; [done|]. by eapply guest_reaches_trans.
Qed.


(** ** From the manifest to a session *)

Section booted.
Context `{HL : !HVecLaws} `{LL : !LinearMapLaws} `{DE : Decoder} `{DL : !DecoderLaws}.
Context {H : Type} `{HP : HsmProvider H} {T : Type} `{TP : TpmProvider T}.

(** C2: The four invariants for whole sessions.  Boot a signed manifest [m], hand
    capabilities to an executor, and run any modules on it, each watched for any time.  The
    kernel state afterwards, or while a guest that has not returned runs on, is that of some trace of host calls, in which every permitted traversal is an edge of
    [m], the draws on a node stay within the quota [m] declares for it, no nonce is
    accepted twice, and the [Permitted] audit events are the permitted calls in order. *)
Theorem executor_confined raw (creds : BootCredentials H) (tpm tpm' : T) st m caps ex fuel runs :
  initialise_with_tpm raw creds tpm = (tpm', Ok st) -> Manifest.decode raw creds = Ok m ->
  executor_new (register_all (from_boot_state st) caps) = Ok ex ->
  let shim0 := register_all (from_boot_state st) caps in
  let shim' := shim (session fuel ex runs).1 in
  exists calls trace, guest_run shim0 calls = (shim', trace) /\
  (forall a b, (TopologyTraverseCall a b, RC_PERMITTED) ∈ trace ->
     permits_edge m (as_u32 a) (as_u32 b) = true) /\
  (forall n, total_draws n trace <= default 0 (Quota_get <$> quota_for m n)) /\
  NoDup (omap (spends shim0) trace) /\
  (exists es, events (ws_audit shim') = events (ws_audit shim0) ++ es /\
     permitted_events es =
     (call_kind ∘ fst) <$> filter (fun x => permitted x = true) trace).
Proof using HL LL DL WL.
  intros Hi Hd Hex shim0 shim'. destruct (executor_new_linker _ _ Hex) as [Hs Hl].
  destruct (session_reaches fuel runs ex) as [_ Hr]. rewrite Hs in Hr.
  destruct (reaches_run _ _ _ Hl Hr) as [calls Hcalls].
  pose proof (guest_confined raw creds tpm tpm' st m caps calls Hi Hd) as Hg. cbn zeta in Hg.
  fold shim0 in Hg, Hcalls. destruct (guest_run shim0 calls) as [s2 trace] eqn:Hrun. cbn in Hcalls. subst s2.
  exists calls, trace. split; [done|exact Hg].
Qed.

End booted.
End facts.

(** ** Witnesses *)

Module Witness.
#[local] Existing Instance ListModel.list_hvec.
#[local] Existing Instance ListModel.list_hvec_laws.
#[local] Existing Instance ListModel.list_iset.
#[local] Existing Instance ListModel.list_lmap.
#[local] Existing Instance ListModel.list_lmap_laws.
#[local] Existing Instance ListModel.bits_model.
#[local] Existing Instance ByteModel.toy_sha.
#[local] Existing Instance ByteModel.toy_ed.
#[local] Existing Instance ByteModel.list_decoder.
#[local] Existing Instance ByteModel.list_decoder_laws.
Import Manifest.Witness.

(** A minimal engine: a module is a non-empty byte string whose export ["run"] draws each
    byte from node 1, traps on a byte of 255 or a missing import, and on a byte of 254 loops
    for ever, drawing one each time.  Instantiating a module that starts with 253 fails. *)
Section toy.
Context {S : Type}.

Definition toy_linker : Type := list ((string * string) * HostFn S).

Definition toy_resolve (l : toy_linker) (m n : string) : option (HostFn S) :=
  snd <$> List.find (fun x => bool_decide (x.1 = (m, n))) l.

(** The value of the last host call, as an [i32]. *)
Definition toy_i32 (x : Z) : Z := (x + 2 ^ 31) mod 2 ^ 32 - 2 ^ 31.

Fixpoint toy_run (fuel : nat) (l : toy_linker) (st : S) (code : bytes) (rc : Z) : S * guest Z :=
  match fuel, code with
  | _, [] => (st, Done (toy_i32 rc))
  | O, _ => (st, StillRunning)
  | Datatypes.S fuel, b :: code' =>
      match toy_resolve l "lux" "lux_ledger_deduct" with
      | Some f =>
          if b =? 255 then (st, Failed)
          else if b =? 254 then let '(st, rc) := f st 1 1 in toy_run fuel l st code rc
          else let '(st, rc) := f st 1 b in toy_run fuel l st code' rc
      | None => (st, Failed)
      end
  end.

Definition toy_engine : Wasmtime S := {|
  Engine := unit; Linker := toy_linker; Module_ := bytes; Store := S;
  Instance_ := bytes * toy_linker; TypedFunc := bytes * toy_linker;
  engine_default := tt; linker_new := fun _ => [];
  func_wrap := fun l m n f =>
    match toy_resolve l m n with None => Some (((m, n), f) :: l) | Some _ => None end;
  module_new := fun _ b => match b with [] => None | _ => Some b end;
  store_new := fun _ s => s; store_data := fun st => st; store_set := fun _ s => s;
  instantiate := fun _ l st m => (st, if bool_decide (head m = Some 253) then Failed else Done (m, l));
  get_typed_func := fun i st n => (st, if decide (n = "run") then Some i else None);
  func_call := fun fuel f st => toy_run fuel f.2 st f.1 0;
  resolve := toy_resolve; instance_imports := fun i => toy_resolve i.2;
  func_imports := fun f => toy_resolve f.2 |}.

Lemma toy_run_reaches l fuel : forall code st rc,
  guest_reaches (toy_resolve l) st (toy_run fuel l st code rc).1.
Proof.
  induction fuel as [|fuel IH]; intros code st rc; destruct code as [|b code]; cbn [toy_run]; [constructor..|].
  destruct (toy_resolve l "lux" "lux_ledger_deduct") as [f|] eqn:Hf; [|constructor].
  destruct (b =? 255); [constructor|]. destruct (b =? 254).
  - eapply (guest_calls _ "lux" "lux_ledger_deduct" f st 1 1); [done|]. destruct (f st 1 1). apply IH.
  - eapply (guest_calls _ "lux" "lux_ledger_deduct" f st 1 b); [done|]. destruct (f st 1 b). apply IH.
Qed.

Lemma toy_run_ends l fuel : forall fuel' code st rc st' o, toy_run fuel l st code rc = (st', o) ->
  o <> StillRunning -> (fuel <= fuel')%nat -> toy_run fuel' l st code rc = (st', o).
Proof.
  induction fuel as [|fuel IH]; intros fuel' code st rc st' o H Ho Hle; destruct code as [|b code]; cbn [toy_run] in H.
  - by destruct fuel'.
  - by injection H as _ <-.
  - by destruct fuel'.
  - destruct fuel' as [|fuel']; [lia|]. cbn [toy_run].
    destruct (toy_resolve l "lux" "lux_ledger_deduct") as [f|]; [|done].
    destruct (b =? 255); [done|]. destruct (b =? 254); [destruct (f st 1 1)|destruct (f st 1 b)];
      by apply IH; [..|lia].
Qed.

Lemma toy_run_i32 l fuel : forall code st rc st' v, toy_run fuel l st code rc = (st', Done v) -> in_i32 v.
Proof.
  assert (forall x, in_i32 (toy_i32 x)) as Hi.
  { intros x. unfold in_i32, toy_i32. pose proof (Z.mod_pos_bound (x + 2 ^ 31) (2 ^ 32) ltac:(lia)). lia. }
  induction fuel as [|fuel IH]; intros code st rc st' v; destruct code as [|b code]; cbn [toy_run];
    [by intros [= _ <-]|done|by intros [= _ <-]|].
  destruct (toy_resolve l "lux" "lux_ledger_deduct") as [f|]; [|done].
  destruct (b =? 255); [done|]. destruct (b =? 254); [destruct (f st 1 1)|destruct (f st 1 b)]; apply IH.
Qed.

Lemma toy_engine_laws : WasmtimeLaws (WT := toy_engine).
Proof.
  constructor; cbn.
  - done.
  - intros l m n f Hr. rewrite Hr. eexists. split; [done|]. intros m' n'. unfold toy_resolve. cbn.
    destruct (decide ((m', n') = (m, n))) as [->|Hne]; [by rewrite bool_decide_true|].
    rewrite bool_decide_false; [done|]. congruence.
  - done.
  - done.
  - intros fuel l st m st' o [= <- <-]. split; [constructor|]. case_bool_decide; [done|]. by intros i [= <-].
  - intros i st n st' o [= <- <-]. split; [done|]. case_decide; [|done]. by intros f [= <-].
  - intros fuel [code l] st st' o Hc. cbn in *. pose proof (toy_run_reaches l fuel code st 0) as Hr. by rewrite Hc in Hr.
  - done.
  - intros fuel fuel' [code l] st st' o. apply toy_run_ends.
  - intros fuel [code l] st st' v. apply toy_run_i32.
Qed.

End toy.

#[local] Existing Instance toy_engine.
#[local] Existing Instance toy_engine_laws.

(** Two modules: the first draws 200, 200 and traps; the second draws 100.  Then bytes that
    do not compile, a failing instantiation, a missing export, and a guest that does not
    return, so that the last module is never run. *)
Definition runs0 : list (bytes * string) :=
  [([200; 200; 255], "run"); ([100], "run"); ([], "run"); ([253], "run"); ([1], "main"); ([254], "run"); ([1], "run")]%string.

Lemma executor_confined_witness :
  exists (st : BootState) m ex, Manifest.decode wire0 creds0 = Ok m /\
    executor_new (register_all (from_boot_state st) []) = Ok ex /\
    exists calls trace,
      guest_run (register_all (from_boot_state st) []) calls = (shim (session 20 ex runs0).1, trace) /\
      forall n, total_draws n trace <= default 0 (Quota_get <$> quota_for m n).
Proof.
  destruct Boot.Witness.boots as (t & st & Hst). destruct Boot.Witness.decodes as [m Hm].
  destruct (executor_new_total (register_all (from_boot_state st) [])) as [ex Hex].
  exists st, m, ex. split; [exact Hm|]. split; [exact Hex|].
  destruct (executor_confined wire0 creds0 tpm_new t st m [] ex 20 runs0 Hst Hm Hex)
    as (calls & trace & Hrun & _ & Hdraw & _).
  exists calls, trace. split; [exact Hrun|exact Hdraw].
Defined.

(** The toy engine on a ledger with 1000 for node 1: the results and what is left. *)
Definition shim1 : WasmShim :=
  {| ws_policy := Policy.new 0; ws_ledger := (Ledger.seed Ledger.new 1 (Quota_new 1000)).1;
     ws_graph := Topology.seal Topology.new; ws_audit := AuditLog.new; ws_cap_table := [] |}.


Example session_results :
  match executor_new shim1 with
  | Ok ex => let '(ex', rs) := session 20 ex runs0 in (rs, balance (ws_ledger (shim ex')) 1)
  | Err _ => ([], None)
  end
  = ([Err (WasmFault "WASM guest trapped"); Ok 0; Err (WasmFault "failed to compile WASM module");
      Err (WasmFault "failed to instantiate WASM module");
      Err (WasmFault "WASM function not found or wrong type")], Some 480).
Proof. vm_compute. reflexivity. Qed.

(** The looping guest never returns. *)
Example loop_runs_on : forall fuel st (l : toy_linker), is_Some (toy_resolve l "lux" "lux_ledger_deduct") ->
  forall rc : Z, (toy_run (S := WasmShim) fuel l st [254] rc).2 = StillRunning.
Proof.
  intros fuel st l [f Hf]. revert st. induction fuel as [|fuel IH]; intros st rc; [done|].
  cbn [toy_run]. rewrite Hf. cbn. destruct (f st 1 1). apply IH.
Qed.

End Witness.
