(* ===== verification/Python.v ===== *)
(** * Python bindings

    Models [src/python/audit.rs] ([PyAuditLog]), [src/python/policy.rs] ([PyPolicyGate], the
    feature gate of the hiring pipeline) and [src/python/gate.rs] ([PyLuxGate], the gate of
    coordination events).  Definitions of the three classes carry the prefixes [pal_],
    [ppg_] and [plg_].

    The PyO3 dictionary is a parameter ([PyDict]); so are the Unicode case tables, which
    only matter for strings with a character outside ASCII ([to_lowercase]).  An [f64] is
    the binary floating-point datum of the Standard Library, whose comparisons are those of
    IEEE 754: any comparison with a NaN is false.

    The theorems: a log driven from Python is a log of the kernel; the exact decision and
    reason of the feature gate; that its reasons reach the audit log unchanged; the exact
    decision of the coordination gate, and that a NaN authority passes it. *)
From S2P Require Import Prelude Heapless Crypto Types AuditLog.
From stdpp Require Import base tactics list numbers option gmap strings pretty.
From Stdlib Require Import SpecFloat.
Open Scope Z_scope.

(** ** What the bindings use of Python

    One constructor of [PyErr] per [new_err] of the source, with the values its message
    quotes; [MemoryError] is a dictionary that could not grow. *)

Inductive PyErr :=
| UnknownEventKind (other : string)
| UnknownDenialClass (other : string)
| ExportJsonFailed
| UnknownApproved (feat : string)
| ApprovedExceedsCapacity
| UnknownBlocked (attr : string)
| BlockedExceedsCapacity
| AuthorityThresholdRange
| AddAgentThresholdRange
| AddAgentBelowAuthority
| MemoryError.

Inductive PyVal :=
| PyNone
| PyBool (b : bool)
| PyStr (s : string)
| PyFloat (x : spec_float)
| PyInt (n : Z).

(** [Option<&str>] into a Python value. *)
Definition py_opt_str (o : option string) : PyVal :=
  match o with Some s => PyStr s | None => PyNone end.

Class PyDict := {
  dict : Type;
  dict_new : dict;
  set_item : dict -> string -> PyVal -> result PyErr dict;
  get_item : dict -> string -> option PyVal;
}.

(** With memory to spare, setting a string key succeeds and changes that key only. *)
Class PyDictLaws `{PD : PyDict} : Prop := {
  set_item_ok : forall d k v, exists d', set_item d k v = Ok d' /\
    forall k', get_item d' k' = if decide (k' = k) then Some v else get_item d k';
}.

(** ** Strings *)

(** [\[&str\]::contains]. *)
Definition contains_str (l : list string) (s : string) : bool := bool_decide (s ∈ l).

(** [iter().copied().find(|&k| k == s)]. *)
Definition find_str (l : list string) (s : string) : option string :=
  List.find (fun k => bool_decide (k = s)) l.

(** [str::contains], on UTF-8 bytes. *)
Fixpoint substring_of (sub s : string) : bool :=
  String.prefix sub s || match s with EmptyString => false | String _ s' => substring_of sub s' end.

Definition ascii_lower (c : Ascii.ascii) : Ascii.ascii :=
  let n := Ascii.nat_of_ascii c in
  if (65 <=? n)%nat && (n <=? 90)%nat then Ascii.ascii_of_nat (n + 32) else c.

Fixpoint is_ascii (s : string) : bool :=
  match s with
  | EmptyString => true
  | String c s' => (Ascii.nat_of_ascii c <? 128)%nat && is_ascii s'
  end.

Fixpoint map_string (f : Ascii.ascii -> Ascii.ascii) (s : string) : string :=
  match s with EmptyString => EmptyString | String c s' => String (f c) (map_string f s') end.

(** The case tables of Unicode, on strings that are not plain ASCII. *)
Class UnicodeTables := unicode_lower : string -> string.

(** [str::to_lowercase]. *)
Definition to_lowercase `{UnicodeTables} (s : string) : string :=
  if is_ascii s then map_string ascii_lower s else unicode_lower s.

(** ** [PyAuditLog] *)

Definition KNOWN_REASONS : list string := [
  "protected attribute in feature vector";
  "aliased protected attribute in feature vector";
  "unapproved feature in feature vector";
  "policy violation"].

Definition map_denial_reason (s : string) : string :=
  match find_str KNOWN_REASONS s with Some k => k | None => "policy violation" end.

Definition parse_kind (s : string) : result PyErr EventKind :=
  if decide (s = "hiring_decision") then Ok HiringDecision
  else if decide (s = "policy_gate_check") then Ok PolicyGateCheck
  else if decide (s = "capability_check") then Ok CapabilityCheck
  else if decide (s = "cap_revoked") then Ok CapabilityRevoked
  else if decide (s = "resource_deduct") then Ok ResourceDeduction
  else if decide (s = "topo_traverse") then Ok TopologyTraverse
  else if decide (s = "topo_change") then Ok TopologyChange
  else Err (UnknownEventKind s).

Definition parse_denial_class (s : string) : result PyErr DenialClass :=
  if decide (s = "halt") then Ok Halt
  else if decide (s = "failure") then Ok Failure
  else Err (UnknownDenialClass s).

Section pyauditlog.
Context `{HV : HVec} `{SH : Sha256}.

Record PyAuditLog := mkPyLog { pal_inner : AuditLog }.

Definition pal_new : PyAuditLog := {| pal_inner := AuditLog.new |}.

Definition pal_default : PyAuditLog := pal_new.

(** [u32::try_from(actor).unwrap_or(u32::MAX)]. *)
Definition actor_u32 (actor : Z) : Z := if actor <=? U32_MAX then actor else U32_MAX.

(** The [denial] that [append] passes on. *)
Definition pal_denial (denial_class denial_reason : option string)
    : result PyErr (option (DenialClass * string)) :=
  match denial_class with
  | None => Ok None
  | Some cls_str =>
      cls ← parse_denial_class cls_str;
      let reason := match denial_reason with
                    | Some r => map_denial_reason r
                    | None => "policy violation"
                    end in
      Ok (Some (cls, reason))
  end.

Definition pal_append (self : PyAuditLog) (kind : string) (actor timestamp : Z)
    (denial_class denial_reason : option string) : PyAuditLog * result PyErr bool :=
  match parse_kind kind with
  | Err e => (self, Err e)
  | Ok kind =>
      let actor := actor_u32 actor in
      match pal_denial denial_class denial_reason with
      | Err e => (self, Err e)
      | Ok denial =>
          let '(inner, ok) := AuditLog.append (pal_inner self) kind actor timestamp denial in
          ({| pal_inner := inner |}, Ok ok)
      end
  end.

Definition pal_verify_chain (self : PyAuditLog) : bool := verify_chain (pal_inner self).

(** [fmt::Write] of [String] never fails. *)
#[global] Instance string_write : FmtWrite string := fun buf s => Some (buf +:+ s).

Definition pal_export_json (self : PyAuditLog) : result PyErr string :=
  ok_or (export_json (pal_inner self) "") ExportJsonFailed.

Definition pal_len (self : PyAuditLog) : nat := AuditLog.len (pal_inner self).
Definition pal_is_empty (self : PyAuditLog) : bool := AuditLog.is_empty (pal_inner self).

Definition pal_head_hash (self : PyAuditLog) : string :=
  foldl (fun s b => s +:+ fmt_02x b) "" (AuditLog.head_hash (pal_inner self)).

Definition pal_len_dunder (self : PyAuditLog) : nat := AuditLog.len (pal_inner self).

Definition pal_repr (self : PyAuditLog) : string :=
  "PyAuditLog(len=" +:+ pretty (AuditLog.len (pal_inner self)) +:+ ", chain_valid="
    +:+ fmt_bool (verify_chain (pal_inner self)) +:+ ")".

End pyauditlog.

(** ** [PyPolicyGate] *)

Definition MAX_GATE_FEATURES : nat := 16.

Definition KNOWN_APPROVED : list string := [
  "years_experience"; "education_level"; "technical_skills"; "communication_score";
  "problem_solving"; "fit_score"].

Definition KNOWN_BLOCKED_SUBSTRINGS : list string := ["age"; "gender"; "race"; "ethnicity"; "sex"].

Definition PROTECTED_EXACT : list string := ["age"; "gender"; "race"].

Definition REASON_PROTECTED_EXACT : string := "protected attribute in feature vector".
Definition REASON_PROTECTED_ALIAS : string := "aliased protected attribute in feature vector".
Definition REASON_UNAPPROVED : string := "unapproved feature in feature vector".
Definition REASON_ALLOWED : string := "all approved features; no protected attributes".

Definition str_to_static_approved (s : string) : option string := find_str KNOWN_APPROVED s.
Definition str_to_static_blocked (s : string) : option string := find_str KNOWN_BLOCKED_SUBSTRINGS s.

Section pypolicygate.
Context `{HV : HVec} `{PD : PyDict} `{UT : UnicodeTables}.

Record PyPolicyGate := mkPolicyGate {
  ppg_approved : hvec MAX_GATE_FEATURES string;
  ppg_blocked : hvec MAX_GATE_FEATURES string;
}.

(** One [for] loop of [new]: look each name up in a table and push its static copy. *)
Fixpoint intern_all (lookup : string -> option string) (unknown : string -> PyErr) (full : PyErr)
    (acc : hvec MAX_GATE_FEATURES string) (names : list string)
    : result PyErr (hvec MAX_GATE_FEATURES string) :=
  match names with
  | [] => Ok acc
  | name :: rest =>
      s ← ok_or (lookup name) (unknown name);
      acc ← ok_or (hv_push acc s) full;
      intern_all lookup unknown full acc rest
  end.

Definition ppg_new (approved_features blocked_attrs : list string) : result PyErr PyPolicyGate :=
  approved ← intern_all str_to_static_approved UnknownApproved ApprovedExceedsCapacity
               hv_new approved_features;
  blocked ← intern_all str_to_static_blocked UnknownBlocked BlockedExceedsCapacity
              hv_new blocked_attrs;
  Ok {| ppg_approved := approved; ppg_blocked := blocked |}.

(** The three [set_item] calls of every branch of [check]. *)
Definition gate_answer (allowed : bool) (reason : string) (denial_class : PyVal) : result PyErr dict :=
  result ← set_item dict_new "allowed" (PyBool allowed);
  result ← set_item result "reason" (PyStr reason);
  set_item result "denial_class" denial_class.

Definition ppg_check (self : PyPolicyGate) (feature_names : list string) : result PyErr dict :=
  if existsb (contains_str PROTECTED_EXACT) feature_names then
    gate_answer false REASON_PROTECTED_EXACT (PyStr "halt")
  else if existsb (fun name =>
      let lower := to_lowercase name in
      existsb (fun sub => substring_of sub lower) (hv_slice (ppg_blocked self))) feature_names then
    gate_answer false REASON_PROTECTED_ALIAS (PyStr "halt")
  else if existsb (fun name => negb (contains_str (hv_slice (ppg_approved self)) name))
      feature_names then
    gate_answer false REASON_UNAPPROVED (PyStr "halt")
  else gate_answer true REASON_ALLOWED PyNone.

(** [{:?}] of a string of letters, digits and underscores, and of a slice of them; the
    names a gate holds are all of this kind ([static_names_plain]). *)
Definition fmt_str (s : string) : string :=
  let quote := String (Ascii.ascii_of_nat 34) EmptyString in quote +:+ s +:+ quote.

Definition fmt_slice (l : list string) : string := "[" +:+ String.concat ", " (fmt_str <$> l) +:+ "]".

Definition ppg_repr (self : PyPolicyGate) : string :=
  "PyPolicyGate(approved=" +:+ fmt_slice (hv_slice (ppg_approved self)) +:+ ", blocked="
    +:+ fmt_slice (hv_slice (ppg_blocked self)) +:+ ")".

End pypolicygate.

Fixpoint plain_name (s : string) : bool :=
  match s with
  | EmptyString => true
  | String c s' =>
      let n := Ascii.nat_of_ascii c in
      ((48 <=? n) && (n <=? 57) || (65 <=? n) && (n <=? 90) || (n =? 95) || (97 <=? n) && (n <=? 122))%nat && plain_name s'
  end.

Lemma static_names_plain : forallb plain_name (KNOWN_APPROVED ++ KNOWN_BLOCKED_SUBSTRINGS) = true.
Proof. vm_compute. reflexivity. Qed.

(** ** [PyLuxGate] *)

Definition KNOWN_EVENT_TYPES : list string := [
  "add_edge"; "remove_edge"; "add_agent"; "remove_agent"; "update_capabilities";
  "execute_task"; "decompose_goal"; "delegate"].

Definition REASON_AUTHORIZED : string := "authorized".
Definition REASON_NO_PARTICIPANTS : string := "no participants in CE".
Definition REASON_UNKNOWN_EVENT : string := "unknown event type".
Definition REASON_INSUFFICIENT_AUTHORITY : string := "insufficient authority".
Definition REASON_ADD_AGENT_AUTHORITY : string := "add_agent requires elevated authority".
Definition REASON_TOPOLOGY_BOUND : string := "topology bound exceeded".
Definition REASON_PROPOSER_UNKNOWN : string := "proposer not in authority scores".

Abbreviation f64 := spec_float.

(** The literals [0.0], [1.0], [0.3] and [0.6] as binary64. *)
Definition f64_0 : f64 := S754_zero false.
Definition f64_1 : f64 := S754_finite false 4503599627370496 (-52).
Definition f64_03 : f64 := S754_finite false 5404319552844595 (-54).
Definition f64_06 : f64 := S754_finite false 5404319552844595 (-53).

(** [(0.0..=1.0).contains(&x)]. *)
Definition in_unit_range (x : f64) : bool := SFleb f64_0 x && SFleb x f64_1.

Record PyLuxGate := mkLuxGate {
  authority_threshold : f64;
  add_agent_threshold : f64;
  max_agents : Z;
}.

Definition plg_new (authority add_agent : f64) (max_agents : Z) : result PyErr PyLuxGate :=
  if negb (in_unit_range authority) then Err AuthorityThresholdRange
  else if negb (in_unit_range add_agent) then Err AddAgentThresholdRange
  else if SFltb add_agent authority then Err AddAgentBelowAuthority
  else Ok {| authority_threshold := authority; add_agent_threshold := add_agent;
             max_agents := max_agents |}.

(** [plg_new] with the defaults of the Python signature. *)
Definition plg_default : result PyErr PyLuxGate := plg_new f64_03 f64_06 20.

Record CheckResult := mkCheckResult {
  approved : bool;
  reason : string;
  denial_class : option string;
}.

Definition halt (r : string) : CheckResult :=
  {| approved := false; reason := r; denial_class := Some "halt" |}.

Definition plg_check (self : PyLuxGate) (event_type : string) (participants : list string)
    (authority_scores : gmap string f64) (graph_size : Z) : CheckResult :=
  if negb (contains_str KNOWN_EVENT_TYPES event_type) then halt REASON_UNKNOWN_EVENT
  else match participants with
  | [] => halt REASON_NO_PARTICIPANTS
  | proposer :: _ =>
      match authority_scores !! proposer with
      | None => halt REASON_PROPOSER_UNKNOWN
      | Some proposer_authority =>
          if bool_decide (event_type = "add_agent") && (max_agents self <=? graph_size) then
            halt REASON_TOPOLOGY_BOUND
          else if bool_decide (event_type = "add_agent")
               && SFltb proposer_authority (add_agent_threshold self) then
            halt REASON_ADD_AGENT_AUTHORITY
          else if SFltb proposer_authority (authority_threshold self) then
            halt REASON_INSUFFICIENT_AUTHORITY
          else {| approved := true; reason := REASON_AUTHORIZED; denial_class := None |}
      end
  end.

Section pyluxgate.
Context `{PD : PyDict}.

Definition authorize_ce (self : PyLuxGate) (event_type : string) (participants : list string)
    (authority_scores : gmap string f64) (graph_size : Z) : result PyErr dict :=
  let res := plg_check self event_type participants authority_scores graph_size in
  d ← set_item dict_new "approved" (PyBool (approved res));
  d ← set_item d "reason" (PyStr (reason res));
  set_item d "denial_class" (py_opt_str (denial_class res)).

Definition plg_config (self : PyLuxGate) : result PyErr dict :=
  d ← set_item dict_new "authority_threshold" (PyFloat (authority_threshold self));
  d ← set_item d "add_agent_threshold" (PyFloat (add_agent_threshold self));
  set_item d "max_agents" (PyInt (max_agents self)).

End pyluxgate.

(** ** The order of [f64]

    Away from NaN the comparisons of IEEE 754 are a total preorder: they compare the keys
    (class of the value, exponent, significand) lexicographically. *)

Definition f64_key (x : f64) : Z * Z * Z :=
  match x with
  | S754_nan => (0, 0, 0)
  | S754_infinity s => (if s then -2 else 2, 0, 0)
  | S754_zero _ => (0, 0, 0)
  | S754_finite true m e => (-1, - e, Zneg m)
  | S754_finite false m e => (1, e, Zpos m)
  end.

Definition key_le (a b : Z * Z * Z) : Prop :=
  a.1.1 < b.1.1 \/ (a.1.1 = b.1.1 /\ (a.1.2 < b.1.2 \/ (a.1.2 = b.1.2 /\ a.2 <= b.2))).

Lemma SFleb_key x y : x <> S754_nan -> y <> S754_nan -> SFleb x y = true <-> key_le (f64_key x) (f64_key y).
Proof.
  intros Hx Hy. destruct x as [s|[]| |[] m e], y as [s'|[]| |[] m' e']; try done;
    unfold SFleb, key_le; cbn; try (split; [lia|intros; first [done|lia]]).
  all: destruct (Z.compare_spec e e'); cbn; try (split; [lia|intros; first [done|lia]]).
  all: change (Pos.compare_cont Eq m m') with (Pos.compare m m');
    destruct (Pos.compare_spec m m'); cbn; split; intros; first [done|lia].
Qed.

Lemma SFltb_leb x y : x <> S754_nan -> y <> S754_nan -> SFltb x y = negb (SFleb y x).
Proof.
  intros Hx Hy. destruct x as [s|[]| |[] m e], y as [s'|[]| |[] m' e']; try done; unfold SFleb, SFltb; cbn.
  all: rewrite (Z.compare_antisym e e'); destruct (e ?= e'); cbn; try done.
  all: change (Pos.compare_cont Eq m m') with (Pos.compare m m');
    change (Pos.compare_cont Eq m' m) with (Pos.compare m' m);
    rewrite (Pos.compare_antisym m m'); by destruct (m ?= m')%positive.
Qed.

Lemma SFleb_not_nan x y : SFleb x y = true -> x <> S754_nan /\ y <> S754_nan.
Proof. split; intros ->; [done|by destruct x]. Qed.

Lemma SFleb_trans x y z : SFleb x y = true -> SFleb y z = true -> SFleb x z = true.
Proof.
  intros H1 H2. destruct (SFleb_not_nan _ _ H1) as [Hx Hy], (SFleb_not_nan _ _ H2) as [_ Hz].
  rewrite SFleb_key in * by done. unfold key_le in *. lia.
Qed.

Lemma SFltb_nan x : SFltb S754_nan x = false.
Proof. done. Qed.

(** ** Tables of static strings *)

Lemma contains_str_true l s : contains_str l s = true <-> s ∈ l.
Proof. apply bool_decide_eq_true. Qed.

Lemma contains_str_false l s : contains_str l s = false <-> s ∉ l.
Proof. apply bool_decide_eq_false. Qed.

(** Interning returns the string itself, if it is in the table. *)
Lemma find_str_Some l s k : find_str l s = Some k <-> k = s /\ s ∈ l.
Proof.
  unfold find_str. split.
  - intros [Hin He]%List.find_some. apply bool_decide_eq_true in He as ->.
    by rewrite list_elem_of_In.
  - intros [-> Hin]. destruct (List.find _ l) as [k|] eqn:Hf.
    + apply List.find_some in Hf as [_ He]. by apply bool_decide_eq_true in He as ->.
    + apply list_elem_of_In in Hin. pose proof (List.find_none _ _ Hf _ Hin) as Hn. cbn in Hn.
      by rewrite bool_decide_eq_false in Hn.
Qed.

Lemma existsb_Exists {A} (f : A -> bool) (P : A -> Prop) l :
  (forall x, f x = true <-> P x) -> existsb f l = true <-> Exists P l.
Proof.
  intros H. induction l as [|x l IH]; cbn; [by rewrite Exists_nil|].
  by rewrite orb_true_iff, Exists_cons, IH, H.
Qed.

Section gate_facts.
Context `{HV : HVec} `{PD : PyDict} `{UT : UnicodeTables} `{HL : !HVecLaws} `{PL : !PyDictLaws}.

(** What Python reads off a gate's dictionary, [key] being ["allowed"] or ["approved"]. *)
Definition answers (d : dict) (key : string) (flag : bool) (reason : string) (cls : option string) : Prop :=
  get_item d key = Some (PyBool flag) /\ get_item d "reason" = Some (PyStr reason) /\
  get_item d "denial_class" = Some (py_opt_str cls).

Lemma three_items key flag reason cls :
  key <> "reason" -> key <> "denial_class" ->
  exists d, (d ← set_item dict_new key (PyBool flag); d ← set_item d "reason" (PyStr reason);
             set_item d "denial_class" (py_opt_str cls)) = Ok d /\ answers d key flag reason cls.
Proof using PL.
  intros H1 H2. destruct (set_item_ok dict_new key (PyBool flag)) as (d1 & Hd1 & Hg1).
  destruct (set_item_ok d1 "reason" (PyStr reason)) as (d2 & Hd2 & Hg2).
  destruct (set_item_ok d2 "denial_class" (py_opt_str cls)) as (d3 & Hd3 & Hg3).
  exists d3. rewrite Hd1. cbn. rewrite Hd2. cbn. split; [done|].
  unfold answers. rewrite !Hg3, !Hg2, !Hg1. by repeat case_decide.
Qed.

Lemma gate_answer_ok flag reason cls :
  exists d, gate_answer flag reason (py_opt_str cls) = Ok d /\ answers d "allowed" flag reason cls.
Proof using PL. by apply three_items. Qed.

(** ** Construction of the feature gate *)

Lemma intern_all_slice table unknown full names acc v :
  intern_all (find_str table) unknown full acc names = Ok v ->
  hv_slice v = hv_slice acc ++ names /\ Forall (.∈ table) names.
Proof using HL.
  revert acc. induction names as [|n names IH]; intros acc; cbn [intern_all].
  { intros [= ->]. by rewrite app_nil_r. }
  intros (s & Hs & (w & Hw & H)%bind_Ok)%bind_Ok. apply ok_or_Ok in Hs, Hw.
  apply find_str_Some in Hs as [-> Hin]. destruct (IH w H) as [Hv Hall].
  apply hv_push_Some in Hw as [Hw _]. split; [by rewrite Hv, Hw, <- app_assoc|by constructor].
Qed.

Lemma intern_all_iff table unknown full names acc :
  is_ok (intern_all (find_str table) unknown full acc names) = true <->
  Forall (.∈ table) names /\ (length names <= MAX_GATE_FEATURES - hv_len acc)%nat.
Proof using HL.
  revert acc. induction names as [|n names IH]; intros acc; cbn [intern_all].
  { cbn. split; [|done]. intros _. split; [constructor|lia]. }
  rewrite Forall_cons. destruct (find_str table n) as [k|] eqn:Hk; cbn.
  - apply find_str_Some in Hk as [-> Hin].
    destruct (decide (hv_len acc < MAX_GATE_FEATURES)%nat) as [Hr|Hf].
    + destruct (hv_push_room _ _ acc n Hr) as (w & -> & Hw). cbn. rewrite IH.
      assert (hv_len w = S (hv_len acc)) as ->.
      { unfold hv_len. rewrite Hw, length_app. cbn. lia. }
      unfold MAX_GATE_FEATURES in *. intuition lia.
    + rewrite hv_push_full by lia. unfold MAX_GATE_FEATURES in *. cbn. split; [done|lia].
  - split; [done|]. intros [[Hin _] _].
    by rewrite (proj2 (find_str_Some table n n) (conj eq_refl Hin)) in Hk.
Qed.

(** [PyPolicyGate::new] accepts exactly lists of at most 16 names of the compile-time
    tables, repetitions included. *)
Theorem feature_gate_construction approved_features blocked_attrs :
  is_ok (ppg_new approved_features blocked_attrs) = true <->
  Forall (.∈ KNOWN_APPROVED) approved_features /\ (length approved_features <= 16)%nat /\
  Forall (.∈ KNOWN_BLOCKED_SUBSTRINGS) blocked_attrs /\ (length blocked_attrs <= 16)%nat.
Proof using HL.
  pose proof (intern_all_iff KNOWN_APPROVED UnknownApproved ApprovedExceedsCapacity
                approved_features hv_new) as Ha.
  pose proof (intern_all_iff KNOWN_BLOCKED_SUBSTRINGS UnknownBlocked BlockedExceedsCapacity
                blocked_attrs hv_new) as Hb.
  unfold hv_len, MAX_GATE_FEATURES in Ha, Hb. rewrite hv_slice_new in Ha, Hb. cbn in Ha, Hb.
  unfold ppg_new, str_to_static_approved, str_to_static_blocked.
  destruct (intern_all _ UnknownApproved _ _ _); cbn in *; [|intuition congruence].
  destruct (intern_all _ UnknownBlocked _ _ _); cbn in *; intuition congruence.
Qed.

Lemma ppg_new_lists fs bs g :
  ppg_new fs bs = Ok g ->
  hv_slice (ppg_approved g) = fs /\ hv_slice (ppg_blocked g) = bs /\
  Forall (.∈ KNOWN_APPROVED) fs /\ Forall (.∈ KNOWN_BLOCKED_SUBSTRINGS) bs.
Proof using HL.
  intros (a & Ha & (b & Hb & [= <-])%bind_Ok)%bind_Ok.
  apply intern_all_slice in Ha as [Ha ?], Hb as [Hb ?]. by rewrite hv_slice_new in Ha, Hb.
Qed.

(** ** Decision of the feature gate *)

(** A protected attribute by its exact name; a name that contains a blocked substring once
    lowercased; a name outside the approved list. *)
Definition has_exact (names : list string) : Prop := Exists (.∈ PROTECTED_EXACT) names.
Definition is_alias (blocked : list string) (name : string) : Prop :=
  Exists (fun sub => substring_of sub (to_lowercase name) = true) blocked.
Definition has_alias (blocked names : list string) : Prop := Exists (is_alias blocked) names.
Definition has_unapproved (approved names : list string) : Prop := Exists (.∉ approved) names.

(** No approvable feature name is protected or contains a blocked substring. *)
Lemma known_approved_clean name sub :
  name ∈ KNOWN_APPROVED -> sub ∈ KNOWN_BLOCKED_SUBSTRINGS ->
  (name ∉ PROTECTED_EXACT) /\ substring_of sub (to_lowercase name) = false.
Proof.
  intros Hn%list_elem_of_In Hs%list_elem_of_In. rewrite <- contains_str_false.
  cbn in Hn, Hs. destruct_or!; subst; done.
Qed.

Lemma approved_no_flags fs bs names :
  Forall (.∈ KNOWN_APPROVED) fs -> Forall (.∈ KNOWN_BLOCKED_SUBSTRINGS) bs ->
  Forall (.∈ fs) names -> ~ has_exact names /\ ~ has_alias bs names.
Proof.
  intros Hf Hb Hn. rewrite Forall_forall in Hf, Hb, Hn. unfold has_exact, has_alias. rewrite !Exists_exists.
  split.
  - intros (n & Hin & He). destruct (known_approved_clean n "age") as [? _]; [by apply Hf, Hn|left|done].
  - intros (n & Hin & (sub & Hsub & Hc)%Exists_exists).
    destruct (known_approved_clean n sub) as [_ ?]; [by apply Hf, Hn|by apply Hb|congruence].
Qed.

(** The branches of [check], in order. *)
Lemma ppg_check_cases g names :
  let fs := hv_slice (ppg_approved g) in
  let bs := hv_slice (ppg_blocked g) in
  exists d flag reason cls, ppg_check g names = Ok d /\ answers d "allowed" flag reason cls /\
    ((has_exact names /\ (flag, reason, cls) = (false, REASON_PROTECTED_EXACT, Some "halt")) \/
     (~ has_exact names /\ has_alias bs names /\
        (flag, reason, cls) = (false, REASON_PROTECTED_ALIAS, Some "halt")) \/
     (~ has_exact names /\ ~ has_alias bs names /\ has_unapproved fs names /\
        (flag, reason, cls) = (false, REASON_UNAPPROVED, Some "halt")) \/
     (~ has_exact names /\ ~ has_alias bs names /\ ~ has_unapproved fs names /\
        (flag, reason, cls) = (true, REASON_ALLOWED, None))).
Proof using PL.
  intros fs bs. unfold ppg_check.
  assert (existsb (contains_str PROTECTED_EXACT) names = true <-> has_exact names) as H1
    by apply existsb_Exists, contains_str_true.
  assert (existsb (fun name => existsb (fun sub => substring_of sub (to_lowercase name)) bs) names
          = true <-> has_alias bs names) as H2
    by (apply existsb_Exists; intros; by apply existsb_Exists).
  assert (existsb (fun name => negb (contains_str fs name)) names = true <-> has_unapproved fs names)
    as H3 by (apply existsb_Exists; intros; rewrite negb_true_iff; apply contains_str_false).
  cbn zeta. fold fs bs.
  destruct (existsb (contains_str _) names), (existsb (fun name => existsb _ bs) names),
    (existsb (fun name => negb _) names);
    match goal with
    | |- context [gate_answer ?b ?r PyNone] => destruct (gate_answer_ok b r None) as (d & Hd & Ha)
    | |- context [gate_answer ?b ?r _] => destruct (gate_answer_ok b r (Some "halt")) as (d & Hd & Ha)
    end; do 4 eexists; (split; [exact Hd|split; [exact Ha|intuition congruence]]).
Qed.

(** A constructed feature gate answers every feature vector: it allows exactly the
    vectors all of whose names are approved, whatever their number or order; a denial is
    classified ["halt"] and its reason is the first of exact, aliased, unapproved that
    applies.  In particular no list of blocked substrings can deny an approved vector, and
    no empty one lets a protected attribute through. *)
Theorem feature_gate_exact fs bs g names :
  ppg_new fs bs = Ok g ->
  exists d flag reason cls, ppg_check g names = Ok d /\ answers d "allowed" flag reason cls /\
    (flag = true <-> Forall (.∈ fs) names) /\
    cls = (if flag then None else Some "halt") /\
    (reason = REASON_PROTECTED_EXACT <-> has_exact names) /\
    (reason = REASON_PROTECTED_ALIAS <-> ~ has_exact names /\ has_alias bs names) /\
    (reason = REASON_UNAPPROVED <-> ~ has_exact names /\ ~ has_alias bs names /\ has_unapproved fs names).
Proof using HL PL.
  intros (Ha & Hb & Hf & Hbs)%ppg_new_lists.
  destruct (ppg_check_cases g names) as (d & flag & reason & cls & Hd & Hans & Hc).
  rewrite Ha, Hb in Hc. exists d, flag, reason, cls. split; [done|]. split; [done|].
  pose proof (approved_no_flags fs bs names Hf Hbs) as Hno.
  assert (has_unapproved fs names <-> ~ Forall (.∈ fs) names) as Hun.
  { split; [apply Exists_not_Forall|]. intros Hn. by apply (not_Forall_Exists _) in Hn. }
  destruct Hc as [(? & [= -> -> ->])|[(? & ? & [= -> -> ->])|[(? & ? & ? & [= -> -> ->])|(? & ? & Hu & [= -> -> ->])]]];
    repeat split; try done; try tauto.
  destruct (decide (Forall (.∈ fs) names)); tauto.
Qed.

End gate_facts.

(** ** Decision of the coordination gate *)

(** The threshold that a coordination event of this type has to meet. *)
Definition threshold_for (g : PyLuxGate) (event_type : string) : f64 :=
  if decide (event_type = "add_agent") then add_agent_threshold g else authority_threshold g.

Lemma plg_new_inv a b m g :
  plg_new a b m = Ok g ->
  g = mkLuxGate a b m /\ SFleb a b = true /\ SFleb f64_0 a = true /\ SFleb b f64_1 = true.
Proof.
  unfold plg_new, in_unit_range. intros H. repeat case_match; simplify_eq.
  match goal with H : SFltb _ _ = false |- _ => rename H into Hlt end.
  repeat match goal with H : negb _ = false |- _ => apply negb_false_iff, andb_true_iff in H as [? ?] end.
  destruct (SFleb_not_nan f64_0 a), (SFleb_not_nan f64_0 b); [done..|].
  rewrite SFltb_leb in Hlt by done. by apply negb_false_iff in Hlt.
Qed.

(** A score is not below a threshold exactly if it meets it or is not a number. *)
Lemma not_below x t : t <> S754_nan -> SFltb x t = false <-> x = S754_nan \/ SFleb t x = true.
Proof.
  intros Ht. assert (x = S754_nan \/ x <> S754_nan) as [->|Hx] by (destruct x; auto).
  { by split; [left|]. }
  rewrite SFltb_leb, negb_false_iff by done. tauto.
Qed.

(** The tests on the score: the topology bound apart, they are one threshold. *)
Lemma score_tests g event_type x :
  SFleb (authority_threshold g) (add_agent_threshold g) = true ->
  (event_type = "add_agent" -> SFltb x (add_agent_threshold g) = false) /\
    SFltb x (authority_threshold g) = false <->
  x = S754_nan \/ SFleb (threshold_for g event_type) x = true.
Proof.
  intros Hle. destruct (SFleb_not_nan _ _ Hle) as [Ha Hb]. unfold threshold_for.
  rewrite !not_below by done. pose proof (SFleb_trans _ _ x Hle). case_decide; tauto.
Qed.

Definition CE_DENIALS : list string := [
  REASON_UNKNOWN_EVENT; REASON_NO_PARTICIPANTS; REASON_PROPOSER_UNKNOWN; REASON_TOPOLOGY_BOUND;
  REASON_ADD_AGENT_AUTHORITY; REASON_INSUFFICIENT_AUTHORITY].

(** A result is an authorisation without a class or a ["halt"] with one of six reasons. *)
Lemma plg_check_shape g et ps scores size :
  let r := plg_check g et ps scores size in
  if approved r then r = mkCheckResult true REASON_AUTHORIZED None
  else denial_class r = Some "halt" /\ reason r ∈ CE_DENIALS.
Proof.
  unfold plg_check. cbn zeta. repeat case_match; cbn in *; try done;
    (split; [done|apply contains_str_true; reflexivity]).
Qed.

(** When an event is authorised: a known type, a first participant with a score, room for
    a new agent, and a score that meets the threshold of the type or is not a number. *)
Definition ce_entitled (g : PyLuxGate) (event_type : string) (participants : list string)
    (scores : gmap string f64) (graph_size : Z) : Prop :=
  event_type ∈ KNOWN_EVENT_TYPES /\
  (event_type = "add_agent" -> graph_size < max_agents g) /\
  exists proposer x, head participants = Some proposer /\ scores !! proposer = Some x /\
    (x = S754_nan \/ SFleb (threshold_for g event_type) x = true).

Lemma plg_check_approves g et ps scores size :
  SFleb (authority_threshold g) (add_agent_threshold g) = true ->
  approved (plg_check g et ps scores size) = true <-> ce_entitled g et ps scores size.
Proof.
  intros Hle. unfold plg_check, ce_entitled. destruct (contains_str _ et) eqn:Hk; cbn.
  2: { apply contains_str_false in Hk. by split; [|intros [? _]]. }
  apply contains_str_true in Hk. destruct ps as [|p ps]; cbn.
  { by split; [|intros (_ & _ & ? & ? & ? & _)]. }
  destruct (scores !! p) as [x|] eqn:Hp; cbn.
  2: { split; [done|]. intros (_ & _ & ? & ? & [= <-] & ? & _). congruence. }
  pose proof (score_tests g et x Hle) as Hs. rewrite <- Z.leb_gt.
  transitivity ((et = "add_agent" -> (max_agents g <=? size) = false) /\
    ((et = "add_agent" -> SFltb x (add_agent_threshold g) = false) /\
     SFltb x (authority_threshold g) = false)).
  - clear. case_bool_decide; destruct (max_agents g <=? size), (SFltb x (add_agent_threshold g)),
      (SFltb x (authority_threshold g)); cbn; intuition congruence.
  - rewrite Hs. split; [by intros [? ?]; eauto 7|].
    by intros (_ & ? & ? & ? & [= <-] & [= <-]%(eq_trans (eq_sym Hp)) & ?).
Qed.

Section ce_facts.
Context `{PD : PyDict} `{PL : !PyDictLaws}.

(** C40: A constructed coordination gate answers every proposal.  It approves exactly the
    entitled ones: known type, a scored first participant, room for the agent if one is
    added, and a score that is at least the threshold of the type (the elevated one for
    ["add_agent"]) or a NaN.  Every denial is classified ["halt"] with one of six reasons. *)
Theorem ce_gate_exact a b m g event_type participants scores graph_size :
  plg_new a b m = Ok g ->
  exists d flag reason cls,
    authorize_ce g event_type participants scores graph_size = Ok d /\
    answers d "approved" flag reason cls /\
    (flag = true <-> ce_entitled g event_type participants scores graph_size) /\
    (flag = true -> reason = REASON_AUTHORIZED /\ cls = None) /\
    (flag = false -> reason ∈ CE_DENIALS /\ cls = Some "halt").
Proof using PL.
  intros (-> & Hle & _)%plg_new_inv. set (g := mkLuxGate a b m).
  pose proof (plg_check_shape g event_type participants scores graph_size) as Hshape.
  pose proof (plg_check_approves g event_type participants scores graph_size Hle) as Happ.
  unfold authorize_ce. cbn zeta in *. set (r := plg_check _ _ _ _ _) in *.
  destruct (three_items "approved" (approved r) (reason r) (denial_class r)) as (d & Hd & Ha); [done..|].
  exists d, (approved r), (reason r), (denial_class r). do 3 (split; [done|]).
  destruct (approved r); [rewrite Hshape; done|]. by destruct Hshape.
Qed.

End ce_facts.

(** A NaN authority passes both thresholds of every gate, elevated authority included. *)
Theorem nan_authority_approved g event_type proposer rest scores graph_size :
  event_type ∈ KNOWN_EVENT_TYPES -> scores !! proposer = Some S754_nan ->
  (event_type = "add_agent" -> graph_size < max_agents g) ->
  approved (plg_check g event_type (proposer :: rest) scores graph_size) = true.
Proof.
  intros Hk Hs Hb. unfold plg_check. rewrite (proj2 (contains_str_true _ _) Hk), Hs, !SFltb_nan. cbn.
  rewrite andb_false_r. case_bool_decide as He; [|done]. by rewrite (proj2 (Z.leb_gt _ _) (Hb He)).
Qed.

(** ** The log driven from Python *)

(** The names [append] accepts are those of the JSON export, except for capability checks,
    which are exported as [cap_check] and accepted as [capability_check]. *)
Theorem kind_names_agree e : parse_kind (kind_str e) = Ok (ev_kind e) <-> ev_kind e <> CapabilityCheck.
Proof. unfold kind_str. by destruct (ev_kind e). Qed.

(** None of the reasons of the coordination gate survives [append]. *)
Theorem ce_reasons_collapse r : r ∈ CE_DENIALS -> map_denial_reason r = "policy violation".
Proof. intros Hr%list_elem_of_In. cbn in Hr. destruct_or!; by subst. Qed.

Section log_facts.
Context `{HV : HVec} `{SH : Sha256} `{HL : !HVecLaws} `{SL : !Sha256Laws}.

Inductive pal_reachable : PyAuditLog -> Prop :=
| pal_reach_new : pal_reachable pal_new
| pal_reach_append log kind actor ts cls reason :
    pal_reachable log -> in_u64 actor -> in_u64 ts ->
    pal_reachable (pal_append log kind actor ts cls reason).1.

Lemma actor_u32_range actor : in_u64 actor -> in_u32 (actor_u32 actor).
Proof. unfold actor_u32. destruct (Z.leb_spec actor U32_MAX); width_lia. Qed.

Lemma pal_reachable_kernel log : pal_reachable log -> log_reachable (pal_inner log).
Proof.
  induction 1 as [|log kind actor ts cls reason _ IH Ha Ht]; [constructor|].
  unfold pal_append. destruct (parse_kind kind) as [k|]; [|done].
  destruct (pal_denial cls reason) as [dn|]; [|done].
  pose proof (reach_append _ k (actor_u32 actor) ts dn IH (actor_u32_range _ Ha) Ht) as H.
  by destruct (AuditLog.append _ _ _ _ _).
Qed.

(** An [append] that does not return [True] leaves the log as it was. *)
Lemma pal_append_unchanged log kind actor ts cls reason :
  (pal_append log kind actor ts cls reason).2 <> Ok true ->
  (pal_append log kind actor ts cls reason).1 = log.
Proof using HL.
  unfold pal_append. destruct log as [log], (parse_kind kind) as [k|]; [|done].
  destruct (pal_denial cls reason) as [dn|]; [|done]. destruct (is_full log) eqn:Hf.
  - cbn. by rewrite append_full.
  - cbn. by destruct (append_room log k (actor_u32 actor) ts dn Hf) as (? & -> & _).
Qed.

Lemma foldl_hex s bs :
  foldl (fun s b => s +:+ fmt_02x b) s bs = s +:+ String.concat "" (fmt_02x <$> bs).
Proof.
  revert s. induction bs as [|b bs IH]; intros s; [by rewrite string_app_nil|].
  cbn [foldl fmap list_fmap]. by rewrite IH, concat_empty_cons, string_app_assoc.
Qed.

Lemma string_length_app (a b : string) : String.length (a +:+ b) = (String.length a + String.length b)%nat.
Proof. induction a as [|c a IH]; [done|]. cbn. by rewrite <- IH. Qed.

Lemma hex_digit_length n : 0 <= n < 16 -> String.length (hex_digit n) = 1%nat.
Proof.
  intros Hn. rewrite <- (Z2Nat.id n) in * by lia. remember (Z.to_nat n) as k eqn:Hk. clear Hk.
  assert (k < 16)%nat as H by lia. do 16 (destruct k as [|k]; [done|]). lia.
Qed.

Lemma fmt_02x_length b : in_u8 b -> String.length (fmt_02x b) = 2%nat.
Proof.
  intros Hb. unfold fmt_02x. rewrite string_length_app, !hex_digit_length; [done|..].
  - apply Z.mod_pos_bound. lia.
  - split; [apply Z.div_pos|apply Z.div_lt_upper_bound]; width_lia.
Qed.

Lemma hex_length bs :
  Forall in_u8 bs -> String.length (String.concat "" (fmt_02x <$> bs)) = (2 * length bs)%nat.
Proof.
  induction 1 as [|b bs Hb _ IH]; [done|]. cbn [fmap list_fmap].
  rewrite concat_empty_cons, string_length_app, fmt_02x_length, IH by done. cbn. lia.
Qed.

(** The head of a kernel log is 32 bytes: zeros, or a digest. *)
Lemma head_hash_bytes log :
  log_reachable log -> Forall in_u8 (head_hash log) /\ length (head_hash log) = 32%nat.
Proof using HL SL.
  intros Hr. induction Hr as [|log kind actor ts denial Hr IH _ _].
  { split; [apply Forall_replicate; width_lia|done]. }
  destruct (is_full log) eqn:Hf; [by rewrite append_full|].
  destruct (append_room log kind actor ts denial Hf) as (log' & -> & _ & Hh & _).
  unfold head_hash. cbn [fst]. rewrite Hh, logged_hash, event_hash_digest.
  split; [apply sha_bytes|apply sha_length].
Qed.

Lemma string_write_ok (w s : string) : exists w', write_str w s = Some w' /\ id w' = id w +:+ s.
Proof. by exists (w +:+ s). Qed.

(** [append] on a log with room, once its strings parse. *)
Lemma pal_append_room log kind k actor ts cls reason dn :
  is_full (pal_inner log) = false -> parse_kind kind = Ok k -> pal_denial cls reason = Ok dn ->
  exists log', pal_append log kind actor ts cls reason = (log', Ok true) /\
    events (pal_inner log')
    = events (pal_inner log) ++ [logged (pal_inner log) k (actor_u32 actor) ts dn].
Proof using HL.
  intros Hf Hk Hd. unfold pal_append. rewrite Hk, Hd.
  destruct (append_room _ k (actor_u32 actor) ts dn Hf) as (log' & -> & He & _).
  by exists (mkPyLog log').
Qed.

(** Whatever Python does with a [PyAuditLog], the log behind it is a log of the
    kernel: it verifies and holds at most MAX_AUDIT_EVENTS events; a call of [append] that
    raises or returns [False] leaves it unchanged; [head_hash] has 64 characters and
    [export_json] returns the JSON array of its events. *)
Theorem py_log_sound log :
  pal_reachable log ->
  pal_verify_chain log = true /\ (pal_len log <= MAX_AUDIT_EVENTS)%nat /\
  (forall kind actor ts cls reason,
     (pal_append log kind actor ts cls reason).2 <> Ok true ->
     (pal_append log kind actor ts cls reason).1 = log) /\
  String.length (pal_head_hash log) = 64%nat /\
  pal_export_json log
  = Ok ("[" +:+ String.concat "," (json_event <$> events (pal_inner log)) +:+ "]").
Proof using HL SL.
  intros Hr%pal_reachable_kernel. pose proof (reachable_wf _ Hr) as [Hc _ _ _ Hcap _].
  split; [done|]. split; [done|]. split; [intros; by apply pal_append_unchanged|]. split.
  - destruct (head_hash_bytes _ Hr) as [Hb Hl]. unfold pal_head_hash.
    rewrite foldl_hex, string_length_app, hex_length by done. cbn [String.length].
    unfold byte in Hl. by rewrite Hl.
  - unfold pal_export_json.
    by destruct (export_json_writes id string_write_ok (pal_inner log) "") as (w & -> & Hw);
      cbn in *; subst.
Qed.

End log_facts.

(** ** From the gate to the log *)

Section pipeline.
Context `{HV : HVec} `{SH : Sha256} `{PD : PyDict} `{UT : UnicodeTables}.
Context `{HL : !HVecLaws} `{PL : !PyDictLaws}.

(** The [denial] recorded for an answer of the feature gate. *)
Lemma gate_denial_kept reason :
  reason ∈ [REASON_PROTECTED_EXACT; REASON_PROTECTED_ALIAS; REASON_UNAPPROVED] ->
  pal_denial (Some "halt") (Some reason) = Ok (Some (Halt, reason)).
Proof. intros Hr%list_elem_of_In. cbn in Hr. destruct_or!; by subst. Qed.

(** The answer of a feature gate, passed to [PyAuditLog.append] as a
    ["policy_gate_check"] while the log has room, is recorded as exactly one event: permitted
    without a reason if the gate allowed the vector, and otherwise denied, class halt, with
    the very reason the gate gave. *)
Theorem gate_audit_lossless g names log actor ts :
  is_full (pal_inner log) = false -> in_u32 actor ->
  exists d flag reason cls log' e,
    ppg_check g names = Ok d /\ answers d "allowed" flag reason cls /\
    pal_append log "policy_gate_check" actor ts cls (Some reason) = (log', Ok true) /\
    events (pal_inner log') = events (pal_inner log) ++ [e] /\
    ev_kind e = PolicyGateCheck /\ ev_actor e = actor /\ ev_timestamp e = ts /\
    ev_outcome e = (if flag then Permitted else Denied) /\
    ev_denial_class e = (if flag then None else Some Halt) /\
    ev_denial_reason e = (if flag then None else Some reason).
Proof using HL PL.
  intros Hf Ha. destruct (ppg_check_cases g names) as (d & flag & reason & cls & Hd & Hans & Hc).
  assert (pal_denial cls (Some reason) = Ok (if flag then None else Some (Halt, reason))) as Hdn.
  { destruct Hc as [(_ & [= -> -> ->])|[(_ & _ & [= -> -> ->])|[(_ & _ & _ & [= -> -> ->])|(_ & _ & _ & [= -> -> ->])]]];
      [apply gate_denial_kept; set_solver..|done]. }
  destruct (pal_append_room log "policy_gate_check" PolicyGateCheck actor ts _ _ _ Hf eq_refl Hdn)
    as (log' & Happ & He).
  exists d, flag, reason, cls, log'. eexists. do 4 (split; [eassumption|]). cbn.
  assert (actor_u32 actor = actor) as ->.
  { unfold actor_u32. destruct (Z.leb_spec actor U32_MAX); [done|width_lia]. }
  by destruct flag.
Qed.

End pipeline.

(** ** Witnesses *)

Module Witness.
#[local] Existing Instance ListModel.list_hvec.
#[local] Existing Instance ListModel.list_hvec_laws.
#[local] Existing Instance ByteModel.toy_sha.
#[local] Existing Instance ByteModel.toy_sha_laws.

(** A dictionary as a finite map, and case tables that map nothing. *)
#[local] Instance map_dict : PyDict := {|
  dict := gmap string PyVal; dict_new := ∅;
  set_item := fun d k v => Ok (<[k := v]> d); get_item := fun d k => d !! k |}.
#[local] Instance map_dict_laws : PyDictLaws.
Proof.
  constructor. intros d k v. exists (<[k := v]> d). split; [done|]. intros k'. cbn.
  case_decide; subst; [by rewrite lookup_insert_eq|by rewrite lookup_insert_ne].
Qed.
#[local] Instance no_tables : UnicodeTables := fun s => s.

(** The gate of the hiring pipeline. *)
Definition hiring : result PyErr PyPolicyGate := ppg_new KNOWN_APPROVED KNOWN_BLOCKED_SUBSTRINGS.

Lemma feature_gate_exact_witness :
  exists g d reason, hiring = Ok g /\ ppg_check g ["fit_score"; "Maternal_AGE"] = Ok d /\
    answers d "allowed" false reason (Some "halt") /\ reason = REASON_PROTECTED_ALIAS.
Proof.
  assert (is_ok hiring = true) as [g Hg]%is_ok_true by reflexivity.
  destruct (feature_gate_exact _ _ g ["fit_score"; "Maternal_AGE"] Hg)
    as (d & flag & reason & cls & Hd & Ha & Hflag & Hcls & He & Hal & _).
  assert (reason = REASON_PROTECTED_ALIAS) as Hr.
  { apply Hal. split.
    - intros (n & Hn%list_elem_of_In & Hp%list_elem_of_In)%Exists_exists. cbn in Hn, Hp.
      by destruct_or!; subst.
    - right; left; left. reflexivity. }
  exists g, d, reason. split; [done|]. split; [done|]. split; [|done].
  destruct flag; [|by rewrite Hcls in Ha]. exfalso.
  pose proof (proj1 Hflag eq_refl) as Hall. inversion_clear Hall as [|? ? _ H2].
  inversion_clear H2 as [|? ? Hn _]. apply contains_str_true in Hn. by vm_compute in Hn.
Defined.

(** The gate with the default configuration. *)
Definition gate : PyLuxGate := mkLuxGate f64_03 f64_06 20.

Lemma ce_gate_exact_witness :
  plg_default = Ok gate /\
  exists d, authorize_ce gate "add_agent" ["a"; "b"] {[ "a" := f64_06 ]} 5 = Ok d /\
    answers d "approved" true REASON_AUTHORIZED None.
Proof.
  split; [reflexivity|].
  destruct (ce_gate_exact f64_03 f64_06 20 gate "add_agent" ["a"; "b"] {[ "a" := f64_06 ]} 5 eq_refl)
    as (d & flag & r & cls & Hd & Ha & [_ Hf] & Hok & _).
  assert (flag = true) as ->.
  { apply Hf. split; [apply contains_str_true; reflexivity|]. split; [done|].
    exists "a", f64_06. split; [done|]. split; [by rewrite lookup_singleton_eq|by right]. }
  destruct (Hok eq_refl) as [-> ->]. by exists d.
Defined.

(** An exact 0.3 is enough for an edge and too little for an agent; a NaN is enough. *)
Example ce_edge : approved (plg_check gate "add_edge" ["a"] {[ "a" := f64_03 ]} 5) = true.
Proof. reflexivity. Qed.
Example ce_agent :
  reason (plg_check gate "add_agent" ["a"] {[ "a" := f64_03 ]} 5) = REASON_ADD_AGENT_AUTHORITY.
Proof. reflexivity. Qed.
Example ce_nan : approved (plg_check gate "add_agent" ["a"] {[ "a" := S754_nan ]} 5) = true.
Proof. reflexivity. Qed.

(** A log driven from Python: a denial with an actor beyond [u32], then a rejected call. *)
Definition plog1 : PyAuditLog :=
  (pal_append pal_new "hiring_decision" 4294967296 7 (Some "failure") (Some "?")).1.
Definition plog2 : PyAuditLog := (pal_append plog1 "cap_check" 1 8 None None).1.

Lemma py_log_sound_witness :
  pal_verify_chain plog2 = true /\ plog2 = plog1 /\ String.length (pal_head_hash plog2) = 64%nat.
Proof.
  assert (pal_reachable plog1) as Hr by (constructor; [constructor|width_lia..]).
  destruct (py_log_sound plog1 Hr) as (Hv & _ & Hun & Hh & _).
  assert (plog2 = plog1) as -> by (apply Hun; intros [=]).
  split; [exact Hv|split; [reflexivity|exact Hh]].
Defined.

Lemma gate_audit_lossless_witness :
  exists g d flag reason cls log' e, hiring = Ok g /\ ppg_check g ["race"] = Ok d /\
    answers d "allowed" flag reason cls /\
    pal_append plog1 "policy_gate_check" 3 9 cls (Some reason) = (log', Ok true) /\
    events (pal_inner log') = events (pal_inner plog1) ++ [e] /\
    ev_denial_reason e = (if flag then None else Some reason).
Proof.
  assert (is_ok hiring = true) as [g Hg]%is_ok_true by reflexivity.
  destruct (gate_audit_lossless g ["race"] plog1 3 9) as
    (d & flag & reason & cls & log' & e & H1 & H2 & H3 & H4 & _ & _ & _ & _ & _ & H5);
    [vm_compute; reflexivity|width_lia|].
  exists g, d, flag, reason, cls, log', e. repeat (split; [eassumption|]). exact H5.
Defined.

End Witness.
