(* ===== verification/Harness.v ===== *)
(** * Proof harnesses, fuzz targets and unit tests

    The repository states some of its own obligations as code: Kani proof harnesses in
    [src/metabolism/ledger.rs] and [src/auth/capability.rs], the fuzz targets under
    [fuzz/fuzz_targets/], and the unit tests inside the modules.  Each is a definition here,
    with [None] for a panic (a failed assertion, [unwrap] or arithmetic overflow) and the
    symbolic inputs as arguments.

    [kani_harnesses_hold] and [fuzz_targets_hold] are for all inputs.  The unit tests of the
    topology graph are shown to pass whatever the vector and hash crates do; those of the
    two ledgers are run on the executable models of the crates. *)
From S2P Require Import Prelude Heapless Crypto Types AuditLog Capability Ledger Topology.
From S2P Require Import Reservation Hsm Manifest.
From stdpp Require Import base tactics list numbers option strings.
Open Scope Z_scope.

(** ** Panics *)

(** [assert!]. *)
Definition assert_ (b : bool) : option unit := if b then Some tt else None.

(** [assert_eq!]. *)
Definition assert_eq {A} `{EqDecision A} (x y : A) : option unit := assert_ (bool_decide (x = y)).

(** [unwrap] and [expect] on the result of a [&mut self] call, which keeps the receiver. *)
Definition unwrap {S A} (x : S * Result A) : option (S * A) :=
  match x with (s, Ok a) => Some (s, a) | (_, Err _) => None end.

Definition unwrap_res {A} (x : Result A) : option A := match x with Ok a => Some a | Err _ => None end.

(** [for x in l { s = f(s, x) }]. *)
Fixpoint for_in {X S} (l : list X) (f : S -> X -> option S) (s : S) : option S :=
  match l with
  | [] => Some s
  | x :: l' => s ← f s x; for_in l' f s
  end.

Definition nz (n : Z) : option NodeId := NonZeroU32_new n.

(** ** Kani harnesses *)

Section kani.
Context `{LM : LinearMap} `{BF : Bitflags}.

Definition failed_deduction_leaves_balance_unchanged (ceiling amount : Z) : option unit :=
  node ← NonZeroU32_new 1;
  '(ledger, _) ← unwrap (Ledger.seed default_ledger node (Quota_new ceiling));
  before ← balance ledger node;
  let '(ledger, result) := deduct ledger node amount in
  match result with
  | None => after ← balance ledger node; assert_ (after =? before)
  | Some _ => Some tt
  end.

(** [kani::assume] discards the inputs it rejects. *)
Definition successful_deduction_is_exact (ceiling amount : Z) : option unit :=
  if negb (amount <=? ceiling) then Some tt
  else
    node ← NonZeroU32_new 1;
    '(ledger, _) ← unwrap (Ledger.seed default_ledger node (Quota_new ceiling));
    before ← balance ledger node;
    let '(_, new_bal) := deduct ledger node amount in
    _ ← assert_ (bool_decide (is_Some new_bal));
    bal ← new_bal;
    expected ← checked_sub_u64 before amount;
    assert_ (bal =? expected).

Definition delegate_never_amplifies_rights (rights_raw subset_raw gen_val nonce new_nonce : Z) : option unit :=
  issuer ← NonZeroU32_new 1;
  target ← NonZeroU32_new 2;
  new_target ← NonZeroU32_new 3;
  let rights := from_bits_truncate rights_raw in
  let requested_subset := from_bits_truncate subset_raw in
  let cap := {| cap_issuer := issuer; cap_target := target; cap_rights := rights;
                cap_generation := gen_val; cap_nonce := nonce |} in
  match delegate cap new_target requested_subset new_nonce with
  | Some delegated => assert_ (contains rights (cap_rights delegated))
  | None => Some tt
  end.

Definition no_delegate_right_produces_no_delegation (rights_raw subset_raw gen_val nonce new_nonce : Z)
    : option unit :=
  let rights := bf_difference (from_bits_truncate rights_raw) DELEGATE in
  let subset := from_bits_truncate subset_raw in
  issuer ← NonZeroU32_new 1;
  target ← NonZeroU32_new 2;
  new_target ← NonZeroU32_new 3;
  let cap := {| cap_issuer := issuer; cap_target := target; cap_rights := rights;
                cap_generation := gen_val; cap_nonce := nonce |} in
  let result := delegate cap new_target subset new_nonce in
  assert_ (negb (bool_decide (is_Some result))).

End kani.

(** ** Fuzz targets *)

(** [u64::from_le_bytes]. *)
Definition from_le_bytes (b : bytes) : Z := foldr (fun x acc => x + 256 * acc) 0 b.

(** [data\[a..a+8\].try_into().unwrap()]. *)
Definition slice8 (data : bytes) (a : nat) : option bytes :=
  let s := take 8 (drop a data) in if decide (length s = 8)%nat then Some s else None.

Definition ledger_arithmetic `{LM : LinearMap} (data : bytes) : option unit :=
  s0 ← slice8 data 0;
  s1 ← slice8 data 8;
  let ceiling := from_le_bytes s0 in
  let deduction := from_le_bytes s1 in
  node ← NonZeroU32_new 1;
  '(ledger, _) ← unwrap (Ledger.seed Ledger.new node (Quota_new ceiling));
  match (deduct ledger node deduction).2 with
  | Some new_balance =>
      _ ← assert_ (deduction <=? ceiling);
      expected ← checked_sub_u64 ceiling deduction;
      assert_ (new_balance =? expected)
  | None => Some tt
  end.

(** The target discards the result; it is returned here so that it can be judged. *)
Definition manifest_decode `{HV : HVec} `{DE : Decoder} `{SH : Sha256} `{ED : Ed25519} (data : bytes)
    : Result Manifest :=
  let hsm := from_signing_key (replicate 32 42) in
  let creds := creds_new hsm in
  Manifest.decode data creds.

Section facts.
Context `{HV : HVec} `{LM : LinearMap} `{BF : Bitflags} `{DE : Decoder} `{SH : Sha256} `{ED : Ed25519}.
Context `{HL : !HVecLaws} `{LL : !LinearMapLaws} `{BL : !BitflagsLaws} `{DL : !DecoderLaws} `{EL : !Ed25519Laws}.

(** The state all the ledger harnesses start from. *)
Lemma seeded n c : exists l, Ledger.seed Ledger.new n (Quota_new c) = (l, Ok tt) /\ balance l n = Some c.
Proof using LL.
  destruct (seed_cases Ledger.new n (Quota_new c)) as (_ & _ & H).
  destruct H as (l & Hs & _ & Hb); [apply balance_new|cbn; rewrite lm_len_new; apply Nat.ltb_lt; reflexivity|].
  exists l. split; [done|]. by rewrite Hb, decide_True.
Qed.

Lemma truncate_range n : 0 <= from_bits_truncate n <= 31.
Proof using BL.
  unfold from_bits_truncate. rewrite bf_truncate_spec. change all_rights with (Z.ones 5).
  rewrite Z.land_ones by lia. pose proof (Z.mod_pos_bound n (2 ^ 5) ltac:(lia)). lia.
Qed.

Lemma difference_lacks r : 0 <= r <= 31 -> contains (bf_difference r DELEGATE) DELEGATE = false.
Proof using BL.
  intros Hr. rewrite bf_difference_spec by (unfold DELEGATE; lia). unfold contains.
  apply not_true_is_false. intros Hc.
  assert (0 <= Z.ldiff r DELEGATE) as H0 by (apply Z.ldiff_nonneg; left; lia).
  pose proof (proj1 (bf_contains_spec _ DELEGATE H0 ltac:(unfold DELEGATE; lia)) Hc 3 ltac:(lia) eq_refl) as Hb.
  rewrite Z.ldiff_spec in Hb. apply andb_true_iff in Hb as [_ Hb]. done.
Qed.

(** C23: The repository's own proof obligations hold for every input, not only for those a
    bounded model checker explores: a failed deduction leaves the balance, a deduction
    within the balance is exact, delegation never amplifies rights, and a token without
    [DELEGATE] delegates nothing; no harness panics on the way. *)
Theorem kani_harnesses_hold :
  (forall ceiling amount, failed_deduction_leaves_balance_unchanged ceiling amount = Some tt) /\
  (forall ceiling amount, successful_deduction_is_exact ceiling amount = Some tt) /\
  (forall rights subset gen nonce new_nonce,
     delegate_never_amplifies_rights rights subset gen nonce new_nonce = Some tt) /\
  (forall rights subset gen nonce new_nonce,
     no_delegate_right_produces_no_delegation rights subset gen nonce new_nonce = Some tt).
Proof using LL BL.
  split; [|split; [|split]].
  - intros c a. unfold failed_deduction_leaves_balance_unchanged, default_ledger. cbn [NonZeroU32_new Z.eqb mbind option_bind].
    destruct (seeded 1 c) as (l & -> & Hb). cbn. rewrite Hb. cbn.
    destruct (decide (affordable l 1 a)) as [(b & Hb' & Hle)|Hn].
    + by destruct (deduct_Some l 1 a b Hb' Hle) as (l' & -> & _).
    + rewrite deduct_unaffordable by done. rewrite Hb. cbn. by rewrite Z.eqb_refl.
  - intros c a. unfold successful_deduction_is_exact, default_ledger. destruct (Z.leb_spec a c) as [Hle|]; [|done].
    cbn. destruct (seeded 1 c) as (l & -> & Hb). cbn. rewrite Hb. cbn.
    destruct (deduct_Some l 1 a c Hb Hle) as (l' & -> & _). rewrite bool_decide_true by by eexists.
    cbn. rewrite (proj2 (checked_sub_u64_spec c a (c - a))) by done. cbn. by rewrite Z.eqb_refl.
  - intros r s g n n'. unfold delegate_never_amplifies_rights, delegate. cbn.
    destruct (contains _ DELEGATE); [|done]. cbn. by destruct (contains (from_bits_truncate r) _) eqn:E; cbn; rewrite ?E.
  - intros r s g n n'. unfold no_delegate_right_produces_no_delegation, delegate. cbn.
    rewrite difference_lacks by apply truncate_range. done.
Qed.

(** The fuzz targets find nothing: on any sixteen bytes the ledger target runs to its end
    with every assertion true, and on any input at all the manifest target's decoder
    returns a manifest or [ManifestInvalid]. *)
Theorem fuzz_targets_hold :
  (forall data, length data = 16%nat -> ledger_arithmetic data = Some tt) /\
  (forall data, match manifest_decode data with
                | Ok m => manifest_ok m
                | Err e => exists detail, e = ManifestInvalid detail
                end).
Proof using HL LL DL EL.
  split.
  - intros data Hd. unfold ledger_arithmetic, slice8.
    rewrite !decide_True by (rewrite length_take, length_drop; lia). cbn [mbind option_bind].
    generalize (from_le_bytes (take 8 (drop 0 data))). generalize (from_le_bytes (take 8 (drop 8 data))).
    intros a c. change (NonZeroU32_new 1) with (Some 1). cbn [mbind option_bind].
    destruct (seeded 1 c) as (l & -> & Hb). cbn [unwrap mbind option_bind].
    destruct (decide (affordable l 1 a)) as [(b & Hb' & Hle)|Hn]; [|by rewrite deduct_unaffordable].
    assert (b = c) as -> by congruence. destruct (deduct_Some l 1 a c Hb Hle) as (l' & -> & _). cbn [snd].
    rewrite (proj2 (Z.leb_le _ _)) by done. rewrite (proj2 (checked_sub_u64_spec c a (c - a))) by done.
    cbn. by rewrite Z.eqb_refl.
  - intros data. unfold manifest_decode. destruct (Manifest.decode data _) as [m|e] eqn:Hd.
    + unfold Manifest.decode in Hd. case_decide; [done|]. apply bind_Ok in Hd as ([] & _ & Hp). by eapply parse_cbor_ok.
    + revert Hd. unfold Manifest.decode. case_decide; [apply manifest_error_Err|]. apply manifest_error_bind.
      * intros e' He. by eapply (hsm_verify_error (from_signing_key (replicate 32 42))).
      * intros _. apply parse_cbor_error.
Qed.

End facts.

(** ** Unit tests of the topology graph *)

Section topology_tests.
Context `{HV : HVec} `{SH : Sha256}.
#[local] Abbreviation graph_new := Topology.new.
#[local] Abbreviation seal := Topology.seal.

(** [g.activate(nz(n))], [g.permit_edge(nz(s), nz(d))] with [unwrap], and without. *)
Definition activate_nz (g : BootingGraph) (n : Z) : option (BootingGraph * Result unit) :=
  n ← nz n; Some (activate g n).
Definition permit_nz (g : BootingGraph) (s d : Z) : option (BootingGraph * Result unit) :=
  s ← nz s; d ← nz d; Some (permit_edge g s d).
Definition activate_unwrap (g : BootingGraph) (n : Z) : option BootingGraph :=
  r ← activate_nz g n; fst <$> unwrap r.
Definition permit_unwrap (g : BootingGraph) (s d : Z) : option BootingGraph :=
  r ← permit_nz g s d; fst <$> unwrap r.
(** [op.traverse(nz(s), nz(d), &mut AuditLog::new())]. *)
Definition traverse_nz (op : OperationalGraph) (s d : Z) : option (Result unit) :=
  s ← nz s; d ← nz d; Some (traverse op s d AuditLog.new).2.
Definition active_nz (op : OperationalGraph) (n : Z) : option bool := n ← nz n; Some (is_active op n).

(** [matches!(r, Err(Error::TopologyViolation { src, .. }))] and the like. *)
Definition violation (r : Result unit) : bool :=
  match r with Err (TopologyViolation _ _) => true | _ => false end.
Definition violation_src (src : Z) (r : Result unit) : bool :=
  match r with Err (TopologyViolation s _) => s =? src | _ => false end.
Definition violation_edge (src dst : Z) (r : Result unit) : bool :=
  match r with Err (TopologyViolation s d) => (s =? src) && (d =? dst) | _ => false end.

(** [1u32..=n]. *)
Definition one_to (n : Z) : list Z := seqZ 1 n.
Definition max_nodes : Z := Z.of_nat MAX_NODES.

Definition single_edge (src dst : Z) : option OperationalGraph :=
  g ← activate_unwrap graph_new src;
  g ← activate_unwrap g dst;
  g ← permit_unwrap g src dst;
  Some (seal g).

Definition activate_node_id_1_is_valid : option unit :=
  '(_, r) ← activate_nz graph_new 1; assert_ (is_ok r).

Definition activate_node_id_64_is_valid : option unit :=
  '(_, r) ← activate_nz graph_new 64; assert_ (is_ok r).

Definition activate_node_id_65_is_denied : option unit :=
  '(_, r) ← activate_nz graph_new 65; assert_ (violation_src 65 r).

Definition activate_max_nonzero_u32_is_denied : option unit :=
  '(_, r) ← activate_nz graph_new U32_MAX; assert_ (violation_src U32_MAX r).

Definition activated_node_is_active_after_seal : option unit :=
  g ← activate_unwrap graph_new 5;
  a ← active_nz (seal g) 5;
  assert_ a.

Definition unactivated_node_is_not_active_after_seal : option unit :=
  a ← active_nz (seal graph_new) 1; assert_ (negb a).

Definition activate_is_idempotent : option unit :=
  '(g, r) ← activate_nz graph_new 7;
  _ ← assert_ (is_ok r);
  '(g, r) ← activate_nz g 7;
  _ ← assert_ (is_ok r);
  a ← active_nz (seal g) 7;
  assert_ a.

Definition all_64_nodes_can_be_activated : option unit :=
  g ← for_in (one_to max_nodes) (fun g i => '(g, r) ← activate_nz g i; _ ← assert_ (is_ok r); Some g) graph_new;
  let op := seal g in
  for_in (one_to max_nodes) (fun _ i => a ← active_nz op i; assert_ a) tt.

Definition permit_edge_between_two_active_nodes_ok : option unit :=
  g ← activate_unwrap graph_new 1;
  g ← activate_unwrap g 2;
  '(_, r) ← permit_nz g 1 2;
  assert_ (is_ok r).

Definition permit_edge_from_inactive_src_is_denied : option unit :=
  g ← activate_unwrap graph_new 2;
  '(_, r) ← permit_nz g 1 2;
  assert_ (violation r).

Definition permit_edge_to_inactive_dst_is_denied : option unit :=
  g ← activate_unwrap graph_new 1;
  '(_, r) ← permit_nz g 1 2;
  assert_ (violation r).

Definition permit_edge_both_endpoints_inactive_is_denied : option unit :=
  '(_, r) ← permit_nz graph_new 1 2; assert_ (violation r).

Definition permit_edge_src_out_of_range_is_denied : option unit :=
  g ← activate_unwrap graph_new 1;
  '(_, r) ← permit_nz g 65 1;
  assert_ (violation_src 65 r).

Definition permit_edge_dst_out_of_range_is_denied : option unit :=
  g ← activate_unwrap graph_new 1;
  '(_, r) ← permit_nz g 1 65;
  assert_ (violation r).

Definition permit_edge_is_idempotent : option unit :=
  g ← activate_unwrap graph_new 3;
  g ← activate_unwrap g 4;
  g ← permit_unwrap g 3 4;
  '(_, r) ← permit_nz g 3 4;
  assert_ (is_ok r).

Definition permit_self_loop_on_active_node_ok : option unit :=
  g ← activate_unwrap graph_new 5;
  '(_, r) ← permit_nz g 5 5;
  assert_ (is_ok r).

Definition empty_booting_graph_seals_successfully : option unit :=
  let _ := seal graph_new in Some tt.

Definition default_booting_graph_equals_new : option unit :=
  let op_new := seal graph_new in
  let op_def := seal default_graph in
  for_in (one_to max_nodes) (fun _ i => a ← active_nz op_new i; b ← active_nz op_def i; assert_eq a b) tt.

Definition traverse_declared_active_edge_is_permitted : option unit :=
  op ← single_edge 1 2;
  r ← traverse_nz op 1 2;
  assert_ (is_ok r).

Definition traverse_inactive_src_is_denied : option unit :=
  g ← activate_unwrap graph_new 2;
  let op := seal g in
  r ← traverse_nz op 1 2;
  assert_ (violation_edge 1 2 r).

Definition traverse_inactive_dst_is_denied : option unit :=
  g ← activate_unwrap graph_new 1;
  let op := seal g in
  r ← traverse_nz op 1 2;
  assert_ (violation_edge 1 2 r).

Definition traverse_both_nodes_inactive_is_denied : option unit :=
  let op := seal graph_new in
  r ← traverse_nz op 1 2;
  assert_ (violation_edge 1 2 r).

Definition traverse_undeclared_edge_denied_even_if_both_active : option unit :=
  g ← activate_unwrap graph_new 10;
  g ← activate_unwrap g 20;
  let op := seal g in
  r ← traverse_nz op 10 20;
  assert_ (violation_edge 10 20 r).

Definition traverse_reverse_of_declared_edge_is_denied : option unit :=
  op ← single_edge 1 2;
  r ← traverse_nz op 1 2;
  _ ← assert_ (is_ok r);
  r ← traverse_nz op 2 1;
  assert_ (violation_edge 2 1 r).

Definition traverse_src_out_of_range_is_denied : option unit :=
  let op := seal graph_new in
  r ← traverse_nz op 65 1;
  assert_ (violation_src 65 r).

Definition traverse_dst_out_of_range_is_denied : option unit :=
  let op := seal graph_new in
  r ← traverse_nz op 1 65;
  assert_ (violation r).

Definition traverse_self_loop_permitted_when_declared : option unit :=
  g ← activate_unwrap graph_new 7;
  g ← permit_unwrap g 7 7;
  let op := seal g in
  r ← traverse_nz op 7 7;
  assert_ (is_ok r).

Definition traverse_self_loop_denied_when_not_declared : option unit :=
  g ← activate_unwrap graph_new 7;
  let op := seal g in
  r ← traverse_nz op 7 7;
  assert_ (violation_edge 7 7 r).

Definition traverse_empty_sealed_graph_denies_all : option unit :=
  let op := seal graph_new in
  for_in (one_to 5) (fun _ i =>
    for_in (one_to 5) (fun _ j => r ← traverse_nz op i j; assert_ (negb (is_ok r))) tt) tt.

Definition traverse_only_declared_edges_pass_among_active_nodes : option unit :=
  g ← for_in (one_to 4) activate_unwrap graph_new;
  g ← permit_unwrap g 1 2;
  g ← permit_unwrap g 3 4;
  let op := seal g in
  r ← traverse_nz op 1 2;
  _ ← assert_ (is_ok r);
  r ← traverse_nz op 3 4;
  _ ← assert_ (is_ok r);
  for_in [(1, 3); (1, 4); (2, 1); (2, 3); (2, 4); (3, 1); (3, 2); (4, 1); (4, 2); (4, 3)]
    (fun _ '(s, d) => r ← traverse_nz op s d; assert_ (negb (is_ok r))) tt.

Definition traverse_error_fields_carry_exact_src_and_dst : option unit :=
  let op := seal graph_new in
  r ← traverse_nz op 11 22;
  err ← err_of r;
  assert_eq err (TopologyViolation 11 22).

Definition is_active_true_for_activated_node : option unit :=
  g ← activate_unwrap graph_new 42;
  a ← active_nz (seal g) 42;
  assert_ a.

Definition is_active_false_for_unactivated_node : option unit :=
  a ← active_nz (seal graph_new) 1; assert_ (negb a).

Definition is_active_false_for_out_of_range_nodes : option unit :=
  let op := seal graph_new in
  a ← active_nz op 65;
  _ ← assert_ (negb a);
  a ← active_nz op U32_MAX;
  assert_ (negb a).

Definition is_active_at_node_64_boundary : option unit :=
  g ← activate_unwrap graph_new 64;
  let op := seal g in
  a ← active_nz op 64;
  _ ← assert_ a;
  a ← active_nz op 63;
  assert_ (negb a).

Definition fully_populated_graph_only_permits_declared_edges : option unit :=
  g ← for_in (one_to max_nodes) activate_unwrap graph_new;
  g ← permit_unwrap g 1 2;
  g ← permit_unwrap g 2 3;
  g ← permit_unwrap g 3 4;
  g ← permit_unwrap g 4 1;
  let op := seal g in
  _ ← for_in [(1, 2); (2, 3); (3, 4); (4, 1)] (fun _ '(s, d) => r ← traverse_nz op s d; assert_ (is_ok r)) tt;
  for_in [(1, 3); (2, 4); (5, 1)] (fun _ '(s, d) => r ← traverse_nz op s d; assert_ (negb (is_ok r))) tt.

Definition sealed_graph_captures_state_at_seal_time : option unit :=
  g ← activate_unwrap graph_new 1;
  g ← activate_unwrap g 2;
  g ← permit_unwrap g 1 2;
  let op := seal g in
  a ← active_nz op 1;
  _ ← assert_ a;
  a ← active_nz op 2;
  _ ← assert_ a;
  a ← active_nz op 3;
  _ ← assert_ (negb a);
  r ← traverse_nz op 1 2;
  assert_ (is_ok r).

Definition topology_tests : list (option unit) :=
  [activate_node_id_1_is_valid;
   activate_node_id_64_is_valid;
   activate_node_id_65_is_denied;
   activate_max_nonzero_u32_is_denied;
   activated_node_is_active_after_seal;
   unactivated_node_is_not_active_after_seal;
   activate_is_idempotent;
   all_64_nodes_can_be_activated;
   permit_edge_between_two_active_nodes_ok;
   permit_edge_from_inactive_src_is_denied;
   permit_edge_to_inactive_dst_is_denied;
   permit_edge_both_endpoints_inactive_is_denied;
   permit_edge_src_out_of_range_is_denied;
   permit_edge_dst_out_of_range_is_denied;
   permit_edge_is_idempotent;
   permit_self_loop_on_active_node_ok;
   empty_booting_graph_seals_successfully;
   default_booting_graph_equals_new;
   traverse_declared_active_edge_is_permitted;
   traverse_inactive_src_is_denied;
   traverse_inactive_dst_is_denied;
   traverse_both_nodes_inactive_is_denied;
   traverse_undeclared_edge_denied_even_if_both_active;
   traverse_reverse_of_declared_edge_is_denied;
   traverse_src_out_of_range_is_denied;
   traverse_dst_out_of_range_is_denied;
   traverse_self_loop_permitted_when_declared;
   traverse_self_loop_denied_when_not_declared;
   traverse_empty_sealed_graph_denies_all;
   traverse_only_declared_edges_pass_among_active_nodes;
   traverse_error_fields_carry_exact_src_and_dst;
   is_active_true_for_activated_node;
   is_active_false_for_unactivated_node;
   is_active_false_for_out_of_range_nodes;
   is_active_at_node_64_boundary;
   fully_populated_graph_only_permits_declared_edges;
   sealed_graph_captures_state_at_seal_time].

(** A fresh log has room, so the gate reports the decision of the graph. *)
Lemma traverse_nz_inner `{HL : !HVecLaws} op s d :
  traverse_nz op s d = s ← nz s; d ← nz d; Some (traverse_inner op s d).
Proof using Type.
  unfold traverse_nz. destruct (nz s) as [s'|]; [|done]. destruct (nz d) as [d'|]; [|done]. cbn [mbind option_bind].
  rewrite traverse_unfold. assert (is_full AuditLog.new = false) as ->; [|by destruct (traverse_inner op s' d') as [[]|]].
  apply bool_decide_eq_false. unfold hv_len. cbn. rewrite hv_slice_new. apply Nat.lt_nge, Nat.ltb_lt. reflexivity.
Qed.

Ltac run_test := lazy -[traverse_nz]; rewrite ?traverse_nz_inner; vm_compute; reflexivity.

Theorem topology_tests_pass `{HL : !HVecLaws} : Forall (fun t => t = Some tt) topology_tests.
Proof using Type. unfold topology_tests. rewrite !Forall_cons, Forall_nil. repeat split; run_test. Qed.

End topology_tests.

(** ** Unit tests of the resource ledger *)

Section ledger_tests.
Context `{LM : LinearMap}.

(** [ledger.seed(nz(n), Quota::new(c)).expect(..)]. *)
Definition seed_expect (l : Ledger) (n c : Z) : option Ledger :=
  n ← nz n; fst <$> unwrap (Ledger.seed l n (Quota_new c)).

Definition seed_duplicate_node_is_rejected : option unit :=
  node ← nz 1;
  ledger ← seed_expect Ledger.new 1 100;
  let '(ledger, r) := Ledger.seed ledger node (Quota_new 200) in
  _ ← assert_ (bool_decide (r = Err (ManifestInvalid "duplicate node quota in manifest")));
  assert_eq (balance ledger node) (Some 100).

Definition seed_distinct_nodes_succeeds : option unit :=
  ledger ← seed_expect Ledger.new 1 100;
  ledger ← seed_expect ledger 2 200;
  n1 ← nz 1; n2 ← nz 2;
  _ ← assert_eq (balance ledger n1) (Some 100);
  assert_eq (balance ledger n2) (Some 200).

Definition deduct_within_balance_succeeds : option unit :=
  node ← nz 1;
  ledger ← seed_expect default_ledger 1 100;
  let '(ledger, r) := deduct ledger node 40 in
  _ ← assert_eq r (Some 60);
  assert_eq (balance ledger node) (Some 60).

Definition seed_beyond_max_nodes_is_rejected : option unit :=
  let max_nodes := Z.of_nat MAX_NODES in
  ledger ← for_in (one_to max_nodes) (fun ledger n => seed_expect ledger n n) Ledger.new;
  overflow_node ← nz (max_nodes + 1);
  let '(ledger, r) := Ledger.seed ledger overflow_node (Quota_new 1) in
  _ ← assert_ (bool_decide (r = Err (ManifestInvalid "ledger node capacity exceeded (MAX_NODES)")));
  assert_eq (balance ledger overflow_node) None.

Definition ledger_tests : list (option unit) :=
  [seed_duplicate_node_is_rejected; seed_distinct_nodes_succeeds; deduct_within_balance_succeeds;
   seed_beyond_max_nodes_is_rejected].

End ledger_tests.

(** ** Unit tests of the reservation ledger *)

Section reservation_tests.
Context `{HV : HVec}.

(** [ReservationTtl::new(ticks).expect(..)]. *)
Definition ttl (ticks : Z) : option ReservationTtl := ttl_new ticks.

(** [ledger.reserve(nz(node), action, Generation(1), nonce, ttl(10), 0).unwrap()], the call
    all tests make. *)
Definition reserve_1 (l : ReservationLedger) (node : Z) (action : CapabilitySet) (nonce : Z)
    : option (ReservationLedger * ReservationId) :=
  node ← nz node; t ← ttl 10; unwrap (reserve l node action 1 nonce t 0).

Definition reservation_denied {A} (r : Result A) : bool :=
  match r with Err (ReservationDenied _) => true | _ => false end.

Definition ttl_rejects_zero_and_out_of_bounds : option unit :=
  _ ← assert_ (bool_decide (ttl_new 0 = None));
  _ ← assert_ (bool_decide (is_Some (ttl_new MAX_RESERVATION_TTL)));
  assert_ (bool_decide (ttl_new (MAX_RESERVATION_TTL + 1) = None)).

Definition reserve_then_grant_succeeds_within_ttl : option unit :=
  '(ledger, id) ← reserve_1 Reservation.new 1 ALLOC_RESOURCE 42;
  g ← unwrap_res (grant ledger id 5);
  _ ← assert_eq (grant_reservation_id g) id;
  _ ← assert_eq (grant_action g) ALLOC_RESOURCE;
  assert_eq (grant_generation g) 1.

Definition grant_after_ttl_elapsed_is_denied : option unit :=
  '(ledger, id) ← reserve_1 Reservation.new 1 ALLOC_RESOURCE 42;
  _ ← assert_ (reservation_denied (grant ledger id 10));
  assert_eq (effective_status ledger id 10) (Some Expired).

Definition revoke_then_grant_is_denied : option unit :=
  '(ledger, id) ← reserve_1 Reservation.new 1 ALLOC_RESOURCE 42;
  let '(ledger, b) := revoke ledger id in
  _ ← assert_ b;
  let '(ledger, b) := revoke ledger id in
  _ ← assert_ (negb b);
  assert_ (reservation_denied (grant ledger id 1)).

Definition cascade_revocation_invalidates_all_derived_reservations : option unit :=
  let origin_nonce := 7 in
  '(ledger, a) ← reserve_1 Reservation.new 1 ALLOC_RESOURCE origin_nonce;
  '(ledger, b) ← reserve_1 ledger 1 SCHEDULE origin_nonce;
  '(ledger, unrelated) ← reserve_1 ledger 2 SCHEDULE 999;
  let '(ledger, revoked_count) := revoke_by_origin_nonce ledger origin_nonce in
  _ ← assert_eq revoked_count 2;
  _ ← assert_ (reservation_denied (grant ledger a 1));
  _ ← assert_ (reservation_denied (grant ledger b 1));
  assert_ (is_ok (grant ledger unrelated 1)).

Definition consume_is_one_shot : option unit :=
  '(ledger, id) ← reserve_1 Reservation.new 1 ALLOC_RESOURCE 42;
  '(ledger, _) ← unwrap (consume ledger id 1);
  let '(ledger, r) := consume ledger id 1 in
  _ ← assert_ (reservation_denied r);
  assert_ (reservation_denied (grant ledger id 1)).

Definition reserve_denies_at_capacity : option unit :=
  ledger ← for_in (seqZ 0 (Z.of_nat MAX_RESERVATIONS))
             (fun ledger i => fst <$> reserve_1 ledger 1 SCHEDULE i) Reservation.new;
  node ← nz 1;
  t ← ttl 10;
  let '(ledger, r) := reserve ledger node SCHEDULE 1 9999 t 0 in
  _ ← assert_ (reservation_denied r);
  assert_eq (Reservation.len ledger) MAX_RESERVATIONS.

Definition clear_empties_the_ledger : option unit :=
  '(ledger, _) ← reserve_1 Reservation.new 1 SCHEDULE 1;
  _ ← assert_ (negb (Reservation.is_empty ledger));
  let ledger := clear ledger in
  assert_ (Reservation.is_empty ledger).

Definition reservation_tests : list (option unit) :=
  [ttl_rejects_zero_and_out_of_bounds; reserve_then_grant_succeeds_within_ttl;
   grant_after_ttl_elapsed_is_denied; revoke_then_grant_is_denied;
   cascade_revocation_invalidates_all_derived_reservations; consume_is_one_shot;
   reserve_denies_at_capacity; clear_empties_the_ledger].

End reservation_tests.

(** ** Runs and witnesses *)

Module Witness.
#[local] Existing Instance ListModel.list_hvec.
#[local] Existing Instance ListModel.list_hvec_laws.
#[local] Existing Instance ListModel.list_lmap.
#[local] Existing Instance ListModel.list_lmap_laws.
#[local] Existing Instance ListModel.bits_model.
#[local] Existing Instance ListModel.bits_model_laws.
#[local] Existing Instance ByteModel.list_decoder.
#[local] Existing Instance ByteModel.list_decoder_laws.
#[local] Existing Instance ByteModel.toy_sha.
#[local] Existing Instance ByteModel.toy_ed.
#[local] Existing Instance ByteModel.toy_ed_laws.

Example ledger_tests_pass : ledger_tests = replicate 4 (Some tt).
Proof. vm_compute. reflexivity. Qed.

Example reservation_tests_pass : reservation_tests = replicate 8 (Some tt).
Proof. vm_compute. reflexivity. Qed.

Lemma kani_harnesses_hold_witness : successful_deduction_is_exact 100 40 = Some tt.
Proof. exact (proj1 (proj2 kani_harnesses_hold) 100 40). Defined.

Lemma fuzz_targets_hold_witness : ledger_arithmetic (replicate 16 255) = Some tt.
Proof. exact (proj1 fuzz_targets_hold (replicate 16 255) eq_refl). Defined.

End Witness.
