(* ===== verification/Lifecycle.v ===== *)
(** * The end-to-end example program

    Models [examples/boot_and_delegate.rs]: sign a manifest, boot from it, mint a root
    token, delegate, pass the gate, revoke, and be denied.  The program panics ([None]) at
    the first step that does not go as it expects; what it prints is its result.

    [lifecycle_completes] composes the theorems of the boot sequence, the tokens, the
    policy and the audit log: whatever the crates underneath do within their laws, the
    program runs to its end and prints what its comments promise. *)
From S2P Require Import Prelude Heapless Crypto Types AuditLog Capability Revocation Policy.
From S2P Require Import Ledger Topology Hsm Tpm Manifest Boot Harness.
From stdpp Require Import base tactics list numbers option strings.
Open Scope Z_scope.

(** ** Definitions *)

Section program.
Context `{HV : HVec} `{IS : IndexSet} `{LM : LinearMap} `{SH : Sha256} `{BF : Bitflags} `{DE : Decoder} `{ED : Ed25519}.

Definition payload : bytes :=
  [0x83; 0x01; 0x81; 0x82; 0x01; 0x02; 0x81; 0x82; 0x01; 0x1a; 0x00; 0x0f; 0x42; 0x40].

Definition build_signed_manifest (sk : signing_key) : bytes :=
  let sig := sk_sign sk payload in sig ++ payload.

(** The values the program prints. *)
Record printed := mkPrinted {
  pr_quote_null : bool;
  pr_denial : string;
  pr_chain_valid : bool;
  pr_events : nat;
}.

(** [boot_state.policy_mut().check(&cap, right, &mut audit)]. *)
Definition check_booted (st : BootState) (cap : Capability) (right : CapabilitySet) (audit : AuditLog)
    : BootState * (AuditLog * Result unit) :=
  policy_mut st (fun p => let '(p, audit, r) := check p cap right audit in (p, (audit, r))).

Definition main : option printed :=
  let seed := replicate 32 0xAB in
  let signing_key := sk_from_bytes seed in
  let wire := build_signed_manifest signing_key in
  creds ← unwrap_res (from_key_bytes (vk_to_bytes (sk_verifying_key signing_key)));
  boot_state ← unwrap_res (initialise wire creds);
  let quote_null := is_null (attestation_quote boot_state) in
  node1 ← NonZeroU32_new 1;
  node2 ← NonZeroU32_new 2;
  let root_cap := new_for_test node1 node1 (bf_union (bf_union SCHEDULE DELEGATE) READ_TOPOLOGY) 0 1 in
  delegated ← delegate root_cap node2 SCHEDULE 42;
  let audit := AuditLog.new in
  let '(boot_state, (audit, result)) := check_booted boot_state delegated SCHEDULE audit in
  _ ← unwrap_res result;
  let '(boot_state, revoked) := policy_mut boot_state (fun p => revoke_capability p 42) in
  _ ← assert_ revoked;
  let revoked_cap := new_for_test node1 node2 SCHEDULE 0 42 in
  let audit2 := AuditLog.new in
  let '(boot_state, (audit2, denied)) := check_booted boot_state revoked_cap SCHEDULE audit2 in
  match denied with
  | Err (CapabilityDenied reason) =>
      Some {| pr_quote_null := quote_null; pr_denial := reason;
              pr_chain_valid := verify_chain audit; pr_events := AuditLog.len audit |}
  | _ => None
  end.

End program.

(** ** Facts *)

Section facts.
Context `{HV : HVec} `{IS : IndexSet} `{LM : LinearMap} `{SH : Sha256} `{BF : Bitflags} `{DE : Decoder} `{ED : Ed25519}.
Context `{HL : !HVecLaws} `{IL : !IndexSetLaws} `{LL : !LinearMapLaws} `{BL : !BitflagsLaws}.
Context `{DL : !DecoderLaws} `{EL : !Ed25519Laws}.

Definition edges : list EdgeDecl := [mkEdge 1 2].
Definition quotas : list QuotaDecl := [mkQuotaDecl 1 (Quota_new 1000000)].

(** The hand-written bytes are the documented encoding. *)
Lemma payload_encodes : payload = encode_payload 1 edges quotas.
Proof. vm_compute. reflexivity. Qed.

(** A verify-only provider accepts what the matching key signed. *)
Lemma key_creds sk : exists creds, from_key_bytes (vk_to_bytes (sk_verifying_key sk)) = Ok creds /\
  forall m, creds_verify creds m (sk_sign sk m) = Ok tt.
Proof using EL.
  unfold from_key_bytes, from_verifying_key. rewrite ed_vk_roundtrip. cbn. eexists. split; [done|].
  intros m. unfold creds_verify. cbn. unfold verify_strict_or. by rewrite ed_sign_verify.
Qed.

Lemma manifest_decodes sk (creds : BootCredentials SoftwareHsm) :
  (forall m, creds_verify creds m (sk_sign sk m) = Ok tt) ->
  exists m, Manifest.decode (build_signed_manifest sk) creds = Ok m /\
    hv_slice (m_edges m) = edges /\ hv_slice (m_quotas m) = quotas.
Proof using HL DL EL.
  intros Hv. destruct (parse_cbor_encode 1 edges quotas []) as (m & Hp & He & Hq & _).
  { ground. } { repeat constructor; ground. } { apply Nat.leb_le. reflexivity. }
  { repeat constructor; ground. } { apply Nat.leb_le. reflexivity. }
  rewrite app_nil_r, <- payload_encodes in Hp. exists m. split; [|done].
  unfold Manifest.decode, build_signed_manifest. rewrite decide_False.
  - rewrite take_app_length', drop_app_length' by (symmetry; apply ed_sign_length). rewrite Hv. exact Hp.
  - rewrite length_app, ed_sign_length. change (length payload) with 14%nat. unfold MIN_WIRE_LEN. lia.
Qed.

Lemma manifest_boots sk (creds : BootCredentials SoftwareHsm) :
  (forall m, creds_verify creds m (sk_sign sk m) = Ok tt) ->
  exists st, initialise (build_signed_manifest sk) creds = Ok st /\
    bs_policy st = Policy.new 0 /\ is_null (attestation_quote st) = true.
Proof using HL LL DL EL.
  intros (m & Hd & He & Hq)%manifest_decodes.
  destruct (seed_state_ok _ _ _ Hd) as (g & l & Hs & _).
  { unfold bootable. rewrite He, Hq. split; [|apply NoDup_singleton].
    apply Forall_singleton. vm_compute. repeat split; discriminate. }
  unfold initialise, initialise_with_tpm. rewrite Hs. cbn. eexists. split; [done|]. split; [done|].
  unfold is_null, attestation_quote. cbn. by apply bool_decide_eq_true.
Qed.

(** The root token holds [SCHEDULE] and [DELEGATE]. *)
Lemma root_delegates n : exists c,
  delegate (new_for_test 1 1 (bf_union (bf_union SCHEDULE DELEGATE) READ_TOPOLOGY) 0 1) n SCHEDULE 42 = Some c /\
  c = new_for_test 1 n SCHEDULE 0 42.
Proof using BL.
  rewrite (bf_union_spec SCHEDULE DELEGATE) by (unfold SCHEDULE, DELEGATE; lia).
  change (Z.lor SCHEDULE DELEGATE) with 12. rewrite bf_union_spec by (unfold READ_TOPOLOGY; lia).
  change (Z.lor 12 READ_TOPOLOGY) with 13. eexists. split; [|done].
  apply delegate_Some; [ground|ground|].
  assert (forall s, 0 <= s -> Z.land s 13 = s -> rights_subset s 13) as Hsub.
  { intros s _ Hs i Hi Hb. rewrite <- Hs, Z.land_spec in Hb. by apply andb_true_iff in Hb as [_ ?]. }
  split; [by apply Hsub|]. split; [by apply Hsub|done].
Qed.

Lemma token_admissible : admissible (Policy.new 0) (new_for_test 1 2 SCHEDULE 0 42) SCHEDULE.
Proof using HL IL BL.
  split; [|split; [|split]].
  - apply authorises_true; [ground|ground|]. by split; [|intros i].
  - apply is_revoked_new.
  - unfold spent. cbn. rewrite hv_slice_new. apply not_elem_of_nil.
  - unfold window_full, hv_len. cbn. rewrite hv_slice_new. apply Nat.lt_nge, Nat.ltb_lt. reflexivity.
Qed.

Lemma new_not_full : is_full AuditLog.new = false.
Proof using HL.
  apply bool_decide_eq_false. unfold hv_len. cbn. rewrite hv_slice_new. apply Nat.lt_nge, Nat.ltb_lt. reflexivity.
Qed.

Lemma first_event :
  let log := (AuditLog.append AuditLog.new CapabilityCheck 2 UNTIMED None).1 in
  verify_chain log = true /\ AuditLog.len log = 1%nat.
Proof using HL.
  assert (log_reachable (AuditLog.append AuditLog.new CapabilityCheck 2 UNTIMED None).1) as Hre.
  { apply reach_append; [apply reach_new|ground|ground]. }
  destruct (append_room AuditLog.new CapabilityCheck 2 UNTIMED None new_not_full) as (log & Ha & He & _).
  rewrite Ha in *. cbn [fst] in *. split; [apply (lwf_chain _ (reachable_wf _ Hre))|].
  unfold AuditLog.len, hv_len. fold (events log). rewrite He, length_app. unfold events. cbn [AuditLog.new al_events].
  by rewrite hv_slice_new.
Qed.

(** The three calls on the booted policy. *)
Lemma check_permits st : bs_policy st = Policy.new 0 ->
  exists st' audit, check_booted st (new_for_test 1 2 SCHEDULE 0 42) SCHEDULE AuditLog.new = (st', (audit, Ok tt)) /\
    revocation (bs_policy st') = Revocation.new /\ current_generation (bs_policy st') = 0 /\
    verify_chain audit = true /\ AuditLog.len audit = 1%nat.
Proof using HL IL BL.
  intros Hp. unfold check_booted, policy_mut. rewrite Hp, check_unfold, new_not_full. cbn [andb].
  destruct (check_inner_Ok _ _ _ token_admissible) as (p1 & Hc & Hg & Hr & _).
  unfold check_denial. rewrite Hc. cbn [snd fst denial_of err_of fmap option_fmap option_map].
  destruct first_event as [Hchain Hlen].
  eexists _, _. split; [reflexivity|]. split; [exact Hr|]. split; [exact Hg|]. split; [exact Hchain|exact Hlen].
Qed.

Lemma revoke_booted st : revocation (bs_policy st) = Revocation.new ->
  exists st', policy_mut st (fun p => revoke_capability p 42) = (st', true) /\
    Policy.is_revoked (bs_policy st') 42 = true /\
    current_generation (bs_policy st') = current_generation (bs_policy st).
Proof using IL.
  intros Hr. unfold policy_mut, revoke_capability. rewrite Hr. pose proof (revoke_cases Revocation.new 42) as H.
  destruct (Revocation.revoke Revocation.new 42) as [r []]; destruct H as [Hf Ht].
  - eexists. split; [done|]. split; [|done]. unfold Policy.is_revoked. cbn. by rewrite (proj1 (Ht eq_refl)).
  - destruct (Hf eq_refl) as (_ & _ & Hl). cbn in Hl. rewrite is_len_new in Hl. exfalso. revert Hl.
    apply Nat.lt_nge, Nat.ltb_lt. reflexivity.
Qed.

Lemma check_denies st : current_generation (bs_policy st) = 0 -> Policy.is_revoked (bs_policy st) 42 = true ->
  exists st' audit, check_booted st (new_for_test 1 2 SCHEDULE 0 42) SCHEDULE AuditLog.new =
    (st', (audit, Err (CapabilityDenied "capability revoked"))).
Proof using HL IL BL.
  intros Hg Hr. unfold check_booted, policy_mut. rewrite check_unfold.
  assert (check_inner (bs_policy st) (new_for_test 1 2 SCHEDULE 0 42) SCHEDULE = (bs_policy st, Err err_revoked)) as ->.
  { unfold check_inner. rewrite Hg. change 0 with (current_generation (Policy.new 0)) at 2.
    rewrite (proj1 token_admissible). cbn. unfold Policy.is_revoked in Hr. by rewrite Hr. }
  cbn [snd fst is_ok]. rewrite andb_false_r. eexists _, _. done.
Qed.

(** C20: The life of a token, end to end.  With any lawful vectors, maps, hash, signature
    scheme and CBOR decoder, the example program never panics: the signed manifest boots
    with a null quote, the delegated token passes the gate once, its nonce is revoked, the
    same token is then denied as revoked, and the audit chain of the permitted check is
    valid and holds exactly that event. *)
Theorem lifecycle_completes :
  main = Some {| pr_quote_null := true; pr_denial := "capability revoked"; pr_chain_valid := true; pr_events := 1 |}.
Proof using HL IL LL BL DL EL.
  unfold main. destruct (key_creds (sk_from_bytes (replicate 32 171))) as (creds & -> & Hv).
  cbn [unwrap_res mbind option_bind]. destruct (manifest_boots _ creds Hv) as (st & -> & Hp & Hq).
  cbn [unwrap_res mbind option_bind]. rewrite Hq. change (NonZeroU32_new 1) with (Some 1).
  change (NonZeroU32_new 2) with (Some 2). cbn [mbind option_bind].
  destruct (root_delegates 2) as (c & -> & ->). cbn [mbind option_bind].
  destruct (check_permits st Hp) as (st1 & audit & -> & Hr1 & Hg1 & Hlog). cbn [unwrap_res mbind option_bind].
  destruct (revoke_booted st1) as (st2 & -> & Hr2 & Hg2); [exact Hr1|]. cbn [assert_ mbind option_bind].
  destruct (check_denies st2) as (st3 & audit2 & ->); [congruence|exact Hr2|].
  destruct Hlog as [-> ->]. reflexivity.
Qed.

End facts.

(** ** Witness *)

Module Witness.
#[local] Existing Instance ListModel.list_hvec.
#[local] Existing Instance ListModel.list_hvec_laws.
#[local] Existing Instance ListModel.list_iset.
#[local] Existing Instance ListModel.list_iset_laws.
#[local] Existing Instance ListModel.list_lmap.
#[local] Existing Instance ListModel.list_lmap_laws.
#[local] Existing Instance ListModel.bits_model.
#[local] Existing Instance ListModel.bits_model_laws.
#[local] Existing Instance ByteModel.list_decoder.
#[local] Existing Instance ByteModel.list_decoder_laws.
#[local] Existing Instance ByteModel.toy_sha.
#[local] Existing Instance ByteModel.toy_ed.
#[local] Existing Instance ByteModel.toy_ed_laws.

Lemma lifecycle_completes_witness : exists out, main = Some out /\ pr_denial out = "capability revoked"%string.
Proof. eexists. split; [apply lifecycle_completes|reflexivity]. Defined.

(** The same by running the program. *)
Example main_runs : main = Some (mkPrinted true "capability revoked" true 1).
Proof. vm_compute. reflexivity. Qed.

End Witness.
