(* ===== verification/System.v ===== *)
(** * The kernel as one transition system

    The parts that [BootState] hands out, together with the scheduler and the reservation
    ledger that a host keeps beside them, driven by any interleaving of their public
    operations on one audit log.  [Executor.v] has what a guest can do through three of
    these; here the host acts too: it schedules, dequeues, revokes, rotates generations,
    manages reservations and runs consensus rounds over any transport.

    [kernel_sound] is proved by rule induction over [kernel_reach]: the four invariants
    hold together along every run. *)
From S2P Require Import Prelude Heapless Crypto Types AuditLog Capability Revocation Policy.
From S2P Require Import Ledger Topology Scheduler Reservation Hsm Tpm Manifest Boot Raft Consensus.
From stdpp Require Import base tactics list numbers option strings sets.
Open Scope Z_scope.

(** ** The system *)

Section system.
Context {BH : BinaryHeap WorkItem item_le}.
Context `{HV : HVec} `{IS : IndexSet} `{LM : LinearMap} `{SH : Sha256} `{BF : Bitflags} {N : nat}.
Context {T : Type} `{RT : !RaftTransport T}.

Record Kernel := mkKernel {
  k_boot : BootState;
  k_audit : AuditLog;
  k_sched : Scheduler N;
  k_resv : ReservationLedger;
}.

Definition k_policy (k : Kernel) : Policy := bs_policy (k_boot k).
Definition k_ledger (k : Kernel) : Ledger := bs_ledger (k_boot k).
Definition k_graph (k : Kernel) : OperationalGraph := bs_graph (k_boot k).

Definition kernel_new (boot : BootState) : Kernel := {|
  k_boot := boot; k_audit := AuditLog.new; k_sched := scheduler_new; k_resv := Reservation.new |}.

(** What operations assign; the sealed graph is not among it. *)
Definition update (k : Kernel) (p : Policy) (l : Ledger) (audit : AuditLog) (sch : Scheduler N)
    (resv : ReservationLedger) : Kernel := {|
  k_boot := {| bs_graph := bs_graph (k_boot k); bs_ledger := l; bs_policy := p;
               bs_attestation := bs_attestation (k_boot k); bs_manifest_hash := bs_manifest_hash (k_boot k);
               bs_local_id := bs_local_id (k_boot k) |};
  k_audit := audit; k_sched := sch; k_resv := resv |}.

(** A consensus round comes with its peers, its transport and the fuel of its loops. *)
Inductive kernel_op :=
| KCheck (cap : Capability) (required_right : CapabilitySet)
| KRevoke (token_id : Z)
| KRotate
| KDeduct (node : NodeId) (amount : Z) (resource : string)
| KTraverse (src dst : NodeId)
| KSchedule (item : WorkItem) (cap : Capability)
| KDequeue
| KReservation (o : ledger_op)
| KConsensus (peer_set : PeerSet) (src dst : NodeId) (transport : T) (fuel : nat).

(** Whether the operation passed its gate, whether a consensus round got past the local
    graph, and what entered or left the queue. *)
Record answer := mkAnswer {
  passed : bool;
  entered : bool;
  enqueued : option WorkItem;
  dequeued : option WorkItem;
}.

Definition gate (b : bool) : answer := mkAnswer b false None None.
Definition silent : answer := gate false.

(** The gate of [schedule] has passed also when the queue is full.  A round that aborts, or
    whose fuel does not suffice, is no step. *)
Definition kernel_step (k : Kernel) (o : kernel_op) : option (Kernel * answer) :=
  match o with
  | KCheck cap req =>
      let '(p, audit, r) := Policy.check (k_policy k) cap req (k_audit k) in
      Some (update k p (k_ledger k) audit (k_sched k) (k_resv k), gate (is_ok r))
  | KRevoke id =>
      Some (update k (revoke_capability (k_policy k) id).1 (k_ledger k) (k_audit k) (k_sched k) (k_resv k), silent)
  | KRotate =>
      Some (update k (rotate_generation (k_policy k)) (k_ledger k) (k_audit k) (k_sched k) (k_resv k), silent)
  | KDeduct n amount res =>
      let '(l, audit, r) := enforcer_deduct (k_ledger k) n amount res (k_audit k) in
      Some (update k (k_policy k) l audit (k_sched k) (k_resv k), gate (is_ok r))
  | KTraverse s d =>
      let '(audit, r) := traverse (k_graph k) s d (k_audit k) in
      Some (update k (k_policy k) (k_ledger k) audit (k_sched k) (k_resv k), gate (is_ok r))
  | KSchedule item cap =>
      let '(sch, p, audit, r) := schedule (k_sched k) item cap (k_policy k) (k_audit k) in
      Some (update k p (k_ledger k) audit sch (k_resv k),
            mkAnswer (is_ok r || bool_decide (r = Err Scheduler.err_capacity)) false
              (if is_ok r then Some item else None) None)
  | KDequeue =>
      let '(sch, x) := scheduler_dequeue (k_sched k) in
      Some (update k (k_policy k) (k_ledger k) (k_audit k) sch (k_resv k), mkAnswer false false None x)
  | KReservation o =>
      Some (update k (k_policy k) (k_ledger k) (k_audit k) (k_sched k) (Reservation.apply_op (k_resv k) o), silent)
  | KConsensus ps s d t fuel =>
      match run_topology_consensus fuel (k_boot k) ps s d t (k_audit k) with
      | Returned (_, audit, r) =>
          Some (update k (k_policy k) (k_ledger k) audit (k_sched k) (k_resv k),
                mkAnswer (is_ok r) (is_ok (traverse (k_graph k) s d (k_audit k)).2) None None)
      | _ => None
      end
  end.

(** What the types of the arguments guarantee. *)
Definition kernel_op_ok (o : kernel_op) : Prop :=
  match o with
  | KDeduct n amount _ => node_ok n /\ 0 <= amount
  | KTraverse s d | KConsensus _ s d _ _ => node_ok s /\ node_ok d
  | KCheck cap _ | KSchedule _ cap => node_ok (cap_target cap)
  | _ => True
  end.

(** Runs, with the operations and their answers so far. *)
Inductive kernel_reach (k0 : Kernel) : list (kernel_op * answer) -> Kernel -> Prop :=
| kr_start : kernel_reach k0 [] k0
| kr_step t k o k' a :
    kernel_reach k0 t k -> kernel_op_ok o -> kernel_step k o = Some (k', a) -> kernel_reach k0 (t ++ [(o, a)]) k'.

End system.
Arguments Kernel {BH HV IS LM} N.

(** ** What a run did *)

Section traces.
Context `{HV : HVec} {T : Type}.

Definition trace : Type := list (kernel_op (T := T) * answer).

(** The token an operation has used up: its generation and nonce. *)
Definition accepted (x : kernel_op (T := T) * answer) : option (Z * Z) :=
  match x.1 with
  | KCheck cap _ | KSchedule _ cap =>
      if passed x.2 then Some (cap_generation cap, cap_nonce cap) else None
  | _ => None
  end.

Definition charge (n : NodeId) (x : kernel_op (T := T) * answer) : Z :=
  match x.1 with
  | KDeduct m amount _ => if passed x.2 then if decide (m = n) then amount else 0 else 0
  | _ => 0
  end.

Fixpoint charges (n : NodeId) (t : trace) : Z :=
  match t with [] => 0 | x :: t' => charge n x + charges n t' end.

Fixpoint rotations (t : trace) : Z :=
  match t with [] => 0 | x :: t' => (match x.1 with KRotate => 1 | _ => 0 end) + rotations t' end.

(** The edge an operation was permitted. *)
Definition edge_of (x : kernel_op (T := T) * answer) : option (NodeId * NodeId) :=
  match x.1 with
  | KTraverse s d | KConsensus _ s d _ _ => if passed x.2 then Some (s, d) else None
  | _ => None
  end.

(** The gates that let an operation pass. *)
Definition permitted_kinds (x : kernel_op (T := T) * answer) : list EventKind :=
  let when (b : bool) kind := if b then [kind] else [] in
  match x.1 with
  | KCheck _ _ | KSchedule _ _ => when (passed x.2) CapabilityCheck
  | KDeduct _ _ _ => when (passed x.2) ResourceDeduction
  | KTraverse _ _ => when (passed x.2) TopologyTraverse
  | KConsensus _ _ _ _ _ => when (entered x.2) TopologyTraverse ++ when (passed x.2) TopologyChange
  | _ => []
  end.

Definition gates_passed (t : trace) : list EventKind := mjoin (permitted_kinds <$> t).

Lemma gates_passed_snoc t x : gates_passed (t ++ [x]) = gates_passed t ++ permitted_kinds x.
Proof. unfold gates_passed. rewrite fmap_app, join_app. cbn. by rewrite app_nil_r. Qed.

Lemma charges_app n t t' : charges n (t ++ t') = charges n t + charges n t'.
Proof. induction t; cbn; lia. Qed.

Lemma rotations_app t t' : rotations (t ++ t') = rotations t + rotations t'.
Proof. induction t; cbn; lia. Qed.

Lemma rotations_nonneg t : 0 <= rotations t.
Proof. induction t as [|x t IH]; cbn; [lia|]. destruct x.1; lia. Qed.

End traces.
Arguments trace {HV} T.

(** ** Each gate on the shared log *)

Section facts.
Context {BH : BinaryHeap WorkItem item_le} {BL : BinaryHeapLaws (BH := BH)}.
Context `{HV : HVec} `{IS : IndexSet} `{LM : LinearMap} `{SH : Sha256} `{BF : Bitflags} {N : nat}.
Context `{HL : !HVecLaws} `{IL : !IndexSetLaws} `{LL : !LinearMapLaws}.
Context {T : Type} `{RT : !RaftTransport T}.
Implicit Types (o : kernel_op (T := T)) (k : Kernel N) (log : AuditLog) (p : Policy).

(** The log grew by events of which those [Permitted] are the kinds [ks]. *)
Definition records log (ks : list EventKind) log' : Prop :=
  (log_reachable log -> log_reachable log') /\
  permitted_events (events log') = permitted_events (events log) ++ ks.

Lemma records_refl log : records log [] log.
Proof. split; [done|]. by rewrite app_nil_r. Qed.

Lemma append_records log kind actor (denial : option (DenialClass * string)) :
  in_u32 actor ->
  records log (if negb (is_full log) && bool_decide (denial = None) then [kind] else [])
    (fst (AuditLog.append log kind actor UNTIMED denial)).
Proof using HL.
  intros Ha. destruct (is_full log) eqn:Hf.
  { rewrite append_full by done. apply records_refl. }
  split; [by constructor|].
  destruct (append_room log kind actor UNTIMED denial Hf) as (log' & -> & He & _). cbn [fst].
  rewrite He, permitted_events_app. f_equal. rewrite (permitted_events_one _ (bool_decide (denial = None)) kind); [done|done|].
  cbn. by destruct denial; rewrite ?bool_decide_eq_true.
Qed.

Lemma node_ok_u32 n : node_ok n -> in_u32 n.
Proof. unfold node_ok. width_lia. Qed.

Lemma denial_permits {A} (r : Result A) : bool_decide (denial_of r = None) = is_ok r.
Proof. by destruct r. Qed.

Lemma check_records p cap req log :
  node_ok (cap_target cap) ->
  records log (if is_ok (check p cap req log).2 then [CapabilityCheck] else []) (check p cap req log).1.2.
Proof using HL.
  intros Hn. rewrite check_unfold. cbn [fst snd]. unfold check_denial.
  pose proof (append_records log CapabilityCheck (cap_target cap) (denial_of (check_inner p cap req).2)) as Hr.
  rewrite denial_permits in Hr. destruct (is_full log), (is_ok (check_inner p cap req).2) eqn:E; cbn in *;
    rewrite ?E; by apply Hr, node_ok_u32.
Qed.

Lemma traverse_records g s d log :
  node_ok s ->
  records log (if is_ok (traverse g s d log).2 then [TopologyTraverse] else []) (traverse g s d log).1.
Proof using HL.
  intros Hn. rewrite traverse_unfold. cbn [fst snd].
  pose proof (append_records log TopologyTraverse s (denial_of (traverse_inner g s d))) as Hr.
  rewrite denial_permits in Hr. destruct (is_full log), (is_ok (traverse_inner g s d)) eqn:E; cbn in *;
    rewrite ?E; by apply Hr, node_ok_u32.
Qed.

Lemma deduct_records l n amount res log :
  node_ok n ->
  records log (if is_ok (enforcer_deduct l n amount res log).2 then [ResourceDeduction] else [])
    (enforcer_deduct l n amount res log).1.2.
Proof using HL.
  intros Hn. unfold enforcer_deduct. destruct (is_full log) eqn:Hf; [apply records_refl|].
  destruct (deduct l n amount) as [l' rem]. set (r := ok_or rem (QuotaExceeded res)).
  pose proof (append_records log ResourceDeduction n (denial_of r) (node_ok_u32 n Hn)) as Hr.
  rewrite denial_permits, Hf in Hr. by destruct (AuditLog.append _ _ _ _ _).
Qed.

(** A round logs the traversal and its outcome.  If the traversal takes the last place, the
    outcome of a committed round is missing. *)
Definition logs log (ks : list EventKind) log' : Prop :=
  exists ks', records log ks' log' /\ (ks = ks' \/ (is_full log' = true /\ ks = ks' ++ [TopologyChange])).

Lemma records_logs log ks log' : records log ks log' -> logs log ks log'.
Proof. intros H. exists ks. auto. Qed.

Lemma records_trans log ks log' ks' log'' :
  records log ks log' -> records log' ks' log'' -> records log (ks ++ ks') log''.
Proof. intros [H1 E1] [H2 E2]. split; [by auto|]. by rewrite E2, E1, app_assoc. Qed.

Lemma records_same log ks : records log ks log -> ks = [].
Proof. intros [_ E%(f_equal length)]. rewrite length_app in E. apply length_zero_iff_nil. lia. Qed.

(** The outcome of a round, appended after the traversal. *)
Lemma outcome_logs log s (ok : bool) :
  node_ok s ->
  logs log (if ok then [TopologyChange] else [])
    (AuditLog.append log TopologyChange s UNTIMED (if ok then None else not_reached)).1.
Proof using HL.
  intros Hs. pose proof (append_records log TopologyChange s (if ok then None else not_reached) (node_ok_u32 s Hs)) as Hr.
  destruct (is_full log) eqn:Hf; cbn [negb andb] in Hr.
  - rewrite append_full in * by done. exists []. split; [done|]. destruct ok; [by right|by left].
  - apply records_logs. by destruct ok.
Qed.

Lemma consensus_logs fuel st ps s d (t t' : T) log log' r :
  node_ok s -> run_topology_consensus fuel st ps s d t log = Returned (t', log', r) ->
  logs log ((if is_ok (traverse (bs_graph st) s d log).2 then [TopologyTraverse] else []) ++
            (if is_ok r then [TopologyChange] else [])) log'.
Proof using HL.
  intros Hs Hrun. pose proof (traverse_records (bs_graph st) s d log Hs) as Ht.
  destruct (is_ok (traverse (bs_graph st) s d log).2) eqn:Hok.
  2: { rewrite local_denied in Hrun by (intros E; by rewrite E in Hok). injection Hrun as _ <- <-. by apply records_logs. }
  assert (forall log2 ks, logs (traverse (bs_graph st) s d log).1 ks log2 -> logs log ([TopologyTraverse] ++ ks) log2) as Hadd.
  { intros log2 ks (ks' & Hr & Hk). exists ([TopologyTraverse] ++ ks'). split; [by eapply records_trans|].
    destruct Hk as [->|[? ->]]; [by left|right]. by rewrite app_assoc. }
  unfold run_topology_consensus in Hrun. destruct (traverse (bs_graph st) s d log) as [log1 loc]. cbn [fst snd] in *.
  rewrite Hok in Hrun. cbn [negb] in Hrun. apply Hadd.
  destruct (start_election _ t) as [[n1 t1]|]; [|done].
  destruct (if negb (is_leader n1) then _ else _) as [[n2 t2]| |]; [|done..].
  destruct (negb (is_leader n2)).
  - injection Hrun as _ <- <-. exact (outcome_logs log1 s false Hs).
  - destruct (propose_and_commit_result _ _ _ _ _ _ _ _ _ Hrun) as [[-> _]|[-> ->]].
    + by apply outcome_logs.
    + apply records_logs, records_refl.
Qed.

(** [schedule] is the gate followed by the queue. *)
Lemma schedule_unfold (sch : Scheduler N) item cap p log :
  let c := check p cap SCHEDULE log in
  let '(sch', p', log', r) := schedule sch item cap p log in
  (p', log') = c.1 /\ is_ok r || bool_decide (r = Err Scheduler.err_capacity) = is_ok c.2 /\
  (if is_ok r then items (sched_queue sch') ≡ₚ item :: items (sched_queue sch) else sch' = sch).
Proof using BL HL.
  unfold schedule. pose proof (check_errors p cap SCHEDULE log) as He.
  destruct (check p cap SCHEDULE log) as [[p' l'] [[]|e]]; cbn.
  - destruct (enqueue_cases (sched_queue sch) item) as [(_ & q' & -> & Hp)|(_ & ->)]; cbn.
    + done.
    + split; [done|]. split; [done|]. by destruct sch.
  - split; [done|]. split; [|done]. apply bool_decide_eq_false. intros [= ->].
    by destruct (He _ eq_refl) as [|[? ?]].
Qed.

(** ** Each step, part by part *)

Lemma step_graph k o k' a : kernel_step k o = Some (k', a) -> k_graph k' = k_graph k.
Proof. destruct o; cbn; intros; repeat case_match; by simplify_eq. Qed.

Lemma step_edge k o k' a s d :
  kernel_op_ok o -> kernel_step k o = Some (k', a) -> edge_of (o, a) = Some (s, d) ->
  node_ok s /\ node_ok d /\ traverse_inner (k_graph k) s d = Ok tt.
Proof using HL.
  unfold edge_of. intros Hok Hs. destruct o as [| | | |s' d'| | | |ps s' d' t fuel]; try done; cbn in *.
  - rewrite traverse_unfold in Hs. injection Hs as <- <-. cbn.
    destruct (traverse_inner (k_graph k) s' d') as [[]|e] eqn:E; [|by rewrite andb_false_r].
    rewrite andb_true_r. destruct (is_full (k_audit k)); [done|]. intros [= <- <-]. by destruct Hok.
  - destruct (run_topology_consensus _ _ _ _ _ _ _) as [[[t' log'] r]| |] eqn:Hrun; [|done..].
    injection Hs as <- <-. cbn. destruct r as [[]|e]; cbn; [|done]. intros [= <- <-].
    destruct Hok as [Hs Hd]. split; [done|]. split; [done|]. by destruct (consensus_permits _ _ _ _ _ _ _ _ _ Hrun).
Qed.

(** A balance moved from [x] to [x'] by a charge [c] that it covers. *)
Definition covers (x : option Z) (c : Z) (x' : option Z) : Prop :=
  x' = (fun b => b - c) <$> x /\ 0 <= c <= default 0 x \/ x' = x /\ c = 0.

Lemma covers_trans x c x' c' x'' : covers x c x' -> covers x' c' x'' -> covers x (c + c') x''.
Proof.
  unfold covers. intros [(-> & Hc)|(-> & ->)] [(-> & Hc')|(-> & ->)];
    rewrite ?Z.add_0_r, ?Z.add_0_l; [left|left; done|left; done|by right].
  destruct x as [b|]; cbn in *; [|split; [done|lia]]. split; [f_equal; lia|lia].
Qed.

(** The balances move by exactly what was charged, which they cover. *)
Lemma step_balance k o k' a n :
  kernel_op_ok o -> kernel_step k o = Some (k', a) ->
  covers (balance (k_ledger k) n) (charge n (o, a)) (balance (k_ledger k') n).
Proof using LL HL.
  intros Hok Hs. destruct o as [| | |m amount res| | | | |];
    try (right; split; [cbn in Hs; repeat case_match; by simplify_eq|done]).
  cbn in Hs, Hok. destruct Hok as [_ Hnn].
  pose proof (enforcer_step (k_ledger k) m amount res (k_audit k) n) as Hb.
  pose proof (enforcer_cases (k_ledger k) m amount res (k_audit k)) as Hc.
  destruct (enforcer_deduct _ _ _ _ _) as [[l' log'] r]. injection Hs as <- <-.
  destruct Hc as (Hiff & Herr & _). unfold charge; cbn in *.
  destruct r as [b'|e]; cbn in *; [|right; by rewrite Herr]. case_decide as Hd.
  - left. split; [done|]. subst n. destruct (proj1 Hiff eq_refl) as (_ & b & -> & Hle). cbn. lia.
  - right. split; [|done]. rewrite Hb. destruct (balance (k_ledger k) n); cbn; f_equal; lia.
Qed.

(** A gate operation accepts a token of the current generation that was not spent, and
    only a rotation forgets. *)
Record token_step (p : Policy) (tok : option (Z * Z)) (p' : Policy) : Prop := {
  ts_generation : current_generation p' = current_generation p;
  ts_spent : forall n, spent p n -> spent p' n;
  ts_accepts : forall g n, tok = Some (g, n) -> g = current_generation p /\ ~ spent p n /\ spent p' n;
}.

Lemma token_idle p : token_step p None p.
Proof. by split. Qed.

Lemma check_token p cap req log :
  token_step p (if is_ok (check p cap req log).2 then Some (cap_generation cap, cap_nonce cap) else None)
    (check p cap req log).1.1.
Proof using HL.
  pose proof (check_branches p cap req log) as Hb.
  destruct (check p cap req log) as [[p' l'] r]. cbn. destruct Hb as [Hn Hy].
  destruct (decide (admissible p cap req)) as [Ha|Ha].
  - destruct (Hy Ha) as (_ & Hg & _ & Hu). split; [done| |].
    + intros n. unfold spent. rewrite Hu, elem_of_app. by left.
    + intros g n Htok. destruct (is_ok r); [|done]. injection Htok as <- <-.
      split; [|split; [apply Ha|unfold spent; rewrite Hu, elem_of_app; right; by apply list_elem_of_singleton]].
      destruct (decide (cap_generation cap = current_generation p)) as [|Hne]; [done|].
      by destruct (not_admissible_generation _ _ req Hne).
  - destruct (Hn Ha) as [-> ->]. apply token_idle.
Qed.

Lemma step_token k o k' a :
  kernel_step k o = Some (k', a) ->
  o = KRotate /\ k_policy k' = rotate_generation (k_policy k) /\ accepted (o, a) = None \/
  o <> KRotate /\ token_step (k_policy k) (accepted (o, a)) (k_policy k').
Proof using HL IL BL.
  destruct o as [cap req|id| | | |item cap| | |]; intros Hs; cbn in Hs;
    try (right; split; [done|]; repeat case_match; simplify_eq; apply token_idle).
  - right. split; [done|]. pose proof (check_token (k_policy k) cap req (k_audit k)) as Ht.
    destruct (check _ _ _ _) as [[p' l'] r]. by injection Hs as <- <-.
  - right. split; [done|]. injection Hs as <- <-. cbn.
    destruct (op_persists (k_policy k, k_audit k) (OpRevoke id) ltac:(done)) as [Hg Hsp _]. by split.
  - left. by injection Hs as <- <-.
  - right. split; [done|]. pose proof (schedule_unfold (k_sched k) item cap (k_policy k) (k_audit k)) as Hu.
    pose proof (check_token (k_policy k) cap SCHEDULE (k_audit k)) as Ht.
    destruct (schedule _ _ _ _ _) as [[[sch' p'] l'] r]. injection Hs as <- <-.
    destruct Hu as (Hc & Hp & _). unfold accepted; cbn. rewrite Hp.
    destruct (check _ _ _ _) as [[p1 l1] r1]. cbn in *. by injection Hc as -> ->.
Qed.

Definition queued k : list WorkItem := items (sched_queue (k_sched k)).

Lemma step_queue k o k' a :
  kernel_step k o = Some (k', a) ->
  option_list (enqueued a) ++ queued k ≡ₚ option_list (dequeued a) ++ queued k'.
Proof using BL HL.
  unfold queued. destruct o as [| | | | |item cap| | |]; intros Hs; cbn in Hs;
    try (repeat case_match; by simplify_eq).
  - pose proof (schedule_unfold (k_sched k) item cap (k_policy k) (k_audit k)) as Hu.
    destruct (schedule _ _ _ _ _) as [[[sch' p'] l'] r]. injection Hs as <- <-. cbn.
    destruct Hu as (_ & _ & Hq). destruct (is_ok r); [by rewrite Hq|by subst].
  - unfold scheduler_dequeue in Hs.
    destruct (dequeue_cases (sched_queue (k_sched k))) as [(He & Hd)|(item & q' & Hd & Hp & _)];
      rewrite Hd in Hs; injection Hs as <- <-; [done|exact Hp].
Qed.

Lemma step_audit k o k' a :
  kernel_op_ok o -> kernel_step k o = Some (k', a) -> logs (k_audit k) (permitted_kinds (o, a)) (k_audit k').
Proof using HL BL.
  intros Hok Hs. destruct o as [cap req| | |n amount res|s d|item cap| | |ps s d t fuel]; cbn in Hok, Hs;
    try (repeat case_match; simplify_eq; apply records_logs, records_refl).
  - pose proof (check_records (k_policy k) cap req (k_audit k) Hok) as Hr.
    destruct (check _ _ _ _) as [[p' l'] r]. injection Hs as <- <-. by apply records_logs.
  - destruct Hok as [Hok _]. pose proof (deduct_records (k_ledger k) n amount res (k_audit k) Hok) as Hr.
    destruct (enforcer_deduct _ _ _ _ _) as [[l' log'] r]. injection Hs as <- <-. by apply records_logs.
  - destruct Hok as [Hok _]. pose proof (traverse_records (k_graph k) s d (k_audit k) Hok) as Hr.
    destruct (traverse _ _ _ _) as [log' r]. injection Hs as <- <-. by apply records_logs.
  - pose proof (check_records (k_policy k) cap SCHEDULE (k_audit k) Hok) as Hr.
    pose proof (schedule_unfold (k_sched k) item cap (k_policy k) (k_audit k)) as Hu.
    destruct (schedule _ _ _ _ _) as [[[sch' p'] l'] r]. injection Hs as <- <-.
    destruct Hu as (Hc & Hp & _). unfold permitted_kinds; cbn. rewrite Hp.
    destruct (check _ _ _ _) as [[p1 l1] r1]. cbn in *. injection Hc as -> ->. by apply records_logs.
  - destruct Hok as [Hok _]. destruct (run_topology_consensus _ _ _ _ _ _ _) as [[[t' log'] r]| |] eqn:Hrun; [|done..].
    injection Hs as <- <-. exact (consensus_logs _ _ _ _ _ _ _ _ _ _ Hok Hrun).
Qed.

(** Once the log is full nothing passes a gate. *)
Lemma step_full k o k' a :
  kernel_op_ok o -> kernel_step k o = Some (k', a) -> is_full (k_audit k) = true ->
  k_audit k' = k_audit k /\ permitted_kinds (o, a) = [].
Proof using HL BL.
  intros Hok Hs Hf.
  assert (forall g s d, (traverse g s d (k_audit k)).1 = k_audit k /\ is_ok (traverse g s d (k_audit k)).2 = false) as Ht.
  { intros g s d. rewrite traverse_unfold, Hf, append_full by done. by destruct (traverse_inner g s d). }
  assert (k_audit k' = k_audit k) as E.
  { destruct o as [cap req| | |n amount res|s d|item cap| | |ps s d t fuel]; cbn in Hs;
      try (repeat case_match; by simplify_eq).
    - rewrite check_unfold in Hs. rewrite append_full in Hs by done. by injection Hs as <- _.
    - unfold enforcer_deduct in Hs. rewrite Hf in Hs. by injection Hs as <- _.
    - destruct (Ht (k_graph k) s d) as [E _]. destruct (traverse _ _ _ _). by injection Hs as <- _.
    - pose proof (schedule_unfold (k_sched k) item cap (k_policy k) (k_audit k)) as Hu.
      cbn zeta in Hu. rewrite check_unfold in Hu. rewrite append_full in Hu by done. destruct (schedule _ _ _ _ _) as [[[sch' p'] l'] r].
      injection Hs as <- _. by destruct Hu as ([= _ ->] & _).
    - destruct (Ht (bs_graph (k_boot k)) s d) as [E Hno].
      rewrite local_denied in Hs by (intros X; by rewrite X in Hno). by injection Hs as <- _. }
  split; [done|]. destruct (step_audit k o k' a Hok Hs) as (ks & Hr & [->|[_ Ek]]).
  - rewrite E in Hr. by eapply records_same.
  - (* the traversal of a round cannot have been logged *)
    rewrite E in Hr. apply records_same in Hr as ->. cbn in Ek.
    destruct o as [cap req| | |n amount res|s d|item cap| | |ps s d t fuel]; unfold permitted_kinds in *; cbn in *;
      try done; try (by destruct (passed a)).
    destruct (Ht (bs_graph (k_boot k)) s d) as [_ Hno]. rewrite local_denied in Hs by (intros X; by rewrite X in Hno).
    injection Hs as <- <-. unfold k_graph in *. cbn in *. by rewrite Hno.
Qed.

(** ** Every run *)

Lemma omap_snoc {A B} (f : A -> option B) l x : omap f (l ++ [x]) = omap f l ++ option_list (f x).
Proof. by rewrite omap_app. Qed.

Lemma run_graph k0 t k : kernel_reach k0 t k -> k_graph k = k_graph k0.
Proof. induction 1 as [|t k o k' a _ IH _ Hs]; [done|]. by rewrite (step_graph _ _ _ _ Hs). Qed.

Lemma run_edges k0 t k s d :
  kernel_reach k0 t k -> (s, d) ∈ omap edge_of t ->
  node_ok s /\ node_ok d /\ traverse_inner (k_graph k0) s d = Ok tt.
Proof using HL.
  induction 1 as [|t k o k' a Hr IH Hok Hs]; [by intros ?%not_elem_of_nil|]. rewrite omap_snoc.
  intros [?|Hx]%elem_of_app; [by apply IH|]. destruct (edge_of (o, a)) as [e|] eqn:He; [|by apply not_elem_of_nil in Hx].
  apply list_elem_of_singleton in Hx as <-. rewrite <- (run_graph _ _ _ Hr). by eapply step_edge.
Qed.

Lemma run_balance k0 t k n :
  kernel_reach k0 t k -> covers (balance (k_ledger k0) n) (charges n t) (balance (k_ledger k) n).
Proof using LL HL.
  induction 1 as [|t k o k' a _ IH Hok Hs]; [by right|]. rewrite charges_app. cbn. rewrite Z.add_0_r.
  eapply covers_trans; [exact IH|]. by apply step_balance.
Qed.

Lemma run_queue k0 t k :
  kernel_reach k0 t k ->
  omap (enqueued ∘ snd) t ++ queued k0 ≡ₚ omap (dequeued ∘ snd) t ++ queued k.
Proof using BL HL.
  induction 1 as [|t k o k' a _ IH _ Hs]; [done|]. rewrite !omap_snoc. cbn.
  rewrite (Permutation_app_comm (omap _ t)), <- app_assoc, IH, !app_assoc.
  rewrite (Permutation_app_comm (option_list _)), <- !app_assoc. by rewrite (step_queue _ _ _ _ Hs).
Qed.

(** The log holds the gates passed, but for one outcome of a round at its end. *)
Lemma run_audit k0 t k : kernel_reach k0 t k -> logs (k_audit k0) (gates_passed t) (k_audit k).
Proof using BL HL.
  induction 1 as [|t k o k' a _ (ks & Hr & Hk) Hok Hs]; [apply records_logs, records_refl|].
  rewrite gates_passed_snoc. destruct Hk as [->|[Hf ->]].
  - destruct (step_audit _ _ _ _ Hok Hs) as (ks' & Hr' & Hk'). exists (ks ++ ks'). split; [by eapply records_trans|].
    destruct Hk' as [->|[? ->]]; [by left|right]. by rewrite app_assoc.
  - destruct (step_full _ _ _ _ Hok Hs Hf) as [-> ->]. exists ks. split; [done|right]. by rewrite app_nil_r.
Qed.

(** The tokens accepted so far are of generations up to the current one, and those of the
    current one are spent. *)
Record tokens_inv (p : Policy) (toks : list (Z * Z)) : Prop := {
  ti_past : Forall (fun x : Z * Z => x.1 <= current_generation p) toks;
  ti_spent : Forall (fun x : Z * Z => x.1 = current_generation p -> spent p x.2) toks;
  ti_nodup : NoDup toks;
}.

Lemma tokens_step p toks tok p' :
  tokens_inv p toks -> token_step p tok p' -> tokens_inv p' (toks ++ option_list tok).
Proof.
  intros [Hp Hs Hn] [Hg Hsp Ha]. rewrite Forall_forall in Hp, Hs.
  assert (forall x, x ∈ toks -> x.1 <= current_generation p' /\ (x.1 = current_generation p' -> spent p' x.2)) as Hold.
  { intros x Hx. rewrite Hg. split; [by apply Hp|]. intros He. by apply Hsp, Hs. }
  destruct tok as [[g n]|]; cbn.
  2: { rewrite app_nil_r. split; [apply Forall_forall; apply Hold..|done]. }
  destruct (Ha g n eq_refl) as (-> & Hfresh & Hnow). split.
  - apply Forall_app. split; [apply Forall_forall; apply Hold|]. repeat constructor. cbn. lia.
  - apply Forall_app. split; [apply Forall_forall; apply Hold|]. by repeat constructor.
  - apply NoDup_app. split; [done|]. split; [|apply NoDup_singleton].
    intros x Hx ->%list_elem_of_singleton. by apply Hfresh, (Hs _ Hx).
Qed.

Lemma tokens_rotate p toks :
  current_generation p < U64_MAX -> tokens_inv p toks -> tokens_inv (rotate_generation p) toks.
Proof.
  intros Hlt [Hp _ Hn]. pose proof (rotate_below_max p Hlt) as Hg. split; [| |done]; rewrite Hg;
    (eapply Forall_impl; [exact Hp|]); cbn; intros x Hx; [lia|]. intros ?. lia.
Qed.

Lemma run_tokens k0 t k :
  kernel_reach k0 t k -> current_generation (k_policy k0) + rotations t <= U64_MAX ->
  current_generation (k_policy k) = current_generation (k_policy k0) + rotations t /\
  tokens_inv (k_policy k) (omap accepted t).
Proof using BL HL IL.
  induction 1 as [|t k o k' a _ IH _ Hs]; intros Hb.
  { cbn. split; [lia|]. split; constructor. }
  rewrite rotations_app in *. cbn [rotations] in *. rewrite omap_snoc.
  destruct (step_token _ _ _ _ Hs) as [(-> & Hp & Ha)|(Hne & Ht)].
  - cbn [fst] in *. rewrite Ha, Hp. cbn [option_list]. rewrite app_nil_r.
    destruct IH as [Hg Hi]; [lia|]. rewrite rotate_below_max by lia.
    split; [lia|]. apply tokens_rotate; [lia|done].
  - assert (rotations [(o, a)] = 0) as Hz by (by destruct o). cbn [rotations] in Hz. rewrite Hz, Z.add_0_r in *.
    destruct (IH Hb) as [Hg Hi]. split; [by rewrite (ts_generation _ _ _ Ht)|]. by eapply tokens_step.
Qed.

Lemma run_reservations k0 t k : kernel_reach k0 t k -> ids_wf (k_resv k0) -> ids_wf (k_resv k).
Proof using HL.
  induction 1 as [|t k o k' a _ IH _ Hs]; [done|]. intros Hw. specialize (IH Hw).
  destruct o; cbn in Hs; repeat case_match; simplify_eq; try done. by apply op_ids_wf.
Qed.

(** ** From the manifest to any run *)

Section booted.
Context `{DE : Decoder} `{DL : !DecoderLaws}.
Context {H : Type} `{HP : HsmProvider H} {P : Type} `{TP : TpmProvider P}.

(** C1: The kernel as a whole.  Boot a signed manifest [m] and let host and guests
    interleave authorisation checks, scheduling, dequeuing, traversals, deductions,
    revocations, rotations, reservation operations and consensus rounds over any transport
    in any order.  Then every edge that a traversal or a round was permitted is an edge of
    [m]; each balance is the declared quota less the permitted
    deductions, which stay within it; no token, that is no pair of generation and nonce,
    passes a gate twice, be it at [check] or at [schedule], as long as the generation counter
    has not run out; every item scheduled is dequeued once or still queued; reservation
    identifiers are unique; the audit chain verifies; and the [Permitted] events are, in
    order, exactly the gates that operations passed, except that the outcome of one
    committed round is missing if its traversal filled the log. *)
Theorem kernel_sound raw (creds : BootCredentials H) (tpm tpm' : P) st m t (k : Kernel N) :
  initialise_with_tpm raw creds tpm = (tpm', Ok st) -> Manifest.decode raw creds = Ok m ->
  kernel_reach (kernel_new st) t k ->
  (forall s d, (s, d) ∈ omap edge_of t -> permits_edge m s d = true) /\
  (forall n, balance (k_ledger k) n = (fun q => Quota_get q - charges n t) <$> quota_for m n /\
             0 <= charges n t <= default 0 (Quota_get <$> quota_for m n)) /\
  (rotations t <= U64_MAX -> NoDup (omap accepted t)) /\
  omap (enqueued ∘ snd) t ≡ₚ omap (dequeued ∘ snd) t ++ queued k /\
  (next_id (k_resv k) < U64_MAX -> NoDup (rv_id <$> slice (k_resv k))) /\
  verify_chain (k_audit k) = true /\
  (gates_passed t = permitted_events (events (k_audit k)) \/
   is_full (k_audit k) = true /\ gates_passed t = permitted_events (events (k_audit k)) ++ [TopologyChange]).
Proof using BL HL IL LL DL.
  intros Hi Hd Hr. destruct (boot_sound _ _ _ _ _ Hi) as (m' & Hd' & [Hedge Hq] & Hpol & _).
  assert (m' = m) as -> by congruence.
  destruct (run_audit _ _ _ Hr) as (ks & [Hl He] & Hk). split; [|split; [|split; [|split; [|split; [|split]]]]].
  - intros s d Hin. destruct (run_edges _ _ _ _ _ Hr Hin) as (Hs & Hdn & Ht). by apply Hedge.
  - intros n. pose proof (run_balance _ _ _ n Hr) as Hc. unfold k_ledger at 1 in Hc. cbn [k_boot kernel_new] in Hc.
    rewrite Hq in Hc. pose proof (quota_nonneg m n) as Hnn. pose proof (decode_ok _ _ _ Hd) as Hm.
    destruct Hc as [(-> & Hc)|(-> & ->)]; destruct (quota_for m n) as [q|]; cbn in *; try done.
    specialize (Hnn q Hm eq_refl). rewrite Z.sub_0_r. split; [done|lia].
  - intros Hb. apply (run_tokens _ _ _ Hr). unfold k_policy. cbn. by rewrite Hpol.
  - pose proof (run_queue _ _ _ Hr) as Hp. unfold queued at 1 in Hp. cbn in Hp.
    by rewrite new_items, app_nil_r in Hp.
  - apply (run_reservations _ _ _ Hr). apply new_ids_wf.
  - apply reachable_wf, Hl. constructor.
  - assert (permitted_events (events (k_audit k)) = ks) as ->; [|exact Hk].
    rewrite He. unfold events at 1, kernel_new, AuditLog.new. cbn [k_audit al_events]. by rewrite hv_slice_new.
Qed.

End booted.
End facts.

(** ** Witnesses *)

Module Witness.
#[local] Existing Instance ListModel.list_hvec.
#[local] Existing Instance ListModel.list_hvec_laws.
#[local] Existing Instance ListModel.list_iset.
#[local] Existing Instance ListModel.list_iset_laws.
#[local] Existing Instance ListModel.list_lmap.
#[local] Existing Instance ListModel.list_lmap_laws.
#[local] Existing Instance ListModel.bits_model.
#[local] Existing Instance ByteModel.toy_sha.
#[local] Existing Instance ByteModel.toy_ed.
#[local] Existing Instance ByteModel.list_decoder.
#[local] Existing Instance ByteModel.list_decoder_laws.
#[local] Existing Instance Scheduler.Witness.item_heap.
#[local] Existing Instance Scheduler.Witness.item_heap_laws.
Import Manifest.Witness.

(** A run of a list of operations is a run of the relation. *)
Fixpoint drive (k : Kernel 4) (ops : list (kernel_op (T := Outbox))) : option (Kernel 4 * trace Outbox) :=
  match ops with
  | [] => Some (k, [])
  | o :: ops' =>
      '(k1, a) ← kernel_step k o;
      '(k2, t) ← drive k1 ops';
      Some (k2, (o, a) :: t)
  end.

Lemma drive_reach k0 ops : forall t k k' t', kernel_reach k0 t k -> Forall kernel_op_ok ops ->
  drive k ops = Some (k', t') -> kernel_reach k0 (t ++ t') k'.
Proof.
  induction ops as [|o ops IH]; intros t k k' t' Hr Hok; cbn [drive]; [intros [= <- <-]; by rewrite app_nil_r|].
  intros ([k1 a] & Hs & H1)%bind_Some. apply bind_Some in H1 as ([k2 t2] & Hd & [= <- <-]).
  inversion_clear Hok as [|? ? Ho Hops]. rewrite cons_middle, app_assoc.
  eapply IH; [by eapply kr_step|done|done].
Qed.

Definition cap0 : Capability := mkCap 1 2 SCHEDULE 0 100.
Definition item0 : WorkItem := mkItem 3 2 7.

(** A token is used to schedule, replayed, and used again after a rotation; the node agrees
    with itself on a traversal. *)
Definition script : list (kernel_op (T := Outbox)) :=
  [KSchedule item0 cap0; KCheck cap0 SCHEDULE; KDequeue; KDeduct 1 40 "compute"; KTraverse 1 2;
   KReservation (Reserve 1 SCHEDULE 0 100 10 5); KConsensus peers_new 1 2 [] 0; KRotate; KCheck cap0 SCHEDULE; KRevoke 7].

Lemma script_ok : Forall kernel_op_ok script.
Proof. repeat constructor; ground. Qed.

(** What the operations answered on a kernel booted from the manifest of [Manifest.v]. *)
Definition booted : option BootState :=
  match initialise_with_tpm wire0 creds0 tpm_new with (_, Ok st) => Some st | _ => None end.

Definition run0 : option (Kernel 4 * trace Outbox) := st ← booted; drive (kernel_new st) script.

Definition summary (x : Kernel 4 * list (kernel_op (T := Outbox) * answer)) :
    list answer * list EventKind * list (NodeId * NodeId) * Z :=
  (snd <$> x.2, gates_passed x.2, omap edge_of x.2, rotations x.2).

Lemma script_answers :
  summary <$> run0 = Some
    ([mkAnswer true false (Some item0) None; silent; mkAnswer false false None (Some item0); gate true; gate true;
      silent; mkAnswer true true None None; silent; silent; silent],
     [CapabilityCheck; ResourceDeduction; TopologyTraverse; TopologyTraverse; TopologyChange],
     [(1, 2); (1, 2)], 1).
Proof. vm_compute. reflexivity. Qed.

(** The run exists and is one of the relation. *)
Lemma script_run st tpm : initialise_with_tpm wire0 creds0 tpm_new = (tpm, Ok st) ->
  exists (k : Kernel 4) t, kernel_reach (T := Outbox) (kernel_new st) t k /\ (1, 2) ∈ omap edge_of t /\ rotations t <= U64_MAX.
Proof.
  intros Hst. assert (run0 = drive (kernel_new st) script) as Hr0 by (unfold run0, booted; by rewrite Hst).
  pose proof script_answers as Hrun. rewrite Hr0 in Hrun. apply fmap_Some in Hrun as ([k t] & Hd & Hsum).
  injection Hsum as _ _ Hedges Hrot. exists k, t.
  split; [exact (drive_reach (kernel_new st) script [] _ k t (kr_start _) script_ok Hd)|].
  rewrite <- Hedges, <- Hrot. split; [by left|done].
Qed.

Lemma kernel_sound_witness : exists m (st : BootState) t (k : Kernel 4),
  Manifest.decode wire0 creds0 = Ok m /\ kernel_reach (T := Outbox) (kernel_new st) t k /\ permits_edge m 1 2 = true /\
  NoDup (omap accepted t) /\ verify_chain (k_audit k) = true /\
  (forall n, 0 <= charges n t <= default 0 (Quota_get <$> quota_for m n)).
Proof.
  destruct Boot.Witness.boots as (tpm & st & Hst). destruct Boot.Witness.decodes as [m Hm].
  destruct (script_run st tpm Hst) as (k & t & Hr & Hin & Hrot). exists m, st, t, k. split; [exact Hm|]. split; [exact Hr|].
  destruct (kernel_sound wire0 creds0 tpm_new tpm st m t k Hst Hm Hr) as (He & Hb & Hn & _ & _ & Hc & _).
  split; [exact (He 1 2 Hin)|]. split; [exact (Hn Hrot)|]. split; [exact Hc|]. intros n. apply Hb.
Defined.

End Witness.
